(* ===== verification/_CoqProject ===== *)
-Q . S2P
Prelude.v
IOBuffer.v
BufferHeap.v
Simd.v
FrameDecoder.v
HTTPConstants.v
Base64.v
HTTPHeaders.v
Scanner.v
RequestMessage.v
RequestParser.v
RequestGrammar.v
ResponseMessage.v
ResponseParser.v
ResponseGrammar.v
HTTPTemplates.v
NetworkStream.v
UnixTime.v
SyncStream.v
RequestSession.v
ResponseSession.v
HTTPProxy.v
Socket.v
ThreadPool.v
Synchronize.v
Vector.v
Containers.v
EventLoop.v
