(* ===== verification/Prelude.v ===== *)
(** * Blueth: a verification library

    Blueth (src/blueth, C++20, header only) is a networking library: a byte
    buffer, a vectorised character search and a frame decoder over it, HTTP/1
    messages with their printers and parsers, blocking and TLS network streams,
    an HTTP proxy client, an epoll event loop, a thread pool, locked data and some
    containers. This library
    models these parts as executable definitions, one file per component, and
    proves what makes them correct; where the code does something else than it
    means to, the theorem states what it does.

    ** Outcomes

    [res A] is the outcome of a piece of the program: a value, an exception, the
    end of the program, undefined behaviour with its reason, or no result within
    the fuel given to a loop. A method that changes an object and the world
    behind it is a computation [io S A] that keeps its state when it throws.
    Bytes are [ascii]; a block of memory is a list of cells, [None] for one that
    was never written; [size_t] and [int] are [Z] with their wrap-around written
    out. The C library's functions that the code relies on ([isprint], [isdigit],
    [atoi], [std::to_string]) are defined in this file with their domains.

    ** Parts

    - [IOBuffer] (io/IOBuffer.hpp): the buffer with its block, offsets and
      capacity. Whether an allocation succeeds is the class [Allocator]. The
      abstraction [repr b s] says that buffer [b] holds the bytes [s]; buffers
      that hold the same bytes are equivalent ([Equiv], with [Proper] instances).
      The refinement theorem runs programs over an abstract byte queue on it.
    - [BufferHeap] (the same class): buffers as objects with a pointer into the
      memory of [malloc], which are declared, moved, used and destroyed. It shows
      that every block has one owner as long as the calls are careful, so that the
      buffers of the other files may be values that have their block, and treats
      what only the pointers tell: the calls that are not careful.
    - [Simd] (utils/simd.hpp): the vector classes lane by lane and the two
      searches, against a byte-by-byte search. [FrameDecoder]
      (codec/LineBasedFrameDecoder.hpp) is their client.
    - [HTTPConstants] (http/HTTPConstants.hpp, http/HTTPParserCommon.hpp): the
      enumerations, the character classes, the reason phrases.
    - [HTTPHeaders] (http/HTTPHeaders.hpp): the header table as a finite map; the
      order in which the hash table is iterated is the class [HashOrder], of
      which only that it is a permutation is used.
    - [RequestMessage], [ResponseMessage] (http/HTTPMessage.hpp): the messages and
      their printers. [RequestParser] (http/HTTPParserStateMachine.hpp) and
      [ResponseParser] (http/HTTPParserStateMachineResponse.hpp): the two state
      machines over the memory of a buffer, the [switch] split into the request
      or status line and the headers; both are shown equal to a machine [run] on
      the list of bytes that is left, on which the theorems are proved.
    - [RequestGrammar], [ResponseGrammar]: the texts the two parsers accept, as
      records of parts, over [Scanner], the theory of a machine that reads runs of
      characters up to a delimiter.
    - [HTTPTemplates] (http/HTTPCommonResponseMessageTemplate.hpp): the ready-made
      responses; the string of the clock is an argument.
    - [Base64] (utils/Base64.hpp): encoder and decoder.
    - [NetworkStream] (net/NetworkStream.hpp): the interface, a class of
      operations, and what a user may rely on, a class of laws: its documentation
      without the exceptions it promises of a stream whose buffer was taken,
      which the clients throw only in part. [SyncStream]
      (net/SyncNetworkStreamClient.hpp, net/SyncNetworkStreamClientSSL.hpp): the
      plain and the TLS client, which implement the contract, with the deleters
      of the TLS handles (utils/SSLHelpers.hpp); the calls of the C library and of
      wolfSSL are the class [System], what they hold for the program the class
      [Resources].
    - [RequestSession]: how a caller uses the parts together, reading from a
      stream and parsing what has arrived until the request is complete. It is
      stated over the contract of the interface and run over the plain client.
      [ResponseSession] does it for responses, which are parsed when they are there.
    - [UnixTime] (utils/UnixTime.hpp): a time in seconds and broken down; the
      conversions are the class [TimeLibrary] with its laws. The clients keep the
      time of their connection in one.
    - [Socket] (net/Socket.hpp, net/TransportHelpers.hpp, net/NetUtils.hpp): the
      server socket, over the calls of the class [SocketSystem], and the lookup of
      an address.
    - [HTTPProxy] (http/HTTPProxy.hpp): the proxy client, proved against the
      contract of the interface and run over the plain client.
    - [ThreadPool] (concurrency/ThreadPoolExecutor.hpp): the threads of the pool
      and the threads that call it as a machine of atomic moves, with the mutex
      and the waiting threads of the condition variable in its state.
    - [Synchronize] (concurrency/MutexSynchronize.hpp, ThreadsafeQueue.hpp): a
      machine of threads that access shared data one step at a time inside calls
      under an exclusive or a shared lock, run by schedules; its theory is proved
      once, and the readers-writer wrapper and the queue are its instances.
    - [Vector] (containers/vector.hpp): the vector over a block of slots, each an
      object or a destroyed place, for any element type ([Element]) with an
      assignment that may throw; [repr v l]
      says that [v] holds the list [l]. [Containers] (containers/stack_array.hpp,
      matrix.hpp): the array in memory of [alloca], over a model of the call
      stack, and the matrix.
    - [EventLoop] (concurrency/AsyncEventLoop.hpp,
      concurrency/internal/EventLoopBase.hpp): the event loop over its [Socket] and
      the calls of epoll ([EpollSystem], with its documented laws), and the objects
      its pointers lead to as a heap. The handlers may keep data of their own; an
      echo server is an instance.

    ** What is shown

    - Languages: each parser finishes exactly on the texts of its grammar, and a
      text has one reading only; the proxy client connects exactly on such a reply.
    - Functional behaviour: each parser computes what the grammar of its message
      says, on every well-formed message; the buffer's operations on every
      branch; the searches; the decoder; the templates; the proxy's codes; the
      transfer of bytes of the event loop.
    - Round trips: printed requests and responses parsed back, with the exact
      condition under which the response survives; templates; base64.
    - Incrementality: parsing in two parts is parsing the whole, for a request cut
      anywhere and a response cut before its body; a body in two pieces loses one.
      Reading a request from a stream in any pieces gives what parsing all of it
      at once gives; a request that one program prints is the one that the other
      receives, and a response is, as far as its parser reads it back.
    - Termination: the response parser returns within a turn per character and
      two more; the request parser exactly unless two conditions hold; the thread
      pool's runs are bounded by the work there is to do.
    - Refinement: the buffer refines a queue of bytes, for amounts that an [int]
      can hold; programs over buffers with pointers refine those over values, the
      vector a list, the locked queue a queue; both clients keep the contract of
      the interface.
    - Bounds: the capacity of the vector after a run of [push_back]s, and what
      growing costs. Well-formedness: the two representations of a [UnixTime].
    - Resources: what the constructor of the TLS client keeps on every failure, a
      lack of memory among them, and that its destructor releases what it took;
      the event loop has no object that neither its table nor epoll leads to.
    - Exceptions: the vector after a [push_back] whose copy throws; the pool's
      constructor when a thread cannot be started, and a run of the pool when a
      callable throws.
    - Safety: no program of careful calls over buffers loses a block, shares one or
      releases one twice, and what the other calls do; the event loop never
      touches a released object; reads outside a block or of memory never written
      are stated as undefined outcomes.
    - Concurrency: mutual exclusion, order of the work, no lost wake-up and the
      graceful end of the thread pool, in every interleaving; calls under the
      locks of the wrapper are atomic and always finish.

    ** Fuel

    The parsers take a unit of fuel per turn of their loop, and the length of the
    input plus two is shown to be enough; [appendRawBytes] takes two for its one
    level of recursion, and a program of [BufferHeap] any positive number, the same
    on both sides of its refinement; the block loops of [Simd] and the decoder loops take one
    per block; [startEventloop] takes one per batch, and its theorem holds for
    every fuel, since the loop need not end.

    ** What is not modelled

    Code that does not compile when it is used (the copy assignment of the vector,
    the move constructor of the locked queue, [getSharedMutex]); a handler that
    takes the lock it is called under again, which the standard leaves undefined
    for every mode; src/blueth/simd.hpp, an older copy of utils/simd.hpp that
    nothing includes; the attributes of common.hpp; [getPoolSize], which has no
    definition; [EpollEventDeleter], which nothing uses; and the calls out of the
    program, which are parameters with the laws the theorems name. The memory for
    the blocks of buffers and vectors and for the events of the loop may be
    refused; that for single objects (a message, a client, the holder and the
    state of a peer) is taken to be there. A use of an object after its destructor
    is shown for buffers only: the machine of the pool accepts calls after
    [Destroy], of which its theorems say nothing that the program promises. *)
From Stdlib Require Import ZArith Lia Ascii String.
From stdpp Require Import base gmap sets strings list.

Open Scope Z_scope.

(** ** Characters and byte strings

    [char] is the platform's (signed) 8-bit [char]; a [std::string] or a run
    of initialised bytes is a list of them. *)
Abbreviation char := ascii (only parsing).
Abbreviation bytes := (list ascii) (only parsing).

Definition byte_val (c : char) : Z := Z.of_N (N_of_ascii c).

(** The value of a [char] seen as an [int]: two's complement on 8 bits. *)
Definition char_val (c : char) : Z :=
  if byte_val c <? 128 then byte_val c else byte_val c - 256.

Definition lit (s : string) : bytes := list_ascii_of_string s.

Declare Scope blueth_scope.
Delimit Scope blueth_scope with blueth.
Notation "$ s" := (lit s%string) (at level 1, format "$ s") : blueth_scope.
Open Scope blueth_scope.

Definition chr (n : Z) : char := ascii_of_N (Z.to_N n).

(** [http::LexConsts] *)
Definition CR : char := chr 13.
Definition LF : char := chr 10.
Definition SP : char := chr 32.
Definition HT : char := chr 9.
Definition CRLF : bytes := [CR; LF].

(** ** Machine integers *)

(** [std::size_t] is 64 bits wide; arithmetic on it wraps around. *)
Definition size_max : Z := 2 ^ 64.
Definition size_t (z : Z) : Z := z mod size_max.

(** [int] is 32 bits wide, two's complement; conversions to and from
    [unsigned int] keep the bits. *)
Definition to_int32 (z : Z) : Z := (z + 2 ^ 31) mod 2 ^ 32 - 2 ^ 31.
Definition to_uint32 (z : Z) : Z := z mod 2 ^ 32.

(** ** Outcomes

    What running a piece of the program can lead to: a value, an exception,
    the end of the program ([exit], or [std::terminate] when an exception leaves
    a [noexcept] function), undefined behaviour, or no result within the fuel
    given to a loop. *)
Inductive exn :=
  bad_alloc | runtime_error | logic_error | out_of_range | bad_function_call | system_error
  | element_exception. (* what an operation of the user's element type throws *)

Inductive ub :=
  | OutOfBounds       (** access outside an allocated block *)
  | Uninitialised     (** use of an indeterminate byte *)
  | NullPointer       (** access through a null pointer *)
  | DanglingPointer   (** access to, or release of, an object that is gone *)
  | BadArgument       (** a library function called outside its domain *)
  | MissingReturn     (** control flows off a value-returning function *)
  | SignedOverflow.   (** the result of signed arithmetic does not fit its type *)

Inductive res (A : Type) :=
  | Done (a : A)
  | Throw (e : exn)
  | Terminate
  | Undefined (u : ub)
  | OutOfFuel.
Arguments Done {A} a.
Arguments Throw {A} e.
Arguments Terminate {A}.
Arguments Undefined {A} u.
Arguments OutOfFuel {A}.

#[export] Instance exn_eq_dec : EqDecision exn.
Proof. solve_decision. Defined.
#[export] Instance ub_eq_dec : EqDecision ub.
Proof. solve_decision. Defined.

#[export] Instance res_eq_dec `{EqDecision A} : EqDecision (res A).
Proof. solve_decision. Defined.

#[export] Instance res_ret : MRet res := @Done.
#[export] Instance res_bind : MBind res := λ A B f m,
  match m with
  | Done a => f a
  | Throw e => Throw e
  | Terminate => Terminate
  | Undefined u => Undefined u
  | OutOfFuel => OutOfFuel
  end.

(** Outcomes are equivalent when they are equal up to equivalent values. *)
#[export] Instance res_equiv `{Equiv A} : Equiv (res A) := λ x y,
  match x, y with Done a, Done b => a ≡ b | _, _ => x = y end.

(** A [noexcept] function turns a thrown exception into [std::terminate]. *)
Definition noexcept {A} (m : res A) : res A :=
  match m with Throw _ => Terminate | _ => m end.

Definition is_undefined {A} (m : res A) : bool :=
  match m with Undefined _ => true | _ => false end.

(** ** Computations on a state

    A method of an object may change the object, or the world behind it,
    before it throws: the state survives an exception. *)
Definition io (S A : Type) : Type := S → res A * S.

#[export] Instance io_ret {S} : MRet (io S) := λ A a s, (Done a, s).
#[export] Instance io_bind {S} : MBind (io S) := λ A B f m s,
  match m s with
  | (Done a, s) => f a s
  | (Throw e, s) => (Throw e, s)
  | (Terminate, s) => (Terminate, s)
  | (Undefined u, s) => (Undefined u, s)
  | (OutOfFuel, s) => (OutOfFuel, s)
  end.

(** A computation that does not touch the state; the state itself; an update;
    and an exception. *)
Definition lift {S A} (r : res A) : io S A := λ s, (r, s).
Definition get {S} : io S S := λ s, (Done s, s).
Definition put {S} (s : S) : io S () := λ _, (Done (), s).
Definition throw {S A} (e : exn) : io S A := λ s, (Throw e, s).

(** A computation on the second component of the state. *)
Definition on_snd {S W A} (m : io W A) : io (S * W) A := λ '(s, w),
  let '(r, w) := m w in (r, (s, w)).

(** ** Memory

    A byte of an allocated block, [None] while it is indeterminate. *)
Abbreviation cell := (option ascii) (only parsing).

(** [*(block + i)] *)
Definition mem_read (m : list cell) (i : Z) : res char :=
  if i <? 0 then Undefined OutOfBounds
  else match m !! Z.to_nat i with
       | None => Undefined OutOfBounds
       | Some None => Undefined Uninitialised
       | Some (Some c) => Done c
       end.

(** The [n] cells at [block + i], as a source of [memcpy]. *)
Definition mem_slice (m : list cell) (i n : Z) : res (list cell) :=
  if (0 <=? i) && (0 <=? n) && (i + n <=? Z.of_nat (length m))
  then Done (take (Z.to_nat n) (drop (Z.to_nat i) m))
  else Undefined OutOfBounds.

(** [memcpy(block + i, src, length src)] *)
Definition mem_write (m : list cell) (i : Z) (src : list cell) : res (list cell) :=
  if (0 <=? i) && (i + Z.of_nat (length src) <=? Z.of_nat (length m))
  then Done (take (Z.to_nat i) m ++ src ++ drop (Z.to_nat i + length src) m)
  else Undefined OutOfBounds.

(** The characters of a run of cells; reading an indeterminate one is
    undefined. [std::string{first, last}] copies such a run. *)
Fixpoint cells_chars (l : list cell) : res bytes :=
  match l with
  | [] => Done []
  | None :: _ => Undefined Uninitialised
  | Some c :: l => cs ← cells_chars l; Done (c :: cs)
  end.

Definition init (s : bytes) : list cell := Some <$> s.

(** The allocator behind [malloc], [realloc] and [operator new]: which request
    sizes succeed. *)
Class Allocator := alloc_ok : Z → bool.
Definition total_alloc : Allocator := λ _, true.

(** ** Counted loops

    [for (index = i; n more times; index++)]: the body changes the state [a]
    and may leave the loop by an exception or undefined behaviour. *)
Fixpoint for_loop {A} (n : nat) (i : Z) (body : Z → A → res A) (a : A) : res A :=
  match n with
  | O => Done a
  | S n => a ← body i a; for_loop n (i + 1) body a
  end.

(** ** Decimal numbers: [std::to_string] and [atoi] *)
Definition digit_char (d : Z) : char := chr (48 + d).

Fixpoint dec_digits (fuel : nat) (n : Z) (acc : bytes) : bytes :=
  match fuel with
  | O => acc
  | S fuel =>
      let acc := digit_char (n mod 10) :: acc in
      if n <? 10 then acc else dec_digits fuel (n / 10) acc
  end.

(** [std::to_string] of a non-negative integer: at most [log2 n + 1] digits. *)
Definition to_string (n : Z) : bytes := dec_digits (S (Z.to_nat (Z.log2 n))) n [].

(** [isdigit]: its argument is an [unsigned char] value or [EOF]; any other
    value is outside its domain. The C locale. *)
Definition ctype_domain (c : char) : bool := -1 <=? char_val c.
Definition isdigit (c : char) : res bool :=
  if ctype_domain c then Done ((48 <=? char_val c) && (char_val c <=? 57))
  else Undefined BadArgument.
Definition isprint (c : char) : res bool :=
  if ctype_domain c then Done ((32 <=? char_val c) && (char_val c <=? 126))
  else Undefined BadArgument.

(** [atoi] on a C string: white space, an optional sign, digits; undefined
    when the value is not an [int], and when the string is not terminated or
    holds an indeterminate byte before its end is found. *)
Definition isspace_ascii (c : char) : bool :=
  (char_val c =? 32) || ((9 <=? char_val c) && (char_val c <=? 13)).

Fixpoint atoi_digits (m : list cell) (acc : Z) : res Z :=
  match m with
  | [] => Undefined OutOfBounds
  | None :: _ => Undefined Uninitialised
  | Some c :: m =>
      let d := char_val c - 48 in
      if (0 <=? d) && (d <=? 9) then atoi_digits m (acc * 10 + d) else Done acc
  end.

Definition atoi_sign (m : list cell) : res Z :=
  match m with
  | Some c :: m' =>
      if char_val c =? 45 then n ← atoi_digits m' 0; Done (- n)
      else if char_val c =? 43 then atoi_digits m' 0
      else atoi_digits m 0
  | _ => atoi_digits m 0
  end.

Fixpoint atoi_skip (m : list cell) : res Z :=
  match m with
  | Some c :: m' => if isspace_ascii c then atoi_skip m' else atoi_sign m
  | _ => atoi_sign m
  end.

Definition atoi (m : list cell) : res Z :=
  n ← atoi_skip m;
  if (- 2 ^ 31 <=? n) && (n <? 2 ^ 31) then Done n else Undefined BadArgument.

(** [std::optional::value]: throws when there is none; every use is inside a
    [noexcept] function. *)
Definition opt_value {A} (o : option A) : res A :=
  match o with Some a => Done a | None => Terminate end.

#[global] Arguments mem_read : simpl never.
#[global] Arguments mem_slice : simpl never.
#[global] Arguments mem_write : simpl never.
#[global] Arguments size_t : simpl never.
#[global] Arguments init : simpl never.
#[global] Arguments to_string : simpl never.

(** ** Automation

    [blueth] resolves the library's side conditions, [blueth_mem] rewrites
    reads and copies of memory, [blueth_io] runs a computation on its state. *)
Create HintDb blueth.
Create Rewrite HintDb blueth_mem.
Create Rewrite HintDb blueth_io.

(** Split a hypothesis [m ≫= f = Done v] into the value of [m] and the rest. *)
Lemma bind_Done {A B} (m : res A) (f : A → res B) v :
  m ≫= f = Done v ↔ ∃ a, m = Done a ∧ f a = Done v.
Proof.
  split; [destruct m; try discriminate; eauto|]. by intros (a & -> & H).
Qed.

Lemma Done_bind {A B} (a : A) (f : A → res B) : Done a ≫= f = f a.
Proof. done. Qed.

Lemma bind_fuel {A B} (m : res A) (f : A → res B) :
  m ≠ OutOfFuel → (∀ a, f a ≠ OutOfFuel) → m ≫= f ≠ OutOfFuel.
Proof. intros Hm Hf. by destruct m; try apply Hf. Qed.

#[export] Instance res_equivalence `{Equiv A} :
  Equivalence (≡@{A}) → Equivalence (≡@{res A}).
Proof.
  intros [Hr Hs Ht]. unfold equiv, res_equiv. split.
  - intros [a| | | |]; done.
  - intros [a| | | |] [b| | | |]; done || by intros ?%Hs.
  - intros [a| | | |] [b| | | |] [c| | | |]; try (done || congruence). apply Ht.
Qed.

(** Running a computation on a state. *)
Lemma io_bind_Done {S A B} (m : io S A) (f : A → io S B) s a s' :
  m s = (Done a, s') → (m ≫= f) s = f a s'.
Proof. intros Hm. unfold mbind, io_bind. by rewrite Hm. Qed.

Lemma get_bind {S A} (f : S → io S A) s : (get ≫= f) s = f s s.
Proof. done. Qed.

Lemma put_bind {S A} (f : () → io S A) s s' : (put s' ≫= f) s = f () s'.
Proof. done. Qed.

Lemma lift_Done_bind {S A B} (a : A) (f : A → io S B) s : (lift (Done a) ≫= f) s = f a s.
Proof. done. Qed.

Lemma mret_bind {S A B} (a : A) (f : A → io S B) s : (mret a ≫= f) s = f a s.
Proof. done. Qed.

Lemma throw_bind {S A B} e (f : A → io S B) s : (throw e ≫= f) s = (Throw e, s).
Proof. done. Qed.

#[export] Hint Rewrite @get_bind @put_bind @lift_Done_bind @mret_bind @throw_bind
  : blueth_io.

(** A loop whose body succeeds while an invariant holds. *)
Lemma for_loop_inv {A} (P : Z → A → Prop) body n : ∀ i a,
  P i a →
  (∀ j a, i <= j < i + Z.of_nat n → P j a → ∃ a', body j a = Done a' ∧ P (j + 1) a') →
  ∃ a', for_loop n i body a = Done a' ∧ P (i + Z.of_nat n) a'.
Proof.
  induction n as [|n IH]; intros i a Hi Hstep; simpl.
  - exists a. by rewrite Z.add_0_r.
  - destruct (Hstep i a) as (a1 & -> & Ha1); [lia|done|].
    destruct (IH (i + 1) a1) as (a' & Hl & Ha'); [done| |].
    { intros j b Hj. apply Hstep. lia. }
    exists a'. split; [done|]. by replace (i + Z.of_nat (S n)) with (i + 1 + Z.of_nat n) by lia.
Qed.

(** Leaving a loop: its first steps succeed, the next one does not. *)
Lemma for_loop_split {A} (body : Z → A → res A) n m : ∀ i a,
  for_loop (n + m) i body a
  = (a' ← for_loop n i body a; for_loop m (i + Z.of_nat n) body a').
Proof.
  induction n as [|n IH]; intros i a; simpl; [by rewrite Z.add_0_r|].
  destruct (body i a) as [a1| | | |]; try done. simpl. rewrite IH.
  by replace (i + Z.of_nat (S n)) with (i + 1 + Z.of_nat n) by lia.
Qed.

Lemma noexcept_Done {A} (m : res A) v : noexcept m = Done v ↔ m = Done v.
Proof. by destruct m. Qed.

Ltac res_inv :=
  repeat match goal with
    | H : (_ ≫= _) = Done _ |- _ => apply bind_Done in H as (? & ? & ?)
    | H : noexcept _ = Done _ |- _ => apply noexcept_Done in H
    | H : mret _ = Done _ |- _ => unfold mret, res_ret in H
    | H : Done _ = Done _ |- _ => injection H as H; try subst
    | H : Throw _ = Done _ |- _ => discriminate H
    | H : Terminate = Done _ |- _ => discriminate H
    | H : Undefined _ = Done _ |- _ => discriminate H
    | H : OutOfFuel = Done _ |- _ => discriminate H
    end.

(** Solve a goal about list lengths. *)
Create Rewrite HintDb blueth_len.
Ltac len_lia := autorewrite with blueth_len in *; simpl in *; lia.

(** Decide the boolean comparisons of a goal or hypothesis with [lia]. *)
Ltac bool_lia :=
  repeat match goal with
    | |- context [?x <? ?y] =>
        first [ replace (x <? y) with true by (symmetry; apply Z.ltb_lt; lia)
              | replace (x <? y) with false by (symmetry; apply Z.ltb_ge; lia) ]
    | |- context [?x <=? ?y] =>
        first [ replace (x <=? y) with true by (symmetry; apply Z.leb_le; lia)
              | replace (x <=? y) with false by (symmetry; apply Z.leb_gt; lia) ]
    | |- context [?x =? ?y] =>
        first [ replace (x =? y) with true by (symmetry; apply Z.eqb_eq; lia)
              | replace (x =? y) with false by (symmetry; apply Z.eqb_neq; lia) ]
    end; simpl.

(** ** Lists *)
Lemma last_default {A} (l : list A) a b : l ≠ [] → List.last l a = List.last l b.
Proof.
  induction l as [|x l IH]; intros Hl; [done|]. destruct l; [done|]. by apply IH.
Qed.

Lemma last_cons_default {A} (x : A) l d : List.last (x :: l) d = List.last l x.
Proof. destruct l as [|y l]; [done|]. by apply (last_default (y :: l)). Qed.

Lemma foldl_const {A B} (l : list B) (a : A) : foldl (λ a _, a) a l = a.
Proof. by induction l. Qed.

Lemma forallb_elem {A} (p : A → bool) l x : forallb p l = true → x ∈ l → p x = true.
Proof. intros Hl Hx. rewrite forallb_forall in Hl. apply Hl. by apply list_elem_of_In. Qed.

Lemma sum_insert {A} (f : A → nat) l i x y :
  l !! i = Some y → (sum_list_with f (<[i := x]> l) + f y = sum_list_with f l + f x)%nat.
Proof.
  revert i. induction l as [|z l IH]; intros [|i] Hi; simplify_eq/=; [lia|].
  specialize (IH i Hi). lia.
Qed.

(** ** The C library always returns *)
Lemma isprint_fuel c : isprint c ≠ OutOfFuel.
Proof. unfold isprint. by case_match. Qed.
Lemma isdigit_fuel c : isdigit c ≠ OutOfFuel.
Proof. unfold isdigit. by case_match. Qed.

(** ** Machine integers *)
Lemma size_t_small z : 0 <= z < size_max → size_t z = z.
Proof. apply Z.mod_small. Qed.

Lemma size_t_range z : 0 <= size_t z < size_max.
Proof. by apply Z.mod_pos_bound. Qed.

Lemma size_t_neg z : - size_max <= z < 0 → size_t z = z + size_max.
Proof.
  intros. unfold size_t.
  rewrite <- (Z.mod_add z 1), Z.mul_1_l by done. apply Z.mod_small. lia.
Qed.

#[export] Hint Rewrite size_t_small using lia : blueth_mem.

Lemma to_uint32_int32 z : 0 <= z < 2 ^ 32 → to_uint32 (to_int32 z) = z.
Proof.
  intros. unfold to_uint32, to_int32. rewrite Zminus_mod_idemp_l.
  rewrite Z.add_simpl_r. by apply Z.mod_small.
Qed.

Lemma to_int32_small z : - 2 ^ 31 <= z < 2 ^ 31 → to_int32 z = z.
Proof. intros. unfold to_int32. rewrite Z.mod_small by lia. lia. Qed.

Lemma to_int32_zero z : 0 <= z < 2 ^ 32 → to_int32 z = 0 ↔ z = 0.
Proof.
  intros Hz. split; [|by intros ->]. intros H0.
  rewrite <- (to_uint32_int32 z) by done. by rewrite H0.
Qed.

(** ** Memory *)
Lemma length_init s : length (init s) = length s.
Proof. apply length_fmap. Qed.

Lemma init_cons c s : init (c :: s) = Some c :: init s.
Proof. done. Qed.

Lemma init_app s t : init (s ++ t) = init s ++ init t.
Proof. apply fmap_app. Qed.

Lemma cells_chars_init s : cells_chars (init s) = Done s.
Proof. induction s as [|c s IH]; [done|]. rewrite init_cons. simpl. by rewrite IH. Qed.

Lemma cells_chars_Done l s : cells_chars l = Done s → l = init s.
Proof.
  revert s. induction l as [|[c|] l IH]; simpl; intros s Hs; res_inv; [done|].
  rewrite init_cons. f_equal. eauto.
Qed.

#[export] Hint Rewrite length_init cells_chars_init : blueth_mem.
#[export] Hint Rewrite @length_app length_init @length_take @length_drop
  @length_replicate @length_cons @length_fmap @length_nil : blueth_len.

(** [holds m i s]: block [m] holds the initialised characters [s] at [i]. *)
Definition holds (m : list cell) (i : Z) (s : bytes) : Prop :=
  ∃ pre post, m = pre ++ init s ++ post ∧ i = Z.of_nat (length pre).

Lemma holds_intro pre s post :
  holds (pre ++ init s ++ post) (Z.of_nat (length pre)) s.
Proof. by exists pre, post. Qed.

Lemma holds_nonneg m i s : holds m i s → 0 <= i.
Proof. intros (?&?&_&->). lia. Qed.

Lemma holds_bound m i s :
  holds m i s → i + Z.of_nat (length s) <= Z.of_nat (length m).
Proof. intros (?&?&->&->). rewrite !length_app, length_init. lia. Qed.

Lemma holds_read m i c s : holds m i (c :: s) → mem_read m i = Done c.
Proof.
  intros (pre&post&->&->). unfold mem_read. bool_lia.
  rewrite Nat2Z.id, lookup_app_r by lia. by rewrite Nat.sub_diag.
Qed.

Lemma holds_app m i s t :
  holds m i (s ++ t) ↔ holds m i s ∧ holds m (i + Z.of_nat (length s)) t.
Proof.
  split.
  - intros (pre&post&->&->). split.
    + exists pre, (init t ++ post). by rewrite init_app, <- !app_assoc.
    + exists (pre ++ init s), post. rewrite init_app, <- !app_assoc.
      split; [done|]. rewrite length_app, length_init. lia.
  - intros [(pre&post&->&->) (pre'&post'&Heq&Hlen)].
    exists pre, post'. split; [|done]. rewrite init_app, <- app_assoc.
    apply (f_equal (drop (length pre + length s))) in Heq as Hd.
    rewrite drop_app_add, <- (length_init s), drop_app_length in Hd.
    replace (length pre + length (init s))%nat with (length pre') in Hd
      by (rewrite length_init; lia).
    by rewrite drop_app_length in Hd; rewrite Hd.
Qed.

Lemma holds_cons m i c s :
  holds m i (c :: s) ↔ mem_read m i = Done c ∧ holds m (i + 1) s.
Proof.
  split.
  - intros H. split; [by eapply holds_read|].
    by apply (holds_app m i [c] s) in H as [_ H].
  - intros [Hr Hs]. apply (holds_app m i [c] s). split; [|done].
    unfold mem_read in Hr. case_match; [done|].
    destruct (m !! Z.to_nat i) as [[c'|]|] eqn:Hm; simplify_eq.
    exists (take (Z.to_nat i) m), (drop (S (Z.to_nat i)) m).
    split; [symmetry; by apply take_drop_middle|].
    apply lookup_lt_Some in Hm. rewrite length_take. apply Z.ltb_ge in H. lia.
Qed.

Lemma holds_slice m i s n :
  holds m i s → n = Z.of_nat (length s) → mem_slice m i n = Done (init s).
Proof.
  intros H ->. pose proof (holds_bound _ _ _ H). apply holds_nonneg in H as ?.
  unfold mem_slice. bool_lia. f_equal. destruct H as (pre&post&->&->).
  rewrite !Nat2Z.id, drop_app_length, <- (length_init s), take_app_length. done.
Qed.

Lemma mem_slice_holds m i n s : mem_slice m i n = Done (init s) → holds m i s.
Proof.
  unfold mem_slice. intros H. case_match eqn:Hc; simplify_eq.
  rewrite !andb_true_iff, !Z.leb_le in Hc.
  exists (take (Z.to_nat i) m), (drop (Z.to_nat n) (drop (Z.to_nat i) m)).
  rewrite <- H, take_drop, take_drop, length_take. split; [done|lia].
Qed.

Lemma mem_slice_length m i n l :
  mem_slice m i n = Done l → Z.of_nat (length l) = n.
Proof.
  unfold mem_slice. intros H. case_match eqn:Hc; simplify_eq.
  rewrite !andb_true_iff, !Z.leb_le in Hc. rewrite length_take, length_drop. lia.
Qed.

Lemma mem_write_app pre old post src :
  length old = length src →
  mem_write (pre ++ old ++ post) (Z.of_nat (length pre)) src
  = Done (pre ++ src ++ post).
Proof.
  intros Hl. unfold mem_write. rewrite !length_app. bool_lia.
  rewrite Nat2Z.id, take_app_length, drop_app_add, <- Hl, drop_app_length. done.
Qed.

Lemma mem_write_length m i src m' :
  mem_write m i src = Done m' → length m' = length m.
Proof.
  unfold mem_write. intros H. case_match eqn:Hc; simplify_eq.
  rewrite !andb_true_iff, !Z.leb_le in Hc.
  rewrite !length_app, length_take, length_drop. lia.
Qed.

#[export] Hint Resolve holds_nonneg holds_intro : blueth.
