(* ===== verification/IOBuffer.v ===== *)
(** * [io::IOBuffer] (blueth/io/IOBuffer.hpp)

    The growable byte buffer under every stream and message: a block obtained
    from [realloc], a start offset (bytes before it are already consumed), an
    end offset and the capacity. The offsets are [size_t] and wrap around;
    the block is a list of cells, so every [memcpy] is bounds checked by the
    model and the bytes [realloc] adds are indeterminate. *)
From Stdlib Require Import ZArith Lia Ascii String.
From stdpp Require Import base gmap sets strings list.
From S2P Require Import Prelude.
Local Open Scope Z_scope.

Definition block : Type := list (option ascii).

(** [realloc(p, n)]: [malloc] on a null pointer; otherwise the first bytes of
    the old block are kept. Resizing a block to 0 releases it and gives a null
    pointer, as glibc documents: the buffer, whose pointer to the block stays,
    is then no value any more, and BufferHeap tells what follows. *)
Definition realloc `{Allocator} (p : option block) (n : Z) : res (option block) :=
  match p with
  | None =>
      Done (if alloc_ok n then Some (replicate (Z.to_nat n) None) else None)
  | Some blk =>
      if n =? 0 then Done None
      else Done (if alloc_ok n
                 then Some (take (Z.to_nat n) blk
                            ++ replicate (Z.to_nat n - length blk) None)
                 else None)
  end.

Definition deref {A} (p : option A) : res A :=
  match p with Some a => Done a | None => Undefined NullPointer end.

Record IOBuffer := mkIOBuffer {
  internal_buffer_ : option block;
  start_offset_ : Z;
  end_offset_ : Z;
  capacity_ : Z
}.

(** The members' default initialisers. *)
Definition empty_IOBuffer : IOBuffer := mkIOBuffer None 0 0 0.

Definition set_block (b : IOBuffer) (m : option block) (cap : Z) : IOBuffer :=
  mkIOBuffer m (start_offset_ b) (end_offset_ b) cap.

Section operations.
Context `{Allocator}.

Definition reserve (b : IOBuffer) (mem_size : Z) : res IOBuffer :=
  let mem_size := if mem_size =? 0 then size_t (capacity_ b * 2) else mem_size in
  tmp_ptr ← realloc (internal_buffer_ b) mem_size;
  match tmp_ptr with
  | None => Throw bad_alloc
  | Some p => Done (set_block b (Some p) mem_size)
  end.

(** The constructor [IOBuffer(capacity)], and [create]. *)
Definition IOBuffer_new (capacity : Z) : res IOBuffer :=
  reserve empty_IOBuffer capacity.
Definition create (capacity : Z) : res IOBuffer := IOBuffer_new capacity.

(** The move constructor: (the new object, the moved-from object). *)
Definition move_construct (io_buffer : IOBuffer) : IOBuffer * IOBuffer :=
  let this := empty_IOBuffer in
  (mkIOBuffer (internal_buffer_ io_buffer) (start_offset_ io_buffer)
              (end_offset_ io_buffer) (capacity_ this),
   mkIOBuffer (internal_buffer_ this) (start_offset_ this)
              (end_offset_ this) (capacity_ io_buffer)).

(** The move assignment swaps only into a buffer without a block, and then runs
    off its end without returning a reference, in every case. *)
Definition move_assign (b io_buffer : IOBuffer) : res (IOBuffer * IOBuffer) :=
  let '(_, _) :=
    match internal_buffer_ b with
    | None => (mkIOBuffer (internal_buffer_ io_buffer) (start_offset_ io_buffer)
                 (end_offset_ io_buffer) (capacity_ b),
               mkIOBuffer None (start_offset_ b) (end_offset_ b) (capacity_ io_buffer))
    | Some _ => (b, io_buffer)
    end in
  Undefined MissingReturn.

Definition clear (b : IOBuffer) : IOBuffer :=
  mkIOBuffer (internal_buffer_ b) 0 0 (capacity_ b).

Definition getStartOffset (b : IOBuffer) : Z := start_offset_ b.
Definition getEndOffset (b : IOBuffer) : Z := end_offset_ b.

(** The parameter of these is an [int]: the argument is narrowed to one, and that
    is converted to [size_t]. *)
Definition setStartOffset (b : IOBuffer) (offset_len : Z) : IOBuffer :=
  mkIOBuffer (internal_buffer_ b) (size_t (to_int32 offset_len)) (end_offset_ b)
             (capacity_ b).
Definition modifyStartOffset (b : IOBuffer) (offset_len : Z) : IOBuffer :=
  mkIOBuffer (internal_buffer_ b) (size_t (start_offset_ b + to_int32 offset_len))
             (end_offset_ b) (capacity_ b).
Definition setEndOffset (b : IOBuffer) (offset_len : Z) : IOBuffer :=
  mkIOBuffer (internal_buffer_ b) (start_offset_ b) (size_t (to_int32 offset_len))
             (capacity_ b).
Definition modifyEndOffset (b : IOBuffer) (offset_len : Z) : IOBuffer :=
  mkIOBuffer (internal_buffer_ b) (start_offset_ b)
             (size_t (end_offset_ b + to_int32 offset_len)) (capacity_ b).

Definition getDataSize (b : IOBuffer) : Z := size_t (end_offset_ b - start_offset_ b).
Definition getCapacity (b : IOBuffer) : Z := capacity_ b.
Definition getAvailableSpace (b : IOBuffer) : Z := size_t (capacity_ b - end_offset_ b).

(** A pointer into the buffer's block is its offset there, [None] when the
    buffer has no block. *)
Definition block_ptr (b : IOBuffer) (off : Z) : option Z :=
  match internal_buffer_ b with Some _ => Some off | None => None end.
Definition getBuffer (b : IOBuffer) : option Z := block_ptr b 0.
Definition getStartOffsetPointer (b : IOBuffer) : option Z :=
  block_ptr b (start_offset_ b).
Definition getEndOffsetPointer (b : IOBuffer) : option Z :=
  block_ptr b (end_offset_ b).
Definition getBufferEnd (b : IOBuffer) : option Z := block_ptr b (capacity_ b - 1).
Definition begin_ (b : IOBuffer) : option Z := block_ptr b (start_offset_ b).
Definition end_ (b : IOBuffer) : option Z := block_ptr b (end_offset_ b).
Definition cbegin (b : IOBuffer) : option Z := block_ptr b (start_offset_ b).
Definition cend (b : IOBuffer) : option Z := block_ptr b (end_offset_ b).

(** [getOffset(start_offset, end_offset)] and [getOffset(offset_len)]. *)
Definition getOffset2 (b : IOBuffer) (start_offset end_offset : Z)
  : option Z * option Z :=
  if (start_offset <=? capacity_ b) && (end_offset <=? capacity_ b)
  then (block_ptr b start_offset, block_ptr b end_offset)
  else (None, None).
Definition getOffset (b : IOBuffer) (offset_len : Z) : option Z * option Z :=
  if offset_len <=? capacity_ b
  then (block_ptr b (start_offset_ b), block_ptr b offset_len)
  else (None, None).

(** [std::string{first, last}] over pointers into the buffer. *)
Definition string_of_range (b : IOBuffer) (first last : option Z) : res bytes :=
  match first, last with
  | Some p, Some q =>
      m ← deref (internal_buffer_ b);
      l ← mem_slice m p (q - p);
      cells_chars l
  | None, None => Done []
  | _, _ => Undefined NullPointer
  end.

(** [appendRawBytes(data, size)]: [data] is the run of [size] bytes. *)
Fixpoint appendRawBytes (fuel : nat) (b : IOBuffer) (data : list (option ascii))
  : res IOBuffer :=
  match fuel with
  | O => OutOfFuel
  | S fuel =>
      let size := Z.of_nat (length data) in
      if size <=? getAvailableSpace b then
        m ← deref (internal_buffer_ b);
        m ← mem_write m (end_offset_ b) data;
        Done (mkIOBuffer (Some m) (start_offset_ b)
                         (size_t (end_offset_ b + size)) (capacity_ b))
      else
        b ← reserve b (size_t (capacity_ b + size));
        appendRawBytes fuel b data
  end.

(** [appendRawBytes(io_buffer)], for a source other than the buffer itself. *)
Fixpoint appendIOBuffer (fuel : nat) (b io_buffer : IOBuffer) : res IOBuffer :=
  match fuel with
  | O => OutOfFuel
  | S fuel =>
      if getDataSize io_buffer <=? getAvailableSpace b then
        m ← deref (internal_buffer_ b);
        src ← deref (internal_buffer_ io_buffer);
        data ← mem_slice src (start_offset_ io_buffer) (getDataSize io_buffer);
        m ← mem_write m (end_offset_ b) data;
        Done (mkIOBuffer (Some m) (start_offset_ b)
                         (size_t (end_offset_ b + getDataSize io_buffer))
                         (capacity_ b))
      else
        b ← reserve b (getCapacity io_buffer);
        appendIOBuffer fuel b io_buffer
  end.

End operations.
#[global] Arguments realloc : simpl never.
#[global] Arguments reserve : simpl never.
#[global] Arguments getAvailableSpace : simpl never.
#[global] Arguments getDataSize : simpl never.

(** ** The abstract view: a byte queue

    [wf b]: the block is allocated with [capacity_] bytes and the offsets are
    ordered within it. [repr b s]: moreover the bytes between the offsets are
    initialised and are [s]. The clients reason with [repr] only. *)
Definition wf (b : IOBuffer) : Prop :=
  ∃ m, internal_buffer_ b = Some m ∧ Z.of_nat (length m) = capacity_ b
       ∧ 0 <= start_offset_ b <= end_offset_ b
       ∧ end_offset_ b <= capacity_ b < size_max.

Definition repr (b : IOBuffer) (s : bytes) : Prop :=
  ∃ m, internal_buffer_ b = Some m ∧ Z.of_nat (length m) = capacity_ b
       ∧ capacity_ b < size_max ∧ holds m (start_offset_ b) s
       ∧ end_offset_ b = start_offset_ b + Z.of_nat (length s).

(** Two buffers are equivalent when they hold the same bytes. *)
#[export] Instance IOBuffer_equiv : Equiv IOBuffer := λ b1 b2,
  ∀ s, repr b1 s ↔ repr b2 s.
#[export] Instance IOBuffer_equivalence : Equivalence (≡@{IOBuffer}).
Proof.
  split; unfold equiv, IOBuffer_equiv; [done| |].
  { intros b1 b2 H s. by rewrite H. }
  intros b1 b2 b3 H12 H23 s. by rewrite H12, H23.
Qed.

Lemma repr_wf b s : repr b s → wf b.
Proof.
  intros (m&Hm&Hl&Hc&Hh&He). pose proof (holds_nonneg _ _ _ Hh).
  pose proof (holds_bound _ _ _ Hh). exists m. repeat split; auto; lia.
Qed.

Lemma repr_init b m i s :
  internal_buffer_ b = Some m → mem_slice m i (Z.of_nat (length s)) = Done (init s) →
  Z.of_nat (length m) = capacity_ b → capacity_ b < size_max →
  start_offset_ b = i → end_offset_ b = i + Z.of_nat (length s) → repr b s.
Proof.
  intros ? ?%mem_slice_holds ? ? <- ?. exists m. repeat split; auto.
Qed.

Lemma repr_inj b s t : repr b s → repr b t → s = t.
Proof.
  intros (m&Hm&_&_&Hs&He) (m'&Hm'&_&_&Ht&He'). simplify_eq.
  assert (length s = length t) as Hlen by lia.
  pose proof (holds_slice _ _ _ (Z.of_nat (length t)) Hs ltac:(lia)) as Hs'.
  pose proof (holds_slice _ _ _ _ Ht eq_refl) as Ht'.
  rewrite Hs' in Ht'. injection Ht' as Heq.
  apply (f_equal cells_chars) in Heq. rewrite !cells_chars_init in Heq. congruence.
Qed.

Lemma repr_equiv b1 b2 s : repr b1 s → repr b2 s → b1 ≡ b2.
Proof.
  intros H1 H2 t. split; intros Ht.
  - by rewrite <- (repr_inj _ _ _ H1 Ht).
  - by rewrite <- (repr_inj _ _ _ H2 Ht).
Qed.

#[export] Instance repr_proper : Proper ((≡) ==> (=) ==> iff) repr.
Proof. intros b1 b2 Hb s ? <-. apply Hb. Qed.

Lemma wf_available b : wf b → getAvailableSpace b = capacity_ b - end_offset_ b.
Proof. intros (m&_&_&?&?). unfold getAvailableSpace. apply size_t_small. lia. Qed.

Lemma wf_datasize b : wf b → getDataSize b = end_offset_ b - start_offset_ b.
Proof. intros (m&_&_&?&?). unfold getDataSize. apply size_t_small. lia. Qed.

Lemma repr_datasize b s : repr b s → getDataSize b = Z.of_nat (length s).
Proof.
  intros Hr. rewrite wf_datasize by by eapply repr_wf.
  destruct Hr as (?&_&_&_&_&->). lia.
Qed.

(** Reading the buffer through its iterators gives its bytes. *)
Lemma repr_string b s :
  repr b s →
  string_of_range b (getStartOffsetPointer b) (getEndOffsetPointer b) = Done s.
Proof.
  intros (m&Hm&_&_&Hh&He).
  unfold string_of_range, getStartOffsetPointer, getEndOffsetPointer, block_ptr.
  rewrite Hm. simpl. rewrite (holds_slice _ _ s) by (auto; lia).
  simpl. apply cells_chars_init.
Qed.

Lemma repr_iter b s : repr b s → string_of_range b (begin_ b) (end_ b) = Done s.
Proof. apply repr_string. Qed.

#[export] Hint Resolve repr_wf repr_string repr_iter : blueth.

(** Growing (or shrinking down to the data) a block keeps what it holds. *)
Lemma holds_realloc m i s n k :
  holds m i s → i + Z.of_nat (length s) <= Z.of_nat n →
  holds (take n m ++ replicate k None) i s.
Proof.
  intros (pre&post&->&->) Hn.
  rewrite take_app_ge, take_app_ge by (rewrite ?length_init; lia).
  rewrite <- !app_assoc. apply holds_intro.
Qed.

Section proofs.
Context `{Allocator}.

Lemma reserve_ok b m n :
  internal_buffer_ b = Some m → 0 < n → alloc_ok n = true →
  reserve b n = Done (set_block b
    (Some (take (Z.to_nat n) m ++ replicate (Z.to_nat n - length m) None)) n).
Proof.
  intros Hm Hn Ha. unfold reserve, realloc. rewrite Hm. bool_lia. by rewrite Ha.
Qed.

Lemma reserve_fail b m n :
  internal_buffer_ b = Some m → 0 < n → alloc_ok n = false →
  reserve b n = Throw bad_alloc.
Proof.
  intros Hm Hn Ha. unfold reserve, realloc. rewrite Hm. bool_lia. by rewrite Ha.
Qed.

Lemma realloc_length (m : block) (n : Z) : 0 <= n →
  Z.of_nat (length (take (Z.to_nat n) m ++ replicate (Z.to_nat n - length m) (None : option ascii))) = n.
Proof. intros. rewrite length_app, length_take, length_replicate. lia. Qed.

Lemma reserve_wf b b' n :
  wf b → end_offset_ b <= n < size_max → 0 < n → reserve b n = Done b' →
  wf b' ∧ capacity_ b' = n ∧ start_offset_ b' = start_offset_ b
  ∧ end_offset_ b' = end_offset_ b.
Proof.
  intros (m&Hm&Hl&Ho&Hc) Hn Hn0 Hr.
  destruct (alloc_ok n) eqn:Ha.
  - rewrite (reserve_ok _ m) in Hr by done. simplify_eq. split; [|done].
    eexists. split; [done|]. rewrite realloc_length by lia. simpl. lia.
  - rewrite (reserve_fail _ m) in Hr by done. done.
Qed.

Lemma reserve_repr b s n :
  repr b s → end_offset_ b <= n < size_max → 0 < n → alloc_ok n = true →
  ∃ b', reserve b n = Done b' ∧ repr b' s ∧ capacity_ b' = n
        ∧ start_offset_ b' = start_offset_ b ∧ end_offset_ b' = end_offset_ b.
Proof.
  intros (m&Hm&Hl&Hc&Hh&He) Hn Hn0 Ha. eexists. split; [by apply reserve_ok|].
  split; [|done]. eexists. split; [done|]. rewrite realloc_length by lia. simpl.
  split_and!; [done|lia| |done]. apply holds_realloc; [done|lia].
Qed.

(** Appending where there is room. *)
Lemma append_fits fuel b s d :
  repr b s → Z.of_nat (length d) <= capacity_ b - end_offset_ b →
  ∃ b', appendRawBytes (S fuel) b (init d) = Done b' ∧ repr b' (s ++ d)
        ∧ capacity_ b' = capacity_ b ∧ start_offset_ b' = start_offset_ b
        ∧ end_offset_ b' = end_offset_ b + Z.of_nat (length d).
Proof.
  intros Hr Hfit. pose proof (repr_wf _ _ Hr) as Hwf.
  pose proof (wf_available _ Hwf) as Hav.
  destruct Hr as (m&Hm&Hl&Hc&Hh&He).
  destruct Hh as (pre&post&Heq&Hs).
  cbn [appendRawBytes]. rewrite length_init, Hav. bool_lia. rewrite Hm. simpl.
  assert (length d <= length post)%nat as Hpost.
  { apply (f_equal length) in Heq. len_lia. }
  rewrite <- (take_drop (length d) post) in Heq.
  rewrite (app_assoc pre) in Heq. rewrite Heq.
  replace (end_offset_ b) with (Z.of_nat (length (pre ++ init s)))
    by (rewrite length_app, length_init; lia).
  rewrite mem_write_app by (rewrite length_take, length_init; lia). simpl.
  rewrite !length_app, length_init, size_t_small by lia.
  eexists. split; [done|]. simpl. split_and!; [|done..].
  eexists. split; [done|]. simpl. split_and!.
  - apply (f_equal length) in Heq. len_lia.
  - done.
  - rewrite Hs, <- app_assoc, (app_assoc (init s)), <- init_app. apply holds_intro.
  - rewrite length_app. lia.
Qed.

(** Appending where there is no room: the block grows by exactly the size. *)
Lemma append_grows fuel b s d :
  repr b s → capacity_ b - end_offset_ b < Z.of_nat (length d) →
  capacity_ b + Z.of_nat (length d) < size_max →
  alloc_ok (capacity_ b + Z.of_nat (length d)) = true →
  ∃ b', appendRawBytes (S (S fuel)) b (init d) = Done b' ∧ repr b' (s ++ d)
        ∧ capacity_ b' = capacity_ b + Z.of_nat (length d)
        ∧ start_offset_ b' = start_offset_ b
        ∧ end_offset_ b' = end_offset_ b + Z.of_nat (length d).
Proof.
  intros Hr Hfull Hmax Ha. pose proof (repr_wf _ _ Hr) as Hwf.
  pose proof (wf_available _ Hwf) as Hav. destruct Hwf as (m&_&_&?&?).
  destruct (reserve_repr b s (capacity_ b + Z.of_nat (length d)))
    as (b1&Hb1&Hr1&Hc1&Hs1&He1); [done|lia..|done|].
  destruct (append_fits fuel b1 s d) as (b2&Hb2&Hr2&Hc2&Hs2&He2); [done|lia|].
  exists b2. rewrite <- Hs1, <- He1, <- Hc1. split_and!; [|done..].
  remember (S fuel) as k. cbn [appendRawBytes].
  rewrite length_init, Hav, (size_t_small (capacity_ b + _)) by lia. bool_lia.
  by rewrite Hb1.
Qed.

Lemma append_throws fuel b s d :
  repr b s → capacity_ b - end_offset_ b < Z.of_nat (length d) →
  capacity_ b + Z.of_nat (length d) < size_max →
  alloc_ok (capacity_ b + Z.of_nat (length d)) = false →
  appendRawBytes (S fuel) b (init d) = Throw bad_alloc.
Proof.
  intros Hr Hfull Hmax Ha. pose proof (repr_wf _ _ Hr) as Hwf.
  pose proof (wf_available _ Hwf) as Hav. destruct Hwf as (m&Hm&_&?&?).
  cbn [appendRawBytes]. rewrite length_init, Hav, (size_t_small (capacity_ b + _)) by lia. bool_lia.
  by rewrite (reserve_fail _ m) by (done || lia).
Qed.

(** Growing once is enough: two levels of recursion. *)
Lemma append_fuel b s d :
  repr b s → capacity_ b + Z.of_nat (length d) < size_max →
  appendRawBytes 2 b (init d) ≠ OutOfFuel.
Proof.
  intros Hr Hmax. destruct (Z.leb_spec (Z.of_nat (length d)) (capacity_ b - end_offset_ b)).
  { by destruct (append_fits 1 b s d) as (?&->&_). }
  destruct (alloc_ok (capacity_ b + Z.of_nat (length d))) eqn:Ha.
  { by destruct (append_grows 0 b s d) as (?&->&_). }
  by rewrite (append_throws 1 b s d).
Qed.

(** The capacity after appending [n] bytes. *)
Definition append_capacity (b : IOBuffer) (n : Z) : Z :=
  if n <=? capacity_ b - end_offset_ b then capacity_ b else capacity_ b + n.

Lemma append_capacity_bound b n : 0 <= n →
  capacity_ b <= append_capacity b n <= capacity_ b + n.
Proof. intros. unfold append_capacity. case_match; lia. Qed.

Lemma append_repr fuel b s d :
  repr b s → (2 <= fuel)%nat →
  capacity_ b + Z.of_nat (length d) < size_max →
  (∀ n, alloc_ok n = true) →
  ∃ b', appendRawBytes fuel b (init d) = Done b' ∧ repr b' (s ++ d)
        ∧ capacity_ b' = append_capacity b (Z.of_nat (length d))
        ∧ start_offset_ b' = start_offset_ b
        ∧ end_offset_ b' = end_offset_ b + Z.of_nat (length d).
Proof.
  intros Hr Hf Hmax Ha. destruct fuel as [|[|fuel]]; [lia..|].
  unfold append_capacity. case_match eqn:Hfit.
  - apply Z.leb_le in Hfit. by apply append_fits.
  - apply Z.leb_gt in Hfit. by apply append_grows.
Qed.

Lemma IOBuffer_new_repr n :
  0 < n < size_max → alloc_ok n = true →
  ∃ b, IOBuffer_new n = Done b ∧ repr b [] ∧ capacity_ b = n
       ∧ start_offset_ b = 0 ∧ end_offset_ b = 0.
Proof.
  intros Hn Ha. unfold IOBuffer_new, reserve, realloc. simpl. bool_lia.
  rewrite Ha. eexists. split; [done|]. split; [|done]. eexists. split; [done|].
  rewrite length_replicate. simpl. split_and!; [lia|lia| |lia].
  apply (holds_intro [] []).
Qed.

(** C21: [appendRawBytes(data, size)] on every branch: with two levels of recursion
    it always finishes; it appends the bytes, growing the block by exactly
    [size] when they do not fit, or throws [bad_alloc]. *)
Theorem appendRawBytes_spec fuel b s d :
  repr b s → (2 <= fuel)%nat →
  capacity_ b + Z.of_nat (length d) < size_max →
  if (Z.of_nat (length d) <=? capacity_ b - end_offset_ b)
     || alloc_ok (capacity_ b + Z.of_nat (length d))
  then ∃ b', appendRawBytes fuel b (init d) = Done b' ∧ repr b' (s ++ d)
             ∧ capacity_ b' = append_capacity b (Z.of_nat (length d))
             ∧ start_offset_ b' = start_offset_ b
             ∧ end_offset_ b' = end_offset_ b + Z.of_nat (length d)
  else appendRawBytes fuel b (init d) = Throw bad_alloc.
Proof.
  intros Hr Hf Hmax. destruct fuel as [|[|fuel]]; [lia..|]. unfold append_capacity.
  destruct (Z.leb_spec (Z.of_nat (length d)) (capacity_ b - end_offset_ b)); cbn [orb].
  - by apply append_fits.
  - destruct (alloc_ok _) eqn:Ha; [by apply append_grows|by eapply append_throws].
Qed.

Lemma appendIOBuffer_fits fuel b src s t :
  repr b s → repr src t → Z.of_nat (length t) <= capacity_ b - end_offset_ b →
  ∃ b', appendIOBuffer (S fuel) b src = Done b' ∧ repr b' (s ++ t)
        ∧ capacity_ b' = capacity_ b.
Proof.
  intros Hb Hs Hfit. destruct (append_fits 0 b s t Hb Hfit) as (b'&Hb'&Hr&Hc&_).
  exists b'. split; [|done]. revert Hb'. cbn [appendRawBytes appendIOBuffer].
  rewrite (repr_datasize _ _ Hs), length_init.
  rewrite (wf_available b) by by eapply repr_wf. bool_lia.
  destruct Hs as (ms&Hms&_&_&Hh&_). rewrite Hms.
  destruct (internal_buffer_ b); simpl; [|done].
  by rewrite (holds_slice _ _ _ _ Hh).
Qed.

(** One failed test of the available space: a [reserve] to the source's
    capacity, then the same call again. *)
Lemma appendIOBuffer_retry fuel b src s t :
  repr b s → repr src t → capacity_ b - end_offset_ b < Z.of_nat (length t) →
  appendIOBuffer (S fuel) b src =
    (b ← reserve b (capacity_ src); appendIOBuffer fuel b src).
Proof.
  intros Hb Hs Hfull. remember fuel as k. cbn [appendIOBuffer].
  rewrite (repr_datasize _ _ Hs), (wf_available b) by by eapply repr_wf.
  by bool_lia.
Qed.

Lemma repr_bounds b s :
  repr b s → end_offset_ b = start_offset_ b + Z.of_nat (length s)
             ∧ 0 <= start_offset_ b ∧ end_offset_ b <= capacity_ b < size_max.
Proof.
  intros Hr. pose proof Hr as (?&?&?&?&?)%repr_wf. destruct Hr as (?&?&?&?&?&?).
  split_and!; auto; lia.
Qed.

(** Shrinking the block below the end offset makes the next append write
    past the block. *)
Lemma append_after_shrink fuel b b' src s t m :
  repr b s → repr src t → internal_buffer_ b = Some m →
  0 < capacity_ src < end_offset_ b → alloc_ok (capacity_ src) = true →
  reserve b (capacity_ src) = Done b' →
  appendIOBuffer (S fuel) b' src = Undefined OutOfBounds.
Proof.
  intros Hb Hs Hm Hk Ha Hr. pose proof (repr_bounds _ _ Hb) as Hbb.
  pose proof (repr_bounds _ _ Hs) as Hss.
  rewrite (reserve_ok _ m) in Hr by (done || lia). injection Hr as <-.
  cbn [appendIOBuffer]. rewrite (repr_datasize _ _ Hs).
  unfold getAvailableSpace. simpl. rewrite size_t_neg by (unfold size_max in *; lia).
  bool_lia. destruct Hs as (ms&Hms&_&_&Hh&_). rewrite Hms. simpl.
  rewrite (holds_slice _ _ _ _ Hh) by done. simpl. unfold mem_write.
  rewrite realloc_length, length_init by lia. bool_lia.
  by rewrite ?andb_false_r.
Qed.

(** A source whose capacity is the destination's and which does not fit: the
    same [reserve] over and over. *)
Lemma appendIOBuffer_stuck fuel b src s t :
  repr b s → repr src t → capacity_ b = capacity_ src →
  alloc_ok (capacity_ src) = true →
  capacity_ b - end_offset_ b < Z.of_nat (length t) →
  appendIOBuffer fuel b src = OutOfFuel.
Proof.
  intros Hb Hs. revert b Hb. pose proof (repr_bounds _ _ Hs) as Hss.
  induction fuel as [|fuel IH]; intros b Hb Hc Ha Hfull; [done|].
  rewrite (appendIOBuffer_retry _ _ _ s t) by done.
  pose proof (repr_bounds _ _ Hb) as Hbb.
  destruct (reserve_repr b s (capacity_ src)) as (b2&Hb2&Hr2&Hc2&_&He2);
    [done|lia..|done|].
  rewrite Hb2. change (Done ?x ≫= ?f) with (f x). apply IH; (done || lia).
Qed.

(** C22: The full behaviour of [appendRawBytes(const IOBuffer &)]. When the source
    does not fit, the destination is resized to the capacity of the source:
    if that is below the destination's end offset the copy runs off the
    block, and if it still leaves too little room the call never returns. *)
Theorem appendIOBuffer_spec fuel b src s t :
  repr b s → repr src t → (3 <= fuel)%nat →
  if Z.of_nat (length t) <=? capacity_ b - end_offset_ b then
    ∃ b', appendIOBuffer fuel b src = Done b' ∧ repr b' (s ++ t)
          ∧ capacity_ b' = capacity_ b
  else if negb (alloc_ok (capacity_ src)) then
    appendIOBuffer fuel b src = Throw bad_alloc
  else if capacity_ src <? end_offset_ b then
    appendIOBuffer fuel b src = Undefined OutOfBounds
  else if Z.of_nat (length t) <=? capacity_ src - end_offset_ b then
    ∃ b', appendIOBuffer fuel b src = Done b' ∧ repr b' (s ++ t)
          ∧ capacity_ b' = capacity_ src
  else appendIOBuffer fuel b src = OutOfFuel.
Proof.
  intros Hb Hs Hf. destruct fuel as [|fuel]; [lia|].
  pose proof (repr_bounds _ _ Hb) as Hbb. pose proof (repr_bounds _ _ Hs) as Hss.
  assert (∃ m, internal_buffer_ b = Some m) as [m Hm] by (destruct Hb as (m&?&_); eauto).
  destruct (Z.leb_spec (Z.of_nat (length t)) (capacity_ b - end_offset_ b)).
  { by apply appendIOBuffer_fits. }
  rewrite (appendIOBuffer_retry _ _ _ s t) by done.
  destruct (alloc_ok (capacity_ src)) eqn:Ha; cbn [negb].
  2:{ by rewrite (reserve_fail _ m) by (done || lia). }
  destruct (Z.ltb_spec (capacity_ src) (end_offset_ b)).
  { destruct fuel as [|fuel]; [lia|]. pose proof (reserve_ok b m (capacity_ src) Hm
      ltac:(lia) Ha) as Hr. rewrite Hr. change (Done ?x ≫= ?f) with (f x).
    by apply (append_after_shrink _ b _ _ s t m); try (done || lia). }
  destruct (reserve_repr b s (capacity_ src)) as (b1&Hb1&Hr1&Hc1&_&He1);
    [done|lia..|done|]. rewrite Hb1. change (Done ?x ≫= ?f) with (f x).
  rewrite <- He1, <- Hc1.
  destruct (Z.leb_spec (Z.of_nat (length t)) (capacity_ b1 - end_offset_ b1)).
  { destruct fuel as [|fuel]; [lia|]. by apply appendIOBuffer_fits. }
  by apply (appendIOBuffer_stuck _ _ _ s t).
Qed.
(** ** Refinement: an [IOBuffer] is a queue of bytes

    The operations a client uses, on the abstract queue (where [None] is a use
    outside the contract: an amount that is more than there is, or that an [int]
    cannot hold) and on the buffer. *)
Inductive queue_op :=
  | QAppend (d : bytes)     (** appendRawBytes *)
  | QConsume (n : Z)        (** modifyStartOffset(n), bytes sent *)
  | QTruncate (n : Z)       (** modifyEndOffset(-n) *)
  | QClear.                 (** clear *)

Definition removable (s : bytes) (n : Z) : bool :=
  (0 <=? n) && (n <=? Z.of_nat (length s)) && (n <? 2 ^ 31).

Definition queue_step (s : bytes) (op : queue_op) : option bytes :=
  match op with
  | QAppend d => Some (s ++ d)
  | QConsume n =>
      if removable s n then Some (drop (Z.to_nat n) s) else None
  | QTruncate n =>
      if removable s n
      then Some (take (length s - Z.to_nat n) s) else None
  | QClear => Some []
  end.

Definition buffer_step (b : IOBuffer) (op : queue_op) : res IOBuffer :=
  match op with
  | QAppend d => appendRawBytes 2 b (init d)
  | QConsume n => Done (modifyStartOffset b n)
  | QTruncate n => Done (modifyEndOffset b (- n))
  | QClear => Done (clear b)
  end.

Fixpoint queue_run (s : bytes) (ops : list queue_op) : option bytes :=
  match ops with
  | [] => Some s
  | op :: ops => s ← queue_step s op; queue_run s ops
  end.

Fixpoint buffer_run (b : IOBuffer) (ops : list queue_op) : res IOBuffer :=
  match ops with
  | [] => Done b
  | op :: ops => b ← buffer_step b op; buffer_run b ops
  end.

(** An upper bound of the bytes a program appends. *)
Definition op_bytes (op : queue_op) : Z :=
  match op with QAppend d => Z.of_nat (length d) | _ => 0 end.
Fixpoint ops_bytes (ops : list queue_op) : Z :=
  match ops with [] => 0 | op :: ops => op_bytes op + ops_bytes ops end.

Lemma op_bytes_nonneg op : 0 <= op_bytes op.
Proof. destruct op; simpl; lia. Qed.

Lemma ops_bytes_nonneg ops : 0 <= ops_bytes ops.
Proof.
  induction ops as [|op ops IH]; [done|]. simpl.
  pose proof (op_bytes_nonneg op). lia.
Qed.

(** A buffer with other offsets: without its first, or its last, [n] bytes. *)
Definition without_first (b : IOBuffer) (n : Z) : IOBuffer :=
  mkIOBuffer (internal_buffer_ b) (start_offset_ b + n) (end_offset_ b) (capacity_ b).
Definition without_last (b : IOBuffer) (n : Z) : IOBuffer :=
  mkIOBuffer (internal_buffer_ b) (start_offset_ b) (end_offset_ b - n) (capacity_ b).

Lemma without_first_repr b s n :
  repr b s → 0 <= n <= Z.of_nat (length s) →
  repr (without_first b n) (drop (Z.to_nat n) s).
Proof.
  intros Hr Hn. pose proof (repr_bounds _ _ Hr) as Hb.
  destruct Hr as (m&Hm&Hl&Hc&Hh&He). exists m. simpl.
  split_and!; [done..| |len_lia].
  rewrite <- (take_drop (Z.to_nat n) s) in Hh. apply holds_app in Hh as [_ Hh].
  rewrite length_take_le, Z2Nat.id in Hh by lia. done.
Qed.

Lemma without_last_repr b s n :
  repr b s → 0 <= n <= Z.of_nat (length s) →
  repr (without_last b n) (take (length s - Z.to_nat n) s).
Proof.
  intros Hr Hn. pose proof (repr_bounds _ _ Hr) as Hb.
  destruct Hr as (m&Hm&Hl&Hc&Hh&He). exists m. simpl.
  split_and!; [done..| |len_lia].
  rewrite <- (take_drop (length s - Z.to_nat n) s) in Hh.
  by apply holds_app in Hh as [Hh _].
Qed.

(** The operations do that for an amount that an [int] can hold; the start
    offset moves backwards for one that is above. *)
Lemma modifyStartOffset_first b s n :
  repr b s → 0 <= n <= Z.of_nat (length s) → n < 2 ^ 31 →
  modifyStartOffset b n = without_first b n.
Proof.
  intros Hr Hn Hint. pose proof (repr_bounds _ _ Hr).
  unfold modifyStartOffset, without_first. by rewrite to_int32_small, size_t_small by lia.
Qed.

Lemma consume_repr b s n :
  repr b s → 0 <= n <= Z.of_nat (length s) → n < 2 ^ 31 →
  repr (modifyStartOffset b n) (drop (Z.to_nat n) s).
Proof.
  intros Hr Hn Hint. rewrite (modifyStartOffset_first b s) by done.
  by apply without_first_repr.
Qed.

Lemma modifyEndOffset_last b s n :
  repr b s → 0 <= n <= Z.of_nat (length s) → n <= 2 ^ 31 →
  modifyEndOffset b (- n) = without_last b n.
Proof.
  intros Hr Hn Hint. pose proof (repr_bounds _ _ Hr).
  unfold modifyEndOffset, without_last. by rewrite to_int32_small, size_t_small by lia.
Qed.

Lemma modifyStartOffset_back b s n :
  repr b s → 2 ^ 31 <= n < 2 ^ 32 → 2 ^ 32 <= start_offset_ b + n →
  start_offset_ (modifyStartOffset b n) = start_offset_ b + n - 2 ^ 32.
Proof.
  intros Hr Hn Hs. pose proof (repr_bounds _ _ Hr). simpl. unfold to_int32.
  replace ((n + 2 ^ 31) mod 2 ^ 32) with (n + 2 ^ 31 - 2 ^ 32)
    by (apply Z.mod_unique with 1; [left; lia|lia]).
  rewrite size_t_small by lia. lia.
Qed.

Lemma clear_repr b s : repr b s → repr (clear b) [].
Proof.
  intros Hr. pose proof (repr_bounds _ _ Hr) as Hb.
  destruct Hr as (m&Hm&Hl&Hc&Hh&He). exists m. simpl. split_and!; try done.
  apply (holds_intro [] []).
Qed.

Lemma buffer_step_repr b s op s' :
  repr b s → queue_step s op = Some s' → capacity_ b + op_bytes op < size_max →
  (∀ n, alloc_ok n = true) →
  ∃ b', buffer_step b op = Done b' ∧ repr b' s'
        ∧ capacity_ b' <= capacity_ b + op_bytes op.
Proof.
  intros Hr Hq Hmax Ha. destruct op as [d|n|n|]; simpl in *.
  - simplify_eq. destruct (append_repr 2 b s d) as (b'&?&?&Hc&_); try done.
    exists b'. split_and!; [done..|]. rewrite Hc.
    apply append_capacity_bound. lia.
  - case_match eqn:Hn; simplify_eq.
    unfold removable in Hn. rewrite !andb_true_iff, !Z.leb_le, Z.ltb_lt in Hn. destruct Hn.
    eexists. split_and!; [done|by apply consume_repr|simpl; lia].
  - case_match eqn:Hn; simplify_eq.
    unfold removable in Hn. rewrite !andb_true_iff, !Z.leb_le, Z.ltb_lt in Hn. destruct Hn.
    eexists. split_and!; [done| |simpl; lia].
    rewrite (modifyEndOffset_last b s) by (done || lia). by apply without_last_repr.
  - simplify_eq. eexists. split_and!; [done|by eapply clear_repr|simpl; lia].
Qed.

(** C12: Every program over the buffer's operations that is legal on the abstract
    queue, where a call removes no more bytes than there are and than an [int]
    counts, runs to completion on the buffer as long as there is memory, and the
    buffer then holds exactly what the queue holds. *)
Theorem IOBuffer_refines_queue b s ops s' :
  repr b s → queue_run s ops = Some s' →
  capacity_ b + ops_bytes ops < size_max → (∀ n, alloc_ok n = true) →
  ∃ b', buffer_run b ops = Done b' ∧ repr b' s'.
Proof.
  intros Hr Hq Hmax Ha. revert b s Hr Hq Hmax.
  induction ops as [|op ops IH]; simpl; intros b s Hr Hq Hmax.
  { simplify_eq. eauto. }
  destruct (queue_step s op) as [s1|] eqn:Hs; simpl in Hq; [|done].
  pose proof (ops_bytes_nonneg ops).
  destruct (buffer_step_repr b s op s1) as (b1&Hb1&Hr1&Hc1); try (done || lia).
  rewrite Hb1. simpl. eapply IH; (done || lia).
Qed.

(** ** Parts of a buffer: the first characters, and the others *)
Definition first_part (buf : IOBuffer) (l2 : bytes) : IOBuffer :=
  without_last buf (Z.of_nat (length l2)).
Definition second_part (buf : IOBuffer) (l1 : bytes) : IOBuffer :=
  without_first buf (Z.of_nat (length l1)).

Lemma first_part_repr buf l1 l2 : repr buf (l1 ++ l2) → repr (first_part buf l2) l1.
Proof.
  intros Hr. apply (without_last_repr _ _ (Z.of_nat (length l2))) in Hr; [|len_lia].
  by rewrite length_app, Nat2Z.id, Nat.add_sub, take_app_length in Hr.
Qed.

Lemma second_part_repr buf l1 l2 : repr buf (l1 ++ l2) → repr (second_part buf l1) l2.
Proof.
  intros Hr. apply (without_first_repr _ _ (Z.of_nat (length l1))) in Hr; [|len_lia].
  by rewrite Nat2Z.id, drop_app_length in Hr.
Qed.

(** The read of the byte before the start offset. *)
Definition prev_read (buf : IOBuffer) : res char :=
  b ← deref (internal_buffer_ buf); mem_read b (start_offset_ buf - 1).

Lemma prev_read_fuel buf : prev_read buf ≠ OutOfFuel.
Proof. unfold prev_read, deref, mem_read. by repeat (simpl; case_match). Qed.

Lemma second_part_prev buf l1 l2 :
  repr buf (l1 ++ l2) →
  prev_read (second_part buf l1) = List.last (Done <$> l1) (prev_read buf).
Proof.
  intros Hr. pose proof (repr_bounds _ _ Hr) as Hb.
  destruct Hr as (b&Hm&Hl&Hc&Hh&He). unfold prev_read, second_part, without_first.
  simpl. rewrite Hm. simpl.
  destruct l1 as [|c l1 _] using rev_ind; [by rewrite Z.add_0_r|].
  rewrite fmap_app. change (Done <$> [c]) with [Done c]. rewrite last_last.
  apply holds_app in Hh as [Hh _].
  apply holds_app in Hh as [_ [Hh _]%holds_cons]. rewrite <- Hh. f_equal. len_lia.
Qed.

Lemma prev_read_ext b b' m m' :
  internal_buffer_ b = Some m → internal_buffer_ b' = Some m' →
  start_offset_ b' = start_offset_ b →
  (∀ i, Z.of_nat i < start_offset_ b → m' !! i = m !! i) →
  prev_read b' = prev_read b.
Proof.
  intros Hm Hm' Hs Hpre. unfold prev_read. rewrite Hm, Hm', Hs. simpl. unfold mem_read.
  destruct (Z.ltb_spec (start_offset_ b - 1) 0); [done|]. by rewrite Hpre by lia.
Qed.

(** Growing the block and appending keep the byte before the content. *)
Lemma reserve_prev b b' s n :
  repr b s → end_offset_ b <= n → 0 < n → reserve b n = Done b' → prev_read b' = prev_read b.
Proof.
  intros Hr Hn Hn0 Hb'. pose proof (repr_bounds _ _ Hr) as Hb. destruct Hr as (m&Hm&Hl&_).
  destruct (alloc_ok n) eqn:Ha; [|by rewrite (reserve_fail _ m) in Hb'].
  rewrite (reserve_ok _ m) in Hb' by done. injection Hb' as <-.
  eapply prev_read_ext; [done..|]. cbn [internal_buffer_ set_block]. intros i Hi.
  etransitivity; [apply lookup_app_l; rewrite length_take; lia|].
  apply lookup_take_lt. lia.
Qed.

Lemma append_prev fuel b b' s d :
  repr b s → Z.of_nat (length d) <= capacity_ b - end_offset_ b →
  appendRawBytes (S fuel) b (init d) = Done b' → prev_read b' = prev_read b.
Proof.
  intros Hr Hfit Hb'. pose proof (repr_bounds _ _ Hr) as Hb.
  cbn [appendRawBytes] in Hb'.
  rewrite length_init, (wf_available b) in Hb' by by eapply repr_wf.
  rewrite (proj2 (Z.leb_le _ _) Hfit) in Hb'.
  destruct Hr as (m&Hm&Hl&_). rewrite Hm in Hb'. simpl in Hb'.
  unfold mem_write in Hb'. rewrite length_init in Hb'.
  rewrite (proj2 (Z.leb_le 0 (end_offset_ b))) in Hb' by lia.
  rewrite (proj2 (Z.leb_le _ (Z.of_nat (length m)))) in Hb' by lia.
  injection Hb' as <-. eapply prev_read_ext; [done..|]. intros i Hi.
  etransitivity; [apply lookup_app_l; rewrite length_take; lia|].
  apply lookup_take_lt. lia.
Qed.

(** ** The move constructor

    It takes the block and the offsets of the source but leaves its own
    [capacity_] at 0, so a moved-into buffer that holds data is not
    well formed... *)
Lemma move_construct_not_wf b s :
  repr b s → s ≠ [] → ¬ wf (move_construct b).1.
Proof.
  intros Hr Hs (m&Hm&Hl&Ho&Hc). simpl in *. pose proof (repr_bounds _ _ Hr).
  destruct s; [done|]. simpl in *. lia.
Qed.

(** ...and an append that does not fit any more writes past the block instead
    of growing it: the space computed from the lost capacity wraps around. *)
Theorem move_construct_append_overflows fuel b s d :
  repr b s → 0 < end_offset_ b →
  capacity_ b - end_offset_ b < Z.of_nat (length d) →
  Z.of_nat (length d) <= size_max - end_offset_ b →
  getCapacity (move_construct b).1 = 0
  ∧ appendRawBytes (S fuel) (move_construct b).1 (init d) = Undefined OutOfBounds.
Proof.
  intros Hr He Hd Hmax. split; [done|]. pose proof (repr_bounds _ _ Hr).
  destruct Hr as (m&Hm&Hl&_). cbn [appendRawBytes]. rewrite length_init.
  unfold getAvailableSpace. simpl. rewrite Hm, size_t_neg by lia. bool_lia.
  unfold mem_write. rewrite length_init. by bool_lia; rewrite ?andb_false_r.
Qed.

End proofs.

(** The buffer that holds exactly [s]. *)
Definition buffer_of (s : bytes) : IOBuffer :=
  mkIOBuffer (Some (init s)) 0 (Z.of_nat (length s)) (Z.of_nat (length s)).

Lemma buffer_of_repr s : Z.of_nat (length s) < size_max → repr (buffer_of s) s.
Proof.
  intros Hs. exists (init s). rewrite length_init. split_and!; try done.
  exists [], []. by rewrite app_nil_r.
Qed.

(** The buffer a constructor call makes. *)
Definition new_buffer (n : Z) : IOBuffer :=
  mkIOBuffer (Some (replicate (Z.to_nat n) None)) 0 0 n.

Lemma new_buffer_repr n : 0 <= n < size_max → repr (new_buffer n) [].
Proof.
  intros Hn. eexists. split; [done|]. rewrite length_replicate. simpl.
  split_and!; [lia|lia|apply (holds_intro [] [])|lia].
Qed.

Lemma IOBuffer_new_Done `{Allocator} n :
  0 < n → alloc_ok n = true → IOBuffer_new n = Done (new_buffer n).
Proof.
  intros Hn Ha. unfold IOBuffer_new, reserve, realloc. simpl. bool_lia. by rewrite Ha.
Qed.

#[export] Hint Resolve buffer_of_repr new_buffer_repr : blueth.

(** ** Concrete runs *)
Definition small_buffer : IOBuffer := mkIOBuffer (Some (init $"Hey" ++ [None])) 0 3 4.

Lemma small_buffer_repr : repr small_buffer $"Hey".
Proof.
  exists (init $"Hey" ++ [None]).
  split_and!; try reflexivity. by exists [], [None].
Defined.

Lemma appendRawBytes_spec_witness :
  ∃ b', @appendRawBytes total_alloc 2 small_buffer (init $"you") = Done b'
        ∧ repr b' $"Heyyou" ∧ capacity_ b' = 7.
Proof.
  destruct (@appendRawBytes_spec total_alloc 2 small_buffer $"Hey" $"you")
    as (b'&H1&H2&H3&_); [apply small_buffer_repr|lia|reflexivity|].
  exists b'. split; [exact H1|]. split; [exact H2|exact H3].
Defined.

(** Three outcomes of appending to a buffer with one free byte. *)
Lemma appendIOBuffer_spec_witness :
  (∃ b', @appendIOBuffer total_alloc 3 small_buffer (buffer_of $"y") = Done b'
         ∧ repr b' $"Heyy" ∧ capacity_ b' = 4)
  ∧ @appendIOBuffer total_alloc 3 small_buffer (buffer_of $"yo") = Undefined OutOfBounds
  ∧ @appendIOBuffer total_alloc 3 small_buffer (buffer_of $"you") = OutOfFuel.
Proof.
  pose proof (λ t H, @appendIOBuffer_spec total_alloc 3 small_buffer (buffer_of t)
    $"Hey" t small_buffer_repr (buffer_of_repr t H) (le_n 3)) as Hspec.
  split; [|split].
  - exact (Hspec $"y" eq_refl).
  - exact (Hspec $"yo" eq_refl).
  - exact (Hspec $"you" eq_refl).
Defined.

Lemma IOBuffer_refines_queue_witness :
  ∃ b', @buffer_run total_alloc small_buffer
          [QAppend $" you"; QConsume 4; QTruncate 1; QAppend $"!"] = Done b'
        ∧ repr b' $"yo!".
Proof.
  apply (@IOBuffer_refines_queue total_alloc small_buffer $"Hey");
    [apply small_buffer_repr|reflexivity|reflexivity|reflexivity].
Defined.

Lemma move_construct_append_overflows_witness :
  getCapacity (move_construct small_buffer).1 = 0
  ∧ @appendRawBytes total_alloc 3 (move_construct small_buffer).1 (init $"you")
    = Undefined OutOfBounds.
Proof.
  apply (@move_construct_append_overflows total_alloc 2 small_buffer $"Hey");
    [apply small_buffer_repr|reflexivity|reflexivity|vm_compute; discriminate].
Defined.
