(* ===== verification/BufferHeap.v ===== *)
(** * Buffers as objects over the memory of [malloc] (blueth/io/IOBuffer.hpp)

    IOBuffer takes a buffer for a value that has its block. Here a buffer is an
    object that has a pointer, the blocks are those that [realloc] gave out and
    [free] did not take back, and the programs declare, move, use and destroy
    several objects. The theorems justify the other reading: no two objects
    share a block, none has a pointer to a released one, none is left over, and
    so a program does what it does on values. They name the calls that break
    this, and the last part shows what those do: a block that is resized to
    nothing, and bytes of a buffer that are appended to the same buffer. *)
From Stdlib Require Import ZArith Lia Ascii String.
From stdpp Require Import base gmap sets strings list.
From S2P Require Import Prelude IOBuffer.
Local Open Scope Z_scope.
Local Open Scope blueth_scope.

(** ** The memory

    [realloc] always moves the block, and no address is given out twice, so that
    every use of an old pointer shows. *)
Record object := mkObject {
  buffer_ptr : option N;
  start_at : Z;
  end_at : Z;
  capacity_at : Z
}.

Record heap := mkHeap {
  objects : gmap N object;
  blocks : gmap N block;
  next_block : N
}.

Definition empty_heap : heap := mkHeap ∅ ∅ 0.
Definition default_object : object := mkObject None 0 0 0.

(** What [data] of [appendRawBytes] points to: memory that is no buffer's, or
    the block at an address, from an offset on. *)
Inductive source := Bytes (l : block) | Inside (a : N) (off size : Z).
Definition source_size (src : source) : Z :=
  match src with Bytes l => Z.of_nat (length l) | Inside _ _ n => n end.

Section operations.
Context `{Allocator}.

Definition object_of (x : N) : io heap object :=
  h ← get;
  match objects h !! x with Some o => mret o | None => lift (Undefined DanglingPointer) end.
Definition set_object (x : N) (o : object) : io heap () :=
  h ← get; put (mkHeap (<[x := o]> (objects h)) (blocks h) (next_block h)).
Definition remove_object (x : N) : io heap () :=
  h ← get; put (mkHeap (delete x (objects h)) (blocks h) (next_block h)).

Definition block_at (a : N) : io heap block :=
  h ← get;
  match blocks h !! a with Some m => mret m | None => lift (Undefined DanglingPointer) end.
Definition set_block_at (a : N) (m : block) : io heap () :=
  h ← get; put (mkHeap (objects h) (<[a := m]> (blocks h)) (next_block h)).
Definition new_block (m : block) : io heap N :=
  h ← get;
  _ ← put (mkHeap (objects h) (<[next_block h := m]> (blocks h)) (N.succ (next_block h)));
  mret (next_block h).
Definition free (a : N) : io heap () :=
  _ ← block_at a;
  h ← get; put (mkHeap (objects h) (delete a (blocks h)) (next_block h)).
Definition realloc_at (p : option N) (n : Z) : io heap (option N) :=
  m ← match p with Some a => m ← block_at a; mret (Some m) | None => mret None end;
  r ← lift (realloc m n);
  match r with
  | None =>
      _ ← match p with Some a => if n =? 0 then free a else mret () | None => mret () end;
      mret None
  | Some m =>
      _ ← match p with Some a => free a | None => mret () end;
      a ← new_block m; mret (Some a)
  end.

(** [memcpy(block + off, src, size)]; the two ranges must not overlap. *)
Definition load (src : source) : io heap block :=
  match src with
  | Bytes l => mret l
  | Inside a off size => m ← block_at a; lift (mem_slice m off size)
  end.
Definition overlaps (a : N) (off : Z) (src : source) : bool :=
  match src with
  | Bytes _ => false
  | Inside a' off' n => bool_decide (a = a') && (off <? off' + n) && (off' <? off + n)
  end.
Definition memcpy (a : N) (off : Z) (src : source) : io heap () :=
  l ← load src;
  if overlaps a off src then lift (Undefined BadArgument) else
  m ← block_at a;
  m ← lift (mem_write m off l);
  set_block_at a m.

(** ** The methods, on the object named [this] *)
Definition reserve (this : N) (mem_size : Z) : io heap () :=
  o ← object_of this;
  let mem_size := if mem_size =? 0 then size_t (capacity_at o * 2) else mem_size in
  tmp_ptr ← realloc_at (buffer_ptr o) mem_size;
  match tmp_ptr with
  | None => throw bad_alloc
  | Some p => set_object this (mkObject (Some p) (start_at o) (end_at o) mem_size)
  end.

(** The constructors make an object under a new name. An exception of the first
    leaves none. *)
Definition undeclared (this : N) : io heap () :=
  h ← get;
  match objects h !! this with Some _ => lift (Undefined BadArgument) | None => mret () end.
Definition undo (this : N) (m : io heap ()) : io heap () := λ h,
  match m h with
  | (Throw e, h) => (_ ← remove_object this; throw e) h
  | r => r
  end.
Definition construct (this : N) (capacity : Z) : io heap () :=
  _ ← undeclared this;
  _ ← set_object this default_object;
  undo this (reserve this capacity).
Definition move_construct (this io_buffer : N) : io heap () :=
  _ ← undeclared this;
  o ← object_of io_buffer;
  let new := default_object in
  _ ← set_object io_buffer (mkObject (buffer_ptr new) (start_at new) (end_at new) (capacity_at o));
  set_object this (mkObject (buffer_ptr o) (start_at o) (end_at o) (capacity_at new)).

(** The move assignment: nothing is returned, whatever was swapped. *)
Definition move_assign (this io_buffer : N) : io heap () :=
  _ ← object_of this;
  _ ← object_of io_buffer;
  lift (Undefined MissingReturn).

(** The destructor. *)
Definition destroy (this : N) : io heap () :=
  o ← object_of this;
  _ ← match buffer_ptr o with Some a => free a | None => mret () end;
  remove_object this.

Definition available_at (o : object) : Z := size_t (capacity_at o - end_at o).
Definition data_size_at (o : object) : Z := size_t (end_at o - start_at o).
Definition with_offsets (o : object) (s e : Z) : object :=
  mkObject (buffer_ptr o) s e (capacity_at o).

Fixpoint appendRawBytes (fuel : nat) (this : N) (data : source) : io heap () :=
  match fuel with
  | O => lift OutOfFuel
  | S fuel =>
      o ← object_of this;
      if source_size data <=? available_at o then
        a ← lift (deref (buffer_ptr o));
        _ ← memcpy a (end_at o) data;
        set_object this (with_offsets o (start_at o) (size_t (end_at o + source_size data)))
      else
        _ ← reserve this (size_t (capacity_at o + source_size data));
        appendRawBytes fuel this data
  end.

Fixpoint appendIOBuffer (fuel : nat) (this io_buffer : N) : io heap () :=
  match fuel with
  | O => lift OutOfFuel
  | S fuel =>
      o ← object_of this;
      src ← object_of io_buffer;
      if data_size_at src <=? available_at o then
        a ← lift (deref (buffer_ptr o));
        a' ← lift (deref (buffer_ptr src));
        _ ← memcpy a (end_at o) (Inside a' (start_at src) (data_size_at src));
        set_object this (with_offsets o (start_at o) (size_t (end_at o + data_size_at src)))
      else
        _ ← reserve this (capacity_at src);
        appendIOBuffer fuel this io_buffer
  end.

Definition update_offsets (this : N) (f : Z → Z → Z * Z) : io heap () :=
  o ← object_of this;
  let '(s, e) := f (start_at o) (end_at o) in set_object this (with_offsets o s e).
Definition clear (this : N) : io heap () := update_offsets this (λ _ _, (0, 0)).
Definition setStartOffset (this : N) (n : Z) : io heap () :=
  update_offsets this (λ _ e, (size_t (to_int32 n), e)).
Definition modifyStartOffset (this : N) (n : Z) : io heap () :=
  update_offsets this (λ s e, (size_t (s + to_int32 n), e)).
Definition setEndOffset (this : N) (n : Z) : io heap () :=
  update_offsets this (λ s _, (s, size_t (to_int32 n))).
Definition modifyEndOffset (this : N) (n : Z) : io heap () :=
  update_offsets this (λ s e, (s, size_t (e + to_int32 n))).

(** [this.appendRawBytes(other.getBuffer() + off, size)], the range being in the
    block of [other]. *)
Definition append_part (fuel : nat) (this other : N) (off size : Z) : io heap () :=
  _ ← object_of this;
  o ← object_of other;
  a ← lift (deref (buffer_ptr o));
  _ ← load (Inside a off size);
  appendRawBytes fuel this (Inside a off size).
End operations.

(** ** Programs: the calls on several buffers, up to the first that does not
    return *)
Inductive call :=
  | Construct (x : N) (capacity : Z)
  | MoveConstruct (x y : N)
  | MoveAssign (x y : N)
  | Destroy (x : N)
  | Reserve (x : N) (mem_size : Z)
  | Append (x : N) (data : block)
  | AppendPart (x y : N) (off size : Z)
  | AppendBuffer (x y : N)
  | Clear (x : N)
  | SetStart (x : N) (n : Z)
  | ModifyStart (x : N) (n : Z)
  | SetEnd (x : N) (n : Z)
  | ModifyEnd (x : N) (n : Z).

(** Buffers that are values. *)
Abbreviation values := (gmap N IOBuffer).

Section programs.
Context `{Allocator} (fuel : nat).

Definition step (c : call) : io heap () :=
  match c with
  | Construct x n => construct x n
  | MoveConstruct x y => move_construct x y
  | MoveAssign x y => move_assign x y
  | Destroy x => destroy x
  | Reserve x n => reserve x n
  | Append x data => appendRawBytes fuel x (Bytes data)
  | AppendPart x y off n => append_part fuel x y off n
  | AppendBuffer x y => appendIOBuffer fuel x y
  | Clear x => clear x
  | SetStart x n => setStartOffset x n
  | ModifyStart x n => modifyStartOffset x n
  | SetEnd x n => setEndOffset x n
  | ModifyEnd x n => modifyEndOffset x n
  end.
Fixpoint run (cs : list call) : io heap () :=
  match cs with [] => mret () | c :: cs => _ ← step c; run cs end.

(** The same calls on values. *)
Definition at_value {A} (m : values) (x : N) (f : IOBuffer → res A) : res A :=
  match m !! x with Some b => f b | None => Undefined DanglingPointer end.
Definition update_value (m : values) (x : N) (f : IOBuffer → res IOBuffer) : res values :=
  b ← at_value m x f; Done (<[x := b]> m).
Definition undeclared_value (m : values) (x : N) : res () :=
  match m !! x with Some _ => Undefined BadArgument | None => Done () end.

Definition value_step (c : call) (m : values) : res values :=
  match c with
  | Construct x n =>
      _ ← undeclared_value m x; b ← IOBuffer_new n; Done (<[x := b]> m)
  | MoveConstruct x y =>
      _ ← undeclared_value m x;
      at_value m y (λ b, let '(new, old) := IOBuffer.move_construct b in
                         Done (<[x := new]> (<[y := old]> m)))
  | MoveAssign x y =>
      at_value m x (λ b, at_value m y (λ b',
        r ← IOBuffer.move_assign b b'; Done (<[x := r.1]> (<[y := r.2]> m))))
  | Destroy x => at_value m x (λ _, Done (delete x m))
  | Reserve x n => update_value m x (λ b, IOBuffer.reserve b n)
  | Append x data => update_value m x (λ b, IOBuffer.appendRawBytes fuel b data)
  | AppendPart x y off n =>
      update_value m x (λ b, at_value m y (λ src,
        block ← deref (internal_buffer_ src);
        l ← mem_slice block off n;
        IOBuffer.appendRawBytes fuel b l))
  | AppendBuffer x y =>
      update_value m x (λ b, at_value m y (λ src, IOBuffer.appendIOBuffer fuel b src))
  | Clear x => update_value m x (λ b, Done (IOBuffer.clear b))
  | SetStart x n => update_value m x (λ b, Done (IOBuffer.setStartOffset b n))
  | ModifyStart x n => update_value m x (λ b, Done (IOBuffer.modifyStartOffset b n))
  | SetEnd x n => update_value m x (λ b, Done (IOBuffer.setEndOffset b n))
  | ModifyEnd x n => update_value m x (λ b, Done (IOBuffer.modifyEndOffset b n))
  end.
Fixpoint value_run (cs : list call) (m : values) : res values :=
  match cs with [] => Done m | c :: cs => m ← value_step c m; value_run cs m end.
End programs.

(** A buffer is not appended to itself, nor a part of it. *)
Definition unaliased (c : call) : bool :=
  match c with AppendPart x y _ _ | AppendBuffer x y => negb (bool_decide (x = y)) | _ => true end.

(** ** Ownership

    Every pointer of an object leads to a block, which is that object's alone,
    and every block is some object's. *)
Record owned (h : heap) : Prop := {
  own_live x o a : objects h !! x = Some o → buffer_ptr o = Some a → is_Some (blocks h !! a);
  own_once x y o o' a : objects h !! x = Some o → objects h !! y = Some o' →
    buffer_ptr o = Some a → buffer_ptr o' = Some a → x = y;
  own_all a : is_Some (blocks h !! a) → ∃ x o, objects h !! x = Some o ∧ buffer_ptr o = Some a;
  own_fresh a : is_Some (blocks h !! a) → (a < next_block h)%N
}.

Lemma empty_heap_owned : owned empty_heap.
Proof. split; [done..| |]; intros a [m Hm]; done. Qed.

(** What an object is as a value, and all of them. *)
Definition view_object (h : heap) (o : object) : IOBuffer :=
  mkIOBuffer (a ← buffer_ptr o; blocks h !! a) (start_at o) (end_at o) (capacity_at o).
Definition view (h : heap) : values := view_object h <$> objects h.

Lemma view_Some h x b :
  view h !! x = Some b ↔ ∃ o, objects h !! x = Some o ∧ b = view_object h o.
Proof. unfold view. rewrite lookup_fmap, fmap_Some. naive_solver. Qed.

Lemma view_None h x : view h !! x = None ↔ objects h !! x = None.
Proof. unfold view. by rewrite lookup_fmap, fmap_None. Qed.

(** What a call leaves of the other objects. *)
Definition same_but (x : N) (h h' : heap) : Prop :=
  ∀ y, y ≠ x → objects h' !! y = objects h !! y
    ∧ ∀ o a, objects h !! y = Some o → buffer_ptr o = Some a → blocks h' !! a = blocks h !! a.

Lemma view_update h h' x o :
  same_but x h h' → objects h' !! x = Some o → view h' = <[x := view_object h' o]> (view h).
Proof.
  intros Hsame Hx. apply map_eq. intros y. destruct (decide (y = x)) as [->|Hy].
  { rewrite lookup_insert_eq. apply view_Some. eauto. }
  rewrite lookup_insert_ne by done. unfold view. rewrite !lookup_fmap.
  destruct (Hsame y Hy) as [-> Hb]. destruct (objects h !! y) as [o'|] eqn:Ho; [|done].
  simpl. f_equal. unfold view_object. f_equal.
  destruct (buffer_ptr o') as [a|] eqn:Ha; [|done]. by apply (Hb o').
Qed.

Lemma same_but_trans x h1 h2 h3 : same_but x h1 h2 → same_but x h2 h3 → same_but x h1 h3.
Proof.
  intros H12 H23 y Hy. destruct (H12 y Hy) as [Ho12 Hb12], (H23 y Hy) as [Ho23 Hb23].
  split; [congruence|]. intros o a Ho Ha. rewrite (Hb23 o) by congruence. by apply (Hb12 o).
Qed.

(** *** The kinds of change *)

(** The fields other than the pointer, and the content of the block. *)
Definition rewrite_object (h : heap) (x : N) (o : object) (a : N) (m : block) : heap :=
  mkHeap (<[x := o]> (objects h)) (<[a := m]> (blocks h)) (next_block h).

Lemma offsets_owned h x o o' :
  owned h → objects h !! x = Some o → buffer_ptr o' = buffer_ptr o →
  owned (mkHeap (<[x := o']> (objects h)) (blocks h) (next_block h)).
Proof.
  intros [Hl Ho Ha Hf] Hx Hp. split; simpl.
  - intros y oy a. rewrite lookup_insert_Some. intros [[<- <-]|[_ Hy]] Hya; [|by eapply Hl].
    apply (Hl x o); [done|congruence].
  - intros y z oy oz a. rewrite !lookup_insert_Some.
    intros [[<- <-]|[? Hy]] [[<- <-]|[? Hz]] Hya Hza; try done.
    + apply (Ho x z o oz a); congruence.
    + apply (Ho y x oy o a); congruence.
    + by apply (Ho y z oy oz a).
  - intros a (y&oy&Hy&Hya)%Ha. destruct (decide (y = x)) as [->|Hyx].
    + exists x, o'. rewrite lookup_insert_eq. split; [done|congruence].
    + exists y, oy. by rewrite lookup_insert_ne.
  - exact Hf.
Qed.

Lemma rewrite_owned h x o o' a m :
  owned h → objects h !! x = Some o → buffer_ptr o = Some a → buffer_ptr o' = Some a →
  owned (rewrite_object h x o' a m).
Proof.
  intros Hown Hx Ha Ha'. pose proof (own_live h Hown x o a Hx Ha) as [m0 Hm0].
  destruct (offsets_owned h x o o' Hown Hx) as [Hl Ho Hall Hf]; [congruence|].
  assert (∀ a', is_Some (<[a := m]> (blocks h) !! a') ↔ is_Some (blocks h !! a')) as Hdom.
  { intros a'. rewrite lookup_insert_is_Some'. split; [intros [<-|]; by eauto|auto]. }
  unfold rewrite_object. split; simpl in *.
  - intros y oy a' Hy Hya. apply Hdom. by eapply Hl.
  - exact Ho.
  - intros a' Ha1%Hdom. by apply Hall.
  - intros a' Ha1%Hdom. by apply Hf.
Qed.

Lemma rewrite_same_but h x o o' a m :
  owned h → objects h !! x = Some o → buffer_ptr o = Some a →
  same_but x h (rewrite_object h x o' a m).
Proof.
  intros Hown Hx Ha y Hy. simpl. split; [by rewrite lookup_insert_ne|].
  intros oy a' Hoy Hay. rewrite lookup_insert_ne; [done|]. intros <-.
  apply Hy. by eapply (own_once h Hown).
Qed.

(** A new block for an object, whose old one is released. *)
Definition release_ptr (p : option N) (m : gmap N block) : gmap N block :=
  match p with Some a => delete a m | None => m end.
Definition move_block (h : heap) (x : N) (o : object) (m : block) (cap : Z) : heap :=
  mkHeap (<[x := mkObject (Some (next_block h)) (start_at o) (end_at o) cap]> (objects h))
    (<[next_block h := m]> (release_ptr (buffer_ptr o) (blocks h))) (N.succ (next_block h)).

Lemma next_unused h : owned h → blocks h !! next_block h = None.
Proof.
  intros Hown. destruct (blocks h !! next_block h) as [m|] eqn:Hm; [|done].
  pose proof (own_fresh h Hown (next_block h) ltac:(eauto)). lia.
Qed.

Lemma release_lookup p m a (b : block) :
  release_ptr p m !! a = Some b ↔ p ≠ Some a ∧ m !! a = Some b.
Proof.
  destruct p as [a'|]; simpl; [|naive_solver]. rewrite lookup_delete_Some. naive_solver.
Qed.

Lemma other_pointer h x y o oy a :
  owned h → objects h !! x = Some o → objects h !! y = Some oy → y ≠ x →
  buffer_ptr oy = Some a → buffer_ptr o ≠ Some a ∧ a ≠ next_block h.
Proof.
  intros Hown Hx Hy Hne Ha. split.
  - intros Ha'. apply Hne. by eapply (own_once h Hown).
  - intros ->. destruct (own_live h Hown y oy _ Hy Ha) as [m Hm].
    by rewrite next_unused in Hm.
Qed.

Lemma move_block_same_but h x o m cap :
  owned h → objects h !! x = Some o → same_but x h (move_block h x o m cap).
Proof.
  intros Hown Hx y Hy. simpl. split; [by rewrite lookup_insert_ne|].
  intros oy a Hoy Hay. destruct (other_pointer h x y o oy a) as [Hp Hn]; [done..|].
  rewrite lookup_insert_ne by done. destruct (buffer_ptr o) as [a'|]; [|done].
  simpl. apply lookup_delete_ne. congruence.
Qed.

Lemma move_block_owned h x o m cap :
  owned h → objects h !! x = Some o → owned (move_block h x o m cap).
Proof.
  intros Hown Hx. unfold move_block. split; simpl.
  - intros y oy a. rewrite lookup_insert_Some. intros [[<- <-]|[Hyx Hy]] Hya.
    + injection Hya as <-. by rewrite lookup_insert_eq.
    + destruct (other_pointer h x y o oy a) as [Hp Hn]; [done..|].
      destruct (own_live h Hown y oy a Hy Hya) as [b Hb].
      exists b. rewrite lookup_insert_ne by done. by apply release_lookup.
  - intros y z oy oz a. rewrite !lookup_insert_Some.
    intros [[<- <-]|[Hyx Hy]] [[<- <-]|[Hzx Hz]] Hya Hza; simpl in *; simplify_eq; try done.
    + by destruct (other_pointer h x z o oz (next_block h)).
    + by destruct (other_pointer h x y o oy (next_block h)).
    + by eapply (own_once h Hown).
  - intros a [b Hb]. apply lookup_insert_Some in Hb as [[<- <-]|[Hne Hb]].
    + exists x. eexists. by rewrite lookup_insert_eq.
    + apply release_lookup in Hb as [Hp Hb].
      destruct (own_all h Hown a) as (y&oy&Hy&Hya); [by eauto|].
      exists y, oy. rewrite lookup_insert_ne; [done|]. intros <-. congruence.
  - intros a [b Hb]. apply lookup_insert_Some in Hb as [[<- <-]|[Hne Hb]]; [lia|].
    apply release_lookup in Hb as [_ Hb]. pose proof (own_fresh h Hown a ltac:(eauto)). lia.
Qed.

(** An object that comes without a block, and one that goes with its block. *)
Lemma declare_owned h x o :
  owned h → objects h !! x = None → buffer_ptr o = None →
  owned (mkHeap (<[x := o]> (objects h)) (blocks h) (next_block h)).
Proof.
  intros [Hl Ho Ha Hf] Hx Hp. split; simpl; [| | |exact Hf].
  - intros y oy a. rewrite lookup_insert_Some. intros [[<- <-]|[_ Hy]] Hya; [congruence|].
    by eapply Hl.
  - intros y z oy oz a. rewrite !lookup_insert_Some.
    intros [[<- <-]|[? Hy]] [[<- <-]|[? Hz]] Hya Hza; try congruence. by eapply Ho.
  - intros a (y&oy&Hy&Hya)%Ha. exists y, oy. rewrite lookup_insert_ne; [done|congruence].
Qed.

Lemma destroy_owned h x o :
  owned h → objects h !! x = Some o →
  owned (mkHeap (delete x (objects h)) (release_ptr (buffer_ptr o) (blocks h)) (next_block h)).
Proof.
  intros Hown Hx. split; simpl.
  - intros y oy a. rewrite lookup_delete_Some. intros [Hyx Hy] Hya.
    destruct (other_pointer h x y o oy a) as [Hp _]; [done..|].
    destruct (own_live h Hown y oy a Hy Hya) as [b Hb]. exists b. by apply release_lookup.
  - intros y z oy oz a. rewrite !lookup_delete_Some. intros [_ Hy] [_ Hz].
    by apply (own_once h Hown).
  - intros a [b [Hp Hb]%release_lookup].
    destruct (own_all h Hown a) as (y&oy&Hy&Hya); [by eauto|].
    exists y, oy. rewrite lookup_delete_ne; [done|]. intros <-. congruence.
  - intros a [b [_ Hb]%release_lookup]. apply (own_fresh h Hown). by eauto.
Qed.

(** ** The methods, as changes of the heap *)
Definition result {A} (r : res A) (h : heap) (k : A → heap) : res () * heap :=
  match r with
  | Done a => (Done (), k a)
  | Throw e => (Throw e, h)
  | Terminate => (Terminate, h)
  | Undefined u => (Undefined u, h)
  | OutOfFuel => (OutOfFuel, h)
  end.

Lemma result_fst {A} (r : res A) h k : (result r h k).1 = (r ≫= λ _, Done ()).
Proof. by destruct r. Qed.

Section specs.
Context `{Allocator}.

Lemma object_of_Done h x o : objects h !! x = Some o → object_of x h = (Done o, h).
Proof. intros Hx. unfold object_of. rewrite get_bind. by rewrite Hx. Qed.

Lemma block_at_Done h a m : blocks h !! a = Some m → block_at a h = (Done m, h).
Proof. intros Ha. unfold block_at. rewrite get_bind. by rewrite Ha. Qed.

Lemma view_live h x o a :
  owned h → objects h !! x = Some o → buffer_ptr o = Some a →
  ∃ m, blocks h !! a = Some m ∧ internal_buffer_ (view_object h o) = Some m.
Proof.
  intros Hown Hx Ha. destruct (own_live h Hown x o a Hx Ha) as [m Hm].
  exists m. split; [done|]. simpl. by rewrite Ha.
Qed.

(** The size that [reserve] asks for; and whether that gives up the block of the
    object, which [realloc] then releases while the pointer to it stays. *)
Definition resized (o : object) (n : Z) : Z :=
  if n =? 0 then size_t (capacity_at o * 2) else n.
Definition releases (o : object) (n : Z) : bool :=
  match buffer_ptr o with Some _ => resized o n =? 0 | None => false end.
Definition after_failure (h : heap) (o : object) (n : Z) : heap :=
  if releases o n
  then mkHeap (objects h) (release_ptr (buffer_ptr o) (blocks h)) (next_block h) else h.

Lemma reserve_run h x o n :
  owned h → objects h !! x = Some o →
  reserve x n h
  = result (IOBuffer.reserve (view_object h o) n) (after_failure h o n) (λ b,
      move_block h x o (default [] (internal_buffer_ b)) (capacity_ b)).
Proof.
  intros Hown Hx. unfold reserve. rewrite (io_bind_Done _ _ _ _ _ (object_of_Done _ _ _ Hx)).
  unfold IOBuffer.reserve, after_failure, releases. cbn [capacity_ view_object].
  fold (resized o n). set (n' := resized o n).
  unfold realloc_at, free, new_block, set_object, move_block.
  destruct (buffer_ptr o) as [a|] eqn:Ha.
  - destruct (view_live h x o a Hown Hx Ha) as (m&Hm&Hv). rewrite Hv.
    unfold mbind, io_bind. rewrite !(block_at_Done _ _ _ Hm). simpl.
    unfold realloc. destruct (n' =? 0); simpl; [by rewrite (block_at_Done _ _ _ Hm)|].
    destruct (alloc_ok n'); [|done]. simpl. by rewrite !(block_at_Done _ _ _ Hm).
  - unfold mbind, io_bind. simpl. rewrite Ha. unfold realloc. simpl.
    by destruct (alloc_ok n').
Qed.

(** It gets a block of that size or throws. *)
Lemma reserve_cases h x o n :
  owned h → objects h !! x = Some o →
  (∃ m, alloc_ok (resized o n) = true
     ∧ reserve x n h = (Done (), move_block h x o m (resized o n)))
  ∨ reserve x n h = (Throw bad_alloc, after_failure h o n).
Proof.
  intros Hown Hx. rewrite (reserve_run h x o) by done. unfold IOBuffer.reserve.
  cbn [capacity_ view_object]. fold (resized o n). unfold realloc.
  destruct (internal_buffer_ _); [destruct (_ =? 0); [by right|]|];
    (destruct (alloc_ok _) eqn:Hok; [left|by right]); by eexists.
Qed.

(** What is copied, and the copy followed by the change of the end offset. *)
Definition source_cells (h : heap) (src : source) : res block :=
  match src with
  | Bytes l => Done l
  | Inside a off n =>
      match (blocks h !! a : option block) with Some m => mem_slice m off n | None => Undefined DanglingPointer end
  end.

Lemma fill_run h x o' a m off src :
  blocks h !! a = Some m →
  (memcpy a off src ≫= λ _, set_object x o') h
  = result (l ← source_cells h src;
            if overlaps a off src then Undefined BadArgument else mem_write m off l)
      h (rewrite_object h x o' a).
Proof.
  intros Hm. unfold memcpy, mbind, io_bind.
  assert (load src h = (source_cells h src, h)) as ->.
  { destruct src as [l|a' off' n]; [done|]. simpl. unfold block_at.
    unfold mbind, io_bind, get. by destruct (blocks h !! a'). }
  destruct (source_cells h src) as [l| | | |]; try done. simpl.
  destruct (overlaps a off src); [done|]. rewrite (block_at_Done _ _ _ Hm). simpl.
  by destruct (mem_write m off l).
Qed.

(** *** Soundness

    Every capacity is 0 or one that was allocated; no block is larger than half
    of the address space. *)
Definition allocated (h : heap) : Prop :=
  map_Forall (λ _ o, capacity_at o = 0 ∨ alloc_ok (capacity_at o) = true) (objects h).
Definition small_blocks : Prop := ∀ n, alloc_ok n = true → 0 <= n < 2 ^ 63.

(** A call declares and removes nothing. It leaves the heap owned when it returns,
    and under the condition [P] whatever its outcome; and then it uses no pointer
    to a released block. *)
Definition sound (P : Prop) (h : heap) (out : res () * heap) : Prop :=
  (P ∨ out.1 = Done () → owned out.2) ∧ (allocated h → allocated out.2)
  ∧ dom (objects out.2) = dom (objects h) ∧ (P → out.1 ≠ Undefined DanglingPointer).

Lemma sound_weaken (P Q : Prop) h out : (P → Q) → sound Q h out → sound P h out.
Proof. intros HPQ (Ho&Ha&Hd&Hu). split_and!; auto. intros [?|?]; auto. Qed.

Lemma sound_from (P Q : Prop) h h' out :
  (P → Q) → (allocated h → allocated h') → dom (objects h') = dom (objects h) →
  sound Q h' out → sound P h out.
Proof.
  intros HPQ Hall Hdom (Ho&Ha&Hd&Hu). split_and!; auto; [|congruence].
  intros [?|?]; auto.
Qed.

Lemma sound_stay (P : Prop) h r : owned h → r ≠ Undefined DanglingPointer → sound P h (r, h).
Proof. done. Qed.

Lemma result_sound {A} (P : Prop) (r : res A) h k :
  owned h → (P → r ≠ Undefined DanglingPointer) →
  (∀ a, r = Done a → owned (k a) ∧ (allocated h → allocated (k a))
                     ∧ dom (objects (k a)) = dom (objects h)) →
  sound P h (result r h k).
Proof.
  intros Hown Hr Hk. destruct r as [a| | |u|]; try done.
  - destruct (Hk a eq_refl) as (?&?&?). done.
  - split_and!; [done..|]. simpl. intros HP [= ->]. by apply Hr.
Qed.

Lemma dom_update (m : gmap N object) x o o' : m !! x = Some o → dom (<[x := o']> m) = dom m.
Proof. intros Hx. apply dom_insert_lookup_L. eauto. Qed.

Lemma allocated_insert h h' x o :
  objects h' = <[x := o]> (objects h) → (capacity_at o = 0 ∨ alloc_ok (capacity_at o) = true) →
  allocated h → allocated h'.
Proof. intros Hobj Ho Ha. unfold allocated. rewrite Hobj. by apply map_Forall_insert_2. Qed.

(** The capacity stays that of the object. *)
Lemma allocated_keep h h' x o o' :
  objects h' = <[x := o']> (objects h) → objects h !! x = Some o →
  capacity_at o' = capacity_at o → allocated h → allocated h'.
Proof.
  intros Hobj Hx Hc Ha. eapply allocated_insert; [done| |done]. rewrite Hc. by apply (Ha x).
Qed.

Lemma move_block_allocated h x o m cap :
  alloc_ok cap = true → allocated h → allocated (move_block h x o m cap).
Proof. intros Hok. eapply allocated_insert; [done|by right]. Qed.

(** What follows the growth of a block. *)
Lemma sound_moved (P Q : Prop) h x o m cap out :
  objects h !! x = Some o → alloc_ok cap = true →
  ((allocated h → allocated (move_block h x o m cap)) → P → Q) →
  sound Q (move_block h x o m cap) out → sound P h out.
Proof.
  intros Hx Hok HPQ. pose proof (move_block_allocated h x o m cap Hok) as Hall.
  apply sound_from; [auto|done|by eapply dom_update].
Qed.

Lemma after_failure_owned h o n : owned h → releases o n = false → owned (after_failure h o n).
Proof. unfold after_failure. by intros ? ->. Qed.

Lemma after_failure_objects h o n : objects (after_failure h o n) = objects h.
Proof. unfold after_failure. by destruct (releases o n). Qed.

Lemma reserve_sound h x o n :
  owned h → objects h !! x = Some o → sound (releases o n = false) h (reserve x n h).
Proof.
  intros Hown Hx. destruct (reserve_cases h x o n Hown Hx) as [(m&Hok&->)| ->].
  - split_and!; [by intros _; apply move_block_owned| |by eapply dom_update|done].
    by apply move_block_allocated.
  - split_and!; [|unfold allocated; simpl; by rewrite after_failure_objects| |done].
    + intros [?|?]; [by apply after_failure_owned|done].
    + simpl. by rewrite after_failure_objects.
Qed.

Lemma fill_sound (P : Prop) h x o o' a off src :
  owned h → objects h !! x = Some o → buffer_ptr o = Some a → buffer_ptr o' = Some a →
  capacity_at o' = capacity_at o →
  (P → source_cells h src ≠ Undefined DanglingPointer) →
  sound P h ((memcpy a off src ≫= λ _, set_object x o') h).
Proof.
  intros Hown Hx Ha Ha' Hc Hsrc. destruct (view_live h x o a Hown Hx Ha) as (m&Hm&_).
  rewrite (fill_run h x o' a m) by done. apply result_sound; [done| |].
  - intros HP. specialize (Hsrc HP).
    destruct (source_cells h src) as [l| | |u|]; try done; simpl.
    destruct (overlaps a off src); [done|]. unfold mem_write. by case_match.
  - intros m' _. split_and!; [by eapply rewrite_owned|by eapply allocated_keep|].
    by eapply dom_update.
Qed.

Lemma mem_slice_outcome m i n : mem_slice m i n ≠ Undefined DanglingPointer.
Proof. unfold mem_slice. by case_match. Qed.

(** The cells of a source are there; and stay there when the block of [o] is
    moved, unless they are in it. *)
Definition source_live (h : heap) (o : object) (src : source) : Prop :=
  match src with
  | Bytes _ => True
  | Inside a _ n =>
      is_Some (blocks h !! a) ∧ (buffer_ptr o ≠ Some a ∨ n <= available_at o)
  end.

Lemma source_live_cells h o src :
  source_live h o src → source_cells h src ≠ Undefined DanglingPointer.
Proof.
  destruct src as [l|a off n]; [done|]. simpl. intros [[m ->] _]. apply mem_slice_outcome.
Qed.

Lemma available_nonneg o : 0 <= available_at o.
Proof. apply size_t_range. Qed.

(** When there is no room, the size that [appendRawBytes] asks for is not 0. *)
Lemma append_size h x o size :
  small_blocks → allocated h → objects h !! x = Some o →
  available_at o < size → size < 2 ^ 63 →
  releases o (size_t (capacity_at o + size)) = false.
Proof.
  intros Hs Ha Hx Hfull Hsize. pose proof (available_nonneg o).
  assert (0 <= capacity_at o < 2 ^ 63).
  { destruct (Ha x o Hx) as [-> |Hok]; [lia|by apply Hs]. }
  unfold releases, resized. rewrite size_t_small by (unfold size_max; lia).
  destruct (buffer_ptr o); [|done].
  destruct (Z.eqb_spec (capacity_at o + size) 0); [lia|]. by apply Z.eqb_neq.
Qed.

Lemma move_block_source h x o m cap src :
  owned h → objects h !! x = Some o → available_at o < source_size src →
  source_live h o src →
  source_live (move_block h x o m cap)
    (mkObject (Some (next_block h)) (start_at o) (end_at o) cap) src.
Proof.
  destruct src as [l|a off n]; [done|]. simpl. intros Hown Hx Hfull [[b Hb] [Hne|?]]; [|lia].
  assert (a ≠ next_block h) as Hnext by (intros ->; by rewrite next_unused in Hb).
  split; [|left; congruence]. rewrite lookup_insert_ne by done. exists b.
  by apply release_lookup.
Qed.

Lemma appendRawBytes_sound fuel h x o data :
  owned h → objects h !! x = Some o →
  sound (small_blocks ∧ allocated h ∧ source_size data < 2 ^ 63 ∧ source_live h o data)
    h (appendRawBytes fuel x data h).
Proof.
  revert h o. induction fuel as [|fuel IH]; intros h o Hown Hx; [by apply sound_stay|].
  cbn [appendRawBytes]. rewrite (io_bind_Done _ _ _ _ _ (object_of_Done _ _ _ Hx)).
  destruct (Z.leb_spec (source_size data) (available_at o)) as [Hfit|Hfull].
  - destruct (buffer_ptr o) as [a|] eqn:Ha; [|by apply sound_stay].
    unfold deref. rewrite lift_Done_bind. apply (fill_sound _ h x o); [done..|].
    intros (_&_&_&Hsrc). by eapply source_live_cells.
  - set (n := size_t (capacity_at o + source_size data)).
    destruct (reserve_cases h x o n Hown Hx) as [(m&Hok&Hr)|Hr].
    + rewrite (io_bind_Done _ _ _ _ _ Hr).
      eapply (sound_moved _ _ h x o m _ _ Hx Hok); [|apply IH;
        [by apply move_block_owned|apply lookup_insert_eq]].
      intros Hall (?&?&?&?).
      split_and!; [done|by apply Hall|done|by apply move_block_source].
    + pose proof (reserve_sound h x o n Hown Hx) as Hs. unfold mbind, io_bind.
      rewrite Hr in Hs |- *. eapply sound_weaken; [|exact Hs]. intros (?&?&?&_).
      by eapply append_size.
Qed.

(** The overload for a buffer asks for its capacity, or, when that is 0, for twice
    the capacity of the destination. *)
Lemma resized_positive h x o n :
  small_blocks → allocated h → objects h !! x = Some o → n ≠ 0 ∨ capacity_at o ≠ 0 →
  releases o n = false ∧ resized o n ≠ 0.
Proof.
  intros Hs Ha Hx Hn. assert (resized o n ≠ 0) as Hr.
  { unfold resized. destruct (Z.eqb_spec n 0); [|done].
    destruct (Ha x o Hx) as [?|Hok]; [lia|]. apply Hs in Hok.
    rewrite size_t_small by (unfold size_max; lia). lia. }
  split; [|done]. unfold releases. destruct (buffer_ptr o); [by apply Z.eqb_neq|done].
Qed.

Lemma appendIOBuffer_sound fuel h x y o src :
  owned h → objects h !! x = Some o → objects h !! y = Some src →
  sound (small_blocks ∧ allocated h
         ∧ (data_size_at src <= available_at o ∨ capacity_at src ≠ 0 ∨ capacity_at o ≠ 0)) h
    (appendIOBuffer fuel x y h).
Proof.
  revert h o src. induction fuel as [|fuel IH]; intros h o src Hown Hx Hy; [by apply sound_stay|].
  cbn [appendIOBuffer]. rewrite (io_bind_Done _ _ _ _ _ (object_of_Done _ _ _ Hx)).
  rewrite (io_bind_Done _ _ _ _ _ (object_of_Done _ _ _ Hy)).
  destruct (Z.leb_spec (data_size_at src) (available_at o)) as [Hfit|Hfull].
  - destruct (buffer_ptr o) as [a|] eqn:Ha; [|by apply sound_stay].
    unfold deref. rewrite lift_Done_bind.
    destruct (buffer_ptr src) as [a'|] eqn:Ha'; [|by apply sound_stay].
    rewrite lift_Done_bind. apply (fill_sound _ h x o); [done..|]. intros _.
    unfold source_cells. destruct (own_live h Hown y src a' Hy Ha') as [m Hm]. rewrite Hm.
    apply mem_slice_outcome.
  - destruct (reserve_cases h x o (capacity_at src) Hown Hx) as [(m&Hok&Hr)|Hr].
    + rewrite (io_bind_Done _ _ _ _ _ Hr).
      set (o1 := mkObject (Some (next_block h)) (start_at o) (end_at o)
        (resized o (capacity_at src))).
      assert (is_Some (objects (move_block h x o m (resized o (capacity_at src))) !! y))
        as [src1 Hy1].
      { simpl. destruct (decide (y = x)) as [->|Hne]; [by rewrite lookup_insert_eq|].
        by rewrite lookup_insert_ne. }
      eapply (sound_moved _ _ h x o m _ _ Hx Hok); [|apply (IH _ o1 src1);
        [by apply move_block_owned|apply lookup_insert_eq|done]].
      intros Hall (Hs&Ha&[?|Hc]); [lia|]. split_and!; [done|by apply Hall|]. do 2 right.
      by apply (resized_positive h x).
    + pose proof (reserve_sound h x o (capacity_at src) Hown Hx) as Hs. unfold mbind, io_bind.
      rewrite Hr in Hs |- *. eapply sound_weaken; [|exact Hs].
      intros (?&?&[?|Hc]); [lia|by apply (resized_positive h x)].
Qed.

(** *** The other calls *)
Lemma object_of_missing {A} h x (f : object → io heap A) :
  objects h !! x = None → (object_of x ≫= f) h = (Undefined DanglingPointer, h).
Proof. intros Hx. unfold object_of, mbind, io_bind, get. by rewrite Hx. Qed.

Lemma two_missing {A} h x y (f : object → object → io heap A) :
  ¬ (x ∈ dom (objects h) ∧ y ∈ dom (objects h)) →
  (o ← object_of x; o' ← object_of y; f o o') h = (Undefined DanglingPointer, h).
Proof.
  intros Hxy. destruct (objects h !! x) as [o|] eqn:Hx; [|by apply object_of_missing].
  rewrite (io_bind_Done _ _ _ _ _ (object_of_Done _ _ _ Hx)).
  destruct (objects h !! y) as [o'|] eqn:Hy; [|by apply object_of_missing].
  exfalso. apply Hxy. by rewrite !elem_of_dom, Hx, Hy.
Qed.

Lemma undeclared_run {A} h x (f : () → io heap A) :
  (undeclared x ≫= f) h
  = match objects h !! x with Some _ => (Undefined BadArgument, h) | None => f () h end.
Proof. unfold undeclared, mbind, io_bind, get. by destruct (objects h !! x). Qed.

Definition declare (h : heap) (x : N) : heap :=
  mkHeap (<[x := default_object]> (objects h)) (blocks h) (next_block h).

Lemma construct_run h x n :
  owned h → objects h !! x = None →
  construct x n h
  = result (IOBuffer_new n) h (λ b, move_block (declare h x) x default_object
      (default [] (internal_buffer_ b)) (capacity_ b)).
Proof.
  intros Hown Hx. unfold construct. rewrite undeclared_run, Hx.
  unfold set_object. rewrite (io_bind_Done _ _ h () (declare h x)) by done.
  unfold undo. rewrite (reserve_run _ x default_object)
    by first [by apply declare_owned|apply lookup_insert_eq].
  change (view_object (declare h x) default_object) with empty_IOBuffer.
  unfold IOBuffer_new, IOBuffer.reserve, realloc. cbn [internal_buffer_ empty_IOBuffer].
  rewrite Done_bind. destruct (alloc_ok _); [done|]. simpl.
  unfold remove_object, throw, mbind, io_bind. simpl.
  rewrite delete_insert_id by done. by destruct h.
Qed.

Definition move_objects (h : heap) (x y : N) (o : object) : heap :=
  mkHeap (<[x := mkObject (buffer_ptr o) (start_at o) (end_at o) 0]>
           (<[y := mkObject None 0 0 (capacity_at o)]> (objects h))) (blocks h) (next_block h).

Lemma move_construct_run h x y o :
  objects h !! x = None → objects h !! y = Some o →
  move_construct x y h = (Done (), move_objects h x y o).
Proof.
  intros Hx Hy. unfold move_construct. rewrite undeclared_run, Hx.
  by rewrite (io_bind_Done _ _ _ _ _ (object_of_Done _ _ _ Hy)).
Qed.

Lemma move_objects_owned h x y o :
  owned h → objects h !! x = None → objects h !! y = Some o → owned (move_objects h x y o).
Proof.
  intros [Hl Ho Ha Hf] Hx Hy. assert (x ≠ y) as Hxy by congruence.
  assert (∀ z oz a, objects (move_objects h x y o) !! z = Some oz → buffer_ptr oz = Some a →
    ∃ z' oz', objects h !! z' = Some oz' ∧ buffer_ptr oz' = Some a
      ∧ z = (if decide (z' = y) then x else z')) as Hback.
  { intros z oz a. simpl. rewrite lookup_insert_Some, lookup_insert_Some.
    intros [[<- <-]|[Hzx [[<- <-]|[Hzy Hz]]]] Hza; simpl in Hza; [|done|].
    - exists y, o. by rewrite decide_True.
    - exists z, oz. by rewrite decide_False. }
  split.
  - intros z oz a Hz Hza. destruct (Hback z oz a Hz Hza) as (z'&oz'&?&?&_). by eapply Hl.
  - intros z1 z2 o1 o2 a H1 H2 Ha1 Ha2.
    destruct (Hback z1 o1 a H1 Ha1) as (z1'&o1'&?&?&->).
    destruct (Hback z2 o2 a H2 Ha2) as (z2'&o2'&?&?&->).
    by rewrite (Ho z1' z2' o1' o2' a).
  - intros a (z&oz&Hz&Hza)%Ha. simpl. destruct (decide (z = y)) as [->|Hzy].
    + exists x. eexists. rewrite lookup_insert_eq. split; [done|]. simpl. congruence.
    + exists z, oz. rewrite !lookup_insert_ne by congruence. done.
  - exact Hf.
Qed.

Lemma destroy_run h x o :
  owned h → objects h !! x = Some o →
  destroy x h = (Done (), mkHeap (delete x (objects h))
                            (release_ptr (buffer_ptr o) (blocks h)) (next_block h)).
Proof.
  intros Hown Hx. unfold destroy. rewrite (io_bind_Done _ _ _ _ _ (object_of_Done _ _ _ Hx)).
  destruct (buffer_ptr o) as [a|] eqn:Ha; [|done].
  destruct (view_live h x o a Hown Hx Ha) as (m&Hm&_).
  unfold free, mbind, io_bind. by rewrite (block_at_Done _ _ _ Hm).
Qed.

Lemma update_offsets_run h x o f :
  objects h !! x = Some o →
  update_offsets x f h
  = (Done (), mkHeap (<[x := with_offsets o (f (start_at o) (end_at o)).1
                               (f (start_at o) (end_at o)).2]> (objects h))
                (blocks h) (next_block h)).
Proof.
  intros Hx. unfold update_offsets.
  rewrite (io_bind_Done _ _ _ _ _ (object_of_Done _ _ _ Hx)). by destruct (f _ _).
Qed.

Lemma update_offsets_sound (P : Prop) h x o f :
  owned h → objects h !! x = Some o → sound P h (update_offsets x f h).
Proof.
  intros Hown Hx. rewrite (update_offsets_run h x o) by done.
  split_and!; [by intros _; eapply offsets_owned|by eapply allocated_keep
    |by eapply dom_update|done].
Qed.

(** What [append_part] does, on names that are there. *)
Lemma append_part_run fuel h x y o src off n :
  owned h → objects h !! x = Some o → objects h !! y = Some src →
  append_part fuel x y off n h
  = match buffer_ptr src with
    | None => (Undefined NullPointer, h)
    | Some a =>
        match source_cells h (Inside a off n) with
        | Done _ => appendRawBytes fuel x (Inside a off n) h
        | _ => (Undefined OutOfBounds, h)
        end
    end.
Proof.
  intros Hown Hx Hy. unfold append_part.
  rewrite (io_bind_Done _ _ _ _ _ (object_of_Done _ _ _ Hx)).
  rewrite (io_bind_Done _ _ _ _ _ (object_of_Done _ _ _ Hy)).
  destruct (buffer_ptr src) as [a|] eqn:Ha; [|done]. unfold deref. rewrite lift_Done_bind.
  destruct (own_live h Hown y src a Hy Ha) as [m Hm]. unfold load, source_cells. rewrite Hm.
  unfold mem_slice, mbind, io_bind. rewrite (block_at_Done _ _ _ Hm).
  by destruct ((_ && _) && _).
Qed.

Lemma append_part_sound fuel h x y o src off n :
  owned h → objects h !! x = Some o → objects h !! y = Some src →
  sound (small_blocks ∧ allocated h ∧ n < 2 ^ 63 ∧ (x ≠ y ∨ n <= available_at o)) h
    (append_part fuel x y off n h).
Proof.
  intros Hown Hx Hy. rewrite (append_part_run fuel h x y o src) by done.
  destruct (buffer_ptr src) as [a|] eqn:Ha; [|by apply sound_stay].
  destruct (source_cells h _) as [l| | | |] eqn:Hl; try by apply sound_stay.
  eapply sound_weaken; [|by apply (appendRawBytes_sound fuel h x o)].
  intros (?&?&?&Hxy). split_and!; [done..|]. split.
  - by eapply own_live.
  - destruct Hxy as [Hxy|?]; [left|by right]. intros Ha'. apply Hxy. by eapply (own_once h Hown).
Qed.

(** *** Programs

    The names that are live after a call, if it uses live names only, and
    declares names that are not. *)
Definition live_after (c : call) (live : gset N) : option (gset N) :=
  match c with
  | Construct x _ => if decide (x ∈ live) then None else Some ({[x]} ∪ live)
  | MoveConstruct x y =>
      if decide (x ∈ live) then None
      else if decide (y ∈ live) then Some ({[x]} ∪ live) else None
  | Destroy x => if decide (x ∈ live) then Some (live ∖ {[x]}) else None
  | MoveAssign x y | AppendBuffer x y | AppendPart x y _ _ =>
      if decide (x ∈ live ∧ y ∈ live) then Some live else None
  | Reserve x _ | Append x _ | Clear x | SetStart x _ | ModifyStart x _ | SetEnd x _
  | ModifyEnd x _ => if decide (x ∈ live) then Some live else None
  end.
Fixpoint lives_after (cs : list call) (live : gset N) : option (gset N) :=
  match cs with [] => Some live | c :: cs => live ← live_after c live; lives_after cs live end.

(** A call that does not resize a block to nothing, by [reserve(0)] on a buffer
    without capacity or by appending such a buffer to another one where there is
    no room, and does not append a buffer's own bytes to it where there is none.
    The bytes that are passed are those of an object. *)
Definition on_object (h : heap) (x : N) (p : object → bool) : bool :=
  match objects h !! x with Some o => p o | None => true end.
Definition careful (c : call) (h : heap) : bool :=
  match c with
  | Reserve x n => on_object h x (λ o, negb ((n =? 0) && (capacity_at o =? 0)))
  | Append _ data => Z.of_nat (length data) <? 2 ^ 63
  | AppendPart x y _ n =>
      (n <? 2 ^ 63)
      && on_object h x (λ o, negb (bool_decide (x = y)) || (n <=? available_at o))
  | AppendBuffer x y =>
      on_object h x (λ o, on_object h y (λ src,
        (data_size_at src <=? available_at o)
        || negb ((capacity_at src =? 0) && (capacity_at o =? 0))))
  | _ => true
  end.

(** What a step keeps: ownership when it returns, or when the call is careful;
    and then, when the names are used as they should be, what is live is as
    computed. *)
Definition steps_well (P : Prop) (h : heap) (after : option (gset N)) (out : res () * heap)
  : Prop :=
  (P ∨ out.1 = Done () → owned out.2) ∧ (allocated h → allocated out.2)
  ∧ (P → ∀ live, after = Some live →
       out.1 ≠ Undefined DanglingPointer ∧ (out.1 = Done () → dom (objects out.2) = live)).

Lemma sound_steps_well (P Q : Prop) h out :
  (P → Q) → sound Q h out → steps_well P h (Some (dom (objects h))) out.
Proof.
  intros HPQ (Ho&Ha&Hd&Hu). split; [by intros [?|?]; auto|]. split; [done|].
  intros HP live [= <-]. auto.
Qed.

Lemma missing_steps_well P h out after :
  owned h → out = (Undefined DanglingPointer, h) → after = None → steps_well P h after out.
Proof. intros Hown -> ->. done. Qed.

Lemma same_live_steps_well P h x (m : io heap ()) :
  owned h → (∀ o, objects h !! x = Some o → ∃ Q : Prop, (P → Q) ∧ sound Q h (m h)) →
  (objects h !! x = None → m h = (Undefined DanglingPointer, h)) →
  steps_well P h (if decide (x ∈ dom (objects h)) then Some (dom (objects h)) else None) (m h).
Proof.
  intros Hown Hm Hmiss. case_decide as Hx.
  - apply elem_of_dom in Hx as [o Hx]. destruct (Hm o Hx) as (Q&HPQ&HQ).
    by eapply sound_steps_well.
  - apply missing_steps_well; [done| |done]. by apply Hmiss, not_elem_of_dom.
Qed.

Lemma two_live_steps_well P h x y (m : io heap ()) :
  owned h →
  (∀ o o', objects h !! x = Some o → objects h !! y = Some o' →
     ∃ Q : Prop, (P → Q) ∧ sound Q h (m h)) →
  (¬ (x ∈ dom (objects h) ∧ y ∈ dom (objects h)) → m h = (Undefined DanglingPointer, h)) →
  steps_well P h (if decide (x ∈ dom (objects h) ∧ y ∈ dom (objects h))
                  then Some (dom (objects h)) else None) (m h).
Proof.
  intros Hown Hm Hmiss. case_decide as Hxy; [|by apply missing_steps_well; [|apply Hmiss|]].
  destruct Hxy as [[o Hx]%elem_of_dom [o' Hy]%elem_of_dom].
  destruct (Hm o o' Hx Hy) as (Q&HPQ&HQ). by eapply sound_steps_well.
Qed.

Lemma construct_steps_well P h x n :
  owned h → steps_well P h (live_after (Construct x n) (dom (objects h))) (construct x n h).
Proof.
  intros Hown. simpl. case_decide as Hx.
  { apply elem_of_dom in Hx as [o Hx]. unfold construct. by rewrite undeclared_run, Hx. }
  apply not_elem_of_dom in Hx. rewrite construct_run by done.
  destruct (IOBuffer_new n) as [b| | |u|] eqn:Hb; try by split_and!.
  - split_and!; [intros _|intros Ha|intros _ live [= <-]; split; [done|]; intros _]; simpl.
    + apply move_block_owned; [by apply declare_owned|apply lookup_insert_eq].
    + eapply allocated_insert; [| |exact Ha].
      * simpl. by rewrite insert_insert_eq.
      * simpl. unfold IOBuffer_new, IOBuffer.reserve, realloc in Hb. simpl in Hb.
        destruct (alloc_ok _) eqn:Hok; [|done]. injection Hb as <-. by right.
    + by rewrite insert_insert_eq, dom_insert_L.
  - split_and!; [done..|]. intros _ live _. simpl. split; [|done].
    unfold IOBuffer_new, IOBuffer.reserve, realloc in Hb. simpl in Hb. by destruct (alloc_ok _).
Qed.

Lemma move_construct_steps_well P h x y :
  owned h →
  steps_well P h (live_after (MoveConstruct x y) (dom (objects h))) (move_construct x y h).
Proof.
  intros Hown. simpl. case_decide as Hx.
  { apply elem_of_dom in Hx as [o Hx]. unfold move_construct. by rewrite undeclared_run, Hx. }
  apply not_elem_of_dom in Hx. case_decide as Hy.
  - apply elem_of_dom in Hy as [o Hy]. rewrite (move_construct_run h x y o) by done.
    split_and!; [by intros _; apply move_objects_owned| |].
    + intros Ha. apply map_Forall_insert_2; [by left|].
      apply map_Forall_insert_2; [by apply (Ha y o)|done].
    + intros _ live [= <-]. split; [done|]. intros _. simpl.
      by rewrite dom_insert_L, (dom_update _ y o).
  - apply not_elem_of_dom in Hy. apply missing_steps_well; [done| |done].
    unfold move_construct. rewrite undeclared_run, Hx. by apply object_of_missing.
Qed.

Lemma destroy_steps_well P h x :
  owned h → steps_well P h (live_after (Destroy x) (dom (objects h))) (destroy x h).
Proof.
  intros Hown. simpl. case_decide as Hx.
  - apply elem_of_dom in Hx as [o Hx]. rewrite (destroy_run h x o) by done.
    split_and!; [by intros _; apply destroy_owned|intros Ha; by apply map_Forall_delete|].
    intros _ live [= <-]. split; [done|]. intros _. simpl. by rewrite dom_delete_L.
  - apply not_elem_of_dom in Hx. apply missing_steps_well; [done| |done].
    by apply object_of_missing.
Qed.

Lemma not_both_zero n m : negb ((n =? 0) && (m =? 0)) = true → n ≠ 0 ∨ m ≠ 0.
Proof.
  intros Hc. apply negb_true_iff, andb_false_iff in Hc.
  destruct Hc as [?%Z.eqb_neq|?%Z.eqb_neq]; auto.
Qed.

Lemma step_steps_well fuel c h :
  (0 < fuel)%nat → owned h →
  steps_well (small_blocks ∧ allocated h ∧ careful c h = true) h
    (live_after c (dom (objects h))) (step fuel c h).
Proof.
  intros Hf Hown. assert (∃ f, fuel = S f) as [f ->] by (exists (pred fuel); lia).
  destruct c as [x n|x y|x y|x|x n|x data|x y off n|x y|x|x n|x n|x n|x n]; cbn [step live_after].
  9-13: apply same_live_steps_well; [done| |by intros; apply object_of_missing];
    intros o Hx; exists True; split; [done|by eapply update_offsets_sound].
  - by apply construct_steps_well.
  - by apply move_construct_steps_well.
  - apply two_live_steps_well; [done| |by intros; apply two_missing].
    intros o o' Hx Hy. exists True. split; [done|]. unfold move_assign.
    rewrite (io_bind_Done _ _ _ _ _ (object_of_Done _ _ _ Hx)).
    rewrite (io_bind_Done _ _ _ _ _ (object_of_Done _ _ _ Hy)). by apply sound_stay.
  - by apply destroy_steps_well.
  - apply same_live_steps_well; [done| |by intros; apply object_of_missing].
    intros o Hx. eexists. split; [|by apply reserve_sound].
    intros (?&?&Hc). simpl in Hc. unfold on_object in Hc. rewrite Hx in Hc.
    apply (resized_positive h x); [done..|]. by apply not_both_zero.
  - apply same_live_steps_well; [done| |by intros; apply object_of_missing].
    intros o Hx. eexists. split; [|by apply appendRawBytes_sound].
    intros (?&?&Hc). simpl in Hc. apply Z.ltb_lt in Hc. by split_and!.
  - apply two_live_steps_well; [done| |by intros; apply two_missing].
    intros o o' Hx Hy. eexists. split; [|by eapply append_part_sound].
    intros (?&?&Hc). simpl in Hc. unfold on_object in Hc. rewrite Hx in Hc.
    apply andb_true_iff in Hc as [?%Z.ltb_lt Hc]. split_and!; [done..|].
    apply orb_true_iff in Hc as [Hc|?%Z.leb_le]; [left|by right].
    by apply negb_true_iff, bool_decide_eq_false in Hc.
  - apply two_live_steps_well; [done| |by intros; apply two_missing].
    intros o o' Hx Hy. eexists. split; [|by eapply appendIOBuffer_sound].
    intros (?&?&Hc). simpl in Hc. unfold on_object in Hc. rewrite Hx, Hy in Hc.
    split_and!; [done..|]. apply orb_true_iff in Hc as [?%Z.leb_le|Hc]; [by left|right].
    by apply not_both_zero.
Qed.

(** *** Refinement

    A method on object [x] does what the function [r] on values does. *)
Definition tracks (x : N) (h : heap) (r : res IOBuffer) (out : res () * heap) : Prop :=
  out.1 = (r ≫= λ _, Done ())
  ∧ ∀ b, r = Done b → same_but x h out.2
      ∧ ∃ o, objects out.2 !! x = Some o ∧ view_object out.2 o = b.

Lemma tracks_result {A} x h (r : res A) (g : A → IOBuffer) k :
  (∀ a, r = Done a → same_but x h (k a)
      ∧ ∃ o, objects (k a) !! x = Some o ∧ view_object (k a) o = g a) →
  tracks x h (a ← r; Done (g a)) (result r h k).
Proof.
  intros Hk. split; [by destruct r|]. intros b Hb. destruct r as [a| | | |]; try done.
  injection Hb as <-. by apply Hk.
Qed.

Lemma tracks_bind x h r g (m f : io heap ()) :
  ((m h).1 = Done () → owned (m h).2) → tracks x h r (m h) →
  (∀ b h' o, r = Done b → owned h' → same_but x h h' →
     objects h' !! x = Some o → view_object h' o = b → tracks x h' (g b) (f h')) →
  tracks x h (r ≫= g) ((m ≫= λ _, f) h).
Proof.
  intros Hown [Hr Hd] Hf. unfold mbind at 2, io_bind.
  destruct (m h) as [r0 h']. simpl in *. subst r0.
  destruct r as [b| | | |]; try done. simpl.
  destruct (Hd b eq_refl) as (Hsame&o&Ho&Hv).
  destruct (Hf b h' o eq_refl (Hown eq_refl) Hsame Ho Hv) as [Hr' Hd']. split; [done|].
  intros b' Hb'. destruct (Hd' b' Hb') as (Hsame'&?). split; [|done].
  by eapply same_but_trans.
Qed.

Lemma reserve_tracks h x o n :
  owned h → objects h !! x = Some o →
  tracks x h (IOBuffer.reserve (view_object h o) n) (reserve x n h).
Proof.
  intros Hown Hx. rewrite (reserve_run h x o) by done.
  split; [apply result_fst|]. intros b Hb. rewrite Hb. simpl.
  split; [by apply move_block_same_but|]. eexists. split; [apply lookup_insert_eq|].
  unfold IOBuffer.reserve in Hb. apply bind_Done in Hb as ([m|]&_&[= <-]).
  unfold view_object. simpl. by rewrite lookup_insert_eq.
Qed.

Lemma fill_tracks h x o a m src e :
  owned h → objects h !! x = Some o → buffer_ptr o = Some a → blocks h !! a = Some m →
  tracks x h
    (m' ← (l ← source_cells h src;
           if overlaps a (end_at o) src then Undefined BadArgument
           else mem_write m (end_at o) l);
     Done (mkIOBuffer (Some m') (start_at o) e (capacity_at o)))
    ((memcpy a (end_at o) src ≫= λ _, set_object x (with_offsets o (start_at o) e)) h).
Proof.
  intros Hown Hx Ha Hm. rewrite (fill_run h x _ a m) by done.
  apply tracks_result. intros m' _. split; [by eapply rewrite_same_but|].
  eexists. split; [apply lookup_insert_eq|].
  unfold view_object. simpl. rewrite Ha. simpl. by rewrite lookup_insert_eq.
Qed.

Lemma reserve_returns h x o n :
  owned h → objects h !! x = Some o →
  (reserve x n h).1 = Done () → owned (reserve x n h).2.
Proof. intros Hown Hx Hd. apply (reserve_sound h x o n Hown Hx). by right. Qed.

(** Data outside the block that it is appended to. *)
Definition apart (o : object) (src : source) : Prop :=
  match src with Bytes _ => True | Inside a _ _ => buffer_ptr o ≠ Some a end.

Lemma move_block_cells h x o m cap src l :
  owned h → objects h !! x = Some o → apart o src → source_cells h src = Done l →
  source_cells (move_block h x o m cap) src = Done l
  ∧ apart (mkObject (Some (next_block h)) (start_at o) (end_at o) cap) src.
Proof.
  intros Hown Hx. destruct src as [l'|a off n]; [done|]. simpl. intros Hne Hl.
  destruct (blocks h !! a) as [b|] eqn:Hb; [|done].
  assert (a ≠ next_block h) as Hnext by (intros ->; by rewrite next_unused in Hb).
  rewrite lookup_insert_ne by done.
  rewrite (proj2 (release_lookup (buffer_ptr o) (blocks h) a b)) by done.
  split; [done|congruence].
Qed.

Lemma appendRawBytes_tracks fuel h x o src l :
  owned h → objects h !! x = Some o → apart o src → source_cells h src = Done l →
  source_size src = Z.of_nat (length l) →
  tracks x h (IOBuffer.appendRawBytes fuel (view_object h o) l)
    (appendRawBytes fuel x src h).
Proof.
  revert h o. induction fuel as [|fuel IH]; intros h o Hown Hx Hap Hl Hsize; [done|].
  cbn [appendRawBytes IOBuffer.appendRawBytes].
  rewrite (io_bind_Done _ _ _ _ _ (object_of_Done _ _ _ Hx)), Hsize.
  change (getAvailableSpace (view_object h o)) with (available_at o). case_match.
  - destruct (buffer_ptr o) as [a|] eqn:Ha.
    + destruct (view_live h x o a Hown Hx Ha) as (m&Hm&->).
      unfold deref. rewrite lift_Done_bind, Done_bind.
      pose proof (fill_tracks h x o a m src (size_t (end_at o + Z.of_nat (length l)))
        Hown Hx Ha Hm) as Ht.
      rewrite Hl, Done_bind in Ht. assert (overlaps a (end_at o) src = false) as Hno.
      { destruct src as [l'|a' off n]; [done|]. simpl in Hap |- *.
        rewrite bool_decide_eq_false_2; [done|congruence]. }
      by rewrite Hno in Ht.
    + unfold view_object. rewrite Ha. done.
  - set (n := size_t (capacity_at o + Z.of_nat (length l))).
    pose proof (reserve_tracks h x o n Hown Hx) as Ht.
    pose proof (reserve_run h x o n Hown Hx) as Hrun.
    change (size_t (capacity_ (view_object h o) + Z.of_nat (length l))) with n.
    destruct (IOBuffer.reserve (view_object h o) n) as [b| | | |] eqn:Hb;
      try by (unfold mbind at 2, io_bind; rewrite Hrun).
    cbn [result] in Hrun. rewrite (io_bind_Done _ _ _ _ _ Hrun), Done_bind.
    rewrite Hrun in Ht. destruct (proj2 Ht b eq_refl) as (Hsame&o'&Ho'&Hv). simpl in Ho', Hv.
    rewrite lookup_insert_eq in Ho'. injection Ho' as <-.
    set (h' := move_block h x o _ _) in *.
    destruct (move_block_cells h x o (default [] (internal_buffer_ b)) (capacity_ b) src l)
      as [Hl' Hap']; [done..|].
    destruct (IH h' (mkObject (Some (next_block h)) (start_at o) (end_at o) (capacity_ b)))
      as [Hr Hd]; [by apply move_block_owned|apply lookup_insert_eq|done..|].
    rewrite Hv in Hr, Hd. split; [done|]. intros b' Hb'.
    destruct (Hd b' Hb') as (Hsame'&?). split; [|done]. by eapply same_but_trans.
Qed.

Lemma same_but_view x y h h' o :
  same_but x h h' → y ≠ x → objects h !! y = Some o →
  objects h' !! y = Some o ∧ view_object h' o = view_object h o.
Proof.
  intros Hsame Hy Ho. destruct (Hsame y Hy) as [-> Hb]. split; [done|].
  unfold view_object. f_equal. destruct (buffer_ptr o) as [a|] eqn:Ha; [|done].
  by apply (Hb o).
Qed.

Lemma appendIOBuffer_tracks fuel h x y o src vs :
  owned h → objects h !! x = Some o → objects h !! y = Some src → x ≠ y →
  view_object h src = vs →
  tracks x h (IOBuffer.appendIOBuffer fuel (view_object h o) vs) (appendIOBuffer fuel x y h).
Proof.
  revert h o. induction fuel as [|fuel IH]; intros h o Hown Hx Hy Hxy Hvs; [done|].
  cbn [appendIOBuffer IOBuffer.appendIOBuffer].
  rewrite (io_bind_Done _ _ _ _ _ (object_of_Done _ _ _ Hx)).
  rewrite (io_bind_Done _ _ _ _ _ (object_of_Done _ _ _ Hy)).
  change (getAvailableSpace (view_object h o)) with (available_at o).
  assert (getDataSize vs = data_size_at src) as -> by by subst vs.
  case_match.
  - destruct (buffer_ptr o) as [a|] eqn:Ha; [|by unfold view_object; rewrite Ha].
    destruct (view_live h x o a Hown Hx Ha) as (m&Hm&->).
    destruct (buffer_ptr src) as [a'|] eqn:Ha'; [|by subst vs; unfold view_object; rewrite Ha'].
    destruct (view_live h y src a' Hown Hy Ha') as (ms&Hms&Hvm). rewrite <- Hvs, Hvm.
    unfold deref. rewrite !lift_Done_bind, !Done_bind.
    assert (a ≠ a') as Hne by (intros <-; by apply Hxy, (own_once h Hown x y o src a)).
    pose proof (fill_tracks h x o a m (Inside a' (start_at src) (data_size_at src))
      (size_t (end_at o + data_size_at src)) Hown Hx Ha Hm) as Ht.
    unfold source_cells, overlaps in Ht. rewrite Hms, bool_decide_eq_false_2 in Ht by done.
    cbn [andb] in Ht. cbn [start_offset_ end_offset_ capacity_ view_object].
    by destruct (mem_slice ms _ _).
  - replace (getCapacity vs) with (capacity_at src) by by subst vs.
    apply tracks_bind.
    + by apply (reserve_returns h x o).
    + by apply reserve_tracks.
    + intros b h' o' _ Hown' Hsame Hx' <-.
      destruct (same_but_view x y h h' src Hsame) as [Hy' Hv']; [done..|].
      apply IH; [done..|congruence].
Qed.

Definition refines (r : res values) (out : res () * heap) : Prop :=
  out.1 = (r ≫= λ _, Done ()) ∧ ∀ m, r = Done m → view out.2 = m.

Lemma tracks_refines h x o (f : IOBuffer → res IOBuffer) out :
  objects h !! x = Some o → tracks x h (f (view_object h o)) out →
  refines (update_value (view h) x f) out.
Proof.
  intros Hx [Hr Hd]. unfold update_value, at_value.
  assert (view h !! x = Some (view_object h o)) as -> by (apply view_Some; eauto).
  split; [by destruct (f _)|]. intros m [b [Hb [= <-]]]%bind_Done.
  destruct (Hd b Hb) as (Hsame&o'&Ho'&<-). by apply view_update.
Qed.

Lemma missing_refines h x (f : IOBuffer → res IOBuffer) out :
  objects h !! x = None → out = (Undefined DanglingPointer, h) →
  refines (update_value (view h) x f) out.
Proof.
  intros Hx ->. unfold update_value, at_value. rewrite (proj2 (view_None h x) Hx). done.
Qed.

Lemma update_refines h x (f : IOBuffer → res IOBuffer) (m : io heap ()) :
  (∀ o, objects h !! x = Some o → tracks x h (f (view_object h o)) (m h)) →
  (objects h !! x = None → m h = (Undefined DanglingPointer, h)) →
  refines (update_value (view h) x f) (m h).
Proof.
  intros Hm Hmiss. destruct (objects h !! x) as [o|] eqn:Hx.
  - eapply tracks_refines; [done|by apply Hm].
  - by eapply missing_refines; [|apply Hmiss].
Qed.

Lemma offsets_refines h x f g :
  owned h →
  (∀ b, g b = mkIOBuffer (internal_buffer_ b) (f (start_offset_ b) (end_offset_ b)).1
                (f (start_offset_ b) (end_offset_ b)).2 (capacity_ b)) →
  refines (update_value (view h) x (λ b, Done (g b))) (update_offsets x f h).
Proof.
  intros Hown Hg. apply update_refines; [|by apply object_of_missing].
  intros o Hx. rewrite (update_offsets_run h x o) by done. split; [done|].
  intros b [= <-]. split.
  - intros y Hy. simpl. by rewrite lookup_insert_ne.
  - eexists. split; [apply lookup_insert_eq|]. by rewrite Hg.
Qed.
End specs.

(** ** Programs over objects are programs over values *)
Section programs_refine.
Context `{Allocator} (fuel : nat).
Hypothesis fuel_pos : (0 < fuel)%nat.

Lemma value_lookup {A} h x o (f : IOBuffer → res A) :
  objects h !! x = Some o → at_value (view h) x f = f (view_object h o).
Proof.
  intros Hx. unfold at_value.
  by assert (view h !! x = Some (view_object h o)) as -> by (apply view_Some; eauto).
Qed.

Lemma value_missing {A} h x (f : IOBuffer → res A) :
  objects h !! x = None → at_value (view h) x f = Undefined DanglingPointer.
Proof. intros Hx. unfold at_value. by rewrite (proj2 (view_None h x) Hx). Qed.

Lemma value_undeclared h x :
  undeclared_value (view h) x
  = match objects h !! x with Some _ => Undefined BadArgument | None => Done () end.
Proof.
  unfold undeclared_value. destruct (objects h !! x) as [o|] eqn:Hx.
  - by assert (view h !! x = Some (view_object h o)) as -> by (apply view_Some; eauto).
  - by rewrite (proj2 (view_None h x) Hx).
Qed.

Lemma construct_refines h x n :
  owned h → refines (value_step fuel (Construct x n) (view h)) (step fuel (Construct x n) h).
Proof.
  intros Hown. cbn [value_step step]. rewrite value_undeclared.
  destruct (objects h !! x) as [o|] eqn:Hx.
  { unfold construct. by rewrite undeclared_run, Hx. }
  rewrite construct_run by done. split; [by destruct (IOBuffer_new n)|].
  intros m Hm. rewrite Done_bind in Hm. apply bind_Done in Hm as (b&Hb&[= <-]).
  rewrite Hb. simpl result. cbn [snd].
  assert (objects (declare h x) !! x = Some default_object) as Hx' by apply lookup_insert_eq.
  destruct (reserve_tracks (declare h x) x default_object n) as [_ Ht];
    [by apply declare_owned|done|].
  rewrite (reserve_run (declare h x) x default_object) in Ht by (by apply declare_owned || done).
  change (view_object (declare h x) default_object) with empty_IOBuffer in Ht.
  unfold IOBuffer_new in Hb. rewrite Hb in Ht. cbn [result snd] in Ht |- *.
  destruct (Ht b eq_refl) as (Hsame&o&Ho&Hv). rewrite <- Hv at 3. apply view_update; [|done].
  eapply same_but_trans; [|exact Hsame]. intros y Hy. simpl. by rewrite lookup_insert_ne.
Qed.

Lemma move_construct_refines h x y :
  owned h → refines (value_step fuel (MoveConstruct x y) (view h)) (step fuel (MoveConstruct x y) h).
Proof.
  intros Hown. cbn [value_step step]. rewrite value_undeclared.
  destruct (objects h !! x) as [o|] eqn:Hx; [by unfold move_construct; rewrite undeclared_run, Hx|].
  rewrite Done_bind. destruct (objects h !! y) as [o|] eqn:Hy.
  2:{ rewrite value_missing by done. unfold move_construct. rewrite undeclared_run, Hx.
      by rewrite object_of_missing. }
  rewrite (value_lookup h y o), (move_construct_run h x y o) by done.
  split; [done|]. intros m [= <-]. unfold view, move_objects. cbn [snd objects].
  by rewrite !fmap_insert.
Qed.

Lemma destroy_refines h x :
  owned h → refines (value_step fuel (Destroy x) (view h)) (step fuel (Destroy x) h).
Proof.
  intros Hown. cbn [value_step step]. destruct (objects h !! x) as [o|] eqn:Hx.
  2:{ rewrite value_missing by done. unfold destroy. by rewrite object_of_missing. }
  rewrite (value_lookup h x o), (destroy_run h x o) by done.
  split; [done|]. intros m [= <-]. apply map_eq. intros y. unfold view. cbn [snd objects].
  destruct (decide (y = x)) as [->|Hy].
  { by rewrite lookup_fmap, !lookup_delete_eq. }
  rewrite lookup_fmap, !lookup_delete_ne, lookup_fmap by done.
  destruct (objects h !! y) as [oy|] eqn:Hoy; [|done]. simpl. f_equal.
  unfold view_object. f_equal. destruct (buffer_ptr oy) as [a|] eqn:Ha; [|done]. simpl.
  destruct (other_pointer h x y o oy a) as [Hp _]; [done..|].
  destruct (buffer_ptr o) as [a'|]; [|done]. simpl. apply lookup_delete_ne. congruence.
Qed.

Lemma move_assign_refines h x y :
  refines (value_step fuel (MoveAssign x y) (view h)) (step fuel (MoveAssign x y) h).
Proof.
  cbn [value_step step]. unfold move_assign. destruct (objects h !! x) as [o|] eqn:Hx.
  2:{ rewrite value_missing by done. by rewrite object_of_missing. }
  rewrite (value_lookup h x o) by done.
  rewrite (io_bind_Done _ _ _ _ _ (object_of_Done _ _ _ Hx)).
  destruct (objects h !! y) as [o'|] eqn:Hy.
  2:{ rewrite value_missing by done. by rewrite object_of_missing. }
  rewrite (value_lookup h y o') by done.
  rewrite (io_bind_Done _ _ _ _ _ (object_of_Done _ _ _ Hy)).
  unfold IOBuffer.move_assign. by destruct (internal_buffer_ _).
Qed.

(** A call that reads another buffer. *)
Lemma two_refines h x y (f : IOBuffer → IOBuffer → res IOBuffer) (m : io heap ()) :
  (∀ o src, objects h !! x = Some o → objects h !! y = Some src →
     tracks x h (f (view_object h o) (view_object h src)) (m h)) →
  (¬ (x ∈ dom (objects h) ∧ y ∈ dom (objects h)) → m h = (Undefined DanglingPointer, h)) →
  refines (update_value (view h) x (λ b, at_value (view h) y (f b))) (m h).
Proof.
  intros Hm Hmiss. apply update_refines.
  - intros o Ho. destruct (objects h !! y) as [src|] eqn:Hy.
    + rewrite (value_lookup h y src) by done. by apply Hm.
    + rewrite value_missing, Hmiss by (done || intros [_ []%elem_of_dom]; congruence). done.
  - intros Hx. apply Hmiss. intros [[]%elem_of_dom _]. congruence.
Qed.

Lemma append_part_refines h x y off n :
  owned h → x ≠ y →
  refines (value_step fuel (AppendPart x y off n) (view h))
    (step fuel (AppendPart x y off n) h).
Proof.
  intros Hown Hxy. cbn [value_step step].
  apply (two_refines h x y (λ b src, block ← deref (internal_buffer_ src);
    l ← mem_slice block off n; IOBuffer.appendRawBytes fuel b l));
    [|by intros; apply two_missing].
  intros o src Ho Hy. rewrite (append_part_run fuel h x y o src) by done.
  destruct (buffer_ptr src) as [a|] eqn:Ha; [|by unfold view_object at 2; rewrite Ha].
  destruct (view_live h y src a Hown Hy Ha) as (m&Hm&->). unfold deref. rewrite Done_bind.
  assert (source_cells h (Inside a off n) = mem_slice m off n) as Hcells.
  { unfold source_cells. by rewrite Hm. }
  rewrite Hcells. destruct (mem_slice m off n) as [l| | | |] eqn:Hl;
    [|unfold mem_slice in Hl; repeat case_match; by simplify_eq..].
  rewrite Done_bind. apply appendRawBytes_tracks; [done..| |by rewrite Hcells|].
  - intros Ha'. apply Hxy. by apply (own_once h Hown x y o src a).
  - unfold mem_slice in Hl. case_match eqn:Hb; simplify_eq. simpl.
    rewrite !andb_true_iff, !Z.leb_le in Hb. len_lia.
Qed.

Lemma step_refines c h :
  owned h → unaliased c = true → refines (value_step fuel c (view h)) (step fuel c h).
Proof.
  intros Hown Hc.
  destruct c as [x n|x y|x y|x|x n|x data|x y off n|x y|x|x n|x n|x n|x n].
  - by apply construct_refines.
  - by apply move_construct_refines.
  - by apply move_assign_refines.
  - by apply destroy_refines.
  - apply update_refines; [|by apply object_of_missing].
    intros o Ho. by apply reserve_tracks.
  - apply update_refines; [intros o Ho; by apply appendRawBytes_tracks|].
    intros Hx. cbn [step]. destruct fuel; [lia|]. by apply object_of_missing.
  - apply negb_true_iff, bool_decide_eq_false in Hc. by apply append_part_refines.
  - apply negb_true_iff, bool_decide_eq_false in Hc.
    apply (two_refines h x y (IOBuffer.appendIOBuffer fuel)).
    + intros o src Ho Hy. by apply (appendIOBuffer_tracks fuel h x y o src).
    + intros. cbn [step]. destruct fuel; [lia|]. by apply two_missing.
  - by apply (offsets_refines h x _ IOBuffer.clear).
  - by apply (offsets_refines h x _ (λ b, IOBuffer.setStartOffset b n)).
  - by apply (offsets_refines h x _ (λ b, IOBuffer.modifyStartOffset b n)).
  - by apply (offsets_refines h x _ (λ b, IOBuffer.setEndOffset b n)).
  - by apply (offsets_refines h x _ (λ b, IOBuffer.modifyEndOffset b n)).
Qed.

Lemma run_cons c cs h :
  run fuel (c :: cs) h
  = match (step fuel c h).1 with
    | Done _ => run fuel cs (step fuel c h).2
    | _ => step fuel c h
    end.
Proof.
  cbn [run]. unfold mbind, io_bind. by destruct (step fuel c h) as [[[]| | | |] h'].
Qed.

(** C14: A program over several buffers, in which none is appended to itself, does
    with pointers and blocks what it does when every buffer is a value that has
    its block: it has the same outcome, and when it returns, every buffer is the
    value it should be. *)
Theorem buffers_refine_values cs h :
  owned h → forallb unaliased cs = true →
  (run fuel cs h).1 = (value_run fuel cs (view h) ≫= λ _, Done ())
  ∧ ∀ m, value_run fuel cs (view h) = Done m → view (run fuel cs h).2 = m.
Proof.
  revert h. induction cs as [|c cs IH]; intros h Hown Hcs.
  { split; [done|]. by intros m [= <-]. }
  simpl in Hcs. apply andb_true_iff in Hcs as [Hc Hcs]. rewrite run_cons. cbn [value_run].
  destruct (step_refines c h Hown Hc) as [Hr Hv].
  destruct (step_steps_well fuel c h fuel_pos Hown) as [Hown' _].
  destruct (step fuel c h) as [r h']. simpl in *. subst r.
  destruct (value_step fuel c (view h)) as [m| | | |]; try done. simpl.
  specialize (Hv m eq_refl). subst m. apply IH; [|done]. apply Hown'. by right.
Qed.

(** A program whose calls are careful, each where the ones before have led. *)
Fixpoint careful_run (cs : list call) (h : heap) : bool :=
  match cs with
  | [] => true
  | c :: cs =>
      careful c h && match step fuel c h with (Done _, h') => careful_run cs h' | _ => true end
  end.

(** C13: Whatever a program of careful calls over several buffers does, exceptions
    and undefined behaviour included, every block has exactly one owner: none is
    shared, none is lost, and once all buffers are destroyed the memory is free;
    and a program that uses buffers between their construction and destruction
    never touches a released block or releases one twice. Careful calls do not
    resize a block to nothing and do not append, where there is no room, a
    buffer's own bytes to it; those that do are the theorems on aliasing and on
    blocks that are given up. *)
Theorem buffers_memory_safe cs h :
  small_blocks → owned h → allocated h → careful_run cs h = true →
  let out := run fuel cs h in
  owned out.2 ∧ (objects out.2 = ∅ → blocks out.2 = ∅)
  ∧ ∀ live, lives_after cs (dom (objects h)) = Some live →
      out.1 ≠ Undefined DanglingPointer ∧ (out.1 = Done () → dom (objects out.2) = live).
Proof.
  intros Hs Hown Hall Hc out.
  assert (steps_well True h (lives_after cs (dom (objects h))) out) as (Hown'&_&Hl).
  { subst out. revert h Hown Hall Hc. induction cs as [|c cs IH]; intros h Hown Hall Hc.
    { split_and!; [done..|]. by intros _ live [= <-]. }
    rewrite run_cons. cbn [lives_after careful_run] in *.
    apply andb_true_iff in Hc as [Hc Hcs].
    destruct (step_steps_well fuel c h fuel_pos Hown) as (Hown'&Hall'&Hl).
    specialize (Hl ltac:(done)). specialize (Hown' ltac:(left; done)). specialize (Hall' Hall).
    destruct (step fuel c h) as [[[]| | | |] h']; simpl in *;
      try (split_and!; [done..|]; intros _ live (l1&Hl1&_)%bind_Some;
           split; [by apply (Hl l1)|done]).
    destruct (IH h' Hown' Hall' Hcs) as (Ho&Ha&Hlive). split_and!; [done|auto|].
    intros _ live (l1&Hl1&Hl2)%bind_Some. destruct (Hl l1 Hl1) as [_ Hd].
    rewrite <- (Hd eq_refl) in Hl2. by apply Hlive. }
  specialize (Hown' ltac:(by left)). specialize (Hl I).
  split; [done|]. split; [|exact Hl].
  intros Hempty. apply map_eq. intros a. rewrite lookup_empty.
  destruct (blocks out.2 !! a) as [m|] eqn:Hm; [|done].
  destruct (own_all out.2 Hown' a) as (x&o&Hx&_); [by eauto|]. by rewrite Hempty in Hx.
Qed.
End programs_refine.

(** ** A buffer appended to itself

    What only the pointers tell: the cases that have no reading on values. *)
Section aliasing.
Context `{Allocator}.

(** [b.appendRawBytes(b.getBuffer() + off, n)]: when the block has to grow, the
    pointer that was passed leads to the released one. *)
Theorem append_own_bytes_dangles fuel h x o a s off n :
  owned h → objects h !! x = Some o → buffer_ptr o = Some a → repr (view_object h o) s →
  capacity_at o - end_at o < n → capacity_at o + n < size_max →
  alloc_ok (capacity_at o + n) = true →
  (appendRawBytes (S (S fuel)) x (Inside a off n) h).1 = Undefined DanglingPointer.
Proof.
  intros Hown Hx Ha Hr Hn Hmax Hok. pose proof (repr_bounds _ _ Hr) as (?&?&?&?). simpl in *.
  cbn [appendRawBytes].
  rewrite (io_bind_Done _ _ _ _ _ (object_of_Done _ _ _ Hx)). cbn [source_size].
  unfold available_at at 1. rewrite size_t_small by lia. bool_lia.
  rewrite size_t_small by lia. destruct (view_live h x o a Hown Hx Ha) as (m&Hm&Hv).
  pose proof (reserve_ok (view_object h o) m (capacity_at o + n) Hv ltac:(lia) Hok) as Hres.
  pose proof (reserve_run h x o (capacity_at o + n) Hown Hx) as Hrun. rewrite Hres in Hrun.
  rewrite (io_bind_Done _ _ _ _ _ Hrun).
  erewrite io_bind_Done by (apply object_of_Done, lookup_insert_eq). cbn [source_size].
  unfold available_at. cbn [capacity_at end_at capacity_ set_block].
  rewrite size_t_small by lia. bool_lia.
  unfold deref, memcpy, load, block_at, lift, get, mbind, io_bind. simpl. rewrite Ha. simpl.
  rewrite lookup_insert_ne, lookup_delete_eq; [done|].
  intros <-. rewrite next_unused in Hm; done.
Qed.

(** [b.appendRawBytes(b)]: the content is doubled in place; when there is no room
    for that, the block is resized to the capacity that it has, and the call
    never returns. *)
Lemma append_itself_stuck fuel h x o s :
  owned h → objects h !! x = Some o → repr (view_object h o) s →
  alloc_ok (capacity_at o) = true → capacity_at o - end_at o < Z.of_nat (length s) →
  (appendIOBuffer fuel x x h).1 = OutOfFuel.
Proof.
  revert h o. induction fuel as [|fuel IH]; intros h o Hown Hx Hr Hok Hfull; [done|].
  pose proof (repr_bounds _ _ Hr) as (He&?&?&?). cbn [appendIOBuffer].
  rewrite !(io_bind_Done _ _ _ _ _ (object_of_Done _ _ _ Hx)).
  change (data_size_at o) with (getDataSize (view_object h o)).
  change (available_at o) with (getAvailableSpace (view_object h o)).
  rewrite (repr_datasize _ _ Hr), (wf_available (view_object h o)) by by eapply repr_wf.
  cbn [capacity_ end_offset_ start_offset_ view_object] in *. bool_lia.
  destruct (reserve_repr (view_object h o) s (capacity_at o)) as (b&Hb&Hrb&Hc&_&Heb);
    [done|simpl; lia|lia|done|].
  pose proof (reserve_returns h x o (capacity_at o) Hown Hx) as Hown'.
  destruct (reserve_tracks h x o (capacity_at o) Hown Hx) as [Hres Ht].
  destruct (Ht b Hb) as (_&o'&Hx'&Hv). rewrite Hb in Hres. unfold mbind, io_bind.
  destruct (reserve x (capacity_at o) h) as [r h']. simpl in *. subst r b. simpl in *.
  by apply (IH h' o'); try (done || congruence); apply Hown'.
Qed.

Theorem append_itself_spec fuel h x o s :
  owned h → objects h !! x = Some o → repr (view_object h o) s →
  alloc_ok (capacity_at o) = true → (0 < fuel)%nat →
  if Z.of_nat (length s) <=? capacity_at o - end_at o
  then ∃ h' o', appendIOBuffer fuel x x h = (Done (), h') ∧ owned h'
         ∧ objects h' !! x = Some o' ∧ repr (view_object h' o') (s ++ s)
  else (appendIOBuffer fuel x x h).1 = OutOfFuel.
Proof.
  intros Hown Hx Hr Hok Hfuel.
  destruct (Z.leb_spec (Z.of_nat (length s)) (capacity_at o - end_at o)) as [Hfit|Hfull];
    [|by eapply append_itself_stuck].
  destruct fuel as [|fuel]; [lia|]. pose proof (repr_bounds _ _ Hr) as (He&?&?&?).
  destruct (append_fits 0 (view_object h o) s s Hr Hfit) as (b&Hb&Hrb&_).
  destruct (appendIOBuffer_sound (S fuel) h x x o o Hown Hx Hx) as (Hown'&_).
  assert ((appendIOBuffer (S fuel) x x h).1 = Done () → owned (appendIOBuffer (S fuel) x x h).2)
    as Hdone by auto. clear Hown'. revert Hdone. cbn [appendIOBuffer].
  rewrite !(io_bind_Done _ _ _ _ _ (object_of_Done _ _ _ Hx)).
  pose proof (repr_datasize _ _ Hr) as Hsize. cbn [appendRawBytes] in Hb.
  cbn [IOBuffer.appendRawBytes] in Hb. rewrite length_init in Hb.
  change (data_size_at o) with (getDataSize (view_object h o)).
  change (available_at o) with (getAvailableSpace (view_object h o)).
  assert ((Z.of_nat (length s) <=? getAvailableSpace (view_object h o)) = true) as Htest
    by (rewrite wf_available by (by eapply repr_wf); by apply Z.leb_le).
  rewrite Hsize, Htest. rewrite Htest in Hb.
  destruct (buffer_ptr o) as [a|] eqn:Ha.
  2:{ destruct Hr as (m&Hm&_). unfold view_object in Hm. rewrite Ha in Hm. done. }
  destruct (view_live h x o a Hown Hx Ha) as (m&Hm&Hv). rewrite Hv in Hb.
  unfold deref in *. rewrite !lift_Done_bind. rewrite Done_bind in Hb.
  pose proof (fill_tracks h x o a m (Inside a (start_at o) (Z.of_nat (length s)))
    (size_t (end_at o + Z.of_nat (length s))) Hown Hx Ha Hm) as [Hout Ht].
  unfold source_cells, overlaps in Hout, Ht.
  destruct Hr as (m0&Hm0&_&_&Hh&_). rewrite Hv in Hm0. injection Hm0 as <-.
  cbn [start_offset_ end_offset_ capacity_ view_object] in *.
  rewrite Hm, (holds_slice _ _ s _ Hh eq_refl) in Hout, Ht.
  rewrite bool_decide_eq_true_2 in Hout, Ht by done.
  assert ((end_at o <? start_at o + Z.of_nat (length s)) = false) as Hno by (apply Z.ltb_ge; lia).
  rewrite Hno in Hout, Ht. rewrite Done_bind in Hout, Ht. cbn [andb] in Hout, Ht.
  destruct (mem_write m (end_at o) (init s)) as [m'| | | |]; try done.
  rewrite Done_bind in Hb, Hout, Ht. injection Hb as <-.
  destruct (Ht _ eq_refl) as (_&o'&Hx'&Hv').
  destruct ((memcpy _ _ _ ≫= _) h) as [r h']. simpl in *. subst r.
  intros Hown'. exists h', o'. rewrite Hv'. auto.
Qed.
End aliasing.

(** ** A block that is given up

    When [realloc] is asked for no bytes it releases the block and gives a null
    pointer: [reserve] takes that for a failure and keeps its pointer. The
    exception is caught by no method, and the destructor of the buffer then
    releases the block again. *)
Section given_up.
Context `{Allocator}.

Lemma release_dangles h x o n :
  owned h → objects h !! x = Some o → releases o n = true →
  reserve x n h = (Throw bad_alloc, after_failure h o n)
  ∧ (destroy x (after_failure h o n)).1 = Undefined DanglingPointer.
Proof.
  intros Hown Hx Hrel. split.
  - destruct (reserve_cases h x o n Hown Hx) as [(m&Hok&Hr)|Hr]; [|done].
    rewrite (reserve_run h x o) in * by done. unfold IOBuffer.reserve in *.
    cbn [capacity_ view_object] in *. fold (resized o n) in *. unfold releases in Hrel.
    destruct (buffer_ptr o) as [a|] eqn:Ha; [|done].
    destruct (view_live h x o a Hown Hx Ha) as (m'&_&Hv). rewrite Hv in Hr |- *.
    unfold realloc in *. by rewrite Hrel in *.
  - unfold destroy.
    rewrite (io_bind_Done _ _ _ o (after_failure h o n))
      by (apply object_of_Done; by rewrite after_failure_objects).
    unfold after_failure. rewrite Hrel. unfold releases in Hrel.
    destruct (buffer_ptr o) as [a|]; [|done]. unfold free, block_at, get, mbind, io_bind. simpl.
    by rewrite lookup_delete_eq.
Qed.

(** [b.reserve()] on a buffer that was moved into, or made with capacity 0. *)
Theorem reserve_nothing_dangles h x o a :
  owned h → objects h !! x = Some o → buffer_ptr o = Some a → capacity_at o = 0 →
  ∃ h', reserve x 0 h = (Throw bad_alloc, h')
    ∧ (destroy x h').1 = Undefined DanglingPointer.
Proof.
  intros Hown Hx Ha Hc. eexists. apply release_dangles; [done..|].
  unfold releases, resized. by rewrite Ha, Hc.
Qed.

(** [b.appendRawBytes(c)] for two such buffers, when [c] does not fit. *)
Theorem append_nothing_dangles fuel h x y o src a :
  owned h → objects h !! x = Some o → buffer_ptr o = Some a → capacity_at o = 0 →
  objects h !! y = Some src → capacity_at src = 0 → available_at o < data_size_at src →
  ∃ h', appendIOBuffer (S fuel) x y h = (Throw bad_alloc, h')
    ∧ (destroy x h').1 = Undefined DanglingPointer.
Proof.
  intros Hown Hx Ha Hc Hy Hcs Hfull. cbn [appendIOBuffer].
  rewrite (io_bind_Done _ _ _ _ _ (object_of_Done _ _ _ Hx)).
  rewrite (io_bind_Done _ _ _ _ _ (object_of_Done _ _ _ Hy)).
  rewrite (proj2 (Z.leb_gt _ _) Hfull), Hcs.
  destruct (reserve_nothing_dangles h x o a) as (h'&Hr&Hd); [done..|].
  exists h'. split; [|done]. unfold mbind, io_bind. by rewrite Hr.
Qed.
End given_up.

(** ** Concrete runs

    A buffer is filled, moved and appended to another; the rest is destroyed. *)
Definition handover : list call :=
  [Construct 0 4; Append 0 (init $"Hey"); MoveConstruct 1 0; Destroy 0;
   Construct 2 2; AppendPart 2 1 0 1; AppendBuffer 2 1; Destroy 1].

Lemma buffers_refine_values_witness :
  let out := run (H := total_alloc) 3 handover empty_heap in
  out.1 = Done ()
  ∧ view out.2 = {[ 2%N := mkIOBuffer (Some (init $"HHey")) 0 4 4 ]}.
Proof.
  intros out.
  destruct (@buffers_refine_values total_alloc 3 ltac:(lia) handover empty_heap
    empty_heap_owned) as [Hout Hview]; [reflexivity|].
  split.
  - etransitivity; [exact Hout|]. vm_compute. reflexivity.
  - apply Hview. vm_compute. reflexivity.
Defined.

(** A system that gives every block of an object's size. *)
Definition bounded_alloc : Allocator := λ n, (0 <=? n) && (n <? 2 ^ 63).

Lemma bounded_alloc_small : @small_blocks bounded_alloc.
Proof. intros n Hn. apply andb_true_iff in Hn as [?%Z.leb_le ?%Z.ltb_lt]. done. Qed.

(** With a part of one buffer appended to another. *)
Lemma buffers_memory_safe_witness :
  let out := run (H := bounded_alloc) 3 (handover ++ [AppendPart 2 2 0 0; Destroy 2]) empty_heap in
  out.1 = Done () ∧ blocks out.2 = ∅ ∧ owned out.2.
Proof.
  intros out.
  destruct (@buffers_memory_safe bounded_alloc 3 ltac:(lia)
    (handover ++ [AppendPart 2 2 0 0; Destroy 2]) empty_heap bounded_alloc_small
    empty_heap_owned (map_Forall_empty _)) as (Hown&Hfree&_).
  - vm_compute. reflexivity.
  - split; [vm_compute; reflexivity|]. split; [|exact Hown].
    apply Hfree. vm_compute. reflexivity.
Defined.

(** A program that uses a buffer after it was destroyed is not one of those. *)
Example use_after_destroy :
  (run (H := total_alloc) 3 [Construct 0 4; Destroy 0; Clear 0] empty_heap).1
  = Undefined DanglingPointer
  ∧ lives_after [Construct 0 4; Destroy 0; Clear 0] ∅ = None.
Proof. split; vm_compute; reflexivity. Qed.

(** [reserve()] on a buffer that was moved into: the program ends with the
    exception, and destroying the buffer releases its block again. *)
Example reserve_after_move :
  let cs := [Construct 0 4; MoveConstruct 1 0; Reserve 1 0] in
  let out := run (H := total_alloc) 3 cs empty_heap in
  out.1 = Throw bad_alloc ∧ careful_run (H := total_alloc) 3 cs empty_heap = false
  ∧ (destroy 1 out.2).1 = Undefined DanglingPointer.
Proof. split_and!; vm_compute; reflexivity. Qed.

(** Half of a full buffer, appended to it. *)
Example own_bytes :
  let h := (run (H := total_alloc) 3 [Construct 0 2; Append 0 (init $"ab")] empty_heap).2 in
  (appendRawBytes (H := total_alloc) 3 0 (Inside 0 0 1) h).1 = Undefined DanglingPointer.
Proof. vm_compute. reflexivity. Qed.

Example doubled :
  let h := (run (H := total_alloc) 3
              [Construct 0 4; Append 0 (init $"ab"); AppendBuffer 0 0] empty_heap).2 in
  view h = {[ 0%N := buffer_of $"abab" ]}.
Proof. vm_compute. reflexivity. Qed.
