(* ===== verification/Simd.v ===== *)
(** * Vectorised character search (blueth/utils/simd.hpp)

    The 128 and 256 bit vector classes, as lists of 16 and 32 byte lanes, the
    intrinsics they wrap, and the two searches built on them. The searches
    are proved equal to the one-character-at-a-time scan. *)
From Stdlib Require Import ZArith Lia Ascii String.
From stdpp Require Import base gmap sets strings list.
From S2P Require Import Prelude.
Local Open Scope Z_scope.
Local Open Scope blueth_scope.

(** ** The intrinsics, lane by lane *)
Definition lanes : Type := list Z.          (* one value in 0..255 per byte *)

Definition lane_of (c : char) : Z := byte_val c.
Definition signed_lane (x : Z) : Z := if x <? 128 then x else x - 256.
Definition mm_cmp (r : Z → Z → bool) (x y : lanes) : lanes :=
  zip_with (λ a b, if r a b then 255 else 0) x y.
Definition mm_set1_epi8 (width : nat) (c : char) : lanes := replicate width (lane_of c).
Definition mm_cmpeq_epi8 : lanes → lanes → lanes := mm_cmp Z.eqb.
Definition mm_cmplt_epi8 : lanes → lanes → lanes :=
  mm_cmp (λ a b, signed_lane a <? signed_lane b).
Definition mm_cmpgt_epi8 : lanes → lanes → lanes :=
  mm_cmp (λ a b, signed_lane b <? signed_lane a).
Definition mm_and : lanes → lanes → lanes := zip_with Z.land.
Definition mm_or : lanes → lanes → lanes := zip_with Z.lor.

(** [lddqu]: an unaligned load of [width] bytes. *)
Definition mm_lddqu (width : nat) (m : list (option ascii)) (p : Z) : res lanes :=
  cells ← mem_slice m p (Z.of_nat width);
  cs ← cells_chars cells;
  Done (map lane_of cs).

(** The top bit of every lane, lane 0 in bit 0. *)
Fixpoint mm_movemask_epi8 (v : lanes) : Z :=
  match v with
  | [] => 0
  | x :: v => (if Z.testbit x 7 then 1 else 0) + 2 * mm_movemask_epi8 v
  end.

(** [__builtin_ctz]: undefined on 0. *)
Fixpoint pos_ctz (p : positive) : Z :=
  match p with xO p => 1 + pos_ctz p | _ => 0 end.
Definition builtin_ctz (mask : Z) : res Z :=
  match to_uint32 mask with
  | Zpos p => Done (pos_ctz p)
  | _ => Undefined BadArgument
  end.

(** ** bool_vector_128 / char_vector_128 and their 256 bit versions *)
Record bool_vector := mk_bool_vector { bv_data : lanes }.
Record char_vector := mk_char_vector { cv_data : lanes }.

Definition bool_vector_and (x y : bool_vector) : bool_vector :=
  mk_bool_vector (mm_and (bv_data x) (bv_data y)).
Definition bool_vector_or (x y : bool_vector) : bool_vector :=
  mk_bool_vector (mm_or (bv_data x) (bv_data y)).
Definition mask (v : bool_vector) : Z := to_int32 (mm_movemask_epi8 (bv_data v)).
Definition get_first_true_in_mask (v : bool_vector) : res Z := builtin_ctz (mask v).

Definition char_vector_128_eq (x y : char_vector) : bool_vector :=
  mk_bool_vector (mm_cmpeq_epi8 (cv_data x) (cv_data y)).
Definition char_vector_128_lt (x y : char_vector) : bool_vector :=
  mk_bool_vector (mm_cmplt_epi8 (cv_data x) (cv_data y)).
Definition char_vector_128_gt (x y : char_vector) : bool_vector :=
  mk_bool_vector (mm_cmpgt_epi8 (cv_data x) (cv_data y)).
Definition char_vector_128_or (x y : char_vector) : bool_vector :=
  mk_bool_vector (mm_or (cv_data x) (cv_data y)).

Definition char_vector_256_eq (x y : char_vector) : bool_vector :=
  mk_bool_vector (mm_cmpeq_epi8 (cv_data x) (cv_data y)).
(** As written in the source: [operator<] compares for equality. *)
Definition char_vector_256_lt (x y : char_vector) : bool_vector :=
  mk_bool_vector (mm_cmpeq_epi8 (cv_data x) (cv_data y)).
Definition char_vector_256_or (x y : char_vector) : bool_vector :=
  mk_bool_vector (mm_or (cv_data x) (cv_data y)).

(** ** The searches

    A pointer is an offset into the block [m]. Each loop has the number of
    bytes left as its fuel. *)
Fixpoint scan_bytes (fuel : nat) (m : list (option ascii))
    (buffer_start buffer_end : Z) (find_char : char) : res Z :=
  match fuel with
  | O => OutOfFuel
  | S fuel =>
      if buffer_start <? buffer_end then
        c ← mem_read m buffer_start;
        if bool_decide (c = find_char) then Done buffer_start
        else scan_bytes fuel m (buffer_start + 1) buffer_end find_char
      else Done buffer_end
  end.

Definition loop_fuel (buffer_start buffer_end : Z) : nat :=
  S (Z.to_nat (buffer_end - buffer_start)).

Fixpoint find_256_blocks (fuel : nat) (m : list (option ascii))
    (buffer_start buffer_end : Z) (find_char : char) : res Z :=
  match fuel with
  | O => OutOfFuel
  | S fuel =>
      let find_char_vector := mk_char_vector (mm_set1_epi8 32 find_char) in
      if buffer_start + 32 <=? buffer_end then
        pack ← mm_lddqu 32 m buffer_start;
        let buffer_eq_find_char :=
          char_vector_256_eq (mk_char_vector pack) find_char_vector in
        if negb (mask buffer_eq_find_char =? 0) then
          i ← get_first_true_in_mask buffer_eq_find_char;
          Done (buffer_start + i)
        else find_256_blocks fuel m (buffer_start + 32) buffer_end find_char
      else scan_bytes (loop_fuel buffer_start buffer_end) m
             buffer_start buffer_end find_char
  end.

Definition find_char_256_avx2 (m : list (option ascii))
    (buffer_start buffer_end : Z) (find_char : char) : res Z :=
  find_256_blocks (loop_fuel buffer_start buffer_end) m
    buffer_start buffer_end find_char.

Fixpoint find_128_blocks (fuel : nat) (m : list (option ascii))
    (buffer_start buffer_end : Z) (find_char : char) : res Z :=
  match fuel with
  | O => OutOfFuel
  | S fuel =>
      let find_char_vector := mk_char_vector (mm_set1_epi8 16 find_char) in
      if buffer_start + 16 <? buffer_end then
        pack ← mm_lddqu 16 m buffer_start;
        let buffer_eq_find_char :=
          char_vector_128_eq (mk_char_vector pack) find_char_vector in
        if negb (mask buffer_eq_find_char =? 0) then
          i ← get_first_true_in_mask buffer_eq_find_char;
          Done (buffer_start + i)
        else find_128_blocks fuel m (buffer_start + 16) buffer_end find_char
      else scan_bytes (loop_fuel buffer_start buffer_end) m
             buffer_start buffer_end find_char
  end.

Definition find_char_128_sse4_2 (m : list (option ascii))
    (buffer_start buffer_end : Z) (find_char : char) : res Z :=
  find_128_blocks (loop_fuel buffer_start buffer_end) m
    buffer_start buffer_end find_char.

(** ** The reference: the position of the first occurrence *)
Fixpoint first_index (c : char) (s : bytes) : nat :=
  match s with
  | [] => O
  | d :: s => if bool_decide (d = c) then O else S (first_index c s)
  end.

Lemma first_index_app_in c s t :
  c ∈ s → first_index c (s ++ t) = first_index c s.
Proof.
  induction s as [|d s IH]; intros Hin; [by apply elem_of_nil in Hin|]. simpl.
  case_bool_decide; [done|]. f_equal. apply IH.
  by apply elem_of_cons in Hin as [->|].
Qed.

Lemma first_index_app_notin c s t :
  c ∉ s → first_index c (s ++ t) = (length s + first_index c t)%nat.
Proof.
  induction s as [|d s IH]; intros Hin; [done|]. simpl.
  apply not_elem_of_cons in Hin as [? ?]. rewrite bool_decide_eq_false_2 by done.
  f_equal. by apply IH.
Qed.

Lemma first_index_notin c s : c ∉ s → first_index c s = length s.
Proof.
  intros. rewrite <- (app_nil_r s) at 1. rewrite first_index_app_notin by done.
  simpl. lia.
Qed.

Lemma first_index_lt c s : c ∈ s → (first_index c s < length s)%nat.
Proof.
  induction s as [|d s IH]; intros Hin; [by apply elem_of_nil in Hin|]. simpl.
  case_bool_decide; [lia|]. apply elem_of_cons in Hin as [->|]; [done|].
  by apply IH in H0; lia.
Qed.

Lemma first_index_le c s : (first_index c s <= length s)%nat.
Proof.
  destruct (decide (c ∈ s)) as [Hin|]; [apply first_index_lt in Hin; lia|].
  by rewrite first_index_notin.
Qed.

(** ** The vector primitives on a loaded pack *)
Lemma lane_of_inj c d : lane_of c = lane_of d ↔ c = d.
Proof.
  split; [|by intros ->]. intros H. unfold lane_of, byte_val in H.
  apply N2Z.inj in H. rewrite <- (ascii_N_embedding c), H. apply ascii_N_embedding.
Qed.

Lemma cmpeq_pack c s :
  mm_cmpeq_epi8 (map lane_of s) (mm_set1_epi8 (length s) c)
  = map (λ d, if bool_decide (d = c) then 255 else 0) s.
Proof.
  unfold mm_cmpeq_epi8, mm_cmp, mm_set1_epi8.
  induction s as [|d s IH]; [done|]. simpl. f_equal; [|exact IH].
  case_bool_decide as Hd; case_match eqn:He; try done.
  - subst. by rewrite Z.eqb_refl in He.
  - by apply Z.eqb_eq, lane_of_inj in He.
Qed.

Definition eq_mask (c : char) (s : bytes) : Z :=
  mm_movemask_epi8 (map (λ d, if bool_decide (d = c) then 255 else 0) s).

Lemma eq_mask_cons c d s :
  eq_mask c (d :: s) = (if bool_decide (d = c) then 1 else 0) + 2 * eq_mask c s.
Proof. unfold eq_mask. simpl. by case_bool_decide. Qed.

Lemma eq_mask_bound c s : 0 <= eq_mask c s < 2 ^ Z.of_nat (length s).
Proof.
  induction s as [|d s IH]; [done|]. rewrite eq_mask_cons. simpl length.
  rewrite Nat2Z.inj_succ, Z.pow_succ_r by lia. case_bool_decide; lia.
Qed.

Lemma eq_mask_zero c s : eq_mask c s = 0 ↔ c ∉ s.
Proof.
  induction s as [|d s IH]; [split; [intros _; apply not_elem_of_nil|done]|].
  rewrite eq_mask_cons, not_elem_of_cons, <- IH.
  pose proof (eq_mask_bound c s). case_bool_decide; split.
  - lia.
  - intros [? _]. congruence.
  - split; [congruence|lia].
  - by intros [_ ->].
Qed.

(** Counting the trailing zeros of the mask finds the first equal lane. *)
Lemma eq_mask_ctz c s p :
  eq_mask c s = Zpos p → pos_ctz p = Z.of_nat (first_index c s).
Proof.
  revert p. induction s as [|d s IH]; intros p; [done|]. rewrite eq_mask_cons.
  pose proof (eq_mask_bound c s). simpl. case_bool_decide as Hd; intros Hp.
  - destruct p; simpl; [done|lia|done].
  - destruct p as [p|p|]; [lia| |lia]. simpl. rewrite (IH p); lia.
Qed.

Lemma get_first_true_pack c s :
  c ∈ s → (length s <= 32)%nat →
  get_first_true_in_mask (mk_bool_vector (mm_cmpeq_epi8 (map lane_of s)
    (mm_set1_epi8 (length s) c))) = Done (Z.of_nat (first_index c s)).
Proof.
  intros Hin Hlen. unfold get_first_true_in_mask, mask, builtin_ctz. simpl.
  rewrite cmpeq_pack. fold (eq_mask c s).
  pose proof (eq_mask_bound c s). pose proof (Z.pow_le_mono_r 2 (Z.of_nat (length s)) 32).
  rewrite to_uint32_int32 by lia.
  destruct (eq_mask c s) as [|p|p] eqn:Hm; [|by erewrite eq_mask_ctz|lia].
  by apply eq_mask_zero in Hm.
Qed.

Lemma mask_pack_zero c s :
  (length s <= 32)%nat →
  negb (mask (mk_bool_vector (mm_cmpeq_epi8 (map lane_of s)
    (mm_set1_epi8 (length s) c))) =? 0) = bool_decide (c ∈ s).
Proof.
  intros Hlen. unfold mask. simpl. rewrite cmpeq_pack. fold (eq_mask c s).
  pose proof (eq_mask_bound c s). pose proof (Z.pow_le_mono_r 2 (Z.of_nat (length s)) 32).
  destruct (Z.eqb_spec (to_int32 (eq_mask c s)) 0) as [Hz|Hz];
    rewrite to_int32_zero, eq_mask_zero in Hz by lia; simpl; symmetry.
  - by apply bool_decide_eq_false_2.
  - apply bool_decide_eq_true_2. by destruct (decide (c ∈ s)).
Qed.

(** ** The searches against the reference *)
Lemma holds_load width m p s t :
  holds m p (s ++ t) → length s = width →
  mm_lddqu width m p = Done (map lane_of s).
Proof.
  intros Hh Hl. apply holds_app in Hh as [Hh _]. unfold mm_lddqu.
  rewrite (holds_slice _ _ _ _ Hh) by lia. simpl. by rewrite cells_chars_init.
Qed.

Lemma scan_bytes_spec fuel m p c s :
  holds m p s → (length s < fuel)%nat →
  scan_bytes fuel m p (p + Z.of_nat (length s)) c
  = Done (p + Z.of_nat (first_index c s)).
Proof.
  revert fuel p. induction s as [|d s IH]; intros fuel p Hh Hf;
    (destruct fuel as [|fuel]; [simpl in Hf; lia|]); cbn [scan_bytes].
  - simpl. by bool_lia.
  - simpl length in *. apply holds_cons in Hh as [Hr Hh]. bool_lia.
    rewrite Hr. simpl. case_bool_decide; [f_equal; lia|].
    rewrite <- Z.add_1_l, Z.add_assoc || idtac.
    replace (p + Z.of_nat (S (length s))) with (p + 1 + Z.of_nat (length s)) by lia.
    rewrite IH by (done || lia). f_equal. lia.
Qed.

Lemma scan_bytes_empty fuel m p q c :
  q <= p → scan_bytes (S fuel) m p q c = Done q.
Proof. intros. simpl. by bool_lia. Qed.

(** Both block loops have this shape: while [more] says that a pack of [w]
    bytes may be loaded, look for a lane equal to the character. *)
Section blocks.
Context (w : nat) (more : Z → Z → bool).
Context (loop : nat → list (option ascii) → Z → Z → char → res Z).
Hypothesis w_pos : (0 < w <= 32)%nat.
Hypothesis more_fits : ∀ p q, more p q = true → p + Z.of_nat w <= q.
Hypothesis loop_unfold : ∀ fuel m p q c,
  loop (S fuel) m p q c =
    if more p q then
      pack ← mm_lddqu w m p;
      let eqs := mk_bool_vector (mm_cmpeq_epi8 pack (mm_set1_epi8 w c)) in
      if negb (mask eqs =? 0) then i ← get_first_true_in_mask eqs; Done (p + i)
      else loop fuel m (p + Z.of_nat w) q c
    else scan_bytes (loop_fuel p q) m p q c.

Lemma blocks_spec fuel m p c s :
  holds m p s → (length s < fuel)%nat →
  loop fuel m p (p + Z.of_nat (length s)) c
  = Done (p + Z.of_nat (first_index c s)).
Proof using w_pos more_fits loop_unfold.
  revert p s. induction fuel as [|fuel IH]; intros p s Hh Hf; [lia|].
  rewrite loop_unfold. destruct (more _ _) eqn:Hm.
  2:{ apply scan_bytes_spec; [done|unfold loop_fuel; lia]. }
  apply more_fits in Hm.
  assert (∃ pk rest, s = pk ++ rest ∧ length pk = w) as (pk&rest&->&Hw).
  { exists (take w s), (drop w s). rewrite take_drop, length_take. split; [done|lia]. }
  rewrite (holds_load w _ _ _ _ Hh Hw).
  change (Done ?x ≫= ?f) with (f x). cbn beta zeta.
  rewrite <- Hw, mask_pack_zero by lia. case_bool_decide as Hin.
  - rewrite get_first_true_pack by (done || lia). simpl.
    by rewrite first_index_app_in.
  - apply holds_app in Hh as [_ Hh]. rewrite length_app in *.
    rewrite Nat2Z.inj_add, Z.add_assoc, IH by (done || lia).
    rewrite first_index_app_notin by done. f_equal. lia.
Qed.
End blocks.

Lemma find_256_blocks_spec fuel m p c s :
  holds m p s → (length s < fuel)%nat →
  find_256_blocks fuel m p (p + Z.of_nat (length s)) c
  = Done (p + Z.of_nat (first_index c s)).
Proof.
  apply (blocks_spec 32 (λ p q, p + 32 <=? q)); [lia| |done].
  intros p' q' H. by apply Z.leb_le in H.
Qed.

Lemma find_128_blocks_spec fuel m p c s :
  holds m p s → (length s < fuel)%nat →
  find_128_blocks fuel m p (p + Z.of_nat (length s)) c
  = Done (p + Z.of_nat (first_index c s)).
Proof.
  apply (blocks_spec 16 (λ p q, p + 16 <? q)); [lia| |done].
  intros p' q' H. apply Z.ltb_lt in H. lia.
Qed.

Lemma find_128_spec m p c s :
  holds m p s →
  find_char_128_sse4_2 m p (p + Z.of_nat (length s)) c
  = Done (p + Z.of_nat (first_index c s)).
Proof.
  intros Hh. apply find_128_blocks_spec; [done|]. unfold loop_fuel. lia.
Qed.

(** A start beyond the end finds nothing. *)
Lemma find_128_empty m p q c : q <= p → find_char_128_sse4_2 m p q c = Done q.
Proof.
  intros. unfold find_char_128_sse4_2, loop_fuel. cbn [find_128_blocks].
  bool_lia. by bool_lia.
Qed.

(** C35: Both vectorised searches, on any run of initialised bytes, return the
    position of the first occurrence of the character, or the end; they always
    finish and never read outside the run. *)
Theorem find_char_vectorised_correct m p c s :
  holds m p s →
  let q := p + Z.of_nat (length s) in
  let found := Done (p + Z.of_nat (first_index c s)) in
  find_char_128_sse4_2 m p q c = found ∧ find_char_256_avx2 m p q c = found.
Proof.
  intros Hh. split; [by apply find_128_spec|].
  apply find_256_blocks_spec; [done|]. unfold loop_fuel. lia.
Qed.

Definition haystack : bytes := $"0123456789012345678901234567890123456789x9".

Lemma find_char_vectorised_witness :
  holds (init haystack) 0 haystack ∧
  find_char_128_sse4_2 (init haystack) 0 42 (chr 120) = Done 40.
Proof.
  assert (holds (init haystack) 0 haystack) as H.
  { exists [], []. split; [by rewrite app_nil_r|done]. }
  split; [exact H|].
  exact (proj1 (find_char_vectorised_correct (init haystack) 0 (chr 120) haystack H)).
Defined.
