(* ===== verification/FrameDecoder.v ===== *)
(** * [codec::LineBasedFrameDecoder] (blueth/codec/LineBasedFrameDecoder.hpp)

    The splitter of a byte range into string views, one per terminated line.
    Pointers are offsets into one block; a view is its start and its [size_t]
    length. The reads of the byte after and the byte before a terminator are
    the code's own, and are checked against the block. *)
From Stdlib Require Import ZArith Lia Ascii String.
From stdpp Require Import base gmap sets strings list.
From S2P Require Import Prelude Simd.
Local Open Scope Z_scope.
Local Open Scope blueth_scope.

Inductive TerminatorType := CarriageReturnNewLine | NewLineNewLine.

(** [std::string_view(begin, length)] *)
Record string_view := mk_view { view_begin : Z; view_length : Z }.

(** The loop behind [goto FIND_IT_AGAIN_CR]. *)
Fixpoint decode_CR (fuel : nat) (m : list (option ascii)) (begin end_ : Z)
    (results : list string_view) : res (list string_view) :=
  match fuel with
  | O => OutOfFuel
  | S fuel =>
      cr ← find_char_128_sse4_2 m begin end_ CR;
      if cr =? end_ then Done results
      else
        c0 ← mem_read m cr;
        if negb (bool_decide (c0 = CR)) then Done results
        else
          c1 ← mem_read m (cr + 1);
          if negb (bool_decide (c1 = LF)) then Done results
          else
            let offset_length := size_t (cr - begin - 1) in
            decode_CR fuel m (begin + size_t (offset_length + 3)) end_
                      (results ++ [mk_view begin offset_length])
  end.

(** The loop behind [goto FIND_IT_AGAIN_LF]. *)
Fixpoint decode_LF (fuel : nat) (m : list (option ascii)) (begin end_ : Z)
    (results : list string_view) : res (list string_view) :=
  match fuel with
  | O => OutOfFuel
  | S fuel =>
      lf ← find_char_128_sse4_2 m begin end_ LF;
      if lf =? end_ then Done results
      else
        c0 ← mem_read m lf;
        stop ← (if bool_decide (c0 = LF) then Done false
                else c1 ← mem_read m (lf + 1); Done (negb (bool_decide (c1 = LF))));
        stop ← (if (stop : bool) then Done true
                else cb ← mem_read m (lf - 1); Done (bool_decide (cb = CR)));
        if (stop : bool) then Done results
        else
          let offset_length := size_t (lf - begin - 1) in
          decode_LF fuel m (begin + size_t (offset_length + 3)) end_
                    (results ++ [mk_view begin offset_length])
  end.

Definition LineBasedFrameDecoder (m : list (option ascii)) (begin end_ : Z)
    (terminator_type : TerminatorType) (results : list string_view)
  : res (list string_view) :=
  match terminator_type with
  | CarriageReturnNewLine => decode_CR (loop_fuel begin end_) m begin end_ results
  | NewLineNewLine => decode_LF (loop_fuel begin end_) m begin end_ results
  end.

(** ** Reference: the lines of a range, as (start, length)

    [crlf_lines]: the lines ended by CR LF, up to the first CR that no LF
    follows. [cur] counts the characters of the line being read. *)
Fixpoint crlf_lines (start cur : Z) (s : bytes) : list (Z * Z) :=
  match s with
  | [] => []
  | c :: s =>
      if bool_decide (c = CR) then
        match s with
        | d :: s' =>
            if bool_decide (d = LF)
            then (start, cur) :: crlf_lines (start + cur + 2) 0 s' else []
        | [] => []
        end
      else crlf_lines start (cur + 1) s
  end.

(** What the decoder's other mode splits at: a single LF that no CR precedes;
    the character after it is skipped, whatever it is. [prev] is the character
    before [s]. *)
Fixpoint lf_lines (prev : char) (start cur : Z) (s : bytes) : list (Z * Z) :=
  match s with
  | [] => []
  | c :: s =>
      if bool_decide (c = LF) then
        if bool_decide (prev = CR) then []
        else (start, cur) ::
             match s with
             | [] => []
             | d :: s' => lf_lines d (start + cur + 2) 0 s'
             end
      else lf_lines c start (cur + 1) s
  end.

(** The view the decoder makes of a line: one character short. *)
Definition short_view (l : Z * Z) : string_view := mk_view l.1 (size_t (l.2 - 1)).

(** ** Correctness *)
Lemma crlf_lines_skip start cur s t :
  CR ∉ s → crlf_lines start cur (s ++ t) = crlf_lines start (cur + Z.of_nat (length s)) t.
Proof.
  revert cur. induction s as [|c s IH]; intros cur Hs; [f_equal; simpl; lia|].
  apply not_elem_of_cons in Hs as [? Hs]. cbn [app crlf_lines].
  rewrite bool_decide_eq_false_2 by done. rewrite IH by done. f_equal. simpl. lia.
Qed.

Lemma crlf_lines_none start cur s : CR ∉ s → crlf_lines start cur s = [].
Proof. intros. rewrite <- (app_nil_r s). by rewrite crlf_lines_skip. Qed.

Lemma lf_lines_skip prev start cur s t :
  LF ∉ s → lf_lines prev start cur (s ++ t)
           = lf_lines (List.last s prev) start (cur + Z.of_nat (length s)) t.
Proof.
  revert prev cur. induction s as [|c s IH]; intros prev cur Hs.
  { simpl. f_equal. lia. }
  apply not_elem_of_cons in Hs as [? Hs]. cbn [app lf_lines].
  rewrite bool_decide_eq_false_2 by done. rewrite IH by done.
  replace (cur + 1 + Z.of_nat (length s)) with (cur + Z.of_nat (length (c :: s)))
    by (simpl; lia).
  destruct s as [|d s]; [done|]. by rewrite (last_default (d :: s) c prev).
Qed.

Lemma lf_lines_none prev start cur s : LF ∉ s → lf_lines prev start cur s = [].
Proof. intros. rewrite <- (app_nil_r s). by rewrite lf_lines_skip. Qed.

Lemma holds_last m p prev s :
  holds m (p - 1) (prev :: s) →
  mem_read m (p + Z.of_nat (length s) - 1) = Done (List.last s prev).
Proof.
  destruct s as [|c s] using rev_ind; intros Hh.
  - apply holds_read in Hh. simpl. by rewrite Z.add_0_r.
  - rewrite app_comm_cons in Hh. apply holds_app in Hh as [_ Hh].
    apply holds_read in Hh. rewrite length_app, last_last. simpl in *.
    by replace (p + Z.of_nat (length s + 1) - 1)
      with (p - 1 + Z.of_nat (S (length s))) by lia.
Qed.

(** The next search start: two past the terminator, even when the line is
    empty and its view's length wraps around. *)
Lemma next_begin cur :
  0 <= cur → cur + 2 < size_max → size_t (size_t (cur - 1) + 3) = cur + 2.
Proof.
  intros. destruct (decide (cur = 0)) as [->|].
  - reflexivity.
  - rewrite (size_t_small (cur - 1)) by lia. rewrite size_t_small; lia.
Qed.

Lemma first_terminator (c : char) (s : bytes) :
  c ∉ s ∨ ∃ s1 s2, s = s1 ++ c :: s2 ∧ c ∉ s1.
Proof.
  destruct (decide (c ∈ s)) as [Hin|]; [right|by left].
  by apply list_elem_of_split_l in Hin.
Qed.

Lemma first_index_terminator c s1 s2 :
  c ∉ s1 → first_index c (s1 ++ c :: s2) = length s1.
Proof.
  intros. rewrite first_index_app_notin by done. simpl.
  rewrite bool_decide_eq_true_2 by done. lia.
Qed.

Lemma decode_CR_spec fuel m p s t acc :
  holds m p (s ++ [t]) → t ≠ LF → Z.of_nat (length s) + 2 < size_max →
  (length s < fuel)%nat →
  decode_CR fuel m p (p + Z.of_nat (length s)) acc
  = Done (acc ++ map short_view (crlf_lines p 0 s)).
Proof.
  intros Hh Ht. revert p s acc Hh.
  induction fuel as [|fuel IH]; intros p s acc Hh Hmax Hf; [lia|].
  cbn [decode_CR]. apply holds_app in Hh as Hs. destruct Hs as [Hs Hend].
  rewrite (find_128_spec _ _ _ _ Hs). change (Done ?x ≫= ?f) with (f x). cbn beta.
  destruct (first_terminator CR s) as [Hn|(s1&s2&->&Hn)].
  { rewrite first_index_notin by done. rewrite Z.eqb_refl.
    by rewrite crlf_lines_none, app_nil_r. }
  rewrite first_index_terminator, crlf_lines_skip by done.
  rewrite length_app in *. simpl length in *. bool_lia.
  rewrite <- app_assoc in Hh. apply holds_app in Hh as [Hh1 Hh].
  simpl in Hh. apply holds_cons in Hh as [Hr Hh]. rewrite Hr. simpl.
  destruct s2 as [|d s2]; simpl in Hh.
  { apply holds_read in Hh. rewrite Hh. simpl. rewrite bool_decide_eq_false_2 by done.
    simpl. by rewrite app_nil_r. }
  apply holds_cons in Hh as [Hr2 Hh]. rewrite Hr2. simpl.
  case_bool_decide; simpl; [|by rewrite app_nil_r].
  replace (p + Z.of_nat (length s1) - p - 1) with (Z.of_nat (length s1) - 1) by lia.
  simpl in *. rewrite next_begin by lia.
  replace (p + Z.of_nat (length s1 + S (S (length s2))))
    with (p + (Z.of_nat (length s1) + 2) + Z.of_nat (length s2)) by lia.
  rewrite IH; [|by replace (p + (Z.of_nat (length s1) + 2))
    with (p + Z.of_nat (length s1) + 1 + 1) by lia|lia..].
  rewrite <- app_assoc. do 2 f_equal. by rewrite Z.add_assoc.
Qed.

Lemma decode_LF_spec fuel m p prev s acc :
  holds m (p - 1) (prev :: s) → Z.of_nat (length s) + 2 < size_max →
  (length s < fuel)%nat →
  decode_LF fuel m p (p + Z.of_nat (length s)) acc
  = Done (acc ++ map short_view (lf_lines prev p 0 s)).
Proof.
  revert p prev s acc.
  induction fuel as [|fuel IH]; intros p prev s acc Hh Hmax Hf; [lia|].
  cbn [decode_LF]. apply holds_cons in Hh as Hs. destruct Hs as [_ Hs].
  rewrite Z.sub_add in Hs.
  rewrite (find_128_spec _ _ _ _ Hs). change (Done ?x ≫= ?f) with (f x). cbn beta.
  destruct (first_terminator LF s) as [Hn|(s1&s2&->&Hn)].
  { rewrite first_index_notin by done. rewrite Z.eqb_refl.
    by rewrite lf_lines_none, app_nil_r. }
  rewrite first_index_terminator, lf_lines_skip by done.
  rewrite length_app in *. simpl length in *. bool_lia.
  rewrite app_comm_cons in Hh. apply holds_app in Hh as [Hh1 Hh].
  rewrite (holds_last _ _ _ _ Hh1).
  apply holds_app in Hs as [_ Hs]. apply holds_cons in Hs as [Hr Hs].
  rewrite Hr. simpl. case_bool_decide; simpl; [by rewrite app_nil_r|].
  replace (p + Z.of_nat (length s1) - p - 1) with (Z.of_nat (length s1) - 1) by lia.
  rewrite next_begin by lia.
  destruct s2 as [|d s2].
  { destruct fuel as [|fuel]; [simpl in Hf; lia|]. cbn [decode_LF].
    rewrite find_128_empty by (simpl; lia). simpl. by rewrite Z.eqb_refl. }
  simpl in *.
  replace (p + Z.of_nat (length s1 + S (S (length s2))))
    with (p + (Z.of_nat (length s1) + 2) + Z.of_nat (length s2)) by lia.
  rewrite (IH _ d); [|by replace (p + (Z.of_nat (length s1) + 2) - 1)
    with (p + Z.of_nat (length s1) + 1) by lia|lia..].
  rewrite <- app_assoc. do 2 f_equal. by rewrite Z.add_assoc.
Qed.

(** C36: In CRLF mode the decoder finds exactly the lines ended by CR LF, up to the
    first stray CR, in order and at the right places, and it terminates; but
    each view it reports is one character shorter than its line, and the view
    of an empty line has length 2^64 - 1. The byte at [end] must be readable:
    it is looked at when the range ends with CR. *)
Theorem LineBasedFrameDecoder_CRLF m p s t results :
  holds m p (s ++ [t]) → t ≠ LF → Z.of_nat (length s) + 2 < size_max →
  LineBasedFrameDecoder m p (p + Z.of_nat (length s)) CarriageReturnNewLine results
  = Done (results ++ map short_view (crlf_lines p 0 s)).
Proof.
  intros. cbn [LineBasedFrameDecoder]. eapply decode_CR_spec; [done..|]. unfold loop_fuel. lia.
Qed.

(** In the other mode a line already ends at a single LF, the character after
    it is skipped unread, and a CR LF pair stops the decoder; the views are one
    character short here too. *)
Theorem LineBasedFrameDecoder_NLNL m p prev s results :
  holds m (p - 1) (prev :: s) → Z.of_nat (length s) + 2 < size_max →
  LineBasedFrameDecoder m p (p + Z.of_nat (length s)) NewLineNewLine results
  = Done (results ++ map short_view (lf_lines prev p 0 s)).
Proof.
  intros. cbn [LineBasedFrameDecoder]. eapply decode_LF_spec; [done..|]. unfold loop_fuel. lia.
Qed.

(** The decoder reads outside its range: in CRLF mode when the last byte is a
    CR, in the other mode when the first one is a LF. Both reads leave the
    block when the range is all of it. *)
Theorem LineBasedFrameDecoder_overreads s results :
  Z.of_nat (length s) + 2 < size_max →
  (CR ∉ s → LineBasedFrameDecoder (init (s ++ [CR])) 0
              (Z.of_nat (length (s ++ [CR]))) CarriageReturnNewLine results
            = Undefined OutOfBounds)
  ∧ LineBasedFrameDecoder (init (LF :: s)) 0
      (Z.of_nat (length (LF :: s))) NewLineNewLine results = Undefined OutOfBounds.
Proof.
  intros Hmax. assert (∀ l, holds (init l) 0 l) as Hinit.
  { intros l. exists [], []. by rewrite app_nil_r. }
  split; [intros Hn|].
  - pose proof (find_128_spec _ _ CR _ (Hinit (s ++ [CR]))) as Hfind.
    rewrite first_index_terminator in Hfind by done. rewrite !Z.add_0_l in Hfind.
    simpl. unfold loop_fuel. cbn [decode_CR]. rewrite Hfind.
    change (Done ?x ≫= ?f) with (f x). cbn beta. rewrite length_app. simpl length.
    bool_lia. pose proof (Hinit (s ++ [CR])) as Hh. apply holds_app in Hh as [_ Hh].
    apply holds_read in Hh. rewrite Z.add_0_l in Hh. rewrite Hh. simpl.
    unfold mem_read. bool_lia. rewrite lookup_ge_None_2; [done|].
    rewrite length_init, length_app. simpl. lia.
  - pose proof (find_128_spec _ _ LF _ (Hinit (LF :: s))) as Hfind.
    rewrite !Z.add_0_l in Hfind.
    cbn [LineBasedFrameDecoder]. unfold loop_fuel. cbn [decode_LF].
    simpl length in *. simpl first_index in Hfind. rewrite Hfind.
    change (Done ?x ≫= ?f) with (f x). cbn beta. bool_lia. done.
Qed.

(** ** The repository's unit tests, and concrete runs *)
Definition sample_crlf : bytes :=
  $"first line foo" ++ CRLF ++ $"sec line barfasldkfjkl" ++ CRLF ++ $"Third" ++ [CR].
Definition sample_mixed : bytes :=
  $"first line foo" ++ [LF; LF] ++ $"inter line foo" ++ [CR; CR]
  ++ $"some_more lines " ++ [LF; LF] ++ $"sec line barfasldkfjkl" ++ CRLF
  ++ $"Third" ++ [CR].

(** The characters of a view. *)
Definition view_chars (m : list (option ascii)) (v : string_view) : res bytes :=
  l ← mem_slice m (view_begin v) (view_length v); cells_chars l.

Definition decode_sample (t : TerminatorType) (s : bytes) : res (list (res bytes)) :=
  let m := init (s ++ [chr 0]) in
  views ← LineBasedFrameDecoder m 0 (Z.of_nat (length s)) t [];
  Done (map (view_chars m) views).

Example decode_sample_crlf :
  decode_sample CarriageReturnNewLine sample_crlf
  = Done [Done $"first line fo"; Done $"sec line barfasldkfjk"].
Proof. vm_compute. reflexivity. Qed.

Lemma LineBasedFrameDecoder_CRLF_witness :
  LineBasedFrameDecoder (init (sample_crlf ++ [chr 0])) 0 46 CarriageReturnNewLine []
  = Done [mk_view 0 13; mk_view 16 21].
Proof.
  apply (LineBasedFrameDecoder_CRLF (init (sample_crlf ++ [chr 0])) 0 sample_crlf
           (chr 0) []).
  - exists [], []. split; reflexivity.
  - discriminate.
  - vm_compute. reflexivity.
Defined.

Lemma LineBasedFrameDecoder_NLNL_witness :
  LineBasedFrameDecoder (init (chr 0 :: $"ab" ++ [LF] ++ $"cd" ++ [LF] ++ $"e"))
    1 8 NewLineNewLine []
  = Done [mk_view 1 1; mk_view 5 0].
Proof.
  apply (LineBasedFrameDecoder_NLNL _ 1 (chr 0) ($"ab" ++ [LF] ++ $"cd" ++ [LF] ++ $"e") []).
  - exists [], []. split; reflexivity.
  - vm_compute. reflexivity.
Defined.

Lemma LineBasedFrameDecoder_overreads_witness :
  Z.of_nat (length $"abc") + 2 < size_max ∧
  LineBasedFrameDecoder (init ($"abc" ++ [CR])) 0 4 CarriageReturnNewLine []
  = Undefined OutOfBounds.
Proof.
  assert (Z.of_nat (length $"abc") + 2 < size_max) as H by reflexivity.
  split; [exact H|]. apply (proj1 (LineBasedFrameDecoder_overreads $"abc" [] H)).
  apply (bool_decide_unpack _). vm_compute. exact I.
Defined.
