(* ===== verification/HTTPConstants.v ===== *)
(** * HTTP enumerations and lexical helpers
    (blueth/http/HTTPConstants.hpp, blueth/http/HTTPParserCommon.hpp) *)
From Stdlib Require Import ZArith Lia Ascii String.
From stdpp Require Import base gmap sets strings list.
From S2P Require Import Prelude.
Local Open Scope Z_scope.
Local Open Scope blueth_scope.

(** ** Status codes

    An [enum class] over [int] holds any [int] after a [static_cast]: values
    without an enumerator are [UnlistedCode]. *)
Inductive HTTPResponseCodes :=
  | Continue
  | SwitchingProtocols
  | Ok
  | Created
  | Accepted
  | NonAuthoritativeInformation
  | NoContent
  | ResetContent
  | PartialContent
  | MultipleChoices
  | MovedPermanently
  | Found
  | SeeOther
  | NotModified
  | UseProxy
  | TemporaryRedirect
  | BadRequest
  | Unauthorized
  | PaymentRequired
  | Forbidden
  | NotFound
  | MethodNotAllowed
  | NotAcceptable
  | ProxyAuthenticationRequired
  | RequestTimeOut
  | Conflict
  | Gone
  | LengthRequired
  | PreconditionFailed
  | RequestEntityTooLarge
  | RequestURITooLarge
  | UnsupportedMediaType
  | RequestRangeNotSatisfiable
  | ExpectationFailed
  | InternalServerError
  | NotImplemented
  | BadGateway
  | ServiceUnavailable
  | GatewayTimeOut
  | HttpVersionNotSupported
  | InvalidHttpCode
  | UnlistedCode (code : Z).

#[export] Instance HTTPResponseCodes_eq_dec : EqDecision HTTPResponseCodes.
Proof. solve_decision. Defined.

(** [static_cast<int>(code)] and [static_cast<HTTPResponseCodes>(value)] *)
Definition code_to_int (c : HTTPResponseCodes) : Z :=
  match c with
  | Continue => 100
  | SwitchingProtocols => 101
  | Ok => 200
  | Created => 201
  | Accepted => 202
  | NonAuthoritativeInformation => 203
  | NoContent => 204
  | ResetContent => 205
  | PartialContent => 206
  | MultipleChoices => 300
  | MovedPermanently => 301
  | Found => 302
  | SeeOther => 303
  | NotModified => 304
  | UseProxy => 305
  | TemporaryRedirect => 307
  | BadRequest => 400
  | Unauthorized => 401
  | PaymentRequired => 402
  | Forbidden => 403
  | NotFound => 404
  | MethodNotAllowed => 405
  | NotAcceptable => 406
  | ProxyAuthenticationRequired => 407
  | RequestTimeOut => 408
  | Conflict => 409
  | Gone => 410
  | LengthRequired => 411
  | PreconditionFailed => 412
  | RequestEntityTooLarge => 413
  | RequestURITooLarge => 414
  | UnsupportedMediaType => 415
  | RequestRangeNotSatisfiable => 416
  | ExpectationFailed => 417
  | InternalServerError => 500
  | NotImplemented => 501
  | BadGateway => 502
  | ServiceUnavailable => 503
  | GatewayTimeOut => 504
  | HttpVersionNotSupported => 505
  | InvalidHttpCode => 506
  | UnlistedCode z => z
  end.

Definition code_of_int (z : Z) : HTTPResponseCodes :=
  match z with
  | 100 => Continue
  | 101 => SwitchingProtocols
  | 200 => Ok
  | 201 => Created
  | 202 => Accepted
  | 203 => NonAuthoritativeInformation
  | 204 => NoContent
  | 205 => ResetContent
  | 206 => PartialContent
  | 300 => MultipleChoices
  | 301 => MovedPermanently
  | 302 => Found
  | 303 => SeeOther
  | 304 => NotModified
  | 305 => UseProxy
  | 307 => TemporaryRedirect
  | 400 => BadRequest
  | 401 => Unauthorized
  | 402 => PaymentRequired
  | 403 => Forbidden
  | 404 => NotFound
  | 405 => MethodNotAllowed
  | 406 => NotAcceptable
  | 407 => ProxyAuthenticationRequired
  | 408 => RequestTimeOut
  | 409 => Conflict
  | 410 => Gone
  | 411 => LengthRequired
  | 412 => PreconditionFailed
  | 413 => RequestEntityTooLarge
  | 414 => RequestURITooLarge
  | 415 => UnsupportedMediaType
  | 416 => RequestRangeNotSatisfiable
  | 417 => ExpectationFailed
  | 500 => InternalServerError
  | 501 => NotImplemented
  | 502 => BadGateway
  | 503 => ServiceUnavailable
  | 504 => GatewayTimeOut
  | 505 => HttpVersionNotSupported
  | 506 => InvalidHttpCode
  | _ => UnlistedCode z
  end.

(** The reason phrases; the [default] case covers the unlisted values. *)
Definition string_from_response_code (response_code : HTTPResponseCodes)
  : option bytes :=
  match response_code with
  | Continue => Some $"Continue"
  | SwitchingProtocols => Some $"Switching Protocols"
  | Ok => Some $"OK"
  | Created => Some $"Created"
  | Accepted => Some $"Accepted"
  | NonAuthoritativeInformation => Some $"Non-Authoritative Information"
  | NoContent => Some $"No Content"
  | ResetContent => Some $"Reset Content"
  | PartialContent => Some $"Partial Content"
  | MultipleChoices => Some $"Multiple Choices"
  | MovedPermanently => Some $"Moved Permanently"
  | Found => Some $"Found"
  | SeeOther => Some $"See Other"
  | NotModified => Some $"Not Modified"
  | UseProxy => Some $"Use Proxy"
  | TemporaryRedirect => Some $"Temporary Redirect"
  | BadRequest => Some $"Bad Request"
  | Unauthorized => Some $"Unauthorized"
  | PaymentRequired => Some $"Payment Required"
  | Forbidden => Some $"Forbidden"
  | NotFound => Some $"Not Found"
  | MethodNotAllowed => Some $"Method Not Allowed"
  | NotAcceptable => Some $"Not Acceptable"
  | ProxyAuthenticationRequired => Some $"Proxy Authentication Required"
  | RequestTimeOut => Some $"Request Time-out"
  | Conflict => Some $"Conflict"
  | Gone => Some $"Gone"
  | LengthRequired => Some $"Length Required"
  | PreconditionFailed => Some $"Precondition Failed"
  | RequestEntityTooLarge => Some $"Request Entity Too Large"
  | RequestURITooLarge => Some $"Request-URI Too Large"
  | UnsupportedMediaType => Some $"Unsupported Media Type"
  | RequestRangeNotSatisfiable => Some $"Requested range not satisfiable"
  | ExpectationFailed => Some $"Expectation Failed"
  | InternalServerError => Some $"Internal Server Error"
  | NotImplemented => Some $"Not Implemented"
  | BadGateway => Some $"Bad Gateway"
  | ServiceUnavailable => Some $"Service Unavailable"
  | GatewayTimeOut => Some $"Gateway Time-out"
  | HttpVersionNotSupported => Some $"HTTP Version not supported"
  | InvalidHttpCode => None
  | UnlistedCode _ => None
  end.

(** ** The other enumerations *)
Inductive HTTPRequestType := Get | Post | Head | Put | Unsupported | Connect.
Inductive HTTPServerType := PlaintextServer | SSLServer.
Inductive HTTPVersion := HTTP1_1 | HTTP_2.

#[export] Instance HTTPRequestType_eq_dec : EqDecision HTTPRequestType.
Proof. solve_decision. Defined.
#[export] Instance HTTPVersion_eq_dec : EqDecision HTTPVersion.
Proof. solve_decision. Defined.

Inductive ParserState :=
  | ProtocolError
  | RequestLineBegin
  | RequestMethod
  | RequestResource
  | RequestProtocolH
  | RequestProtocolT1
  | RequestProtocolT2
  | RequestProtocolP
  | RequestProtocolSlash
  | RequestProtocolVersionMajor
  | RequestProtocolDot
  | RequestProtocolVersionMinor
  | RequestLineLF
  | HeaderName
  | HeaderValue
  | HeaderValueLF
  | HeaderEndLF
  | MessageBody
  | ParsingDone.

(** The response parser's states; the names shared with [ParserState] carry a prefix. *)
Inductive ResponseParserState :=
  | RProtocolError
  | ResponseProtocolH
  | ResponseProtocolT1
  | ResponseProtocolT2
  | ResponseProtocolP
  | ResponseProtocolSlash
  | ResponseProtocolVersionMajor
  | ResponseProtocolDot
  | ResponseProtocolVersionMinor
  | StatusCode
  | ResponseReasonPhrase
  | StatusLineLF
  | RHeaderName
  | RHeaderValue
  | RHeaderValueLF
  | RHeaderEndLF
  | ResponseMessageBody
  | RParsingDone.

#[export] Instance ParserState_eq_dec : EqDecision ParserState.
Proof. solve_decision. Defined.
#[export] Instance ResponseParserState_eq_dec : EqDecision ResponseParserState.
Proof. solve_decision. Defined.

#[export] Instance ParserState_equiv : Equiv ParserState := (=).
#[export] Instance ParserState_equivalence : Equivalence (≡@{ParserState}) := _.
#[export] Instance ResponseParserState_equiv : Equiv ResponseParserState := (=).
#[export] Instance ResponseParserState_equivalence :
  Equivalence (≡@{ResponseParserState}) := _.

(** ** Character classes *)
Definition is_separator (value : char) : bool :=
  bool_decide (value ∈ ($"()<>@,;:" ++ [chr 92; chr 34] ++ $"/[]?={}" ++ [SP; HT])).

Definition is_char (value : char) : bool := to_uint32 (char_val value) <=? 127.

Definition is_control (value : char) : bool :=
  ((0 <=? char_val value) && (char_val value <=? 31)) || (char_val value =? 127).

Definition is_token (value : char) : bool :=
  is_char value && negb (is_control value || is_separator value).

Definition is_text (value : char) : bool :=
  negb (is_control value)
  || (bool_decide (value = SP) || bool_decide (value = HT)).

(** ** [str3cmp] and [str4cmp]: comparison of the first bytes

    [ptr] and [cmp] are the [c_str()] of a string: its characters and a final
    NUL. The [&&] chain reads a byte only when the previous ones were equal. *)
Definition c_str_read (s : bytes) (i : nat) : res char :=
  mem_read (init (s ++ [chr 0])) (Z.of_nat i).

Definition byte_eq (ptr cmp : bytes) (i : nat) : res bool :=
  p ← c_str_read ptr i;
  c ← c_str_read cmp i;
  Done (bool_decide (p = c)).

Definition and_then (x y : res bool) : res bool :=
  b ← x; if (b : bool) then y else Done false.

Definition str3cmp (ptr cmp : bytes) : res bool :=
  and_then (byte_eq ptr cmp 0) (and_then (byte_eq ptr cmp 1) (byte_eq ptr cmp 2)).

Definition str4cmp (ptr cmp : bytes) : res bool :=
  and_then (byte_eq ptr cmp 0) (and_then (byte_eq ptr cmp 1)
    (and_then (byte_eq ptr cmp 2) (byte_eq ptr cmp 3))).

(** ** Facts about the character classes *)
Lemma all_chars (P : char → Prop) :
  Forall P (chr <$> seqZ 0 256) → ∀ c, P c.
Proof.
  intros HP c. assert (c = chr (byte_val c)) as Hc.
  { unfold chr, byte_val. by rewrite N2Z.id, ascii_N_embedding. }
  rewrite Hc. rewrite Forall_forall in HP. apply HP, list_elem_of_fmap.
  exists (byte_val c). split; [done|]. apply elem_of_seqZ. unfold byte_val.
  pose proof (N_ascii_bounded c). lia.
Qed.

(** Prove a decidable fact about a character by computing it on all 256. *)
Ltac by_all_chars :=
  match goal with |- ∀ c, @?P c => apply (all_chars P) end;
  apply (bool_decide_unpack _); vm_compute; exact I.

(** The token characters of RFC 7230 (tchar). *)
Definition tchar : bytes :=
  $"!#$%&'*+-.^_`|~0123456789ABCDEFGHIJKLMNOPQRSTUVWXYZabcdefghijklmnopqrstuvwxyz".

(** [is_token] accepts exactly the token characters of the HTTP grammar, and
    [is_text] exactly HT and the bytes from SP on except DEL; bytes above 127
    (negative [char]s) are text but not token. *)
Theorem character_classes_correct :
  (∀ c, is_token c = bool_decide (c ∈ tchar))
  ∧ (∀ c, is_text c = (bool_decide (c = HT)
                       || (32 <=? byte_val c) && negb (byte_val c =? 127))).
Proof. split; by_all_chars. Qed.

(** What the parsers use of a token character. *)
Lemma token_facts c :
  is_token c = true → c ≠ SP ∧ c ≠ CR ∧ c ≠ LF ∧ c ≠ chr 58 ∧ c ≠ chr 0.
Proof. revert c. by_all_chars. Qed.

(** The digits, as the parsers' grammars use them. *)
Definition is_digit (c : char) : bool := (48 <=? char_val c) && (char_val c <=? 57).

Lemma text_facts c : is_text c = true → c ≠ CR.
Proof. revert c. by_all_chars. Qed.

(** ** [str3cmp] / [str4cmp] test a prefix *)
Lemma c_str_read_lt s i c : s !! i = Some c → c_str_read s i = Done c.
Proof.
  intros Hi. unfold c_str_read, mem_read. bool_lia. rewrite Nat2Z.id, init_app.
  unfold init. rewrite lookup_app_l by (rewrite length_fmap; by eapply lookup_lt_Some).
  by rewrite list_lookup_fmap, Hi.
Qed.

Lemma c_str_read_end s : c_str_read s (length s) = Done (chr 0).
Proof.
  unfold c_str_read, mem_read. bool_lia. rewrite Nat2Z.id, init_app.
  rewrite lookup_app_r by (by rewrite length_init).
  by rewrite length_init, Nat.sub_diag.
Qed.

(** Is [p] a prefix of [s]? *)
Fixpoint starts_with (p s : bytes) : bool :=
  match p, s with
  | [], _ => true
  | _ :: _, [] => false
  | c :: p, d :: s => bool_decide (d = c) && starts_with p s
  end.

Lemma starts_with_spec p s : starts_with p s = true ↔ p `prefix_of` s.
Proof.
  revert s. induction p as [|c p IH]; intros [|d s]; simpl.
  - split; [intros; apply prefix_nil|done].
  - split; [intros; apply prefix_nil|done].
  - split; [done|]. intros ?%prefix_nil_inv. done.
  - rewrite andb_true_iff, bool_decide_eq_true, IH. split.
    + intros [-> ?]. by apply prefix_cons.
    + intros H. apply prefix_cons_inv_1 in H as ?. apply prefix_cons_inv_2 in H. done.
Qed.

Lemma byte_eq_shift c s d p i :
  byte_eq (c :: s) (d :: p) (S i) = byte_eq s p i.
Proof.
  unfold byte_eq, c_str_read. simpl. rewrite !init_cons.
  assert (∀ (x : option ascii) l, mem_read (x :: l) (Z.of_nat (S i)) = mem_read l (Z.of_nat i))
    as Hshift.
  { intros x l. unfold mem_read. bool_lia. by rewrite !Nat2Z.id. }
  by rewrite !Hshift.
Qed.

Lemma byte_eq_head c s d p : byte_eq (c :: s) (d :: p) 0 = Done (bool_decide (c = d)).
Proof. done. Qed.

Lemma byte_eq_nil d p : byte_eq [] (d :: p) 0 = Done (bool_decide (chr 0 = d)).
Proof. done. Qed.

Lemma str3cmp_prefix s a b c :
  a ≠ chr 0 → b ≠ chr 0 → c ≠ chr 0 →
  str3cmp s [a; b; c] = Done (starts_with [a; b; c] s).
Proof.
  intros Ha Hb Hc. unfold str3cmp.
  destruct s as [|x s]; [rewrite byte_eq_nil; by rewrite bool_decide_eq_false_2|].
  rewrite byte_eq_head, !byte_eq_shift. simpl. case_bool_decide; [|done]. simpl.
  destruct s as [|y s]; [rewrite byte_eq_nil; by rewrite bool_decide_eq_false_2|].
  rewrite byte_eq_head, !byte_eq_shift. simpl. case_bool_decide; [|done]. simpl.
  destruct s as [|z s]; [rewrite byte_eq_nil; by rewrite bool_decide_eq_false_2|].
  rewrite byte_eq_head. by rewrite andb_true_r.
Qed.

Lemma str4cmp_prefix s a b c d :
  a ≠ chr 0 → b ≠ chr 0 → c ≠ chr 0 → d ≠ chr 0 →
  str4cmp s [a; b; c; d] = Done (starts_with [a; b; c; d] s).
Proof.
  intros Ha Hb Hc Hd.
  replace (str4cmp s [a; b; c; d]) with
    (and_then (byte_eq s [a; b; c; d] 0)
       match s with [] => Done false | _ :: s => str3cmp s [b; c; d] end).
  - destruct s as [|x s]; [rewrite byte_eq_nil; by rewrite bool_decide_eq_false_2|].
    rewrite byte_eq_head. simpl. case_bool_decide; [|done]. by apply str3cmp_prefix.
  - unfold str4cmp, str3cmp.
    destruct s as [|x s]; [rewrite byte_eq_nil; by rewrite bool_decide_eq_false_2|].
    by rewrite !byte_eq_shift.
Qed.

(** ** Status codes, numbers and phrases *)
Lemma code_to_int_of_int z : code_to_int (code_of_int z) = z.
Proof. unfold code_of_int. by repeat case_match. Qed.

Definition named (c : HTTPResponseCodes) : bool :=
  match c with UnlistedCode _ => false | _ => true end.

Lemma code_of_int_to_int c : named c = true → code_of_int (code_to_int c) = c.
Proof. by destruct c. Qed.

(** The code of a phrase, by search. *)
Definition code_of_phrase (s : bytes) : option HTTPResponseCodes :=
  snd <$> list_find (λ c, string_from_response_code c = Some s)
            (code_of_int <$> seqZ 100 407).

Lemma code_of_phrase_spec c s :
  string_from_response_code c = Some s → code_of_phrase s = Some c.
Proof. destruct c; simpl; intros H; simplify_eq; vm_compute; reflexivity. Qed.

(** [static_cast] to [int] and back is the identity on the enumerators and
    loses nothing on other values; every enumerator but [InvalidHttpCode] has
    a reason phrase, and no two codes share one. *)
Theorem response_codes_correct :
  (∀ z, code_to_int (code_of_int z) = z)
  ∧ (∀ c, named c = true → code_of_int (code_to_int c) = c)
  ∧ (∀ c, is_Some (string_from_response_code c)
          ↔ named c = true ∧ c ≠ InvalidHttpCode)
  ∧ (∀ c1 c2, is_Some (string_from_response_code c1) →
       string_from_response_code c1 = string_from_response_code c2 → c1 = c2).
Proof.
  split_and!; [apply code_to_int_of_int|apply code_of_int_to_int| |].
  - intros c. split; [intros [s Hs]; by destruct c|].
    intros [Hn Hc]. destruct c; simpl; done || eauto.
  - intros c1 c2 [s Hs] Heq. rewrite Hs in Heq. symmetry in Heq.
    apply code_of_phrase_spec in Hs, Heq. congruence.
Qed.
