(* ===== verification/Base64.v ===== *)
(** * [base64] (blueth/utils/Base64.hpp)

    The encoder and the decoder behind the proxy's credentials. The encoder
    reads a string; the decoder reads a block of memory of a given length, so
    that a read past it shows. *)
From Stdlib Require Import ZArith Lia Ascii String.
From stdpp Require Import base gmap sets strings list.
From S2P Require Import Prelude.
Local Open Scope Z_scope.
Local Open Scope blueth_scope.

(** ** Encoding *)
Definition base64_table : bytes :=
  $"ABCDEFGHIJKLMNOPQRSTUVWXYZabcdefghijklmnopqrstuvwxyz0123456789+/".

(** [base64_table[i]]; every index is below 64. *)
Definition table_at (i : Z) : char := nth (Z.to_nat i) base64_table (chr 0).

(** The loop and the last block. The output string has its final size from the
    start and is written from left to right. *)
Fixpoint encode_blocks (src : bytes) : bytes :=
  match src with
  | [] => []
  | [a] =>
      let a := byte_val a in
      [table_at (Z.shiftr a 2); table_at (Z.shiftl (Z.land a 3) 4); chr 61; chr 61]
  | [a; b] =>
      let a := byte_val a in let b := byte_val b in
      [table_at (Z.shiftr a 2);
       table_at (Z.lor (Z.shiftl (Z.land a 3) 4) (Z.shiftr b 4));
       table_at (Z.shiftl (Z.land b 15) 2); chr 61]
  | a :: b :: c :: src =>
      let a := byte_val a in let b := byte_val b in let c := byte_val c in
      table_at (Z.shiftr a 2)
      :: table_at (Z.lor (Z.shiftl (Z.land a 3) 4) (Z.shiftr b 4))
      :: table_at (Z.lor (Z.shiftl (Z.land b 15) 2) (Z.shiftr c 6))
      :: table_at (Z.land c 63)
      :: encode_blocks src
  end.

Definition base64_encode (src : bytes) : bytes :=
  let len := Z.of_nat (length src) in
  let olen := size_t (4 * ((len + 2) / 3)) in
  if olen <? len then [] else encode_blocks src.

(** ** Decoding *)

(** The initialiser of the table: the values of the characters up to 'z'; the
    other entries are 0. *)
Definition B64index_init : list Z :=
  replicate 43 0 ++ [62; 63; 62; 62; 63] ++ seqZ 52 10 ++ replicate 7 0
  ++ seqZ 0 26 ++ replicate 4 0 ++ [63] ++ [0] ++ seqZ 26 26.

Definition B64index (c : char) : Z := nth (Z.to_nat (byte_val c)) B64index_init 0.

(** [B64index[p[i]]] *)
Definition index_at (p : list (option ascii)) (i : Z) : res Z :=
  c ← mem_read p i; Done (B64index c).

(** An [int] stored in a [char]. *)
Definition to_char (n : Z) : char := chr (n mod 256).

(** The loop over the full blocks from [i] to [L]. *)
Fixpoint decode_blocks (fuel : nat) (p : list (option ascii)) (i L : Z) : res bytes :=
  match fuel with
  | O => OutOfFuel
  | S fuel =>
      if i <? L then
        b0 ← index_at p i;
        b1 ← index_at p (i + 1);
        b2 ← index_at p (i + 2);
        b3 ← index_at p (i + 3);
        let n := Z.lor (Z.lor (Z.lor (Z.shiftl b0 18) (Z.shiftl b1 12))
                              (Z.shiftl b2 6)) b3 in
        str ← decode_blocks fuel p (i + 4) L;
        Done (to_char (Z.shiftr n 16) :: to_char (Z.land (Z.shiftr n 8) 255)
              :: to_char (Z.land n 255) :: str)
      else Done []
  end.

Definition b64decode (p : list (option ascii)) (len : Z) : res bytes :=
  pad ← (if 0 <? len then
           if negb (len mod 4 =? 0) then Done true
           else c ← mem_read p (len - 1); Done (bool_decide (c = chr 61))
         else Done false);
  let L := size_t (((len + 3) / 4 - (if pad : bool then 1 else 0)) * 4) in
  str ← decode_blocks (S (Z.to_nat len)) p 0 L;
  if (pad : bool) then
    b0 ← index_at p L;
    b1 ← index_at p (L + 1);
    let n := Z.lor (Z.shiftl b0 18) (Z.shiftl b1 12) in
    let str := str ++ [to_char (Z.shiftr n 16)] in
    if L + 2 <? len then
      c ← mem_read p (L + 2);
      if bool_decide (c = chr 61) then Done str
      else
        let n := Z.lor n (Z.shiftl (B64index c) 6) in
        Done (str ++ [to_char (Z.land (Z.shiftr n 8) 255)])
    else Done str
  else Done str.

(** ** Facts about the tables *)
Lemma table_at_facts i :
  0 <= i < 64 →
  B64index (table_at i) = i ∧ table_at i ≠ chr 61 ∧ table_at i ∈ base64_table.
Proof.
  intros Hi. assert (Forall (λ i, B64index (table_at i) = i ∧ table_at i ≠ chr 61
    ∧ table_at i ∈ base64_table) (seqZ 0 64)) as Hall.
  { apply (bool_decide_unpack _). vm_compute. exact I. }
  rewrite Forall_forall in Hall. apply Hall, elem_of_seqZ. lia.
Qed.

Lemma byte_val_range c : 0 <= byte_val c < 256.
Proof. unfold byte_val. pose proof (N_ascii_bounded c). lia. Qed.

Lemma to_char_byte_val c n : n mod 256 = byte_val c → to_char n = c.
Proof.
  intros Hn. unfold to_char, chr, byte_val in *. rewrite Hn, N2Z.id.
  apply ascii_N_embedding.
Qed.

(** ** Bit operations as arithmetic *)
Lemma lor_shiftl y x k :
  0 <= k → 0 <= x < 2 ^ k → Z.lor (Z.shiftl y k) x = y * 2 ^ k + x.
Proof.
  intros Hk Hx. assert (Z.land (Z.shiftl y k) x = 0) as H0.
  { apply Z.bits_inj'. intros i Hi. rewrite Z.land_spec, Z.bits_0.
    destruct (Z.ltb_spec i k); [by rewrite Z.shiftl_spec_low|].
    rewrite <- (Z.mod_small x (2 ^ k)) by lia.
    by rewrite Z.mod_pow2_bits_high, andb_false_r by lia. }
  rewrite <- Z.shiftl_mul_pow2, Z.add_nocarry_lxor by done. symmetry.
  by apply Z.lxor_lor.
Qed.

Lemma land_3 a : Z.land a 3 = a mod 4.
Proof. apply (Z.land_ones a 2). done. Qed.
Lemma land_15 a : Z.land a 15 = a mod 16.
Proof. apply (Z.land_ones a 4). done. Qed.
Lemma land_63 a : Z.land a 63 = a mod 64.
Proof. apply (Z.land_ones a 6). done. Qed.
Lemma land_255 a : Z.land a 255 = a mod 256.
Proof. apply (Z.land_ones a 8). done. Qed.
Create Rewrite HintDb b64.
#[local] Hint Rewrite land_3 land_15 land_63 land_255 Z.shiftr_div_pow2 using lia : b64.

Ltac euclid := Z.to_euclidean_division_equations; lia.

(** The six-bit groups of a block. *)
Lemma group2 a b : 0 <= b < 256 →
  Z.lor (Z.shiftl (Z.land a 3) 4) (Z.shiftr b 4) = (a mod 4) * 16 + b / 16.
Proof.
  intros Hb. rewrite lor_shiftl; autorewrite with b64; [done|done|].
  change (2 ^ 4) with 16. euclid.
Qed.

Lemma group3 b c : 0 <= c < 256 →
  Z.lor (Z.shiftl (Z.land b 15) 2) (Z.shiftr c 6) = (b mod 16) * 4 + c / 64.
Proof.
  intros Hb. rewrite lor_shiftl; autorewrite with b64; [done|done|].
  change (2 ^ 6) with 64. change (2 ^ 2) with 4. euclid.
Qed.

Lemma join2 x y : 0 <= y < 64 →
  Z.lor (Z.shiftl x 18) (Z.shiftl y 12) = x * 262144 + y * 4096.
Proof.
  intros Hy. rewrite (Z.shiftl_mul_pow2 y), lor_shiftl by (done || lia). done.
Qed.

Lemma join3 x y z : 0 <= y < 64 → 0 <= z < 64 →
  Z.lor (Z.lor (Z.shiftl x 18) (Z.shiftl y 12)) (Z.shiftl z 6)
  = x * 262144 + y * 4096 + z * 64.
Proof.
  intros Hy Hz. rewrite join2 by done.
  replace (x * 262144 + y * 4096) with (Z.shiftl (x * 64 + y) 12)
    by (rewrite Z.shiftl_mul_pow2 by done; lia).
  rewrite (Z.shiftl_mul_pow2 z), lor_shiftl, ?Z.shiftl_mul_pow2 by (done || lia). lia.
Qed.

Lemma join4 x y z w : 0 <= y < 64 → 0 <= z < 64 → 0 <= w < 64 →
  Z.lor (Z.lor (Z.lor (Z.shiftl x 18) (Z.shiftl y 12)) (Z.shiftl z 6)) w
  = x * 262144 + y * 4096 + z * 64 + w.
Proof.
  intros Hy Hz Hw. rewrite join3 by done.
  replace (x * 262144 + y * 4096 + z * 64) with (Z.shiftl (x * 4096 + y * 64 + z) 6)
    by (rewrite Z.shiftl_mul_pow2 by done; lia).
  rewrite lor_shiftl, ?Z.shiftl_mul_pow2 by (done || lia). lia.
Qed.

(** ** The round trip *)

(** The decoder reads an encoded block back. *)
Lemma index_at_table p i k rest :
  holds p i (table_at k :: rest) → 0 <= k < 64 → index_at p i = Done k.
Proof.
  intros Hh Hk. unfold index_at. rewrite (holds_read _ _ _ _ Hh). simpl.
  by destruct (table_at_facts k) as [-> _].
Qed.

Lemma split_blocks (src : bytes) :
  ∃ full last n, src = full ++ last ∧ length full = (3 * n)%nat ∧ (length last < 3)%nat.
Proof.
  exists (take (3 * (length src / 3)) src), (drop (3 * (length src / 3)) src),
    (length src / 3)%nat.
  pose proof (Nat.div_mod_eq (length src) 3). pose proof (Nat.mod_upper_bound (length src) 3).
  split_and!; [by rewrite take_drop|rewrite length_take; lia|rewrite length_drop; lia].
Qed.

(** Induction on whole blocks. *)
Lemma blocks_ind (P : nat → bytes → Prop) :
  P 0%nat [] → (∀ n a b c s, P n s → P (S n) (a :: b :: c :: s)) →
  ∀ n s, length s = (3 * n)%nat → P n s.
Proof.
  intros H0 HS n. induction n as [|n IH]; intros s Hs; [by destruct s|].
  destruct s as [|a [|b [|c s]]]; simpl in Hs; try lia. apply HS, IH. lia.
Qed.

Lemma encode_blocks_app n full last :
  length full = (3 * n)%nat →
  encode_blocks (full ++ last) = encode_blocks full ++ encode_blocks last.
Proof.
  revert n full. apply blocks_ind; [done|]. intros n a b c s IH. simpl. by rewrite IH.
Qed.

Lemma length_encode_full n full :
  length full = (3 * n)%nat → length (encode_blocks full) = (4 * n)%nat.
Proof. revert n full. apply blocks_ind; [done|]. intros n a b c s IH. simpl. lia. Qed.

(** The bytes of a block from its groups. *)
Lemma decode_block a b c :
  let x := byte_val a in let y := byte_val b in let z := byte_val c in
  let n := x / 4 * 262144 + (x mod 4 * 16 + y / 16) * 4096
           + (y mod 16 * 4 + z / 64) * 64 + z mod 64 in
  to_char (n / 65536) = a ∧ to_char (n / 256 mod 256) = b ∧ to_char (n mod 256) = c.
Proof.
  pose proof (byte_val_range a). pose proof (byte_val_range b). pose proof (byte_val_range c).
  simpl. split_and!; apply to_char_byte_val; euclid.
Qed.

Lemma decode_blocks_full p fuel i n full :
  length full = (3 * n)%nat → holds p i (encode_blocks full) → (n < fuel)%nat →
  decode_blocks fuel p i (i + 4 * Z.of_nat n) = Done full.
Proof.
  intros Hl. revert n full Hl fuel i.
  apply (blocks_ind (λ n full, ∀ fuel i, holds p i (encode_blocks full) → (n < fuel)%nat →
    decode_blocks fuel p i (i + 4 * Z.of_nat n) = Done full)).
  { intros [|fuel] i _ Hf; [lia|]. simpl. by bool_lia. }
  intros n a b c s IH [|fuel] i Hh Hf; [lia|].
  pose proof (byte_val_range a). pose proof (byte_val_range b). pose proof (byte_val_range c).
  cbn [encode_blocks] in Hh. rewrite group2, group3 in Hh by done.
  autorewrite with b64 in Hh. change (2 ^ 2) with 4 in Hh.
  cbn [decode_blocks]. bool_lia.
  rewrite (index_at_table p i _ _ Hh) by euclid. apply holds_cons in Hh as [_ Hh].
  rewrite Done_bind, (index_at_table p (i + 1) _ _ Hh) by euclid.
  apply holds_cons in Hh as [_ Hh]. rewrite <- Z.add_assoc in Hh.
  rewrite Done_bind, (index_at_table p (i + 2) _ _ Hh) by euclid.
  apply holds_cons in Hh as [_ Hh]. rewrite <- Z.add_assoc in Hh.
  rewrite Done_bind, (index_at_table p (i + 3) _ _ Hh) by euclid.
  apply holds_cons in Hh as [_ Hh]. rewrite <- Z.add_assoc in Hh.
  rewrite Done_bind.
  replace (i + 4 * Z.of_nat (S n)) with (i + 4 + 4 * Z.of_nat n) by lia.
  rewrite IH by (done || lia). rewrite Done_bind, join4 by euclid.
  autorewrite with b64. change (2 ^ 16) with 65536. change (2 ^ 8) with 256.
  destruct (decode_block a b c) as (Ha&Hb&Hc).
  by rewrite Ha, Hb, Hc.
Qed.

(** The last bytes from their groups. *)
Lemma decode_last a b :
  let x := byte_val a in let y := byte_val b in
  to_char ((x / 4 * 262144 + x mod 4 * 16 * 4096) / 65536) = a
  ∧ to_char ((x / 4 * 262144 + (x mod 4 * 16 + y / 16) * 4096) / 65536) = a
  ∧ to_char ((x / 4 * 262144 + (x mod 4 * 16 + y / 16) * 4096 + y mod 16 * 4 * 64)
             / 256 mod 256) = b.
Proof.
  pose proof (byte_val_range a). pose proof (byte_val_range b).
  simpl. split_and!; apply to_char_byte_val; euclid.
Qed.

(** The read that decides whether the last block is padded. *)
Lemma last_char_read p i s c :
  holds p i (s ++ [c]) → mem_read p (i + Z.of_nat (length s)) = Done c.
Proof. intros Hh. apply holds_app in Hh as [_ Hh]. by eapply holds_read. Qed.

Lemma encode_blocks_last n full :
  length full = (3 * S n)%nat → ∃ s k, encode_blocks full = s ++ [table_at k] ∧ 0 <= k < 64.
Proof.
  revert full. induction n as [|n IH]; intros full Hl.
  - destruct full as [|a [|b [|c [|]]]]; simpl in Hl; try lia.
    pose proof (byte_val_range c). eexists [_; _; _], _. split; [done|].
    autorewrite with b64. euclid.
  - destruct full as [|a [|b [|c full]]]; simpl in Hl; try lia.
    destruct (IH full) as (s&k&Hs&Hk); [lia|]. eexists (_ :: _ :: _ :: _ :: s), k.
    cbn [encode_blocks]. by rewrite Hs.
Qed.

(** An input without padding. *)
Lemma b64decode_full p n full :
  length full = (3 * n)%nat → Z.of_nat n < 2 ^ 60 → holds p 0 (encode_blocks full) →
  b64decode p (4 * Z.of_nat n) = Done full.
Proof.
  intros Hl Hn Hh.
  assert ((if 0 <? 4 * Z.of_nat n then
             if negb (4 * Z.of_nat n mod 4 =? 0) then Done true
             else c ← mem_read p (4 * Z.of_nat n - 1); Done (bool_decide (c = chr 61))
           else Done false) = Done false) as Hpad.
  { destruct n as [|n]; [done|]. bool_lia.
    replace (4 * Z.of_nat (S n) mod 4) with 0 by euclid. simpl.
    destruct (encode_blocks_last n full) as (s&k&Hs&Hk); [done|].
    pose proof (length_encode_full _ _ Hl) as Hlen. rewrite Hs in Hh, Hlen.
    apply last_char_read in Hh. rewrite length_app in Hlen. simpl in Hlen.
    replace (0 + Z.of_nat (length s)) with (4 * Z.of_nat (S n) - 1) in Hh by lia.
    rewrite Hh. destruct (table_at_facts k Hk) as (_&?&_).
    rewrite Done_bind. by rewrite bool_decide_eq_false_2. }
  unfold b64decode. rewrite Hpad, Done_bind, Z.sub_0_r.
  replace ((4 * Z.of_nat n + 3) / 4 * 4) with (0 + 4 * Z.of_nat n) by euclid.
  rewrite size_t_small by (unfold size_max; lia).
  by rewrite (decode_blocks_full _ _ _ n full) by (done || lia).
Qed.

(** An input with a padded last block. *)
Lemma b64decode_padded p n full g0 g1 c :
  length full = (3 * n)%nat → Z.of_nat n < 2 ^ 60 →
  0 <= g0 < 64 → 0 <= g1 < 64 →
  holds p 0 (encode_blocks full ++ [table_at g0; table_at g1; c; chr 61]) →
  b64decode p (4 * Z.of_nat n + 4)
  = Done (full ++ to_char (Z.shiftr (g0 * 262144 + g1 * 4096) 16)
          :: (if bool_decide (c = chr 61) then []
              else [to_char (Z.land (Z.shiftr (Z.lor (Z.lor (Z.shiftl g0 18)
                      (Z.shiftl g1 12)) (Z.shiftl (B64index c) 6)) 8) 255)])).
Proof.
  intros Hl Hn H0 H1 Hh. pose proof (length_encode_full _ _ Hl) as Hlen.
  apply holds_app in Hh as [Hfull Hh]. rewrite Hlen in Hh.
  replace (0 + Z.of_nat (4 * n)) with (4 * Z.of_nat n) in Hh by lia.
  assert (size_t (((4 * Z.of_nat n + 4 + 3) / 4 - 1) * 4) = 0 + 4 * Z.of_nat n) as HL.
  { rewrite size_t_small; [euclid|]. unfold size_max. euclid. }
  pose proof (holds_read _ _ _ _ Hh) as _. pose proof (index_at_table _ _ _ _ Hh H0) as R0.
  apply holds_cons in Hh as [_ Hh]. pose proof (index_at_table _ _ _ _ Hh H1) as R1.
  apply holds_cons in Hh as [_ Hh]. rewrite <- Z.add_assoc in Hh.
  apply holds_cons in Hh as [R2 Hh]. rewrite <- Z.add_assoc in Hh.
  apply holds_read in Hh as R3. change (1 + 1) with 2 in *. change (2 + 1) with 3 in *.
  unfold b64decode. replace ((4 * Z.of_nat n + 4) mod 4) with 0 by euclid.
  replace (0 <? 4 * Z.of_nat n + 4) with true by (symmetry; apply Z.ltb_lt; lia).
  replace (4 * Z.of_nat n + 4 - 1) with (4 * Z.of_nat n + 3) by lia.
  cbn [negb Z.eqb]. rewrite R3, !Done_bind, bool_decide_eq_true_2 by done.
  rewrite HL, (decode_blocks_full _ _ _ n full), Done_bind by (done || lia).
  rewrite Z.add_0_l, R0, Done_bind, R1, Done_bind, R2, Done_bind. bool_lia.
  rewrite join2 by done. case_bool_decide; [done|]. by rewrite <- app_assoc.
Qed.

(** The length computed for the output does not wrap around. *)
Lemma encode_no_overflow src :
  Z.of_nat (length src) < 2 ^ 60 → base64_encode src = encode_blocks src.
Proof.
  intros Hmax. unfold base64_encode.
  rewrite size_t_small by (unfold size_max; split; [euclid|]; apply Z.le_lt_trans
    with (4 * (2 ^ 60 + 2)); [euclid|lia]).
  replace (_ <? _) with false; [done|]. symmetry. apply Z.ltb_ge. euclid.
Qed.

Lemma base64_decode_encode src :
  Z.of_nat (length src) < 2 ^ 60 →
  b64decode (init (base64_encode src)) (Z.of_nat (length (base64_encode src))) = Done src.
Proof.
  intros Hmax. destruct (split_blocks src) as (full&last&n&->&Hfull&Hlast).
  rewrite encode_no_overflow, (encode_blocks_app n) by done.
  pose proof (length_encode_full _ _ Hfull) as Hlen.
  rewrite length_app in Hmax. rewrite length_app, Hlen.
  assert (Z.of_nat n < 2 ^ 60) as Hn by lia.
  pose proof (holds_intro [] (encode_blocks full ++ encode_blocks last) []) as Hh.
  rewrite app_nil_l, app_nil_r in Hh. change (Z.of_nat (length (@nil (option ascii)))) with 0 in Hh.
  destruct last as [|a [|b [|]]]; simpl in Hlast; try lia.
  - rewrite !app_nil_r in *. 
    replace (Z.of_nat (4 * n + length (encode_blocks []))) with (4 * Z.of_nat n)
      by (simpl; lia).
    by apply b64decode_full.
  - pose proof (byte_val_range a).
    replace (Z.of_nat (4 * n + length (encode_blocks [a]))) with (4 * Z.of_nat n + 4)
      by (simpl; lia).
    cbn [encode_blocks] in Hh |- *.
    rewrite Z.shiftl_mul_pow2 in Hh |- * by done. autorewrite with b64 in Hh |- *.
    change (2 ^ 2) with 4 in *. change (2 ^ 4) with 16 in *.
    rewrite (b64decode_padded _ n full (byte_val a / 4) (byte_val a mod 4 * 16) (chr 61))
      by (done || euclid).
    rewrite bool_decide_eq_true_2 by done. autorewrite with b64.
    change (2 ^ 16) with 65536. by destruct (decode_last a a) as (->&_).
  - pose proof (byte_val_range a). pose proof (byte_val_range b).
    replace (Z.of_nat (4 * n + length (encode_blocks [a; b]))) with (4 * Z.of_nat n + 4)
      by (simpl; lia).
    cbn [encode_blocks] in Hh |- *.
    rewrite group2, (Z.shiftl_mul_pow2 (Z.land (byte_val b) 15)) in Hh |- * by done.
    autorewrite with b64 in Hh |- *.
    change (2 ^ 2) with 4 in *.
    destruct (table_at_facts (byte_val b mod 16 * 4)) as (Hi&Hne&_); [euclid|].
    rewrite (b64decode_padded _ n full (byte_val a / 4)
      (byte_val a mod 4 * 16 + byte_val b / 16) (table_at (byte_val b mod 16 * 4)))
      by (done || euclid).
    rewrite bool_decide_eq_false_2, Hi, join3 by (done || euclid). autorewrite with b64.
    change (2 ^ 16) with 65536. change (2 ^ 8) with 256.
    destruct (decode_last a b) as (_&->&Hb). by rewrite Hb.
Qed.

(** C40: Decoding what was encoded gives the bytes back. *)
Theorem base64_roundtrip src :
  Z.of_nat (length src) < 2 ^ 60 →
  b64decode (init (base64_encode src)) (Z.of_nat (length (base64_encode src))) = Done src.
Proof. apply base64_decode_encode. Qed.

(** Reads within the input succeed. *)
Lemma index_at_init p i :
  0 <= i < Z.of_nat (length p) → ∃ z, index_at (init p) i = Done z.
Proof.
  intros Hi. unfold index_at, mem_read. bool_lia. unfold init. rewrite list_lookup_fmap.
  destruct (lookup_lt_is_Some_2 p (Z.to_nat i)) as [c ->]; [lia|]. simpl. eauto.
Qed.

Lemma decode_blocks_init p n fuel i :
  0 <= i → i + 4 * Z.of_nat n <= Z.of_nat (length p) → (n < fuel)%nat →
  ∃ str, decode_blocks fuel (init p) i (i + 4 * Z.of_nat n) = Done str.
Proof.
  revert fuel i. induction n as [|n IH]; intros [|fuel] i Hi Hl Hf; try lia.
  { eexists. simpl. by bool_lia. }
  cbn [decode_blocks]. bool_lia.
  destruct (index_at_init p i) as [? ->]; [lia|].
  destruct (index_at_init p (i + 1)) as [? ->]; [lia|].
  destruct (index_at_init p (i + 2)) as [? ->]; [lia|].
  destruct (index_at_init p (i + 3)) as [? ->]; [lia|]. rewrite !Done_bind.
  replace (i + 4 * Z.of_nat (S n)) with (i + 4 + 4 * Z.of_nat n) by lia.
  destruct (IH fuel (i + 4)) as [str ->]; [lia..|]. eauto.
Qed.

(** A length that is one more than a multiple of four: the decoder reads the
    byte after the end of its input. *)
Theorem b64decode_overreads p :
  Z.of_nat (length p) mod 4 = 1 → Z.of_nat (length p) < 2 ^ 60 →
  b64decode (init p) (Z.of_nat (length p)) = Undefined OutOfBounds.
Proof.
  intros Hmod Hmax. set (n := Z.to_nat (Z.of_nat (length p) / 4)).
  assert (Z.of_nat (length p) = 4 * Z.of_nat n + 1) as Hn by (unfold n; euclid).
  unfold b64decode. rewrite Hmod.
  replace (0 <? Z.of_nat (length p)) with true by (symmetry; apply Z.ltb_lt; lia).
  cbn [negb Z.eqb]. rewrite Done_bind.
  replace (size_t _) with (0 + 4 * Z.of_nat n).
  2:{ rewrite size_t_small; rewrite Hn; [euclid|]. unfold size_max. euclid. }
  destruct (decode_blocks_init p n (S (Z.to_nat (Z.of_nat (length p)))) 0) as [str ->];
    [lia..|].
  destruct (index_at_init p (0 + 4 * Z.of_nat n)) as [b0 Hb0]; [lia|].
  rewrite Done_bind, Hb0, Done_bind. unfold index_at at 1, mem_read. bool_lia.
  by rewrite (lookup_ge_None_2 (init p)) by (rewrite length_init; lia).
Qed.

(** ** Concrete runs *)
Lemma base64_roundtrip_witness :
  b64decode (init $"dXNlcjpwYXNz") 12 = Done $"user:pass".
Proof. apply (base64_roundtrip $"user:pass"). reflexivity. Defined.

Lemma b64decode_overreads_witness :
  b64decode (init $"dXNlc") 5 = Undefined OutOfBounds.
Proof. apply (b64decode_overreads $"dXNlc"); reflexivity. Defined.
