(* ===== verification/HTTPHeaders.v ===== *)
(** * [http::HTTPHeaders] (blueth/http/HTTPHeaders.hpp)

    The header table: a wrapper around [std::unordered_map]. The order in
    which such a map is iterated is unspecified; it is the parameter
    [hash_order], of which only its law is used. *)
From Stdlib Require Import ZArith Lia Ascii String.
From stdpp Require Import base gmap sets strings list.
From S2P Require Import Prelude.
Local Open Scope Z_scope.
Local Open Scope blueth_scope.

(** The iteration order of [std::unordered_map]: some enumeration of it. *)
Class HashOrder := {
  hash_order : gmap (list ascii) (list ascii) → list (list ascii * list ascii);
  hash_order_perm : ∀ m, hash_order m ≡ₚ map_to_list m
}.

Record HTTPHeaders := mkHTTPHeaders {
  http_headers_ : gmap (list ascii) (list ascii)
}.

Definition empty_headers : HTTPHeaders := mkHTTPHeaders ∅.

(** [emplace] does nothing when the key is present. *)
Definition addHeader (h : HTTPHeaders) (header_pair : bytes * bytes) : HTTPHeaders :=
  match http_headers_ h !! header_pair.1 with
  | Some _ => h
  | None => mkHTTPHeaders (<[header_pair.1 := header_pair.2]> (http_headers_ h))
  end.

Definition headerContains (h : HTTPHeaders) (header_name : bytes) : bool :=
  bool_decide (is_Some (http_headers_ h !! header_name)).

Definition removeHeader (h : HTTPHeaders) (header_name : bytes) : bool * HTTPHeaders :=
  if negb (headerContains h header_name) then (false, h)
  else (true, mkHTTPHeaders (delete header_name (http_headers_ h))).

Definition headerCount (h : HTTPHeaders) : Z := Z.of_nat (size (http_headers_ h)).

Definition getHeaderValue (h : HTTPHeaders) (header_name : bytes) : option bytes :=
  if negb (headerContains h header_name) then None
  else http_headers_ h !! header_name.

(** The loop of [buildRawHeader] over the pairs, in iteration order. *)
Fixpoint raw_header_lines (l : list (bytes * bytes)) : bytes :=
  match l with
  | [] => []
  | (name, value) :: l => name ++ $": " ++ value ++ CRLF ++ raw_header_lines l
  end.

Definition buildRawHeader `{HashOrder} (h : HTTPHeaders) : bytes :=
  raw_header_lines (hash_order (http_headers_ h)) ++ CRLF.

(** ** Header text

    A header line from its name and the raw text after the colon. *)
Definition header_line (h : bytes * bytes) : bytes :=
  h.1 ++ [chr 58] ++ h.2 ++ CRLF.

Fixpoint header_lines (hs : list (bytes * bytes)) : bytes :=
  match hs with [] => [] | h :: hs => header_line h ++ header_lines hs end.

(** The pairs as [buildRawHeader] prints them: a space before each value. *)
Definition spaced (h : bytes * bytes) : bytes * bytes := (h.1, SP :: h.2).

Lemma raw_header_lines_text hs :
  raw_header_lines hs = header_lines (spaced <$> hs).
Proof.
  induction hs as [|[n v] hs IH]; [done|]. simpl. rewrite IH.
  unfold header_line. cbn [fst snd]. rewrite <- !app_assoc. cbn [app].
  by rewrite <- ?app_assoc.
Qed.

(** The pairs added one after the other. *)
Definition addHeaders (h : HTTPHeaders) (l : list (bytes * bytes)) : HTTPHeaders :=
  foldl addHeader h l.

(** ** Facts *)
Lemma addHeader_lookup h n v k :
  http_headers_ (addHeader h (n, v)) !! k =
    match http_headers_ h !! k with
    | Some w => Some w
    | None => if decide (n = k) then Some v else None
    end.
Proof.
  unfold addHeader. simpl. destruct (http_headers_ h !! n) eqn:Hn.
  - destruct (http_headers_ h !! k) eqn:Hk; [done|]. case_decide; congruence.
  - simpl. rewrite lookup_insert. case_decide as Hd; [by subst; rewrite Hn|].
    by destruct (_ !! k).
Qed.

Lemma getHeaderValue_lookup h n : getHeaderValue h n = http_headers_ h !! n.
Proof.
  unfold getHeaderValue, headerContains.
  by destruct (http_headers_ h !! n).
Qed.

Lemma headers_eq h1 h2 : http_headers_ h1 = http_headers_ h2 → h1 = h2.
Proof. destruct h1, h2. by simpl; intros ->. Qed.

(** The first value of a name wins. *)
Fixpoint first_value (n : bytes) (l : list (bytes * bytes)) : option bytes :=
  match l with
  | [] => None
  | (k, v) :: l => if decide (k = n) then Some v else first_value n l
  end.

Lemma addHeaders_lookup h l k :
  http_headers_ (addHeaders h l) !! k =
    match http_headers_ h !! k with
    | Some w => Some w
    | None => first_value k l
    end.
Proof.
  unfold addHeaders. revert h. induction l as [|[n v] l IH]; intros h.
  { simpl. by destruct (_ !! k). }
  simpl. rewrite IH, addHeader_lookup.
  destruct (http_headers_ h !! k); [done|]. by case_decide.
Qed.

Lemma first_value_list_to_map k l : first_value k l = (list_to_map l : gmap _ _) !! k.
Proof.
  induction l as [|[n v] l IH]; [done|].
  simpl. rewrite lookup_insert, IH. by case_decide.
Qed.

(** Adding the pairs of a list with distinct names to the empty table gives
    the table with these pairs; in particular the pairs of a table in any
    iteration order give the table back. *)
Lemma addHeaders_empty l :
  http_headers_ (addHeaders empty_headers l) = list_to_map l.
Proof.
  apply map_eq. intros k. rewrite addHeaders_lookup. simpl.
  by rewrite lookup_empty, first_value_list_to_map.
Qed.

Lemma addHeaders_order `{HashOrder} h :
  addHeaders empty_headers (hash_order (http_headers_ h)) = h.
Proof.
  apply headers_eq. rewrite addHeaders_empty.
  rewrite (list_to_map_proper _ (map_to_list (http_headers_ h))).
  - apply list_to_map_to_list.
  - rewrite hash_order_perm. apply NoDup_fst_map_to_list.
  - apply hash_order_perm.
Qed.

(** The table as its operations describe it: the first header added under a
    name stays, a removed one is gone, [removeHeader] reports whether there was
    one, and the other names are untouched. *)
Theorem HTTPHeaders_operations h n v k :
  getHeaderValue (addHeader h (n, v)) k
    = match getHeaderValue h k with
      | Some w => Some w
      | None => if decide (n = k) then Some v else None
      end
  ∧ getHeaderValue (removeHeader h n).2 k
    = (if decide (n = k) then None else getHeaderValue h k)
  ∧ (removeHeader h n).1 = headerContains h n
  ∧ headerCount (addHeader h (n, v))
    = headerCount h + (if headerContains h n then 0 else 1)
  ∧ headerCount (removeHeader h n).2
    = headerCount h - (if headerContains h n then 1 else 0).
Proof.
  rewrite !getHeaderValue_lookup. unfold removeHeader, headerCount, headerContains.
  split; [apply addHeader_lookup|].
  destruct (http_headers_ h !! n) as [w|] eqn:Hn; simpl.
  - unfold addHeader. simpl. rewrite Hn.
    split_and!; [by rewrite lookup_delete|done|lia|].
    rewrite map_size_delete, Hn.
    assert (size (http_headers_ h) ≠ 0%nat); [|lia].
    intros Hs. apply map_size_empty_inv in Hs. by rewrite Hs in Hn.
  - unfold addHeader. simpl. rewrite Hn.
    split_and!; [case_decide; congruence|done| |lia].
    simpl. rewrite map_size_insert_None by done. lia.
Qed.

#[export] Instance map_to_list_order : HashOrder | 100 :=
  {| hash_order := map_to_list; hash_order_perm m := reflexivity _ |}.
