(* ===== verification/Scanner.v ===== *)
(** * Reading the input of a state machine backwards

    Both HTTP parsers are machines that look at one character per turn. From
    the knowledge that such a machine reaches a given end, these lemmas recover
    the shape of the input it has read: one character, a fixed character, or a
    run of characters up to a delimiter. RequestGrammar and ResponseGrammar use
    them to show that what the parsers accept is in their grammars, and the
    facts on unique splits to show that the grammars are unambiguous. *)
From Stdlib Require Import ZArith Lia Ascii String.
From stdpp Require Import base list.
From S2P Require Import Prelude HTTPConstants.
From S2P Require HTTPHeaders.
Local Open Scope blueth_scope.

(** A text splits in one way only at the first character that is not [ok]. *)
Lemma split_unique (ok : char → bool) s1 s2 d1 d2 t1 t2 :
  forallb ok s1 = true → forallb ok s2 = true → ok d1 = false → ok d2 = false →
  s1 ++ d1 :: t1 = s2 ++ d2 :: t2 → s1 = s2 ∧ d1 = d2 ∧ t1 = t2.
Proof.
  revert s2. induction s1 as [|c s1 IH]; intros [|c2 s2] Hs1 Hs2 Hd1 Hd2 Heq; simplify_eq/=.
  - done.
  - apply andb_true_iff in Hs2 as [? _]. congruence.
  - apply andb_true_iff in Hs1 as [? _]. congruence.
  - apply andb_true_iff in Hs1 as [_ ?], Hs2 as [_ ?].
    destruct (IH s2) as (->&->&->); done.
Qed.

(** A header line of a token and a text, before anything is said of its value. *)
Definition header_text_ok (h : bytes * bytes) : Prop :=
  forallb is_token h.1 = true ∧ forallb is_text h.2 = true.

(** Header lines with values of text, then the rest of the block. *)
Lemma header_block_unique raws1 raws2 junk1 junk2 body1 body2 :
  Forall header_text_ok raws1 →
  Forall header_text_ok raws2 →
  forallb is_token junk1 = true → forallb is_token junk2 = true →
  HTTPHeaders.header_lines raws1 ++ junk1 ++ CRLF ++ body1
  = HTTPHeaders.header_lines raws2 ++ junk2 ++ CRLF ++ body2 →
  raws1 = raws2 ∧ junk1 = junk2 ∧ body1 = body2.
Proof.
  intros Hr1. revert raws2.
  induction Hr1 as [|[n1 v1] raws1 [Hn1 Hv1] Hr1 IH]; intros raws2 Hr2 Hj1 Hj2;
    (destruct Hr2 as [|[n2 v2] raws2 [Hn2 Hv2] Hr2]);
    cbn [HTTPHeaders.header_lines]; unfold HTTPHeaders.header_line, CRLF;
    cbn [fst snd] in *; rewrite <- ?app_assoc; cbn [app]; intros Heq.
  - apply (split_unique is_token) in Heq as (->&_&[= ->]); done.
  - apply (split_unique is_token) in Heq as (_&[=]&_); done.
  - apply (split_unique is_token) in Heq as (_&[=]&_); done.
  - apply (split_unique is_token) in Heq as (->&_&Heq); [|done..].
    apply (split_unique is_text) in Heq as (->&_&[= Heq]); [|done..].
    destruct (IH raws2) as (->&->&->); done.
Qed.

Section scanner.
Context {State Message : Type}.
(** [advance st m c prev st' m']: in state [st] with message [m] the machine
    steps over [c], which follows [prev]. *)
Variable advance : State → Message → char → res char → State → Message → Prop.
(** [ends prev st m l]: from [st] and [m] the machine comes to the end in
    question on the input [l]. *)
Variable ends : res char → State → Message → bytes → Prop.
(** The states that look at a character. *)
Variable reading : State → bool.

(** The end is not reached in a reading state, and only by stepping on. *)
Hypothesis ends_step : ∀ st prev m l, reading st = true → ends prev st m l →
  ∃ c l' st' m', l = c :: l' ∧ advance st m c prev st' m' ∧ ends (Done c) st' m' l'.

(** A state that reads characters [ok] until it meets [d]. *)
Definition reads_until (st : State) (ok : char → bool) (d : char) (next : State) : Prop :=
  ∀ m c prev st' m', advance st m c prev st' m' →
    (ok c = true ∧ st' = st) ∨ (c = d ∧ st' = next).

Lemma ends_until st ok d next prev m l :
  reads_until st ok d next → reading st = true → ends prev st m l →
  ∃ s rest m', l = s ++ d :: rest ∧ forallb ok s = true ∧ ends (Done d) next m' rest.
Proof.
  intros Hst Ha. revert prev m. induction l as [|c l IH]; intros prev m Hend;
    destruct (ends_step _ _ _ _ Ha Hend) as (c'&l'&st'&m'&?&Hs&Hend'); simplify_eq.
  apply Hst in Hs as [[Hc ->]|[-> ->]].
  - destruct (IH _ _ Hend') as (s&rest&m2&->&Hs&Hrest).
    exists (c' :: s), rest, m2. simpl. by rewrite Hc.
  - by exists [], l', m'.
Qed.

(** A state that reads one character. *)
Definition reads_one (st : State) (ok : char → Prop) (next : State) : Prop :=
  ∀ m c prev st' m', advance st m c prev st' m' → ok c ∧ st' = next.

Lemma ends_one st ok next prev m l :
  reads_one st ok next → reading st = true → ends prev st m l →
  ∃ c rest m', l = c :: rest ∧ ok c ∧ ends (Done c) next m' rest.
Proof.
  intros Hst Ha Hend.
  destruct (ends_step _ _ _ _ Ha Hend) as (c&l'&st'&m'&->&Hs&Hend').
  apply Hst in Hs as [? ->]. by exists c, l', m'.
Qed.

(** A state with two delimiters. *)
Definition reads_until2 (st : State) (ok : char → bool)
    (d1 : char) (next1 : State) (d2 : char) (next2 : State) : Prop :=
  ∀ m c prev st' m', advance st m c prev st' m' →
    (ok c = true ∧ st' = st) ∨ (c = d1 ∧ st' = next1) ∨ (c = d2 ∧ st' = next2).

Lemma ends_until2 st ok d1 next1 d2 next2 prev m l :
  reads_until2 st ok d1 next1 d2 next2 → reading st = true → ends prev st m l →
  ∃ s rest m', forallb ok s = true ∧
    ((l = s ++ d1 :: rest ∧ ends (Done d1) next1 m' rest)
     ∨ (l = s ++ d2 :: rest ∧ ends (Done d2) next2 m' rest)).
Proof.
  intros Hst Ha. revert prev m. induction l as [|c l IH]; intros prev m Hend;
    destruct (ends_step _ _ _ _ Ha Hend) as (c'&l'&st'&m'&?&Hs&Hend'); simplify_eq.
  apply Hst in Hs as [[Hc ->]|[[-> ->]|[-> ->]]].
  - destruct (IH _ _ Hend') as (s&rest&m2&Hs&Hrest).
    exists (c' :: s), rest, m2. simpl. rewrite Hc. split; [done|].
    destruct Hrest as [[-> ?]|[-> ?]]; auto.
  - exists [], l', m'. auto.
  - exists [], l', m'. auto.
Qed.
End scanner.

Arguments reads_until {_ _} _ _ _ _ _ /.
Arguments reads_until2 {_ _} _ _ _ _ _ _ _ /.
Arguments reads_one {_ _} _ _ _ _ /.
