(* ===== verification/RequestMessage.v ===== *)
(** * [http::HTTPRequestMessage] (blueth/http/HTTPMessage.hpp)

    The request object: header table, body buffer, type, version and target,
    and the three holders the state machine parser fills. The [unique_ptr]
    members are options: [getHTTPHeaders] and [setRawBody] can leave them null. *)
From Stdlib Require Import ZArith Lia Ascii String.
From stdpp Require Import base gmap sets strings list.
From S2P Require Import Prelude IOBuffer HTTPConstants.
From S2P Require HTTPHeaders.
Local Open Scope Z_scope.
Local Open Scope blueth_scope.

Record HTTPRequestMessage := mkHTTPRequestMessage {
  http_headers_ : option HTTPHeaders.HTTPHeaders;
  raw_body_ : option IOBuffer;
  request_type_ : HTTPRequestType;
  http_message_version_ : HTTPVersion;
  target_resource_ : bytes;
  temp_header_value_holder_ : bytes;
  temp_header_name_holder_ : bytes;
  temp_http_method_holder_ : bytes
}.

Definition initial_capacity_ : Z := 2048.

(** *** Field updates *)
Definition set_headers (m : HTTPRequestMessage) h :=
  mkHTTPRequestMessage h (raw_body_ m) (request_type_ m) (http_message_version_ m)
    (target_resource_ m) (temp_header_value_holder_ m) (temp_header_name_holder_ m)
    (temp_http_method_holder_ m).
Definition set_body (m : HTTPRequestMessage) b :=
  mkHTTPRequestMessage (http_headers_ m) b (request_type_ m) (http_message_version_ m)
    (target_resource_ m) (temp_header_value_holder_ m) (temp_header_name_holder_ m)
    (temp_http_method_holder_ m).
Definition set_type (m : HTTPRequestMessage) t :=
  mkHTTPRequestMessage (http_headers_ m) (raw_body_ m) t (http_message_version_ m)
    (target_resource_ m) (temp_header_value_holder_ m) (temp_header_name_holder_ m)
    (temp_http_method_holder_ m).
Definition set_version (m : HTTPRequestMessage) v :=
  mkHTTPRequestMessage (http_headers_ m) (raw_body_ m) (request_type_ m) v
    (target_resource_ m) (temp_header_value_holder_ m) (temp_header_name_holder_ m)
    (temp_http_method_holder_ m).
Definition set_target (m : HTTPRequestMessage) t :=
  mkHTTPRequestMessage (http_headers_ m) (raw_body_ m) (request_type_ m)
    (http_message_version_ m) t (temp_header_value_holder_ m)
    (temp_header_name_holder_ m) (temp_http_method_holder_ m).
Definition set_holders (m : HTTPRequestMessage) value name method :=
  mkHTTPRequestMessage (http_headers_ m) (raw_body_ m) (request_type_ m)
    (http_message_version_ m) (target_resource_ m) value name method.

Section operations.
Context `{Allocator}.

(** The constructor, and [create]. *)
Definition HTTPRequestMessage_new : res HTTPRequestMessage :=
  b ← IOBuffer.create initial_capacity_;
  Done (mkHTTPRequestMessage (Some HTTPHeaders.empty_headers) (Some b)
          Unsupported HTTP1_1 [] [] [] []).
Definition create : res HTTPRequestMessage := HTTPRequestMessage_new.

Definition addHeader (m : HTTPRequestMessage) (name value : bytes)
  : res HTTPRequestMessage :=
  h ← deref (http_headers_ m);
  Done (set_headers m (Some (HTTPHeaders.addHeader h (name, value)))).

Definition removeHeader (m : HTTPRequestMessage) (name : bytes)
  : res (bool * HTTPRequestMessage) :=
  h ← deref (http_headers_ m);
  let '(removed, h) := HTTPHeaders.removeHeader h name in
  Done (removed, set_headers m (Some h)).

Definition constGetHTTPHeaders (m : HTTPRequestMessage) := http_headers_ m.

(** The table is moved out to the caller. *)
Definition getHTTPHeaders (m : HTTPRequestMessage)
  : option HTTPHeaders.HTTPHeaders * HTTPRequestMessage :=
  (http_headers_ m, set_headers m None).

Definition flushBody (m : HTTPRequestMessage) : res HTTPRequestMessage :=
  b ← deref (raw_body_ m); Done (set_body m (Some (clear b))).

Definition setRequestType (m : HTTPRequestMessage) (req_type : HTTPRequestType) :=
  set_type m req_type.
Definition getRequestType (m : HTTPRequestMessage) := request_type_ m.
Definition setHTTPVersion (m : HTTPRequestMessage) (version : HTTPVersion) :=
  set_version m version.
Definition getHTTPVersion (m : HTTPRequestMessage) := http_message_version_ m.

(** Despite its name it appends. *)
Definition setHTTPTargetResource (m : HTTPRequestMessage) (target_resource : bytes) :=
  set_target m (target_resource_ m ++ target_resource).
Definition getTargetResource (m : HTTPRequestMessage) := target_resource_ m.

Definition setRawBody (m : HTTPRequestMessage) (io_buffer : option IOBuffer) :=
  set_body m io_buffer.

Definition getHeaderValue (m : HTTPRequestMessage) (name : bytes)
  : res (option bytes) :=
  h ← deref (http_headers_ m); Done (HTTPHeaders.getHeaderValue h name).

Definition method_text (t : HTTPRequestType) : bytes :=
  match t with
  | Get => $"GET "
  | Post => $"POST "
  | Head => $"HEAD "
  | Put => $"PUT "
  | Connect => $"CONNECT "
  | Unsupported => $"UNSUPPORTED "
  end.

Definition buildRawMessage `{HTTPHeaders.HashOrder} (m : HTTPRequestMessage)
  : res bytes :=
  h ← deref (http_headers_ m);
  b ← deref (raw_body_ m);
  body ← string_of_range b (begin_ b) (end_ b);
  Done (method_text (request_type_ m) ++ target_resource_ m ++ $" "
        ++ $"HTTP/1.1" ++ CRLF ++ HTTPHeaders.buildRawHeader h ++ body).

(** *** For the state machine parser *)
Definition pushBackHeaderValue (m : HTTPRequestMessage) (char_val : char) :=
  set_holders m (temp_header_value_holder_ m ++ [char_val])
    (temp_header_name_holder_ m) (temp_http_method_holder_ m).
Definition pushBackHeaderName (m : HTTPRequestMessage) (char_val : char) :=
  set_holders m (temp_header_value_holder_ m)
    (temp_header_name_holder_ m ++ [char_val]) (temp_http_method_holder_ m).

Definition addTempHeadersHolderToMessage (m : HTTPRequestMessage)
  : res HTTPRequestMessage :=
  h ← deref (http_headers_ m);
  let h := HTTPHeaders.addHeader h
             (temp_header_name_holder_ m, temp_header_value_holder_ m) in
  Done (set_holders (set_headers m (Some h)) [] [] (temp_http_method_holder_ m)).

(** [noexcept]; the fuel covers the one level of recursion that growing the
    buffer takes. *)
Definition pushBackRawBody (m : HTTPRequestMessage) (raw_body : bytes)
  : res HTTPRequestMessage :=
  b ← deref (raw_body_ m);
  b ← noexcept (appendRawBytes 2 b (init raw_body));
  Done (set_body m (Some b)).
Definition pushBackRawBodyChar (m : HTTPRequestMessage) (char_val : char)
  : res HTTPRequestMessage := pushBackRawBody m [char_val].

Definition pushBackTargetResource (m : HTTPRequestMessage) (char_val : char) :=
  set_target m (target_resource_ m ++ [char_val]).
Definition pushBackRequestMethod (m : HTTPRequestMessage) (char_val : char) :=
  set_holders m (temp_header_value_holder_ m) (temp_header_name_holder_ m)
    (temp_http_method_holder_ m ++ [char_val]).
Definition getTempRequestMethod (m : HTTPRequestMessage) : bytes :=
  temp_http_method_holder_ m.

End operations.

(** Two messages are equivalent when they differ at most in the spare room of
    their body buffers. *)
#[export] Instance HTTPRequestMessage_equiv : Equiv HTTPRequestMessage := λ m1 m2,
  set_body m1 None = set_body m2 None ∧ raw_body_ m1 ≡ raw_body_ m2.
#[export] Instance HTTPRequestMessage_equivalence : Equivalence (≡@{HTTPRequestMessage}).
Proof.
  split.
  - intros m. by split.
  - intros m1 m2 [??]. by split.
  - intros m1 m2 m3 [? H12] [? H23]. split; [congruence|]. by rewrite H12.
Qed.

Lemma set_body_equiv m b1 b2 s :
  repr b1 s → repr b2 s → set_body m (Some b1) ≡ set_body m (Some b2).
Proof. intros H1 H2. split; [done|]. simpl. constructor. by eapply repr_equiv. Qed.

(** The message the constructor makes. *)
Definition empty_message : HTTPRequestMessage :=
  mkHTTPRequestMessage (Some HTTPHeaders.empty_headers)
    (Some (new_buffer initial_capacity_)) Unsupported HTTP1_1 [] [] [] [].

Lemma HTTPRequestMessage_new_Done `{Allocator} :
  alloc_ok initial_capacity_ = true → HTTPRequestMessage_new = Done empty_message.
Proof.
  intros Ha. unfold HTTPRequestMessage_new, IOBuffer.create.
  by rewrite IOBuffer_new_Done.
Qed.
