(* ===== verification/RequestParser.v ===== *)
(** * [ParseHTTP1_1RequestMessage] (blueth/http/HTTPParserStateMachine.hpp)

    The incremental request parser: a [while]/[switch] machine over the
    characters between the two offsets of a buffer, which stores what it reads
    in a request message and its state in a [ParserState] the caller keeps. *)
From Stdlib Require Import ZArith Lia Ascii String.
From stdpp Require Import base gmap sets strings list.
From S2P Require Import Prelude IOBuffer HTTPConstants.
From S2P Require HTTPHeaders.
From S2P Require Import RequestMessage.
Local Open Scope Z_scope.
Local Open Scope blueth_scope.

(** What one turn of the loop does when it looks at a character: step over it
    ([increment_buffer_offset]) or leave the pointer where it is. *)
Inductive action :=
  | Advance (st : ParserState) (m : HTTPRequestMessage)
  | Stay (st : ParserState) (m : HTTPRequestMessage).

Section parser.
Context `{Allocator}.

Definition fail (m : HTTPRequestMessage) : res action := Done (Stay ProtocolError m).

(** [if (cond) { state = next; increment; } else { state = ProtocolError; }] *)
Definition expect (cond : bool) (next : ParserState) (m : HTTPRequestMessage)
  : res action :=
  if cond then Done (Advance next m) else fail m.

(** The method test at the end of the headers: the parser's next state and
    the request's type. *)
Definition classify_method (method : bytes) : res (option (ParserState * HTTPRequestType)) :=
  is_get ← str3cmp method $"GET";
  if (is_get : bool) then Done (Some (ParsingDone, Get)) else
  is_post ← str4cmp method $"POST";
  if (is_post : bool) then Done (Some (MessageBody, Post)) else
  is_put ← str3cmp method $"PUT";
  if (is_put : bool) then Done (Some (MessageBody, Put)) else
  is_head ← str4cmp method $"HEAD";
  if (is_head : bool) then Done (Some (ParsingDone, Head)) else
  Done None.

(** The cases of the [switch] for the request line, on the current character
    [c]. *)
Definition request_line_case (st : ParserState) (m : HTTPRequestMessage) (c : char)
  : res action :=
  match st with
  | RequestLineBegin =>
      if is_token c then Done (Advance RequestMethod (pushBackRequestMethod m c))
      else fail m
  | RequestMethod =>
      if bool_decide (c = SP) then Done (Advance RequestResource m)
      else if is_token c
      then Done (Advance RequestMethod (pushBackRequestMethod m c))
      else fail m
  | RequestResource =>
      if bool_decide (c = SP) then Done (Advance RequestProtocolH m)
      else
        p ← isprint c;
        if (p : bool)
        then Done (Advance RequestResource (pushBackTargetResource m c))
        else fail m
  | RequestProtocolH => expect (bool_decide (c = chr 72)) RequestProtocolT1 m
  | RequestProtocolT1 => expect (bool_decide (c = chr 84)) RequestProtocolT2 m
  | RequestProtocolT2 => expect (bool_decide (c = chr 84)) RequestProtocolP m
  | RequestProtocolP => expect (bool_decide (c = chr 80)) RequestProtocolSlash m
  | RequestProtocolSlash =>
      expect (bool_decide (c = chr 47)) RequestProtocolVersionMajor m
  | RequestProtocolVersionMajor =>
      d ← isdigit c; expect d RequestProtocolDot m
  | RequestProtocolDot =>
      expect (bool_decide (c = chr 46)) RequestProtocolVersionMinor m
  | RequestProtocolVersionMinor =>
      d ← isdigit c;
      if (d : bool)
      then Done (Advance RequestProtocolVersionMinor (setHTTPVersion m HTTP1_1))
      else expect (bool_decide (c = CR)) RequestLineLF m
  | RequestLineLF => expect (bool_decide (c = LF)) HeaderName m
  | _ => Done (Stay st m)
  end.

(** The cases for the headers; [prev] is the read of [*(start_buffer - 1)]. *)
Definition header_case (st : ParserState) (m : HTTPRequestMessage)
    (c : char) (prev : res char) : res action :=
  match st with
  | HeaderName =>
      if is_token c then Done (Advance HeaderName (pushBackHeaderName m c))
      else if bool_decide (c = chr 58) then Done (Advance HeaderValue m)
      else expect (bool_decide (c = CR)) HeaderEndLF m
  | HeaderValue =>
      if bool_decide (c = CR) then Done (Advance HeaderValueLF m)
      else if bool_decide (c = SP) then
        p ← prev; expect (bool_decide (p = chr 58)) HeaderValue m
      else if is_text c then Done (Advance HeaderValue (pushBackHeaderValue m c))
      else fail m
  | HeaderValueLF =>
      if bool_decide (c = LF) then
        m ← addTempHeadersHolderToMessage m; Done (Advance HeaderName m)
      else fail m
  | HeaderEndLF =>
      if bool_decide (c = LF) then
        k ← classify_method (getTempRequestMethod m);
        match k with
        | Some (st, t) => Done (Advance st (setRequestType m t))
        | None => Done (Stay HeaderEndLF (setRequestType m Unsupported))
        end
      else Done (Stay HeaderEndLF m)
  | _ => Done (Stay st m)
  end.

(** The [switch]; the last three cases leave the loop. *)
Definition switch_case (st : ParserState) (m : HTTPRequestMessage)
    (c : char) (prev : res char) : res action :=
  match st with
  | HeaderName | HeaderValue | HeaderValueLF | HeaderEndLF => header_case st m c prev
  | MessageBody | ParsingDone | ProtocolError => Done (Stay st m)
  | _ => request_line_case st m c
  end.

(** The [while] loop over block [b]: one unit of fuel per turn. *)
Fixpoint parse_loop (fuel : nat) (b : list (option ascii))
    (start_buffer end_buffer : Z) (st : ParserState) (m : HTTPRequestMessage)
  : res (ParserState * HTTPRequestMessage) :=
  match fuel with
  | O => OutOfFuel
  | S fuel =>
      if start_buffer =? end_buffer then Done (st, m)
      else match st with
      | MessageBody =>
          cells ← mem_slice b start_buffer (end_buffer - start_buffer);
          body ← cells_chars cells;
          m ← pushBackRawBody m body;
          Done (st, m)
      | ParsingDone | ProtocolError => Done (st, m)
      | _ =>
          c ← mem_read b start_buffer;
          a ← switch_case st m c (mem_read b (start_buffer - 1));
          match a with
          | Advance st m => parse_loop fuel b (start_buffer + 1) end_buffer st m
          | Stay st m => parse_loop fuel b start_buffer end_buffer st m
          end
      end
  end.

(** The buffer is read through its start and end offsets; without a block both
    pointers are null. *)
Definition ParseHTTP1_1RequestMessage (fuel : nat) (request_message : IOBuffer)
    (current_state : ParserState) (http_message : HTTPRequestMessage)
  : res (ParserState * HTTPRequestMessage) :=
  match internal_buffer_ request_message with
  | Some b =>
      parse_loop fuel b (start_offset_ request_message)
                 (end_offset_ request_message) current_state http_message
  | None =>
      if start_offset_ request_message =? end_offset_ request_message
      then Done (current_state, http_message) else Undefined NullPointer
  end.

(** ** The machine over the remaining input

    [run prev st m l]: what the loop makes of the input [l] when [prev] is the
    read of the byte before it. [OutOfFuel] is a loop that never ends: the
    machine stays in [HeaderEndLF] without consuming. *)
Fixpoint run (prev : res char) (st : ParserState) (m : HTTPRequestMessage)
    (l : bytes) : res (ParserState * HTTPRequestMessage) :=
  match l with
  | [] => Done (st, m)
  | c :: l' =>
      match st with
      | MessageBody => m ← pushBackRawBody m l; Done (st, m)
      | ParsingDone | ProtocolError => Done (st, m)
      | _ =>
          a ← switch_case st m c prev;
          match a with
          | Advance st m => run (Done c) st m l'
          | Stay ProtocolError m => Done (ProtocolError, m)
          | Stay _ _ => OutOfFuel
          end
      end
  end.

(** The states in which the loop looks at a character. *)
Definition active (st : ParserState) : bool :=
  match st with MessageBody | ParsingDone | ProtocolError => false | _ => true end.

Lemma parse_loop_active fuel b p e st m :
  active st = true → p ≠ e →
  parse_loop (S fuel) b p e st m =
    (c ← mem_read b p;
     a ← switch_case st m c (mem_read b (p - 1));
     match a with
     | Advance st m => parse_loop fuel b (p + 1) e st m
     | Stay st m => parse_loop fuel b p e st m
     end).
Proof. intros Ha Hp. apply Z.eqb_neq in Hp. destruct st; try done; simpl; by rewrite Hp. Qed.

Lemma run_active prev st m c l :
  active st = true →
  run prev st m (c :: l) =
    (a ← switch_case st m c prev;
     match a with
     | Advance st m => run (Done c) st m l
     | Stay ProtocolError m => Done (ProtocolError, m)
     | Stay _ _ => OutOfFuel
     end).
Proof. by destruct st. Qed.

(** The pure form of the method test. *)
Definition classify (method : bytes) : option (ParserState * HTTPRequestType) :=
  if starts_with $"GET" method then Some (ParsingDone, Get)
  else if starts_with $"POST" method then Some (MessageBody, Post)
  else if starts_with $"PUT" method then Some (MessageBody, Put)
  else if starts_with $"HEAD" method then Some (ParsingDone, Head)
  else None.

Lemma classify_method_spec method : classify_method method = Done (classify method).
Proof.
  unfold classify_method, classify, lit. simpl list_ascii_of_string.
  rewrite !str3cmp_prefix, !str4cmp_prefix by done.
  repeat (rewrite Done_bind; case_match); done.
Qed.

(** The turns that keep the pointer in place lead to [ProtocolError], except
    in [HeaderEndLF]. *)
Lemma switch_case_stay st m c prev st' m' :
  switch_case st m c prev = Done (Stay st' m') →
  active st = true →
  st' = ProtocolError
  ∨ (st = HeaderEndLF ∧ st' = HeaderEndLF
     ∧ temp_http_method_holder_ m' = temp_http_method_holder_ m
     ∧ (c ≠ LF ∨ classify (temp_http_method_holder_ m) = None)).
Proof.
  intros Hs Ha. destruct st; simpl in Hs; unfold expect, fail in Hs; try done.
  all: try (repeat (case_match || res_inv); simplify_eq; auto; fail).
  rewrite classify_method_spec in Hs. right.
  repeat (case_match || case_bool_decide || res_inv); simplify_eq/=; auto 10.
Qed.

(** ** The loop computes the machine *)
Lemma parse_loop_spin fuel b p e m c :
  p ≠ e → mem_read b p = Done c →
  c ≠ LF ∨ classify (temp_http_method_holder_ m) = None →
  parse_loop fuel b p e HeaderEndLF m = OutOfFuel.
Proof.
  intros Hp Hc. revert m. induction fuel as [|fuel IH]; intros m Hm; [done|].
  cbn [parse_loop]. bool_lia. rewrite Hc, Done_bind. cbn [switch_case request_line_case header_case].
  case_bool_decide as Hlf; [|rewrite Done_bind; by apply IH].
  destruct Hm as [|Hm]; [done|].
  rewrite classify_method_spec. unfold getTempRequestMethod. rewrite Hm.
  rewrite !Done_bind. apply IH. by right.
Qed.

(** Enough fuel: a turn per character and two more. *)
Lemma parse_loop_run fuel b p l st m :
  holds b p l → (length l + 2 <= fuel)%nat →
  parse_loop fuel b p (p + Z.of_nat (length l)) st m
  = run (mem_read b (p - 1)) st m l.
Proof.
  revert fuel p st m. induction l as [|c l IH]; intros fuel p st m Hh Hf;
    (destruct fuel as [|fuel]; [simpl in Hf; lia|]).
  { cbn [parse_loop run]. simpl. by bool_lia. }
  pose proof (holds_slice _ _ _ _ Hh eq_refl) as Hslice.
  apply holds_cons in Hh as [Hr Hh]. simpl length in *.
  destruct (active st) eqn:Ha.
  - rewrite parse_loop_active, run_active by (done || lia). rewrite Hr, Done_bind.
    destruct (switch_case st m c (mem_read b (p - 1))) as [[st' m'|st' m']| | | |]
      eqn:Hs; try done; rewrite !Done_bind.
    + replace (p + Z.of_nat (S (length l))) with (p + 1 + Z.of_nat (length l)) by lia.
      rewrite IH by (done || lia). by rewrite Z.add_simpl_r, Hr.
    + apply switch_case_stay in Hs as [->|(->&->&Hm&Hspin)]; [|..|done].
      * destruct fuel; [lia|]. cbn [parse_loop]. by bool_lia.
      * rewrite <- Hm in Hspin. eapply parse_loop_spin; [lia|done..].
  - destruct st; try done; cbn [parse_loop run]; bool_lia; [done| |done].
    replace (p + Z.of_nat (S (length l)) - p) with (Z.of_nat (S (length l))) by lia.
    by rewrite Hslice, Done_bind, cells_chars_init, Done_bind.
Qed.

(** *** Runs over segments of the input *)

(** Every character of a segment keeps the state and updates the message. *)
Lemma run_segment prev st m f s rest :
  active st = true →
  (∀ m c prev, c ∈ s → switch_case st m c prev = Done (Advance st (f m c))) →
  run prev st m (s ++ rest) = run (List.last (Done <$> s) prev) st (foldl f m s) rest.
Proof.
  intros Ha. revert prev m. induction s as [|c s IH]; intros prev m Hs; [done|].
  cbn [app]. rewrite run_active by done. rewrite Hs by set_solver. rewrite Done_bind.
  rewrite IH by (intros; apply Hs; set_solver).
  by rewrite <- (last_cons_default (Done c) (Done <$> s) prev).
Qed.

(** A segment and the character that ends it. *)
Lemma run_until prev st st' m f s d rest :
  active st = true →
  (∀ m c prev, c ∈ s → switch_case st m c prev = Done (Advance st (f m c))) →
  (∀ m prev, switch_case st m d prev = Done (Advance st' m)) →
  run prev st m (s ++ d :: rest) = run (Done d) st' (foldl f m s) rest.
Proof.
  intros Ha Hs Hd. rewrite (run_segment _ _ _ f) by done.
  by rewrite run_active, Hd, Done_bind by done.
Qed.

Lemma foldl_pushBackRequestMethod m s :
  foldl pushBackRequestMethod m s =
    set_holders m (temp_header_value_holder_ m) (temp_header_name_holder_ m)
      (temp_http_method_holder_ m ++ s).
Proof.
  revert m. induction s as [|c s IH]; intros m; simpl.
  - rewrite app_nil_r. by destruct m.
  - rewrite IH. unfold pushBackRequestMethod, set_holders. simpl.
    by rewrite <- app_assoc.
Qed.

Lemma foldl_pushBackHeaderName m s :
  foldl pushBackHeaderName m s =
    set_holders m (temp_header_value_holder_ m) (temp_header_name_holder_ m ++ s)
      (temp_http_method_holder_ m).
Proof.
  revert m. induction s as [|c s IH]; intros m; simpl.
  - rewrite app_nil_r. by destruct m.
  - rewrite IH. unfold pushBackHeaderName, set_holders. simpl.
    by rewrite <- app_assoc.
Qed.

Lemma foldl_pushBackTargetResource m s :
  foldl pushBackTargetResource m s = set_target m (target_resource_ m ++ s).
Proof.
  revert m. induction s as [|c s IH]; intros m; simpl.
  - rewrite app_nil_r. by destruct m.
  - rewrite IH. unfold pushBackTargetResource, set_target. simpl.
    by rewrite <- app_assoc.
Qed.

Lemma foldl_setHTTPVersion m (s : bytes) :
  foldl (λ m _, setHTTPVersion m HTTP1_1) m s =
    set_version m (if s is [] then http_message_version_ m else HTTP1_1).
Proof.
  revert m. induction s as [|c s IH]; intros m; simpl; [by destruct m|].
  rewrite IH. by destruct s.
Qed.

End parser.

(** ** The request grammar *)
Definition is_tokens (s : bytes) : bool := forallb is_token s.
Definition is_visible (c : char) : bool := (33 <=? char_val c) && (char_val c <=? 126).

Definition request_line (method target : bytes) (major : char) (minor : bytes) : bytes :=
  method ++ [SP] ++ target ++ [SP] ++ $"HTTP/" ++ [major] ++ $"." ++ minor ++ CRLF.

(** What the parser stores for the raw text after a colon ([prev] is the
    character before it): a SP right after a colon is dropped, any other SP and
    any control character is an error. *)
Fixpoint request_value (prev : char) (raw : bytes) : option bytes :=
  match raw with
  | [] => Some []
  | c :: raw =>
      if bool_decide (c = SP) then
        if bool_decide (prev = chr 58) then request_value c raw else None
      else if is_text c
      then v ← request_value c raw; Some (c :: v)
      else None
  end.

Definition header_ok (raw stored : bytes * bytes) : Prop :=
  is_tokens raw.1 = true ∧ stored.1 = raw.1
  ∧ request_value (chr 58) raw.2 = Some stored.2.

(** *** Facts about single characters *)
Lemma switch_method m c prev :
  is_token c = true →
  switch_case RequestMethod m c prev
  = Done (Advance RequestMethod (pushBackRequestMethod m c)).
Proof.
  intros Hc. cbn [switch_case request_line_case header_case]. destruct (token_facts _ Hc) as [? _].
  rewrite bool_decide_eq_false_2 by done. by rewrite Hc.
Qed.

Lemma visible_facts c :
  is_visible c = true → c ≠ SP ∧ isprint c = Done true.
Proof. revert c. by_all_chars. Qed.

Lemma switch_resource m c prev :
  is_visible c = true →
  switch_case RequestResource m c prev
  = Done (Advance RequestResource (pushBackTargetResource m c)).
Proof.
  intros Hc. apply visible_facts in Hc as [? Hp]. cbn [switch_case request_line_case header_case].
  rewrite bool_decide_eq_false_2 by done. by rewrite Hp, Done_bind.
Qed.

Lemma digit_facts c : is_digit c = true → isdigit c = Done true.
Proof. revert c. by_all_chars. Qed.

Lemma switch_minor m c prev :
  is_digit c = true →
  switch_case RequestProtocolVersionMinor m c prev
  = Done (Advance RequestProtocolVersionMinor (setHTTPVersion m HTTP1_1)).
Proof.
  intros Hc. apply digit_facts in Hc. cbn [switch_case request_line_case header_case]. by rewrite Hc, Done_bind.
Qed.

Lemma switch_name m c prev :
  is_token c = true →
  switch_case HeaderName m c prev = Done (Advance HeaderName (pushBackHeaderName m c)).
Proof. intros Hc. cbn [switch_case request_line_case header_case]. by rewrite Hc. Qed.

Section grammar.
Context `{Allocator}.

(** *** Runs over the parts of a request *)
Lemma run_value_part pv raw v m rest :
  request_value pv raw = Some v →
  run (Done pv) HeaderValue m (raw ++ rest)
  = run (Done (List.last raw pv)) HeaderValue
      (set_holders m (temp_header_value_holder_ m ++ v) (temp_header_name_holder_ m)
         (temp_http_method_holder_ m)) rest.
Proof.
  revert pv v m. induction raw as [|c raw IH]; intros pv v m Hv; simpl in Hv.
  { simplify_eq. rewrite app_nil_r. by destruct m. }
  rewrite last_cons_default.
  cbn [app]. rewrite run_active by done. cbn [switch_case request_line_case header_case].
  case_bool_decide as Hsp.
  - rewrite bool_decide_eq_false_2 by (subst; done).
    case_bool_decide as Hp; [|done]. subst. rewrite !Done_bind. by apply IH.
  - destruct (is_text c) eqn:Ht; [|done].
    destruct (request_value c raw) as [v'|] eqn:Hv'; simplify_eq/=.
    rewrite bool_decide_eq_false_2 by by apply text_facts.
    rewrite Done_bind, (IH _ v') by done. f_equal.
    unfold pushBackHeaderValue, set_holders. simpl. by rewrite <- app_assoc.
Qed.

Lemma run_value pv raw v m rest :
  request_value pv raw = Some v →
  run (Done pv) HeaderValue m (raw ++ CR :: rest)
  = run (Done CR) HeaderValueLF
      (set_holders m (temp_header_value_holder_ m ++ v) (temp_header_name_holder_ m)
         (temp_http_method_holder_ m)) rest.
Proof. intros Hv. by rewrite (run_value_part _ _ v). Qed.

(** A character that may not follow [prev] in a header value: a SP after
    anything but a colon, or a control character other than CR. *)
Definition bad_value_char (prev c : char) : bool :=
  if bool_decide (c = SP) then negb (bool_decide (prev = chr 58))
  else negb (is_text c) && negb (bool_decide (c = CR)).

Lemma run_bad_char prev m c rest :
  bad_value_char prev c = true →
  run (Done prev) HeaderValue m (c :: rest) = Done (ProtocolError, m).
Proof.
  unfold bad_value_char. intros Hc. rewrite run_active by done. cbn [switch_case request_line_case header_case].
  unfold expect, fail. case_bool_decide as Hsp.
  - rewrite bool_decide_eq_false_2 by (subst; done).
    apply negb_true_iff in Hc. by rewrite Done_bind, Hc.
  - apply andb_true_iff in Hc as [->%negb_true_iff ->%negb_true_iff]. done.
Qed.

(** A header line adds the header and clears the holders. *)
Lemma run_header_line prev m h raw stored rest :
  header_ok raw stored → http_headers_ m = Some h →
  temp_header_value_holder_ m = [] → temp_header_name_holder_ m = [] →
  run prev HeaderName m (HTTPHeaders.header_line raw ++ rest)
  = run (Done LF) HeaderName
      (set_headers m (Some (HTTPHeaders.addHeader h stored))) rest.
Proof.
  intros (Hn&Hs&Hv) Hh Htv Htn. unfold HTTPHeaders.header_line, CRLF. rewrite <- !app_assoc. cbn [app].
  rewrite (run_until _ _ HeaderValue _ pushBackHeaderName); [|done| |done].
  2:{ intros. apply switch_name. by eapply forallb_elem. }
  rewrite (run_value _ _ stored.2) by done. rewrite foldl_pushBackHeaderName.
  rewrite run_active by done. cbn [switch_case request_line_case header_case]. rewrite bool_decide_eq_true_2 by done.
  unfold addTempHeadersHolderToMessage. simpl. rewrite Hh, Htn, Htv. simpl.
  destruct stored as [n v]. simpl in *. subst. unfold set_holders, set_headers. simpl.
  by rewrite Htn, Htv.
Qed.

Lemma run_header_lines prev m h raws stored rest :
  Forall2 header_ok raws stored → http_headers_ m = Some h →
  temp_header_value_holder_ m = [] → temp_header_name_holder_ m = [] →
  ∃ prev', run prev HeaderName m (HTTPHeaders.header_lines raws ++ rest)
  = run prev' HeaderName
      (set_headers m (Some (HTTPHeaders.addHeaders h stored))) rest.
Proof.
  intros Hok. revert prev m h.
  induction Hok as [|raw s raws stored Hr Hok IH]; intros prev m h Hh Hv Hn.
  { exists prev. simpl. destruct m. simpl in *. by subst. }
  simpl. rewrite <- app_assoc, (run_header_line _ _ h _ s) by done.
  eapply (IH _ (set_headers m _)); done.
Qed.

(** The blank line that ends the headers. *)
Lemma run_headers_end prev m body :
  run prev HeaderName m (CRLF ++ body) =
    match classify (temp_http_method_holder_ m) with
    | Some (st, t) => run (Done LF) st (setRequestType m t) body
    | None => OutOfFuel
    end.
Proof.
  unfold CRLF. cbn [app]. rewrite run_active by done. cbn [switch_case request_line_case header_case].
  replace (is_token CR) with false by done. rewrite bool_decide_eq_false_2 by done.
  unfold expect. rewrite bool_decide_eq_true_2, Done_bind by done.
  rewrite run_active by done. cbn [switch_case request_line_case header_case]. rewrite bool_decide_eq_true_2 by done.
  rewrite classify_method_spec, !Done_bind. unfold getTempRequestMethod.
  by destruct (classify _) as [[st t]|].
Qed.

(** What the request line leaves in the message. *)
Definition line_message (m : HTTPRequestMessage) (method target minor : bytes) :=
  mkHTTPRequestMessage (http_headers_ m) (raw_body_ m) (request_type_ m)
    (if minor is [] then http_message_version_ m else HTTP1_1)
    (target_resource_ m ++ target) (temp_header_value_holder_ m)
    (temp_header_name_holder_ m) (temp_http_method_holder_ m ++ method).

Lemma run_request_line prev m method target major minor rest :
  is_tokens method = true → method ≠ [] → forallb is_visible target = true →
  is_digit major = true → forallb is_digit minor = true →
  run prev RequestLineBegin m (request_line method target major minor ++ rest)
  = run (Done LF) HeaderName (line_message m method target minor) rest.
Proof.
  intros Hm Hne Ht Hj Hn. destruct method as [|c method]; [done|].
  apply andb_true_iff in Hm as [Hc Hm]. fold (is_tokens method) in Hm.
  unfold request_line, CRLF. rewrite <- !app_assoc. cbn [app].
  rewrite run_active by done. cbn [switch_case request_line_case header_case]. rewrite Hc, Done_bind.
  rewrite (run_until _ _ RequestResource _ pushBackRequestMethod); [|done| |done].
  2:{ intros. apply switch_method. by eapply forallb_elem. }
  rewrite (run_until _ _ RequestProtocolH _ pushBackTargetResource); [|done| |done].
  2:{ intros. apply switch_resource. by eapply forallb_elem. }
  rewrite foldl_pushBackRequestMethod, foldl_pushBackTargetResource.
  match goal with |- run _ _ ?m (_ ++ major :: ?l) = _ =>
    change (run (Done SP) RequestProtocolH m ($"HTTP/" ++ major :: l))
    with (run (Done (chr 47)) RequestProtocolVersionMajor m (major :: l)) end.
  apply digit_facts in Hj. rewrite run_active by done. cbn [switch_case request_line_case header_case].
  rewrite Hj, Done_bind. unfold expect. rewrite Done_bind.
  match goal with |- run _ _ ?m (_ ++ ?l) = _ =>
    change (run (Done major) RequestProtocolDot m ($"." ++ l))
    with (run (Done (chr 46)) RequestProtocolVersionMinor m l) end.
  rewrite (run_until _ _ RequestLineLF _ (λ m _, setHTTPVersion m HTTP1_1));
    [|done| |done].
  2:{ intros. apply switch_minor. by eapply forallb_elem. }
  rewrite foldl_setHTTPVersion.
  rewrite run_active by done. cbn [switch_case request_line_case header_case]. unfold expect.
  rewrite bool_decide_eq_true_2, Done_bind by done.
  f_equal. unfold line_message, set_version, set_target, set_holders. simpl.
  by rewrite <- app_assoc.
Qed.

Definition request_text (method target : bytes) (major : char) (minor : bytes)
    (raws : list (bytes * bytes)) (body : bytes) : bytes :=
  request_line method target major minor ++ HTTPHeaders.header_lines raws ++ CRLF ++ body.

(** A message as [create] makes it, up to its buffer, table, type and version:
    nothing parsed into it yet. *)
Definition fresh (m : HTTPRequestMessage) (h : HTTPHeaders.HTTPHeaders) : Prop :=
  http_headers_ m = Some h ∧ target_resource_ m = []
  ∧ temp_header_value_holder_ m = [] ∧ temp_header_name_holder_ m = []
  ∧ temp_http_method_holder_ m = [].

(** The message after the headers of a request of type [t]. *)
Definition parsed (m : HTTPRequestMessage) (h : HTTPHeaders.HTTPHeaders)
    (method target minor : bytes) (stored : list (bytes * bytes))
    (t : HTTPRequestType) : HTTPRequestMessage :=
  mkHTTPRequestMessage (Some (HTTPHeaders.addHeaders h stored)) (raw_body_ m) t
    (if minor is [] then http_message_version_ m else HTTP1_1)
    target [] [] method.

Lemma run_request prev m h method target major minor raws stored body :
  fresh m h →
  is_tokens method = true → method ≠ [] → forallb is_visible target = true →
  is_digit major = true → forallb is_digit minor = true →
  Forall2 header_ok raws stored →
  run prev RequestLineBegin m (request_text method target major minor raws body)
  = match classify method with
    | Some (st, t) => run (Done LF) st (parsed m h method target minor stored t) body
    | None => OutOfFuel
    end.
Proof.
  intros (Hh&Ht0&Hv&Hn&Hm) ??????. unfold request_text.
  rewrite run_request_line by done.
  destruct (run_header_lines (Done LF) (line_message m method target minor) h
              raws stored (CRLF ++ body)) as [prev' ->]; [done..|].
  rewrite run_headers_end. unfold line_message, parsed, setRequestType, set_type,
    set_headers. simpl. rewrite Hm, Ht0, Hv, Hn. simpl.
  by destruct (classify method) as [[st t]|].
Qed.

(** *** The body *)
Lemma pushBackRawBody_repr m b s d :
  raw_body_ m = Some b → repr b s → capacity_ b + Z.of_nat (length d) < size_max →
  (∀ n, alloc_ok n = true) →
  ∃ b', pushBackRawBody m d = Done (set_body m (Some b')) ∧ repr b' (s ++ d)
        ∧ capacity_ b' <= capacity_ b + Z.of_nat (length d).
Proof.
  intros Hb Hr Hmax Ha. destruct (append_repr 2 b s d) as (b'&Hb'&Hr'&Hc&_); try done.
  exists b'. unfold pushBackRawBody. rewrite Hb. simpl deref. rewrite Done_bind, Hb'.
  split_and!; [done..|]. rewrite Hc. apply append_capacity_bound. lia.
Qed.

(** What a non-empty rest of the input does in a state that is not active. *)
Lemma run_rest prev st m b s d :
  active st = false → raw_body_ m = Some b → repr b s →
  capacity_ b + Z.of_nat (length d) < size_max → (∀ n, alloc_ok n = true) →
  ∃ b', run prev st m d = Done (st, set_body m (Some b'))
        ∧ repr b' (if st is MessageBody then s ++ d else s)
        ∧ capacity_ b' <= capacity_ b + Z.of_nat (length d).
Proof.
  intros Hst Hb Hr Hmax Ha.
  assert (set_body m (Some b) = m) as Hm by (destruct m; simpl in *; by subst).
  destruct d as [|c d].
  { exists b. simpl. rewrite Hm. split; [done|]. split; [|lia].
    destruct st; try done. by rewrite app_nil_r. }
  destruct st; try done; cbn [run].
  - exists b. rewrite Hm. split_and!; [done..|lia].
  - destruct (pushBackRawBody_repr m b s (c :: d)) as (b'&->&?&?); try done.
    by exists b'.
  - exists b. rewrite Hm. split_and!; [done..|lia].
Qed.
End grammar.

Section theorems.
Context `{Allocator}.

(** The parser on a buffer that holds [l] is the machine on [l]. *)
Lemma Parse_run fuel buf l st m :
  repr buf l → (length l + 2 <= fuel)%nat →
  ParseHTTP1_1RequestMessage fuel buf st m = run (prev_read buf) st m l.
Proof.
  intros (b&Hb&Hl&_&Hh&He) Hf. unfold ParseHTTP1_1RequestMessage, prev_read.
  by rewrite Hb, He, (parse_loop_run _ _ _ l).
Qed.

Lemma parse_loop_mono fuel fuel' b p e st m :
  (fuel <= fuel')%nat → parse_loop fuel b p e st m ≠ OutOfFuel →
  parse_loop fuel' b p e st m = parse_loop fuel b p e st m.
Proof.
  revert fuel' p st m. induction fuel as [|fuel IH]; intros fuel' p st m Hf Hr; [done|].
  destruct fuel' as [|fuel']; [lia|].
  destruct (decide (p = e)) as [->|Hp]; [simpl; by rewrite Z.eqb_refl|].
  destruct (active st) eqn:Ha; [|by destruct st].
  rewrite !parse_loop_active in * by done.
  destruct (mem_read b p) as [c| | | |]; try done. rewrite !Done_bind in *.
  destruct (switch_case _ _ _ _) as [[]| | | |]; try done; rewrite !Done_bind in *;
    apply IH; (done || lia).
Qed.

(** A result that is [OutOfFuel] with enough fuel is so with any fuel. *)
Lemma Parse_diverges fuel buf l st m :
  repr buf l → (length l + 2 <= fuel)%nat →
  ParseHTTP1_1RequestMessage fuel buf st m = OutOfFuel →
  ∀ fuel', ParseHTTP1_1RequestMessage fuel' buf st m = OutOfFuel.
Proof.
  intros (b&Hb&Hl&_&Hh&He) Hf Hr fuel'. unfold ParseHTTP1_1RequestMessage in *.
  rewrite Hb in *. destruct (Nat.le_ge_cases fuel fuel').
  - rewrite He in *. rewrite parse_loop_run in * by (done || lia). done.
  - destruct (parse_loop fuel' _ _ _ _ _) eqn:Hr'; try done; exfalso;
      by rewrite (parse_loop_mono fuel' fuel), Hr' in Hr by (done || by rewrite Hr').
Qed.

(** C1: Every well formed HTTP/1 request is parsed as its grammar says: the request
    line, each header under its name (the first one of a name wins), the
    method's type, and the body of a POST or PUT. The methods are recognised by
    prefix; for any other method the parser never returns. *)
Theorem ParseHTTP1_1RequestMessage_correct fuel buf m h b
    method target major minor raws stored body :
  repr buf (request_text method target major minor raws body) →
  (length (request_text method target major minor raws body) + 2 <= fuel)%nat →
  is_tokens method = true → method ≠ [] → forallb is_visible target = true →
  is_digit major = true → forallb is_digit minor = true →
  Forall2 header_ok raws stored →
  fresh m h → raw_body_ m = Some b → repr b [] →
  capacity_ b + Z.of_nat (length body) < size_max → (∀ n, alloc_ok n = true) →
  match classify method with
  | Some (st, t) => ∃ b',
      ParseHTTP1_1RequestMessage fuel buf RequestLineBegin m
      = Done (st, set_body (parsed m h method target minor stored t) (Some b'))
      ∧ repr b' (if st is MessageBody then body else [])
  | None => ∀ fuel', ParseHTTP1_1RequestMessage fuel' buf RequestLineBegin m = OutOfFuel
  end.
Proof.
  intros Hr Hf ?????? Hfr Hb Hrb Hmax Ha.
  pose proof (Parse_run fuel _ _ RequestLineBegin m Hr Hf) as Hp.
  rewrite (run_request _ _ h _ _ _ _ _ stored) in Hp by done.
  destruct (classify method) as [[st t]|] eqn:Hc; [|by eapply Parse_diverges].
  rewrite Hp. assert (active st = false) as Hst.
  { unfold classify in Hc. repeat case_match; by simplify_eq. }
  destruct (run_rest (Done LF) st (parsed m h method target minor stored t) b [] body)
    as (b'&Hrun&Hrep&_); [done..|]. exists b'. by destruct st.
Qed.

(** *** Divergence *)
Lemma switch_case_body st m c prev st' m' :
  switch_case st m c prev = Done (Advance st' m') → raw_body_ m' = raw_body_ m.
Proof.
  intros Hs. destruct st; simpl in Hs;
    unfold expect, fail, addTempHeadersHolderToMessage in Hs;
    rewrite ?classify_method_spec in Hs.
  all: repeat (case_match || res_inv); simplify_eq/=; done.
Qed.

Lemma switch_case_fuel st m c prev :
  prev ≠ OutOfFuel → switch_case st m c prev ≠ OutOfFuel.
Proof.
  intros Hp. pose proof (isprint_fuel c). pose proof (isdigit_fuel c).
  destruct st; simpl; unfold expect, fail, addTempHeadersHolderToMessage;
    rewrite ?classify_method_spec; repeat (simpl; case_match); try done.
  all: repeat (apply bind_fuel; [|intros]); try done; try by case_match.
  by destruct (http_headers_ m).
Qed.

(** The body buffer the messages of this section have: room for [n] more
    bytes. *)
Definition body_room (m : HTTPRequestMessage) (n : nat) : Prop :=
  ∃ b s, raw_body_ m = Some b ∧ repr b s ∧ capacity_ b + Z.of_nat n < size_max.

Lemma body_room_le m m' n n' :
  body_room m n → raw_body_ m' = raw_body_ m → (n' <= n)%nat → body_room m' n'.
Proof. intros (b&s&Hb&Hr&Hc) Hm Hn. exists b, s. rewrite Hm. split_and!; [done..|lia]. Qed.

Lemma pushBackRawBody_fuel m d :
  body_room m (length d) → pushBackRawBody m d ≠ OutOfFuel.
Proof.
  intros (b&s&Hb&Hr&Hc). unfold pushBackRawBody. rewrite Hb. simpl deref.
  rewrite Done_bind. apply bind_fuel; [|done].
  pose proof (append_fuel b s d Hr Hc) as Hf. by destruct (appendRawBytes 2 b (init d)).
Qed.

(** The character at which the machine stops for ever. *)
Definition stuck (st : ParserState) (m : HTTPRequestMessage) (c : char) : Prop :=
  st = HeaderEndLF ∧ (c ≠ LF ∨ classify (temp_http_method_holder_ m) = None).

Lemma switch_case_stuck st m c prev :
  stuck st m c → ∃ m', switch_case st m c prev = Done (Stay HeaderEndLF m').
Proof.
  intros [-> Hc]. cbn [switch_case request_line_case header_case]. case_bool_decide as Hlf; [|eauto].
  destruct Hc as [|Hc]; [done|]. rewrite classify_method_spec.
  unfold getTempRequestMethod. rewrite Hc, !Done_bind. eauto.
Qed.

Lemma run_diverges prev st m l :
  prev ≠ OutOfFuel → body_room m (length l) →
  run prev st m l = OutOfFuel ↔
  ∃ l1 c l2 st' m', l = l1 ++ c :: l2 ∧ run prev st m l1 = Done (st', m')
    ∧ stuck st' m' c.
Proof.
  revert prev st m. induction l as [|c l IH]; intros prev st m Hp Hroom.
  { split; [done|]. intros ([]&?&?&?&?&?&_); done. }
  destruct (active st) eqn:Ha.
  2:{ split.
      - destruct st; try done. simpl. intros Hd. exfalso. revert Hd.
        apply bind_fuel; [by apply pushBackRawBody_fuel|done].
      - intros ([|d l1]&c'&l2&st'&m'&Heq&Hrun&[-> _]); [simpl in Hrun; by simplify_eq|].
        destruct st; try done. simpl in Hrun. by res_inv. }
  assert ((∃ l1 c' l2 st' m', c :: l = l1 ++ c' :: l2
             ∧ run prev st m l1 = Done (st', m') ∧ stuck st' m' c')
          ↔ stuck st m c ∨ ∃ l1 c' l2 st' m', l = l1 ++ c' :: l2
             ∧ run prev st m (c :: l1) = Done (st', m') ∧ stuck st' m' c') as ->.
  { split.
    - intros ([|d l1]&c'&l2&st'&m'&Heq&Hrun&Hst); simplify_eq/=; [by left|right; eauto 10].
    - intros [Hst|(l1&c'&l2&st'&m'&->&Hrun&Hst)].
      + exists [], c, l, st, m. done.
      + exists (c :: l1), c', l2, st', m'. done. }
  setoid_rewrite run_active; [|done..].
  assert (∀ P Q : Prop, ¬ P → ¬ Q →
    (∀ m', switch_case st m c prev ≠ Done (Stay HeaderEndLF m')) →
    P ↔ stuck st m c ∨ Q) as not_stuck.
  { intros P Q ?? Hns. split; [done|]. intros [Hst|]; [|done].
    by destruct (switch_case_stuck _ _ _ prev Hst) as [? ?%Hns]. }
  destruct (switch_case st m c prev) as [[st' m'|st' m']| | | |] eqn:Hs;
    cbn [mbind res_bind].
  - rewrite IH; [|done|eapply body_room_le; [done|by eapply switch_case_body|simpl; lia]].
    split; [by right|]. intros [Hst|]; [|done].
    destruct (switch_case_stuck _ _ _ prev Hst) as [? Hs']. congruence.
  - apply switch_case_stay in Hs as Hst'; [|done].
    destruct Hst' as [->|(->&->&_&Hst')]; [|split; [by left|done]].
    apply not_stuck; [done| |congruence]. by intros (?&?&?&?&?&_&?&[? _]); simplify_eq.
  - apply not_stuck; [done|by intros (?&?&?&?&?&_&?&_)|congruence].
  - apply not_stuck; [done|by intros (?&?&?&?&?&_&?&_)|congruence].
  - apply not_stuck; [done|by intros (?&?&?&?&?&_&?&_)|congruence].
  - by apply switch_case_fuel in Hs.
Qed.

Lemma first_part_run fuel buf l1 l2 st m :
  repr buf (l1 ++ l2) → (length (l1 ++ l2) + 2 <= fuel)%nat →
  ParseHTTP1_1RequestMessage fuel (first_part buf l2) st m
  = run (prev_read buf) st m l1.
Proof.
  intros Hr Hf. by rewrite (Parse_run _ _ l1) by (by apply first_part_repr || len_lia).
Qed.

Lemma second_part_run fuel buf l1 l2 st m :
  repr buf (l1 ++ l2) → (length (l1 ++ l2) + 2 <= fuel)%nat →
  ParseHTTP1_1RequestMessage fuel (second_part buf l1) st m
  = run (List.last (Done <$> l1) (prev_read buf)) st m l2.
Proof.
  intros Hr Hf. rewrite (Parse_run _ _ l2) by (by eapply second_part_repr || len_lia).
  by rewrite (second_part_prev _ _ l2).
Qed.

(** C7: The parser returns on every input but these: a character other than LF
    after the CR that ends the headers, or a request whose method is not
    recognised. There it loops for ever, whatever the fuel. *)
Theorem ParseHTTP1_1RequestMessage_returns_iff fuel buf st m l :
  repr buf l → (length l + 2 <= fuel)%nat → body_room m (length l) →
  (∀ fuel', ParseHTTP1_1RequestMessage fuel' buf st m = OutOfFuel) ↔
  ∃ l1 c l2 st' m', l = l1 ++ c :: l2
    ∧ ParseHTTP1_1RequestMessage fuel (first_part buf (c :: l2)) st m = Done (st', m')
    ∧ stuck st' m' c.
Proof.
  intros Hr Hf Hroom. transitivity (run (prev_read buf) st m l = OutOfFuel).
  { rewrite <- (Parse_run fuel) by done. split; [done|]. by apply Parse_diverges with l. }
  rewrite run_diverges by (done || apply prev_read_fuel).
  split; intros (l1&c&l2&st'&m'&->&Hrun&Hst); exists l1, c, l2, st', m';
    pose proof (first_part_run fuel buf l1 (c :: l2) st m Hr Hf);
    (split; [done|split; [congruence|done]]).
Qed.

(** *** Incremental parsing *)
Lemma set_body_twice m b b' : set_body (set_body m b) b' = set_body m b'.
Proof. done. Qed.

Lemma run_app prev st m b s l1 l2 :
  raw_body_ m = Some b → repr b s → (∀ n, alloc_ok n = true) →
  capacity_ b + Z.of_nat (length (l1 ++ l2)) < size_max →
  run prev st m (l1 ++ l2) ≡
    (r ← run prev st m l1; run (List.last (Done <$> l1) prev) r.1 r.2 l2).
Proof.
  intros Hb Hr Ha. revert prev st m Hb. induction l1 as [|c l1 IH]; intros prev st m Hb Hc.
  { done. }
  destruct (active st) eqn:Hst.
  - cbn [app]. rewrite !run_active by done.
    destruct (switch_case st m c prev) as [[st' m'|st' m']| | | |] eqn:Hs; try done;
      cbn [mbind res_bind].
    + rewrite IH; [|by rewrite (switch_case_body _ _ _ _ _ _ Hs)|len_lia].
      by rewrite <- (last_cons_default (Done c) (Done <$> l1) prev).
    + destruct st'; try done. cbn [mbind res_bind fst snd]. by destruct l2.
  - destruct (run_rest prev st m b s (c :: l1)) as (b1&->&Hr1&Hc1); [done..|len_lia|done|].
    destruct (run_rest prev st m b s (c :: l1 ++ l2)) as (b2&Hrun2&Hr2&_); [done..|].
    cbn [app]. rewrite Hrun2. cbn [mbind res_bind fst snd].
    destruct (run_rest (List.last (Done <$> c :: l1) prev) st (set_body m (Some b1)) b1
      (if st is MessageBody then s ++ c :: l1 else s) l2) as (b3&->&Hr3&_);
      [done|done|by destruct st|len_lia|done|].
    rewrite set_body_twice. split; [done|]. simpl.
    eapply set_body_equiv; [exact Hr2|]. destruct st; try done.
    by rewrite <- (app_assoc s) in Hr3.
Qed.

(** C3: The parser can be fed its input in pieces, cut anywhere: parsing the first
    part and then, in the state and with the message that gave, the second
    part of the buffer gives the result of parsing the whole. *)
Theorem ParseHTTP1_1RequestMessage_incremental fuel buf st m b s l1 l2 :
  repr buf (l1 ++ l2) → (length (l1 ++ l2) + 2 <= fuel)%nat →
  raw_body_ m = Some b → repr b s →
  capacity_ b + Z.of_nat (length (l1 ++ l2)) < size_max → (∀ n, alloc_ok n = true) →
  ParseHTTP1_1RequestMessage fuel buf st m ≡
    (r ← ParseHTTP1_1RequestMessage fuel (first_part buf l2) st m;
     ParseHTTP1_1RequestMessage fuel (second_part buf l1) r.1 r.2).
Proof.
  intros Hr Hf Hb Hs Hmax Ha. rewrite (Parse_run fuel _ _ _ _ Hr Hf).
  rewrite (run_app _ _ _ b s) by done.
  rewrite (first_part_run fuel buf l1 l2) by done.
  destruct (run _ _ _ l1) as [[st1 m1]| | | |]; try done. cbn [mbind res_bind fst snd].
  by rewrite (second_part_run fuel buf l1 l2).
Qed.

(** A header value with a space anywhere but right after a colon, or with a
    control character, makes the whole request a protocol error; the headers
    before it have been stored. *)
Theorem ParseHTTP1_1RequestMessage_rejects_value fuel buf m h
    method target major minor raws stored name v1 v c rest :
  let text := request_line method target major minor ++ HTTPHeaders.header_lines raws
              ++ name ++ [chr 58] ++ v1 ++ c :: rest in
  repr buf text → (length text + 2 <= fuel)%nat →
  is_tokens method = true → method ≠ [] → forallb is_visible target = true →
  is_digit major = true → forallb is_digit minor = true →
  Forall2 header_ok raws stored → fresh m h →
  is_tokens name = true → request_value (chr 58) v1 = Some v →
  bad_value_char (List.last v1 (chr 58)) c = true →
  ∃ m', ParseHTTP1_1RequestMessage fuel buf RequestLineBegin m
        = Done (ProtocolError, m')
        ∧ http_headers_ m' = Some (HTTPHeaders.addHeaders h stored).
Proof.
  intros text Hr Hf ?????? (Hh&Ht0&Hv0&Hn0&Hm0) Hn Hv Hc. subst text.
  rewrite (Parse_run fuel _ _ _ _ Hr Hf), run_request_line by done.
  destruct (run_header_lines (Done LF) (line_message m method target minor) h
    raws stored (name ++ [chr 58] ++ v1 ++ c :: rest)) as [prev' ->]; [done..|].
  cbn [app]. rewrite (run_until _ _ HeaderValue _ pushBackHeaderName); [|done| |done].
  2:{ intros. apply switch_name. by eapply forallb_elem. }
  rewrite (run_value_part _ _ v), run_bad_char by done.
  eexists. split; [done|]. by rewrite foldl_pushBackHeaderName.
Qed.

(** *** Printing and parsing *)
(** The value a header must have to be read back as it was printed. *)
Definition printable_header (h : bytes * bytes) : Prop :=
  is_tokens h.1 = true ∧ request_value SP h.2 = Some h.2.

#[export] Instance printable_header_dec h : Decision (printable_header h).
Proof. unfold printable_header. apply _. Defined.

Lemma printable_header_ok h : printable_header h → header_ok (h.1, SP :: h.2) h.
Proof. intros [Hn Hv]. done. Qed.

Definition method_name (t : HTTPRequestType) : bytes :=
  match t with
  | Get => $"GET" | Post => $"POST" | Head => $"HEAD" | Put => $"PUT"
  | Connect => $"CONNECT" | Unsupported => $"UNSUPPORTED"
  end.

Lemma method_text_name t : method_text t = method_name t ++ [SP].
Proof. by destruct t. Qed.

Lemma buildRawMessage_text `{HTTPHeaders.HashOrder} m h b body :
  http_headers_ m = Some h → raw_body_ m = Some b → repr b body →
  buildRawMessage m = Done (request_text (method_name (request_type_ m))
    (target_resource_ m) (chr 49) [chr 49]
    (HTTPHeaders.spaced <$> HTTPHeaders.hash_order (HTTPHeaders.http_headers_ h))
    body).
Proof.
  intros Hh Hb Hr. unfold buildRawMessage. rewrite Hh, Hb. simpl.
  rewrite (repr_iter _ _ Hr), Done_bind. f_equal.
  unfold request_text, request_line, HTTPHeaders.buildRawHeader.
  rewrite HTTPHeaders.raw_header_lines_text, method_text_name, <- !app_assoc. done.
Qed.

Lemma printed_headers_ok `{HTTPHeaders.HashOrder} t :
  map_Forall (λ n v, printable_header (n, v)) t →
  Forall2 header_ok (HTTPHeaders.spaced <$> HTTPHeaders.hash_order t)
    (HTTPHeaders.hash_order t).
Proof.
  intros Hall. apply Forall2_fmap_l, Forall_Forall2_diag, Forall_forall.
  intros [n v] Hnv. apply printable_header_ok, Hall.
  rewrite HTTPHeaders.hash_order_perm in Hnv. by apply elem_of_map_to_list.
Qed.

(** The types whose requests the parser finishes, and how. *)
Definition final_state (t : HTTPRequestType) : option ParserState :=
  match t with
  | Get | Head => Some ParsingDone
  | Post | Put => Some MessageBody
  | Connect | Unsupported => None
  end.

Lemma classify_method_name t :
  classify (method_name t) = (st ← final_state t; Some (st, t)).
Proof. by destruct t. Qed.

Lemma method_name_tokens t : is_tokens (method_name t) = true ∧ method_name t ≠ [].
Proof. by destruct t. Qed.

(** A printed message, in any order of its headers, on the machine. *)
Lemma run_printed_request `{HTTPHeaders.HashOrder} prev raw m h b body m0 b0 st :
  http_headers_ m = Some h → raw_body_ m = Some b → repr b body →
  final_state (request_type_ m) = Some st →
  forallb is_visible (target_resource_ m) = true →
  map_Forall (λ n v, printable_header (n, v)) (HTTPHeaders.http_headers_ h) →
  buildRawMessage m = Done raw →
  fresh m0 HTTPHeaders.empty_headers → raw_body_ m0 = Some b0 → repr b0 [] →
  capacity_ b0 + Z.of_nat (length body) < size_max → (∀ n, alloc_ok n = true) →
  ∃ m', run prev RequestLineBegin m0 raw = Done (st, m')
    ∧ request_type_ m' = request_type_ m ∧ target_resource_ m' = target_resource_ m
    ∧ http_headers_ m' = Some h ∧ http_message_version_ m' = HTTP1_1
    ∧ (st = MessageBody → raw_body_ m' ≡ raw_body_ m).
Proof.
  intros Hh Hb Hr Ht Htv Hall Hraw Hfresh Hb0 Hr0 Hmax Ha.
  rewrite (buildRawMessage_text _ h b body) in Hraw by done. injection Hraw as <-.
  destruct (method_name_tokens (request_type_ m)).
  rewrite (run_request _ _ HTTPHeaders.empty_headers _ _ _ _ _
    (HTTPHeaders.hash_order (HTTPHeaders.http_headers_ h)))
    by (done || by apply printed_headers_ok).
  rewrite classify_method_name, Ht. cbn [mbind option_bind].
  destruct (run_rest (Done LF) st (parsed m0 HTTPHeaders.empty_headers
    (method_name (request_type_ m)) (target_resource_ m) [chr 49]
    (HTTPHeaders.hash_order (HTTPHeaders.http_headers_ h)) (request_type_ m))
    b0 [] body) as (b'&->&Hr'&_);
    [by destruct (request_type_ m); simplify_eq/=|done..|].
  eexists. split; [done|]. simpl. rewrite HTTPHeaders.addHeaders_order.
  split_and!; [done..|]. intros ->. rewrite Hb. constructor. by eapply repr_equiv.
Qed.
(** C6: A GET, HEAD, POST or PUT message printed by [buildRawMessage], in any order
    of its headers, is parsed back when its target has visible characters only
    and its headers can be read ([printable_header]: the name a token, no space
    or control character in the value): same type, target and header table, and
    the body of a POST or PUT. A CONNECT or a type without a name does not return
    ([ParseHTTP1_1RequestMessage_returns_iff]). *)
Theorem request_roundtrip `{HTTPHeaders.HashOrder} fuel buf raw m h b body m0 b0 st :
  http_headers_ m = Some h → raw_body_ m = Some b → repr b body →
  final_state (request_type_ m) = Some st →
  forallb is_visible (target_resource_ m) = true →
  map_Forall (λ n v, printable_header (n, v)) (HTTPHeaders.http_headers_ h) →
  buildRawMessage m = Done raw → repr buf raw → (length raw + 2 <= fuel)%nat →
  fresh m0 HTTPHeaders.empty_headers → raw_body_ m0 = Some b0 → repr b0 [] →
  capacity_ b0 + Z.of_nat (length body) < size_max → (∀ n, alloc_ok n = true) →
  ∃ m', ParseHTTP1_1RequestMessage fuel buf RequestLineBegin m0 = Done (st, m')
    ∧ request_type_ m' = request_type_ m ∧ target_resource_ m' = target_resource_ m
    ∧ http_headers_ m' = Some h ∧ http_message_version_ m' = HTTP1_1
    ∧ (st = MessageBody → raw_body_ m' ≡ raw_body_ m).
Proof.
  intros Hh Hb Hr Ht Htv Hall Hraw Hbuf Hf. rewrite (Parse_run fuel _ _ _ _ Hbuf Hf).
  by apply (run_printed_request _ raw m h b body).
Qed.
End theorems.

(** ** Concrete runs *)
Definition post_headers : list (bytes * bytes) :=
  [($"Host", $" localhost:80"); ($"Content-Length", $" 3"); ($"Host", $"other")].
Definition post_stored : list (bytes * bytes) :=
  [($"Host", $"localhost:80"); ($"Content-Length", $"3"); ($"Host", $"other")].
Definition post_text : bytes :=
  request_text $"POST" $"/index.php?a=b" (chr 49) $"1" post_headers $"a=b".

Lemma post_headers_ok : Forall2 header_ok post_headers post_stored.
Proof. repeat constructor. Defined.

Lemma empty_message_fresh : fresh empty_message HTTPHeaders.empty_headers.
Proof. repeat constructor. Defined.

Lemma empty_body_repr : repr (new_buffer initial_capacity_) [].
Proof. apply new_buffer_repr. split; [discriminate|reflexivity]. Qed.

(** Two headers under one name: the first one is kept. *)
Lemma ParseHTTP1_1RequestMessage_correct_witness :
  ∃ b', @ParseHTTP1_1RequestMessage total_alloc 200 (buffer_of post_text)
          RequestLineBegin empty_message
    = Done (MessageBody, set_body (parsed empty_message HTTPHeaders.empty_headers
        $"POST" $"/index.php?a=b" $"1" post_stored Post) (Some b'))
    ∧ repr b' $"a=b".
Proof.
  refine (@ParseHTTP1_1RequestMessage_correct total_alloc 200 (buffer_of post_text)
    empty_message HTTPHeaders.empty_headers (new_buffer initial_capacity_)
    $"POST" $"/index.php?a=b" (chr 49) $"1" post_headers post_stored $"a=b"
    _ _ _ _ _ _ _ _ _ _ _ _ _); try reflexivity.
  - apply buffer_of_repr. reflexivity.
  - apply Nat.leb_le. reflexivity.
  - discriminate.
  - exact post_headers_ok.
  - exact empty_message_fresh.
  - exact empty_body_repr.
Defined.

(** A request with a method of RFC 7231 that the parser does not know. *)
Definition delete_text : bytes :=
  request_text $"DELETE" $"/" (chr 49) $"1" [] [].

Lemma ParseHTTP1_1RequestMessage_returns_iff_witness :
  classify $"DELETE" = None
  ∧ ∀ fuel, @ParseHTTP1_1RequestMessage total_alloc fuel (buffer_of delete_text)
            RequestLineBegin empty_message = OutOfFuel.
Proof.
  split; [reflexivity|].
  apply (@ParseHTTP1_1RequestMessage_returns_iff total_alloc 50 (buffer_of delete_text)
    RequestLineBegin empty_message delete_text).
  - apply buffer_of_repr. reflexivity.
  - apply Nat.leb_le. reflexivity.
  - exists (new_buffer initial_capacity_), []. split; [reflexivity|].
    split; [exact empty_body_repr|reflexivity].
  - exists ($"DELETE / HTTP/1.1" ++ [CR; LF; CR]), LF, [].
    eexists _, _. split; [reflexivity|]. split; [reflexivity|].
    split; [reflexivity|right; reflexivity].
Defined.

(** Cut in the middle of a header and of the body. *)
Lemma ParseHTTP1_1RequestMessage_incremental_witness :
  @ParseHTTP1_1RequestMessage total_alloc 200 (buffer_of post_text)
    RequestLineBegin empty_message
  ≡ (r ← @ParseHTTP1_1RequestMessage total_alloc 200
           (first_part (buffer_of post_text) (drop 40 post_text))
           RequestLineBegin empty_message;
     @ParseHTTP1_1RequestMessage total_alloc 200
       (second_part (buffer_of post_text) (take 40 post_text)) r.1 r.2).
Proof.
  apply (@ParseHTTP1_1RequestMessage_incremental total_alloc 200 (buffer_of post_text)
    RequestLineBegin empty_message (new_buffer initial_capacity_) []
    (take 40 post_text) (drop 40 post_text)); try reflexivity.
  - apply (buffer_of_repr post_text). reflexivity.
  - apply Nat.leb_le. reflexivity.
  - exact empty_body_repr.
Defined.

(** A usual [User-Agent] with a comment. *)
Definition agent_text : bytes :=
  request_line $"GET" $"/" (chr 49) $"1" ++ HTTPHeaders.header_lines [($"Host", $" localhost")]
  ++ $"User-Agent" ++ [chr 58] ++ $" Mozilla/5.0"
  ++ SP :: $"(X11)" ++ CRLF ++ CRLF.

Lemma ParseHTTP1_1RequestMessage_rejects_value_witness :
  ∃ m', @ParseHTTP1_1RequestMessage total_alloc 100 (buffer_of agent_text)
          RequestLineBegin empty_message = Done (ProtocolError, m')
        ∧ http_headers_ m' = Some (HTTPHeaders.addHeaders HTTPHeaders.empty_headers
            [($"Host", $"localhost")]).
Proof.
  apply (@ParseHTTP1_1RequestMessage_rejects_value total_alloc 100 (buffer_of agent_text)
    empty_message HTTPHeaders.empty_headers $"GET" $"/" (chr 49) $"1"
    [($"Host", $" localhost")] [($"Host", $"localhost")]
    $"User-Agent" $" Mozilla/5.0" $"Mozilla/5.0" SP ($"(X11)" ++ CRLF ++ CRLF));
    try reflexivity.
  - apply (buffer_of_repr agent_text). reflexivity.
  - apply Nat.leb_le. reflexivity.
  - discriminate.
  - repeat constructor.
  - exact empty_message_fresh.
Defined.

Definition put_message : HTTPRequestMessage :=
  mkHTTPRequestMessage
    (Some (HTTPHeaders.addHeaders HTTPHeaders.empty_headers
             [($"Host", $"a:80"); ($"Accept", $"*/*")]))
    (Some (buffer_of $"payload")) Put HTTP1_1 $"/r/1" [] [] [].
Definition put_text : bytes :=
  match @buildRawMessage HTTPHeaders.map_to_list_order put_message with Done raw => raw | _ => [] end.

Lemma request_roundtrip_witness :
  ∃ m', @ParseHTTP1_1RequestMessage total_alloc 100 (buffer_of put_text)
          RequestLineBegin empty_message = Done (MessageBody, m')
    ∧ request_type_ m' = Put ∧ target_resource_ m' = $"/r/1"
    ∧ http_headers_ m' = http_headers_ put_message ∧ http_message_version_ m' = HTTP1_1
    ∧ (MessageBody = MessageBody → raw_body_ m' ≡ Some (buffer_of $"payload")).
Proof.
  apply (@request_roundtrip total_alloc HTTPHeaders.map_to_list_order 100 (buffer_of put_text) put_text put_message
    (HTTPHeaders.addHeaders HTTPHeaders.empty_headers
       [($"Host", $"a:80"); ($"Accept", $"*/*")])
    (buffer_of $"payload") $"payload" empty_message (new_buffer initial_capacity_));
    try reflexivity.
  - apply buffer_of_repr. reflexivity.
  - apply map_Forall_to_list, (bool_decide_unpack _). vm_compute. exact I.
  - apply buffer_of_repr. reflexivity.
  - apply Nat.leb_le. vm_compute. reflexivity.
  - exact empty_message_fresh.
  - exact empty_body_repr.
Defined.
