(* ===== verification/RequestGrammar.v ===== *)
(** * The language of the request parser (blueth/http/HTTPParserStateMachine.hpp)

    RequestParser shows that every well formed request is parsed. Here is the
    converse: whatever the parser finishes on is a request of the grammar, so
    the two describe the same set of inputs. The soundness half goes through
    the states backwards: a run that finishes has, from each state, an input of
    the form that state asks for. *)
From Stdlib Require Import ZArith Lia Ascii String.
From stdpp Require Import base gmap sets strings list.
From S2P Require Import Prelude IOBuffer HTTPConstants Scanner.
From S2P Require HTTPHeaders.
From S2P Require Import RequestMessage RequestParser.
Local Open Scope Z_scope.
Local Open Scope blueth_scope.

(** The parts of a request text. [unfinished] are the token characters
    between the last header line and the CR of the blank line: the parser takes
    them for the start of a header name and drops them. *)
Record request_parts := mkParts {
  method_part : bytes;
  target_part : bytes;
  major_part : char;
  minor_part : bytes;
  header_parts : list (bytes * bytes);
  unfinished : bytes;
  body_part : bytes
}.

Definition parts_text (r : request_parts) : bytes :=
  request_line (method_part r) (target_part r) (major_part r) (minor_part r)
  ++ HTTPHeaders.header_lines (header_parts r) ++ unfinished r ++ CRLF ++ body_part r.

(** The side conditions of the grammar. *)
Definition parts_ok (r : request_parts) : Prop :=
  is_tokens (method_part r) = true ∧ method_part r ≠ []
  ∧ forallb is_visible (target_part r) = true
  ∧ is_digit (major_part r) = true ∧ forallb is_digit (minor_part r) = true
  ∧ (∃ stored, Forall2 header_ok (header_parts r) stored)
  ∧ is_tokens (unfinished r) = true.

(** The states the parser ends a request in. *)
Definition finished (st : ParserState) : Prop := st = ParsingDone ∨ st = MessageBody.

(** ** Characters *)
Lemma isprint_visible c : isprint c = Done true → c ≠ SP → is_visible c = true.
Proof. revert c. by_all_chars. Qed.

Lemma isdigit_is_digit c : isdigit c = Done true → is_digit c = true.
Proof. revert c. by_all_chars. Qed.

Section soundness.
Context `{Allocator}.

(** A run that finishes in [st'] with [m']. *)
Section states.
Context (st' : ParserState) (m' : HTTPRequestMessage) (Hfin : finished st').

Definition advances (st : ParserState) (m : HTTPRequestMessage) (c : char)
    (prev : res char) (st1 : ParserState) (m1 : HTTPRequestMessage) : Prop :=
  switch_case st m c prev = Done (Advance st1 m1).
Definition ends (prev : res char) (st : ParserState) (m : HTTPRequestMessage)
    (l : bytes) : Prop := run prev st m l = Done (st', m').

Lemma finishing_step st prev m l :
  active st = true → ends prev st m l →
  ∃ c l' st1 m1, l = c :: l' ∧ advances st m c prev st1 m1 ∧ ends (Done c) st1 m1 l'.
Proof.
  unfold ends. intros Ha Hrun. destruct l as [|c l].
  { simpl in Hrun. simplify_eq. by destruct Hfin as [->| ->]. }
  rewrite run_active in Hrun by done.
  destruct (switch_case st m c prev) as [[st1 m1|st1 m1]| | | |] eqn:Hs; try done.
  - rewrite Done_bind in Hrun. by exists c, l, st1, m1.
  - rewrite Done_bind in Hrun. destruct st1; simplify_eq; by destruct Hfin.
Qed.

Abbreviation until st ok d next := (ends_until advances ends active finishing_step st ok d next).
Abbreviation until2 st ok d1 n1 d2 n2 :=
  (ends_until2 advances ends active finishing_step st ok d1 n1 d2 n2).
Abbreviation one st ok next := (ends_one advances ends active finishing_step st ok next).

(** *** The states *)
Ltac switch_inv :=
  intros ????? Hs; unfold advances in Hs;
  cbn [switch_case request_line_case header_case] in Hs;
  unfold expect, fail in Hs;
  repeat (case_bool_decide || case_match || res_inv); simplify_eq; auto.
Ltac reads :=
  switch_inv; try left; auto using isprint_visible, isdigit_is_digit.
Tactic Notation "reading" uconstr(H) "in" hyp(Hrun) "as" simple_intropattern(p) :=
  apply H in Hrun as p; [|reads|done].

Lemma finishing_line prev m l :
  ends prev RequestLineBegin m l →
  ∃ method target major minor rest prev1 m1,
    l = request_line method target major minor ++ rest
    ∧ is_tokens method = true ∧ method ≠ [] ∧ forallb is_visible target = true
    ∧ is_digit major = true ∧ forallb is_digit minor = true
    ∧ ends prev1 HeaderName m1 rest.
Proof.
  intros Hrun.
  reading (one _ (λ c, is_token c = true) RequestMethod) in Hrun as (c&?&?&->&Hc&Hrun).
  reading (until _ is_token SP RequestResource) in Hrun as (method&?&?&->&Hm&Hrun).
  reading (until _ is_visible SP RequestProtocolH) in Hrun as (target&?&?&->&Ht&Hrun).
  reading (one _ (λ c, c = chr 72) RequestProtocolT1) in Hrun as (?&?&?&->&->&Hrun).
  reading (one _ (λ c, c = chr 84) RequestProtocolT2) in Hrun as (?&?&?&->&->&Hrun).
  reading (one _ (λ c, c = chr 84) RequestProtocolP) in Hrun as (?&?&?&->&->&Hrun).
  reading (one _ (λ c, c = chr 80) RequestProtocolSlash) in Hrun as (?&?&?&->&->&Hrun).
  reading (one _ (λ c, c = chr 47) RequestProtocolVersionMajor) in Hrun
    as (?&?&?&->&->&Hrun).
  reading (one _ (λ c, is_digit c = true) RequestProtocolDot) in Hrun
    as (major&?&?&->&Hj&Hrun).
  reading (one _ (λ c, c = chr 46) RequestProtocolVersionMinor) in Hrun
    as (?&?&?&->&->&Hrun).
  reading (until _ is_digit CR RequestLineLF) in Hrun as (minor&?&?&->&Hn&Hrun).
  reading (one _ (λ c, c = LF) HeaderName) in Hrun as (?&?&m0&->&->&Hrun).
  eexists (c :: method), target, major, minor, _, _, m0.
  split_and!; [| |done..]; [|by apply andb_true_iff].
  unfold request_line, CRLF. simpl. by repeat (rewrite <- app_assoc; simpl).
Qed.

(** A header value: the raw text up to the CR is one the value grammar
    accepts. *)
Lemma finishing_value pv m l :
  ends (Done pv) HeaderValue m l →
  ∃ raw v rest m1, l = raw ++ CRLF ++ rest ∧ request_value pv raw = Some v
    ∧ ends (Done LF) HeaderName m1 rest.
Proof.
  revert pv m. induction l as [|c l IH]; intros pv m Hrun;
    destruct (finishing_step HeaderValue _ _ _ eq_refl Hrun) as (c'&l'&st1&m1&?&Hs&Hrun');
    simplify_eq.
  unfold advances in Hs. cbn [switch_case header_case] in Hs. unfold expect, fail in Hs.
  destruct (decide (c' = CR)) as [->|Hcr].
  { rewrite bool_decide_eq_true_2 in Hs by done. simplify_eq.
    reading (one _ (λ c, c = LF) HeaderName) in Hrun' as (?&rest&m2&->&->&Hrun').
    by exists [], [], rest, m2. }
  rewrite bool_decide_eq_false_2 in Hs by done.
  assert (∃ v0, (∀ raw v, request_value c' raw = Some v →
      request_value pv (c' :: raw) = Some (v0 ++ v)) ∧ st1 = HeaderValue)
    as (v0&Hv0&->).
  { case_bool_decide as Hsp.
    - rewrite Done_bind in Hs. case_bool_decide; simplify_eq.
      exists []. split; [|done]. intros raw v Hv. simpl. by rewrite Hv.
    - destruct (is_text c') eqn:Ht; simplify_eq. exists [c']. split; [|done].
      intros raw v Hv. simpl. by rewrite bool_decide_eq_false_2, Ht, Hv by done. }
  destruct (IH _ _ Hrun') as (raw&v&rest&m2&->&Hv&Hrest).
  exists (c' :: raw), (v0 ++ v), rest, m2. split; [done|]. split; [by apply Hv0|done].
Qed.

(** The header block: complete header lines, then the blank line, which may
    follow the start of a header name. *)
Lemma finishing_headers prev m l :
  ends prev HeaderName m l →
  ∃ raws stored junk body, l = HTTPHeaders.header_lines raws ++ junk ++ CRLF ++ body
    ∧ Forall2 header_ok raws stored ∧ is_tokens junk = true.
Proof.
  revert prev m. induction l as [l IH] using (induction_ltof1 _ length).
  intros prev m Hrun.
  reading (until2 _ is_token (chr 58) HeaderValue CR HeaderEndLF) in Hrun
    as (name&rest&m1&Hn&Hrun). destruct Hrun as [[-> Hrest]|[-> Hrest]].
  - destruct (finishing_value _ _ _ Hrest) as (raw&v&rest'&m2&->&Hv&Hrest').
    destruct (IH rest') with (2 := Hrest') as (raws&stored&junk&body&->&Hall&Hj);
      [unfold ltof; len_lia|].
    exists ((name, raw) :: raws), ((name, v) :: stored), junk, body.
    split_and!; [|by constructor|done].
    unfold HTTPHeaders.header_lines. simpl. unfold HTTPHeaders.header_line.
    by repeat (rewrite <- app_assoc; simpl).
  - destruct (finishing_step HeaderEndLF _ _ _ eq_refl Hrest) as (c&body&st1&m2&->&Hs&_).
    unfold advances in Hs. cbn [switch_case header_case] in Hs.
    case_bool_decide; simplify_eq. by exists [], [], name, body.
Qed.
End states.

(** ** Completeness, with the start of a name before the blank line *)
Lemma run_parts prev m h r :
  fresh m h → parts_ok r →
  ∃ m1, run prev RequestLineBegin m (parts_text r)
  = match classify (method_part r) with
    | Some (st, t) => run (Done LF) st (setRequestType m1 t) (body_part r)
    | None => OutOfFuel
    end ∧ raw_body_ m1 = raw_body_ m.
Proof.
  intros (Hh&Ht0&Hv&Hn&Hm) (?&?&?&?&?&[stored ?]&Hj). unfold parts_text.
  rewrite run_request_line by done.
  destruct (run_header_lines (Done LF) (line_message m (method_part r) (target_part r)
    (minor_part r)) h (header_parts r) stored (unfinished r ++ CRLF ++ body_part r))
    as [prev' ->]; [done..|].
  rewrite (run_segment _ _ _ pushBackHeaderName) by
    (done || intros; apply switch_name; by eapply forallb_elem).
  rewrite run_headers_end, foldl_pushBackHeaderName. simpl. rewrite Hm.
  eexists. split; [reflexivity|done].
Qed.
End soundness.

(** ** The grammar is unambiguous *)
Lemma request_value_text prev raw v :
  request_value prev raw = Some v → forallb is_text raw = true.
Proof.
  revert prev v. induction raw as [|c raw IH]; intros prev v Hv; [done|]. simpl in *.
  case_bool_decide.
  - subst. case_bool_decide; [|done]. by eapply IH.
  - destruct (is_text c); [|done]. destruct (request_value c raw) eqn:Hr; [|done].
    by eapply IH.
Qed.

Lemma header_ok_text raws stored :
  Forall2 header_ok raws stored →
  Forall header_text_ok raws.
Proof.
  induction 1 as [|raw st raws stored (Hn&_&Hv)]; constructor; [|done].
  split; [done|by eapply request_value_text].
Qed.

Lemma parts_text_inj r1 r2 :
  parts_ok r1 → parts_ok r2 → parts_text r1 = parts_text r2 → r1 = r2.
Proof.
  destruct r1 as [m1 t1 j1 n1 h1 u1 b1], r2 as [m2 t2 j2 n2 h2 u2 b2].
  intros (Hm1&_&Ht1&_&Hn1&[s1 Hh1]&Hu1) (Hm2&_&Ht2&_&Hn2&[s2 Hh2]&Hu2). simpl in *.
  unfold parts_text, request_line, CRLF; simpl.
  repeat (rewrite <- app_assoc; simpl). intros Heq.
  apply (split_unique is_token) in Heq as (->&_&Heq); [|done..].
  apply (split_unique is_visible) in Heq as (->&_&[= -> Heq]); [|done..].
  apply (split_unique is_digit) in Heq as (->&_&[= Heq]); [|done..].
  apply header_ok_text in Hh1, Hh2.
  destruct (header_block_unique h1 h2 u1 u2 b1 b2) as (->&->&->); done.
Qed.

Section theorems.
Context `{Allocator}.

Lemma classify_finished method st t : classify method = Some (st, t) → finished st.
Proof. unfold classify, finished. intros. repeat case_match; simplify_eq; auto. Qed.

Lemma finished_inactive st : finished st → active st = false.
Proof. by intros [->| ->]. Qed.

(** The rest of the input, after the headers. *)
Lemma run_finished prev st m b d :
  finished st → raw_body_ m = Some b → repr b [] →
  capacity_ b + Z.of_nat (length d) < size_max → (∀ n, alloc_ok n = true) →
  ∃ m', run prev st m d = Done (st, m') ∧ request_type_ m' = request_type_ m.
Proof.
  intros Hfin Hb Hr Hmax Ha.
  destruct (run_rest prev st m b [] d) as (b'&Hrun&_);
    [by apply finished_inactive|done..|].
  by eexists.
Qed.

Lemma run_request_accepts_iff prev m h b l st t :
  fresh m h → raw_body_ m = Some b → repr b [] →
  capacity_ b + Z.of_nat (length l) < size_max → (∀ n, alloc_ok n = true) →
  finished st →
  (∃ m', run prev RequestLineBegin m l = Done (st, m') ∧ request_type_ m' = t) ↔
  exists! r, l = parts_text r ∧ parts_ok r ∧ classify (method_part r) = Some (st, t).
Proof.
  intros Hfresh Hb Hrb Hmax Ha Hfin.
  assert (∀ r, l = parts_text r → parts_ok r →
    match classify (method_part r) with
    | Some (st, t) => ∃ m', run prev RequestLineBegin m l = Done (st, m')
                            ∧ request_type_ m' = t
    | None => run prev RequestLineBegin m l = OutOfFuel
    end) as Hcomplete.
  { intros r -> Hok. destruct (run_parts prev m h r) as (m1&->&Hm1); [done..|].
    destruct (classify (method_part r)) as [[st1 t1]|] eqn:Hc; [|done].
    apply (run_finished _ _ (setRequestType m1 t1) b); [by eapply classify_finished|by rewrite <- Hb|done| |done].
    unfold parts_text in Hmax. rewrite !length_app in Hmax. lia. }
  split.
  - intros (m'&Hrun&Ht).
    destruct (finishing_line _ _ Hfin _ _ _ Hrun)
      as (method&target&major&minor&rest&prev1&m1&->&?&?&?&?&?&Hrest).
    destruct (finishing_headers _ _ Hfin _ _ _ Hrest) as (raws&stored&junk&body&->&?&?).
    set (r := mkParts method target major minor raws junk body).
    assert (parts_ok r) as Hok by (split_and!; try done; by exists stored).
    exists r. split; [split_and!; [done..|]|].
    + specialize (Hcomplete r eq_refl Hok).
      destruct (classify (method_part r)) as [[st1 t1]|]; [|congruence].
      destruct Hcomplete as (m2&Hrun2&Ht2). rewrite Hrun in Hrun2. by simplify_eq.
    + intros r2 (Hl&Hok2&_). by apply parts_text_inj.
  - intros (r&(Hl&Hok&Hc)&_). specialize (Hcomplete r Hl Hok). by rewrite Hc in Hcomplete.
Qed.

(** C2: The request parser accepts exactly the requests of the grammar: it ends in
    state [st] with a message of type [t] if and only if the input is, in one way
    only, a request line with a token method that has the type's name as a prefix, a printable
    target and the digits of a version, header lines whose values have spaces
    only after a colon, the blank line and anything after it. Before the blank
    line there may be one line more, of token characters without a colon. *)
Theorem ParseHTTP1_1RequestMessage_accepts_iff fuel buf m h b l st t :
  repr buf l → (length l + 2 <= fuel)%nat → fresh m h →
  raw_body_ m = Some b → repr b [] →
  capacity_ b + Z.of_nat (length l) < size_max → (∀ n, alloc_ok n = true) →
  finished st →
  (∃ m', ParseHTTP1_1RequestMessage fuel buf RequestLineBegin m = Done (st, m')
         ∧ request_type_ m' = t) ↔
  exists! r, l = parts_text r ∧ parts_ok r ∧ classify (method_part r) = Some (st, t).
Proof. intros Hr Hf. rewrite (Parse_run fuel _ _ _ _ Hr Hf). apply run_request_accepts_iff. Qed.
End theorems.

(** ** Concrete runs *)

(** A POST whose last line has no colon. *)
Definition loose_parts : request_parts :=
  mkParts $"POST" $"/a" (chr 49) $"1" [($"Host", $" b")] $"Content-Length" $"x=1".

Lemma loose_parts_ok : parts_ok loose_parts.
Proof.
  split_and!; try done. exists [($"Host", $"b")]. by repeat constructor.
Qed.

Lemma ParseHTTP1_1RequestMessage_accepts_iff_witness :
  ∃ m', @ParseHTTP1_1RequestMessage total_alloc 100 (buffer_of (parts_text loose_parts))
    RequestLineBegin empty_message = Done (MessageBody, m') ∧ request_type_ m' = Post.
Proof.
  apply (@ParseHTTP1_1RequestMessage_accepts_iff total_alloc 100
    (buffer_of (parts_text loose_parts)) empty_message HTTPHeaders.empty_headers
    (new_buffer initial_capacity_) (parts_text loose_parts)); try reflexivity.
  - apply buffer_of_repr. reflexivity.
  - apply Nat.leb_le. reflexivity.
  - exact empty_message_fresh.
  - exact empty_body_repr.
  - right. reflexivity.
  - exists loose_parts. split; [|intros r (Hl&Hok&_); by apply parts_text_inj; [exact loose_parts_ok|..]].
    split; [reflexivity|]. split; [exact loose_parts_ok|reflexivity].
Defined.
