(* ===== verification/ResponseMessage.v ===== *)
(** * [http::HTTPResponseMessage] (blueth/http/HTTPMessage.hpp)

    The response object: header table, body buffer, status code and version,
    and the holders of the state machine parser: header name and value, and
    four bytes for the status code, of which the constructor writes only the
    final NUL. *)
From Stdlib Require Import ZArith Lia Ascii String.
From stdpp Require Import base gmap sets strings list.
From S2P Require Import Prelude IOBuffer HTTPConstants.
From S2P Require HTTPHeaders.
Local Open Scope Z_scope.
Local Open Scope blueth_scope.

Record HTTPResponseMessage := mkHTTPResponseMessage {
  http_headers_ : option HTTPHeaders.HTTPHeaders;
  raw_body_ : option IOBuffer;
  response_code_ : HTTPResponseCodes;
  http_message_version_ : HTTPVersion;
  temp_header_value_holder_ : bytes;
  temp_header_name_holder_ : bytes;
  http_code_holder : list (option ascii);
  current_index : Z
}.

Definition initial_capacity_ : Z := 2048.

(** *** Field updates *)
Definition set_headers (m : HTTPResponseMessage) h :=
  mkHTTPResponseMessage h (raw_body_ m) (response_code_ m) (http_message_version_ m) (temp_header_value_holder_ m) (temp_header_name_holder_ m) (http_code_holder m) (current_index m).
Definition set_body (m : HTTPResponseMessage) b :=
  mkHTTPResponseMessage (http_headers_ m) b (response_code_ m) (http_message_version_ m) (temp_header_value_holder_ m) (temp_header_name_holder_ m) (http_code_holder m) (current_index m).
Definition set_code (m : HTTPResponseMessage) c :=
  mkHTTPResponseMessage (http_headers_ m) (raw_body_ m) c (http_message_version_ m) (temp_header_value_holder_ m) (temp_header_name_holder_ m) (http_code_holder m) (current_index m).
Definition set_version (m : HTTPResponseMessage) v :=
  mkHTTPResponseMessage (http_headers_ m) (raw_body_ m) (response_code_ m) v (temp_header_value_holder_ m) (temp_header_name_holder_ m) (http_code_holder m) (current_index m).
Definition set_holders (m : HTTPResponseMessage) value name :=
  mkHTTPResponseMessage (http_headers_ m) (raw_body_ m) (response_code_ m) (http_message_version_ m) value name (http_code_holder m) (current_index m).
Definition set_code_holder (m : HTTPResponseMessage) cells i :=
  mkHTTPResponseMessage (http_headers_ m) (raw_body_ m) (response_code_ m) (http_message_version_ m) (temp_header_value_holder_ m) (temp_header_name_holder_ m) cells i.

Section operations.
Context `{Allocator}.

(** The constructor, and [create]. *)
Definition HTTPResponseMessage_new : res HTTPResponseMessage :=
  b ← IOBuffer.create initial_capacity_;
  Done (mkHTTPResponseMessage (Some HTTPHeaders.empty_headers) (Some b)
          BadRequest HTTP1_1 [] [] [None; None; None; Some (chr 0)] 0).
Definition create : res HTTPResponseMessage := HTTPResponseMessage_new.

Definition addHeader (m : HTTPResponseMessage) (name value : bytes)
  : res HTTPResponseMessage :=
  h ← deref (http_headers_ m);
  Done (set_headers m (Some (HTTPHeaders.addHeader h (name, value)))).

Definition removeHeader (m : HTTPResponseMessage) (name : bytes)
  : res (bool * HTTPResponseMessage) :=
  h ← deref (http_headers_ m);
  let '(removed, h) := HTTPHeaders.removeHeader h name in
  Done (removed, set_headers m (Some h)).

Definition constGetHTTPHeaders (m : HTTPResponseMessage) := http_headers_ m.

(** The table is moved out to the caller. *)
Definition getHTTPHeaders (m : HTTPResponseMessage)
  : option HTTPHeaders.HTTPHeaders * HTTPResponseMessage :=
  (http_headers_ m, set_headers m None).

Definition flushBody (m : HTTPResponseMessage) : res HTTPResponseMessage :=
  b ← deref (raw_body_ m); Done (set_body m (Some (clear b))).

Definition setResponseCode (m : HTTPResponseMessage) (code : HTTPResponseCodes) :=
  set_code m code.
Definition getResponseCode (m : HTTPResponseMessage) := response_code_ m.
Definition setHTTPVersion (m : HTTPResponseMessage) (version : HTTPVersion) :=
  set_version m version.
Definition getHTTPVersion (m : HTTPResponseMessage) := http_message_version_ m.
Definition setRawBody (m : HTTPResponseMessage) (io_buffer : option IOBuffer) :=
  set_body m io_buffer.
Definition constGetRawBody (m : HTTPResponseMessage) := raw_body_ m.

Definition getHeaderValue (m : HTTPResponseMessage) (name : bytes)
  : res (option bytes) :=
  h ← deref (http_headers_ m); Done (HTTPHeaders.getHeaderValue h name).

(** What a case of the [switch] appends: the number of [code] and the phrase
    of [phrase]. *)
Definition status_entry (code phrase : HTTPResponseCodes) : res (option bytes) :=
  p ← opt_value (string_from_response_code phrase);
  Done (Some (to_string (code_to_int code) ++ $" " ++ p)).

(** The [switch] on the status code, in the order of its cases and in three
    groups: what is appended to the message, [None] for the early return of an
    empty one. There is no [default]: an unlisted value appends nothing. *)
Definition status_cases_3 (response_code : HTTPResponseCodes) : res (option bytes) :=
  match response_code with
  | RequestURITooLarge => status_entry RequestURITooLarge RequestURITooLarge
  | RequestRangeNotSatisfiable => status_entry RequestRangeNotSatisfiable RequestRangeNotSatisfiable
  | ExpectationFailed => status_entry ExpectationFailed ExpectationFailed
  | InternalServerError => status_entry InternalServerError InternalServerError
  | NotImplemented => status_entry NotImplemented NotImplemented
  | BadGateway => status_entry BadGateway BadGateway
  | ServiceUnavailable => status_entry ServiceUnavailable ServiceUnavailable
  | GatewayTimeOut => status_entry GatewayTimeOut GatewayTimeOut
  | HttpVersionNotSupported => status_entry HttpVersionNotSupported HttpVersionNotSupported
  | SwitchingProtocols => status_entry SwitchingProtocols SwitchingProtocols
  | UnsupportedMediaType => status_entry UnsupportedMediaType UnsupportedMediaType
  | MovedPermanently => status_entry MovedPermanently MovedPermanently
  | InvalidHttpCode => Done None
  | _ => Done (Some [])
  end.
Definition status_cases_2 (response_code : HTTPResponseCodes) : res (option bytes) :=
  match response_code with
  | NotModified => status_entry NotModified NotModified
  | UseProxy => status_entry UseProxy UseProxy
  | TemporaryRedirect => status_entry TemporaryRedirect UseProxy
  | PaymentRequired => status_entry PaymentRequired PaymentRequired
  | Forbidden => status_entry Forbidden Forbidden
  | MethodNotAllowed => status_entry MethodNotAllowed MethodNotAllowed
  | NotAcceptable => status_entry NotAcceptable NotAcceptable
  | ProxyAuthenticationRequired => status_entry ProxyAuthenticationRequired ProxyAuthenticationRequired
  | RequestTimeOut => status_entry RequestTimeOut RequestTimeOut
  | Conflict => status_entry Conflict Conflict
  | Gone => status_entry Gone Gone
  | LengthRequired => status_entry LengthRequired LengthRequired
  | PreconditionFailed => status_entry PreconditionFailed PreconditionFailed
  | RequestEntityTooLarge => status_entry RequestEntityTooLarge RequestEntityTooLarge
  | _ => status_cases_3 response_code
  end.
Definition status_switch (response_code : HTTPResponseCodes) : res (option bytes) :=
  match response_code with
  | Ok => status_entry Ok Ok
  | NotFound => status_entry NotFound NotFound
  | BadRequest => status_entry BadRequest BadRequest
  | Unauthorized => status_entry Unauthorized Unauthorized
  | Created => status_entry Created Created
  | Found => status_entry Found Found
  | Continue => status_entry Continue Continue
  | Accepted => status_entry Accepted Accepted
  | NonAuthoritativeInformation => status_entry NonAuthoritativeInformation NonAuthoritativeInformation
  | NoContent => status_entry NoContent NoContent
  | ResetContent => status_entry ResetContent ResetContent
  | PartialContent => status_entry PartialContent PartialContent
  | MultipleChoices => status_entry MultipleChoices MultipleChoices
  | SeeOther => status_entry SeeOther SeeOther
  | _ => status_cases_2 response_code
  end.

Definition buildRawMessage `{HTTPHeaders.HashOrder} (m : HTTPResponseMessage)
  : res bytes :=
  match http_message_version_ m with
  | HTTP_2 => Done []
  | HTTP1_1 =>
      entry ← status_switch (response_code_ m);
      match entry with
      | None => Done []
      | Some status =>
          h ← deref (http_headers_ m);
          b ← deref (raw_body_ m);
          body ← string_of_range b (getStartOffsetPointer b) (getEndOffsetPointer b);
          Done ($"HTTP/1.1 " ++ status ++ CRLF ++ HTTPHeaders.buildRawHeader h ++ body)
      end
  end.

(** *** For the state machine parser *)
Definition pushBackHeaderValue (m : HTTPResponseMessage) (char_val : char) :=
  set_holders m (temp_header_value_holder_ m ++ [char_val]) (temp_header_name_holder_ m).
Definition pushBackHeaderName (m : HTTPResponseMessage) (char_val : char) :=
  set_holders m (temp_header_value_holder_ m) (temp_header_name_holder_ m ++ [char_val]).

Definition addTempHeadersHolderToMessage (m : HTTPResponseMessage)
  : res HTTPResponseMessage :=
  h ← deref (http_headers_ m);
  let h := HTTPHeaders.addHeader h
             (temp_header_name_holder_ m, temp_header_value_holder_ m) in
  Done (set_holders (set_headers m (Some h)) [] []).

(** [noexcept]; the fuel covers the one level of recursion that growing the
    buffer takes. *)
Definition pushBackRawBody (m : HTTPResponseMessage) (raw_body : bytes)
  : res HTTPResponseMessage :=
  b ← deref (raw_body_ m);
  b ← noexcept (appendRawBytes 2 b (init raw_body));
  Done (set_body m (Some b)).

(** Digits after the third are dropped. *)
Definition pushBackResponseCode (m : HTTPResponseMessage) (char_value : char)
  : HTTPResponseMessage :=
  if current_index m <=? 2
  then set_code_holder m (<[Z.to_nat (current_index m) := Some char_value]> (http_code_holder m))
         (current_index m + 1)
  else m.

Definition getTempStatusCode (m : HTTPResponseMessage) : list (option ascii) :=
  http_code_holder m.

End operations.

(** Two messages are equivalent when they differ at most in the spare room of
    their body buffers. *)
#[export] Instance HTTPResponseMessage_equiv : Equiv HTTPResponseMessage := λ m1 m2,
  set_body m1 None = set_body m2 None ∧ raw_body_ m1 ≡ raw_body_ m2.
#[export] Instance HTTPResponseMessage_equivalence : Equivalence (≡@{HTTPResponseMessage}).
Proof.
  split.
  - intros m. by split.
  - intros m1 m2 [??]. by split.
  - intros m1 m2 m3 [? H12] [? H23]. split; [congruence|]. by rewrite H12.
Qed.

(** The message the constructor makes. *)
Definition empty_message : HTTPResponseMessage :=
  mkHTTPResponseMessage (Some HTTPHeaders.empty_headers)
    (Some (new_buffer initial_capacity_)) BadRequest HTTP1_1 [] []
    [None; None; None; Some (chr 0)] 0.

Lemma HTTPResponseMessage_new_Done `{Allocator} :
  alloc_ok initial_capacity_ = true → HTTPResponseMessage_new = Done empty_message.
Proof.
  intros Ha. unfold HTTPResponseMessage_new, IOBuffer.create.
  by rewrite IOBuffer_new_Done.
Qed.

(** ** Status lines

    The status line a code should have: its number and its own phrase. *)
Definition status_text (c : HTTPResponseCodes) : option bytes :=
  p ← string_from_response_code c; Some (to_string (code_to_int c) ++ $" " ++ p).

(** The switch never fails; it appends the code's own status text for every
    enumerator but two: 307 is sent with the phrase of 305, and
    [InvalidHttpCode] gives an empty message. A value without enumerator
    leaves the status line without a code. *)
Theorem status_switch_correct c :
  status_switch c =
    Done (match c with
          | TemporaryRedirect => Some $"307 Use Proxy"
          | InvalidHttpCode => None
          | UnlistedCode _ => Some []
          | _ => status_text c
          end)
  ∧ (c ≠ TemporaryRedirect → c ≠ InvalidHttpCode → named c = true →
     is_Some (status_text c))
  ∧ status_text TemporaryRedirect = Some $"307 Temporary Redirect".
Proof. split_and!; [by destruct c|by destruct c; eauto|done]. Qed.
