(* ===== verification/ResponseParser.v ===== *)
(** * [ParseHTTP1_1ResponseMessage]
    (blueth/http/HTTPParserStateMachineResponse.hpp)

    The incremental response parser, built as the request parser is: a
    [while]/[switch] machine over the characters between the two offsets of a
    buffer, its state kept by the caller. *)
From Stdlib Require Import ZArith Lia Ascii String.
From stdpp Require Import base gmap sets strings list.
From S2P Require Import Prelude IOBuffer HTTPConstants.
From S2P Require HTTPHeaders.
From S2P Require Import ResponseMessage.
Local Open Scope Z_scope.
Local Open Scope blueth_scope.

(** What one turn of the loop does when it looks at a character. *)
Inductive action :=
  | Advance (st : ResponseParserState) (m : HTTPResponseMessage)
  | Stay (st : ResponseParserState) (m : HTTPResponseMessage).

Section parser.
Context `{Allocator}.

Definition fail (m : HTTPResponseMessage) : res action := Done (Stay RProtocolError m).

Definition expect (cond : bool) (next : ResponseParserState) (m : HTTPResponseMessage)
  : res action :=
  if cond then Done (Advance next m) else fail m.

(** The cases of the [switch] for the status line, on the current character
    [c]. *)
Definition status_line_case (st : ResponseParserState) (m : HTTPResponseMessage)
    (c : char) : res action :=
  match st with
  | ResponseProtocolH => expect (bool_decide (c = chr 72)) ResponseProtocolT1 m
  | ResponseProtocolT1 => expect (bool_decide (c = chr 84)) ResponseProtocolT2 m
  | ResponseProtocolT2 => expect (bool_decide (c = chr 84)) ResponseProtocolP m
  | ResponseProtocolP => expect (bool_decide (c = chr 80)) ResponseProtocolSlash m
  | ResponseProtocolSlash =>
      expect (bool_decide (c = chr 47)) ResponseProtocolVersionMajor m
  | ResponseProtocolVersionMajor =>
      expect (bool_decide (c = chr 49)) ResponseProtocolDot m
  | ResponseProtocolDot =>
      expect (bool_decide (c = chr 46)) ResponseProtocolVersionMinor m
  | ResponseProtocolVersionMinor =>
      d ← isdigit c;
      if (d : bool)
      then Done (Advance ResponseProtocolVersionMinor (setHTTPVersion m HTTP1_1))
      else expect (bool_decide (c = SP)) StatusCode m
  | StatusCode =>
      d ← isdigit c;
      if (d : bool) then Done (Advance StatusCode (pushBackResponseCode m c))
      else if bool_decide (c = SP) then
        n ← atoi (getTempStatusCode m);
        Done (Advance ResponseReasonPhrase (setResponseCode m (code_of_int n)))
      else fail m
  | ResponseReasonPhrase =>
      if bool_decide (c = CR) then Done (Advance StatusLineLF m)
      else expect (is_text c) ResponseReasonPhrase m
  | StatusLineLF => expect (bool_decide (c = LF)) RHeaderName m
  | _ => Done (Stay st m)
  end.

(** The cases for the headers; [prev] is the read of [*(start_buffer - 1)]. *)
Definition header_case (st : ResponseParserState) (m : HTTPResponseMessage)
    (c : char) (prev : res char) : res action :=
  match st with
  | RHeaderName =>
      if is_token c then Done (Advance RHeaderName (pushBackHeaderName m c))
      else if bool_decide (c = chr 58) then Done (Advance RHeaderValue m)
      else expect (bool_decide (c = CR)) RHeaderEndLF m
  | RHeaderValue =>
      if bool_decide (c = CR) then Done (Advance RHeaderValueLF m)
      else if is_text c then
        p ← prev;
        if bool_decide (p = chr 58) then Done (Advance RHeaderValue m)
        else Done (Advance RHeaderValue (pushBackHeaderValue m c))
      else fail m
  | RHeaderValueLF =>
      if bool_decide (c = LF) then
        m ← addTempHeadersHolderToMessage m; Done (Advance RHeaderName m)
      else fail m
  | RHeaderEndLF =>
      if bool_decide (c = LF) then
        h ← deref (constGetHTTPHeaders m);
        if HTTPHeaders.headerContains h $"Content-Length"
        then Done (Advance ResponseMessageBody m)
        else Done (Advance RParsingDone m)
      else fail m
  | _ => Done (Stay st m)
  end.

(** The [switch]; the last three cases leave the loop. *)
Definition switch_case (st : ResponseParserState) (m : HTTPResponseMessage)
    (c : char) (prev : res char) : res action :=
  match st with
  | RHeaderName | RHeaderValue | RHeaderValueLF | RHeaderEndLF => header_case st m c prev
  | ResponseMessageBody | RParsingDone | RProtocolError => Done (Stay st m)
  | _ => status_line_case st m c
  end.

(** The [while] loop over block [b]: one unit of fuel per turn. *)
Fixpoint parse_loop (fuel : nat) (b : list (option ascii))
    (start_buffer end_buffer : Z) (st : ResponseParserState) (m : HTTPResponseMessage)
  : res (ResponseParserState * HTTPResponseMessage) :=
  match fuel with
  | O => OutOfFuel
  | S fuel =>
      if start_buffer =? end_buffer then Done (st, m)
      else match st with
      | ResponseMessageBody =>
          cells ← mem_slice b start_buffer (end_buffer - start_buffer);
          body ← cells_chars cells;
          m ← pushBackRawBody m body;
          Done (RParsingDone, m)
      | RParsingDone | RProtocolError => Done (st, m)
      | _ =>
          c ← mem_read b start_buffer;
          a ← switch_case st m c (mem_read b (start_buffer - 1));
          match a with
          | Advance st m => parse_loop fuel b (start_buffer + 1) end_buffer st m
          | Stay st m => parse_loop fuel b start_buffer end_buffer st m
          end
      end
  end.

Definition ParseHTTP1_1ResponseMessage (fuel : nat) (response_message : IOBuffer)
    (current_state : ResponseParserState) (http_message : HTTPResponseMessage)
  : res (ResponseParserState * HTTPResponseMessage) :=
  match internal_buffer_ response_message with
  | Some b =>
      parse_loop fuel b (start_offset_ response_message)
                 (end_offset_ response_message) current_state http_message
  | None =>
      if start_offset_ response_message =? end_offset_ response_message
      then Done (current_state, http_message) else Undefined NullPointer
  end.

(** ** The machine over the remaining input *)
Fixpoint run (prev : res char) (st : ResponseParserState) (m : HTTPResponseMessage)
    (l : bytes) : res (ResponseParserState * HTTPResponseMessage) :=
  match l with
  | [] => Done (st, m)
  | c :: l' =>
      match st with
      | ResponseMessageBody => m ← pushBackRawBody m l; Done (RParsingDone, m)
      | RParsingDone | RProtocolError => Done (st, m)
      | _ =>
          a ← switch_case st m c prev;
          match a with
          | Advance st m => run (Done c) st m l'
          | Stay _ m => Done (RProtocolError, m)
          end
      end
  end.

(** The states in which the loop looks at a character. *)
Definition active (st : ResponseParserState) : bool :=
  match st with ResponseMessageBody | RParsingDone | RProtocolError => false | _ => true end.

Lemma response_parse_loop_active fuel b p e st m :
  active st = true → p ≠ e →
  parse_loop (S fuel) b p e st m =
    (c ← mem_read b p;
     a ← switch_case st m c (mem_read b (p - 1));
     match a with
     | Advance st m => parse_loop fuel b (p + 1) e st m
     | Stay st m => parse_loop fuel b p e st m
     end).
Proof. intros Ha Hp. apply Z.eqb_neq in Hp. destruct st; try done; simpl; by rewrite Hp. Qed.

Lemma response_run_active prev st m c l :
  active st = true →
  run prev st m (c :: l) =
    (a ← switch_case st m c prev;
     match a with
     | Advance st m => run (Done c) st m l
     | Stay _ m => Done (RProtocolError, m)
     end).
Proof. by destruct st. Qed.

(** A turn that keeps the pointer in place is a protocol error. *)
Lemma response_switch_case_stay st m c prev st' m' :
  switch_case st m c prev = Done (Stay st' m') → active st = true →
  st' = RProtocolError ∧ m' = m.
Proof.
  intros Hs Ha. destruct st; simpl in Hs; unfold expect, fail in Hs; try done.
  all: repeat (case_match || res_inv); by simplify_eq.
Qed.

(** Enough fuel: a turn per character and two more. *)
Lemma response_parse_loop_run fuel b p l st m :
  holds b p l → (length l + 2 <= fuel)%nat →
  parse_loop fuel b p (p + Z.of_nat (length l)) st m
  = run (mem_read b (p - 1)) st m l.
Proof.
  revert fuel p st m. induction l as [|c l IH]; intros fuel p st m Hh Hf;
    (destruct fuel as [|fuel]; [simpl in Hf; lia|]).
  { cbn [parse_loop run]. simpl. by bool_lia. }
  pose proof (holds_slice _ _ _ _ Hh eq_refl) as Hslice.
  apply holds_cons in Hh as [Hr Hh]. simpl length in *.
  destruct (active st) eqn:Ha.
  - rewrite response_parse_loop_active, response_run_active by (done || lia). rewrite Hr, Done_bind.
    destruct (switch_case st m c (mem_read b (p - 1))) as [[st' m'|st' m']| | | |]
      eqn:Hs; try done; rewrite !Done_bind.
    + replace (p + Z.of_nat (S (length l))) with (p + 1 + Z.of_nat (length l)) by lia.
      rewrite IH by (done || lia). by rewrite Z.add_simpl_r, Hr.
    + apply response_switch_case_stay in Hs as [-> ->]; [|done].
      destruct fuel; [lia|]. cbn [parse_loop]. by bool_lia.
  - destruct st; try done; cbn [parse_loop run]; bool_lia; [done| |done].
    replace (p + Z.of_nat (S (length l)) - p) with (Z.of_nat (S (length l))) by lia.
    by rewrite Hslice, Done_bind, cells_chars_init, Done_bind.
Qed.

(** *** Runs over segments of the input *)
Lemma response_run_segment prev st m f s rest :
  active st = true →
  (∀ m c prev, c ∈ s → switch_case st m c prev = Done (Advance st (f m c))) →
  run prev st m (s ++ rest) = run (List.last (Done <$> s) prev) st (foldl f m s) rest.
Proof.
  intros Ha. revert prev m. induction s as [|c s IH]; intros prev m Hs; [done|].
  cbn [app]. rewrite response_run_active by done. rewrite Hs by set_solver. rewrite Done_bind.
  rewrite IH by (intros; apply Hs; set_solver).
  by rewrite <- (last_cons_default (Done c) (Done <$> s) prev).
Qed.

Lemma response_run_until prev st st' m f s d rest :
  active st = true →
  (∀ m c prev, c ∈ s → switch_case st m c prev = Done (Advance st (f m c))) →
  (∀ m prev, switch_case st m d prev = Done (Advance st' m)) →
  run prev st m (s ++ d :: rest) = run (Done d) st' (foldl f m s) rest.
Proof.
  intros Ha Hs Hd. rewrite (response_run_segment _ _ _ f) by done.
  by rewrite response_run_active, Hd, Done_bind by done.
Qed.

Lemma response_foldl_pushBackHeaderName m s :
  foldl pushBackHeaderName m s =
    set_holders m (temp_header_value_holder_ m) (temp_header_name_holder_ m ++ s).
Proof.
  revert m. induction s as [|c s IH]; intros m; simpl.
  - rewrite app_nil_r. by destruct m.
  - rewrite IH. unfold pushBackHeaderName, set_holders. simpl.
    by rewrite <- app_assoc.
Qed.

Lemma response_foldl_setHTTPVersion m (s : bytes) :
  foldl (λ m _, setHTTPVersion m HTTP1_1) m s =
    set_version m (if s is [] then http_message_version_ m else HTTP1_1).
Proof.
  revert m. induction s as [|c s IH]; intros m; simpl; [by destruct m|].
  rewrite IH. by destruct s.
Qed.

(** A full code holder ignores further digits. *)
Lemma foldl_pushBackResponseCode_full m s :
  2 < current_index m → foldl pushBackResponseCode m s = m.
Proof.
  revert m. induction s as [|c s IH]; intros m Hm; simpl; [done|].
  unfold pushBackResponseCode at 2. bool_lia. by apply IH.
Qed.
End parser.

(** ** The response grammar *)
Definition status_line (minor code phrase : bytes) : bytes :=
  $"HTTP/1." ++ minor ++ [SP] ++ code ++ [SP] ++ phrase ++ CRLF.

(** What the parser stores for the raw text after a colon ([prev] is the
    character before it): every character but those right after a colon. *)
Fixpoint response_value (prev : char) (raw : bytes) : bytes :=
  match raw with
  | [] => []
  | c :: raw =>
      if bool_decide (prev = chr 58) then response_value c raw
      else c :: response_value c raw
  end.

Definition header_ok (raw : bytes * bytes) : Prop :=
  forallb is_token raw.1 = true ∧ forallb is_text raw.2 = true.
Definition stored (raw : bytes * bytes) : bytes * bytes :=
  (raw.1, response_value (chr 58) raw.2).

(** The value of three digits. *)
Definition digit (c : char) : Z := char_val c - 48.
Definition code_value (d1 d2 d3 : char) : Z := digit d1 * 100 + digit d2 * 10 + digit d3.

Lemma response_digit_facts c :
  is_digit c = true →
  isdigit c = Done true ∧ isspace_ascii c = false
  ∧ (char_val c =? 45) = false ∧ (char_val c =? 43) = false
  ∧ (0 <=? digit c) = true ∧ (digit c <=? 9) = true.
Proof. revert c. by_all_chars. Qed.

(** Three digits, then the NUL. *)
Lemma atoi_code d1 d2 d3 :
  is_digit d1 = true → is_digit d2 = true → is_digit d3 = true →
  atoi [Some d1; Some d2; Some d3; Some (chr 0)] = Done (code_value d1 d2 d3).
Proof.
  intros (_&Hs&Hm&Hp&Hl&Hu)%response_digit_facts (_&_&_&_&Hl2&Hu2)%response_digit_facts
    (_&_&_&_&Hl3&Hu3)%response_digit_facts.
  unfold atoi. cbn [atoi_skip]. rewrite Hs. cbn [atoi_sign]. rewrite Hm, Hp.
  unfold digit in *. cbn [atoi_digits]. cbn zeta. rewrite Hl, Hu, Hl2, Hu2, Hl3, Hu3.
  simpl andb. cbn [char_val]. rewrite Done_bind. unfold code_value, digit.
  apply Z.leb_le in Hl, Hu, Hl2, Hu2, Hl3, Hu3. bool_lia. f_equal. lia.
Qed.

Section grammar.
Context `{Allocator}.

Lemma response_switch_minor m c prev :
  is_digit c = true →
  switch_case ResponseProtocolVersionMinor m c prev
  = Done (Advance ResponseProtocolVersionMinor (setHTTPVersion m HTTP1_1)).
Proof. intros (Hc&_)%response_digit_facts. cbn [switch_case status_line_case header_case]. by rewrite Hc, Done_bind. Qed.

Lemma switch_code m c prev :
  is_digit c = true →
  switch_case StatusCode m c prev = Done (Advance StatusCode (pushBackResponseCode m c)).
Proof. intros (Hc&_)%response_digit_facts. cbn [switch_case status_line_case header_case]. by rewrite Hc, Done_bind. Qed.

Lemma switch_phrase m c prev :
  is_text c = true →
  switch_case ResponseReasonPhrase m c prev = Done (Advance ResponseReasonPhrase m).
Proof.
  intros Hc. cbn [switch_case status_line_case header_case]. rewrite bool_decide_eq_false_2 by by apply text_facts.
  by rewrite Hc.
Qed.

Lemma response_switch_name m c prev :
  is_token c = true →
  switch_case RHeaderName m c prev = Done (Advance RHeaderName (pushBackHeaderName m c)).
Proof. intros Hc. cbn [switch_case status_line_case header_case]. by rewrite Hc. Qed.

(** A message whose status code has not been read. *)
Definition no_code (m : HTTPResponseMessage) : Prop :=
  http_code_holder m = [None; None; None; Some (chr 0)] ∧ current_index m = 0.

Definition code_message (m : HTTPResponseMessage) (code : bytes) : HTTPResponseMessage :=
  foldl pushBackResponseCode m code.

Lemma code_message_full m d1 d2 d3 more :
  no_code m →
  code_message m (d1 :: d2 :: d3 :: more)
  = set_code_holder m [Some d1; Some d2; Some d3; Some (chr 0)] 3.
Proof.
  intros [Hh Hi]. destruct m. simpl in *. subst.
  by apply foldl_pushBackResponseCode_full.
Qed.

(** The message after the version. *)
Definition version_message (m : HTTPResponseMessage) (minor : bytes) :=
  set_version m (if minor is [] then http_message_version_ m else HTTP1_1).

(** The status line up to the SP after the code. *)
Lemma run_status_prefix prev m minor code rest :
  forallb is_digit minor = true → forallb is_digit code = true →
  run prev ResponseProtocolH m ($"HTTP/1." ++ minor ++ [SP] ++ code ++ [SP] ++ rest)
  = (n ← atoi (getTempStatusCode (code_message (version_message m minor) code));
     run (Done SP) ResponseReasonPhrase
       (setResponseCode (code_message (version_message m minor) code) (code_of_int n)) rest).
Proof.
  intros Hn Hc.
  change (run prev ResponseProtocolH m ($"HTTP/1." ++ minor ++ [SP] ++ code ++ [SP] ++ rest))
    with (run (Done (chr 46)) ResponseProtocolVersionMinor m
            (minor ++ SP :: code ++ SP :: rest)).
  rewrite (response_run_until _ _ StatusCode _ (λ m _, setHTTPVersion m HTTP1_1)); [|done| |done].
  2:{ intros. apply response_switch_minor. by apply (forallb_elem _ minor). }
  rewrite response_foldl_setHTTPVersion, (response_run_segment _ _ _ pushBackResponseCode); [|done|].
  2:{ intros. apply switch_code. by apply (forallb_elem _ code). }
  rewrite response_run_active by done. cbn [switch_case status_line_case header_case]. change (isdigit SP) with (Done false).
  rewrite Done_bind, bool_decide_eq_true_2 by done. fold (version_message m minor).
  unfold code_message. by destruct (atoi _).
Qed.

(** The whole status line, for a code of at least three digits. *)
Definition status_message (m : HTTPResponseMessage) (minor : bytes) (d1 d2 d3 : char) :=
  setResponseCode (set_code_holder (version_message m minor)
    [Some d1; Some d2; Some d3; Some (chr 0)] 3) (code_of_int (code_value d1 d2 d3)).

Lemma run_status_line prev m minor d1 d2 d3 more phrase rest :
  no_code m → forallb is_digit minor = true →
  forallb is_digit (d1 :: d2 :: d3 :: more) = true → forallb is_text phrase = true →
  run prev ResponseProtocolH m (status_line minor (d1 :: d2 :: d3 :: more) phrase ++ rest)
  = run (Done LF) RHeaderName (status_message m minor d1 d2 d3) rest.
Proof.
  intros Hm Hn Hc Hp. unfold status_line, CRLF. rewrite <- !app_assoc.
  rewrite run_status_prefix, code_message_full by done.
  simpl in Hc. apply andb_true_iff in Hc as [? [? [? _]%andb_true_iff]%andb_true_iff].
  cbn [getTempStatusCode set_code_holder http_code_holder].
  rewrite atoi_code, Done_bind by done.
  cbn [app]. rewrite (response_run_until _ _ StatusLineLF _ (λ m _, m)); [|done| |done].
  2:{ intros. apply switch_phrase. by apply (forallb_elem _ phrase). }
  rewrite response_run_active by done. cbn [switch_case status_line_case header_case]. rewrite bool_decide_eq_true_2 by done.
  cbn [expect]. rewrite Done_bind. f_equal. apply foldl_const.
Qed.

Lemma response_run_value pv raw m rest :
  forallb is_text raw = true →
  run (Done pv) RHeaderValue m (raw ++ CR :: rest)
  = run (Done CR) RHeaderValueLF
      (set_holders m (temp_header_value_holder_ m ++ response_value pv raw)
         (temp_header_name_holder_ m)) rest.
Proof.
  revert pv m. induction raw as [|c raw IH]; intros pv m Hv; simpl in Hv.
  { simpl. rewrite app_nil_r. by destruct m. }
  apply andb_true_iff in Hv as [Hc Hv]. cbn [app]. rewrite response_run_active by done.
  cbn [switch_case status_line_case header_case]. rewrite bool_decide_eq_false_2 by by apply text_facts.
  rewrite Hc, Done_bind. simpl response_value.
  case_bool_decide; rewrite Done_bind, IH by done; [done|].
  f_equal. unfold pushBackHeaderValue, set_holders. simpl. by rewrite <- app_assoc.
Qed.

(** A header line adds the header and clears the holders. *)
Lemma response_run_header_line prev m h raw rest :
  header_ok raw → http_headers_ m = Some h →
  temp_header_value_holder_ m = [] → temp_header_name_holder_ m = [] →
  run prev RHeaderName m (HTTPHeaders.header_line raw ++ rest)
  = run (Done LF) RHeaderName
      (set_headers m (Some (HTTPHeaders.addHeader h (stored raw)))) rest.
Proof.
  intros [Hn Hv] Hh Htv Htn. unfold HTTPHeaders.header_line, CRLF.
  rewrite <- !app_assoc. cbn [app].
  rewrite (response_run_until _ _ RHeaderValue _ pushBackHeaderName); [|done| |done].
  2:{ intros. apply response_switch_name. by apply (forallb_elem _ raw.1). }
  rewrite response_run_value by done. rewrite response_foldl_pushBackHeaderName.
  rewrite response_run_active by done. cbn [switch_case status_line_case header_case]. rewrite bool_decide_eq_true_2 by done.
  unfold addTempHeadersHolderToMessage. simpl. rewrite Hh, Htn, Htv. simpl.
  unfold set_holders, set_headers. simpl. by rewrite Htn, Htv.
Qed.

Lemma response_run_header_lines prev m h raws rest :
  Forall header_ok raws → http_headers_ m = Some h →
  temp_header_value_holder_ m = [] → temp_header_name_holder_ m = [] →
  ∃ prev', run prev RHeaderName m (HTTPHeaders.header_lines raws ++ rest)
  = run prev' RHeaderName
      (set_headers m (Some (HTTPHeaders.addHeaders h (stored <$> raws)))) rest.
Proof.
  intros Hok. revert prev m h.
  induction Hok as [|raw raws Hr Hok IH]; intros prev m h Hh Hv Hn.
  { exists prev. simpl. destruct m. simpl in *. by subst. }
  simpl. rewrite <- app_assoc, (response_run_header_line _ _ h) by done.
  eapply (IH _ (set_headers m _)); done.
Qed.

(** The state after the blank line that ends the headers. *)
Definition body_state (h : HTTPHeaders.HTTPHeaders) : ResponseParserState :=
  if HTTPHeaders.headerContains h $"Content-Length"
  then ResponseMessageBody else RParsingDone.

Lemma response_run_headers_end prev m h body :
  http_headers_ m = Some h →
  run prev RHeaderName m (CRLF ++ body) = run (Done LF) (body_state h) m body.
Proof.
  intros Hh. unfold CRLF. cbn [app]. rewrite response_run_active by done. cbn [switch_case status_line_case header_case].
  replace (is_token CR) with false by done. rewrite bool_decide_eq_false_2 by done.
  unfold expect. rewrite bool_decide_eq_true_2, Done_bind by done.
  rewrite response_run_active by done. cbn [switch_case status_line_case header_case]. rewrite bool_decide_eq_true_2 by done.
  unfold constGetHTTPHeaders, body_state. rewrite Hh. simpl deref.
  rewrite Done_bind. by case_match.
Qed.

Definition response_text (minor code phrase : bytes) (raws : list (bytes * bytes))
    (body : bytes) : bytes :=
  status_line minor code phrase ++ HTTPHeaders.header_lines raws ++ CRLF ++ body.

(** A message nothing has been parsed into yet, with table [h]. *)
Definition fresh (m : HTTPResponseMessage) (h : HTTPHeaders.HTTPHeaders) : Prop :=
  http_headers_ m = Some h ∧ temp_header_value_holder_ m = []
  ∧ temp_header_name_holder_ m = [] ∧ no_code m.

(** The message after the headers. *)
Definition parsed (m : HTTPResponseMessage) (h : HTTPHeaders.HTTPHeaders)
    (minor : bytes) (d1 d2 d3 : char) (raws : list (bytes * bytes)) :=
  set_headers (status_message m minor d1 d2 d3)
    (Some (HTTPHeaders.addHeaders h (stored <$> raws))).

Lemma run_response prev m h minor d1 d2 d3 more phrase raws body :
  fresh m h → forallb is_digit minor = true →
  forallb is_digit (d1 :: d2 :: d3 :: more) = true → forallb is_text phrase = true →
  Forall header_ok raws →
  run prev ResponseProtocolH m
    (response_text minor (d1 :: d2 :: d3 :: more) phrase raws body)
  = run (Done LF) (body_state (HTTPHeaders.addHeaders h (stored <$> raws)))
      (parsed m h minor d1 d2 d3 raws) body.
Proof.
  intros (Hh&Hv&Hn&Hc) ????. unfold response_text. rewrite run_status_line by done.
  destruct (response_run_header_lines (Done LF) (status_message m minor d1 d2 d3) h raws
    (CRLF ++ body)) as [prev' ->]; [done..|].
  by apply response_run_headers_end.
Qed.

(** *** The body *)
Lemma response_pushBackRawBody_repr m b s d :
  raw_body_ m = Some b → repr b s → capacity_ b + Z.of_nat (length d) < size_max →
  (∀ n, alloc_ok n = true) →
  ∃ b', pushBackRawBody m d = Done (set_body m (Some b')) ∧ repr b' (s ++ d).
Proof.
  intros Hb Hr Hmax Ha. destruct (append_repr 2 b s d) as (b'&Hb'&Hr'&Hc&_); try done.
  exists b'. unfold pushBackRawBody. rewrite Hb. simpl deref. by rewrite Done_bind, Hb'.
Qed.

(** The state and the stored body when the headers are followed by [body]. *)
Definition body_result (st : ResponseParserState) (body : bytes)
  : ResponseParserState * bytes :=
  match st, body with
  | ResponseMessageBody, _ :: _ => (RParsingDone, body)
  | _, _ => (st, [])
  end.

Lemma run_body prev h m b body :
  raw_body_ m = Some b → repr b [] →
  capacity_ b + Z.of_nat (length body) < size_max → (∀ n, alloc_ok n = true) →
  ∃ b', run prev (body_state h) m body
        = Done ((body_result (body_state h) body).1, set_body m (Some b'))
        ∧ repr b' (body_result (body_state h) body).2.
Proof.
  intros Hb Hr Hmax Ha.
  assert (set_body m (Some b) = m) as Hm by (destruct m; simpl in *; by subst).
  unfold body_state. case_match; destruct body as [|c body]; simpl;
    try (exists b; by rewrite Hm).
  destruct (response_pushBackRawBody_repr m b [] (c :: body)) as (b'&->&?); [done..|].
  by exists b'.
Qed.
End grammar.

Section theorems.
Context `{Allocator}.

(** The parser on a buffer that holds [l] is the machine on [l]. *)
Lemma response_Parse_run fuel buf l st m :
  repr buf l → (length l + 2 <= fuel)%nat →
  ParseHTTP1_1ResponseMessage fuel buf st m = run (prev_read buf) st m l.
Proof.
  intros (b&Hb&Hl&_&Hh&He) Hf. unfold ParseHTTP1_1ResponseMessage, prev_read.
  by rewrite Hb, He, (response_parse_loop_run _ _ _ l).
Qed.

Lemma response_first_part_run fuel buf l1 l2 st m :
  repr buf (l1 ++ l2) → (length (l1 ++ l2) + 2 <= fuel)%nat →
  ParseHTTP1_1ResponseMessage fuel (first_part buf l2) st m
  = run (prev_read buf) st m l1.
Proof.
  intros Hr Hf. by rewrite (response_Parse_run _ _ l1) by (by apply first_part_repr || len_lia).
Qed.

Lemma response_second_part_run fuel buf l1 l2 st m :
  repr buf (l1 ++ l2) → (length (l1 ++ l2) + 2 <= fuel)%nat →
  ParseHTTP1_1ResponseMessage fuel (second_part buf l1) st m
  = run (List.last (Done <$> l1) (prev_read buf)) st m l2.
Proof.
  intros Hr Hf. rewrite (response_Parse_run _ _ l2) by (by eapply second_part_repr || len_lia).
  by rewrite (second_part_prev _ _ l2).
Qed.

(** C8: Every well formed HTTP/1 response whose status code has at least three
    digits is parsed: the code is the value of the first three, each header
    line is stored under its name (the first one of a name wins) without the
    characters that follow a colon, and when there is a [Content-Length] what
    is in the buffer after the headers is the body. *)
Theorem ParseHTTP1_1ResponseMessage_correct fuel buf m h b minor d1 d2 d3 more
    phrase raws body :
  repr buf (response_text minor (d1 :: d2 :: d3 :: more) phrase raws body) →
  (length (response_text minor (d1 :: d2 :: d3 :: more) phrase raws body) + 2
     <= fuel)%nat →
  fresh m h → forallb is_digit minor = true →
  forallb is_digit (d1 :: d2 :: d3 :: more) = true → forallb is_text phrase = true →
  Forall header_ok raws → raw_body_ m = Some b → repr b [] →
  capacity_ b + Z.of_nat (length body) < size_max → (∀ n, alloc_ok n = true) →
  let st := body_state (HTTPHeaders.addHeaders h (stored <$> raws)) in
  ∃ b', ParseHTTP1_1ResponseMessage fuel buf ResponseProtocolH m
        = Done ((body_result st body).1,
                set_body (parsed m h minor d1 d2 d3 raws) (Some b'))
        ∧ repr b' (body_result st body).2.
Proof.
  intros Hr Hf ????? Hb Hrb ?? st. rewrite (response_Parse_run fuel _ _ _ _ Hr Hf).
  rewrite (run_response _ _ h) by done. by apply run_body with b.
Qed.

Lemma short_code_uninitialised m code :
  no_code m → (length code < 3)%nat → forallb is_digit code = true →
  atoi (getTempStatusCode (code_message m code)) = Undefined Uninitialised.
Proof.
  intros [Hh Hi] Hl Hc. destruct m. simpl in *. subst.
  destruct code as [|c1 [|c2 [|]]]; simpl in Hl, Hc; try lia; try done;
    repeat match goal with
      | H : _ && _ = true |- _ => apply andb_true_iff in H as [? ?]
      | H : is_digit _ = true |- _ =>
          apply response_digit_facts in H as (_&?&?&?&?&?)
      end;
    unfold atoi, digit in *; simpl;
    repeat match goal with H : _ = true |- _ => rewrite H; clear H
                         | H : _ = false |- _ => rewrite H; clear H end; done.
Qed.

(** A status code of fewer than three digits is undefined behaviour: [atoi]
    reads the bytes of the holder that the constructor has not written. *)
Theorem ParseHTTP1_1ResponseMessage_short_code fuel buf m minor code rest :
  let text := $"HTTP/1." ++ minor ++ [SP] ++ code ++ [SP] ++ rest in
  repr buf text → (length text + 2 <= fuel)%nat →
  no_code m → forallb is_digit minor = true →
  forallb is_digit code = true → (length code < 3)%nat →
  ParseHTTP1_1ResponseMessage fuel buf ResponseProtocolH m = Undefined Uninitialised.
Proof.
  intros text Hr Hf Hm ? ? ?. subst text. rewrite (response_Parse_run fuel _ _ _ _ Hr Hf).
  rewrite run_status_prefix by done.
  by rewrite short_code_uninitialised by (done || by destruct Hm).
Qed.

(** *** The parser always returns *)
Lemma atoi_fuel l : atoi l ≠ OutOfFuel.
Proof.
  assert (∀ l acc, atoi_digits l acc ≠ OutOfFuel) as Hd.
  { intros l'. induction l' as [|[c|] l' IH]; intros acc; simpl; try done. by case_match. }
  assert (∀ l, atoi_sign l ≠ OutOfFuel) as Hs.
  { intros [|[c|] l']; simpl; try done. repeat case_match; try apply Hd; [|done].
    by apply bind_fuel. }
  unfold atoi. apply bind_fuel; [|intros; by case_match].
  induction l as [|[c|] l IH]; [apply (Hs [])| |apply (Hs (None :: l))].
  simpl. case_match; [done|apply (Hs (Some c :: l))].
Qed.

Lemma response_switch_case_fuel st m c prev :
  prev ≠ OutOfFuel → switch_case st m c prev ≠ OutOfFuel.
Proof.
  intros Hp. pose proof (isdigit_fuel c). pose proof (atoi_fuel (getTempStatusCode m)).
  destruct st; simpl; unfold expect, fail, addTempHeadersHolderToMessage;
    repeat (simpl; case_match); try done.
  all: repeat (apply bind_fuel; [|intros]); try done; try by case_match.
  - case_match; [done|by apply bind_fuel].
  - by destruct (http_headers_ m).
  - unfold constGetHTTPHeaders. by destruct (http_headers_ m).
Qed.

Lemma response_switch_case_body st m c prev st' m' :
  switch_case st m c prev = Done (Advance st' m') → raw_body_ m' = raw_body_ m.
Proof.
  intros Hs. destruct st; simpl in Hs;
    unfold expect, fail, addTempHeadersHolderToMessage, pushBackResponseCode in Hs.
  all: repeat (case_match || res_inv); simplify_eq/=; done.
Qed.

(** Room for [n] more bytes in the message's body buffer. *)
Definition body_room (m : HTTPResponseMessage) (n : nat) : Prop :=
  ∃ b s, raw_body_ m = Some b ∧ repr b s ∧ capacity_ b + Z.of_nat n < size_max.

Lemma response_body_room_le m m' n n' :
  body_room m n → raw_body_ m' = raw_body_ m → (n' <= n)%nat → body_room m' n'.
Proof. intros (b&s&Hb&Hr&Hc) Hm Hn. exists b, s. rewrite Hm. split_and!; [done..|lia]. Qed.

Lemma response_pushBackRawBody_fuel m d :
  body_room m (length d) → pushBackRawBody m d ≠ OutOfFuel.
Proof.
  intros (b&s&Hb&Hr&Hc). unfold pushBackRawBody. rewrite Hb. simpl deref.
  rewrite Done_bind. apply bind_fuel; [|done].
  pose proof (append_fuel b s d Hr Hc) as Hf. by destruct (appendRawBytes 2 b (init d)).
Qed.

Lemma run_returns prev st m l :
  prev ≠ OutOfFuel → body_room m (length l) → run prev st m l ≠ OutOfFuel.
Proof.
  revert prev st m. induction l as [|c l IH]; intros prev st m Hp Hroom; [done|].
  destruct (active st) eqn:Ha.
  - rewrite response_run_active by done.
    destruct (switch_case st m c prev) as [[st' m'|st' m']| | | |] eqn:Hs; try done.
    + rewrite Done_bind. apply IH; [done|].
      eapply response_body_room_le; [done|by eapply response_switch_case_body|simpl; lia].
    + by apply response_switch_case_fuel in Hs.
  - destruct st; try done. simpl.
    apply bind_fuel; [by apply response_pushBackRawBody_fuel|done].
Qed.

(** C19: Unlike the request parser, the response parser returns on every input,
    within a turn per character and two more. *)
Theorem ParseHTTP1_1ResponseMessage_returns fuel buf st m l :
  repr buf l → (length l + 2 <= fuel)%nat → body_room m (length l) →
  ParseHTTP1_1ResponseMessage fuel buf st m ≠ OutOfFuel.
Proof.
  intros Hr Hf Hroom. rewrite (response_Parse_run fuel _ _ _ _ Hr Hf).
  apply run_returns; [apply prev_read_fuel|done].
Qed.

(** *** Incremental parsing *)
Lemma response_run_app prev st m l1 l2 st1 m1 :
  run prev st m l1 = Done (st1, m1) → st1 ≠ RParsingDone →
  run prev st m (l1 ++ l2) = run (List.last (Done <$> l1) prev) st1 m1 l2.
Proof.
  revert prev st m. induction l1 as [|c l1 IH]; intros prev st m Hrun Hst.
  { simpl in Hrun. by simplify_eq. }
  cbn [app]. destruct (active st) eqn:Ha.
  - rewrite response_run_active in * by done.
    destruct (switch_case st m c prev) as [[st' m'|st' m']| | | |]; try done;
      rewrite !Done_bind in *.
    + rewrite IH by done. by rewrite <- (last_cons_default (Done c) (Done <$> l1) prev).
    + simplify_eq. by destruct l2.
  - destruct st; try done; simpl in *; res_inv; simplify_eq; [|done..].
    by destruct l2.
Qed.

(** C33: The parser can be fed its input in pieces, as long as the first piece does
    not reach into the body. *)
Theorem ParseHTTP1_1ResponseMessage_incremental fuel buf st m l1 l2 st1 m1 :
  repr buf (l1 ++ l2) → (length (l1 ++ l2) + 2 <= fuel)%nat →
  ParseHTTP1_1ResponseMessage fuel (first_part buf l2) st m = Done (st1, m1) →
  st1 ≠ RParsingDone →
  ParseHTTP1_1ResponseMessage fuel buf st m
  = ParseHTTP1_1ResponseMessage fuel (second_part buf l1) st1 m1.
Proof.
  intros Hr Hf H1 Hst. rewrite (response_first_part_run fuel buf l1 l2) in H1 by done.
  rewrite (response_second_part_run fuel buf l1 l2), (response_Parse_run fuel _ _ _ _ Hr Hf) by done.
  by apply response_run_app.
Qed.

(** C34: A body that arrives in two pieces loses the second one, whatever its
    [Content-Length]: the first piece ends the parsing. *)
Theorem ParseHTTP1_1ResponseMessage_body_cut fuel buf m h b minor d1 d2 d3 more
    phrase raws c body1 body2 :
  let head := response_text minor (d1 :: d2 :: d3 :: more) phrase raws (c :: body1) in
  repr buf (head ++ body2) → (length (head ++ body2) + 2 <= fuel)%nat →
  fresh m h → forallb is_digit minor = true →
  forallb is_digit (d1 :: d2 :: d3 :: more) = true → forallb is_text phrase = true →
  Forall header_ok raws → raw_body_ m = Some b → repr b [] →
  capacity_ b + Z.of_nat (length (c :: body1)) < size_max → (∀ n, alloc_ok n = true) →
  HTTPHeaders.headerContains (HTTPHeaders.addHeaders h (stored <$> raws))
    $"Content-Length" = true →
  ∃ m' b',
    (r ← ParseHTTP1_1ResponseMessage fuel (first_part buf body2) ResponseProtocolH m;
     ParseHTTP1_1ResponseMessage fuel (second_part buf head) r.1 r.2)
    = Done (RParsingDone, m') ∧ raw_body_ m' = Some b' ∧ repr b' (c :: body1).
Proof.
  intros head Hr Hf Hm ???? Hb Hrb ?? Hcl.
  rewrite (response_first_part_run fuel buf head body2) by done.
  pose proof (run_response (prev_read buf) m h minor d1 d2 d3 more phrase raws (c :: body1))
    as Hrun. fold head in Hrun. rewrite Hrun by done.
  destruct (run_body (Done LF) (HTTPHeaders.addHeaders h (stored <$> raws))
    (parsed m h minor d1 d2 d3 raws) b (c :: body1)) as (b'&->&Hb'); [done..|].
  unfold body_state in *. rewrite Hcl in *. simpl in *.
  rewrite (response_second_part_run fuel buf head body2) by done.
  eexists _, b'. split; [by destruct body2|done].
Qed.

(** *** Printing and parsing *)
Lemma stored_spaced h : stored (HTTPHeaders.spaced h) = (h.1, response_value SP h.2).
Proof. done. Qed.

(** A value survives the parser when it has no colon but perhaps a last one. *)
Lemma response_value_id prev v :
  prev ≠ chr 58 → response_value prev v = v ↔ chr 58 ∉ removelast v.
Proof.
  assert (∀ prev v, (length (response_value prev v) <= length v)%nat) as Hlen.
  { clear. intros prev v. revert prev. induction v as [|c v IH]; intros prev; simpl; [done|].
    case_bool_decide; simpl; specialize (IH c); lia. }
  revert prev. induction v as [|c v IH]; intros prev Hp; simpl; [set_solver|].
  rewrite bool_decide_eq_false_2 by done.
  destruct v as [|d v]; [simpl; set_solver|].
  rewrite not_elem_of_cons. destruct (decide (c = chr 58)) as [->|Hc].
  - split; [|by intros [? _]]. intros [= Heq]. exfalso.
    specialize (Hlen d v). rewrite Heq in Hlen. simpl in Hlen. lia.
  - rewrite <- (IH c) by done. split; [by intros [= ?]|]. by intros [_ ->].
Qed.

(** The table the parser stores for a printed one. *)
Lemma addHeaders_stored `{HTTPHeaders.HashOrder} t :
  HTTPHeaders.http_headers_ (HTTPHeaders.addHeaders HTTPHeaders.empty_headers
    (stored <$> (HTTPHeaders.spaced <$> HTTPHeaders.hash_order t)))
  = response_value SP <$> t.
Proof.
  rewrite HTTPHeaders.addHeaders_empty, <- list_fmap_compose.
  change (stored ∘ HTTPHeaders.spaced)
    with (prod_map (@id (list ascii)) (response_value SP)).
  rewrite <- (list_to_map_to_list t) at 2. rewrite <- list_to_map_fmap.
  apply list_to_map_proper.
  - rewrite <- list_fmap_compose. change (fst ∘ prod_map id _) with (@fst (list ascii) (list ascii)).
    rewrite HTTPHeaders.hash_order_perm. apply NoDup_fst_map_to_list.
  - by rewrite HTTPHeaders.hash_order_perm.
Qed.

(** The printed table is read back exactly when every value survives. *)
Lemma printed_table `{HTTPHeaders.HashOrder} h :
  HTTPHeaders.addHeaders HTTPHeaders.empty_headers (stored <$>
    (HTTPHeaders.spaced <$> HTTPHeaders.hash_order (HTTPHeaders.http_headers_ h))) = h
  ↔ map_Forall (λ _ v, chr 58 ∉ removelast v) (HTTPHeaders.http_headers_ h).
Proof.
  pose proof (addHeaders_stored (HTTPHeaders.http_headers_ h)) as Ht. split.
  - intros Heq n v Hnv. apply (response_value_id SP); [done|].
    rewrite Heq in Ht. apply (f_equal (λ t, t !! n)) in Ht.
    rewrite lookup_fmap, Hnv in Ht. by injection Ht.
  - intros Hall. apply HTTPHeaders.headers_eq. rewrite Ht. apply map_eq. intros n.
    rewrite lookup_fmap. destruct (_ !! n) as [v|] eqn:Hn; [|done].
    simpl. f_equal. apply response_value_id; [done|]. by eapply Hall.
Qed.

(** What the status switch appends for an enumerator can be read back. *)
Lemma status_switch_text c :
  named c = true → c ≠ InvalidHttpCode →
  ∃ d1 d2 d3 phrase, status_switch c = Done (Some ([d1; d2; d3] ++ [SP] ++ phrase))
    ∧ forallb is_digit [d1; d2; d3] = true ∧ forallb is_text phrase = true
    ∧ code_of_int (code_value d1 d2 d3) = c.
Proof.
  intros Hn Hc. destruct c; try done; eexists _, _, _, _;
    (split; [vm_compute; reflexivity|done]).
Qed.

Lemma response_buildRawMessage_text `{HTTPHeaders.HashOrder} m h b body :
  http_message_version_ m = HTTP1_1 → named (response_code_ m) = true →
  response_code_ m ≠ InvalidHttpCode →
  http_headers_ m = Some h → raw_body_ m = Some b → repr b body →
  ∃ d1 d2 d3 phrase,
    buildRawMessage m = Done (response_text [chr 49] [d1; d2; d3] phrase
      (HTTPHeaders.spaced <$> HTTPHeaders.hash_order (HTTPHeaders.http_headers_ h)) body)
    ∧ forallb is_digit [d1; d2; d3] = true ∧ forallb is_text phrase = true
    ∧ code_of_int (code_value d1 d2 d3) = response_code_ m.
Proof.
  intros Hv Hn Hc Hh Hb Hr.
  destruct (status_switch_text _ Hn Hc) as (d1&d2&d3&phrase&Hs&Hd&Ht&Hcode).
  exists d1, d2, d3, phrase. split_and!; [|done..].
  unfold buildRawMessage. rewrite Hv, Hs, Hh, Hb. simpl.
  rewrite (repr_string _ _ Hr), Done_bind. f_equal.
  unfold response_text, status_line, HTTPHeaders.buildRawHeader.
  rewrite HTTPHeaders.raw_header_lines_text. simpl. by rewrite <- ?app_assoc.
Qed.

(** A header table that can be printed. *)
Definition printable (n v : bytes) : Prop :=
  forallb is_token n = true ∧ forallb is_text v = true.

#[export] Instance printable_dec n v : Decision (printable n v).
Proof. unfold printable. apply _. Defined.

Lemma response_printed_headers_ok `{HTTPHeaders.HashOrder} t :
  map_Forall printable t →
  Forall header_ok (HTTPHeaders.spaced <$> HTTPHeaders.hash_order t).
Proof.
  intros Hall. apply Forall_fmap, Forall_forall. intros [n v] Hnv. simpl.
  rewrite HTTPHeaders.hash_order_perm in Hnv. by apply elem_of_map_to_list, Hall in Hnv.
Qed.

Lemma response_printed_run `{HTTPHeaders.HashOrder} fuel buf raw m h b body b0 :
  http_message_version_ m = HTTP1_1 → named (response_code_ m) = true →
  response_code_ m ≠ InvalidHttpCode →
  http_headers_ m = Some h → raw_body_ m = Some b → repr b body →
  map_Forall printable (HTTPHeaders.http_headers_ h) →
  buildRawMessage m = Done raw → repr buf raw → (length raw + 2 <= fuel)%nat →
  repr b0 [] → capacity_ b0 + Z.of_nat (length body) < size_max →
  (∀ n, alloc_ok n = true) →
  ∃ st m', ParseHTTP1_1ResponseMessage fuel buf ResponseProtocolH
             (set_body empty_message (Some b0)) = Done (st, m')
    ∧ response_code_ m' = response_code_ m
    ∧ (http_headers_ m' = Some h ↔
       map_Forall (λ _ v, chr 58 ∉ removelast v) (HTTPHeaders.http_headers_ h))
    ∧ st = (if HTTPHeaders.headerContains h $"Content-Length" && bool_decide (body = [])
            then ResponseMessageBody else RParsingDone)
    ∧ ∃ b', raw_body_ m' = Some b'
        ∧ repr b' (if HTTPHeaders.headerContains h $"Content-Length" then body else []).
Proof.
  intros Hv Hn Hc Hh Hb Hr Hall Hraw Hbuf Hf Hr0 Hmax Ha.
  destruct (response_buildRawMessage_text m h b body) as (d1&d2&d3&phrase&Hraw'&Hd&Hp&Hcode);
    [done..|].
  rewrite Hraw' in Hraw. injection Hraw as <-.
  rewrite (response_Parse_run fuel _ _ _ _ Hbuf Hf).
  rewrite (run_response _ _ HTTPHeaders.empty_headers)
    by (done || by apply response_printed_headers_ok).
  match goal with |- context [run _ (body_state ?t) ?m0 body] =>
    destruct (run_body (Done LF) t m0 b0 body) as (b'&->&Hb'); [done..|];
    pose proof (addHeaders_stored (HTTPHeaders.http_headers_ h)) as Ht;
    assert (HTTPHeaders.headerContains t $"Content-Length"
            = HTTPHeaders.headerContains h $"Content-Length") as Hcl
      by (unfold HTTPHeaders.headerContains; rewrite Ht; apply bool_decide_ext;
          by rewrite lookup_fmap, fmap_is_Some)
  end.
  eexists _, _. split; [done|]. split; [done|]. split.
  - rewrite <- printed_table. split; [by intros [= ?]|].
    intros Heq. simpl. by rewrite Heq.
  - rewrite <- Hcl. unfold body_state in Hb' |- *.
    destruct (HTTPHeaders.headerContains _ _); [|by split; [destruct body|exists b'; destruct body]].
    destruct body; (split; [done|]); by exists b'.
Qed.

Lemma response_printed_parsed `{HTTPHeaders.HashOrder} fuel buf raw m h b body b0 :
  http_message_version_ m = HTTP1_1 → named (response_code_ m) = true →
  response_code_ m ≠ InvalidHttpCode →
  http_headers_ m = Some h → raw_body_ m = Some b → repr b body →
  map_Forall printable (HTTPHeaders.http_headers_ h) →
  buildRawMessage m = Done raw → repr buf raw → (length raw + 2 <= fuel)%nat →
  repr b0 [] → capacity_ b0 + Z.of_nat (length body) < size_max →
  (∀ n, alloc_ok n = true) →
  ∃ st m', ParseHTTP1_1ResponseMessage fuel buf ResponseProtocolH
             (set_body empty_message (Some b0)) = Done (st, m')
    ∧ response_code_ m' = response_code_ m
    ∧ (http_headers_ m' = Some h ↔
       map_Forall (λ _ v, chr 58 ∉ removelast v) (HTTPHeaders.http_headers_ h))
    ∧ (HTTPHeaders.headerContains h $"Content-Length" = true →
       raw_body_ m' ≡ raw_body_ m).
Proof.
  intros Hv Hn Hc Hh Hb Hr Hall Hraw Hbuf Hf Hr0 Hmax Ha.
  destruct (response_printed_run fuel buf raw m h b body b0)
    as (st&m'&?&?&?&_&b'&Hb'&Hr'); [done..|].
  exists st, m'. split_and!; [done..|]. intros Hlen. rewrite Hlen in Hr'.
  rewrite Hb, Hb'. constructor. by eapply repr_equiv.
Qed.

(** C10: An HTTP/1.1 response with a code that has a name and with printable headers,
    printed by [buildRawMessage] in any order of its headers, is parsed with its
    status code. Its header table is read back if and only if no value has a colon
    before its last character. Its body is read back when there is a
    [Content-Length]; otherwise it is dropped, and the parsed message has none. *)
Theorem response_roundtrip `{HTTPHeaders.HashOrder} fuel buf raw m h b body b0 :
  http_message_version_ m = HTTP1_1 → named (response_code_ m) = true →
  response_code_ m ≠ InvalidHttpCode →
  http_headers_ m = Some h → raw_body_ m = Some b → repr b body →
  map_Forall printable (HTTPHeaders.http_headers_ h) →
  buildRawMessage m = Done raw → repr buf raw → (length raw + 2 <= fuel)%nat →
  repr b0 [] → capacity_ b0 + Z.of_nat (length body) < size_max →
  (∀ n, alloc_ok n = true) →
  ∃ st m', ParseHTTP1_1ResponseMessage fuel buf ResponseProtocolH
             (set_body empty_message (Some b0)) = Done (st, m')
    ∧ response_code_ m' = response_code_ m
    ∧ (http_headers_ m' = Some h ↔
       map_Forall (λ _ v, chr 58 ∉ removelast v) (HTTPHeaders.http_headers_ h))
    ∧ st = (if HTTPHeaders.headerContains h $"Content-Length" && bool_decide (body = [])
            then ResponseMessageBody else RParsingDone)
    ∧ ∃ b', raw_body_ m' = Some b'
        ∧ repr b' (if HTTPHeaders.headerContains h $"Content-Length" then body else []).
Proof. apply response_printed_run. Qed.
End theorems.

(** ** Concrete runs *)
Definition ok_headers : list (bytes * bytes) :=
  [($"Server", $" Cloudflare"); ($"Date", $" Tue, 17 Aug 2021 04:00:59 GMT");
   ($"Content-Length", $" 11")].
Definition ok_text : bytes := response_text $"1" $"200" $"OK" ok_headers $"Hello world".

Lemma ok_headers_ok : Forall header_ok ok_headers.
Proof. repeat constructor. Defined.

Lemma response_empty_message_fresh : fresh empty_message HTTPHeaders.empty_headers.
Proof. repeat constructor. Defined.

Lemma response_empty_body_repr : repr (new_buffer initial_capacity_) [].
Proof. apply new_buffer_repr. split; [discriminate|reflexivity]. Qed.

(** The stored [Date] is not the one that was sent. *)
Lemma ParseHTTP1_1ResponseMessage_correct_witness :
  ∃ b', @ParseHTTP1_1ResponseMessage total_alloc 200 (buffer_of ok_text)
          ResponseProtocolH empty_message
    = Done (RParsingDone, set_body (parsed empty_message HTTPHeaders.empty_headers
        $"1" (chr 50) (chr 48) (chr 48) ok_headers) (Some b'))
    ∧ repr b' $"Hello world"
    ∧ HTTPHeaders.getHeaderValue
        (HTTPHeaders.addHeaders HTTPHeaders.empty_headers (stored <$> ok_headers))
        $"Date" = Some $"Tue, 17 Aug 2021 04:0:9 GMT".
Proof.
  edestruct (@ParseHTTP1_1ResponseMessage_correct total_alloc 200 (buffer_of ok_text)
    empty_message HTTPHeaders.empty_headers (new_buffer initial_capacity_)
    $"1" (chr 50) (chr 48) (chr 48) [] $"OK" ok_headers $"Hello world")
    as (b'&Hrun&Hb'); try reflexivity.
  - apply (buffer_of_repr ok_text). reflexivity.
  - apply Nat.leb_le. reflexivity.
  - exact response_empty_message_fresh.
  - exact ok_headers_ok.
  - exact response_empty_body_repr.
  - exists b'. split; [exact Hrun|]. split; [exact Hb'|]. vm_compute. reflexivity.
Defined.

Definition short_text : bytes := $"HTTP/1." ++ $"1" ++ [SP] ++ $"20" ++ [SP] ++ $"OK" ++ CRLF.

Lemma ParseHTTP1_1ResponseMessage_short_code_witness :
  @ParseHTTP1_1ResponseMessage total_alloc 50 (buffer_of short_text)
    ResponseProtocolH empty_message = Undefined Uninitialised.
Proof.
  apply (@ParseHTTP1_1ResponseMessage_short_code total_alloc 50 (buffer_of short_text)
    empty_message $"1" $"20" ($"OK" ++ CRLF)); try reflexivity.
  - apply (buffer_of_repr short_text). reflexivity.
  - apply Nat.leb_le. reflexivity.
  - split; reflexivity.
  - apply Nat.ltb_lt. reflexivity.
Defined.

Lemma ParseHTTP1_1ResponseMessage_returns_witness :
  @ParseHTTP1_1ResponseMessage total_alloc 50 (buffer_of $"HTTP/1.1 200")
    ResponseProtocolH empty_message ≠ OutOfFuel.
Proof.
  apply (@ParseHTTP1_1ResponseMessage_returns total_alloc 50 (buffer_of $"HTTP/1.1 200")
    ResponseProtocolH empty_message $"HTTP/1.1 200").
  - apply buffer_of_repr. reflexivity.
  - apply Nat.leb_le. reflexivity.
  - exists (new_buffer initial_capacity_), []. split; [reflexivity|].
    split; [exact response_empty_body_repr|reflexivity].
Defined.

(** Cut inside the status code. *)
Lemma ParseHTTP1_1ResponseMessage_incremental_witness :
  ∃ m1,
    @ParseHTTP1_1ResponseMessage total_alloc 200
      (first_part (buffer_of ok_text) (drop 10 ok_text)) ResponseProtocolH empty_message
    = Done (StatusCode, m1)
    ∧ @ParseHTTP1_1ResponseMessage total_alloc 200 (buffer_of ok_text)
        ResponseProtocolH empty_message
      = @ParseHTTP1_1ResponseMessage total_alloc 200
          (second_part (buffer_of ok_text) (take 10 ok_text)) StatusCode m1.
Proof.
  eexists. split; [reflexivity|].
  apply (@ParseHTTP1_1ResponseMessage_incremental total_alloc 200 (buffer_of ok_text)
    ResponseProtocolH empty_message (take 10 ok_text) (drop 10 ok_text)).
  - apply (buffer_of_repr ok_text). reflexivity.
  - apply Nat.leb_le. reflexivity.
  - reflexivity.
  - discriminate.
Defined.

Definition first_chunk : bytes := response_text $"1" $"200" $"OK" ok_headers $"Hello ".

Lemma ParseHTTP1_1ResponseMessage_body_cut_witness :
  ∃ m' b',
    (r ← @ParseHTTP1_1ResponseMessage total_alloc 200
           (first_part (buffer_of (first_chunk ++ $"world")) $"world")
           ResponseProtocolH empty_message;
     @ParseHTTP1_1ResponseMessage total_alloc 200
       (second_part (buffer_of (first_chunk ++ $"world")) first_chunk) r.1 r.2)
    = Done (RParsingDone, m') ∧ raw_body_ m' = Some b' ∧ repr b' $"Hello ".
Proof.
  apply (@ParseHTTP1_1ResponseMessage_body_cut total_alloc 200
    (buffer_of (first_chunk ++ $"world"))
    empty_message HTTPHeaders.empty_headers (new_buffer initial_capacity_)
    $"1" (chr 50) (chr 48) (chr 48) [] $"OK" ok_headers (chr 72) $"ello " $"world");
    try reflexivity.
  - apply (buffer_of_repr (first_chunk ++ $"world")). reflexivity.
  - apply Nat.leb_le. reflexivity.
  - exact response_empty_message_fresh.
  - exact ok_headers_ok.
  - exact response_empty_body_repr.
Defined.

Definition redirect_message : HTTPResponseMessage :=
  mkHTTPResponseMessage
    (Some (HTTPHeaders.addHeaders HTTPHeaders.empty_headers
             [($"Location", $"http://a.b/"); ($"Content-Length", $"4")]))
    (Some (buffer_of $"gone")) TemporaryRedirect HTTP1_1 [] [] [] 0.
Definition redirect_text : bytes :=
  match @buildRawMessage HTTPHeaders.map_to_list_order redirect_message with
  | Done raw => raw | _ => [] end.

(** The colon of a URL: the table is not read back. *)
Lemma response_roundtrip_witness :
  ∃ st m', @ParseHTTP1_1ResponseMessage total_alloc 200 (buffer_of redirect_text)
             ResponseProtocolH
             (set_body empty_message (Some (new_buffer initial_capacity_))) = Done (st, m')
    ∧ response_code_ m' = TemporaryRedirect
    ∧ http_headers_ m' ≠ http_headers_ redirect_message.
Proof.
  edestruct (@response_roundtrip total_alloc HTTPHeaders.map_to_list_order 200
    (buffer_of redirect_text) redirect_text redirect_message
    (HTTPHeaders.addHeaders HTTPHeaders.empty_headers
       [($"Location", $"http://a.b/"); ($"Content-Length", $"4")])
    (buffer_of $"gone") $"gone" (new_buffer initial_capacity_))
    as (st&m'&Hrun&Hcode&Hiff&_); try reflexivity.
  - discriminate.
  - apply buffer_of_repr. reflexivity.
  - apply map_Forall_to_list, (bool_decide_unpack _). vm_compute. exact I.
  - apply buffer_of_repr. reflexivity.
  - apply Nat.leb_le. vm_compute. reflexivity.
  - exact response_empty_body_repr.
  - exists st, m'. split; [exact Hrun|]. split; [exact Hcode|].
    intros Heq. apply Hiff in Heq. specialize (Heq $"Location" $"http://a.b/" eq_refl).
    apply Heq. apply (bool_decide_unpack _). vm_compute. exact I.
Defined.
