(* ===== verification/ResponseGrammar.v ===== *)
(** * The language of the response parser
    (blueth/http/HTTPParserStateMachineResponse.hpp)

    The converse of ResponseParser's theorem on well formed responses, as
    RequestGrammar has it for requests: whatever the parser finishes on is a
    response of the grammar, with a status code of at least three digits. *)
From Stdlib Require Import ZArith Lia Ascii String.
From stdpp Require Import base gmap sets strings list.
From S2P Require Import Prelude IOBuffer HTTPConstants Scanner.
From S2P Require HTTPHeaders.
From S2P Require Import ResponseMessage ResponseParser.
Local Open Scope Z_scope.
Local Open Scope blueth_scope.

(** The parts of a response text; [unfinished] as in a request. *)
Record response_parts := mkResponseParts {
  minor_part : bytes;
  code_part : bytes;
  phrase_part : bytes;
  header_parts : list (bytes * bytes);
  unfinished : bytes;
  body_part : bytes
}.

Definition response_parts_text (r : response_parts) : bytes :=
  status_line (minor_part r) (code_part r) (phrase_part r)
  ++ HTTPHeaders.header_lines (header_parts r) ++ unfinished r ++ CRLF ++ body_part r.

Definition response_parts_ok (r : response_parts) : Prop :=
  forallb is_digit (minor_part r) = true
  ∧ forallb is_digit (code_part r) = true ∧ forallb is_text (phrase_part r) = true
  ∧ Forall header_ok (header_parts r) ∧ forallb is_token (unfinished r) = true.

(** The enumerator of the first three digits. *)
Definition code_of_text (code : bytes) : option HTTPResponseCodes :=
  match code with
  | d1 :: d2 :: d3 :: _ => Some (code_of_int (code_value d1 d2 d3))
  | _ => None
  end.

(** The state after the headers and the body, for a table [h] to begin with. *)
Definition end_state (h : HTTPHeaders.HTTPHeaders) (r : response_parts)
  : ResponseParserState :=
  (body_result (body_state (HTTPHeaders.addHeaders h (stored <$> header_parts r)))
     (body_part r)).1.

Definition response_finished (st : ResponseParserState) : Prop :=
  st = RParsingDone ∨ st = ResponseMessageBody.

Lemma response_isdigit c : isdigit c = Done true → is_digit c = true.
Proof. revert c. by_all_chars. Qed.

Section soundness.
Context `{Allocator}.

(** A run that finishes in [st'] with [m']. *)
Section states.
Context (st' : ResponseParserState) (m' : HTTPResponseMessage).
Context (Hfin : response_finished st').

Definition advances (st : ResponseParserState) (m : HTTPResponseMessage) (c : char)
    (prev : res char) (st1 : ResponseParserState) (m1 : HTTPResponseMessage) : Prop :=
  switch_case st m c prev = Done (Advance st1 m1).
Definition ends (prev : res char) (st : ResponseParserState) (m : HTTPResponseMessage)
    (l : bytes) : Prop := run prev st m l = Done (st', m').

Lemma response_finishing_step st prev m l :
  active st = true → ends prev st m l →
  ∃ c l' st1 m1, l = c :: l' ∧ advances st m c prev st1 m1 ∧ ends (Done c) st1 m1 l'.
Proof.
  unfold ends. intros Ha Hrun. destruct l as [|c l].
  { simpl in Hrun. simplify_eq. by destruct Hfin as [->| ->]. }
  rewrite response_run_active in Hrun by done.
  destruct (switch_case st m c prev) as [[st1 m1|st1 m1]| | | |] eqn:Hs; try done;
    rewrite Done_bind in Hrun; [by exists c, l, st1, m1|].
  simplify_eq. by destruct Hfin.
Qed.

Abbreviation until st ok d next :=
  (ends_until advances ends active response_finishing_step st ok d next).
Abbreviation until2 st ok d1 n1 d2 n2 :=
  (ends_until2 advances ends active response_finishing_step st ok d1 n1 d2 n2).
Abbreviation one st ok next :=
  (ends_one advances ends active response_finishing_step st ok next).

(** *** The states *)
Ltac switch_inv :=
  intros ????? Hs; unfold advances in Hs;
  cbn [switch_case status_line_case header_case] in Hs;
  unfold expect, fail in Hs;
  repeat (case_bool_decide || case_match || res_inv); simplify_eq; auto.
Ltac reads := switch_inv; try left; auto using response_isdigit.
Tactic Notation "reading" uconstr(H) "in" hyp(Hrun) "as" simple_intropattern(p) :=
  apply H in Hrun as p; [|reads|done].

Lemma finishing_status_line prev m l :
  ends prev ResponseProtocolH m l →
  ∃ minor code phrase rest prev1 m1,
    l = status_line minor code phrase ++ rest
    ∧ forallb is_digit minor = true ∧ forallb is_digit code = true
    ∧ forallb is_text phrase = true ∧ ends prev1 RHeaderName m1 rest.
Proof.
  intros Hrun.
  reading (one _ (λ c, c = chr 72) ResponseProtocolT1) in Hrun as (?&?&?&->&->&Hrun).
  reading (one _ (λ c, c = chr 84) ResponseProtocolT2) in Hrun as (?&?&?&->&->&Hrun).
  reading (one _ (λ c, c = chr 84) ResponseProtocolP) in Hrun as (?&?&?&->&->&Hrun).
  reading (one _ (λ c, c = chr 80) ResponseProtocolSlash) in Hrun as (?&?&?&->&->&Hrun).
  reading (one _ (λ c, c = chr 47) ResponseProtocolVersionMajor) in Hrun
    as (?&?&?&->&->&Hrun).
  reading (one _ (λ c, c = chr 49) ResponseProtocolDot) in Hrun as (?&?&?&->&->&Hrun).
  reading (one _ (λ c, c = chr 46) ResponseProtocolVersionMinor) in Hrun
    as (?&?&?&->&->&Hrun).
  reading (until _ is_digit SP StatusCode) in Hrun as (minor&?&?&->&Hn&Hrun).
  reading (until _ is_digit SP ResponseReasonPhrase) in Hrun as (code&?&?&->&Hc&Hrun).
  reading (until _ is_text CR StatusLineLF) in Hrun as (phrase&?&?&->&Hp&Hrun).
  reading (one _ (λ c, c = LF) RHeaderName) in Hrun as (?&?&m0&->&->&Hrun).
  eexists minor, code, phrase, _, _, m0. split_and!; [|done..].
  unfold status_line, CRLF. simpl. by repeat (rewrite <- app_assoc; simpl).
Qed.

Lemma response_finishing_headers prev m l :
  ends prev RHeaderName m l →
  ∃ raws junk body, l = HTTPHeaders.header_lines raws ++ junk ++ CRLF ++ body
    ∧ Forall header_ok raws ∧ forallb is_token junk = true.
Proof.
  revert prev m. induction l as [l IH] using (induction_ltof1 _ length).
  intros prev m Hrun.
  reading (until2 _ is_token (chr 58) RHeaderValue CR RHeaderEndLF) in Hrun
    as (name&rest&m1&Hn&Hrun). destruct Hrun as [[-> Hrest]|[-> Hrest]].
  - reading (until _ is_text CR RHeaderValueLF) in Hrest as (raw&?&?&->&Hv&Hrest).
    reading (one _ (λ c, c = LF) RHeaderName) in Hrest as (?&rest'&?&->&->&Hrest).
    destruct (IH rest') with (2 := Hrest) as (raws&junk&body&->&Hall&Hj);
      [unfold ltof; len_lia|].
    exists ((name, raw) :: raws), junk, body.
    split_and!; [|by constructor|done].
    unfold HTTPHeaders.header_lines. simpl. unfold HTTPHeaders.header_line, CRLF.
    by repeat (rewrite <- app_assoc; simpl).
  - destruct (response_finishing_step RHeaderEndLF _ _ _ eq_refl Hrest)
      as (c&body&st1&m2&->&Hs&_).
    unfold advances in Hs. cbn [switch_case header_case] in Hs.
    case_bool_decide; simplify_eq. by exists [], name, body.
Qed.
End states.

(** ** Completeness, with the start of a name before the blank line *)
Lemma run_response_parts prev m h r :
  fresh m h → response_parts_ok r →
  match code_of_text (code_part r) with
  | Some code => ∃ m1,
      run prev ResponseProtocolH m (response_parts_text r)
      = run (Done LF) (body_state (HTTPHeaders.addHeaders h (stored <$> header_parts r)))
          m1 (body_part r)
      ∧ raw_body_ m1 = raw_body_ m ∧ response_code_ m1 = code
  | None => run prev ResponseProtocolH m (response_parts_text r) = Undefined Uninitialised
  end.
Proof.
  intros (Hh&Hv&Hn&Hc) (?&Hcode&?&?&Hj). unfold response_parts_text.
  destruct (code_part r) as [|d1 [|d2 [|d3 more]]]; cbn [code_of_text].
  1-3: unfold status_line; rewrite <- !app_assoc, run_status_prefix by done;
    rewrite short_code_uninitialised by (done || (by destruct Hc) || (simpl; lia)); done.
  rewrite run_status_line by done.
  destruct (response_run_header_lines (Done LF) (status_message m (minor_part r) d1 d2 d3)
    h (header_parts r) (unfinished r ++ CRLF ++ body_part r)) as [prev' ->]; [done..|].
  rewrite (response_run_segment _ _ _ pushBackHeaderName) by
    (done || intros; apply response_switch_name; by apply (forallb_elem _ (unfinished r))).
  rewrite (response_run_headers_end _ _ (HTTPHeaders.addHeaders h
    (stored <$> header_parts r))) by by rewrite response_foldl_pushBackHeaderName.
  rewrite response_foldl_pushBackHeaderName. eexists. split; [reflexivity|done].
Qed.
End soundness.

(** ** The grammar is unambiguous *)
Lemma response_parts_text_inj r1 r2 :
  response_parts_ok r1 → response_parts_ok r2 →
  response_parts_text r1 = response_parts_text r2 → r1 = r2.
Proof.
  destruct r1 as [n1 c1 p1 h1 u1 b1], r2 as [n2 c2 p2 h2 u2 b2].
  intros (Hn1&Hc1&Hp1&Hh1&Hu1) (Hn2&Hc2&Hp2&Hh2&Hu2). simpl in *.
  unfold response_parts_text, status_line, CRLF; simpl.
  repeat (rewrite <- app_assoc; simpl). intros [= Heq].
  apply (split_unique is_digit) in Heq as (->&_&Heq); [|done..].
  apply (split_unique is_digit) in Heq as (->&_&Heq); [|done..].
  apply (split_unique is_text) in Heq as (->&_&[= Heq]); [|done..].
  destruct (header_block_unique h1 h2 u1 u2 b1 b2) as (->&->&->); done.
Qed.

Section theorems.
Context `{Allocator}.

Lemma run_accepts_iff prev m h b l st code :
  fresh m h → raw_body_ m = Some b → repr b [] →
  capacity_ b + Z.of_nat (length l) < size_max → (∀ n, alloc_ok n = true) →
  response_finished st →
  (∃ m', run prev ResponseProtocolH m l = Done (st, m') ∧ response_code_ m' = code) ↔
  exists! r, l = response_parts_text r ∧ response_parts_ok r
    ∧ code_of_text (code_part r) = Some code ∧ st = end_state h r.
Proof.
  intros Hfresh Hb Hrb Hmax Ha Hfin.
  assert (∀ r, l = response_parts_text r → response_parts_ok r →
    match code_of_text (code_part r) with
    | Some code => ∃ m', run prev ResponseProtocolH m l
                         = Done (end_state h r, m') ∧ response_code_ m' = code
    | None => run prev ResponseProtocolH m l = Undefined Uninitialised
    end) as Hcomplete.
  { intros r -> Hok. pose proof (run_response_parts prev m h r Hfresh Hok) as Hrun.
    destruct (code_of_text (code_part r)) as [code1|]; [|done].
    destruct Hrun as (m1&->&Hm1&Hc1).
    unfold response_parts_text in Hmax. rewrite !length_app in Hmax.
    destruct (run_body (Done LF) (HTTPHeaders.addHeaders h (stored <$> header_parts r))
      m1 b (body_part r)) as (b'&->&_); [by rewrite Hm1|done|lia|done|].
    by eexists. }
  split.
  - intros (m'&Hrun&Hcode).
    destruct (finishing_status_line _ _ Hfin _ _ _ Hrun)
      as (minor&ctext&phrase&rest&prev1&m1&->&?&?&?&Hrest).
    destruct (response_finishing_headers _ _ Hfin _ _ _ Hrest) as (raws&junk&body&->&?&?).
    set (r := mkResponseParts minor ctext phrase raws junk body).
    assert (response_parts_ok r) as Hok by done.
    exists r. split; [split_and!; [done..| |]; specialize (Hcomplete r eq_refl Hok);
      destruct (code_of_text (code_part r)) as [code1|]; try congruence;
      destruct Hcomplete as (m2&Hrun2&Hcode2); rewrite Hrun in Hrun2; by simplify_eq|].
    intros r2 (Hl&Hok2&_). by apply response_parts_text_inj.
  - intros (r&(Hl&Hok&Hc&->)&_). specialize (Hcomplete r Hl Hok). by rewrite Hc in Hcomplete.
Qed.

(** C9: The response parser accepts exactly the responses of the grammar: it ends in
    state [st] with the status code [code] if and only if the input is, in one
    way only, a status line of HTTP/1 with a code of at least three digits whose
    first three are [code]'s, header lines, the blank line and anything after it,
    and the headers decide by [Content-Length] whether what follows is a body. *)
Theorem ParseHTTP1_1ResponseMessage_accepts_iff fuel buf m h b l st code :
  repr buf l → (length l + 2 <= fuel)%nat → fresh m h →
  raw_body_ m = Some b → repr b [] →
  capacity_ b + Z.of_nat (length l) < size_max → (∀ n, alloc_ok n = true) →
  response_finished st →
  (∃ m', ParseHTTP1_1ResponseMessage fuel buf ResponseProtocolH m = Done (st, m')
         ∧ response_code_ m' = code) ↔
  exists! r, l = response_parts_text r ∧ response_parts_ok r
    ∧ code_of_text (code_part r) = Some code ∧ st = end_state h r.
Proof. intros Hr Hf. rewrite (response_Parse_run fuel _ _ _ _ Hr Hf). apply run_accepts_iff. Qed.
End theorems.

(** ** Concrete runs *)
Definition loose_response : response_parts :=
  mkResponseParts $"1" $"2004" $"fine" [($"Content-Length", $" 2")] $"X-Tail" $"ok".

Lemma ParseHTTP1_1ResponseMessage_accepts_iff_witness :
  ∃ m', @ParseHTTP1_1ResponseMessage total_alloc 100
    (buffer_of (response_parts_text loose_response)) ResponseProtocolH empty_message
    = Done (RParsingDone, m') ∧ response_code_ m' = Ok.
Proof.
  apply (@ParseHTTP1_1ResponseMessage_accepts_iff total_alloc 100
    (buffer_of (response_parts_text loose_response)) empty_message
    HTTPHeaders.empty_headers (new_buffer initial_capacity_)
    (response_parts_text loose_response)); try reflexivity.
  - apply buffer_of_repr. reflexivity.
  - apply Nat.leb_le. reflexivity.
  - exact response_empty_message_fresh.
  - exact response_empty_body_repr.
  - left. reflexivity.
  - assert (response_parts_ok loose_response) as Hok by repeat constructor.
    exists loose_response. split; [split; [reflexivity|]; split; [exact Hok|split; reflexivity]|].
    intros r (Hl&Hok2&_). by apply response_parts_text_inj.
Defined.
