(* ===== verification/HTTPTemplates.v ===== *)
(** * [http::HTTPResponseTemplates] (blueth/http/HTTPCommonResponseMessageTemplate.hpp)

    Ready-made responses. The string of the clock, [UnixTime{}.getStringTime()],
    comes from the C library and is an argument. *)
From Stdlib Require Import ZArith Lia Ascii String.
From stdpp Require Import base gmap sets strings list.
From S2P Require Import Prelude IOBuffer HTTPConstants.
From S2P Require HTTPHeaders.
From S2P Require Import ResponseMessage.
From S2P Require ResponseParser.
Local Open Scope Z_scope.
Local Open Scope blueth_scope.

(** The enumerators share their names with the status codes. *)
Module Template.
Inductive TemplateType :=
  | Ok
  | BadRequest
  | NotFound
  | Forbidden
  | NotAcceptable
  | MethodNotAllowed
  | UnsupportedMediaType
  | Created
  | MovedPermanently
  | Unauthorized.
End Template.
Abbreviation TemplateType := Template.TemplateType.

#[export] Instance TemplateType_eq_dec : EqDecision TemplateType.
Proof. solve_decision. Defined.

Section operations.
Context `{Allocator}.

(** The statements the cases share: version, code and three headers. *)
Definition template_head (message : HTTPResponseMessage) (code : HTTPResponseCodes)
    (http_message_body date : bytes) : res HTTPResponseMessage :=
  let message := setHTTPVersion message HTTP1_1 in
  let message := setResponseCode message code in
  message ← addHeader message $"Content-Type" $"text/html";
  message ← addHeader message $"Content-Length"
              (to_string (Z.of_nat (length http_message_body)));
  addHeader message $"Date" date.

(** A case that ends with the body. *)
Definition template_case (message : HTTPResponseMessage) (code : HTTPResponseCodes)
    (http_message_body date : bytes) : res HTTPResponseMessage :=
  message ← template_head message code http_message_body date;
  pushBackRawBody message http_message_body.

Definition HTTPResponseTemplates (type : TemplateType) (http_message_body date : bytes)
  : res HTTPResponseMessage :=
  message ← create;
  match type with
  | Template.Ok => template_case message Ok http_message_body date
  | Template.BadRequest => template_case message BadRequest http_message_body date
  | Template.UnsupportedMediaType =>
      template_case message UnsupportedMediaType http_message_body date
  | Template.Created => template_case message Created http_message_body date
  | Template.Forbidden => template_case message Forbidden http_message_body date
  | Template.MethodNotAllowed => template_case message MethodNotAllowed http_message_body date
  | Template.MovedPermanently => template_case message MovedPermanently http_message_body date
  | Template.NotFound => template_case message NotFound http_message_body date
  | Template.Unauthorized =>
      message ← template_head message BadRequest http_message_body date;
      addHeader message $"WWW-Authenticate" http_message_body
  | Template.NotAcceptable => template_case message NotAcceptable http_message_body date
  end.
End operations.

(** ** What a template is *)

(** The code a type names. *)
Definition named_code (type : TemplateType) : HTTPResponseCodes :=
  match type with
  | Template.Ok => Ok | Template.BadRequest => BadRequest
  | Template.NotFound => NotFound | Template.Forbidden => Forbidden
  | Template.NotAcceptable => NotAcceptable
  | Template.MethodNotAllowed => MethodNotAllowed
  | Template.UnsupportedMediaType => UnsupportedMediaType
  | Template.Created => Created | Template.MovedPermanently => MovedPermanently
  | Template.Unauthorized => Unauthorized
  end.

Definition template_headers (body date : bytes) : list (bytes * bytes) :=
  [($"Content-Type", $"text/html");
   ($"Content-Length", to_string (Z.of_nat (length body))); ($"Date", date)].

Definition template_table (body date : bytes) : HTTPHeaders.HTTPHeaders :=
  HTTPHeaders.addHeaders HTTPHeaders.empty_headers (template_headers body date).

Section theorems.
Context `{Allocator}.

Lemma template_case_run code body date :
  template_case empty_message code body date
  = pushBackRawBody (set_headers (set_code empty_message code)
                       (Some (template_table body date))) body.
Proof. reflexivity. Qed.

Lemma empty_template_body : repr (new_buffer initial_capacity_) [].
Proof. apply new_buffer_repr. split; [discriminate|reflexivity]. Qed.

Lemma HTTPResponseTemplates_case type body date :
  alloc_ok initial_capacity_ = true → type ≠ Template.Unauthorized →
  HTTPResponseTemplates type body date
  = template_case empty_message (named_code type) body date.
Proof.
  intros Ha Ht. unfold HTTPResponseTemplates, create.
  rewrite HTTPResponseMessage_new_Done, Done_bind by done. by destruct type.
Qed.

(** A template that has room for its body. *)
Lemma HTTPResponseTemplates_Done type body date :
  alloc_ok initial_capacity_ = true → type ≠ Template.Unauthorized →
  initial_capacity_ + Z.of_nat (length body) < size_max →
  Z.of_nat (length body) <= initial_capacity_
    ∨ alloc_ok (initial_capacity_ + Z.of_nat (length body)) = true →
  ∃ b, HTTPResponseTemplates type body date
       = Done (set_body (set_headers (set_code empty_message (named_code type))
                 (Some (template_table body date))) (Some b))
    ∧ repr b body.
Proof.
  intros Ha Ht Hmax Hroom. pose proof empty_template_body as He.
  rewrite HTTPResponseTemplates_case, template_case_run by done.
  unfold pushBackRawBody. simpl raw_body_. simpl deref. rewrite Done_bind.
  destruct (Z.leb_spec (Z.of_nat (length body)) initial_capacity_).
  - destruct (append_fits 1 (new_buffer initial_capacity_) [] body) as (b&->&Hb&_);
      [done|simpl; lia|by exists b].
  - destruct (append_grows 0 (new_buffer initial_capacity_) [] body) as (b&->&Hb&_);
      [done|simpl; lia|done|by destruct Hroom; [lia|]|by exists b].
Qed.

(** Every type but one gives the response of its name: that code, the body, and
    headers that describe it, or the end of the program when the body does not
    fit and no memory is left. The type [Unauthorized] gives a 400 that has no
    body and puts the given string in a header; its [Content-Length] is still
    that of the string. *)
Theorem HTTPResponseTemplates_spec type body date :
  alloc_ok initial_capacity_ = true →
  initial_capacity_ + Z.of_nat (length body) < size_max →
  if decide (type = Template.Unauthorized) then
    ∃ m, HTTPResponseTemplates type body date = Done m
      ∧ getResponseCode m = BadRequest
      ∧ getHeaderValue m $"WWW-Authenticate" = Done (Some body)
      ∧ getHeaderValue m $"Content-Length"
        = Done (Some (to_string (Z.of_nat (length body))))
      ∧ ∃ b, constGetRawBody m = Some b ∧ repr b []
  else if (Z.of_nat (length body) <=? initial_capacity_)
          || alloc_ok (initial_capacity_ + Z.of_nat (length body)) then
    ∃ m, HTTPResponseTemplates type body date = Done m
      ∧ getResponseCode m = named_code type
      ∧ getHTTPVersion m = HTTP1_1
      ∧ getHeaderValue m $"Content-Length"
        = Done (Some (to_string (Z.of_nat (length body))))
      ∧ getHeaderValue m $"Date" = Done (Some date)
      ∧ ∃ b, constGetRawBody m = Some b ∧ repr b body
  else HTTPResponseTemplates type body date = Terminate.
Proof.
  intros Ha Hmax. case_decide as Ht; [subst type|].
  { unfold HTTPResponseTemplates, create.
    rewrite HTTPResponseMessage_new_Done, Done_bind by done.
    eexists. split; [reflexivity|]. split_and!; try reflexivity.
    eexists. split; [reflexivity|apply empty_template_body]. }
  case_match eqn:Hroom.
  - destruct (HTTPResponseTemplates_Done type body date) as (b&->&Hb); [done..| |].
    { apply orb_true_iff in Hroom as [?%Z.leb_le|?]; auto. }
    eexists. split; [reflexivity|]. split_and!; try reflexivity. by exists b.
  - apply orb_false_iff in Hroom as [Hfit%Z.leb_gt Hno].
    rewrite HTTPResponseTemplates_case, template_case_run by done.
    unfold pushBackRawBody. simpl raw_body_. simpl deref. rewrite Done_bind.
    by rewrite (append_throws 1 (new_buffer initial_capacity_) [] body)
      by (done || apply empty_template_body || (simpl; lia)).
Qed.
(** *** Printing and parsing *)
Lemma dec_digits_digits fuel n acc :
  0 <= n → forallb is_digit acc = true → forallb is_digit (dec_digits fuel n acc) = true.
Proof.
  revert n acc. induction fuel as [|fuel IH]; intros n acc Hn Hacc; [done|]. simpl.
  assert (forallb is_digit (digit_char (n mod 10) :: acc) = true) as Hd.
  { simpl. rewrite Hacc, andb_true_r.
    assert (Forall (λ d, is_digit (digit_char d) = true) (seqZ 0 10)) as Hall
      by (apply (bool_decide_unpack _); vm_compute; exact I).
    rewrite Forall_forall in Hall. apply Hall, elem_of_seqZ.
    pose proof (Z.mod_pos_bound n 10). lia. }
  destruct (n <? 10); [done|]. apply IH; [|done]. by apply Z.div_pos.
Qed.

Lemma to_string_digits n : 0 <= n → forallb is_digit (to_string n) = true.
Proof. intros. by apply dec_digits_digits. Qed.

Lemma digits_plain l :
  forallb is_digit l = true → forallb is_text l = true ∧ chr 58 ∉ removelast l.
Proof.
  intros Hl. split.
  - apply forallb_forall. intros c Hc%list_elem_of_In.
    pose proof (forallb_elem _ _ _ Hl Hc) as Hd. revert Hd. clear.
    destruct c as [[] [] [] [] [] [] [] []]; by vm_compute.
  - intros Hin. assert (chr 58 ∈ l) as Hc.
    { destruct l as [|c l] using rev_ind; [done|].
      rewrite removelast_last in Hin. set_solver. }
    by apply (forallb_elem _ _ _ Hl) in Hc.
Qed.

(** A property of the values of the table is one of the clock and the length. *)
Lemma template_table_forall (P : bytes → bytes → Prop) body date :
  P $"Content-Type" $"text/html" →
  P $"Content-Length" (to_string (Z.of_nat (length body))) →
  map_Forall P (HTTPHeaders.http_headers_ (template_table body date))
  ↔ P $"Date" date.
Proof.
  intros Ht Hl. unfold template_table. split.
  - intros Hall. apply Hall. by rewrite HTTPHeaders.addHeaders_lookup.
  - intros Hd n v. rewrite HTTPHeaders.addHeaders_lookup. simpl.
    repeat case_decide; simplify_eq; by intros [= <-].
Qed.

(** A template, printed and parsed back, keeps code and body; its header table
    is read back only when the date has no colon before its end, which the
    format [%H:%M:%S] excludes. *)
Theorem template_date_lost `{HTTPHeaders.HashOrder} fuel buf raw type body date m b0 :
  type ≠ Template.Unauthorized → forallb is_text date = true →
  initial_capacity_ + Z.of_nat (length body) < size_max → (∀ n, alloc_ok n = true) →
  HTTPResponseTemplates type body date = Done m →
  buildRawMessage m = Done raw → repr buf raw → (length raw + 2 <= fuel)%nat →
  repr b0 [] → capacity_ b0 + Z.of_nat (length body) < size_max →
  ∃ st m', ResponseParser.ParseHTTP1_1ResponseMessage fuel buf ResponseProtocolH
             (set_body empty_message (Some b0)) = Done (st, m')
    ∧ response_code_ m' = named_code type
    ∧ raw_body_ m' ≡ raw_body_ m
    ∧ (http_headers_ m' = http_headers_ m ↔ chr 58 ∉ removelast date).
Proof.
  intros Ht Hdate Hmax Ha Hm Hraw Hbuf Hf Hb0 Hmax0.
  destruct (HTTPResponseTemplates_Done type body date) as (b&Hm'&Hb); [by auto..|].
  rewrite Hm' in Hm. injection Hm as <-.
  pose proof (to_string_digits (Z.of_nat (length body))) as Hdig.
  destruct (digits_plain (to_string (Z.of_nat (length body)))) as [Htext Hcolon];
    [apply Hdig; lia|].
  edestruct (ResponseParser.response_printed_parsed fuel buf raw
    (set_body (set_headers (set_code empty_message (named_code type))
      (Some (template_table body date))) (Some b)) (template_table body date) b body b0)
    as (st&m'&Hrun&Hcode&Hhead&Hbody); try done.
  - by destruct type.
  - by destruct type.
  - by apply template_table_forall.
  - exists st, m'. split; [done|]. split; [done|]. split.
    + apply Hbody. unfold HTTPHeaders.headerContains. apply bool_decide_eq_true.
      unfold template_table. rewrite HTTPHeaders.addHeaders_lookup. by eexists.
    + simpl. rewrite Hhead. apply (template_table_forall (λ _ v, chr 58 ∉ removelast v)); [|done].
      apply (bool_decide_unpack _). by vm_compute.
Qed.
End theorems.

(** ** Concrete runs *)
Definition noon : bytes := $"Mon 2021-06-07 12:00:00 UTC".

Lemma HTTPResponseTemplates_spec_witness :
  ∃ m, @HTTPResponseTemplates total_alloc Template.Unauthorized $"Basic" noon = Done m
    ∧ getResponseCode m = BadRequest
    ∧ getHeaderValue m $"WWW-Authenticate" = Done (Some $"Basic")
    ∧ getHeaderValue m $"Content-Length" = Done (Some $"5")
    ∧ ∃ b, constGetRawBody m = Some b ∧ repr b [].
Proof.
  exact (@HTTPResponseTemplates_spec total_alloc Template.Unauthorized $"Basic" noon
    eq_refl eq_refl).
Defined.

Definition page : res HTTPResponseMessage :=
  @HTTPResponseTemplates total_alloc Template.Ok $"<p>hi</p>" noon.
Definition page_message : HTTPResponseMessage :=
  match page with Done m => m | _ => empty_message end.
Definition page_text : bytes :=
  match (m ← page; @buildRawMessage HTTPHeaders.map_to_list_order m) with
  | Done raw => raw | _ => []
  end.

Lemma template_date_lost_witness :
  ∃ st m', page = Done page_message
    ∧ @ResponseParser.ParseHTTP1_1ResponseMessage total_alloc 300 (buffer_of page_text)
        ResponseProtocolH (set_body empty_message (Some (new_buffer initial_capacity_)))
      = Done (st, m')
    ∧ response_code_ m' = Ok ∧ http_headers_ m' ≠ http_headers_ page_message.
Proof.
  edestruct (@template_date_lost total_alloc HTTPHeaders.map_to_list_order 300
    (buffer_of page_text) page_text Template.Ok $"<p>hi</p>" noon page_message
    (new_buffer initial_capacity_)) as (st&m'&Hrun&Hcode&_&Hhead).
  - discriminate.
  - reflexivity.
  - reflexivity.
  - reflexivity.
  - vm_compute. reflexivity.
  - vm_compute. reflexivity.
  - apply buffer_of_repr. reflexivity.
  - apply Nat.leb_le. vm_compute. reflexivity.
  - apply new_buffer_repr. split; [discriminate|reflexivity].
  - reflexivity.
  - exists st, m'. split; [vm_compute; reflexivity|]. split; [exact Hrun|].
    split; [exact Hcode|]. intros Heq. apply Hhead in Heq. apply Heq.
    apply (bool_decide_unpack _). vm_compute. exact I.
Defined.
