(* ===== verification/NetworkStream.v ===== *)
(** * [net::NetworkStream] (blueth/net/NetworkStream.hpp)

    The abstract stream: the interface the proxy client is written against, as
    a class of operations, and what its clients may rely on, as a class of laws.
    [W] is the world behind the operating system calls. *)
From Stdlib Require Import ZArith Lia Ascii String.
From stdpp Require Import base gmap sets strings list.
From S2P Require Import Prelude IOBuffer.
Local Open Scope Z_scope.

Inductive StreamType := SSLSyncStream | SSLAsyncStream | SyncStream | AsyncStream.
Inductive StreamMode := Client | Server.
Inductive StreamProtocol := TCP | UDP.

#[export] Instance StreamProtocol_eq_dec : EqDecision StreamProtocol.
Proof. solve_decision. Defined.

(** A [std::function] that is given the stream's buffer. *)
Definition callback (W : Type) : Type := option IOBuffer → io W ().

(** [if (callback_) callback_(io_buffer_)] *)
Definition call {W} (cb : option (callback W)) (b : option IOBuffer) : io W () :=
  match cb with Some f => f b | None => mret () end.

(** The pure virtual methods; [S] is the implementing class. *)
Class NetworkStream (W S : Type) := {
  streamRead : Z → io (S * W) Z;
  streamWrite : bytes → io (S * W) Z;
  flushBuffer : io (S * W) ();
  getIOBuffer : S → option IOBuffer * S;
  constGetIOBuffer : S → option IOBuffer;
  setIOBuffer : option IOBuffer → S → S;
  getStreamType : S → StreamType;
  getStreamMode : S → StreamMode;
  getStreamProtocol : S → StreamProtocol;
  setReadCallback : option (callback W) → S → S;
  setWriteCallback : option (callback W) → S → S;
  getReadCallback : S → option (callback W);
  getWriteCallback : S → option (callback W);
  closeConnection : io (S * W) ()
}.

(** A callback that returns. *)
Definition quiet {W} (cb : option (callback W)) : Prop :=
  ∀ b w, ∃ w', call cb b w = (Done (), w').

(** The contract: what the documentation promises of a stream that has its buffer,
    and the exceptions it promises without one for [streamRead] and
    [flushBuffer]. It promises them for [streamWrite], [getIOBuffer] and
    [constGetIOBuffer] too, and of these the laws say nothing: the clients of the
    library do not keep that (see [clients_keep_contract]). [is_open]: the
    connection to the endpoint is there. *)
Class StreamContract `{Allocator} (W S : Type) `{NetworkStream W S} := {
  is_open : S → Prop;
  (** a read on a moved buffer or a closed connection throws *)
  read_invalid n s w :
    constGetIOBuffer s = None ∨ ¬ is_open s →
    streamRead n (s, w) = (Throw runtime_error, (s, w));
  (** a read appends at most [n] bytes to the buffer and returns their number,
      or a negative value; the buffer grows by no more than [n], and the byte
      before its content is still there *)
  read_appends n s w b l :
    is_open s → constGetIOBuffer s = Some b → repr b l →
    0 < n < 2 ^ 31 → capacity_ b + n < size_max → (∀ k, alloc_ok k = true) →
    quiet (getReadCallback s) →
    ∃ z s' w' b' d, streamRead n (s, w) = (Done z, (s', w'))
      ∧ constGetIOBuffer s' = Some b' ∧ repr b' (l ++ d)
      ∧ is_open s' ∧ getReadCallback s' = getReadCallback s
      ∧ capacity_ b' <= capacity_ b + n ∧ prev_read b' = prev_read b
      ∧ (if z <? 0 then d = [] else Z.of_nat (length d) = z ∧ z <= n);
  (** a write on a closed connection throws *)
  write_closed data s w :
    ¬ is_open s → streamWrite data (s, w) = (Throw runtime_error, (s, w));
  (** a write of a stream that has its buffer returns, and does not touch the
      stream object *)
  write_keeps data s w b :
    is_open s → constGetIOBuffer s = Some b → quiet (getWriteCallback s) →
    ∃ z w', streamWrite data (s, w) = (Done z, (s, w'));
  (** moving a buffer out and in *)
  get_moves s b : constGetIOBuffer s = Some b →
    (getIOBuffer s).1 = Some b ∧ constGetIOBuffer (getIOBuffer s).2 = None
    ∧ (is_open (getIOBuffer s).2 ↔ is_open s)
    ∧ getReadCallback (getIOBuffer s).2 = getReadCallback s;
  set_get b s : constGetIOBuffer (setIOBuffer b s) = b
    ∧ (is_open (setIOBuffer b s) ↔ is_open s)
    ∧ getReadCallback (setIOBuffer b s) = getReadCallback s;
  (** the callbacks *)
  set_callbacks_get r w s :
    getReadCallback (setReadCallback r s) = r ∧ getWriteCallback (setWriteCallback w s) = w;
  (** the flush empties the buffer and keeps its capacity *)
  flush_invalid s w :
    constGetIOBuffer s = None → flushBuffer (s, w) = (Throw runtime_error, (s, w));
  flush_clears s w b l :
    constGetIOBuffer s = Some b → repr b l →
    ∃ s' b', flushBuffer (s, w) = (Done (), (s', w))
      ∧ constGetIOBuffer s' = Some b' ∧ repr b' [] ∧ capacity_ b' = capacity_ b;
  (** closing ends the connection or throws *)
  close_closes_stream s w :
    ∃ r s' w', closeConnection (s, w) = (r, (s', w'))
      ∧ (r = Done () ∧ ¬ is_open s' ∨ r = Throw runtime_error)
}.
