(* ===== verification/UnixTime.v ===== *)
(** * [UnixTime] (blueth/utils/UnixTime.hpp)

    A point in time kept twice: as seconds since the epoch and as a broken-down
    local time. The conversions are the C library's, so they are parameters with
    the laws its documentation gives. *)
From Stdlib Require Import ZArith Lia Ascii String.
From stdpp Require Import base list strings.
From S2P Require Import Prelude.
Local Open Scope Z_scope.

(** [struct tm] *)
Record tm := mkTm {
  tm_sec : Z; tm_min : Z; tm_hour : Z; tm_mday : Z; tm_mon : Z;
  tm_year : Z; tm_wday : Z; tm_yday : Z; tm_isdst : Z
}.

(** The C library, for one time zone: [localtime] is a null pointer when the
    year does not fit; [mktime] also normalises its argument; [strftime] gives
    the text, which it writes only when it fits the buffer with its terminator. *)
Class TimeLibrary (W : Type) := {
  time : W → Z * W;
  localtime : Z → option tm;
  mktime : tm → Z * tm;
  strftime : bytes → tm → bytes
}.

(** A broken-down time made by [localtime] converts back to its time and is
    already normal; what [mktime] leaves is the local time of its result. *)
Class TimeLaws (W : Type) `{TimeLibrary W} := {
  mktime_localtime t b : localtime t = Some b → mktime b = (t, b);
  localtime_mktime b t b' : mktime b = (t, b') → t ≠ -1 → localtime t = Some b'
}.

(** [time_t] is a 64-bit signed integer. *)
Definition int64 (z : Z) : bool := (- 2 ^ 63 <=? z) && (z <? 2 ^ 63).

Record UnixTime := mkUnixTime { unix_time_ : Z; time_struct_ : tm }.

Section class.
Context {W : Type} `{TimeLibrary W}.

(** [*::localtime(&t)] *)
Definition local_time (t : Z) : res tm :=
  match localtime t with Some b => Done b | None => Undefined NullPointer end.

(** The constructors. In the one from a [tm], [unix_time_] is initialised first,
    and [mktime] has then normalised the argument. *)
Definition UnixTime_now : io W UnixTime := λ w,
  let '(t, w) := time w in
  match local_time t with
  | Done b => (Done (mkUnixTime t b), w)
  | Undefined u => (Undefined u, w)
  | _ => (Terminate, w)
  end.
Definition UnixTime_of_time (unix_time : Z) : res UnixTime :=
  b ← local_time unix_time; Done (mkUnixTime unix_time b).
Definition UnixTime_of_tm (time_struct : tm) : res UnixTime :=
  let '(t, time_struct) := mktime time_struct in
  Done (mkUnixTime t time_struct).

(** A [char buffer[100]], what [strftime] writes to it, and the string read
    back from it. *)
Definition time_format : bytes := $"%a %Y-%m-%d %H:%M:%S %Z".
Definition format_time (b : tm) : res bytes :=
  let text := strftime time_format b in
  if Z.of_nat (length text) + 1 <=? 100 then Done text else Undefined Uninitialised.

Definition getStringTime (u : UnixTime) : res bytes := format_time (time_struct_ u).
Definition getStringFromUnixTime (unix_time : Z) : res bytes :=
  b ← local_time unix_time; format_time b.

Definition getUnixTime (u : UnixTime) : Z := unix_time_ u.
Definition setUnixTime (u : UnixTime) (unix_time : Z) : res UnixTime :=
  b ← local_time unix_time; Done (mkUnixTime unix_time b).

(** [time_struct_] is set before [mktime] normalises the argument. *)
Definition setUnixTimeStruct (u : UnixTime) (time_struct : tm) : res UnixTime :=
  let time_struct_ := time_struct in
  let '(t, time_struct) := mktime time_struct in
  Done (mkUnixTime t time_struct_).

Definition getSeconds (u : UnixTime) : Z := tm_sec (time_struct_ u).
Definition getMinutes (u : UnixTime) : Z := tm_min (time_struct_ u).
Definition getHours (u : UnixTime) : Z := tm_hour (time_struct_ u).
Definition getDayOfTheMonth (u : UnixTime) : Z := tm_mday (time_struct_ u).
Definition getMonth (u : UnixTime) : Z := tm_mon (time_struct_ u).
Definition getDayOfTheWeek (u : UnixTime) : Z := tm_wday (time_struct_ u).
Definition getYear (u : UnixTime) : Z := tm_year (time_struct_ u).
Definition getNow : io W Z := λ w, let '(t, w) := time w in (Done t, w).

Definition time_eq (x y : UnixTime) : bool := unix_time_ x =? unix_time_ y.
Definition time_ne (x y : UnixTime) : bool := negb (unix_time_ x =? unix_time_ y).
Definition time_lt (x y : UnixTime) : bool := unix_time_ x <? unix_time_ y.
Definition time_gt (x y : UnixTime) : bool := unix_time_ y <? unix_time_ x.

(** [operator-] and [operator+]: signed arithmetic. *)
Definition signed (z : Z) : res Z := if int64 z then Done z else Undefined SignedOverflow.
Definition time_minus (x y : UnixTime) : res UnixTime :=
  d ← signed (unix_time_ x - unix_time_ y); UnixTime_of_time d.
Definition time_plus (x y : UnixTime) : res UnixTime :=
  d ← signed (unix_time_ x + unix_time_ y); UnixTime_of_time d.

(** ** The two members agree *)
Definition coherent (u : UnixTime) : Prop := localtime (unix_time_ u) = Some (time_struct_ u).

(** A computation that, if it gives an object, gives a coherent one. *)
Definition gives_coherent (r : res UnixTime) : Prop :=
  match r with Done u => coherent u | Undefined _ => True | _ => False end.

Lemma of_time_coherent t : gives_coherent (UnixTime_of_time t).
Proof. unfold UnixTime_of_time, local_time. by destruct (localtime t) eqn:Ht. Qed.

Lemma signed_coherent z : gives_coherent (d ← signed z; UnixTime_of_time d).
Proof. unfold signed. case_match; [apply of_time_coherent|done]. Qed.

Lemma signed_done z t b : int64 z = true → localtime z = Some b → z = t →
  (d ← signed z; UnixTime_of_time d) = Done (mkUnixTime t b).
Proof. intros Hz Hb <-. unfold signed. rewrite Hz. simpl. unfold UnixTime_of_time, local_time. by rewrite Hb. Qed.
End class.

Section theory.
Context {W : Type} `{TimeLibrary W} `{!TimeLaws W}.

(** C32: Every object made or changed by [UnixTime] keeps the seconds and the
    broken-down time in agreement, for the times the library can convert, except
    that [setUnixTimeStruct] keeps a broken-down time that is not normal as it
    is: then the two disagree. Equal objects are those of the same second, and
    subtracting and adding back is the identity where it does not overflow. *)
Theorem UnixTime_coherent :
  (∀ w, gives_coherent (UnixTime_now w).1)
  ∧ (∀ t, gives_coherent (UnixTime_of_time t))
  ∧ (∀ b, (mktime b).1 ≠ -1 → gives_coherent (UnixTime_of_tm b))
  ∧ (∀ u t, gives_coherent (setUnixTime u t))
  ∧ (∀ u b, (mktime b).1 ≠ -1 →
       ∃ u', setUnixTimeStruct u b = Done u' ∧ (coherent u' ↔ (mktime b).2 = b))
  ∧ (∀ x y, gives_coherent (time_minus x y) ∧ gives_coherent (time_plus x y))
  ∧ (∀ x y, coherent x → coherent y → time_eq x y = true → x = y)
  ∧ (∀ x y d, coherent x → int64 (unix_time_ x) = true →
       time_minus x y = Done d → time_plus d y = Done x).
Proof.
  split_and!.
  - intros w. unfold UnixTime_now. destruct (time w) as [t w']. unfold local_time.
    by destruct (localtime t) eqn:Ht.
  - exact of_time_coherent.
  - intros b Hb. unfold UnixTime_of_tm. destruct (mktime b) as [t b'] eqn:Hm.
    by apply (localtime_mktime b).
  - intros u t. apply of_time_coherent.
  - intros u b Hb. unfold setUnixTimeStruct. destruct (mktime b) as [t b'] eqn:Hm.
    eexists. split; [done|]. unfold coherent. simpl.
    rewrite (localtime_mktime b t b') by done. split; [by intros [= ->]|by intros ->].
  - intros x y. split; apply signed_coherent.
  - intros [t b] [t' b']. unfold coherent, time_eq. simpl. intros Hx Hy ->%Z.eqb_eq. congruence.
  - intros [t b] [t' b'] d. unfold coherent, time_minus, time_plus. simpl. intros Hx Ht.
    unfold signed at 1. case_match; [|done]. simpl. unfold UnixTime_of_time, local_time at 1.
    destruct (localtime (t - t')) as [b1|]; simpl; intros [= <-]. simpl.
    apply signed_done; [by replace (t - t' + t') with t by lia| |lia].
    by replace (t - t' + t') with t by lia.
Qed.

(** The text of a time whose zone name is long does not fit the buffer, which
    is then read without having been written. *)
Lemma long_text u :
  100 <= Z.of_nat (length (strftime time_format (time_struct_ u))) →
  getStringTime u = Undefined Uninitialised.
Proof. intros Hl. unfold getStringTime, format_time. by bool_lia. Qed.
End theory.

(** ** A concrete clock: days without months. *)
Definition day_clock_local (t : Z) : tm :=
  mkTm (t mod 60) (t / 60 mod 60) (t / 3600 mod 24) (t / 86400) 0 70 0 0 0.
Definition day_clock_seconds (b : tm) : Z :=
  tm_sec b + 60 * tm_min b + 3600 * tm_hour b + 86400 * tm_mday b.
Definition day_clock : TimeLibrary Z := {|
  time t := (t, t + 1);
  localtime t := Some (day_clock_local t);
  mktime b := (day_clock_seconds b, day_clock_local (day_clock_seconds b));
  strftime _ b := to_string (tm_hour b) ++ $":" ++ to_string (tm_min b)
|}.
#[local] Existing Instance day_clock.

Lemma day_clock_inverse t : day_clock_seconds (day_clock_local t) = t.
Proof.
  unfold day_clock_seconds, day_clock_local. simpl.
  pose proof (Z.div_mod t 60). pose proof (Z.div_mod (t / 60) 60). pose proof (Z.div_mod (t / 3600) 24).
  replace (t / 3600) with (t / 60 / 60) in * by (rewrite Z.div_div; [done|lia..]).
  replace (t / 86400) with (t / 60 / 60 / 24) by (rewrite !Z.div_div; [done|lia..]). lia.
Qed.

#[local] Instance day_clock_laws : TimeLaws Z.
Proof.
  split.
  - intros t b [= <-]. simpl. by rewrite day_clock_inverse.
  - by intros b t b' [= <- <-] _.
Qed.

(** Ninety seconds: kept as they are, although they make a minute and a half. *)
Lemma UnixTime_coherent_witness :
  setUnixTimeStruct (mkUnixTime 0 (day_clock_local 0)) (mkTm 90 0 0 0 0 70 0 0 0)
  = Done (mkUnixTime 90 (mkTm 90 0 0 0 0 70 0 0 0))
  ∧ UnixTime_of_tm (mkTm 90 0 0 0 0 70 0 0 0) = Done (mkUnixTime 90 (mkTm 30 1 0 0 0 70 0 0 0))
  ∧ ∀ t, gives_coherent (UnixTime_of_time t).
Proof.
  split; [reflexivity|]. split; [reflexivity|].
  exact (proj1 (proj2 UnixTime_coherent)).
Defined.
