(* ===== verification/SyncStream.v ===== *)
(** * The blocking clients (blueth/net/SyncNetworkStreamClient.hpp,
    blueth/net/SyncNetworkStreamClientSSL.hpp, blueth/utils/SSLHelpers.hpp)

    Two implementations of the stream interface with the same methods over two
    transports: the system's [recv] and [send], and wolfSSL's. The calls out of
    the program are the parameter [System]; of their results the contract uses
    only that a receive call gives at most the bytes asked for. *)
From Stdlib Require Import ZArith Lia Ascii String.
From stdpp Require Import base gmap sets strings list.
From S2P Require Import Prelude IOBuffer NetworkStream UnixTime.
Local Open Scope Z_scope.

(** What a receive call gives: a negative code, or bytes. *)
Inductive received := RecvError (code : Z) | Received (d : bytes).

(** The calls of the C library and of wolfSSL, on a world [W]. A handle of
    wolfSSL is a number, [None] when the library returns a null pointer. *)
Class System (W : Type) := {
  gethostbyname : bytes → W → bool * W;
  inet_pton : bytes → W → Z * W;
  socket : W → Z * W;
  connect : Z → Z → W → Z * W;
  close : Z → W → Z * W;
  recv : Z → Z → W → received * W;
  send : Z → bytes → W → Z * W;
  system_time :: TimeLibrary W;
  wolfSSL_Init : W → Z * W;
  wolfSSL_CTX_new : W → option Z * W;
  wolfSSL_CTX_load_verify_locations : Z → bytes → W → Z * W;
  wolfSSL_new : Z → W → option Z * W;
  wolfSSL_set_fd : Z → Z → W → Z * W;
  wolfSSL_connect : Z → W → Z * W;
  wolfSSL_read : option Z → Z → W → received * W;
  wolfSSL_write : option Z → bytes → Z → W → Z * W;
  wolfSSL_free : Z → W → () * W;
  wolfSSL_CTX_free : Z → W → () * W;
  wolfSSL_Cleanup : W → Z * W
}.

(** The documented bound of the receive calls. *)
Class SystemLaws (W : Type) `{System W} := {
  recv_bound fd n w d w' :
    0 <= n → recv fd n w = (Received d, w') → Z.of_nat (length d) <= n;
  recv_error fd n w c w' : recv fd n w = (RecvError c, w') → - 2 ^ 31 <= c < 0;
  wolfSSL_read_bound h n w d w' :
    0 <= n → wolfSSL_read h n w = (Received d, w') → Z.of_nat (length d) <= n;
  wolfSSL_read_error h n w c w' :
    wolfSSL_read h n w = (RecvError c, w') → - 2 ^ 31 <= c < 0
}.

(** [SSL_SUCCESS] and [WOLFSSL_SUCCESS] *)
Definition SSL_SUCCESS : Z := 1.
Definition default_io_buffer_size : Z := 2048.

(** The members both classes have; [ctx_] and [ssl_] are null in the plain
    client. *)
Record SyncClient (W : Type) := mkSyncClient {
  endpoint_host_ : bytes;
  endpoint_port_ : Z;
  endpoint_fd_ : Z;
  stream_protocol_ : StreamProtocol;
  stream_type_ : StreamType;
  stream_mode_ : StreamMode;
  connected_time_ : UnixTime;
  read_callback_ : option (callback W);
  write_callback_ : option (callback W);
  io_buffer_ : option IOBuffer;
  is_connected_ : bool;
  ctx_ : option Z;
  ssl_ : option Z
}.
Arguments mkSyncClient {W}.
Arguments endpoint_host_ {W}. Arguments endpoint_port_ {W}.
Arguments endpoint_fd_ {W}. Arguments stream_protocol_ {W}.
Arguments stream_type_ {W}. Arguments stream_mode_ {W}.
Arguments connected_time_ {W}. Arguments read_callback_ {W}.
Arguments write_callback_ {W}. Arguments io_buffer_ {W}.
Arguments is_connected_ {W}. Arguments ctx_ {W}. Arguments ssl_ {W}.

(** *** Field updates *)
Definition set_buffer {W} (s : SyncClient W) b : SyncClient W :=
  mkSyncClient (endpoint_host_ s) (endpoint_port_ s) (endpoint_fd_ s)
    (stream_protocol_ s) (stream_type_ s) (stream_mode_ s) (connected_time_ s)
    (read_callback_ s) (write_callback_ s) b (is_connected_ s) (ctx_ s) (ssl_ s).
Definition set_callbacks {W} (s : SyncClient W) r w : SyncClient W :=
  mkSyncClient (endpoint_host_ s) (endpoint_port_ s) (endpoint_fd_ s)
    (stream_protocol_ s) (stream_type_ s) (stream_mode_ s) (connected_time_ s)
    r w (io_buffer_ s) (is_connected_ s) (ctx_ s) (ssl_ s).
Definition set_connected {W} (s : SyncClient W) c : SyncClient W :=
  mkSyncClient (endpoint_host_ s) (endpoint_port_ s) (endpoint_fd_ s)
    (stream_protocol_ s) (stream_type_ s) (stream_mode_ s) (connected_time_ s)
    (read_callback_ s) (write_callback_ s) (io_buffer_ s) c (ctx_ s) (ssl_ s).

Section clients.
Context `{Allocator} {W : Type} `{System W}.

(** A call out of the program, on the world of a method's state. *)
Definition sys {S A} (f : W → A * W) : io (S * W) A := λ '(s, w),
  let '(a, w) := f w in (Done a, (s, w)).

(** ** Constructors

    Each runs on the world; the object exists only when it returns. The member
    [connected_time_] is made twice: by default, and when the connection is there. *)
Definition world {A} (f : W → A * W) : io W A := λ w, let '(a, w) := f w in (Done a, w).

(** [SyncNetworkStreamClient(host, port, protocol)] *)
Definition SyncNetworkStreamClient_new (host : bytes) (port : Z)
    (protocol : StreamProtocol) : io W (SyncClient W) :=
  _ ← UnixTime_now;
  hoste ← world (gethostbyname host);
  if negb hoste then throw runtime_error else
  endpoint_fd ← match protocol with
                | TCP => world socket
                | UDP => throw runtime_error
                end;
  if endpoint_fd <? 0 then throw runtime_error else
  connect_ret ← world (connect endpoint_fd port);
  if connect_ret <? 0 then throw runtime_error else
  b ← lift (IOBuffer.create default_io_buffer_size);
  now ← UnixTime_now;
  mret (mkSyncClient host port endpoint_fd protocol SyncStream Client now None None
          (Some b) true None None).

(** The factory [SyncNetworkStreamClient::create]; as those of the messages, the
    object itself is taken to fit in memory. *)
Definition SyncNetworkStreamClient_create (host : bytes) (port : Z)
    (protocol : StreamProtocol) : io W (SyncClient W) :=
  SyncNetworkStreamClient_new host port protocol.

(** [close(endpoint_fd_); throw std::runtime_error] *)
Definition close_and_throw {A} (fd : Z) : io W A :=
  _ ← world (close fd); throw runtime_error.

(** The deleters of the smart pointers to the handles of wolfSSL. *)
Definition WolfSSL_CTX_Deleter (ctx : Z) : io W () :=
  _ ← world (wolfSSL_CTX_free ctx);
  _ ← world wolfSSL_Cleanup;
  mret ().
Definition WolfSSL_Deleter (ssl : Z) : io W () :=
  _ ← world (wolfSSL_free ssl); mret ().

(** A smart pointer that holds nothing releases nothing. *)
Definition release (deleter : Z → io W ()) (p : option Z) : io W () :=
  match p with Some h => deleter h | None => mret () end.

(** A member that is made: when an exception then leaves the constructor, it is
    destroyed. *)
Definition unwinding {A} (destroy : io W ()) (m : io W A) : io W A := λ w,
  match m w with
  | (Throw e, w) => (_ ← destroy; throw e) w
  | rw => rw
  end.

(** The end of the constructor, with both handles. *)
Definition ssl_session (ip : bytes) (port : Z) (protocol : StreamProtocol)
    (endpoint_fd ctx ssl : Z) : io W (SyncClient W) :=
  ret ← world (wolfSSL_set_fd ssl endpoint_fd);
  if negb (ret =? SSL_SUCCESS) then close_and_throw endpoint_fd else
  ret ← world (wolfSSL_connect ssl);
  if negb (ret =? SSL_SUCCESS) then close_and_throw endpoint_fd else
  b ← lift (IOBuffer.create default_io_buffer_size);
  now ← UnixTime_now;
  mret (mkSyncClient ip port endpoint_fd protocol SSLSyncStream Client now
          None None (Some b) true (Some ctx) (Some ssl)).

(** [SyncNetworkStreamClientSSL(ip, port, protocol, ca_cert_path)] *)
Definition SyncNetworkStreamClientSSL_new (ip : bytes) (port : Z)
    (protocol : StreamProtocol) (ca_cert_path : bytes) : io W (SyncClient W) :=
  _ ← UnixTime_now;
  endpoint_fd ← world socket;
  if endpoint_fd =? -1 then throw runtime_error else
  pton ← world (inet_pton ip);
  if negb (pton =? 1) then throw runtime_error else
  connect_ret ← world (connect endpoint_fd port);
  if connect_ret <? 0 then throw runtime_error else
  ret ← world wolfSSL_Init;
  if negb (ret =? SSL_SUCCESS) then close_and_throw endpoint_fd else
  ctx ← world wolfSSL_CTX_new;
  match ctx with
  | None => close_and_throw endpoint_fd
  | Some ctx => unwinding (WolfSSL_CTX_Deleter ctx) (
      ret ← world (wolfSSL_CTX_load_verify_locations ctx ca_cert_path);
      if negb (ret =? SSL_SUCCESS) then close_and_throw endpoint_fd else
      ssl ← world (wolfSSL_new ctx);
      match ssl with
      | None => close_and_throw endpoint_fd
      | Some ssl =>
          unwinding (WolfSSL_Deleter ssl) (ssl_session ip port protocol endpoint_fd ctx ssl)
      end)
  end.

(** The factory [SyncNetworkStreamClientSSL::create]. *)
Definition SyncNetworkStreamClientSSL_create (ip : bytes) (port : Z)
    (protocol : StreamProtocol) (ca_cert_path : bytes) : io W (SyncClient W) :=
  SyncNetworkStreamClientSSL_new ip port protocol ca_cert_path.

(** ** Methods *)

(** The read both clients have, over the receive call of the transport. The
    temporary array has [read_length] elements; one of length 0 is undefined.
    The number of bytes received is stored in an [int]. *)
Definition stream_read (receive : SyncClient W → Z → W → received * W)
    (read_length : Z) : io (SyncClient W * W) Z :=
  sw ← get;
  let s := sw.1 in
  match io_buffer_ s, is_connected_ s with
  | Some b, true =>
      b ← (if getAvailableSpace b <? read_length
           then lift (reserve b (size_t (getCapacity b + read_length)))
           else mret b);
      _ ← put (set_buffer s (Some b), sw.2);
      if read_length =? 0 then lift (Undefined BadArgument) else
      got ← sys (receive s read_length);
      match got with
      | RecvError code => mret code
      | Received d =>
          let read_ret := to_int32 (Z.of_nat (length d)) in
          if read_ret <? 0 then mret read_ret else
          b ← lift (appendRawBytes 2 b (init (take (Z.to_nat read_ret) d)));
          sw ← get;
          _ ← put (set_buffer s (Some b), sw.2);
          _ ← on_snd (call (read_callback_ s) (Some b));
          mret read_ret
      end
  | _, _ => throw runtime_error
  end.

(** The write both clients have, over the send call of the transport. *)
Definition stream_write (transmit : SyncClient W → bytes → W → Z * W)
    (data : bytes) : io (SyncClient W * W) Z :=
  sw ← get;
  let s := sw.1 in
  if negb (is_connected_ s) then throw runtime_error else
  match data with
  | [] => mret 0
  | _ =>
      write_ret ← sys (transmit s data);
      _ ← on_snd (call (write_callback_ s) (io_buffer_ s));
      mret write_ret
  end.

(** The transports; wolfSSL is given the handle, null or not, and its sizes are
    [int]s, to which those of the caller are narrowed. *)
Definition plain_receive (s : SyncClient W) (n : Z) : W → received * W :=
  recv (endpoint_fd_ s) n.
Definition plain_transmit (s : SyncClient W) (data : bytes) : W → Z * W :=
  λ w, let '(write_ret, w) := send (endpoint_fd_ s) data w in (to_int32 write_ret, w).
Definition ssl_receive (s : SyncClient W) (n : Z) : W → received * W :=
  wolfSSL_read (ssl_ s) (to_int32 n).
Definition ssl_transmit (s : SyncClient W) (data : bytes) : W → Z * W :=
  wolfSSL_write (ssl_ s) data (to_int32 (Z.of_nat (length data))).

Definition plain_streamRead := stream_read plain_receive.
Definition plain_streamWrite := stream_write plain_transmit.
Definition ssl_streamRead := stream_read ssl_receive.
Definition ssl_streamWrite := stream_write ssl_transmit.

Definition stream_flushBuffer : io (SyncClient W * W) () :=
  sw ← get;
  match io_buffer_ sw.1 with
  | None => throw runtime_error
  | Some b => put (set_buffer sw.1 (Some (clear b)), sw.2)
  end.

Definition stream_getIOBuffer (s : SyncClient W) : option IOBuffer * SyncClient W :=
  (io_buffer_ s, set_buffer s None).
Definition stream_setIOBuffer (b : option IOBuffer) (s : SyncClient W) : SyncClient W :=
  set_buffer s b.
Definition stream_setReadCallback cb (s : SyncClient W) : SyncClient W :=
  set_callbacks s cb (write_callback_ s).
Definition stream_setWriteCallback cb (s : SyncClient W) : SyncClient W :=
  set_callbacks s (read_callback_ s) cb.

Definition stream_closeConnection : io (SyncClient W * W) () :=
  sw ← get;
  if is_connected_ sw.1 then
    ret ← sys (close (endpoint_fd_ sw.1));
    if ret <? 0 then throw runtime_error else
    sw ← get;
    put (set_connected sw.1 false, sw.2)
  else mret ().

(** The destructor, [noexcept]: a failing close terminates the program. *)
Definition stream_destroy (s : SyncClient W) (w : W) : res () * W :=
  let '(r, (_, w)) := stream_closeConnection (s, w) in (noexcept r, w).

(** The members of the SSL client are destroyed after that: [ssl_], then [ctx_]. *)
Definition ssl_destroy (s : SyncClient W) : io W () :=
  _ ← stream_destroy s;
  _ ← release WolfSSL_Deleter (ssl_ s);
  release WolfSSL_CTX_Deleter (ctx_ s).
End clients.

(** ** The classes are streams *)
Definition plain_stream `{Allocator} {W} `{System W} : NetworkStream W (SyncClient W) :=
  {| streamRead := plain_streamRead; streamWrite := plain_streamWrite;
     flushBuffer := stream_flushBuffer; getIOBuffer := stream_getIOBuffer;
     constGetIOBuffer := io_buffer_; setIOBuffer := stream_setIOBuffer;
     getStreamType := stream_type_; getStreamMode := stream_mode_;
     getStreamProtocol := stream_protocol_;
     setReadCallback := stream_setReadCallback;
     setWriteCallback := stream_setWriteCallback;
     getReadCallback := read_callback_; getWriteCallback := write_callback_;
     closeConnection := stream_closeConnection |}.

Definition ssl_stream `{Allocator} {W} `{System W} : NetworkStream W (SyncClient W) :=
  {| streamRead := ssl_streamRead; streamWrite := ssl_streamWrite;
     flushBuffer := stream_flushBuffer; getIOBuffer := stream_getIOBuffer;
     constGetIOBuffer := io_buffer_; setIOBuffer := stream_setIOBuffer;
     getStreamType := stream_type_; getStreamMode := stream_mode_;
     getStreamProtocol := stream_protocol_;
     setReadCallback := stream_setReadCallback;
     setWriteCallback := stream_setWriteCallback;
     getReadCallback := read_callback_; getWriteCallback := write_callback_;
     closeConnection := stream_closeConnection |}.

(** ** The contract *)
Section proofs.
Context `{Allocator} {W : Type} `{System W}.

(** A call out of the program. *)
Lemma sys_bind {S A B} (f : W → A * W) (g : A → io (S * W) B) s w :
  (sys f ≫= g) (s, w) = (let '(a, w') := f w in g a (s, w')).
Proof. unfold sys, mbind, io_bind. by destruct (f w). Qed.

(** A callback that returns. *)
Lemma quiet_bind {S A} cb b (g : () → io (S * W) A) s w :
  quiet cb → ∃ w', (on_snd (call cb b) ≫= g) (s, w) = g () (s, w').
Proof.
  intros Hq. destruct (Hq b w) as [w' Hw]. exists w'.
  unfold on_snd, mbind, io_bind. by rewrite Hw.
Qed.

Lemma stream_read_invalid receive n (s : SyncClient W) w :
  io_buffer_ s = None ∨ ¬ is_connected_ s = true →
  stream_read receive n (s, w) = (Throw runtime_error, (s, w)).
Proof.
  intros Hs. unfold stream_read. rewrite get_bind. simpl.
  destruct (io_buffer_ s), (is_connected_ s); try done. by destruct Hs.
Qed.

(** Making room for [n] bytes. *)
Lemma make_room {S A} b l n (f : IOBuffer → io S A) s :
  repr b l → 0 < n → capacity_ b + n < size_max → (∀ k, alloc_ok k = true) →
  ∃ b', ((if getAvailableSpace b <? n
          then lift (reserve b (size_t (getCapacity b + n))) else mret b) ≫= f) s = f b' s
        ∧ repr b' l ∧ n <= capacity_ b' - end_offset_ b'
        ∧ capacity_ b' <= capacity_ b + n ∧ prev_read b' = prev_read b.
Proof.
  intros Hr Hn Hc Ha. pose proof (repr_bounds _ _ Hr).
  rewrite (wf_available b) by by eapply repr_wf.
  destruct (Z.ltb_spec (capacity_ b - end_offset_ b) n);
    [|exists b; split_and!; (done || lia)].
  unfold getCapacity. rewrite size_t_small by lia.
  destruct (reserve_repr b l (capacity_ b + n)) as (b'&Hb'&Hr'&Hc'&_&He');
    [done|lia..|done|].
  rewrite Hb'. exists b'. split_and!; [done..|lia|lia|].
  eapply reserve_prev; [done| | |done]; lia.
Qed.

Lemma stream_read_appends receive n (s : SyncClient W) w b l :
  (∀ w d w', receive s n w = (Received d, w') → Z.of_nat (length d) <= n) →
  (∀ w c w', receive s n w = (RecvError c, w') → c < 0) →
  is_connected_ s = true → io_buffer_ s = Some b → repr b l →
  0 < n < 2 ^ 31 → capacity_ b + n < size_max → (∀ k, alloc_ok k = true) →
  quiet (read_callback_ s) →
  ∃ z s' w' b' d, stream_read receive n (s, w) = (Done z, (s', w'))
    ∧ io_buffer_ s' = Some b' ∧ repr b' (l ++ d)
    ∧ is_connected_ s' = true ∧ read_callback_ s' = read_callback_ s
    ∧ capacity_ b' <= capacity_ b + n ∧ prev_read b' = prev_read b
    ∧ (if z <? 0 then d = [] else Z.of_nat (length d) = z ∧ z <= n).
Proof.
  intros Hbound Herr Hs Hb Hr Hn Hc Ha Hq. unfold stream_read.
  rewrite get_bind. cbn [fst snd]. rewrite Hb, Hs.
  match goal with |- context [((if _ <? _ then _ else _) ≫= ?f) ?x] =>
    destruct (make_room b l n f x) as (b1&->&Hr1&Hn1&Hc1&Hp1); [done|lia|done..|] end.
  rewrite put_bind. replace (n =? 0) with false by (symmetry; lia). rewrite sys_bind.
  destruct (receive s n w) as [[c|d] w1] eqn:Hg.
  - apply Herr in Hg as ?. exists c, (set_buffer s (Some b1)), w1, b1, [].
    rewrite app_nil_r. bool_lia. done.
  - apply Hbound in Hg as Hd. rewrite to_int32_small by lia.
    replace (Z.of_nat (length d) <? 0) with false by (symmetry; lia).
    rewrite Nat2Z.id, firstn_all.
    destruct (append_fits 1 b1 l d) as (b2&Hb2&Hr2&Hc2&_); [done|lia|].
    rewrite <- Hc2 in Hc1. rewrite <- (append_prev 1 b1 b2 l d) in Hp1 by (done || lia).
    rewrite Hb2, lift_Done_bind, get_bind, put_bind.
    match goal with |- context [(on_snd (call ?cb ?b) ≫= ?g) (?x, ?y)] =>
      destruct (quiet_bind cb b g x y Hq) as [w2 ->] end.
    eexists _, _, w2, b2, d. split; [done|]. bool_lia. done.
Qed.

Lemma stream_write_closed transmit data (s : SyncClient W) w :
  ¬ is_connected_ s = true →
  stream_write transmit data (s, w) = (Throw runtime_error, (s, w)).
Proof.
  intros Hs. unfold stream_write. rewrite get_bind. simpl. by destruct (is_connected_ s).
Qed.

Lemma stream_write_keeps transmit data (s : SyncClient W) w :
  is_connected_ s = true → quiet (write_callback_ s) →
  ∃ z w', stream_write transmit data (s, w) = (Done z, (s, w')).
Proof.
  intros Hs Hq. unfold stream_write. rewrite get_bind. cbn [fst snd]. rewrite Hs.
  destruct data as [|c data]; [by eexists _, _|]. cbn [negb]. rewrite sys_bind.
  destruct (transmit s (c :: data) w) as [z w1].
  match goal with |- context [(on_snd (call ?cb ?b) ≫= ?g) (?x, ?y)] =>
    destruct (quiet_bind cb b g x y Hq) as [w2 ->] end.
  by eexists _, _.
Qed.

Context `{!SystemLaws W}.

(** The laws that do not depend on the transport. *)
Lemma stream_flush_invalid (s : SyncClient W) (w : W) :
  io_buffer_ s = None → stream_flushBuffer (s, w) = (Throw runtime_error, (s, w)).
Proof. intros Hb. unfold stream_flushBuffer. rewrite get_bind. simpl. by rewrite Hb. Qed.

Lemma stream_flush_clears (s : SyncClient W) (w : W) b l :
  io_buffer_ s = Some b → repr b l →
  ∃ s' b', stream_flushBuffer (s, w) = (Done (), (s', w))
    ∧ io_buffer_ s' = Some b' ∧ repr b' [] ∧ capacity_ b' = capacity_ b.
Proof.
  intros Hb Hr. unfold stream_flushBuffer. rewrite get_bind. simpl. rewrite Hb.
  eexists _, _. split; [done|]. split; [done|]. split; [by eapply clear_repr|done].
Qed.

Lemma stream_close_closes (s : SyncClient W) (w : W) :
  ∃ r s' w', stream_closeConnection (s, w) = (r, (s', w'))
    ∧ (r = Done () ∧ ¬ is_connected_ s' = true ∨ r = Throw runtime_error).
Proof.
  unfold stream_closeConnection. rewrite get_bind. simpl.
  destruct (is_connected_ s) eqn:Hs.
  - rewrite sys_bind. destruct (close _ w) as [ret w1]. destruct (ret <? 0).
    + do 3 eexists. split; [done|]. by right.
    + do 3 eexists. split; [done|]. by left.
  - do 3 eexists. split; [done|]. left. by rewrite Hs.
Qed.

(** The laws in which the transport does not matter. *)
Lemma stream_moves (s : SyncClient W) b :
  io_buffer_ s = Some b →
  (stream_getIOBuffer s).1 = Some b ∧ io_buffer_ (stream_getIOBuffer s).2 = None
  ∧ (is_connected_ (stream_getIOBuffer s).2 = true ↔ is_connected_ s = true)
  ∧ read_callback_ (stream_getIOBuffer s).2 = read_callback_ s.
Proof. by intros Hb. Qed.

Definition plain_contract : @StreamContract _ W (SyncClient W) plain_stream.
Proof.
  refine {| is_open s := is_connected_ s = true |}.
  - intros. by apply stream_read_invalid.
  - intros. apply (stream_read_appends plain_receive _ _ _ b); try done.
    + intros * Hg. eapply recv_bound; [lia|exact Hg].
    + intros * [? ?]%recv_error. lia.
  - intros. by apply stream_write_closed.
  - intros. by apply stream_write_keeps.
  - apply stream_moves.
  - done.
  - done.
  - intros. by apply stream_flush_invalid.
  - intros. by apply (stream_flush_clears s w b l).
  - apply stream_close_closes.
Defined.

Definition ssl_contract : @StreamContract _ W (SyncClient W) ssl_stream.
Proof.
  refine {| is_open s := is_connected_ s = true |}.
  - intros. by apply stream_read_invalid.
  - intros. apply (stream_read_appends ssl_receive _ _ _ b); try done.
    + intros * Hg. unfold ssl_receive in Hg. rewrite to_int32_small in Hg by lia.
      eapply wolfSSL_read_bound; [lia|exact Hg].
    + intros * [? ?]%wolfSSL_read_error. lia.
  - intros. by apply stream_write_closed.
  - intros. by apply stream_write_keeps.
  - apply stream_moves.
  - done.
  - done.
  - intros. by apply stream_flush_invalid.
  - intros. by apply (stream_flush_clears s w b l).
  - apply stream_close_closes.
Defined.

(** C37: Both clients keep the contract of the interface, with an open connection
    being the flag [is_connected_]. Without a buffer, where the documentation
    promises exceptions of [streamWrite], [getIOBuffer] and [constGetIOBuffer],
    they write, and give null pointers. *)
Theorem clients_keep_contract :
  (∃ C : @StreamContract _ W (SyncClient W) plain_stream,
     ∀ s, @is_open _ _ _ _ C s ↔ is_connected_ s = true)
  ∧ (∃ C : @StreamContract _ W (SyncClient W) ssl_stream,
       ∀ s, @is_open _ _ _ _ C s ↔ is_connected_ s = true)
  ∧ ∀ N s data w, N = plain_stream ∨ N = ssl_stream →
      @constGetIOBuffer _ _ N s = None →
      (@getIOBuffer _ _ N s).1 = None
      ∧ (is_connected_ s = true → quiet (write_callback_ s) →
         ∃ z w', @streamWrite _ _ N data (s, w) = (Done z, (s, w'))).
Proof.
  split; [by exists plain_contract|]. split; [by exists ssl_contract|].
  intros N s data w [-> | ->] Hb; (split; [exact Hb|]); intros; by apply stream_write_keeps.
Qed.
End proofs.

(** ** Closing

    Closing a connected stream either fails, with the stream still connected,
    or disconnects it: reads and writes then throw and closing again calls
    nothing. The destructor turns the failure into the end of the program. *)
Theorem stream_close_spec `{Allocator} {W} `{System W} (s : SyncClient W) (w : W) :
  is_connected_ s = true →
  let '(ret, w1) := close (endpoint_fd_ s) w in
  if ret <? 0 then
    stream_closeConnection (s, w) = (Throw runtime_error, (s, w1))
    ∧ stream_destroy s w = (Terminate, w1)
  else
    ∃ s', stream_closeConnection (s, w) = (Done (), (s', w1))
      ∧ stream_destroy s w = (Done (), w1)
      ∧ (∀ w2, stream_closeConnection (s', w2) = (Done (), (s', w2)))
      ∧ (∀ n w2, plain_streamRead n (s', w2) = (Throw runtime_error, (s', w2))
                 ∧ ssl_streamRead n (s', w2) = (Throw runtime_error, (s', w2)))
      ∧ (∀ d w2, plain_streamWrite d (s', w2) = (Throw runtime_error, (s', w2))
                 ∧ ssl_streamWrite d (s', w2) = (Throw runtime_error, (s', w2))).
Proof.
  intros Hs. destruct (close _ w) as [ret w1] eqn:Hc.
  assert (stream_closeConnection (s, w) =
    if ret <? 0 then (Throw runtime_error, (s, w1))
    else (Done (), (set_connected s false, w1))) as Hclose.
  { unfold stream_closeConnection. rewrite get_bind. simpl. rewrite Hs, sys_bind, Hc.
    by destruct (ret <? 0). }
  unfold stream_destroy. rewrite Hclose. destruct (ret <? 0); [done|].
  exists (set_connected s false). split_and!; [done..| |]; intros; split;
    by (apply stream_read_invalid; right) || by apply stream_write_closed.
Qed.

(** ** Resources of the constructors

    What a world holds for the program: descriptors, handles of wolfSSL, and the
    initialisations of wolfSSL not yet undone; and how the calls change them. *)
Record held := mkHeld { h_fds : gset Z; h_ctxs : gset Z; h_ssls : gset Z; h_inits : Z }.

Definition with_fd (fd : Z) (h : held) := mkHeld ({[fd]} ∪ h_fds h) (h_ctxs h) (h_ssls h) (h_inits h).
Definition without_fd (fd : Z) (h : held) := mkHeld (h_fds h ∖ {[fd]}) (h_ctxs h) (h_ssls h) (h_inits h).
Definition with_ctx (c : Z) (h : held) := mkHeld (h_fds h) ({[c]} ∪ h_ctxs h) (h_ssls h) (h_inits h).
Definition without_ctx (c : Z) (h : held) := mkHeld (h_fds h) (h_ctxs h ∖ {[c]}) (h_ssls h) (h_inits h).
Definition with_ssl (x : Z) (h : held) := mkHeld (h_fds h) (h_ctxs h) ({[x]} ∪ h_ssls h) (h_inits h).
Definition without_ssl (x : Z) (h : held) := mkHeld (h_fds h) (h_ctxs h) (h_ssls h ∖ {[x]}) (h_inits h).
Definition add_inits (n : Z) (h : held) := mkHeld (h_fds h) (h_ctxs h) (h_ssls h) (h_inits h + n).

Class Resources (W : Type) `{System W} := {
  resources : W → held;
  socket_opens w fd w' : socket w = (fd, w') →
    if fd <? 0 then resources w' = resources w
    else resources w' = with_fd fd (resources w) ∧ fd ∉ h_fds (resources w);
  close_closes fd w : resources (close fd w).2 = without_fd fd (resources w);
  gethostbyname_keeps h w : resources (gethostbyname h w).2 = resources w;
  inet_pton_keeps h w : resources (inet_pton h w).2 = resources w;
  connect_keeps fd p w : resources (connect fd p w).2 = resources w;
  time_keeps w : resources (time w).2 = resources w;
  time_converts w : is_Some (localtime (time w).1);
  init_counts w : resources (wolfSSL_Init w).2
    = add_inits (if (wolfSSL_Init w).1 =? SSL_SUCCESS then 1 else 0) (resources w);
  ctx_new_gives w c w' : wolfSSL_CTX_new w = (c, w') →
    match c with
    | None => resources w' = resources w
    | Some c => resources w' = with_ctx c (resources w) ∧ c ∉ h_ctxs (resources w)
    end;
  load_keeps c p w : resources (wolfSSL_CTX_load_verify_locations c p w).2 = resources w;
  new_gives c w x w' : wolfSSL_new c w = (x, w') →
    match x with
    | None => resources w' = resources w
    | Some x => resources w' = with_ssl x (resources w) ∧ x ∉ h_ssls (resources w)
    end;
  set_fd_keeps s fd w : resources (wolfSSL_set_fd s fd w).2 = resources w;
  ssl_connect_keeps s w : resources (wolfSSL_connect s w).2 = resources w;
  free_frees x w : resources (wolfSSL_free x w).2 = without_ssl x (resources w);
  ctx_free_frees c w : resources (wolfSSL_CTX_free c w).2 = without_ctx c (resources w);
  cleanup_counts w : resources (wolfSSL_Cleanup w).2 = add_inits (-1) (resources w)
}.

Section constructors.
Context `{Allocator} {W : Type} `{Resources W}.
Implicit Types (h : held) (w : W).

Lemma without_with_fd fd h : fd ∉ h_fds h → without_fd fd (with_fd fd h) = h.
Proof.
  intros Hf. destruct h as [f c x n]. unfold without_fd, with_fd. simpl in *. f_equal. set_solver.
Qed.
Lemma without_with_ctx c h : c ∉ h_ctxs h → without_ctx c (with_ctx c h) = h.
Proof.
  intros Hf. destruct h as [f d x n]. unfold without_ctx, with_ctx. simpl in *. f_equal. set_solver.
Qed.
Lemma without_with_ssl x h : x ∉ h_ssls h → without_ssl x (with_ssl x h) = h.
Proof.
  intros Hf. destruct h as [f c y n]. unfold without_ssl, with_ssl. simpl in *. f_equal. set_solver.
Qed.
Lemma add_inits_back n h : add_inits (- n) (add_inits n h) = h.
Proof. destruct h. unfold add_inits. simpl. f_equal. lia. Qed.
(** Two descriptions of what is held. *)
Ltac held_eq h :=
  destruct h; unfold with_ssl, without_ssl, with_ctx, without_ctx, with_fd, without_fd, add_inits;
  simpl in *; f_equal; (set_solver || lia).

Lemma add_inits_0 h : add_inits 0 h = h.
Proof. destruct h. unfold add_inits. simpl. f_equal. lia. Qed.

Lemma world_bind {A B} (f : W → A * W) (g : A → io W B) w :
  (world f ≫= g) w = g (f w).1 (f w).2.
Proof. unfold world, mbind, io_bind. by destruct (f w). Qed.

Lemma now_done w : ∃ u, UnixTime_now w = (Done u, (time w).2).
Proof.
  destruct (time_converts w) as [b Hb]. unfold UnixTime_now, local_time.
  destruct (time w) as [t w']. simpl in *. rewrite Hb. by eexists.
Qed.

(** A computation that throws, keeping what [F] says for the exception, or returns
    an object and holds what [G] says. *)
Definition either {A} (m : io W A) w (F : exn → held → Prop) (G : A → held → Prop) : Prop :=
  ∃ r w', m w = (r, w') ∧
    ((∃ e, r = Throw e ∧ F e (resources w')) ∨ (∃ a, r = Done a ∧ G a (resources w'))).

Lemma either_world {A B} (f : W → A * W) (g : A → io W B) w F G :
  either (g (f w).1) (f w).2 F G → either (world f ≫= g) w F G.
Proof. unfold either. by rewrite world_bind. Qed.

Lemma either_now {B} (g : UnixTime → io W B) w F G :
  (∀ u, either (g u) (time w).2 F G) → either (UnixTime_now ≫= g) w F G.
Proof.
  intros Hg. unfold either. destruct (now_done w) as [u Hu].
  rewrite (io_bind_Done _ _ _ _ _ Hu). apply Hg.
Qed.

Lemma either_lift {A B} (a : A) (g : A → io W B) w F G :
  either (g a) w F G → either (lift (Done a) ≫= g) w F G.
Proof. done. Qed.

Lemma either_throw {A} w (F : exn → held → Prop) G :
  F runtime_error (resources w) → either (throw runtime_error : io W A) w F G.
Proof. intros HF. do 2 eexists. split; [done|]. left. by eexists. Qed.

Lemma either_close {A} fd w (F : exn → held → Prop) G :
  F runtime_error (without_fd fd (resources w)) → either (close_and_throw fd : io W A) w F G.
Proof. intros HF. apply either_world, either_throw. by rewrite close_closes. Qed.

Lemma either_unwinding {A} destroy (m : io W A) w (F F' : exn → held → Prop) G :
  either m w F G →
  (∀ e w1, F e (resources w1) → ∃ w2, destroy w1 = (Done (), w2) ∧ F' e (resources w2)) →
  either (unwinding destroy m) w F' G.
Proof.
  intros (r & w1 & Hm & Hr) Hd. unfold either, unwinding. rewrite Hm.
  destruct Hr as [(e & -> & HF)|(a & -> & HG)].
  - destruct (Hd e w1 HF) as (w2 & Hd2 & HF'). rewrite (io_bind_Done _ _ _ _ _ Hd2).
    do 2 eexists. split; [done|]. left. by eexists.
  - do 2 eexists. split; [done|]. right. eauto.
Qed.

(** The plain constructor, once it has a socket: it throws exactly when
    [connect] fails, and then leaves the socket open. *)
Lemma plain_constructor_descriptors host port w :
  let w0 := (time w).2 in
  (gethostbyname host w0).1 = true →
  let '(fd, w1) := socket (gethostbyname host w0).2 in
  0 <= fd → alloc_ok default_io_buffer_size = true →
  ∃ r w', SyncNetworkStreamClient_new host port TCP w = (r, w')
    ∧ resources w' = with_fd fd (resources w)
    ∧ if (connect fd port w1).1 <? 0 then r = Throw runtime_error
      else ∃ s, r = Done s ∧ is_connected_ s = true ∧ endpoint_fd_ s = fd
                ∧ io_buffer_ s = Some (new_buffer default_io_buffer_size).
Proof.
  intros w0 Hh. destruct (socket _) as [fd w1] eqn:Hs. intros Hfd Ha.
  pose proof (socket_opens _ _ _ Hs) as Ho.
  replace (fd <? 0) with false in Ho by (symmetry; lia). destruct Ho as [Ho _].
  unfold SyncNetworkStreamClient_new.
  destruct (now_done w) as [u Hu]. rewrite (io_bind_Done _ _ _ _ _ Hu). fold w0.
  rewrite world_bind, Hh. cbn [negb]. rewrite world_bind, Hs. cbn [fst snd].
  replace (fd <? 0) with false by (symmetry; lia). rewrite world_bind.
  assert (resources (connect fd port w1).2 = with_fd fd (resources w)) as Hw2
    by (subst w0; by rewrite connect_keeps, Ho, gethostbyname_keeps, time_keeps).
  destruct (_ <? 0); [by do 2 eexists|].
  unfold IOBuffer.create. rewrite IOBuffer_new_Done, lift_Done_bind by done.
  destruct (now_done (connect fd port w1).2) as [u' Hu'].
  rewrite (io_bind_Done _ _ _ _ _ Hu'). do 2 eexists. split; [done|].
  rewrite time_keeps. split; [done|]. by eexists.
Qed.

(** The deleters. *)
Lemma WolfSSL_CTX_Deleter_run c w :
  ∃ w', WolfSSL_CTX_Deleter c w = (Done (), w')
    ∧ resources w' = add_inits (-1) (without_ctx c (resources w)).
Proof.
  unfold WolfSSL_CTX_Deleter. rewrite !world_bind. eexists. split; [done|].
  by rewrite cleanup_counts, ctx_free_frees.
Qed.

Lemma WolfSSL_Deleter_run x w :
  ∃ w', WolfSSL_Deleter x w = (Done (), w') ∧ resources w' = without_ssl x (resources w).
Proof.
  unfold WolfSSL_Deleter. rewrite world_bind. eexists. split; [done|]. apply free_frees.
Qed.

(** What a failing constructor may leave: nothing, or an initialisation of
    wolfSSL when no context was given. *)
Definition nothing_kept (h h' : held) : Prop := h' = h ∨ h' = add_inits 1 h.

(** What the SSL constructor leaves, by its exception: the socket, when the address
    is bad or [connect] fails ([early]); nothing after its other tests; and the
    socket again when there is no memory for the buffer. *)
Definition left_behind (early : bool) (fd : Z) (h : held) (e : exn) (h' : held) : Prop :=
  match e with
  | runtime_error => if early then h' = with_fd fd h else nothing_kept h h'
  | bad_alloc => early = false ∧ alloc_ok default_io_buffer_size = false ∧ h' = with_fd fd h
  | _ => False
  end.

(** The same of a part of the constructor, where a member will release [k] when an
    exception passes. *)
Definition left_with (k : held → held) (fd : Z) (h : held) (e : exn) (h' : held) : Prop :=
  match e with
  | runtime_error => h' = k h
  | bad_alloc => alloc_ok default_io_buffer_size = false ∧ h' = k (with_fd fd h)
  | _ => False
  end.

(** A connected SSL client, whose making has led from holding [h] to [h']. *)
Definition holds_handles (fd : Z) (h h' : held) (s : SyncClient W) : Prop :=
  is_connected_ s = true ∧ endpoint_fd_ s = fd
  ∧ ∃ c x, ctx_ s = Some c ∧ ssl_ s = Some x ∧ (c ∉ h_ctxs h) ∧ (x ∉ h_ssls h)
    ∧ h' = with_ssl x (with_ctx c (add_inits 1 (with_fd fd h))).

Definition ssl_client (fd : Z) (h h' : held) (s : SyncClient W) : Prop :=
  holds_handles fd h h' s ∧ io_buffer_ s = Some (new_buffer default_io_buffer_size).

Lemma io_bind_step {S A B} (m : io S A) (f : A → io S B) s r s' :
  m s = (r, s') →
  (m ≫= f) s = match r with
               | Done a => f a s'
               | Throw e => (Throw e, s')
               | Terminate => (Terminate, s')
               | Undefined u => (Undefined u, s')
               | OutOfFuel => (OutOfFuel, s')
               end.
Proof. intros Hm. unfold mbind, io_bind. by rewrite Hm. Qed.

Lemma ssl_destroy_run fd h h' s w :
  holds_handles fd h h' s → fd ∉ h_fds h → resources w = h' →
  ∃ r w', ssl_destroy s w = (r, w') ∧
    if (close fd w).1 <? 0 then r = Terminate else r = Done () ∧ resources w' = h.
Proof.
  intros (Hs & Hfd & c & x & Hc & Hx & Hcf & Hxf & ->) Hfree Hw.
  assert (stream_destroy s w
    = ((if (close fd w).1 <? 0 then Terminate else Done ()), (close fd w).2)) as Hd.
  { unfold stream_destroy, stream_closeConnection, sys. autorewrite with blueth_io. simpl.
    rewrite Hs, Hfd. unfold mbind, io_bind. destruct (close fd w) as [ret w1]. simpl.
    by destruct (ret <? 0). }
  unfold ssl_destroy. rewrite (io_bind_step _ _ _ _ _ Hd).
  destruct (_ <? 0); [by do 2 eexists|]. rewrite Hc, Hx. simpl.
  destruct (WolfSSL_Deleter_run x (close fd w).2) as (w2 & H2 & Hr2).
  rewrite (io_bind_Done _ _ _ _ _ H2).
  destruct (WolfSSL_CTX_Deleter_run c w2) as (w3 & H3 & Hr3).
  exists (Done ()), w3. split; [done|]. split; [done|].
  rewrite Hr3, Hr2, close_closes, Hw. held_eq h.
Qed.

Lemma ssl_session_either ip port proto fd h c x w :
  fd ∉ h_fds h → c ∉ h_ctxs (add_inits 1 (with_fd fd h)) →
  x ∉ h_ssls (with_ctx c (add_inits 1 (with_fd fd h))) →
  resources w = with_ssl x (with_ctx c (add_inits 1 (with_fd fd h))) →
  either (ssl_session ip port proto fd c x) w
    (left_with (λ h, with_ssl x (with_ctx c (add_inits 1 h))) fd h)
    (λ s h', ssl_client fd h h' s).
Proof.
  intros Hfree Hc Hx Hw.
  apply either_world. pose proof (set_fd_keeps x fd w) as Hw1. rewrite Hw in Hw1.
  destruct (negb _); [apply either_close; rewrite Hw1; held_eq h|].
  apply either_world. pose proof (ssl_connect_keeps x (wolfSSL_set_fd x fd w).2) as Hw2.
  rewrite Hw1 in Hw2. destruct (negb _); [apply either_close; rewrite Hw2; held_eq h|].
  unfold IOBuffer.create. destruct (alloc_ok default_io_buffer_size) eqn:Ha.
  2:{ unfold IOBuffer_new, reserve, realloc. simpl. rewrite Ha. do 2 eexists. split; [done|].
      left. exists bad_alloc. split; [done|]. split; [done|]. by rewrite Hw2. }
  rewrite IOBuffer_new_Done by done.
  apply either_lift, either_now. intros now. do 2 eexists. split; [done|]. right.
  eexists. split; [done|]. rewrite time_keeps, Hw2. split; [|done]. split; [done|].
  split; [done|]. exists c, x. simpl in *. by split_and!.
Qed.

(** The SSL constructor, once it has a socket. *)
Lemma ssl_new_either ip port proto cert w fd w1 :
  socket (time w).2 = (fd, w1) → 0 <= fd →
  let h := resources w in
  let '(p, w2) := inet_pton ip w1 in
  either (SyncNetworkStreamClientSSL_new ip port proto cert) w
    (left_behind (negb (p =? 1) || ((connect fd port w2).1 <? 0)) fd h)
    (λ s h', ssl_client fd h h' s).
Proof.
  intros Hs Hfd h. destruct (inet_pton ip w1) as [p w2] eqn:Hp.
  pose proof (socket_opens _ _ _ Hs) as Ho.
  replace (fd <? 0) with false in Ho by (symmetry; lia). rewrite time_keeps in Ho.
  destruct Ho as [Ho Hfree]. fold h in Ho, Hfree.
  assert (resources w2 = with_fd fd h) as Hw2.
  { pose proof (inet_pton_keeps ip w1) as Hk. rewrite Hp in Hk. simpl in Hk. congruence. }
  apply either_now. intros u. apply either_world. rewrite Hs. cbn [fst snd].
  replace (fd =? -1) with false by (symmetry; lia).
  apply either_world. rewrite Hp. cbn [fst snd].
  destruct (p =? 1); cbn [negb orb]; [|by apply either_throw].
  apply either_world. pose proof (connect_keeps fd port w2) as Hw3. rewrite Hw2 in Hw3.
  destruct (_ <? 0); [by apply either_throw|].
  set (w3 := (connect fd port w2).2) in *. clearbody w3 h. clear Hs Hp Ho Hw2 w1 w2.
  apply either_world. pose proof (init_counts w3) as Hw4. rewrite Hw3 in Hw4.
  destruct (wolfSSL_Init w3) as [ret w4]. cbn [fst snd] in *.
  destruct (ret =? SSL_SUCCESS); cbn [negb].
  2:{ apply either_close. rewrite Hw4. left. rewrite add_inits_0. by apply without_with_fd. }
  apply either_world. destruct (wolfSSL_CTX_new w4) as [ctx w5] eqn:Hctx. cbn [fst snd].
  apply ctx_new_gives in Hctx. rewrite Hw4 in Hctx. destruct ctx as [ctx|].
  2:{ apply either_close. rewrite Hctx. right. held_eq h. }
  destruct Hctx as [Hw5 Hctx].
  apply (either_unwinding _ _ _ (left_with (λ h, with_ctx ctx (add_inits 1 h)) fd h)).
  2:{ intros e v Hv. destruct (WolfSSL_CTX_Deleter_run ctx v) as (v' & Hr & Hh). exists v'.
      split; [done|]. rewrite Hh. simpl in Hctx. destruct e; try done.
      - destruct Hv as [Hn ->]. split; [done|]. split; [done|]. held_eq h.
      - simpl in Hv. rewrite Hv. left. held_eq h. }
  apply either_world. pose proof (load_keeps ctx cert w5) as Hw6. rewrite Hw5 in Hw6.
  destruct (negb _); [apply either_close; rewrite Hw6; held_eq h|].
  set (w6 := (wolfSSL_CTX_load_verify_locations ctx cert w5).2) in *. clearbody w6.
  apply either_world. destruct (wolfSSL_new ctx w6) as [ssl w7] eqn:Hssl. cbn [fst snd].
  apply new_gives in Hssl. rewrite Hw6 in Hssl. destruct ssl as [ssl|].
  2:{ apply either_close. rewrite Hssl. held_eq h. }
  destruct Hssl as [Hw7 Hssl].
  apply (either_unwinding _ _ _
    (left_with (λ h, with_ssl ssl (with_ctx ctx (add_inits 1 h))) fd h)).
  2:{ intros e v Hv. destruct (WolfSSL_Deleter_run ssl v) as (v' & Hr & Hh). exists v'.
      split; [done|]. rewrite Hh. simpl in Hssl. destruct e; try done.
      - destruct Hv as [Hn ->]. split; [done|]. held_eq h.
      - simpl in Hv. rewrite Hv. simpl. held_eq h. }
  by apply (ssl_session_either ip port proto fd h ctx ssl).
Qed.

(** C27: The SSL constructor, once it has a socket: a bad address or a failing
    [connect] leaves the socket open; every later test that fails closes it and
    releases the handles of wolfSSL made so far; when there is no memory for the
    buffer, which comes after the tests, the handles are released and the socket
    stays open. The destructor of a client that was made releases all that the
    constructor took, unless the close fails and the program ends. *)
Theorem ssl_stream_resources ip port proto cert w fd w1 :
  socket (time w).2 = (fd, w1) → 0 <= fd →
  let h := resources w in
  let '(p, w2) := inet_pton ip w1 in
  ∃ r w', SyncNetworkStreamClientSSL_new ip port proto cert w = (r, w') ∧
    ((∃ e, r = Throw e
      ∧ left_behind (negb (p =? 1) || ((connect fd port w2).1 <? 0)) fd h e (resources w'))
     ∨ ∃ s, r = Done s ∧ ssl_client fd h (resources w') s
       ∧ ∀ s1 v, holds_handles fd h (resources w') s1 → resources v = resources w' →
           ∃ r' v', ssl_destroy s1 v = (r', v') ∧
             if (close fd v).1 <? 0 then r' = Terminate else r' = Done () ∧ resources v' = h).
Proof.
  intros Hs Hfd h. pose proof (ssl_new_either ip port proto cert w fd w1 Hs Hfd) as He.
  destruct (inet_pton ip w1) as [p w2].
  assert (fd ∉ h_fds h) as Hfree.
  { pose proof (socket_opens _ _ _ Hs) as Ho.
    replace (fd <? 0) with false in Ho by (symmetry; lia). rewrite time_keeps in Ho. apply Ho. }
  destruct He as (r & w' & Hr & [Hfail|(s & -> & Hc)]); do 2 eexists; (split; [exact Hr|]).
  - by left.
  - right. exists s. split_and!; [done..|]. intros s1 v Hh Hv. by eapply ssl_destroy_run.
Qed.
End constructors.

(** ** A concrete system

    A world with what is held, the pieces a peer will send and whether the peer
    can be reached and its certificate is accepted. *)
Record loop_world := mkLoop {
  holdings : held; inbox : list (list ascii); reachable : bool; trusted : bool
}.

Definition fresh_Z (s : gset Z) : Z := Z.of_N (fresh (set_map Z.to_N s : gset N)).
Definition hold (h : held) (w : loop_world) := mkLoop h (inbox w) (reachable w) (trusted w).

Definition take_inbox (n : Z) (w : loop_world) : received * loop_world :=
  match inbox w with
  | [] => (Received [], w)
  | d :: ds => (Received (take (Z.to_nat n) d), mkLoop (holdings w) ds (reachable w) (trusted w))
  end.

Definition loop_time : TimeLibrary loop_world := {|
  time w := (0, w); localtime t := Some (day_clock_local t);
  mktime b := (day_clock_seconds b, day_clock_local (day_clock_seconds b)); strftime f b := []
|}.

Definition loop_system : System loop_world := {|
  gethostbyname _ w := (true, w);
  inet_pton _ w := (1, w);
  socket w := let fd := fresh_Z (h_fds (holdings w)) in (fd, hold (with_fd fd (holdings w)) w);
  connect _ _ w := (if reachable w then 0 else -1, w);
  close fd w := (0, hold (without_fd fd (holdings w)) w);
  recv _ n w := take_inbox n w;
  send _ d w := (Z.of_nat (length d), w);
  system_time := loop_time;
  wolfSSL_Init w := (1, hold (add_inits 1 (holdings w)) w);
  wolfSSL_CTX_new w :=
    let c := fresh_Z (h_ctxs (holdings w)) in (Some c, hold (with_ctx c (holdings w)) w);
  wolfSSL_CTX_load_verify_locations _ _ w := (if trusted w then 1 else 0, w);
  wolfSSL_new _ w :=
    let x := fresh_Z (h_ssls (holdings w)) in (Some x, hold (with_ssl x (holdings w)) w);
  wolfSSL_set_fd _ _ w := (1, w);
  wolfSSL_connect _ w := (1, w);
  wolfSSL_read _ n w := take_inbox n w;
  wolfSSL_write _ _ n w := (n, w);
  wolfSSL_free x w := ((), hold (without_ssl x (holdings w)) w);
  wolfSSL_CTX_free c w := ((), hold (without_ctx c (holdings w)) w);
  wolfSSL_Cleanup w := (1, hold (add_inits (-1) (holdings w)) w)
|}.

Lemma take_inbox_bound n w d w' :
  0 <= n → take_inbox n w = (Received d, w') → Z.of_nat (length d) <= n.
Proof.
  unfold take_inbox. intros Hn Ht. case_match; simplify_eq; [simpl; lia|].
  rewrite length_take. lia.
Qed.

Definition loop_laws : @SystemLaws loop_world loop_system.
Proof.
  split; simpl.
  - intros fd n w d w' Hn Ht. by apply (take_inbox_bound n w d w').
  - intros fd n w c w' Ht. unfold take_inbox in Ht. by destruct (inbox w).
  - intros h n w d w' Hn Ht. by apply (take_inbox_bound n w d w').
  - intros h n w c w' Ht. unfold take_inbox in Ht. by destruct (inbox w).
Qed.

Lemma fresh_Z_fresh s : (fresh_Z s ∉ s) ∧ 0 <= fresh_Z s.
Proof.
  unfold fresh_Z. split; [|lia]. intros Hin.
  apply (is_fresh (set_map Z.to_N s : gset N)).
  apply elem_of_map. eexists. split; [|exact Hin]. by rewrite N2Z.id.
Qed.

Definition loop_resources : @Resources loop_world loop_system.
Proof.
  refine {| resources := holdings : loop_world → held |}; try done.
  - intros w fd w' Hs. simpl in Hs. simplify_eq.
    destruct (fresh_Z_fresh (h_fds (holdings w))) as [Hf Hp].
    replace (fresh_Z _ <? 0) with false by (symmetry; by apply Z.ltb_ge). by split.
  - intros w c w' Hc. simpl in Hc. simplify_eq. split; [done|]. apply fresh_Z_fresh.
  - intros c w x w' Hc. simpl in Hc. simplify_eq. split; [done|]. apply fresh_Z_fresh.
Defined.

Definition standard : held := mkHeld {[0; 1; 2]} ∅ ∅ 0.
Definition unreachable : loop_world := mkLoop standard [] false true.
Definition peer : loop_world := mkLoop standard [list_ascii_of_string "hello"] true true.
Definition untrusted_peer : loop_world := mkLoop standard [] true false.

(** A client connected to the peer. *)
Definition connected_client : SyncClient loop_world :=
  mkSyncClient [] 80 3 TCP SyncStream Client (mkUnixTime 0 (day_clock_local 0)) None None
    (Some (new_buffer default_io_buffer_size)) true None None.

(** The client connected to the peer, and what it does once its buffer was taken. *)
Lemma clients_keep_contract_witness :
  (∃ C : @StreamContract total_alloc loop_world (SyncClient loop_world)
           (@plain_stream total_alloc loop_world loop_system),
     ∀ s, @is_open _ _ _ _ C s ↔ is_connected_ s = true)
  ∧ (@stream_getIOBuffer loop_world (set_buffer connected_client None)).1 = None
  ∧ ∃ z w', @plain_streamWrite loop_world loop_system (list_ascii_of_string "x")
              (set_buffer connected_client None, peer)
            = (Done z, (set_buffer connected_client None, w')).
Proof.
  destruct (@clients_keep_contract total_alloc loop_world loop_system loop_laws)
    as (Hplain&_&Hmoved).
  split; [exact Hplain|].
  destruct (Hmoved (@plain_stream total_alloc loop_world loop_system)
    (set_buffer connected_client None) (list_ascii_of_string "x") peer
    (or_introl eq_refl) eq_refl) as [Hget Hwrite].
  split; [exact Hget|]. apply Hwrite; [reflexivity|]. intros b w. exists w. reflexivity.
Defined.

Lemma stream_close_spec_witness :
  @stream_destroy loop_world loop_system connected_client peer
  = (Done (), hold (without_fd 3 standard) peer).
Proof.
  pose proof (@stream_close_spec total_alloc loop_world loop_system connected_client
    peer eq_refl) as Hc.
  cbn in Hc. destruct Hc as (s'&_&Hd&_). exact Hd.
Defined.

(** An unreachable host: the socket stays open. *)
Example plain_constructor_run :
  let '(r, w) := @SyncNetworkStreamClient_new total_alloc loop_world loop_system [] 80 TCP unreachable in
  r = Throw runtime_error ∧ bool_decide (h_fds (holdings w) = {[0; 1; 2; 3]}) = true.
Proof. vm_compute. by split. Qed.

(** The certificate is refused: everything is released again. *)
Lemma ssl_stream_resources_witness :
  let run := @SyncNetworkStreamClientSSL_new total_alloc loop_world loop_system
               [] 443 TCP [] untrusted_peer in
  run.1 = Throw runtime_error ∧ nothing_kept standard (holdings run.2).
Proof.
  destruct (@ssl_stream_resources total_alloc loop_world loop_system loop_resources
    [] 443 TCP [] untrusted_peer (fresh_Z {[0; 1; 2]}) (hold (with_fd (fresh_Z {[0; 1; 2]}) standard) untrusted_peer))
    as (r & w' & Hrun & [(e & Hr & Hk)|(s & Hr & _)]).
  - reflexivity.
  - apply fresh_Z_fresh.
  - pose proof Hrun as He. subst r. vm_compute in He. injection He as He _. subst e.
    cbv zeta. rewrite Hrun. split; [reflexivity|exact Hk].
  - exfalso. subst r. vm_compute in Hrun. discriminate Hrun.
Defined.

(** There is no memory: the socket stays open. *)
Example ssl_out_of_memory :
  let '(r, w) := @SyncNetworkStreamClientSSL_new (λ _, false) loop_world loop_system
                   [] 443 TCP [] peer in
  r = Throw bad_alloc
  ∧ bool_decide (h_fds (holdings w) = {[0; 1; 2; 3]} ∧ h_ctxs (holdings w) = ∅
                 ∧ h_ssls (holdings w) = ∅) = true.
Proof. vm_compute. by split. Qed.

(** A client that is made and destroyed. *)
Example ssl_client_run :
  match @SyncNetworkStreamClientSSL_new total_alloc loop_world loop_system [] 443 TCP [] peer with
  | (Done s, w) =>
      let '(r, w') := @ssl_destroy loop_world loop_system s w in
      (bool_decide (h_ctxs (holdings w) = ∅), r,
       bool_decide (h_ctxs (holdings w') = ∅ ∧ h_ssls (holdings w') = ∅ ∧ h_inits (holdings w') = 0))
  | _ => (true, Terminate, false)
  end = (false, Done (), true).
Proof. vm_compute. reflexivity. Qed.
