(* ===== verification/RequestSession.v ===== *)
(** * A request that arrives over a stream

    NetworkStream, IOBuffer and the request parser together: a server reads a
    stream, parses what came, steps over it and reads again, keeping the parser's
    state and message, in the way of the asynchronous cases of
    tests/test-http/test-http-state-machine.cpp. The theorems are proved against
    the contract of a stream and so hold of both clients. *)
From Stdlib Require Import ZArith Lia Ascii String.
From stdpp Require Import base gmap sets strings list.
From S2P Require Import Prelude IOBuffer HTTPConstants.
From S2P Require HTTPHeaders.
From S2P Require Import RequestMessage RequestParser NetworkStream UnixTime SyncStream.
Local Open Scope Z_scope.
Local Open Scope blueth_scope.

(** ** What a run of the parser leaves of the room for the body *)
Section room.
Context `{Allocator}.

Lemma switch_case_stay_body st m c prev st' m' :
  switch_case st m c prev = Done (Stay st' m') → raw_body_ m' = raw_body_ m.
Proof.
  intros Hs. destruct st; simpl in Hs;
    unfold expect, fail, addTempHeadersHolderToMessage in Hs;
    rewrite ?classify_method_spec in Hs.
  all: repeat (case_match || res_inv); simplify_eq/=; done.
Qed.

Lemma run_keeps_room prev st m l st' m' b s :
  raw_body_ m = Some b → repr b s → (∀ n, alloc_ok n = true) →
  capacity_ b + Z.of_nat (length l) < size_max →
  run prev st m l = Done (st', m') →
  ∃ b' s', raw_body_ m' = Some b' ∧ repr b' s'
    ∧ capacity_ b' <= capacity_ b + Z.of_nat (length l).
Proof.
  intros Hb Hr Ha. revert prev st m Hb.
  induction l as [|c l IH]; intros prev st m Hb Hc Hrun.
  { simpl in Hrun. simplify_eq. exists b, s. split_and!; [done..|lia]. }
  destruct (active st) eqn:Hst.
  - rewrite run_active in Hrun by done.
    destruct (switch_case st m c prev) as [[st1 m1|st1 m1]| | | |] eqn:Hs; try done;
      rewrite Done_bind in Hrun.
    + apply IH in Hrun as (b'&s'&?&?&?);
        [|by rewrite (switch_case_body _ _ _ _ _ _ Hs)|simpl in Hc; lia].
      exists b', s'. split_and!; [done..|simpl; lia].
    + destruct st1; simplify_eq. exists b, s.
      rewrite (switch_case_stay_body _ _ _ _ _ _ Hs). split_and!; [done..|lia].
  - destruct (run_rest prev st m b s (c :: l)) as (b'&Hrun'&Hr'&?); [done..|].
    rewrite Hrun in Hrun'. simplify_eq. by eexists b', _.
Qed.

(** The first state does not look back. *)
Lemma run_begin_prev prev prev' m l :
  run prev RequestLineBegin m l = run prev' RequestLineBegin m l.
Proof. by destruct l. Qed.
End room.

Section session.
Context `{Allocator} {W S : Type} `{NetworkStream W S}.

(** One turn: a read, the parse of what it brought, and the step over it. The
    result is the piece and the parser's state and message. *)
Definition receive_turn (fuel : nat) (n : Z) (st : ParserState) (m : HTTPRequestMessage)
  : io (S * W) (bytes * (ParserState * HTTPRequestMessage)) :=
  _ ← streamRead n;
  sw ← get;
  let moved := getIOBuffer (sw.1 : S) in
  b ← lift (deref moved.1);
  piece ← lift (string_of_range b (begin_ b) (end_ b));
  r ← lift (ParseHTTP1_1RequestMessage fuel b st m);
  _ ← put (setIOBuffer (Some (modifyStartOffset b (getDataSize b))) moved.2, sw.2);
  mret (piece, r).

(** The same turn without the parser. *)
Definition read_turn (n : Z) : io (S * W) bytes :=
  _ ← streamRead n;
  sw ← get;
  let moved := getIOBuffer (sw.1 : S) in
  b ← lift (deref moved.1);
  piece ← lift (string_of_range b (begin_ b) (end_ b));
  _ ← put (setIOBuffer (Some (modifyStartOffset b (getDataSize b))) moved.2, sw.2);
  mret piece.

Fixpoint read_pieces (ns : list Z) : io (S * W) (list bytes) :=
  match ns with
  | [] => mret []
  | n :: ns => d ← read_turn n; ds ← read_pieces ns; mret (d :: ds)
  end.

(** Reads of [ns] bytes one after the other. *)
Fixpoint receive_request (fuel : nat) (ns : list Z) (st : ParserState)
    (m : HTTPRequestMessage) : io (S * W) (list bytes * (ParserState * HTTPRequestMessage)) :=
  match ns with
  | [] => mret ([], (st, m))
  | n :: ns =>
      t ← receive_turn fuel n st m;
      r ← receive_request fuel ns t.2.1 t.2.2;
      mret (t.1 :: r.1, r.2)
  end.

(** The number of bytes the reads ask for. *)
Definition asked (ns : list Z) : Z := foldr Z.add 0 ns.

Context `{!StreamContract W S}.

(** A stream between two turns: connected, its buffer empty. *)
Definition between (s : S) (b : IOBuffer) : Prop :=
  is_open s ∧ constGetIOBuffer s = Some b ∧ repr b [] ∧ quiet (getReadCallback s).

(** The outcome of a turn is that of the machine on the piece that came. *)
Lemma receive_turn_run fuel n st m s w b :
  between s b → 0 < n < 2 ^ 31 → capacity_ b + n < size_max →
  (Z.to_nat n + 2 <= fuel)%nat → (∀ k, alloc_ok k = true) →
  ∃ d s' w' b', Z.of_nat (length d) <= n ∧ read_turn n (s, w) = (Done d, (s', w'))
    ∧ between s' b' ∧ capacity_ b' <= capacity_ b + n
    ∧ prev_read b' = List.last (Done <$> d) (prev_read b)
    ∧ match run (prev_read b) st m d with
      | Done r => receive_turn fuel n st m (s, w) = (Done (d, r), (s', w'))
      | e => (receive_turn fuel n st m (s, w)).1 = (r ← e; Done (d, r))
      end.
Proof.
  intros (Ho&Hb&Hr&Hq) Hn Hcap Hf Ha.
  destruct (read_appends n s w b []) as (z&s1&w1&b1&d&Hrun&Hb1&Hr1&Ho1&Hq1&Hc1&Hp1&Hz);
    [done..|]. simpl in Hr1.
  assert (Z.of_nat (length d) <= n) as Hd by (destruct (z <? 0); [subst; simpl|]; lia).
  unfold receive_turn, read_turn.
  rewrite !(io_bind_Done _ _ _ _ _ Hrun), !get_bind. cbn [fst snd].
  destruct (get_moves s1 b1 Hb1) as (Hg1&Hg2&Hg3&Hg4).
  destruct (getIOBuffer s1) as [io s2]. cbn [fst snd] in *. subst io.
  simpl deref. rewrite !lift_Done_bind, (repr_iter _ _ Hr1), !lift_Done_bind.
  rewrite (Parse_run fuel _ d) by (done || lia). rewrite Hp1.
  rewrite !put_bind, (repr_datasize _ _ Hr1), (modifyStartOffset_first b1 d) by (done || lia).
  fold (second_part b1 d).
  destruct (set_get (Some (second_part b1 d)) s2) as (Hs1&Hs2&Hs3).
  assert (repr b1 (d ++ [])) as Hr1' by by rewrite app_nil_r.
  eexists d, _, w1, (second_part b1 d). split; [done|]. split; [done|]. split; [|split; [done|split]].
  - split_and!; [by rewrite Hs2, Hg3|done|by eapply second_part_repr|].
    by rewrite Hs3, Hg4, Hq1.
  - by rewrite (second_part_prev _ _ _ Hr1'), Hp1.
  - by destruct (run (prev_read b) st m d) as [[st' m']| | | |].
Qed.

Lemma read_pieces_total ns s w b :
  between s b → Forall (λ n, 0 < n < 2 ^ 31) ns → capacity_ b + asked ns < size_max →
  (∀ k, alloc_ok k = true) →
  ∃ ds sw, read_pieces ns (s, w) = (Done ds, sw) ∧ Z.of_nat (length (concat ds)) <= asked ns.
Proof.
  intros Hs Hns. revert s w b Hs. induction Hns as [|n ns Hn Hns IH]; intros s w b Hs Hcap Ha.
  { by exists [], (s, w). }
  assert (0 <= asked ns) as Hpos.
  { clear -Hns. induction Hns; simpl; lia. }
  cbn [asked foldr] in *. fold (asked ns) in *.
  destruct (receive_turn_run (Z.to_nat n + 2) n RequestLineBegin empty_message s w b)
    as (d&s1&w1&b1&Hd&Hread&Hs1&Hc1&_); [done|done|lia|lia|done|].
  destruct (IH s1 w1 b1 Hs1) as (ds&sw&Hds&Hlen); [lia|done|].
  exists (d :: ds), sw. cbn [read_pieces].
  rewrite (io_bind_Done _ _ _ _ _ Hread), (io_bind_Done _ _ _ _ _ Hds).
  split; [done|]. simpl. rewrite length_app. lia.
Qed.

Lemma receive_request_run fuel ns st m s w b body s0 :
  between s b → Forall (λ n, 0 < n < 2 ^ 31) ns →
  capacity_ b + asked ns < size_max → (Z.to_nat (asked ns) + 2 <= fuel)%nat →
  raw_body_ m = Some body → repr body s0 → capacity_ body + asked ns < size_max →
  (∀ k, alloc_ok k = true) →
  ∃ ds, (read_pieces ns (s, w)).1 = Done ds ∧ Z.of_nat (length (concat ds)) <= asked ns
    ∧ (r ← (receive_request fuel ns st m (s, w)).1; Done r.2)
      ≡ run (prev_read b) st m (concat ds)
    ∧ ∀ r, (receive_request fuel ns st m (s, w)).1 = Done r → r.1 = ds.
Proof.
  intros Hs Hns. revert st m s w b body s0 Hs.
  induction Hns as [|n ns Hn Hns IH]; intros st m s w b body s0 Hs Hcap Hf Hm Hrb Hmax Ha.
  { exists []. split_and!; [done..|]. by intros r [= <-]. }
  assert (0 <= asked ns) as Hpos.
  { clear -Hns. induction Hns; simpl; lia. }
  cbn [asked foldr] in Hcap, Hf, Hmax. fold (asked ns) in Hcap, Hf, Hmax.
  destruct (receive_turn_run fuel n st m s w b)
    as (d&s1&w1&b1&Hd&Hread&Hs1&Hc1&Hp1&Hturn); [done|done|lia|lia|done|].
  cbn [read_pieces receive_request asked foldr]. fold (asked ns).
  rewrite (io_bind_Done _ _ _ _ _ Hread).
  destruct (run (prev_read b) st m d) as [[st1 m1]|e| |u|] eqn:Hrun.
  2-5: destruct (read_pieces_total ns s1 w1 b1 Hs1 Hns) as (ds&sw&Hds&Hlen); [lia|done|];
    exists (d :: ds); rewrite (io_bind_Done _ _ _ _ _ Hds); simpl;
    rewrite length_app; split; [done|]; split; [lia|];
    pose proof (run_app (prev_read b) st m body s0 d (concat ds) Hm Hrb Ha) as Happ;
    rewrite Hrun in Happ; rewrite Happ by (rewrite length_app; lia);
    unfold mbind, io_bind; destruct (receive_turn fuel n st m (s, w)) as [r sw'];
    simpl in Hturn; subst r; by split.
  rewrite (io_bind_Done _ _ _ _ _ Hturn).
  destruct (run_keeps_room (prev_read b) st m d st1 m1 body s0)
    as (body1&t1&Hm1&Hrb1&Hcb1); [done..|lia|done|].
  destruct (IH st1 m1 s1 w1 b1 body1 t1) as (ds&Hds&Hlen&Heq&Hcat);
    [done|lia..|done|done|lia|done|].
  exists (d :: ds). cbn [concat]. rewrite length_app.
  split; [|split; [lia|]].
  { unfold mbind, io_bind. destruct (read_pieces ns (s1, w1)) as [r sw]. simpl in *. by subst r. }
  cbn [fst snd].
  pose proof (run_app (prev_read b) st m body s0 d (concat ds) Hm Hrb Ha) as Happ.
  rewrite Hrun, Done_bind in Happ. cbn [fst snd] in Happ.
  rewrite <- Hp1 in Happ. unfold mbind, io_bind.
  destruct (receive_request fuel ns st1 m1 (s1, w1)) as [[r|e| |u|] sw2]; simpl in *;
    (split; [rewrite Happ by (rewrite length_app; lia); exact Heq|]); intros r' [= <-].
  simpl. f_equal. by apply Hcat.
Qed.

(** C4: A request may arrive over any stream that keeps the contract, in any pieces:
    the reads always return, and parsing each piece as it comes, in the state the
    last one left, gives what parsing the pieces joined gives at once, be it a
    message, an unfinished state or a failure. *)
Theorem receive_request_spec fuel ns m s w b body :
  between s b → Forall (λ n, 0 < n < 2 ^ 31) ns →
  capacity_ b + asked ns < size_max → (Z.to_nat (asked ns) + 2 <= fuel)%nat →
  raw_body_ m = Some body → repr body [] → capacity_ body + asked ns < size_max →
  (∀ k, alloc_ok k = true) →
  let outcome := (receive_request fuel ns RequestLineBegin m (s, w)).1 in
  ∃ ds, (read_pieces ns (s, w)).1 = Done ds
    ∧ (r ← outcome; Done r.2)
      ≡ ParseHTTP1_1RequestMessage fuel (buffer_of (concat ds)) RequestLineBegin m
    ∧ ∀ r, outcome = Done r → r.1 = ds.
Proof.
  intros Hs Hns Hcap Hf Hm Hrb Hmax Ha outcome.
  pose proof Hs as (_&_&Hr0&_). apply repr_bounds in Hr0.
  destruct (receive_request_run fuel ns RequestLineBegin m s w b body [])
    as (ds&Hds&Hlen&Heq&Hcat); [done..|].
  exists ds. split; [done|]. split; [|done].
  rewrite (Parse_run fuel _ (concat ds)) by (apply buffer_of_repr || idtac; lia).
  by rewrite (run_begin_prev _ (prev_read b)).
Qed.

(** C5: A request goes from one program to another: when the pieces that a stream
    delivers are, joined, what [buildRawMessage] printed on the other side of a
    GET, HEAD, POST or PUT with a visible target and headers that can be read
    ([printable_header]), the receiving parser ends with that request, its type,
    target, headers and version, and the body of a POST or PUT, however the text
    was cut. *)
Theorem request_delivered `{HTTPHeaders.HashOrder} fuel ns m0 b0 s w b raw m h mb body st :
  between s b → Forall (λ n, 0 < n < 2 ^ 31) ns →
  capacity_ b + asked ns < size_max → (Z.to_nat (asked ns) + 2 <= fuel)%nat →
  fresh m0 HTTPHeaders.empty_headers → raw_body_ m0 = Some b0 → repr b0 [] →
  capacity_ b0 + asked ns < size_max → (∀ k, alloc_ok k = true) →
  http_headers_ m = Some h → raw_body_ m = Some mb → repr mb body →
  final_state (request_type_ m) = Some st →
  forallb is_visible (target_resource_ m) = true →
  map_Forall (λ n v, printable_header (n, v)) (HTTPHeaders.http_headers_ h) →
  buildRawMessage m = Done raw → Z.of_nat (length body) <= asked ns →
  ∃ ds, (read_pieces ns (s, w)).1 = Done ds
    ∧ (concat ds = raw →
       ∃ m', (receive_request fuel ns RequestLineBegin m0 (s, w)).1 = Done (ds, (st, m'))
         ∧ request_type_ m' = request_type_ m ∧ target_resource_ m' = target_resource_ m
         ∧ http_headers_ m' = Some h ∧ http_message_version_ m' = HTTP1_1
         ∧ (st = MessageBody → raw_body_ m' ≡ raw_body_ m)).
Proof.
  intros Hs Hns Hcap Hf Hfresh Hb0 Hr0 Hmax Ha Hh Hmb Hrb Hst Htv Hall Hraw Hlen.
  destruct (receive_request_run fuel ns RequestLineBegin m0 s w b b0 [])
    as (ds&Hds&_&Heq&Hcat); [done..|].
  exists ds. split; [done|]. intros Hcon. rewrite Hcon in Heq.
  destruct (run_printed_request (prev_read b) raw m h mb body m0 b0 st)
    as (m1&Hrun&Ht&Htr&Hh1&Hv&Hb1); [done..|lia|done|]. rewrite Hrun in Heq.
  destruct (receive_request fuel ns RequestLineBegin m0 (s, w)).1 as [[ds' [st' m']]| | | |];
    try done. simpl in Heq. specialize (Hcat _ eq_refl). simpl in Hcat. subst ds'.
  destruct Heq as [Hst' Hm']. simpl in Hst', Hm'. change (st' = st) in Hst'. subst st'.
  destruct Hm' as [Hfields Hbody]. exists m'. split; [done|].
  pose proof (f_equal request_type_ Hfields). pose proof (f_equal target_resource_ Hfields).
  pose proof (f_equal http_headers_ Hfields).
  pose proof (f_equal http_message_version_ Hfields). simpl in *.
  split_and!; [congruence..|]. intros ->. rewrite Hbody. by apply Hb1.
Qed.
End session.

(** ** A concrete run

    Over the plain client: a POST in three pieces, cut before the space of a
    header value and in the body. *)
#[local] Existing Instance total_alloc.
#[local] Existing Instance loop_system.
#[local] Existing Instance loop_laws.
#[local] Existing Instance plain_stream.
#[local] Existing Instance plain_contract.
#[local] Existing Instance HTTPHeaders.map_to_list_order.

Definition piece1 : bytes := $"POST / HTTP/1.1" ++ CRLF ++ $"Host:".
Definition piece2 : bytes := $" a" ++ CRLF ++ CRLF ++ $"x=".
Definition piece3 : bytes := $"1".
Definition posting_peer : loop_world := mkLoop standard [piece1; piece2; piece3] true true.

Lemma connected_between : between connected_client (new_buffer default_io_buffer_size).
Proof.
  split; [reflexivity|]. split; [reflexivity|]. split.
  - apply new_buffer_repr. split; [discriminate|reflexivity].
  - intros b w. exists w. reflexivity.
Qed.

Lemma receive_request_spec_witness :
  ∃ m', (receive_request 4000 [500; 600; 700] RequestLineBegin empty_message
           (connected_client, posting_peer)).1
        = Done ([piece1; piece2; piece3], (MessageBody, m'))
    ∧ Done (MessageBody, m')
      ≡ ParseHTTP1_1RequestMessage 4000 (buffer_of (piece1 ++ piece2 ++ piece3))
          RequestLineBegin empty_message.
Proof.
  destruct (receive_request_spec 4000 [500; 600; 700] empty_message connected_client
    posting_peer (new_buffer default_io_buffer_size) (new_buffer initial_capacity_))
    as (ds&_&Heq&Hcat).
  - exact connected_between.
  - repeat constructor.
  - reflexivity.
  - apply Nat.leb_le. vm_compute. reflexivity.
  - reflexivity.
  - exact empty_body_repr.
  - reflexivity.
  - intros k. reflexivity.
  - assert (∃ m', (receive_request 4000 [500; 600; 700] RequestLineBegin empty_message
           (connected_client, posting_peer)).1
        = Done ([piece1; piece2; piece3], (MessageBody, m'))) as [m' Hrun]
      by (eexists; vm_compute; reflexivity).
    exists m'. split; [exact Hrun|].
    rewrite <- (Hcat _ Hrun), Hrun in Heq. exact Heq.
Defined.

(** The text of a PUT with a table of two headers, cut inside a name and a value. *)
Definition delivered : list bytes :=
  [take 20 put_text; take 9 (drop 20 put_text); drop 29 put_text].
Definition printing_peer : loop_world := mkLoop standard delivered true true.

Lemma request_delivered_witness :
  ∃ m', (receive_request 4000 [500; 600; 700] RequestLineBegin empty_message
           (connected_client, printing_peer)).1 = Done (delivered, (MessageBody, m'))
    ∧ request_type_ m' = Put ∧ target_resource_ m' = $"/r/1"
    ∧ http_headers_ m' = http_headers_ put_message.
Proof.
  destruct (request_delivered 4000 [500; 600; 700] empty_message
    (new_buffer initial_capacity_) connected_client printing_peer
    (new_buffer default_io_buffer_size) put_text put_message
    (HTTPHeaders.addHeaders HTTPHeaders.empty_headers
       [($"Host", $"a:80"); ($"Accept", $"*/*")])
    (buffer_of $"payload") $"payload" MessageBody) as (ds&Hds&Hgot).
  - exact connected_between.
  - repeat constructor.
  - reflexivity.
  - apply Nat.leb_le. vm_compute. reflexivity.
  - exact empty_message_fresh.
  - reflexivity.
  - exact empty_body_repr.
  - reflexivity.
  - intros k. reflexivity.
  - reflexivity.
  - reflexivity.
  - apply buffer_of_repr. reflexivity.
  - reflexivity.
  - reflexivity.
  - apply map_Forall_to_list, (bool_decide_unpack _). vm_compute. exact I.
  - reflexivity.
  - vm_compute. discriminate.
  - assert (ds = delivered) as ->.
    { assert (Done ds = Done delivered) as Heq.
      { rewrite <- Hds. vm_compute. reflexivity. }
      by injection Heq. }
    destruct Hgot as (m'&Hrun&Ht&Htr&Hh&_); [vm_compute; reflexivity|].
    exists m'. split; [exact Hrun|]. split; [exact Ht|]. split; [exact Htr|exact Hh].
Defined.
