(* ===== verification/ResponseSession.v ===== *)
(** * A response that arrives over a stream

    NetworkStream, IOBuffer and the response parser together. A body in two
    pieces loses one, so a client lets the stream's buffer fill, which every read
    appends to, and parses it when the response is there. The theorem is proved
    against the contract of a stream and so holds of both clients. *)
From Stdlib Require Import ZArith Lia Ascii String.
From stdpp Require Import base gmap sets strings list.
From S2P Require Import Prelude IOBuffer HTTPConstants.
From S2P Require HTTPHeaders RequestSession.
From S2P Require Import ResponseMessage ResponseParser NetworkStream UnixTime SyncStream.
Local Open Scope Z_scope.
Local Open Scope blueth_scope.

Section session.
Context `{Allocator} {W S : Type} `{NetworkStream W S}.

(** Reads of [ns] bytes one after the other, without taking anything out. *)
Fixpoint fill (ns : list Z) : io (S * W) () :=
  match ns with
  | [] => mret ()
  | n :: ns => _ ← streamRead n; fill ns
  end.

(** Then the parser on the buffer as it is. *)
Definition receive_response (fuel : nat) (ns : list Z) (m : HTTPResponseMessage)
  : io (S * W) (ResponseParserState * HTTPResponseMessage) :=
  _ ← fill ns;
  sw ← get;
  b ← lift (deref (constGetIOBuffer (sw.1 : S)));
  lift (ParseHTTP1_1ResponseMessage fuel b ResponseProtocolH m).

Context `{!StreamContract W S}.

Lemma fill_spec ns s w b l :
  is_open s → constGetIOBuffer s = Some b → repr b l → quiet (getReadCallback s) →
  Forall (λ n, 0 < n < 2 ^ 31) ns → capacity_ b + RequestSession.asked ns < size_max →
  (∀ k, alloc_ok k = true) →
  ∃ s' w' b' text, fill ns (s, w) = (Done (), (s', w'))
    ∧ constGetIOBuffer s' = Some b' ∧ repr b' (l ++ text) ∧ is_open s'
    ∧ Z.of_nat (length text) <= RequestSession.asked ns.
Proof.
  intros Ho Hb Hr Hq Hns. revert s w b l Ho Hb Hr Hq.
  induction Hns as [|n ns Hn Hns IH]; intros s w b l Ho Hb Hr Hq Hcap Ha.
  { exists s, w, b, []. by rewrite app_nil_r. }
  assert (0 <= RequestSession.asked ns) as Hpos.
  { clear -Hns. induction Hns; simpl; lia. }
  cbn [RequestSession.asked foldr] in *. fold (RequestSession.asked ns) in *.
  destruct (read_appends n s w b l) as (z&s1&w1&b1&d&Hrun&Hb1&Hr1&Ho1&Hq1&Hc1&_&Hz);
    [done..|lia|done|done|].
  assert (Z.of_nat (length d) <= n) as Hd by (destruct (z <? 0); [subst; simpl|]; lia).
  destruct (IH s1 w1 b1 (l ++ d)) as (s2&w2&b2&text&Hfill&Hb2&Hr2&Ho2&Hlen);
    [done..|by rewrite Hq1|lia|done|].
  exists s2, w2, b2, (d ++ text). cbn [fill].
  rewrite (io_bind_Done _ _ _ _ _ Hrun), app_assoc, length_app.
  split_and!; [done..|lia].
Qed.

(** C11: A response goes from one program to another: the reads always return, and
    when the bytes they leave in the buffer are what [buildRawMessage] printed on
    the other side, the parser gives the status, the body under a
    [Content-Length], and the header table if and only if no value has a colon
    before its last character. *)
Theorem response_delivered `{HTTPHeaders.HashOrder} fuel ns s w b raw m h mb body b0 :
  RequestSession.between s b → Forall (λ n, 0 < n < 2 ^ 31) ns →
  capacity_ b + RequestSession.asked ns < size_max →
  (Z.to_nat (RequestSession.asked ns) + 2 <= fuel)%nat → (∀ k, alloc_ok k = true) →
  http_message_version_ m = HTTP1_1 → named (response_code_ m) = true →
  response_code_ m ≠ InvalidHttpCode →
  http_headers_ m = Some h → raw_body_ m = Some mb → repr mb body →
  map_Forall printable (HTTPHeaders.http_headers_ h) →
  buildRawMessage m = Done raw →
  repr b0 [] → capacity_ b0 + Z.of_nat (length body) < size_max →
  ∃ s' w' b' text, fill ns (s, w) = (Done (), (s', w'))
    ∧ constGetIOBuffer s' = Some b' ∧ repr b' text
    ∧ (text = raw →
       ∃ st m', (receive_response fuel ns (set_body empty_message (Some b0)) (s, w)).1
                = Done (st, m')
         ∧ response_code_ m' = response_code_ m
         ∧ (http_headers_ m' = Some h ↔
            map_Forall (λ _ v, chr 58 ∉ removelast v) (HTTPHeaders.http_headers_ h))
         ∧ (HTTPHeaders.headerContains h $"Content-Length" = true →
            raw_body_ m' ≡ raw_body_ m)).
Proof.
  intros (Ho&Hb&Hr&Hq) Hns Hcap Hf Ha Hv Hn Hi Hh Hmb Hrb Hp Hraw Hr0 Hmax.
  destruct (fill_spec ns s w b [] Ho Hb Hr Hq Hns Hcap Ha)
    as (s'&w'&b'&text&Hfill&Hb'&Hr'&_&Hlen). simpl in Hr'.
  exists s', w', b', text. split_and!; [done..|]. intros ->.
  destruct (response_printed_parsed fuel b' raw m h mb body b0)
    as (st&m'&Hrun&Hres); [done..|lia|done|done|done|].
  exists st, m'. split; [|done]. unfold receive_response.
  rewrite (io_bind_Done _ _ _ _ _ Hfill), get_bind. cbn [fst]. rewrite Hb'.
  simpl deref. rewrite lift_Done_bind, Hrun. done.
Qed.
End session.

(** ** A concrete run

    Over the plain client: a redirection whose body is cut in two. *)
#[local] Existing Instance total_alloc.
#[local] Existing Instance loop_system.
#[local] Existing Instance loop_laws.
#[local] Existing Instance plain_stream.
#[local] Existing Instance plain_contract.
#[local] Existing Instance HTTPHeaders.map_to_list_order.

Definition cut : nat := length redirect_text - 2.
Definition answering_peer : loop_world :=
  mkLoop standard [take cut redirect_text; drop cut redirect_text] true true.

Lemma response_delivered_witness :
  ∃ st m', (receive_response 4000 [500; 600]
              (set_body empty_message (Some (new_buffer initial_capacity_)))
              (connected_client, answering_peer)).1 = Done (st, m')
    ∧ response_code_ m' = TemporaryRedirect
    ∧ raw_body_ m' ≡ Some (buffer_of $"gone").
Proof.
  destruct (response_delivered 4000 [500; 600] connected_client answering_peer
    (new_buffer default_io_buffer_size) redirect_text redirect_message
    (HTTPHeaders.addHeaders HTTPHeaders.empty_headers
       [($"Location", $"http://a.b/"); ($"Content-Length", $"4")])
    (buffer_of $"gone") $"gone" (new_buffer initial_capacity_))
    as (s'&w'&b'&text&Hfill&Hb'&Hr'&Hgot).
  - exact RequestSession.connected_between.
  - repeat constructor.
  - reflexivity.
  - apply Nat.leb_le. vm_compute. reflexivity.
  - intros k. reflexivity.
  - reflexivity.
  - reflexivity.
  - discriminate.
  - reflexivity.
  - reflexivity.
  - apply buffer_of_repr. reflexivity.
  - apply map_Forall_to_list, (bool_decide_unpack _). vm_compute. exact I.
  - reflexivity.
  - exact response_empty_body_repr.
  - reflexivity.
  - assert (text = redirect_text) as Htext.
    { apply repr_string in Hr'. vm_compute in Hfill. injection Hfill as <- <-.
      injection Hb' as <-. vm_compute in Hr'. injection Hr' as <-. vm_compute. reflexivity. }
    destruct (Hgot Htext) as (st&m'&Hrun&Hcode&_&Hbody).
    exists st, m'. split; [exact Hrun|]. split; [exact Hcode|].
    apply Hbody. vm_compute. reflexivity.
Defined.
