(* ===== verification/HTTPProxy.v ===== *)
(** * [http::HTTPProxyClient] (blueth/http/HTTPProxy.hpp)

    The client of an HTTP proxy, over any network stream: its theorems use the
    stream's contract and not its implementation. *)
From Stdlib Require Import ZArith Lia Ascii String.
From stdpp Require Import base gmap sets strings list.
From S2P Require Import Prelude IOBuffer HTTPConstants Base64.
From S2P Require HTTPHeaders RequestMessage RequestParser ResponseMessage ResponseParser.
From S2P Require ResponseGrammar.
From S2P Require Import NetworkStream SyncStream.
Local Open Scope Z_scope.
Local Open Scope blueth_scope.

Inductive HTTPProxyReturnCode :=
  | ProxyAuthRequired
  | ConnectionSuccess
  | NoProxySupport
  | AuthFailed
  | NetworkError
  | InvalidResponse.

#[export] Instance HTTPProxyReturnCode_eq_dec : EqDecision HTTPProxyReturnCode.
Proof. solve_decision. Defined.

(** The port is indeterminate until [makeConnection] sets it. *)
Record HTTPProxyClient (S : Type) := mkHTTPProxyClient {
  network_handler_ : S;
  origin_server_hostname_ : bytes;
  origin_server_port_ : option Z;
  proxy_username_ : option bytes;
  proxy_passphrase_ : option bytes;
  proxy_connection_made_ : bool
}.
Arguments mkHTTPProxyClient {S}. Arguments network_handler_ {S}.
Arguments origin_server_hostname_ {S}. Arguments origin_server_port_ {S}.
Arguments proxy_username_ {S}. Arguments proxy_passphrase_ {S}.
Arguments proxy_connection_made_ {S}.

Section client.
Context `{Allocator} `{!HTTPHeaders.HashOrder} {W S : Type} `{!NetworkStream W S}.

(** [HTTPProxyClient(network_handler)] *)
Definition HTTPProxyClient_new (network_handler : S) : HTTPProxyClient S :=
  mkHTTPProxyClient network_handler [] None None None false.

Definition set_handler (c : HTTPProxyClient S) (s : S) : HTTPProxyClient S :=
  mkHTTPProxyClient s (origin_server_hostname_ c) (origin_server_port_ c)
    (proxy_username_ c) (proxy_passphrase_ c) (proxy_connection_made_ c).
Definition set_origin (c : HTTPProxyClient S) host port user pass : HTTPProxyClient S :=
  mkHTTPProxyClient (network_handler_ c) host (Some port) user pass
    (proxy_connection_made_ c).
Definition set_made (c : HTTPProxyClient S) (b : bool) : HTTPProxyClient S :=
  mkHTTPProxyClient (network_handler_ c) (origin_server_hostname_ c)
    (origin_server_port_ c) (proxy_username_ c) (proxy_passphrase_ c) b.

(** A call of a method of [network_handler_]. *)
Definition handler {A} (m : io (S * W) A) : io (HTTPProxyClient S * W) A := λ '(c, w),
  let '(r, (s, w)) := m (network_handler_ c, w) in (r, (set_handler c s, w)).

(** [origin_server_hostname_ + ':' + std::to_string(origin_server_port_)] *)
Definition hostname_and_port (host : bytes) (port : Z) : bytes :=
  host ++ $":" ++ to_string port.

(** The CONNECT request. *)
Definition connect_request (host : bytes) (port : Z) (user pass : option bytes)
  : res RequestMessage.HTTPRequestMessage :=
  m ← RequestMessage.HTTPRequestMessage_new;
  let m := RequestMessage.setRequestType m Connect in
  let m := RequestMessage.setHTTPTargetResource m (hostname_and_port host port) in
  let m := RequestMessage.setHTTPVersion m HTTP1_1 in
  m ← RequestMessage.addHeader m $"Host" (hostname_and_port host port);
  m ← RequestMessage.addHeader m $"User-Agent" $"blueth/http-client";
  m ← RequestMessage.addHeader m $"Proxy-Connection" $"Keep-Alive";
  match user, pass with
  | Some user, Some pass =>
      RequestMessage.addHeader m $"Proxy-Authorization"
        ($"Basic " ++ base64_encode (user ++ $":" ++ pass))
  | _, _ => Done m
  end.

(** What the reply's state and status code mean. *)
Definition reply_code (st : ResponseParserState) (m : ResponseMessage.HTTPResponseMessage)
  : HTTPProxyReturnCode :=
  match st with
  | RProtocolError => InvalidResponse
  | RParsingDone =>
      if bool_decide (ResponseMessage.getResponseCode m = Unauthorized)
      then ProxyAuthRequired
      else if bool_decide (ResponseMessage.getResponseCode m = Ok)
      then ConnectionSuccess else NoProxySupport
  | _ => InvalidResponse
  end.

(** Parsing the handler's buffer into a fresh response; enough fuel for any
    buffer. *)
Definition parse_reply (b : option IOBuffer)
  : res (ResponseParserState * ResponseMessage.HTTPResponseMessage) :=
  m ← ResponseMessage.create;
  b ← deref b;
  ResponseParser.ParseHTTP1_1ResponseMessage (Z.to_nat (getDataSize b) + 2) b
    ResponseProtocolH m.

Definition makeConnection (origin_server_hostname : bytes) (origin_server_port : Z)
    (proxy_username proxy_passphrase : option bytes)
  : io (HTTPProxyClient S * W) HTTPProxyReturnCode :=
  cw ← get;
  _ ← put (set_origin cw.1 origin_server_hostname origin_server_port
             proxy_username proxy_passphrase, cw.2);
  request ← lift (connect_request origin_server_hostname origin_server_port
                    proxy_username proxy_passphrase);
  data ← lift (RequestMessage.buildRawMessage request);
  write_ret ← handler (streamWrite data);
  if write_ret <? 0 then mret NetworkError else
  cw ← get;
  reply ← lift (parse_reply (constGetIOBuffer (network_handler_ cw.1)));
  let code := reply_code reply.1 reply.2 in
  _ ← (if bool_decide (code = ConnectionSuccess)
       then put (set_made cw.1 true, cw.2) else mret ());
  mret code.

(** [std::string{start, end}] of the handler's buffer. *)
Definition buffer_string (b : option IOBuffer) : res bytes :=
  b ← deref b; string_of_range b (getStartOffsetPointer b) (getEndOffsetPointer b).

Definition readProxy (read_length : Z) : io (HTTPProxyClient S * W) bytes :=
  cw ← get;
  if negb (proxy_connection_made_ cw.1) then throw runtime_error else
  ret ← handler (streamRead read_length);
  if ret <? 0 then mret [] else
  cw ← get;
  returner ← lift (buffer_string (constGetIOBuffer (network_handler_ cw.1)));
  let '(io_buffer, s) := getIOBuffer (network_handler_ cw.1) in
  b ← lift (deref io_buffer);
  _ ← put (set_handler cw.1 (setIOBuffer (Some (clear b)) s), cw.2);
  mret returner.

Definition writeProxy (data : bytes) : io (HTTPProxyClient S * W) Z :=
  cw ← get;
  if negb (proxy_connection_made_ cw.1) then throw runtime_error else
  handler (streamWrite data).

Definition getOriginServerHost (c : HTTPProxyClient S) : bytes := origin_server_hostname_ c.
Definition getOriginServerPort (c : HTTPProxyClient S) : res Z :=
  match origin_server_port_ c with Some p => Done p | None => Undefined Uninitialised end.
Definition connectedToProxy (c : HTTPProxyClient S) : bool := proxy_connection_made_ c.
Definition getProxyUsername (c : HTTPProxyClient S) : option bytes := proxy_username_ c.
Definition getProxyPassphrase (c : HTTPProxyClient S) : option bytes := proxy_passphrase_ c.
End client.

(** ** The CONNECT request *)
Definition connect_headers (host : bytes) (port : Z) (user pass : option bytes)
  : list (bytes * bytes) :=
  [($"Host", hostname_and_port host port); ($"User-Agent", $"blueth/http-client");
   ($"Proxy-Connection", $"Keep-Alive")]
  ++ match user, pass with
     | Some user, Some pass =>
         [($"Proxy-Authorization", $"Basic " ++ base64_encode (user ++ $":" ++ pass))]
     | _, _ => []
     end.

Definition connect_table host port user pass : HTTPHeaders.HTTPHeaders :=
  HTTPHeaders.addHeaders HTTPHeaders.empty_headers (connect_headers host port user pass).

Definition connect_text `{HTTPHeaders.HashOrder} host port user pass : bytes :=
  RequestParser.request_text $"CONNECT" (hostname_and_port host port) (chr 49) $"1"
    (HTTPHeaders.spaced <$> HTTPHeaders.hash_order
       (HTTPHeaders.http_headers_ (connect_table host port user pass))) [].

(** The request that is built. *)
Lemma connect_request_Done `{Allocator} host port user pass :
  (∀ n, alloc_ok n = true) →
  ∃ m, connect_request host port user pass = Done m
    ∧ RequestMessage.http_headers_ m = Some (connect_table host port user pass)
    ∧ RequestMessage.raw_body_ m = Some (new_buffer RequestMessage.initial_capacity_)
    ∧ RequestMessage.request_type_ m = Connect
    ∧ RequestMessage.target_resource_ m = hostname_and_port host port
    ∧ RequestMessage.http_message_version_ m = HTTP1_1.
Proof.
  intros Ha. unfold connect_request. rewrite RequestMessage.HTTPRequestMessage_new_Done by done.
  rewrite Done_bind. cbn zeta. unfold RequestMessage.addHeader. simpl.
  destruct user, pass; by eexists.
Qed.

Lemma connect_request_text `{Allocator} `{HTTPHeaders.HashOrder} host port user pass :
  (∀ n, alloc_ok n = true) →
  (m ← connect_request host port user pass; RequestMessage.buildRawMessage m)
  = Done (connect_text host port user pass).
Proof.
  intros Ha. assert (repr (new_buffer RequestMessage.initial_capacity_) []) as Hr.
  { apply new_buffer_repr. split; [discriminate|reflexivity]. }
  destruct (connect_request_Done host port user pass Ha) as (m&->&Hh&Hb&Ht&Hres&_).
  rewrite Done_bind.
  rewrite (RequestParser.buildRawMessage_text _ (connect_table host port user pass)
    (new_buffer RequestMessage.initial_capacity_) []) by done.
  by rewrite Ht, Hres.
Qed.

(** ** Making the connection *)
Section theorems.
Context `{Allocator} `{!HTTPHeaders.HashOrder} {W S : Type} `{!NetworkStream W S}.

Lemma handler_bind {A B} (m : io (S * W) A) (f : A → io (HTTPProxyClient S * W) B)
    c w a s w' :
  m (network_handler_ c, w) = (Done a, (s, w')) →
  (handler m ≫= f) (c, w) = f a (set_handler c s, w').
Proof. intros Hm. unfold handler, mbind, io_bind. by rewrite Hm. Qed.

Context `{!StreamContract W S}.

(** The run of [makeConnection] on an open stream. *)
Lemma makeConnection_run c w b host port user pass :
  (∀ n, alloc_ok n = true) → is_open (network_handler_ c) →
  constGetIOBuffer (network_handler_ c) = Some b →
  quiet (getWriteCallback (network_handler_ c)) →
  ∃ z w', streamWrite (connect_text host port user pass) (network_handler_ c, w)
          = (Done z, (network_handler_ c, w'))
    ∧ makeConnection host port user pass (c, w)
      = (if z <? 0 then mret NetworkError else
         cw ← get;
         reply ← lift (parse_reply (constGetIOBuffer (network_handler_ cw.1)));
         let code := reply_code reply.1 reply.2 in
         _ ← (if bool_decide (code = ConnectionSuccess)
              then put (set_made cw.1 true, cw.2) else mret ());
         mret code) (set_origin c host port user pass, w').
Proof.
  intros Ha Ho Hb Hq.
  destruct (write_keeps (connect_text host port user pass) _ w b Ho Hb Hq) as (z&w'&Hw).
  exists z, w'. split; [done|]. unfold makeConnection. rewrite get_bind, put_bind.
  pose proof (connect_request_text host port user pass Ha) as Ht.
  destruct (connect_request host port user pass) as [m| | | |]; try done.
  rewrite Done_bind in Ht. rewrite lift_Done_bind, Ht, lift_Done_bind.
  erewrite handler_bind by exact Hw. done.
Qed.

Lemma parse_reply_run b l :
  repr b l → (∀ n, alloc_ok n = true) →
  parse_reply (Some b) = ResponseParser.run (prev_read b) ResponseProtocolH
                           ResponseMessage.empty_message l.
Proof.
  intros Hr Ha. unfold parse_reply, ResponseMessage.create.
  rewrite ResponseMessage.HTTPResponseMessage_new_Done, !Done_bind by done.
  apply ResponseParser.response_Parse_run; [done|].
  rewrite (repr_datasize _ _ Hr). lia.
Qed.

(** The client gets its connection exactly on an accepted [200]. *)
Lemma reply_connects (st : ResponseParserState) (m : ResponseMessage.HTTPResponseMessage) :
  reply_code st m = ConnectionSuccess ↔
  st = RParsingDone ∧ ResponseMessage.response_code_ m = Ok.
Proof.
  unfold reply_code, ResponseMessage.getResponseCode. split.
  - destruct st; try done. by repeat case_bool_decide.
  - intros [-> ->]. done.
Qed.

(** What [makeConnection] answers, from the run of the parser on the buffer as
    it is when the request is sent. *)
Lemma makeConnection_connects c w b l host port user pass :
  (∀ n, alloc_ok n = true) → is_open (network_handler_ c) →
  quiet (getWriteCallback (network_handler_ c)) →
  constGetIOBuffer (network_handler_ c) = Some b → repr b l →
  (makeConnection host port user pass (c, w)).1 = Done ConnectionSuccess ↔
  (∃ z w', streamWrite (connect_text host port user pass) (network_handler_ c, w)
           = (Done z, (network_handler_ c, w')) ∧ 0 <= z)
  ∧ ∃ m, ResponseParser.run (prev_read b) ResponseProtocolH
           ResponseMessage.empty_message l = Done (RParsingDone, m)
         ∧ ResponseMessage.response_code_ m = Ok.
Proof.
  intros Ha Ho Hq Hb Hr.
  destruct (makeConnection_run c w b host port user pass) as (z&w'&Hw&->); [done..|].
  destruct (Z.ltb_spec z 0) as [Hz|Hz].
  { split; [done|]. intros [(z'&w''&Hw'&Hz') _]. rewrite Hw in Hw'. simplify_eq. lia. }
  rewrite get_bind. simpl network_handler_. rewrite Hb, (parse_reply_run b l Hr Ha).
  destruct (ResponseParser.run _ _ _ l) as [[st m]| | | |] eqn:Hrun;
    [|by (split; [done|intros [_ (?&?&_)]])..].
  rewrite lift_Done_bind. cbn [fst snd]. transitivity (reply_code st m = ConnectionSuccess).
  - case_bool_decide as Hc; [by rewrite Hc|]. split; [|done]. by intros [= ?].
  - rewrite reply_connects. split.
    + intros [-> Hcode]. split; [by eexists _, _|by exists m].
    + intros [_ (m'&[= -> ->]&Hcode)]. done.
Qed.

(** The parser on no input stops before the first character. *)
Theorem makeConnection_reads_nothing c w b host port user pass :
  (∀ n, alloc_ok n = true) → is_open (network_handler_ c) →
  quiet (getWriteCallback (network_handler_ c)) →
  constGetIOBuffer (network_handler_ c) = Some b → repr b [] →
  (makeConnection host port user pass (c, w)).1 ≠ Done ConnectionSuccess.
Proof.
  intros Ha Ho Hq Hb Hr.
  rewrite (makeConnection_connects c w b [] _ _ _ _ Ha Ho Hq Hb Hr).
  by intros [_ (m&[=]&_)].
Qed.

(** C38: [makeConnection] makes a connection if and only if its request could be
    written and the buffer already held, in one way only, a response of the
    grammar with status 200 on which the parser is done; any other status, the rest
    of the 2xx that the documentation names among them, is none. Nothing is read
    from the stream: with an empty buffer, as after connecting, there is no such
    response and the client never gets a connection. *)
Theorem makeConnection_success_iff c w b l host port user pass :
  (∀ n, alloc_ok n = true) → is_open (network_handler_ c) →
  quiet (getWriteCallback (network_handler_ c)) →
  constGetIOBuffer (network_handler_ c) = Some b → repr b l →
  ResponseMessage.initial_capacity_ + Z.of_nat (length l) < size_max →
  (makeConnection host port user pass (c, w)).1 = Done ConnectionSuccess ↔
  (∃ z w', streamWrite (connect_text host port user pass) (network_handler_ c, w)
           = (Done z, (network_handler_ c, w')) ∧ 0 <= z)
  ∧ exists! r, l = ResponseGrammar.response_parts_text r
      ∧ ResponseGrammar.response_parts_ok r
      ∧ ResponseGrammar.code_of_text (ResponseGrammar.code_part r) = Some Ok
      ∧ RParsingDone = ResponseGrammar.end_state HTTPHeaders.empty_headers r.
Proof.
  intros Ha Ho Hq Hb Hr Hmax.
  rewrite (makeConnection_connects c w b l _ _ _ _ Ha Ho Hq Hb Hr).
  rewrite (ResponseGrammar.run_accepts_iff (prev_read b) ResponseMessage.empty_message
    HTTPHeaders.empty_headers (new_buffer ResponseMessage.initial_capacity_)
    l RParsingDone Ok); [done| | | |done|done|by left].
  - exact ResponseParser.response_empty_message_fresh.
  - done.
  - exact ResponseParser.response_empty_body_repr.
Qed.

(** The code for a reply that is in the buffer. *)
Definition status_code (c : HTTPResponseCodes) : HTTPProxyReturnCode :=
  if bool_decide (c = Unauthorized) then ProxyAuthRequired
  else if bool_decide (c = Ok) then ConnectionSuccess else NoProxySupport.

(** When the buffer holds a reply, its status decides: 200 makes the
    connection, 401 asks for credentials, everything else, 407 included, is
    reported as a proxy without support for CONNECT. A reply with a
    [Content-Length] and no body is reported as invalid. *)
Theorem makeConnection_reply c w b host port user pass minor d1 d2 d3 more phrase raws :
  (∀ n, alloc_ok n = true) → is_open (network_handler_ c) →
  quiet (getWriteCallback (network_handler_ c)) →
  constGetIOBuffer (network_handler_ c) = Some b →
  repr b (ResponseParser.response_text minor (d1 :: d2 :: d3 :: more) phrase raws []) →
  forallb is_digit minor = true → forallb is_digit (d1 :: d2 :: d3 :: more) = true →
  forallb is_text phrase = true → Forall ResponseParser.header_ok raws →
  ∃ z w', streamWrite (connect_text host port user pass) (network_handler_ c, w)
          = (Done z, (network_handler_ c, w'))
    ∧ let code := if z <? 0 then NetworkError
                  else if HTTPHeaders.headerContains
                            (HTTPHeaders.addHeaders HTTPHeaders.empty_headers
                               (ResponseParser.stored <$> raws)) $"Content-Length"
                  then InvalidResponse
                  else status_code (code_of_int (ResponseParser.code_value d1 d2 d3)) in
      let c' := set_origin c host port user pass in
      makeConnection host port user pass (c, w)
      = (Done code,
         (if bool_decide (code = ConnectionSuccess) then set_made c' true else c', w')).
Proof.
  intros Ha Ho Hq Hb Hr Hmin Hcode Hph Hraws.
  destruct (makeConnection_run c w b host port user pass) as (z&w'&Hw&->); [done..|].
  exists z, w'. split; [done|]. cbn zeta. destruct (z <? 0); [done|].
  rewrite get_bind. simpl network_handler_. rewrite Hb, (parse_reply_run b _ Hr Ha).
  rewrite (ResponseParser.run_response _ _ HTTPHeaders.empty_headers)
    by first [done|repeat constructor].
  unfold ResponseParser.body_state.
  destruct (HTTPHeaders.headerContains _ _); [done|].
  cbn [ResponseParser.run]. rewrite lift_Done_bind. cbn [fst snd reply_code].
  unfold status_code. simpl ResponseMessage.getResponseCode.
  repeat case_bool_decide; done.
Qed.

(** ** The tunnel *)
(** Without a connection nothing is read or written. *)
Theorem proxy_needs_connection (c : HTTPProxyClient S) (w : W) n data :
  connectedToProxy c = false →
  readProxy n (c, w) = (Throw runtime_error, (c, w))
  ∧ writeProxy data (c, w) = (Throw runtime_error, (c, w)).
Proof.
  intros Hc. unfold connectedToProxy in Hc. unfold readProxy, writeProxy.
  rewrite !get_bind. simpl. by rewrite Hc.
Qed.

(** A read through the tunnel is a read of the stream, which gives [z]. When that
    is an error the empty string is returned and the buffer is as it was; else
    what was in the buffer and then the new bytes, and the buffer is left empty. *)
Definition delivers (n : Z) (c : HTTPProxyClient S) (w : W) (l : bytes) : Prop :=
  ∃ z s' w' d c' b', streamRead n (network_handler_ c, w) = (Done z, (s', w'))
    ∧ readProxy n (c, w) = (Done (if z <? 0 then [] else l ++ d), (c', w'))
    ∧ (if z <? 0 then d = [] else Z.of_nat (length d) = z ∧ z <= n)
    ∧ constGetIOBuffer (network_handler_ c') = Some b'
    ∧ repr b' (if z <? 0 then l else [])
    ∧ connectedToProxy c' = true ∧ is_open (network_handler_ c').

Lemma readProxy_run c w b l n :
  (∀ k, alloc_ok k = true) → is_open (network_handler_ c) →
  quiet (getReadCallback (network_handler_ c)) →
  constGetIOBuffer (network_handler_ c) = Some b → repr b l →
  connectedToProxy c = true → 0 < n < 2 ^ 31 → capacity_ b + n < size_max →
  delivers n c w l.
Proof.
  intros Ha Ho Hq Hb Hr Hc Hn Hmax.
  destruct (read_appends n (network_handler_ c) w b l)
    as (z&s'&w'&b'&d&Hrun&Hb'&Hr'&Ho'&_&_&_&Hd); [done..|].
  exists z, s', w', d.
  unfold readProxy. rewrite get_bind. cbn [fst snd]. unfold connectedToProxy in Hc.
  rewrite Hc. cbn [negb]. erewrite handler_bind by exact Hrun. destruct (z <? 0).
  { subst d. rewrite app_nil_r in Hr'. eexists _, b'. by split_and!. }
  rewrite get_bind. cbn [fst snd network_handler_ set_handler]. rewrite Hb'.
  unfold buffer_string. simpl deref. rewrite Done_bind, (repr_string _ _ Hr'), lift_Done_bind.
  destruct (get_moves s' b' Hb') as (Hg1&Hg2&Hg3&_).
  destruct (getIOBuffer s') as [io s'']. simpl in Hg1, Hg2, Hg3. subst io.
  simpl deref. rewrite lift_Done_bind, put_bind.
  destruct (set_get (Some (clear b')) s'') as (Hs1&Hs2&_).
  eexists _, (clear b'). split; [done|]. split; [done|]. split; [done|]. simpl.
  rewrite Hs1, Hs2, Hg3. split; [done|]. split; [by eapply clear_repr|done].
Qed.

(** A read through the tunnel, on every outcome. *)
Theorem readProxy_spec c w b l n :
  (∀ k, alloc_ok k = true) → is_open (network_handler_ c) →
  quiet (getReadCallback (network_handler_ c)) →
  constGetIOBuffer (network_handler_ c) = Some b → repr b l →
  connectedToProxy c = true → 0 < n < 2 ^ 31 → capacity_ b + n < size_max →
  delivers n c w l.
Proof. apply readProxy_run. Qed.

(** C39: A connection that was made leaves the proxy's reply [l] in the buffer, and
    the tunnel delivers it as data of the origin server: the first read returns
    the whole reply followed by the bytes that the stream gave, if the stream
    gives any, and the empty string exactly when the stream reports an error; the
    reply is then still there for the next read. *)
Theorem tunnel_delivers_reply c w b l host port user pass c' w' n :
  (∀ k, alloc_ok k = true) → is_open (network_handler_ c) →
  quiet (getWriteCallback (network_handler_ c)) →
  quiet (getReadCallback (network_handler_ c)) →
  constGetIOBuffer (network_handler_ c) = Some b → repr b l →
  0 < n < 2 ^ 31 → capacity_ b + n < size_max →
  makeConnection host port user pass (c, w) = (Done ConnectionSuccess, (c', w')) →
  l ≠ [] ∧ network_handler_ c' = network_handler_ c ∧ delivers n c' w' l.
Proof.
  intros Ha Ho Hqw Hqr Hb Hr Hn Hmax Hmake.
  destruct (makeConnection_run c w b host port user pass) as (z&w1&_&Hrun); [done..|].
  rewrite Hrun in Hmake. destruct (z <? 0); [done|].
  rewrite get_bind in Hmake. simpl network_handler_ in Hmake.
  rewrite Hb, (parse_reply_run b l Hr Ha) in Hmake.
  destruct (ResponseParser.run _ _ _ l) as [[st m]| | | |] eqn:Hparse; try done.
  rewrite lift_Done_bind in Hmake. cbn [fst snd] in Hmake. cbn zeta in Hmake.
  case_bool_decide as Hcode; [|by rewrite mret_bind in Hmake; injection Hmake].
  rewrite put_bind in Hmake. injection Hmake as _ <- <-. split.
  { intros ->. simpl in Hparse. by simplify_eq. }
  split; [done|]. by apply (readProxy_run _ _ b).
Qed.
End theorems.

(** The credentials in the request are the base64 of user and passphrase, and
    are sent only when both are given. *)
Theorem connect_credentials `{Allocator} host port user pass :
  (∀ n, alloc_ok n = true) → Z.of_nat (length user + length pass) < 2 ^ 59 →
  (∃ m e, connect_request host port (Some user) (Some pass) = Done m
     ∧ RequestMessage.getHeaderValue m $"Proxy-Authorization" = Done (Some ($"Basic " ++ e))
     ∧ b64decode (init e) (Z.of_nat (length e)) = Done (user ++ $":" ++ pass))
  ∧ ∀ u p, ∃ m, connect_request host port u p = Done m
     ∧ RequestMessage.getHeaderValue m $"Host" = Done (Some (hostname_and_port host port))
     ∧ (u = None ∨ p = None →
          RequestMessage.getHeaderValue m $"Proxy-Authorization" = Done None).
Proof.
  intros Ha Hmax. unfold RequestMessage.getHeaderValue. split; [|intros u p].
  - destruct (connect_request_Done host port (Some user) (Some pass) Ha) as (m&->&Hh&_).
    exists m, (base64_encode (user ++ $":" ++ pass)). split; [done|].
    rewrite Hh. simpl deref. rewrite Done_bind, HTTPHeaders.getHeaderValue_lookup.
    unfold connect_table. rewrite HTTPHeaders.addHeaders_lookup. split; [done|].
    apply base64_decode_encode. rewrite !length_app. simpl. lia.
  - destruct (connect_request_Done host port u p Ha) as (m&->&Hh&_).
    exists m. split; [done|]. rewrite Hh. simpl deref.
    rewrite !Done_bind, !HTTPHeaders.getHeaderValue_lookup. unfold connect_table.
    rewrite !HTTPHeaders.addHeaders_lookup. split; [done|].
    intros Hup. destruct u, p; try done. by destruct Hup.
Qed.

(** ** Concrete runs

    Over the plain client and the concrete system. *)
#[local] Existing Instance total_alloc.
#[local] Existing Instance HTTPHeaders.map_to_list_order.
#[local] Existing Instance loop_system.
#[local] Existing Instance loop_laws.
#[local] Existing Instance plain_stream.
#[local] Existing Instance plain_contract.

Lemma total_alloc_ok n : alloc_ok n = true.
Proof. reflexivity. Qed.

(** A proxy client whose stream is connected and has [l] in its buffer. *)
Definition proxy_with (l : bytes) (made : bool)
  : HTTPProxyClient (SyncClient loop_world) :=
  set_made (HTTPProxyClient_new (set_buffer connected_client (Some (buffer_of l)))) made.

Lemma connected_buffer_repr : repr (new_buffer default_io_buffer_size) [].
Proof. apply new_buffer_repr. split; [discriminate|reflexivity]. Qed.

Example connected_client_gets_no_connection :
  (makeConnection $"example.org" 443 None None
     (HTTPProxyClient_new connected_client, peer)).1 ≠ Done ConnectionSuccess.
Proof.
  apply (makeConnection_reads_nothing (HTTPProxyClient_new connected_client) peer
    (new_buffer default_io_buffer_size)); [done|done| |done|exact connected_buffer_repr].
  intros b w. by exists w.
Qed.

Definition reply_headers : list (bytes * bytes) := [($"Via", $" p")].
Definition reply_text (code phrase : bytes) : bytes :=
  ResponseParser.response_text $"1" code phrase reply_headers [].

Lemma reply_headers_ok : Forall ResponseParser.header_ok reply_headers.
Proof. repeat constructor; by vm_compute. Qed.

(** A reply that was in the buffer already, with a name that has no colon before
    the blank line. *)
Definition early_reply : ResponseGrammar.response_parts :=
  ResponseGrammar.mkResponseParts $"1" $"200" $"OK" reply_headers $"X" $"tunnel".

Lemma makeConnection_success_iff_witness :
  (makeConnection $"example.org" 443 None None
     (proxy_with (ResponseGrammar.response_parts_text early_reply) false, peer)).1
  = Done ConnectionSuccess.
Proof.
  apply (makeConnection_success_iff
    (proxy_with (ResponseGrammar.response_parts_text early_reply) false) peer
    (buffer_of (ResponseGrammar.response_parts_text early_reply))
    (ResponseGrammar.response_parts_text early_reply)).
  - exact total_alloc_ok.
  - reflexivity.
  - intros b w. exists w. reflexivity.
  - reflexivity.
  - apply buffer_of_repr. reflexivity.
  - reflexivity.
  - split.
    + eexists _, _. split; [vm_compute; reflexivity|done].
    + assert (ResponseGrammar.response_parts_ok early_reply) as Hok by repeat constructor.
      exists early_reply.
      split; [split; [reflexivity|]; split; [exact Hok|split; reflexivity]|].
      intros r (Hl&Hok2&_). by apply ResponseGrammar.response_parts_text_inj.
Defined.

(** A proxy that asks for credentials with 407 ([ProxyAuthenticationRequired]). *)
Lemma makeConnection_reply_witness :
  ∃ s, makeConnection $"example.org" 443 None None
         (proxy_with (reply_text $"407" $"Authenticate") false, peer)
       = (Done NoProxySupport, s).
Proof.
  destruct (makeConnection_reply (proxy_with (reply_text $"407" $"Authenticate") false) peer
    (buffer_of (reply_text $"407" $"Authenticate")) $"example.org" 443 None None
    $"1" (chr 52) (chr 48) (chr 55) [] $"Authenticate" reply_headers) as (z&w'&Hw&Hrun).
  - exact total_alloc_ok.
  - reflexivity.
  - intros b w. exists w. reflexivity.
  - reflexivity.
  - apply buffer_of_repr. reflexivity.
  - reflexivity.
  - reflexivity.
  - reflexivity.
  - exact reply_headers_ok.
  - vm_compute in Hw. injection Hw as <- <-. eexists. exact Hrun.
Defined.

Lemma readProxy_spec_witness : delivers 100 (proxy_with $"old " true) peer $"old ".
Proof.
  apply (readProxy_spec (proxy_with $"old " true) peer (buffer_of $"old ")).
  - exact total_alloc_ok.
  - reflexivity.
  - intros b w. exists w. reflexivity.
  - reflexivity.
  - apply buffer_of_repr. reflexivity.
  - reflexivity.
  - split; reflexivity.
  - reflexivity.
Defined.

(** The reply of the proxy is read as data of the origin server, with the bytes
    the peer sent. *)
Lemma tunnel_delivers_reply_witness :
  let l := reply_text $"200" $"OK" in
  ∃ c' w' c'' w'',
    makeConnection $"example.org" 443 None None (proxy_with l false, peer)
    = (Done ConnectionSuccess, (c', w'))
    ∧ readProxy 5 (c', w') = (Done (l ++ $"hello"), (c'', w'')).
Proof.
  intros l.
  destruct (makeConnection $"example.org" 443 None None (proxy_with l false, peer))
    as [r0 [c' w']] eqn:Hmake.
  pose proof Hmake as Hrun. vm_compute in Hrun. injection Hrun as Hr0 Hc' Hw'. subst r0.
  destruct (tunnel_delivers_reply (proxy_with l false) peer (buffer_of l) l
    $"example.org" 443 None None c' w' 5) as (_&_&z&s'&w''&d&c''&b'&Hs&Hread&Hd&_).
  - exact total_alloc_ok.
  - reflexivity.
  - intros b w. exists w. reflexivity.
  - intros b w. exists w. reflexivity.
  - reflexivity.
  - apply buffer_of_repr. reflexivity.
  - split; reflexivity.
  - reflexivity.
  - exact Hmake.
  - exists c', w', c'', w''. split; [reflexivity|]. rewrite Hread.
    f_equal. f_equal.
    pose proof (f_equal fst Hread) as Hres. subst c' w'. vm_compute in Hres.
    injection Hres as Hres. vm_compute. symmetry. exact Hres.
Defined.

Lemma connect_credentials_witness :
  ∃ m e, connect_request $"example.org" 443 (Some $"user") (Some $"pass") = Done m
    ∧ RequestMessage.getHeaderValue m $"Proxy-Authorization" = Done (Some ($"Basic " ++ e))
    ∧ b64decode (init e) (Z.of_nat (length e)) = Done $"user:pass".
Proof.
  exact (proj1 (connect_credentials $"example.org" 443 $"user" $"pass" total_alloc_ok eq_refl)).
Defined.
