(* ===== verification/Socket.v ===== *)
(** * Sockets and name resolution (blueth/net/Socket.hpp, TransportHelpers.hpp,
    NetUtils.hpp)

    The server-side socket class over the calls of the C library, the helpers
    that end the program when a call fails, and the lookup of an IPv4 address.
    Methods run on a state [S * W], so that the event loop uses them on its own. *)
From Stdlib Require Import ZArith Lia Ascii String.
From stdpp Require Import base list strings.
From S2P Require Import Prelude IOBuffer NetworkStream SyncStream.
Local Open Scope Z_scope.

Inductive Domain := Unix | Ipv4 | Ipv6.
Inductive SockType := Stream | Datagram.
Inductive SockOptLevel := SocketLevel | TcpLevel.
Inductive SocketOptions := ReuseAddress | ReusePort | TcpNoDelay.

(** The constants of the C library behind the enumerators. *)
Definition domain_value (d : Domain) : Z :=
  match d with Unix => 1 | Ipv4 => 2 | Ipv6 => 10 end.
Definition level_value (l : SockOptLevel) : Z :=
  match l with SocketLevel => 1 | TcpLevel => 6 end.
Definition option_value (o : SocketOptions) : Z :=
  match o with ReuseAddress => 2 | ReusePort => 15 | TcpNoDelay => 1 end.
Definition O_NONBLOCK : Z := 2048.

(** [sockaddr_in]: 16 bytes. *)
Record sockaddr_in := mkSockaddr { sin_family : Z; sin_port : Z; sin_addr : Z }.
Definition sizeof_sockaddr_in : Z := 16.

(** [htons]: the bytes of a 16-bit value in network order. *)
Definition htons (p : Z) : Z := Z.lor (Z.shiftl (Z.land p 255) 8) (Z.shiftr p 8).

(** The calls, besides those of the clients. [accept] also gives the address of
    the peer and its length; [parsed_address] is the address [inet_pton] stores
    when it returns 1. *)
Class SocketSystem (W : Type) := {
  parsed_address : bytes → Z;
  bind : Z → sockaddr_in → W → Z * W;
  listen : Z → Z → W → Z * W;
  accept : Z → W → (Z * (sockaddr_in * Z)) * W;
  setsockopt : Z → Z → Z → W → Z * W;
  fcntl_getfl : Z → W → Z * W;
  fcntl_setfl : Z → Z → W → Z * W
}.

(** The class; a member is [None] while it is indeterminate. *)
Record Socket := mkSocket {
  _IP_addr : bytes;
  _port : Z;
  _endpoint_backlog : Z;
  _domain : option Domain;
  _file_des : Z;
  _sock_type : option SockType;
  _socket_sockaddr : option sockaddr_in;
  _endpoint_sockaddr_len : Z
}.

Definition Socket_default : Socket := mkSocket [] 0 0 None 0 None None 0.

Section sockets.
Context {W : Type} `{System W} `{SocketSystem W} {S : Type}.

(** *** [TransportHelpers]: a failure ends the program. *)
Definition err_check (returner : Z) : io (S * W) () :=
  if returner <? 0 then lift Terminate else mret ().

Definition read_data (net_fd : Z) (read_buffer : list (option ascii)) (read_buffer_size : Z)
    : io (S * W) (list (option ascii)) :=
  got ← sys (recv net_fd read_buffer_size);
  match got with
  | RecvError c => _ ← err_check (to_int32 c); mret read_buffer
  | Received d =>
      m ← lift (mem_write read_buffer 0 (init d));
      _ ← err_check (to_int32 (Z.of_nat (length d)));
      mret m
  end.

Definition write_data (new_fd : Z) (buffer : list (option ascii)) (buffer_size : Z)
    : io (S * W) () :=
  cells ← lift (mem_slice buffer 0 buffer_size);
  data ← lift (cells_chars cells);
  send_ret ← sys (send new_fd data);
  err_check (to_int32 send_ret).

Definition close_connection (client_fd : Z) : io (S * W) () :=
  close_ret ← sys (close client_fd);
  err_check close_ret.

(** *** The class *)
Definition m_create_socket (IP_addr : bytes) (port backlog : Z) (domain : Domain)
    (socket_type : SockType) : io (S * W) Socket :=
  ok ← sys (inet_pton IP_addr);
  let addr := mkSockaddr (domain_value domain) (htons port)
                (if ok =? 1 then parsed_address IP_addr else 0) in
  file_des ← sys socket;
  _ ← err_check file_des;
  mret (mkSocket IP_addr port backlog (Some domain) file_des (Some socket_type) (Some addr)
          sizeof_sockaddr_in).

Definition Socket_new (IP_addr : bytes) (port backlog : Z) (communication_domain : Domain)
    (socket_type : SockType) : io (S * W) Socket :=
  m_create_socket IP_addr port backlog communication_domain socket_type.

Definition m_listen_socket (s : Socket) : io (S * W) () :=
  ret_code ← sys (listen (_file_des s) (_endpoint_backlog s));
  err_check ret_code.

Definition read_sockaddr (s : Socket) : res sockaddr_in :=
  match _socket_sockaddr s with Some a => Done a | None => Undefined Uninitialised end.

Definition bindSock (s : Socket) : io (S * W) () :=
  addr ← lift (read_sockaddr s);
  ret_code ← sys (bind (_file_des s) addr);
  _ ← err_check ret_code;
  m_listen_socket s.

(** [accept] writes the peer's address over the socket's own. *)
Definition acceptOnce (s : Socket) : io (S * W) (Z * Socket) :=
  got ← sys (accept (_file_des s));
  let '(fd, (addr, len)) := got in
  if fd <? 0 then mret (fd, s)
  else mret (fd, mkSocket (_IP_addr s) (_port s) (_endpoint_backlog s) (_domain s) (_file_des s)
                   (_sock_type s) (Some addr) len).

Definition setSocketOption (s : Socket) (sock_level : SockOptLevel) (sock_opt : SocketOptions)
    : io (S * W) () :=
  ret_code ← sys (setsockopt (_file_des s) (level_value sock_level) (option_value sock_opt));
  err_check ret_code.

Definition readBuffer (s : Socket) (read_buffer : list (option ascii)) (max_read_buff : Z)
    : io (S * W) (list (option ascii)) :=
  read_data (_file_des s) read_buffer max_read_buff.

Definition writeBuffer (s : Socket) (write_buffer : list (option ascii)) (write_size : Z)
    : io (S * W) () :=
  write_data (_file_des s) write_buffer write_size.

Definition getIP (s : Socket) : bytes := _IP_addr s.
Definition getPort (s : Socket) : Z := _port s.
Definition getSocketBacklog (s : Socket) : Z := _endpoint_backlog s.
Definition getSocketDomain (s : Socket) : res Domain :=
  match _domain s with Some d => Done d | None => Undefined Uninitialised end.
Definition socket_descriptor (s : Socket) : Z := _file_des s.

(** The free function, and the method. *)
Definition make_nonblocking (socket : Z) : io (S * W) () :=
  flags ← sys (fcntl_getfl socket);
  if flags =? -1 then throw runtime_error else
  ret ← sys (fcntl_setfl socket (Z.lor flags O_NONBLOCK));
  if ret =? -1 then throw runtime_error else mret ().
Definition makeSocketNonBlocking (s : Socket) : io (S * W) () := make_nonblocking (_file_des s).

Definition Socket_destroy (s : Socket) : io (S * W) () :=
  _ ← sys (close (_file_des s)); mret ().

(** [std::swap] reads both members. *)
Definition swap_member {A} (a b : option A) : res (option A * option A) :=
  match a, b with
  | Some _, Some _ => Done (b, a)
  | _, _ => Undefined Uninitialised
  end.

(** The swaps of the move assignment, and of the move constructor, which start
    from members that are not initialised. *)
Definition swap_sockets (s tcp_endpoint : Socket) : res (Socket * Socket) :=
  '(d1, d2) ← swap_member (_domain s) (_domain tcp_endpoint);
  '(t1, t2) ← swap_member (_sock_type s) (_sock_type tcp_endpoint);
  '(a1, a2) ← swap_member (_socket_sockaddr s) (_socket_sockaddr tcp_endpoint);
  Done (mkSocket (_IP_addr tcp_endpoint) (_port tcp_endpoint) (_endpoint_backlog tcp_endpoint)
          d1 (_file_des tcp_endpoint) t1 a1 (_endpoint_sockaddr_len tcp_endpoint),
        mkSocket (_IP_addr s) (_port s) (_endpoint_backlog s)
          d2 (_file_des s) t2 a2 (_endpoint_sockaddr_len s)).
Definition move_assign (s tcp_endpoint : Socket) : res (Socket * Socket) :=
  swap_sockets s tcp_endpoint.
Definition move_construct (tcp_endpoint : Socket) : res (Socket * Socket) :=
  swap_sockets Socket_default tcp_endpoint.
End sockets.

(** *** What the class does *)
Section socket_theory.
Context {W : Type} `{System W} `{SocketSystem W} {S : Type}.

(** A socket made by the constructor has every member initialised. *)
Definition initialised (s : Socket) : Prop :=
  is_Some (_domain s) ∧ is_Some (_sock_type s) ∧ is_Some (_socket_sockaddr s).

Lemma Socket_new_spec ip port backlog d t (s : S) w :
  match Socket_new ip port backlog d t (s, w) with
  | (Done sk, (s', _)) => s' = s ∧ initialised sk ∧ 0 <= socket_descriptor sk
      ∧ getIP sk = ip ∧ getPort sk = port ∧ getSocketBacklog sk = backlog
      ∧ getSocketDomain sk = Done d
  | (r, (s', _)) => s' = s ∧ r = Terminate
  end.
Proof.
  unfold Socket_new, m_create_socket, err_check, sys, mbind, io_bind.
  destruct (inet_pton ip w) as [ok w1]. destruct (socket w1) as [fd w2].
  destruct (Z.ltb_spec fd 0); simpl; [done|].
  split_and!; try done.
Qed.

Lemma swap_sockets_initialised s t :
  initialised s → initialised t → swap_sockets s t = Done (t, s).
Proof.
  destruct s, t. intros ([]&[]&[]) ([]&[]&[]). by simplify_eq/=.
Qed.

(** Moving from a socket reads members the new one has not set; a socket made by
    default closes descriptor 0 when it is destroyed. *)
Lemma move_construct_uninitialised s : move_construct s = Undefined Uninitialised.
Proof. done. Qed.

Lemma Socket_default_destroy (s : S) w :
  (Socket_destroy Socket_default (s, w)).2 = (s, (close 0 w).2).
Proof. unfold Socket_destroy, sys, mbind, io_bind. simpl. by destruct (close 0 w). Qed.

(** After a connection is accepted the address in the socket is the peer's. *)
Lemma acceptOnce_address s (st : S) w fd addr len w' :
  accept (_file_des s) w = ((fd, (addr, len)), w') → 0 <= fd →
  ∃ s', acceptOnce s (st, w) = (Done (fd, s'), (st, w')) ∧ _socket_sockaddr s' = Some addr
    ∧ _file_des s' = _file_des s.
Proof.
  intros Ha Hfd. unfold acceptOnce, sys, mbind, io_bind. rewrite Ha. simpl.
  rewrite (proj2 (Z.ltb_ge fd 0)) by lia. by eexists.
Qed.
End socket_theory.

(** ** [DnsResolveIPv4FromName] *)
Module NetUtils.

(** An entry of the list of [getaddrinfo]: family, and the address when it is
    IPv4. *)
Record addrinfo := mkAddrinfo { ai_family : Z; ipv4_addr : Z }.
Definition AF_INET : Z := 2.

(** The hints: the family and the type are set, the rest of the structure is
    what the stack happens to hold. *)
Record hints := mkHints { hint_family : Z; hint_socktype : Z; hint_rest : list Z }.

Class Resolver (W : Type) := {
  getaddrinfo : bytes → hints → W → (Z * list addrinfo) * W;
  inet_ntop : Z → bytes
}.

(** [inet_ntop] writes dotted decimal text, at most 15 characters. *)
Class ResolverLaws (W : Type) `{Resolver W} := {
  inet_ntop_length a : (length (inet_ntop a) <= 15)%nat;
  inet_ntop_text a : chr 0 ∉ inet_ntop a
}.

Section resolve.
Context {W : Type} `{Resolver W} {S : Type}.

Definition INET_ADDRSTRLEN : Z := 16.

(** A string written with its terminator; a C string read back. *)
Definition write_cstring (m : list (option ascii)) (s : bytes) : res (list (option ascii)) :=
  mem_write m 0 (init (s ++ [chr 0])).
Fixpoint read_cstring (m : list (option ascii)) : res bytes :=
  match m with
  | [] => Undefined OutOfBounds
  | None :: _ => Undefined Uninitialised
  | Some c :: m => if bool_decide (c = chr 0) then Done [] else cs ← read_cstring m; Done (c :: cs)
  end.

(** The walk over the list. *)
Fixpoint last_ipv4 (temp : list addrinfo) (ipv4_buffer : list (option ascii))
    : res (list (option ascii)) :=
  match temp with
  | [] => Done ipv4_buffer
  | a :: temp =>
      if ai_family a =? AF_INET then
        ipv4_buffer ← write_cstring ipv4_buffer (inet_ntop (ipv4_addr a));
        last_ipv4 temp ipv4_buffer
      else last_ipv4 temp ipv4_buffer
  end.

Definition DnsResolveIPv4FromName (stack : list Z) (dest_ip : bytes) (protocol : StreamProtocol)
    : io (S * W) bytes :=
  let h := mkHints 0 (match protocol with TCP => 1 | UDP => 2 end) stack in
  got ← sys (getaddrinfo dest_ip h);
  let '(status, results) := got in
  if negb (status =? 0) then throw runtime_error else
  ipv4_buffer ← lift (last_ipv4 results (replicate (Z.to_nat INET_ADDRSTRLEN) (Some (chr 0))));
  lift (read_cstring ipv4_buffer).

Lemma read_cstring_text s rest :
  chr 0 ∉ s → read_cstring (init (s ++ [chr 0]) ++ rest) = Done s.
Proof.
  induction s as [|c s IH]; intros Hs; [done|]. apply not_elem_of_cons in Hs as [Hc Hs].
  change (init ((c :: s) ++ [chr 0]) ++ rest) with (Some c :: (init (s ++ [chr 0]) ++ rest)).
  simpl. rewrite bool_decide_eq_false_2 by congruence. by rewrite IH.
Qed.

(** The text of the last IPv4 entry, if there is one. *)
Definition ipv4_texts `{Resolver W} (l : list addrinfo) : list bytes :=
  (λ a, inet_ntop (ipv4_addr a)) <$> filter (λ a, ai_family a = AF_INET) l.

Lemma last_ipv4_spec `{!ResolverLaws W} l : ∀ t rest,
  chr 0 ∉ t → length (init (t ++ [chr 0]) ++ rest) = 16%nat →
  ∃ m, last_ipv4 l (init (t ++ [chr 0]) ++ rest) = Done m
    ∧ read_cstring m = Done (default t (last (ipv4_texts l))).
Proof.
  induction l as [|a l IH]; intros t rest Ht Hlen; simpl.
  { eexists. split; [done|]. by apply read_cstring_text. }
  unfold ipv4_texts. rewrite filter_cons. destruct (Z.eqb_spec (ai_family a) AF_INET) as [Ha|Ha].
  - rewrite decide_True by done. set (u := inet_ntop (ipv4_addr a)).
    pose proof (inet_ntop_length (ipv4_addr a)) as Hu. fold u in Hu.
    unfold write_cstring.
    set (m := init (t ++ [chr 0]) ++ rest) in *.
    pose proof (mem_write_app [] (take (length u + 1) m) (drop (length u + 1) m) (init (u ++ [chr 0])))
      as Hw. change (Z.of_nat (length [])) with 0 in Hw. simpl in Hw. rewrite take_drop in Hw.
    rewrite Hw by (rewrite length_take, length_init, length_app; simpl; lia). simpl.
    destruct (IH u (drop (length u + 1) m)) as (m' & Hm' & Hr); [apply inet_ntop_text| |].
    { rewrite !length_app, length_init, length_app, length_drop. simpl. lia. }
    exists m'. split; [done|]. rewrite Hr. f_equal. fold (ipv4_texts l). fold u.
    change (list_fmap _ _ _ _) with (ipv4_texts l).
    destruct (ipv4_texts l) as [|x xs] eqn:Hx; [done|]. rewrite last_cons_cons.
    by destruct (last (x :: xs)) eqn:Hq; [|apply last_None in Hq].
  - rewrite decide_False by done. by apply IH.
Qed.

(** The address found is the last IPv4 one of the list, the empty string when
    there is none; a failure of the lookup throws. *)
Lemma dns_last_ipv4 `{!ResolverLaws W} stack name p (s : S) w status results w' :
  getaddrinfo name (mkHints 0 (match p with TCP => 1 | UDP => 2 end) stack) w
    = ((status, results), w') →
  DnsResolveIPv4FromName stack name p (s, w)
  = ((if status =? 0 then Done (default [] (last (ipv4_texts results)))
      else Throw runtime_error), (s, w')).
Proof.
  intros Hg. unfold DnsResolveIPv4FromName, sys, mbind, io_bind. rewrite Hg. simpl.
  destruct (status =? 0); [|done]. simpl.
  destruct (last_ipv4_spec results [] (replicate 15 (Some (chr 0)))) as (m & Hm & Hr);
    [by apply not_elem_of_nil|done|].
  change (init ([] ++ [chr 0]) ++ replicate 15 (Some (chr 0))) with
    (replicate (Z.to_nat INET_ADDRSTRLEN) (Some (chr 0))) in Hm.
  simpl in Hm. rewrite Hm. simpl. by rewrite Hr.
Qed.
End resolve.
End NetUtils.
