(* ===== verification/ThreadPool.v ===== *)
(** * [concurrency::ThreadPoolExecutor] (blueth/concurrency/ThreadPoolExecutor.hpp)

    The pool as a machine whose moves are the atomic steps of its threads and
    of the threads that call it: the mutex and the condition variable are part
    of the state, so that every interleaving is a sequence of moves. A callable
    is a value; running it takes one move and returns. What a callable that
    throws does to a run comes after the machine. *)
From Stdlib Require Import ZArith Lia.
From stdpp Require Import base list relations.
From S2P Require Import Prelude.
Local Open Scope nat_scope.

(** Where a thread of the pool is in the loop of its lambda. *)
Inductive worker (Callable : Type) :=
  | AtLock      (** before the mutex: a new turn, or woken up in [wait] *)
  | Holding     (** inside the critical section, at the test of the predicate *)
  | Waiting     (** in [worker_cv_.wait], the mutex released *)
  | Working (work : Callable)
  | Exited.
Arguments AtLock {Callable}. Arguments Holding {Callable}. Arguments Waiting {Callable}.
Arguments Working {Callable}. Arguments Exited {Callable}.

(** A call of a method that changes the pool, and where its thread is in it. *)
Inductive call (Callable : Type) := Submit (c : Callable) | Shutdown | Destroy.
Arguments Submit {Callable}. Arguments Shutdown {Callable}. Arguments Destroy {Callable}.

Inductive caller_pc (Callable : Type) :=
  | Idle
  | Locked (k : call Callable)     (** inside the critical section *)
  | Unlocked (k : call Callable)   (** before the notification *)
  | Joining (i : nat).             (** joining thread [i] *)
Arguments Idle {Callable}. Arguments Locked {Callable}. Arguments Unlocked {Callable}.
Arguments Joining {Callable}.

(** A thread that uses the pool: the calls it will still make. *)
Record caller (Callable : Type) := mkCaller {
  pc : caller_pc Callable;
  todo : list (call Callable)
}.
Arguments mkCaller {Callable}. Arguments pc {Callable}. Arguments todo {Callable}.

Inductive owner := WorkerThread (i : nat) | CallerThread (j : nat).

Record ThreadPoolExecutor (Callable : Type) := mkPool {
  pool_size_ : nat;
  active_threads_ : nat;
  shutdown_ : bool;
  thread_pool_ : list (worker Callable);
  work_queue_ : list Callable;
  queue_mutex_ : option owner
}.
Arguments mkPool {Callable}. Arguments pool_size_ {Callable}.
Arguments active_threads_ {Callable}. Arguments shutdown_ {Callable}.
Arguments thread_pool_ {Callable}. Arguments work_queue_ {Callable}.
Arguments queue_mutex_ {Callable}.

(** The pool and its callers, with the history of the work: in the order in
    which it was submitted before and after [shutdown_] was set, in the order
    in which it was taken from the queue, and in the order in which it ended. *)
Record system (Callable : Type) := mkSystem {
  pool : ThreadPoolExecutor Callable;
  callers : list (caller Callable);
  early : list Callable;
  late : list Callable;
  started : list Callable;
  finished : list Callable
}.
Arguments mkSystem {Callable}. Arguments pool {Callable}. Arguments callers {Callable}.
Arguments early {Callable}. Arguments late {Callable}.
Arguments started {Callable}. Arguments finished {Callable}.

Section machine.
Context {Callable : Type}.
Implicit Types (p : ThreadPoolExecutor Callable) (s : system Callable).

(** The constructor: [pool_size] threads, each at the start of its loop. *)
Definition ThreadPoolExecutor_new (pool_size : nat) : ThreadPoolExecutor Callable :=
  mkPool pool_size 0 false (replicate pool_size AtLock) [] None.

(** The loop of the constructor, [starts i] telling whether the system can
    start the thread of index [i]. The exception of one that cannot leaves the
    constructor and destroys the vector of the threads made so far: a joinable
    one ends the program. *)
Fixpoint start_threads (starts : nat → bool) (n : nat) (ws : list (worker Callable))
  : res (list (worker Callable)) :=
  match n with
  | O => Done ws
  | S n =>
      if starts (length ws) then start_threads starts n (ws ++ [AtLock])
      else match ws with [] => Throw system_error | _ => Terminate end
  end.
Definition construct (starts : nat → bool) (pool_size : nat)
  : res (ThreadPoolExecutor Callable) :=
  ws ← start_threads starts pool_size []; Done (mkPool pool_size 0 false ws [] None).

Lemma start_threads_spec starts n ws :
  start_threads starts n ws
  = if forallb starts (seq (length ws) n) then Done (ws ++ replicate n AtLock)
    else if bool_decide (length ws = 0) && negb (starts 0) then Throw system_error
    else Terminate.
Proof.
  revert ws. induction n as [|n IH]; intros ws; simpl; [by rewrite app_nil_r|].
  destruct (starts (length ws)) eqn:Hs; simpl.
  - rewrite IH, length_app, Nat.add_1_r, <- app_assoc. simpl.
    destruct (forallb _ _); [done|]. destruct ws; simpl in *; [by rewrite Hs|done].
  - by destruct ws; simpl in *; [rewrite Hs|].
Qed.

(** The constructor makes the pool when every thread starts, throws when the
    first one does not, and ends the program when a later one does not. *)
Theorem construct_spec starts n :
  construct starts n
  = if forallb starts (seq 0 n) then Done (ThreadPoolExecutor_new n)
    else if starts 0 then Terminate else Throw system_error.
Proof.
  unfold construct. rewrite start_threads_spec. simpl.
  destruct (forallb _ _); [done|]. by destruct (starts 0).
Qed.

(** *** Field updates *)
Definition set_thread p i w := mkPool (pool_size_ p) (active_threads_ p) (shutdown_ p)
  (<[i := w]> (thread_pool_ p)) (work_queue_ p) (queue_mutex_ p).
Definition set_threads p ws := mkPool (pool_size_ p) (active_threads_ p) (shutdown_ p)
  ws (work_queue_ p) (queue_mutex_ p).
Definition set_queue p q := mkPool (pool_size_ p) (active_threads_ p) (shutdown_ p)
  (thread_pool_ p) q (queue_mutex_ p).
Definition set_mutex p o := mkPool (pool_size_ p) (active_threads_ p) (shutdown_ p)
  (thread_pool_ p) (work_queue_ p) o.
Definition set_shutdown p := mkPool (pool_size_ p) (active_threads_ p) true
  (thread_pool_ p) (work_queue_ p) (queue_mutex_ p).
Definition set_pool s p := mkSystem p (callers s) (early s) (late s) (started s) (finished s).
Definition set_caller s j c := mkSystem (pool s) (<[j := c]> (callers s))
  (early s) (late s) (started s) (finished s).

(** [lock], for a thread that finds the mutex free. *)
Definition lock p (o : owner) : option (ThreadPoolExecutor Callable) :=
  match queue_mutex_ p with None => Some (set_mutex p (Some o)) | Some _ => None end.
Definition unlock p := set_mutex p None.

(** ** The threads of the pool *)

(** The critical section of a turn: what the thread does next, and the work it
    takes. *)
Definition take_work p i : ThreadPoolExecutor Callable * option Callable :=
  if negb (shutdown_ p || negb (bool_decide (length (work_queue_ p) = 0)))
  then (unlock (set_thread p i Waiting), None)
  else match work_queue_ p with
       | [] => (unlock (set_thread p i Exited), None)
       | work :: q => (unlock (set_thread (set_queue p q) i (Working work)), Some work)
       end.

(** A move of thread [i]; [None] when it cannot move. *)
Definition worker_step (i : nat) s : option (system Callable) :=
  match thread_pool_ (pool s) !! i with
  | Some AtLock =>
      p ← lock (pool s) (WorkerThread i); Some (set_pool s (set_thread p i Holding))
  | Some Holding =>
      let '(p, work) := take_work (pool s) i in
      Some (mkSystem p (callers s) (early s) (late s)
              (started s ++ option_list work) (finished s))
  | Some (Working work) =>
      Some (mkSystem (set_thread (pool s) i AtLock) (callers s) (early s) (late s)
              (started s) (finished s ++ [work]))
  | _ => None
  end.

(** ** The methods *)
Definition is_waiting (w : worker Callable) : bool :=
  match w with Waiting => true | _ => false end.
Definition wake (w : worker Callable) : worker Callable :=
  match w with Waiting => AtLock | w => w end.

(** [worker_cv_.notify_one()], where the system picks thread [i] of those that
    wait, and [notify_all()]. *)
Definition notify_one p i : option (ThreadPoolExecutor Callable) :=
  if existsb is_waiting (thread_pool_ p) then
    match thread_pool_ p !! i with
    | Some Waiting => Some (set_thread p i AtLock)
    | _ => None
    end
  else Some p.
Definition notify_all p := set_threads p (wake <$> thread_pool_ p).

(** The critical section of a call. *)
Definition critical (k : call Callable) s : system Callable :=
  match k with
  | Submit c =>
      let s := set_pool s (set_queue (pool s) (work_queue_ (pool s) ++ [c])) in
      if shutdown_ (pool s)
      then mkSystem (pool s) (callers s) (early s) (late s ++ [c]) (started s) (finished s)
      else mkSystem (pool s) (callers s) (early s ++ [c]) (late s) (started s) (finished s)
  | Shutdown | Destroy => set_pool s (set_shutdown (pool s))
  end.

(** A move of caller [j]; [i] is the thread a [notify_one] wakes. *)
Definition caller_step (j i : nat) s : option (system Callable) :=
  c ← callers s !! j;
  match pc c with
  | Idle =>
      match todo c with
      | [] => None
      | k :: ks =>
          p ← lock (pool s) (CallerThread j);
          Some (set_caller (set_pool s p) j (mkCaller (Locked k) ks))
      end
  | Locked k =>
      let s := critical k s in
      Some (set_caller (set_pool s (unlock (pool s))) j (mkCaller (Unlocked k) (todo c)))
  | Unlocked (Submit _) =>
      p ← notify_one (pool s) i;
      Some (set_caller (set_pool s p) j (mkCaller Idle (todo c)))
  | Unlocked Shutdown =>
      Some (set_caller (set_pool s (notify_all (pool s))) j (mkCaller Idle (todo c)))
  | Unlocked Destroy =>
      Some (set_caller (set_pool s (notify_all (pool s))) j (mkCaller (Joining 0) (todo c)))
  | Joining n =>
      match thread_pool_ (pool s) !! n with
      | None => Some (set_caller s j (mkCaller Idle (todo c)))
      | Some Exited => Some (set_caller s j (mkCaller (Joining (S n)) (todo c)))
      | Some _ => None
      end
  end.

(** The queries; each is one critical section, but for [isShutdown], which
    takes no lock. [getPoolSize] is declared and not defined. *)
Definition getTaskCount p : nat := length (work_queue_ p).
Definition getActiveThreads p : nat := active_threads_ p.
Definition isShutdown p : bool := shutdown_ p.

(** ** The machine *)
Inductive move := Worker (i : nat) | Caller (j i : nat) | Spurious (i : nat).

(** A spurious wake-up is allowed to every waiting thread. *)
Definition step (mv : move) s : option (system Callable) :=
  match mv with
  | Worker i => worker_step i s
  | Caller j i => caller_step j i s
  | Spurious i =>
      match thread_pool_ (pool s) !! i with
      | Some Waiting => Some (set_pool s (set_thread (pool s) i AtLock))
      | _ => None
      end
  end.

Fixpoint run (mvs : list move) s : option (system Callable) :=
  match mvs with [] => Some s | mv :: mvs => s ← step mv s; run mvs s end.

Definition init_system (n : nat) (calls : list (list (call Callable))) : system Callable :=
  mkSystem (ThreadPoolExecutor_new n) (mkCaller Idle <$> calls) [] [] [] [].

Inductive reachable (n : nat) (calls : list (list (call Callable))) : system Callable → Prop :=
  | reach_init : reachable n calls (init_system n calls)
  | reach_step s mv s' :
      reachable n calls s → step mv s = Some s' → reachable n calls s'.

(** A run when some of the callables throw: no thread of the pool catches what
    leaves [( *work)()], so it ends the program. *)
Definition escapes (throws : Callable → bool) (mv : move) s : bool :=
  match mv with
  | Worker i =>
      match thread_pool_ (pool s) !! i with Some (Working c) => throws c | _ => false end
  | _ => false
  end.
Fixpoint run_throwing (throws : Callable → bool) (mvs : list move) s
  : res (option (system Callable)) :=
  match mvs with
  | [] => Done (Some s)
  | mv :: mvs =>
      if escapes throws mv s then Terminate else
      match step mv s with
      | None => Done None
      | Some s => run_throwing throws mvs s
      end
  end.

(** Nothing moves but for a spurious wake-up. *)
Definition stuck s : Prop :=
  (∀ i, step (Worker i) s = None) ∧ (∀ j i, step (Caller j i) s = None).
End machine.

(** ** The moves, one by one *)
Section moves.
Context {Callable : Type}.
Implicit Types (p : ThreadPoolExecutor Callable) (s : system Callable).

Definition is_notifier (c : caller Callable) : bool :=
  match pc c with Unlocked Shutdown | Unlocked Destroy => true | _ => false end.
Definition is_submitter (c : caller Callable) : bool :=
  match pc c with Unlocked (Submit _) => true | _ => false end.
Definition is_locked (c : caller Callable) : bool :=
  match pc c with Locked _ => true | _ => false end.
Definition is_ending (c : caller Callable) : bool :=
  match pc c with Unlocked Shutdown | Unlocked Destroy | Joining _ => true | _ => false end.
Definition is_awake (w : worker Callable) : bool :=
  match w with AtLock | Holding | Working _ => true | _ => false end.
Definition work_of (w : worker Callable) : option Callable :=
  match w with Working c => Some c | _ => None end.

(** What a move changes, as a relation between the parts of the state; the flag
    marks a spurious wake-up. *)
Inductive moves s : bool → system Callable → Prop :=
  | moves_lock i : thread_pool_ (pool s) !! i = Some AtLock →
      queue_mutex_ (pool s) = None →
      moves s false (set_pool s (set_thread (set_mutex (pool s) (Some (WorkerThread i))) i Holding))
  | moves_wait i : thread_pool_ (pool s) !! i = Some Holding →
      shutdown_ (pool s) = false → work_queue_ (pool s) = [] →
      moves s false (set_pool s (unlock (set_thread (pool s) i Waiting)))
  | moves_exit i : thread_pool_ (pool s) !! i = Some Holding →
      shutdown_ (pool s) = true → work_queue_ (pool s) = [] →
      moves s false (set_pool s (unlock (set_thread (pool s) i Exited)))
  | moves_take i work q : thread_pool_ (pool s) !! i = Some Holding →
      work_queue_ (pool s) = work :: q →
      moves s false (mkSystem (unlock (set_thread (set_queue (pool s) q) i (Working work)))
                 (callers s) (early s) (late s) (started s ++ [work]) (finished s))
  | moves_work i work : thread_pool_ (pool s) !! i = Some (Working work) →
      moves s false (mkSystem (set_thread (pool s) i AtLock) (callers s) (early s) (late s)
                 (started s) (finished s ++ [work]))
  | moves_wake i : thread_pool_ (pool s) !! i = Some Waiting →
      moves s true (set_pool s (set_thread (pool s) i AtLock))
  | moves_enter j k ks : callers s !! j = Some (mkCaller Idle (k :: ks)) →
      queue_mutex_ (pool s) = None →
      moves s false (set_caller (set_pool s (set_mutex (pool s) (Some (CallerThread j)))) j
                 (mkCaller (Locked k) ks))
  | moves_critical j k ks : callers s !! j = Some (mkCaller (Locked k) ks) →
      moves s false (let s := critical k s in
               set_caller (set_pool s (unlock (pool s))) j (mkCaller (Unlocked k) ks))
  | moves_notify_one j c ks i : callers s !! j = Some (mkCaller (Unlocked (Submit c)) ks) →
      thread_pool_ (pool s) !! i = Some Waiting →
      moves s false (set_caller (set_pool s (set_thread (pool s) i AtLock)) j (mkCaller Idle ks))
  | moves_notify_none j c ks : callers s !! j = Some (mkCaller (Unlocked (Submit c)) ks) →
      (∀ i, thread_pool_ (pool s) !! i ≠ Some Waiting) →
      moves s false (set_caller s j (mkCaller Idle ks))
  | moves_notify_all j k ks pc' : callers s !! j = Some (mkCaller (Unlocked k) ks) →
      (k, pc') ∈ [(Shutdown, Idle); (Destroy, Joining 0)] →
      moves s false (set_caller (set_pool s (notify_all (pool s))) j (mkCaller pc' ks))
  | moves_join j n ks pc' : callers s !! j = Some (mkCaller (Joining n) ks) →
      (pc' = Idle ∧ thread_pool_ (pool s) !! n = None
       ∨ pc' = Joining (S n) ∧ thread_pool_ (pool s) !! n = Some Exited) →
      moves s false (set_caller s j (mkCaller pc' ks)).

Lemma set_pool_same s : set_pool s (pool s) = s.
Proof. by destruct s. Qed.

Lemma existsb_waiting_false (ws : list (worker Callable)) i :
  existsb is_waiting ws = false → ws !! i ≠ Some Waiting.
Proof.
  intros Hw Hi. apply list_elem_of_lookup_2 in Hi.
  assert (existsb is_waiting ws = true) as Ht; [|congruence].
  apply existsb_exists. exists Waiting. by rewrite <- list_elem_of_In.
Qed.

Lemma worker_moves i s s' : worker_step i s = Some s' → moves s false s'.
Proof.
  unfold worker_step. destruct (thread_pool_ (pool s) !! i) as [w|] eqn:Hi; [|done].
  destruct w; try done.
  - unfold lock. destruct (queue_mutex_ (pool s)) eqn:Hm; [done|]. simpl. intros [= <-].
    by apply moves_lock.
  - unfold take_work. destruct (shutdown_ (pool s)) eqn:Hd.
    + simpl. destruct (work_queue_ (pool s)) eqn:Hq; intros [= <-].
      * rewrite app_nil_r. by apply moves_exit.
      * by apply moves_take.
    + simpl. destruct (work_queue_ (pool s)) eqn:Hq; simpl; intros [= <-].
      * rewrite app_nil_r. by apply moves_wait.
      * by apply moves_take.
  - intros [= <-]. by apply moves_work.
Qed.

Lemma caller_moves j i s s' : caller_step j i s = Some s' → moves s false s'.
Proof.
  unfold caller_step. destruct (callers s !! j) as [[c ks]|] eqn:Hj; [|done]. simpl.
  destruct c as [|k|[c| |]|n].
  - destruct ks as [|k ks]; [done|]. unfold lock.
    destruct (queue_mutex_ (pool s)) eqn:Hm; [done|]. simpl. intros [= <-].
    by apply moves_enter.
  - intros [= <-]. by apply moves_critical.
  - unfold notify_one. destruct (existsb _ _) eqn:Hw.
    + destruct (_ !! i) as [[]|] eqn:Hi; try done. simpl. intros [= <-].
      by eapply moves_notify_one.
    + simpl. rewrite set_pool_same. intros [= <-]. eapply moves_notify_none; [done|].
      intros i'. by apply existsb_waiting_false.
  - intros [= <-]. eapply moves_notify_all; [done|]. set_solver.
  - intros [= <-]. eapply moves_notify_all; [done|]. set_solver.
  - destruct (_ !! n) as [[]|] eqn:Hn; try done; intros [= <-];
      (eapply moves_join; [done|auto]).
Qed.

Definition spurious (mv : move) : bool :=
  match mv with Spurious _ => true | _ => false end.

Lemma step_moves mv s s' : step mv s = Some s' → moves s (spurious mv) s'.
Proof.
  destruct mv as [i|j i|i]; simpl.
  - apply worker_moves.
  - apply caller_moves.
  - destruct (_ !! i) as [[]|] eqn:Hi; try done. intros [= <-]. by apply moves_wake.
Qed.
End moves.

(** An invariant that every move keeps. *)
Lemma reachable_ind_moves {Callable} (P : system Callable → Prop) n calls s :
  P (init_system n calls) →
  (∀ s b s', reachable n calls s → P s → moves s b s' → P s') →
  reachable n calls s → P s.
Proof. intros Hi Hs. induction 1; [done|]. eauto using step_moves. Qed.

(** ** Lists with an element of a kind *)
Definition somewhere {A} (f : A → bool) (l : list A) : Prop :=
  ∃ i x, l !! i = Some x ∧ f x = true.

Lemma somewhere_new {A} (f : A → bool) l i x y :
  l !! i = Some y → f x = true → somewhere f (<[i := x]> l).
Proof. intros Hi Hx. exists i, x. split; [|done]. by rewrite list_lookup_insert_eq by by eapply lookup_lt_Some. Qed.

Lemma somewhere_keep {A} (f : A → bool) l i x y :
  l !! i = Some y → (f y = true → f x = true) → somewhere f l → somewhere f (<[i := x]> l).
Proof.
  intros Hi Hyx (k&z&Hk&Hz). destruct (decide (i = k)) as [->|Hne].
  - apply (somewhere_new f l k x y Hi). apply Hyx. by simplify_eq.
  - exists k, z. by rewrite list_lookup_insert_ne.
Qed.

Lemma somewhere_inv {A} (f : A → bool) l i x :
  somewhere f (<[i := x]> l) → f x = true ∨ somewhere f l.
Proof.
  intros (k&z&Hk&Hz). apply list_lookup_insert_Some in Hk as [(?&?&?)|[? Hk]].
  - subst. by left.
  - right. by exists k, z.
Qed.

Lemma somewhere_fmap {A B} (f : A → bool) (g : B → A) l :
  somewhere f (g <$> l) ↔ somewhere (f ∘ g) l.
Proof.
  split.
  - intros (i&x&Hi&Hx). rewrite list_lookup_fmap in Hi.
    destruct (l !! i) as [y|] eqn:Hy; [|done]. simplify_eq/=. by exists i, y.
  - intros (i&x&Hi&Hx). exists i, (g x). by rewrite list_lookup_fmap, Hi.
Qed.

(** Induction over the moves that lead to a state. *)
Ltac moves_induction :=
  match goal with
  | |- reachable ?n ?calls ?s → _ =>
      let Hr := fresh in
      intros Hr; pattern s; apply (reachable_ind_moves _ n calls s); [| |exact Hr];
      clear s Hr
  end.

Section invariants.
Context {Callable : Type} (n : nat) (calls : list (list (call Callable))).
Implicit Types (p : ThreadPoolExecutor Callable) (s : system Callable).
Abbreviation threads s := (thread_pool_ (pool s)).

(** *** The history of the work *)
Lemma reachable_history s :
  reachable n calls s →
  early s ++ late s = started s ++ work_queue_ (pool s)
  ∧ (shutdown_ (pool s) = false → late s = [])
  ∧ length (threads s) = n ∧ pool_size_ (pool s) = n ∧ active_threads_ (pool s) = 0.
Proof.
  moves_induction.
  { simpl. by rewrite length_replicate. }
  intros s1 b s2 _ (Hh&Hl&Hlen&Hsz&Hact). destruct 1; simpl; rewrite ?length_insert, ?length_fmap;
    try (split_and!; done).
  - rewrite Hh, <- app_assoc. simpl. split_and!; try done. congruence.
  - destruct k; simpl.
    + destruct (shutdown_ (pool s1)) eqn:Hd; simpl; split_and!; try done; try congruence.
      * by rewrite app_assoc, Hh, app_assoc.
      * rewrite Hl in Hh |- * by done. rewrite !app_nil_r in *. by rewrite Hh, app_assoc.
      * intros _. by apply Hl.
    + done.
    + done.
Qed.

(** Every work that was taken is finished or in a thread. *)
Lemma working_insert (ws : list (worker Callable)) i w w' :
  ws !! i = Some w →
  option_list (work_of w) ++ omap work_of (<[i := w']> ws)
  ≡ₚ option_list (work_of w') ++ omap work_of ws.
Proof.
  revert i. induction ws as [|v ws IH]; intros [|i] Hi; simpl in Hi; simplify_eq.
  - simpl. destruct (work_of w), (work_of w'); simpl; (reflexivity || apply perm_swap).
  - specialize (IH i Hi). simpl. destruct (work_of v) as [c|]; [|exact IH].
    rewrite <- !Permutation_middle. by rewrite IH.
Qed.

Lemma working_wake (ws : list (worker Callable)) : omap work_of (wake <$> ws) = omap work_of ws.
Proof. induction ws as [|[] ws IH]; csimpl; by rewrite ?IH. Qed.

Lemma working_replicate m : omap work_of (replicate m (AtLock (Callable := Callable))) = [].
Proof. by induction m. Qed.

Lemma reachable_finished s :
  reachable n calls s → started s ≡ₚ finished s ++ omap work_of (threads s).
Proof.
  moves_induction.
  { simpl. by rewrite working_replicate. }
  intros s1 b s2 _ Hs. destruct 1 as [i Hi _|i Hi _ _|i Hi _ _|i work q Hi _|i work Hi|i Hi
    |j k ks Hj _|j k ks Hj|j c ks i Hj Hi|j c ks Hj _|j k ks pc' Hj _|j m ks pc' Hj _]; simpl;
    try (pose proof (working_insert _ _ _ Holding Hi) as Hw1);
    try (pose proof (working_insert _ _ _ Waiting Hi) as Hw2);
    try (pose proof (working_insert _ _ _ Exited Hi) as Hw3);
    try (pose proof (working_insert _ _ _ AtLock Hi) as Hw4); simpl in *;
    rewrite ?Hw1, ?Hw2, ?Hw3, ?Hw4; try done.
  - pose proof (working_insert _ _ _ (Working work) Hi) as Hw. simpl in Hw.
    rewrite Hw, Hs, <- app_assoc. f_equiv. apply Permutation_app_comm.
  - rewrite <- app_assoc. simpl. by rewrite Hw4.
  - destruct k; simpl; [destruct (shutdown_ _)|..]; done.
  - by rewrite working_wake.
Qed.

(** *** Mutual exclusion

    The thread that is recorded in the mutex is inside its critical section,
    and no other is. *)
Definition locked_at (cs : list (caller Callable)) j : Prop :=
  ∃ c, cs !! j = Some c ∧ is_locked c = true.
Definition exclusive s : Prop :=
  (∀ i, threads s !! i = Some Holding ↔ queue_mutex_ (pool s) = Some (WorkerThread i))
  ∧ (∀ j, locked_at (callers s) j ↔ queue_mutex_ (pool s) = Some (CallerThread j)).

Lemma holding_insert (ws : list (worker Callable)) i k w w' :
  ws !! i = Some w →
  <[i := w']> ws !! k = Some Holding
  ↔ if decide (i = k) then w' = Holding else ws !! k = Some Holding.
Proof.
  intros Hi. case_decide as Hd.
  - subst k. rewrite list_lookup_insert_eq by by eapply lookup_lt_Some.
    split; congruence.
  - by rewrite list_lookup_insert_ne.
Qed.

Lemma holding_wake (ws : list (worker Callable)) k :
  (wake <$> ws) !! k = Some Holding ↔ ws !! k = Some Holding.
Proof. rewrite list_lookup_fmap. destruct (ws !! k) as [[]|]; simpl; naive_solver. Qed.

Lemma locked_insert (cs : list (caller Callable)) j k c c' :
  cs !! j = Some c →
  locked_at (<[j := c']> cs) k
  ↔ if decide (j = k) then is_locked c' = true else locked_at cs k.
Proof.
  intros Hj. unfold locked_at. case_decide as Hd.
  - subst k. rewrite list_lookup_insert_eq by by eapply lookup_lt_Some. naive_solver.
  - by rewrite list_lookup_insert_ne.
Qed.

Lemma locked_lookup (cs : list (caller Callable)) j c :
  cs !! j = Some c → locked_at cs j ↔ is_locked c = true.
Proof. unfold locked_at. naive_solver. Qed.

Lemma critical_keeps k s :
  threads (critical k s) = threads s ∧ callers (critical k s) = callers s
  ∧ queue_mutex_ (pool (critical k s)) = queue_mutex_ (pool s).
Proof. destruct k; simpl; [destruct (shutdown_ _)|..]; done. Qed.

Lemma notified_not_locked (k : call Callable) (pc' : caller_pc Callable) ks :
  (k, pc') ∈ [(Shutdown, Idle); (Destroy, Joining 0)] →
  is_locked (mkCaller pc' ks) = false.
Proof. rewrite !elem_of_cons. by intros [[= _ ->]|[[= _ ->]|?%not_elem_of_nil]]. Qed.

Lemma reachable_exclusive s : reachable n calls s → exclusive s.
Proof.
  moves_induction.
  { split; [intros i|intros j]; simpl; (split; [|done]).
    - by intros [? _]%lookup_replicate.
    - intros (c&(?&->&?)%list_lookup_fmap_Some&Hc). done. }
  intros s1 b s2 _ (Hw&Hc). unfold exclusive.
  destruct 1 as [i Hi Hfree|i Hi _ _|i Hi _ _|i work q Hi _|i work Hi|i Hi
    |j k ks Hj Hfree|j k ks Hj|j c ks i Hj Hi|j c ks Hj _|j k ks pc' Hj Hk|j m ks pc' Hj Hk];
    simpl; try (destruct (critical_keeps k s1) as (->&->&_));
    try (pose proof (Hw i) as Hwi; rewrite Hi in Hwi);
    try (pose proof (Hc j) as Hcj; rewrite (locked_lookup _ _ _ Hj) in Hcj);
    try (apply (notified_not_locked _ _ ks) in Hk);
    try (assert (is_locked (mkCaller pc' ks) = false) as H by by destruct Hk as [[-> _]|[-> _]]);
    (split; [intros i'|intros j']);
    rewrite ?(holding_insert _ _ _ _ _ Hi), ?(locked_insert _ _ _ _ _ Hj), ?holding_wake;
    try case_decide; subst; rewrite ?Hw, ?Hc; simpl in *; clear Hw Hc; try (intuition congruence).
  - split; [intros Hl; change (false = true) in Hl|]; congruence.
  - rewrite Hk. by rewrite <- Hcj.
  - rewrite H. by rewrite <- Hcj.
Qed.
(** *** The end of the pool

    A thread leaves only after [shutdown_] was set and all work that was
    submitted before was taken. *)
Definition is_exited (w : worker Callable) : bool :=
  match w with Exited => true | _ => false end.

Lemma somewhere_replicate {A} (f : A → bool) m x : somewhere f (replicate m x) → f x = true.
Proof. by intros (i&y&[-> _]%lookup_replicate&Hf). Qed.

Lemma callers_idle (f : caller Callable → bool) :
  (∀ ks, f (mkCaller Idle ks) = false) → ¬ somewhere f (mkCaller Idle <$> calls).
Proof. intros Hf (i&c&(ks&->&_)%list_lookup_fmap_Some&Hc). by rewrite Hf in Hc. Qed.

Lemma critical_shutdown k s :
  shutdown_ (pool s) = true ∨ k = Shutdown ∨ k = Destroy →
  shutdown_ (pool (critical k s)) = true.
Proof. intros [Hd|[->| ->]]; [|done..]. destruct k; simpl; [rewrite Hd|..]; done. Qed.

Lemma reachable_exit s :
  reachable n calls s →
  (somewhere is_exited (threads s) →
     shutdown_ (pool s) = true ∧ length (early s) <= length (started s))
  ∧ (somewhere is_ending (callers s) → shutdown_ (pool s) = true).
Proof.
  moves_induction.
  { simpl. split; [by intros ?%somewhere_replicate|].
    intros Hs. by apply callers_idle in Hs. }
  intros s1 b s2 Hr (He&Hc).
  destruct (reachable_history s1 Hr) as (Hh&_).
  destruct 1 as [i Hi Hfree|i Hi _ _|i Hi Hd Hq|i work q Hi _|i work Hi|i Hi
    |j k ks Hj Hfree|j k ks Hj|j c ks i Hj Hi|j c ks Hj _|j k ks pc' Hj Hk|j m ks pc' Hj Hk]; simpl.
  all: split; [intros He'|intros Hc'];
    try (apply somewhere_inv in He' as [?|He']; [done|]);
    try (apply somewhere_inv in Hc' as [?|Hc']; [done|]); auto.
  - apply (f_equal length) in Hh. rewrite !length_app, Hq in Hh. simpl in Hh. split; [done|lia].
  - destruct (He He'). rewrite length_app. simpl. split; [done|lia].
  - rewrite (proj1 (critical_keeps k s1)) in He'. destruct (He He') as [Hd Hl].
    destruct k; simpl; rewrite ?Hd; by simpl.
  - rewrite (proj1 (proj2 (critical_keeps k s1))) in Hc'. apply critical_shutdown.
    apply somewhere_inv in Hc' as [Hk|Hc']; [|auto]. destruct k; [done|auto..].
  - apply (somewhere_fmap _ wake) in He'. apply He. destruct He' as (i&w&Hi&Hw).
    exists i, w. split; [done|]. by destruct w.
  - apply Hc. eexists j, _. split; [done|]. rewrite !elem_of_cons in Hk.
    by destruct Hk as [[= -> _]|[[= -> _]|?%not_elem_of_nil]].
  - apply Hc. by eexists j, _.
Qed.
(** *** No wake-up is lost

    Work in the queue is on its way to a thread: a notification is still to
    come, or a thread is awake and will look at the queue, unless all are gone. *)
Definition attended s : Prop :=
  work_queue_ (pool s) ≠ [] →
  somewhere is_submitter (callers s) ∨ somewhere is_awake (threads s)
  ∨ ∀ i w, threads s !! i = Some w → w = Exited.

(** A thread that waits after [shutdown_] was set will be notified. *)
Definition announced s : Prop :=
  shutdown_ (pool s) = true → somewhere is_waiting (threads s) →
  somewhere is_notifier (callers s).

Lemma awake_or_exited (ws : list (worker Callable)) :
  (∀ i, ws !! i ≠ Some Waiting) →
  somewhere is_awake ws ∨ ∀ i w, ws !! i = Some w → w = Exited.
Proof.
  induction ws as [|w ws IH]; intros Hw; [by right|].
  destruct w; try (left; exists 0; by eexists).
  - by destruct (Hw 0 eq_refl).
  - destruct IH as [(i&w&Hi&Ha)|IH]; [intros i; apply (Hw (S i))|left; by exists (S i), w|].
    right. intros [|i] w Hi; [by simplify_eq/=|by apply (IH i)].
Qed.

Lemma reachable_announced s : reachable n calls s → announced s.
Proof.
  moves_induction.
  { done. }
  intros s1 b s2 _ Ha. unfold announced in *.
  destruct 1 as [i Hi Hfree|i Hi Hd Hq|i Hi Hd Hq|i work q Hi _|i work Hi|i Hi
    |j k ks Hj Hfree|j k ks Hj|j c ks i Hj Hi|j c ks Hj _|j k ks pc' Hj Hk|j m ks pc' Hj Hk];
    simpl; intros Hs Hw.
  all: try (apply somewhere_inv in Hw as [?|Hw]; [done|]);
    try (eapply somewhere_keep; [done|done|]); auto.
  - congruence.
  - destruct (critical_keeps k s1) as (Ht&->&_). rewrite Ht in Hw.
    destruct k; [|by eapply somewhere_new..].
    eapply somewhere_keep; [done|done|]. apply Ha; [|done].
    simpl in Hs. destruct (shutdown_ (pool s1)) eqn:Hd; simpl in Hs; congruence.
  - apply (somewhere_fmap _ wake) in Hw as (i&w&_&Hw). by destruct w.
Qed.

Lemma reachable_attended s : reachable n calls s → attended s.
Proof.
  moves_induction.
  { intros Hne. by destruct Hne. }
  intros s1 b s2 _ Ha. unfold attended in *.
  destruct 1 as [i Hi Hfree|i Hi Hd Hq|i Hi Hd Hq|i work q Hi _|i work Hi|i Hi
    |j k ks Hj Hfree|j k ks Hj|j c ks i Hj Hi|j c ks Hj Hn|j k ks pc' Hj Hk|j m ks pc' Hj Hk];
    simpl; intros Hne.
  all: try (right; left; by eapply somewhere_new).
  all: try done.
  - destruct (Ha Hne) as [Hs|Hs]; [left|by right]. by eapply somewhere_keep.
  - destruct (critical_keeps k s1) as (->&->&_).
    destruct k; [left; by eapply somewhere_new|..];
      (destruct (Ha Hne) as [Hs|Hs]; [left; by eapply somewhere_keep|by right]).
  - right. by apply awake_or_exited.
  - destruct (Ha Hne) as [Hs|[(i&w&Hi&Hw)|Hs]].
    + left. eapply somewhere_keep; [done| |done]. rewrite !elem_of_cons in Hk.
      by destruct Hk as [[= -> _]|[[= -> _]|?%not_elem_of_nil]].
    + right. left. exists i, (wake w). rewrite list_lookup_fmap, Hi. by destruct w.
    + right. right. intros i w (w'&->&Hi)%list_lookup_fmap_Some. by rewrite (Hs i w' Hi).
  - destruct (Ha Hne) as [Hs|Hs]; [left|by right]. by eapply somewhere_keep.
Qed.
End invariants.

(** ** Termination

    What is left to do, in moves: a weight for each thread, each work in the
    queue and each caller. Only a spurious wake-up adds to it. *)
Section termination.
Context {Callable : Type}.
Implicit Types (s : system Callable).
Abbreviation threads s := (thread_pool_ (pool s)) (only parsing).

Definition worker_weight (w : worker Callable) : nat :=
  match w with AtLock => 3 | Holding => 2 | Working _ => 4 | Waiting | Exited => 0 end.

(** After the critical section: the notification, and the joins. *)
Definition notify_weight (n : nat) (k : call Callable) : nat :=
  match k with Submit _ => 4 | Shutdown | Destroy => 4 * n + 2 end.
Definition critical_weight (n : nat) (k : call Callable) : nat :=
  match k with Submit _ => 4 + notify_weight n k | _ => 1 + notify_weight n k end.
Definition call_weight (n : nat) (k : call Callable) : nat := S (critical_weight n k).

Definition caller_weight (n : nat) (c : caller Callable) : nat :=
  match pc c with
  | Idle => 0
  | Locked k => critical_weight n k
  | Unlocked k => notify_weight n k
  | Joining m => S (n - m)
  end + sum_list_with (call_weight n) (todo c).

Definition work_left (n : nat) s : nat :=
  3 * length (work_queue_ (pool s)) + sum_list_with worker_weight (threads s)
  + sum_list_with (caller_weight n) (callers s).

Lemma sum_wake (ws : list (worker Callable)) :
  sum_list_with worker_weight (wake <$> ws) <= sum_list_with worker_weight ws + 3 * length ws.
Proof. induction ws as [|[] ws IH]; csimpl; lia. Qed.

Lemma moves_work_left n s s' :
  length (threads s) = n → moves s false s' → work_left n s' < work_left n s.
Proof.
  intros Hn. unfold work_left. remember false as b eqn:Hb.
  destruct 1 as [i Hi Hfree|i Hi Hd Hq|i Hi Hd Hq|i work q Hi Hq|i work Hi|i Hi
    |j k ks Hj Hfree|j k ks Hj|j c ks i Hj Hi|j c ks Hj Hn'|j k ks pc' Hj Hk|j m ks pc' Hj Hk];
    try done; try (rewrite ?elem_of_cons in Hk;
      destruct Hk as [[= -> ->]|[[= -> ->]|?%not_elem_of_nil]]; [..|done]);
    try (destruct Hk as [[-> Ht]|[-> Ht%lookup_lt_Some]]); try destruct k; simpl;
    try (destruct (shutdown_ (pool s))); simpl;
    try (match goal with |- context [sum_list_with worker_weight (<[i := ?w]> ?l)] =>
      pose proof (sum_insert worker_weight l i w _ Hi) end);
    try (match goal with |- context [sum_list_with ?f (<[j := ?c]> ?l)] =>
      pose proof (sum_insert f l j c _ Hj) end);
    rewrite ?Hq, ?length_app; pose proof (sum_wake (threads s));
    unfold caller_weight in *; simpl in *; try lia.
Qed.

Lemma run_reachable n calls mvs s s' :
  reachable n calls s → run mvs s = Some s' → reachable n calls s'.
Proof.
  revert s. induction mvs as [|mv mvs IH]; intros s Hr Hrun; simplify_eq/=; [done|].
  destruct (step mv s) as [s1|] eqn:Hs; [|done]. simpl in Hrun.
  by eapply IH; [by eapply reach_step|].
Qed.

Lemma run_work_left n calls mvs s s' :
  reachable n calls s → run mvs s = Some s' → forallb (negb ∘ spurious) mvs = true →
  length mvs + work_left n s' <= work_left n s.
Proof.
  revert s. induction mvs as [|mv mvs IH]; intros s Hr Hrun Hq; simplify_eq/=; [done|].
  destruct (step mv s) as [s1|] eqn:Hs; [|done]. simpl in Hrun.
  apply andb_true_iff in Hq as [Hmv Hq]. unfold compose in Hmv.
  destruct (reachable_history n calls s Hr) as (_&_&Hlen&_).
  pose proof (step_moves _ _ _ Hs) as Hm. apply negb_true_iff in Hmv. rewrite Hmv in Hm.
  apply (moves_work_left n) in Hm; [|done].
  specialize (IH s1 (reach_step _ _ _ _ _ Hr Hs) Hrun Hq). lia.
Qed.

(** What is left at the start. *)
Definition total_work (n : nat) (calls : list (list (call Callable))) : nat :=
  3 * n + sum_list_with (sum_list_with (call_weight n)) calls.

Lemma init_work_left n calls : work_left n (init_system n calls) = total_work n calls.
Proof.
  unfold work_left, total_work. simpl. f_equal.
  - induction n as [|m IH]; simpl; lia.
  - induction calls as [|ks cs IH]; [done|]. csimpl. by rewrite IH.
Qed.
End termination.

(** ** The states in which nothing moves *)
Section ended.
Context {Callable : Type} (n : nat) (calls : list (list (call Callable))).
Implicit Types (s : system Callable).
Abbreviation threads s := (thread_pool_ (pool s)) (only parsing).

Lemma stuck_mutex s : reachable n calls s → stuck s → queue_mutex_ (pool s) = None.
Proof.
  intros Hr [Hw Hc]. destruct (reachable_exclusive n calls s Hr) as [He1 He2].
  destruct (queue_mutex_ (pool s)) as [[i|j]|]; [exfalso..|done].
  - assert (threads s !! i = Some Holding) as Hi by by apply He1.
    specialize (Hw i). simpl in Hw. unfold worker_step in Hw. rewrite Hi in Hw.
    by destruct (take_work _ _).
  - assert (locked_at (callers s) j) as ([c ks]&Hj&Hl) by by apply He2.
    specialize (Hc j 0). simpl in Hc. unfold caller_step in Hc. rewrite Hj in Hc.
    by destruct c.
Qed.

Lemma stuck_thread s i w :
  reachable n calls s → stuck s → threads s !! i = Some w → w = Waiting ∨ w = Exited.
Proof.
  intros Hr Hs Hi. pose proof (stuck_mutex s Hr Hs) as Hm.
  destruct (reachable_exclusive n calls s Hr) as [He1 _].
  destruct Hs as [Hw _]. specialize (Hw i). simpl in Hw. unfold worker_step, lock in Hw.
  rewrite Hi, Hm in Hw. destruct w; auto; try done.
  apply He1 in Hi. congruence.
Qed.

Lemma stuck_not_unlocked s j k ks :
  stuck s → callers s !! j = Some (mkCaller (Unlocked k) ks) → False.
Proof.
  intros [_ Hc] Hj. destruct k as [c| |].
  - destruct (existsb is_waiting (threads s)) eqn:He.
    + pose proof He as (w&Hin&Hw)%existsb_exists. apply list_elem_of_In in Hin.
      apply list_elem_of_lookup in Hin as [i Hi]. specialize (Hc j i). simpl in Hc.
      unfold caller_step, notify_one in Hc. rewrite Hj in Hc. simpl in Hc.
      rewrite He, Hi in Hc. by destruct w.
    + specialize (Hc j 0). simpl in Hc. unfold caller_step, notify_one in Hc.
      rewrite Hj in Hc. simpl in Hc. by rewrite He in Hc.
  - specialize (Hc j 0). simpl in Hc. unfold caller_step in Hc. by rewrite Hj in Hc.
  - specialize (Hc j 0). simpl in Hc. unfold caller_step in Hc. by rewrite Hj in Hc.
Qed.

(** After [shutdown_] every thread is gone. *)
Lemma stuck_exited s i w :
  reachable n calls s → stuck s → shutdown_ (pool s) = true →
  threads s !! i = Some w → w = Exited.
Proof.
  intros Hr Hs Hd Hi. destruct (stuck_thread s i w Hr Hs Hi) as [->|]; [exfalso|done].
  destruct (reachable_announced n calls s Hr Hd) as (j&[c ks]&Hj&Hc); [by exists i, Waiting|].
  destruct c as [|k|k|m]; try done. by eapply stuck_not_unlocked.
Qed.

Lemma stuck_waiting s i w :
  reachable n calls s → stuck s → shutdown_ (pool s) = false →
  threads s !! i = Some w → w = Waiting.
Proof.
  intros Hr Hs Hd Hi. destruct (stuck_thread s i w Hr Hs Hi) as [| ->]; [done|exfalso].
  destruct (reachable_exit n calls s Hr) as [He _].
  destruct He as [He _]; [by exists i, Exited|]. congruence.
Qed.

Lemma stuck_caller s j c :
  reachable n calls s → stuck s → callers s !! j = Some c → c = mkCaller Idle [].
Proof.
  intros Hr Hs Hj. pose proof (stuck_mutex s Hr Hs) as Hm.
  destruct c as [[|k|k|m] ks].
  - destruct ks as [|k ks]; [done|exfalso]. destruct Hs as [_ Hc]. specialize (Hc j 0).
    simpl in Hc. unfold caller_step, lock in Hc. rewrite Hj in Hc. simpl in Hc.
    by rewrite Hm in Hc.
  - exfalso. destruct Hs as [_ Hc]. specialize (Hc j 0). simpl in Hc.
    unfold caller_step in Hc. by rewrite Hj in Hc.
  - exfalso. by eapply stuck_not_unlocked.
  - exfalso. destruct (reachable_exit n calls s Hr) as [_ Hd].
    assert (shutdown_ (pool s) = true) as Hd' by (apply Hd; by eexists j, _).
    pose proof (λ w, stuck_exited s m w Hr Hs Hd') as He. destruct Hs as [Hw Hc].
    specialize (Hc j 0).
    simpl in Hc. unfold caller_step in Hc. rewrite Hj in Hc. simpl in Hc.
    destruct (threads s !! m) as [w|] eqn:Hm'; [|done].
    by rewrite (He w eq_refl) in Hc.
Qed.

Lemma exited_working (ws : list (worker Callable)) :
  (∀ i w, ws !! i = Some w → w = Waiting ∨ w = Exited) → omap work_of ws = [].
Proof.
  induction ws as [|w ws IH]; intros Hw; [done|]. csimpl.
  destruct (Hw 0 w eq_refl) as [->| ->]; apply IH; intros i; apply (Hw (S i)).
Qed.

Lemma stuck_queue s w :
  reachable n calls s → stuck s → shutdown_ (pool s) = false →
  threads s !! 0 = Some w → work_queue_ (pool s) = [].
Proof.
  intros Hr Hs Hd H0. destruct (work_queue_ (pool s)) as [|c q] eqn:Hq; [done|exfalso].
  destruct (reachable_attended n calls s Hr) as [(j&[k ks]&Hj&Hk)|[(i&v&Hi&Hv)|He]].
  - by rewrite Hq.
  - destruct k; try done. by eapply stuck_not_unlocked.
  - by destruct (stuck_thread s i v Hr Hs Hi) as [->| ->].
  - pose proof (stuck_waiting s 0 w Hr Hs Hd H0) as Hw. by rewrite (He 0 w H0) in Hw.
Qed.
End ended.

(** ** What the pool promises *)

(** At every moment at most one thread is inside a critical section, of the
    pool and of the callers together. *)
Theorem pool_mutual_exclusion {Callable} n (calls : list (list (call Callable))) s :
  reachable n calls s →
  (∀ i i', thread_pool_ (pool s) !! i = Some Holding →
           thread_pool_ (pool s) !! i' = Some Holding → i = i')
  ∧ (∀ j j', locked_at (callers s) j → locked_at (callers s) j' → j = j')
  ∧ (∀ i j, ¬ (thread_pool_ (pool s) !! i = Some Holding ∧ locked_at (callers s) j)).
Proof.
  intros Hr. destruct (reachable_exclusive n calls s Hr) as [He1 He2].
  split_and!.
  - intros i i' Hi%He1 Hi'%He1. congruence.
  - intros j j' Hj%He2 Hj'%He2. congruence.
  - intros i j [Hi%He1 Hj%He2]. congruence.
Qed.

(** C24: The work is taken in the order in which it was submitted, each once, and
    what was taken is finished or being run; the counters say so, but for
    [getActiveThreads], which is 0 whatever the threads do. *)
Theorem pool_history {Callable} n (calls : list (list (call Callable))) s :
  reachable n calls s →
  early s ++ late s = started s ++ work_queue_ (pool s)
  ∧ started s ≡ₚ finished s ++ omap work_of (thread_pool_ (pool s))
  ∧ (getTaskCount (pool s) + length (started s) = length (early s) + length (late s))%nat
  ∧ pool_size_ (pool s) = n ∧ length (thread_pool_ (pool s)) = n
  ∧ getActiveThreads (pool s) = 0.
Proof.
  intros Hr. destruct (reachable_history n calls s Hr) as (Hh&_&Hlen&Hsz&Ha).
  split_and!; try done.
  - by apply (reachable_finished n calls).
  - apply (f_equal length) in Hh. rewrite !length_app in Hh. unfold getTaskCount. lia.
Qed.

(** C15: A pool of at least one thread never deadlocks: when nothing moves any
    more, every call has returned, the destructor included, and all work that was
    submitted before the shutdown has been run to its end, in any interleaving;
    without a shutdown every thread waits for work and none is left. *)
Theorem pool_graceful {Callable} n (calls : list (list (call Callable))) s :
  reachable n calls s → stuck s → n ≠ 0%nat →
  (∀ j c, callers s !! j = Some c → c = mkCaller Idle [])
  ∧ early s `prefix_of` started s ∧ started s ≡ₚ finished s
  ∧ if isShutdown (pool s)
    then ∀ i w, thread_pool_ (pool s) !! i = Some w → w = Exited
    else (∀ i w, thread_pool_ (pool s) !! i = Some w → w = Waiting)
         ∧ work_queue_ (pool s) = [] ∧ late s = [].
Proof.
  intros Hr Hs Hn. destruct (reachable_history n calls s Hr) as (Hh&Hl&Hlen&_).
  assert (∃ w, thread_pool_ (pool s) !! 0 = Some w) as [w0 Hw0]
    by (apply lookup_lt_is_Some; lia).
  pose proof (reachable_finished n calls s Hr) as Hf.
  rewrite exited_working, app_nil_r in Hf by (intros i w; by apply (stuck_thread n calls)).
  split_and!; [intros j c; by apply (stuck_caller n calls)| |done|].
  - destruct (isShutdown (pool s)) eqn:Hd.
    + destruct (reachable_exit n calls s Hr) as [He _].
      destruct He as [_ Hle].
      { exists 0, w0. split; [done|]. by rewrite (stuck_exited n calls s 0 w0). }
      exists (drop (length (early s)) (started s)).
      assert (take (length (early s)) (early s ++ late s)
              = take (length (early s)) (started s ++ work_queue_ (pool s))) as Ht by by rewrite Hh.
      rewrite take_app_length, take_app_le in Ht by done. rewrite Ht at 1.
      by rewrite take_drop.
    + rewrite (stuck_queue n calls s w0), Hl in Hh by done.
      rewrite !app_nil_r in Hh. by rewrite Hh.
  - destruct (isShutdown (pool s)) eqn:Hd; [intros i w; by apply (stuck_exited n calls)|].
    split_and!; [intros i w; by apply (stuck_waiting n calls)| |by apply Hl].
    by apply (stuck_queue n calls s w0).
Qed.

(** C23: Without spurious wake-ups no run is longer than the work there is to do:
    together with [pool_graceful], every run ends with everything done. *)
Theorem pool_terminates {Callable} n (calls : list (list (call Callable))) mvs s :
  run mvs (init_system n calls) = Some s → forallb (negb ∘ spurious) mvs = true →
  length mvs <= total_work n calls.
Proof.
  intros Hrun Hq. rewrite <- init_work_left.
  pose proof (run_work_left n calls mvs _ s (reach_init n calls) Hrun Hq). lia.
Qed.

Lemma all_exited_moves {Callable} (s : system Callable) b s' :
  (∀ i w, thread_pool_ (pool s) !! i = Some w → w = Exited) → moves s b s' →
  thread_pool_ (pool s') = thread_pool_ (pool s)
  ∧ started s' = started s ∧ finished s' = finished s
  ∧ work_queue_ (pool s) `prefix_of` work_queue_ (pool s').
Proof.
  intros He. assert (wake <$> thread_pool_ (pool s) = thread_pool_ (pool s)) as Hwake.
  { apply list_eq. intros i. rewrite list_lookup_fmap.
    destruct (_ !! i) as [w|] eqn:Hi; [|done]. by rewrite (He i w Hi). }
  destruct 1 as [i Hi Hfree|i Hi Hd Hq|i Hi Hd Hq|i work q Hi Hq|i work Hi|i Hi
    |j k ks Hj Hfree|j k ks Hj|j c ks i Hj Hi|j c ks Hj Hn'|j k ks pc' Hj Hk|j m ks pc' Hj Hk];
    try (by apply He in Hi); simpl; rewrite ?Hwake; try done.
  destruct k; simpl; [destruct (shutdown_ _); simpl|..]; try done;
    (split_and!; [done..|by apply prefix_app_r]).
Qed.

(** Once the threads are gone nothing is started any more: [submit] still
    accepts work, and all of it stays in the queue. *)
Theorem pool_late_work {Callable} n (calls : list (list (call Callable))) s mvs s' :
  reachable n calls s → (∀ i w, thread_pool_ (pool s) !! i = Some w → w = Exited) →
  run mvs s = Some s' →
  started s' = started s ∧ finished s' = finished s
  ∧ early s' ++ late s' = started s ++ work_queue_ (pool s').
Proof.
  intros Hr He Hrun.
  assert (reachable n calls s' ∧ started s' = started s ∧ finished s' = finished s)
    as (Hr'&Hst&Hf).
  { revert s Hr He Hrun. induction mvs as [|mv mvs IH]; intros s Hr He Hrun; simplify_eq/=; [done|].
    destruct (step mv s) as [s1|] eqn:Hs; [|done]. simpl in Hrun.
    destruct (all_exited_moves s _ s1 He (step_moves _ _ _ Hs)) as (Ht&Hst&Hf&_).
    rewrite <- Hst, <- Hf. apply IH; [by eapply reach_step|by rewrite Ht|done]. }
  destruct (reachable_history n calls s' Hr') as (Hh&_). by rewrite Hh, Hst.
Qed.

(** What a move finishes. *)
Lemma step_finishes {Callable} (throws : Callable → bool) mv (s s' : system Callable) :
  step mv s = Some s' →
  ∃ fin, finished s' = finished s ++ fin ∧ escapes throws mv s = existsb throws fin.
Proof.
  assert (∀ A, finished s = finished s ++ (@nil Callable) ∧ (A → false = false)) as Hnil
    by by rewrite app_nil_r.
  destruct mv as [i|j i|i]; simpl.
  - unfold worker_step. destruct (_ !! i) as [[| | |work|]|] eqn:Hi; try done.
    + destruct (lock _ _); simpl; [|done]. intros [= <-]. exists []. by rewrite app_nil_r.
    + destruct (take_work _ _). intros [= <-]. exists []. by rewrite app_nil_r.
    + intros [= <-]. exists [work]. simpl. by rewrite orb_false_r.
  - unfold caller_step. intros Hs. exists []. rewrite app_nil_r. split; [|done].
    destruct (_ !! j) as [[[|[]|[]|] [|]]|]; simpl in Hs; repeat case_match;
      repeat (destruct (lock _ _) || destruct (notify_one _ _)); simplify_eq/=; try done;
      by destruct (shutdown_ _).
  - repeat case_match; intros; simplify_eq. exists []. by rewrite app_nil_r.
Qed.

(** A run survives exactly when none of the callables it finishes throws; it is
    then the run of callables that return. *)
Theorem run_throwing_spec {Callable} (throws : Callable → bool) mvs (s s' : system Callable) :
  run mvs s = Some s' →
  ∃ fin, finished s' = finished s ++ fin
    ∧ run_throwing throws mvs s
      = if existsb throws fin then Terminate else Done (Some s').
Proof.
  revert s. induction mvs as [|mv mvs IH]; intros s Hrun; simplify_eq/=.
  { exists []. by rewrite app_nil_r. }
  destruct (step mv s) as [s1|] eqn:Hs; simplify_eq/=.
  destruct (step_finishes throws mv s s1 Hs) as (fin&Hf&->).
  destruct (IH s1 Hrun) as (rest&->&->). exists (fin ++ rest).
  rewrite Hf, <- app_assoc, existsb_app. by destruct (existsb throws fin).
Qed.

(** ** Concrete runs

    Two threads; the first waits when the work comes, the destructor runs while
    it works. *)
Definition pool_calls : list (list (call nat)) := [[Submit 7; Destroy]].
Definition pool_moves : list move :=
  [Worker 0; Worker 0; Caller 0 0; Caller 0 0; Caller 0 0; Worker 0; Worker 0;
   Caller 0 0; Caller 0 0; Caller 0 0; Worker 0; Worker 0; Worker 0; Worker 1; Worker 1;
   Caller 0 0; Caller 0 0; Caller 0 0].
Definition run_from {Callable} (n : nat) (calls : list (list (call Callable))) mvs :=
  match run mvs (init_system n calls) with Some s => s | None => init_system n calls end.
Definition pool_end : system nat := run_from 2 pool_calls pool_moves.

Lemma run_from_reachable {Callable} n (calls : list (list (call Callable))) mvs :
  reachable n calls (run_from n calls mvs).
Proof.
  unfold run_from. destruct (run mvs _) as [s|] eqn:Hr; [|apply reach_init].
  eapply run_reachable; [apply reach_init|exact Hr].
Qed.

Lemma pool_end_stuck : stuck pool_end.
Proof. split; [intros [|[|i]]|intros [|j] i]; reflexivity. Qed.

Lemma pool_graceful_witness :
  early pool_end = [7] ∧ finished pool_end = [7] ∧ started pool_end ≡ₚ finished pool_end
  ∧ ∀ j c, callers pool_end !! j = Some c → c = mkCaller Idle [].
Proof.
  destruct (pool_graceful 2 pool_calls pool_end (run_from_reachable 2 pool_calls pool_moves)
    pool_end_stuck) as (Hc&_&Hf&_).
  - discriminate.
  - split; [reflexivity|]. split; [reflexivity|]. split; [exact Hf|exact Hc].
Defined.

Lemma pool_history_witness :
  getActiveThreads (pool (run_from 2 pool_calls (take 7 pool_moves))) = 0
  ∧ thread_pool_ (pool (run_from 2 pool_calls (take 7 pool_moves))) = [Working 7; AtLock].
Proof.
  destruct (pool_history 2 pool_calls (run_from 2 pool_calls (take 7 pool_moves))
    (run_from_reachable 2 pool_calls (take 7 pool_moves))) as (_&_&_&_&_&Ha).
  split; [exact Ha|reflexivity].
Defined.

Lemma pool_mutual_exclusion_witness :
  ¬ (thread_pool_ (pool (run_from 2 pool_calls (take 6 pool_moves))) !! 0 = Some Holding
     ∧ locked_at (callers (run_from 2 pool_calls (take 6 pool_moves))) 0).
Proof.
  destruct (pool_mutual_exclusion 2 pool_calls (run_from 2 pool_calls (take 6 pool_moves))
    (run_from_reachable 2 pool_calls (take 6 pool_moves))) as (_&_&He).
  exact (He 0 0).
Defined.

Lemma pool_terminates_witness : length pool_moves <= total_work 2 pool_calls.
Proof.
  refine (pool_terminates 2 pool_calls pool_moves pool_end _ _).
  - vm_compute. reflexivity.
  - reflexivity.
Defined.

(** The work of a late submit is never run. *)
Definition late_calls : list (list (call nat)) := [[Shutdown; Submit 8]].
Definition late_moves : list move :=
  [Caller 0 0; Caller 0 0; Caller 0 0; Worker 0; Worker 0].

Lemma pool_late_work_witness :
  let s := run_from 1 late_calls late_moves in
  let s' := run_from 1 late_calls (late_moves ++ [Caller 0 0; Caller 0 0; Caller 0 0]) in
  stuck s' ∧ late s' = [8] ∧ work_queue_ (pool s') = [8] ∧ started s' = started s.
Proof.
  intros s s'.
  destruct (pool_late_work 1 late_calls s [Caller 0 0; Caller 0 0; Caller 0 0] s')
    as (Hst&_).
  - exact (run_from_reachable 1 late_calls late_moves).
  - intros [|i] w Hi; [injection Hi as <-; reflexivity|destruct i; discriminate Hi].
  - vm_compute. reflexivity.
  - split; [split; [intros [|[|i]]|intros [|j] i]; reflexivity|].
    split; [reflexivity|]. split; [reflexivity|exact Hst].
Defined.
