(* ===== verification/Synchronize.v ===== *)
(** * Locked data: [MutexSynchronize] and [ThreadSafeQueue]
    (blueth/concurrency/MutexSynchronize.hpp, ThreadsafeQueue.hpp)

    Threads that call functions on shared data, each call under an exclusive or
    a shared lock held by a guard: the call waits for the lock, accesses the data
    one step at a time, and releases the lock on return or when an exception
    leaves it. [advance i] moves thread [i]; a schedule is a list of threads.

    The machine and its theory are generic in the data; the two classes are
    instances. Accesses of one thread interleave with those of the others, so
    that a call is atomic only as far as the locks make it so. *)
From Stdlib Require Import ZArith Lia.
From stdpp Require Import base list gmap sets.
From S2P Require Import Prelude.
Local Open Scope Z_scope.

(** ** [std::mutex] and [std::shared_mutex]

    The thread that holds the mutex exclusively, and those that share it. *)
Record shared_mutex := mkMutex { owner : option nat; sharers : gset nat }.

Definition unlocked : shared_mutex := mkMutex None ∅.

Inductive mode := Exclusive | Shared.

(** [lock] and [lock_shared], unless the thread has to wait; [unlock] and
    [unlock_shared]. *)
Definition acquire (m : mode) (i : nat) (mu : shared_mutex) : option shared_mutex :=
  match m with
  | Exclusive =>
      if bool_decide (owner mu = None ∧ sharers mu = ∅) then Some (mkMutex (Some i) ∅) else None
  | Shared =>
      if bool_decide (owner mu = None) then Some (mkMutex None ({[i]} ∪ sharers mu)) else None
  end.

Definition release (m : mode) (i : nat) (mu : shared_mutex) : shared_mutex :=
  match m with
  | Exclusive => mkMutex None (sharers mu)
  | Shared => mkMutex (owner mu) (sharers mu ∖ {[i]})
  end.

Section machine.
Context {D L : Type}.

(** One access to the data by a function with local state [L]: it may change
    the data, and may end the function with an exception. *)
Definition access : Type := D → L → D * res L.

(** A function called under a lock: the mode, the accesses, the local state at
    the start. *)
Record locked_call := mkCall { call_mode : mode; body : list access; local0 : L }.

(** The function on its own, from data [d]. *)
Fixpoint run_body (b : list access) (d : D) (l : L) : D * res L :=
  match b with
  | [] => (d, Done l)
  | a :: b => match a d l with (d, Done l) => run_body b d l | (d, r) => (d, r) end
  end.

Inductive status :=
  | Outside
  | Inside (c : locked_call) (rest : list access) (r : res L).

Record thread := mkThread { todo : list locked_call; stat : status }.

Record state := mkState {
  data_ : D;
  data_mutex_ : shared_mutex;
  threads : list thread;
  history : list (nat * locked_call * res L)   (** the calls that returned *)
}.

Definition initial (d : D) (progs : list (list locked_call)) : state :=
  mkState d unlocked ((λ p, mkThread p Outside) <$> progs) [].

(** The next step of thread [i]; [None] when it waits or is done. *)
Definition advance (i : nat) (s : state) : option state :=
  match threads s !! i with
  | None => None
  | Some (mkThread cs Outside) =>
      match cs with
      | [] => None
      | c :: cs =>
          match acquire (call_mode c) i (data_mutex_ s) with
          | None => None
          | Some mu =>
              Some (mkState (data_ s) mu
                (<[i := mkThread cs (Inside c (body c) (Done (local0 c)))]> (threads s)) (history s))
          end
      end
  | Some (mkThread cs (Inside c (a :: rest) (Done l))) =>
      let '(d, r) := a (data_ s) l in
      Some (mkState d (data_mutex_ s)
        (<[i := mkThread cs (Inside c rest r)]> (threads s)) (history s))
  | Some (mkThread cs (Inside c _ r)) =>
      Some (mkState (data_ s) (release (call_mode c) i (data_mutex_ s))
        (<[i := mkThread cs Outside]> (threads s)) (history s ++ [(i, c, r)]))
  end.

Fixpoint run_schedule (sched : list nat) (s : state) : state :=
  match sched with
  | [] => s
  | i :: sched => run_schedule sched (default s (advance i s))
  end.

(** The abstract object: the calls of [h] one after the other, each atomic; they
    must give the results recorded. *)
Inductive replay : D → list (nat * locked_call * res L) → D → Prop :=
  | replay_nil d : replay d [] d
  | replay_snoc d d1 d2 h i c r :
      replay d h d1 → run_body (body c) d1 (local0 c) = (d2, r) →
      replay d (h ++ [(i, c, r)]) d2.

(** The accesses of a call under a shared lock do not change the data. *)
Definition read_only (b : list access) : Prop :=
  ∀ a, a ∈ b → ∀ d l, (a d l).1 = d.
Definition well_behaved (c : locked_call) : Prop :=
  match call_mode c with Exclusive => True | Shared => read_only (body c) end.

(** What is left of a call. *)
Definition finish (rest : list access) (d : D) (r : res L) : D * res L :=
  match r with Done l => run_body rest d l | _ => (d, r) end.

Definition inside (s : state) (i : nat) (m : mode) : Prop :=
  ∃ cs c rest r, threads s !! i = Some (mkThread cs (Inside c rest r)) ∧ call_mode c = m.

(** The locks say who is inside. *)
Definition locks_ok (s : state) : Prop :=
  (∀ i, owner (data_mutex_ s) = Some i ↔ inside s i Exclusive)
  ∧ (∀ i, i ∈ sharers (data_mutex_ s) ↔ inside s i Shared)
  ∧ (owner (data_mutex_ s) ≠ None → sharers (data_mutex_ s) = ∅).

(** ** The invariant

    The locks say who is inside; with [d] the data after the calls that
    returned, everyone inside is in the middle of its call on [d]. *)
Record invariant (d0 : D) (s : state) : Prop := {
  inv_locks : locks_ok s;
  inv_todo i t c : threads s !! i = Some t → c ∈ todo t → well_behaved c;
  inv_atomic : ∃ d, replay d0 (history s) d
    ∧ (owner (data_mutex_ s) = None → data_ s = d)
    ∧ ∀ i cs c rest r, threads s !! i = Some (mkThread cs (Inside c rest r)) →
        run_body (body c) d (local0 c) = finish rest (data_ s) r
        ∧ (call_mode c = Shared → read_only rest)
}.

Lemma advance_cases i s s' :
  advance i s = Some s' →
  (∃ c cs mu, threads s !! i = Some (mkThread (c :: cs) Outside)
     ∧ acquire (call_mode c) i (data_mutex_ s) = Some mu
     ∧ s' = mkState (data_ s) mu
              (<[i := mkThread cs (Inside c (body c) (Done (local0 c)))]> (threads s)) (history s))
  ∨ (∃ cs c a rest l d r, threads s !! i = Some (mkThread cs (Inside c (a :: rest) (Done l)))
     ∧ a (data_ s) l = (d, r)
     ∧ s' = mkState d (data_mutex_ s) (<[i := mkThread cs (Inside c rest r)]> (threads s)) (history s))
  ∨ (∃ cs c rest r, threads s !! i = Some (mkThread cs (Inside c rest r))
     ∧ (∀ d, finish rest d r = (d, r))
     ∧ s' = mkState (data_ s) (release (call_mode c) i (data_mutex_ s))
              (<[i := mkThread cs Outside]> (threads s)) (history s ++ [(i, c, r)])).
Proof.
  unfold advance. intros Ha. destruct (threads s !! i) as [[cs [|c rest r]]|] eqn:Ht; [| |done].
  - destruct cs as [|c cs]; [done|]. case_match eqn:Hq; [|done]. simplify_eq.
    left. by eauto 10.
  - right. destruct rest as [|a rest].
    + right. exists cs, c, [], r. simplify_eq. split_and!; try done. by destruct r.
    + destruct r as [l| | | |]; [left|right..].
      * destruct (a (data_ s) l) as [d r] eqn:Hd. simplify_eq. by eauto 15.
      * simplify_eq. by eauto 10.
      * simplify_eq. by eauto 10.
      * simplify_eq. by eauto 10.
      * simplify_eq. by eauto 10.
Qed.

Lemma inside_insert s d mu h i cs c rest r j m :
  (i < length (threads s))%nat →
  inside (mkState d mu (<[i := mkThread cs (Inside c rest r)]> (threads s)) h) j m
  ↔ (j = i ∧ call_mode c = m) ∨ (j ≠ i ∧ inside s j m).
Proof.
  intros Hi. unfold inside. simpl. destruct (decide (j = i)) as [->|Hj].
  - rewrite list_lookup_insert_eq by done. split.
    + intros (? & ? & ? & ? & [= -> -> -> ->] & Hm). by left.
    + intros [[_ Hm]|[? _]]; [|done]. by eauto 10.
  - rewrite list_lookup_insert_ne by done. split; [by right|]. by intros [[? _]|[_ ?]].
Qed.

Lemma outside_insert s d mu h i cs j m :
  (i < length (threads s))%nat →
  inside (mkState d mu (<[i := mkThread cs Outside]> (threads s)) h) j m
  ↔ j ≠ i ∧ inside s j m.
Proof.
  intros Hi. unfold inside. simpl. destruct (decide (j = i)) as [->|Hj].
  - rewrite list_lookup_insert_eq by done. split; [by intros (? & ? & ? & ? & ? & _)|by intros [? _]].
  - rewrite list_lookup_insert_ne by done. by intuition.
Qed.

Lemma todo_insert s i t t0 j tj c :
  threads s !! i = Some t0 → (∀ c, c ∈ todo t → c ∈ todo t0) →
  <[i := t]> (threads s) !! j = Some tj → c ∈ todo tj →
  ∃ t', threads s !! j = Some t' ∧ c ∈ todo t'.
Proof.
  intros Hi Ht. rewrite list_lookup_insert_Some. intros [(-> & <- & _)|[_ Hj]] Hc; eauto.
Qed.

Lemma read_only_cons (a : access) b d l : read_only (a :: b) → (a d l).1 = d ∧ read_only b.
Proof.
  intros Hr. split; [apply Hr; by left|]. intros a' Ha'. apply Hr. by right.
Qed.

Lemma finish_step (a : access) rest d l d1 r :
  a d l = (d1, r) → finish (a :: rest) d (Done l) = finish rest d1 r.
Proof. intros Ha. simpl. rewrite Ha. by destruct r. Qed.

(** What acquiring tells, and what the mutex becomes. *)
Lemma acquire_spec m i mu mu' :
  acquire m i mu = Some mu' →
  owner mu = None ∧
  match m with
  | Exclusive => sharers mu = ∅ ∧ mu' = mkMutex (Some i) ∅
  | Shared => mu' = mkMutex None ({[i]} ∪ sharers mu)
  end.
Proof.
  unfold acquire. destruct m; case_bool_decide as Hb; intros [= <-]; by destruct_and?.
Qed.

(** The locks, through the three kinds of step. *)
Lemma locks_acquire s i c cs cs' mu h d :
  locks_ok s → threads s !! i = Some (mkThread cs Outside) →
  acquire (call_mode c) i (data_mutex_ s) = Some mu →
  locks_ok (mkState d mu
    (<[i := mkThread cs' (Inside c (body c) (Done (local0 c)))]> (threads s)) h).
Proof.
  intros (Ho & Hsh & Hex) Ht [Hnone Hacq]%acquire_spec.
  assert (Hi := lookup_lt_Some _ _ _ Ht).
  assert (∀ m, ¬ inside s i m) as Hout by (intros m (? & ? & ? & ? & Hq & _); congruence).
  assert (∀ j, ¬ inside s j Exclusive) as Hne by (intros j ?%Ho; congruence).
  unfold locks_ok. setoid_rewrite inside_insert; [|done..].
  destruct (call_mode c); [destruct Hacq as [He ->]|subst mu]; simpl; split_and!.
  - intros j. split; [intros [= ->]; by left|]. intros [[-> _]|[_ ?%Hne]]; done.
  - intros j. split; [set_solver|]. intros [[_ ?]|[_ ?%Hsh]]; [done|]. by rewrite He in *.
  - done.
  - intros j. split; [done|]. intros [[_ ?]|[_ ?%Hne]]; done.
  - intros j. rewrite elem_of_union, elem_of_singleton, Hsh. split.
    + intros [->|Hj]; [by left|]. right. split; [|done]. intros ->. by eapply Hout.
    + intros [[-> _]|[_ ?]]; [by left|by right].
  - done.
Qed.

Lemma locks_access s i c cs rest rest' r r' d h :
  locks_ok s → threads s !! i = Some (mkThread cs (Inside c rest r)) →
  locks_ok (mkState d (data_mutex_ s) (<[i := mkThread cs (Inside c rest' r')]> (threads s)) h).
Proof.
  intros (Ho & Hsh & Hex) Ht. assert (Hi := lookup_lt_Some _ _ _ Ht).
  assert (∀ m, inside s i m ↔ call_mode c = m) as Hin.
  { intros m. split; [intros (? & ? & ? & ? & Hq & <-); congruence|]. intros <-. by repeat eexists. }
  unfold locks_ok. setoid_rewrite inside_insert; [|done..]. simpl. split_and!; [..|done].
  - intros j. rewrite Ho. destruct (decide (j = i)) as [->|]; [rewrite Hin|]; by intuition.
  - intros j. rewrite Hsh. destruct (decide (j = i)) as [->|]; [rewrite Hin|]; by intuition.
Qed.

Lemma locks_release s i c cs rest r d h :
  locks_ok s → threads s !! i = Some (mkThread cs (Inside c rest r)) →
  locks_ok (mkState d (release (call_mode c) i (data_mutex_ s))
              (<[i := mkThread cs Outside]> (threads s)) h).
Proof.
  intros (Ho & Hsh & Hex) Ht. assert (Hi := lookup_lt_Some _ _ _ Ht).
  assert (inside s i (call_mode c)) as Hin by (by repeat eexists).
  assert (∀ m, inside s i m → m = call_mode c) as Hun.
  { intros m (? & ? & ? & ? & Hq & <-). congruence. }
  unfold locks_ok. setoid_rewrite outside_insert; [|done..]. unfold release.
  destruct (call_mode c); simpl; split_and!.
  - intros j. split; [done|]. intros [Hj Hj'%Ho]. apply Ho in Hin. congruence.
  - intros j. rewrite Hsh. split; [|by intros [_ ?]]. intros Hj. split; [|done].
    intros ->. by apply Hun in Hj.
  - done.
  - intros j. rewrite Ho. split; [|by intros [_ ?]]. intros Hj. split; [|done].
    intros ->. by apply Hun in Hj.
  - intros j. rewrite elem_of_difference, elem_of_singleton, Hsh. by intuition.
  - intros Hn%Hex. apply Hsh in Hin. rewrite Hn in Hin. by apply not_elem_of_empty in Hin.
Qed.

(** The rest of the invariant, through the three kinds of step. *)
Lemma invariant_acquire d0 s i c cs mu :
  invariant d0 s → threads s !! i = Some (mkThread (c :: cs) Outside) →
  acquire (call_mode c) i (data_mutex_ s) = Some mu →
  invariant d0 (mkState (data_ s) mu
    (<[i := mkThread cs (Inside c (body c) (Done (local0 c)))]> (threads s)) (history s)).
Proof.
  intros [Hl Htd (d & Hrep & Hd & Hin)] Ht Hacq.
  pose proof (acquire_spec _ _ _ _ Hacq) as [Hnone _]. specialize (Hd Hnone). split.
  - by eapply locks_acquire.
  - simpl. intros j t c' Hj Hc'.
    edestruct todo_insert as (t' & ? & ?); [exact Ht| |exact Hj|exact Hc'|by eauto].
    simpl. intros c0 Hc0. by right.
  - exists d. simpl. split; [done|]. split; [by intros _|]. intros j cs' c' rest r.
    rewrite list_lookup_insert_Some. intros [(-> & [= -> -> <- <-] & _)|[_ Hj]]; [|eauto].
    simpl. rewrite Hd. split; [done|]. intros Hs.
    assert (well_behaved c') as Hw by (eapply (Htd j); [done|by left]).
    unfold well_behaved in Hw. by rewrite Hs in Hw.
Qed.

Lemma invariant_access d0 s i cs c (a : access) rest l d1 r :
  invariant d0 s → threads s !! i = Some (mkThread cs (Inside c (a :: rest) (Done l))) →
  a (data_ s) l = (d1, r) →
  invariant d0 (mkState d1 (data_mutex_ s)
    (<[i := mkThread cs (Inside c rest r)]> (threads s)) (history s)).
Proof.
  intros [Hl Htd (d & Hrep & Hd & Hin)] Ht Ha.
  assert (Hl' := Hl). destruct Hl' as (Ho & Hsh & Hex).
  destruct (Hin _ _ _ _ _ Ht) as [Hrun Hro].
  assert (call_mode c = Shared → d1 = data_ s ∧ read_only rest) as Hsame.
  { intros Hs. destruct (read_only_cons a rest (data_ s) l (Hro Hs)) as [Hq ?]. by rewrite Ha in Hq. }
  split.
  - by eapply locks_access.
  - simpl. intros j t c' Hj Hc'.
    edestruct todo_insert as (t' & ? & ?); [exact Ht| |exact Hj|exact Hc'|by eauto]. done.
  - exists d. simpl. split; [done|]. split.
    + intros Hn. destruct (call_mode c) eqn:Hm.
      * assert (owner (data_mutex_ s) = Some i) by (apply Ho; by repeat eexists). congruence.
      * destruct (Hsame eq_refl) as [-> _]. auto.
    + intros j cs' c' rest' r'. rewrite list_lookup_insert_Some.
      intros [(-> & [= -> -> -> ->] & _)|[Hji Hj]].
      * split; [by rewrite <- (finish_step _ _ _ _ _ _ Ha)|]. intros Hs. by apply Hsame.
      * destruct (call_mode c) eqn:Hm; [|destruct (Hsame eq_refl) as [-> _]; eauto].
        exfalso. assert (owner (data_mutex_ s) = Some i) as Hoi by (apply Ho; by repeat eexists).
        destruct (call_mode c') eqn:Hm'.
        -- assert (owner (data_mutex_ s) = Some j) by (apply Ho; by repeat eexists). congruence.
        -- assert (j ∈ sharers (data_mutex_ s)) as Hjs by (apply Hsh; by repeat eexists).
           rewrite Hex in Hjs by congruence. by apply not_elem_of_empty in Hjs.
Qed.

Lemma invariant_release d0 s i cs c rest r :
  invariant d0 s → threads s !! i = Some (mkThread cs (Inside c rest r)) →
  (∀ d, finish rest d r = (d, r)) →
  invariant d0 (mkState (data_ s) (release (call_mode c) i (data_mutex_ s))
    (<[i := mkThread cs Outside]> (threads s)) (history s ++ [(i, c, r)])).
Proof.
  intros [Hl Htd (d & Hrep & Hd & Hin)] Ht Hfin.
  assert (Hl' := Hl). destruct Hl' as (Ho & Hsh & Hex).
  destruct (Hin _ _ _ _ _ Ht) as [Hrun _]. rewrite Hfin in Hrun. split.
  - by eapply locks_release.
  - simpl. intros j t c' Hj Hc'.
    edestruct todo_insert as (t' & ? & ?); [exact Ht| |exact Hj|exact Hc'|by eauto]. done.
  - exists (data_ s). simpl. split; [by eapply replay_snoc|]. split; [done|].
    intros j cs' c' rest' r'. rewrite list_lookup_insert_Some. intros [(_ & ? & _)|[Hji Hj]]; [done|].
    destruct (Hin _ _ _ _ _ Hj) as [Hrun' Hro']. split; [|done]. rewrite <- Hrun'. f_equal.
    destruct (owner (data_mutex_ s)) as [k|] eqn:Hk; [|auto].
    exfalso.
    assert (∀ x cx, threads s !! x = Some cx → inside s x Shared → False) as Hns.
    { intros x cx _ Hx%Hsh. rewrite Hex in Hx by done. by apply not_elem_of_empty in Hx. }
    assert (∀ x csx cx rx resx, threads s !! x = Some (mkThread csx (Inside cx rx resx)) → x = k) as Hall.
    { intros x csx cx rx resx Hx. destruct (call_mode cx) eqn:Hm.
      - assert (Some k = Some x) as [= ->]; [|done]. apply Ho. by repeat eexists.
      - exfalso. eapply Hns; [done|by repeat eexists]. }
    apply Hji. by rewrite (Hall _ _ _ _ _ Hj), (Hall _ _ _ _ _ Ht).
Qed.

Lemma invariant_advance d0 i s s' : invariant d0 s → advance i s = Some s' → invariant d0 s'.
Proof.
  intros Hi [(c & cs & mu & Ht & Ha & ->)|[(cs & c & a & rest & l & d & r & Ht & Ha & ->)
    |(cs & c & rest & r & Ht & Hf & ->)]]%advance_cases.
  - by apply invariant_acquire.
  - by eapply invariant_access.
  - by eapply invariant_release.
Qed.

Lemma invariant_initial d0 progs :
  (∀ p c, p ∈ progs → c ∈ p → well_behaved c) → invariant d0 (initial d0 progs).
Proof.
  intros Hw. assert (∀ i m, ¬ inside (initial d0 progs) i m) as Hout.
  { intros i m (? & ? & ? & ? & Hq & _). simpl in Hq. apply list_lookup_fmap_Some in Hq as (? & ? & ?). done. }
  split.
  - split_and!; [| |done]; intros i; split; [done| |set_solver|]; intros ?%Hout; done.
  - simpl. intros i t c (p & -> & Hp)%list_lookup_fmap_Some Hc. eapply Hw; [|done].
    by eapply list_elem_of_lookup_2.
  - exists d0. split; [apply replay_nil|]. split; [done|]. simpl.
    intros i cs c rest r (p & ? & _)%list_lookup_fmap_Some. done.
Qed.

Lemma invariant_run d0 sched : ∀ s, invariant d0 s → invariant d0 (run_schedule sched s).
Proof.
  induction sched as [|i sched IH]; intros s Hs; [done|]. simpl. apply IH.
  destruct (advance i s) eqn:Ha; [|done]. by eapply invariant_advance.
Qed.

(** ** Program order *)
Definition done_by (i : nat) (h : list (nat * locked_call * res L)) : list locked_call :=
  (λ e, e.1.2) <$> filter (λ e, e.1.1 = i) h.

Definition is_inside (st : status) : bool :=
  match st with Outside => false | Inside _ _ _ => true end.

Definition current (st : status) : list locked_call :=
  match st with Outside => [] | Inside c _ _ => [c] end.

(** Each thread has made, is making and will make the calls of its program. *)
Definition in_order (progs : list (list locked_call)) (s : state) : Prop :=
  ∀ i t, threads s !! i = Some t →
    progs !! i = Some (done_by i (history s) ++ current (stat t) ++ todo t).

Lemma done_by_snoc i h j c r :
  done_by i (h ++ [(j, c, r)]) = done_by i h ++ (if decide (j = i) then [c] else []).
Proof.
  unfold done_by. rewrite filter_app, fmap_app. f_equal.
  rewrite filter_cons. simpl. by case_decide.
Qed.

Lemma in_order_advance progs i s s' : in_order progs s → advance i s = Some s' → in_order progs s'.
Proof.
  intros Ho [(c & cs & mu & Ht & Ha & ->)|[(cs & c & a & rest & l & d & r & Ht & Ha & ->)
    |(cs & c & rest & r & Ht & Hf & ->)]]%advance_cases; apply Ho in Ht as Hp;
    intros j t; simpl; rewrite list_lookup_insert_Some;
    intros [(<- & <- & _)|[Hji Hj]]; simpl in *; rewrite ?done_by_snoc; try by auto.
  - rewrite Hp. case_decide; [|done]. by rewrite <- app_assoc.
  - case_decide; [done|]. rewrite app_nil_r. auto.
Qed.

Lemma in_order_run progs sched : ∀ s, in_order progs s → in_order progs (run_schedule sched s).
Proof.
  induction sched as [|i sched IH]; intros s Hs; [done|]. simpl. apply IH.
  destruct (advance i s) eqn:Ha; [|done]. by eapply in_order_advance.
Qed.

Lemma in_order_initial d progs : in_order progs (initial d progs).
Proof. intros i t. simpl. by intros (p & -> & ?)%list_lookup_fmap_Some. Qed.

(** The calls that returned are calls of the program. *)
Definition from_program (progs : list (list locked_call)) (s : state) : Prop :=
  ∀ i c r, (i, c, r) ∈ history s → ∃ p, progs !! i = Some p ∧ c ∈ p.

Lemma from_program_run progs sched : ∀ s,
  in_order progs s → from_program progs s → from_program progs (run_schedule sched s).
Proof.
  induction sched as [|i sched IH]; intros s Ho Hs; [done|]. simpl.
  destruct (advance i s) as [s'|] eqn:Ha; [|by apply IH]. simpl.
  apply IH; [by eapply in_order_advance|].
  destruct (advance_cases _ _ _ Ha) as [(c & cs & mu & _ & _ & ->)
    |[(cs & c & a & rest & l & d & r & _ & _ & ->)|(cs & c & rest & r & Ht & _ & ->)]]; [done..|].
  intros j c' r' [Hj|Hj]%elem_of_app; [by eapply Hs|].
  apply list_elem_of_singleton in Hj as [= -> -> ->]. apply Ho in Ht. eexists. split; [done|].
  simpl. set_solver.
Qed.

(** ** Progress *)
Definition finished (s : state) : Prop := ∀ t, t ∈ threads s → t = mkThread [] Outside.

Definition call_work (c : locked_call) : nat := 2 + length (body c).
Definition work (t : thread) : nat :=
  match stat t with Outside => 0 | Inside _ rest _ => 1 + length rest end
  + sum_list_with call_work (todo t).
Definition total (s : state) : nat := sum_list_with work (threads s).

(** The steps of a schedule that do something. *)
Fixpoint effective (sched : list nat) (s : state) : nat :=
  match sched with
  | [] => 0
  | i :: sched =>
      match advance i s with
      | Some s' => S (effective sched s')
      | None => effective sched s
      end
  end.

Lemma total_advance i s s' : advance i s = Some s' → (total s' < total s)%nat.
Proof.
  intros [(c & cs & mu & Ht & Ha & ->)|[(cs & c & a & rest & l & d & r & Ht & Ha & ->)
    |(cs & c & rest & r & Ht & Hf & ->)]]%advance_cases; unfold total; simpl;
    match goal with |- context [<[_ := ?t]> _] =>
      pose proof (sum_insert work _ _ t _ Ht) as Hs;
      match type of Ht with _ = Some ?t0 =>
        assert (work t < work t0)%nat by (unfold work, call_work; simpl; lia) end end; lia.
Qed.

Lemma effective_bound sched : ∀ s, (effective sched s + total (run_schedule sched s) <= total s)%nat.
Proof.
  induction sched as [|i sched IH]; intros s; simpl; [lia|].
  destruct (advance i s) as [s'|] eqn:Ha; simpl; [|apply IH].
  specialize (IH s'). apply total_advance in Ha. lia.
Qed.

(** A thread inside can go on; when nobody is, the mutex is free. *)
Lemma can_advance s :
  locks_ok s → finished s ∨ ∃ i s', advance i s = Some s'.
Proof.
  intros (Ho & Hsh & _).
  destruct (decide (Exists (λ t, is_inside (stat t) = true) (threads s))) as [Hin|Hout].
  { right. apply Exists_exists in Hin as (t & [i Hi]%list_elem_of_lookup & Hst).
    exists i. unfold advance. rewrite Hi. destruct t as [cs [|c [|a rest] r]]; [done| |].
    - by eauto.
    - destruct r as [l| | | |]; [destruct (a (data_ s) l)|..]; by eauto. }
  apply not_Exists_Forall in Hout; [|apply _].
  assert (∀ i m, ¬ inside s i m) as Hno.
  { intros i m (cs & c & rest & r & Hi & _). rewrite Forall_lookup in Hout.
    specialize (Hout _ _ Hi). by apply Hout. }
  destruct (decide (Exists (λ t, todo t ≠ []) (threads s))) as [Hin|Htd].
  - right. apply Exists_exists in Hin as (t & [i Hi]%list_elem_of_lookup & Hst).
    exists i. unfold advance. rewrite Hi. destruct t as [[|c cs] [|c' rest r]]; try done.
    + assert (owner (data_mutex_ s) = None) as Hn.
      { destruct (owner _) as [k|]; [|done]. destruct (Hno k Exclusive). by apply Ho. }
      assert (sharers (data_mutex_ s) = ∅) as He.
      { apply set_eq. intros k. rewrite Hsh. split; [by intros ?%Hno|set_solver]. }
      unfold acquire. destruct (call_mode c); rewrite bool_decide_eq_true_2 by done; by eauto.
    + exfalso. apply (Hno i (call_mode c')). by repeat eexists.
  - left. apply not_Exists_Forall in Htd; [|apply _]. intros t Ht.
    rewrite Forall_forall in Hout, Htd. specialize (Hout _ Ht). specialize (Htd _ Ht).
    destruct t as [cs st]. simpl in *. destruct st; [|by destruct Hout].
    destruct cs; [done|by destruct Htd].
Qed.

Lemma completes d0 n : ∀ s, invariant d0 s → (total s <= n)%nat →
  ∃ sched, finished (run_schedule sched s).
Proof.
  induction n as [n IH] using lt_wf_ind. intros s Hs Hn.
  destruct (can_advance s (inv_locks _ _ Hs)) as [Hf|(i & s' & Ha)]; [by exists []|].
  pose proof (total_advance _ _ _ Ha).
  destruct (IH (total s') ltac:(lia) s' (invariant_advance _ _ _ _ Hs Ha) ltac:(lia)) as [sched Hf].
  exists (i :: sched). simpl. by rewrite Ha.
Qed.
End machine.
Arguments locked_call : clear implicits.
Arguments state : clear implicits.
Arguments thread : clear implicits.
Arguments access : clear implicits.

(** ** [MutexSynchronize] *)
Module MutexSynchronize.
Section class.
Context {T L : Type}.

(** [MutexSynchronize(const T &)] initialises [data_] from [data_] itself, which
    is not initialised; [MutexSynchronize(T &&)] takes the argument. *)
Definition of_const_ref (data : T) : res T :=
  let data_ : option T := None in
  match data_ with Some d => Done d | None => Undefined Uninitialised end.
Definition of_rvalue (data : T) : res T := Done data.

(** A handler: its accesses to the data, from the local state [l]. *)
Definition withWriteLock (writeFunction : list (access T L)) (l : L) : locked_call T L :=
  mkCall Exclusive writeFunction l.
Definition withReadLock (readFunction : list (access T L)) (l : L) : locked_call T L :=
  mkCall Shared readFunction l.

Inductive client_call :=
  | Write (writeFunction : list (access T L)) (l : L)
  | Read (readFunction : list (access T L)) (l : L).

Definition to_call (c : client_call) : locked_call T L :=
  match c with Write f l => withWriteLock f l | Read f l => withReadLock f l end.

(** The threads of a client that made the object from [d]. *)
Definition mutex_client (d : T) (progs : list (list client_call)) : state T L :=
  initial d (fmap (M := list) (fmap (M := list) to_call) progs).

(** The handlers of [withReadLock] take a [const] reference. *)
Definition readers_const (progs : list (list client_call)) : Prop :=
  ∀ p f l, p ∈ progs → Read f l ∈ p → read_only f.

Lemma client_invariant d progs :
  readers_const progs → invariant d (mutex_client d progs).
Proof.
  intros Hr. apply invariant_initial. intros p' c (p & -> & Hp)%list_elem_of_fmap Hc.
  apply list_elem_of_fmap in Hc as ([f l|f l] & -> & Hc); [done|]. by eapply Hr.
Qed.
End class.
Arguments client_call : clear implicits.

(** C18: When reading handlers do not write, calls are atomic: under any interleaving
    of their accesses, the calls that returned, taken in the order they returned
    and run one after the other from the initial data, give the same results
    (values and exceptions), and that is the data whenever nobody is writing; a
    thread's calls come in program order; and a writing call excludes every other. *)
Theorem locked_calls_atomic {T L} (d0 : T) (progs : list (list (client_call T L))) sched :
  readers_const progs →
  let s := run_schedule sched (mutex_client d0 progs) in
  (∃ d, replay d0 (history s) d ∧ (owner (data_mutex_ s) = None → data_ s = d))
  ∧ (∀ i t, threads s !! i = Some t →
       ∃ p, progs !! i = Some p
         ∧ to_call <$> p = done_by i (history s) ++ current (stat t) ++ todo t)
  ∧ (∀ i j m, inside s i Exclusive → inside s j m → i = j).
Proof.
  intros Hr s. assert (invariant d0 s) as [Hl _ (d & Hrep & Hd & _)]
    by (apply invariant_run, client_invariant, Hr).
  split; [by eauto|]. split.
  - intros i t Ht. apply (in_order_run _ sched _ (in_order_initial d0 _)) in Ht.
    apply list_lookup_fmap_Some in Ht as (p & Hp & Hi). by eauto.
  - destruct Hl as (Ho & Hsh & Hex). intros i j m Hi Hj. apply Ho in Hi. destruct m.
    + apply Ho in Hj. congruence.
    + apply Hsh in Hj. rewrite Hex in Hj by congruence. by apply not_elem_of_empty in Hj.
Qed.

(** C30: The locks never block the program for good: in every state reached some
    thread can go on unless all are done, no schedule has more effective steps
    than the calls and accesses of the program, and from every state reached
    some schedule finishes every call. *)
Theorem locked_calls_finish {T L} (d0 : T) (progs : list (list (client_call T L))) sched :
  readers_const progs →
  let s := run_schedule sched (mutex_client d0 progs) in
  (finished s ∨ ∃ i s', advance i s = Some s')
  ∧ (effective sched (mutex_client d0 progs) <= total (mutex_client d0 progs))%nat
  ∧ ∃ sched', finished (run_schedule sched' s).
Proof.
  intros Hr s. assert (invariant d0 s) as Hi by (apply invariant_run, client_invariant, Hr).
  split; [by apply can_advance, (inv_locks d0)|].
  split; [pose proof (effective_bound sched (mutex_client d0 progs)); lia|].
  by eapply completes.
Qed.

(** A handler of [withReadLock] that writes, which nothing forbids, since the
    data is passed as it is: two of them interleave and an update is lost. *)
Definition read_increment : list (access Z Z) :=
  [λ d _, (d, Done d); λ _ l, (l + 1, Done l)].

Example lost_update :
  data_ (run_schedule [0; 1; 0; 1; 0; 1; 0; 1]%nat
    (mutex_client 0 [[Read read_increment 0]; [Read read_increment 0]])) = 1.
Proof. vm_compute. reflexivity. Qed.

Example writes_exclude :
  data_ (run_schedule [0; 1; 0; 1; 0; 1; 0; 1; 1; 1; 1]%nat
    (mutex_client 0 [[Write read_increment 0]; [Write read_increment 0]])) = 2.
Proof. vm_compute. reflexivity. Qed.

Definition two_reads : list (access (Z * Z) (Z * Z)) :=
  [λ d l, (d, Done (d.1, l.2)); λ d l, (d, Done (l.1, d.2))].
Definition two_writes : list (access (Z * Z) (Z * Z)) :=
  [λ d l, ((1, d.2), Done l); λ d l, ((d.1, 1), Done l)].

Lemma two_reads_const : readers_const [[Write two_writes (0, 0)]; [Read two_reads (0, 0)]].
Proof.
  intros p f l Hp Hf. repeat (apply elem_of_cons in Hp as [->|Hp]); [..|by apply not_elem_of_nil in Hp];
    repeat (apply elem_of_cons in Hf as [Hf|Hf]); try done; try by apply not_elem_of_nil in Hf.
  injection Hf as -> ->. intros a Ha. repeat (apply elem_of_cons in Ha as [->|Ha]); [done..|].
  by apply not_elem_of_nil in Ha.
Qed.

Lemma locked_calls_atomic_witness :
  let s := run_schedule [0; 1; 0; 1; 0; 0; 1; 1; 1; 1]%nat
             (mutex_client (0, 0) [[Write two_writes (0, 0)]; [Read two_reads (0, 0)]]) in
  history s = [(0%nat, withWriteLock two_writes (0, 0), Done (0, 0));
               (1%nat, withReadLock two_reads (0, 0), Done (1, 1))]
  ∧ ∃ d, replay (0, 0) (history s) d ∧ (owner (data_mutex_ s) = None → data_ s = d).
Proof.
  intros s. split; [reflexivity|].
  exact (proj1 (locked_calls_atomic (0, 0) _ [0; 1; 0; 1; 0; 0; 1; 1; 1; 1]%nat two_reads_const)).
Defined.

Lemma locked_calls_finish_witness :
  ∃ sched', finished (run_schedule sched'
    (run_schedule [0; 1; 0]%nat
      (mutex_client (0, 0) [[Write two_writes (0, 0)]; [Read two_reads (0, 0)]]))).
Proof. exact (proj2 (proj2 (locked_calls_finish (0, 0) _ [0; 1; 0]%nat two_reads_const))). Defined.
End MutexSynchronize.

(** ** [ThreadSafeQueue] *)
Module ThreadSafeQueue.
Section class.
(** The element type's moved-from values, and whether [std::queue] gets the
    memory to push onto a given content. *)
Context {T : Type} (moved_from : T → T) (memory : list T → bool).

(** The local state of a call: its argument; nothing yet; a size; an element just
    moved out of the front; the result of [pop]. *)
Inductive local :=
  | Argument (x : T)
  | Nothing
  | Sized (n : Z)
  | Taken (x : T)
  | Popped (o : option T).

Definition queue_access : Type := access (list T) local.

(** [size]: [return queue_.size();] *)
Definition size_body : list queue_access :=
  [λ q _, (q, Done (Sized (Z.of_nat (length q))))].

(** [pop]: the test for emptiness, the move from the front, the removal. *)
Definition pop_empty : queue_access := λ q l,
  match q with [] => (q, Done (Popped None)) | _ => (q, Done l) end.
Definition pop_front : queue_access := λ q l,
  match l, q with
  | Popped _, _ => (q, Done l)
  | _, x :: q => (moved_from x :: q, Done (Taken x))
  | _, [] => (q, Undefined BadArgument)
  end.
Definition pop_remove : queue_access := λ q l,
  match l, q with
  | Taken x, _ :: q => (q, Done (Popped (Some x)))
  | Taken x, [] => (q, Undefined BadArgument)
  | _, _ => (q, Done l)
  end.
Definition pop_body : list queue_access := [pop_empty; pop_front; pop_remove].

(** [push], both overloads: [noexcept], so a failed allocation ends the program. *)
Definition push_body : list queue_access :=
  [λ q l, match l with
          | Argument x =>
              if memory q then (q ++ [x], Done l) else (q, noexcept (Throw bad_alloc))
          | _ => (q, Done l)
          end].

(** Every function holds [mutex_] throughout. *)
Inductive queue_call := Size | Pop | Push (x : T).

Definition to_locked (c : queue_call) : locked_call (list T) local :=
  match c with
  | Size => mkCall Exclusive size_body Nothing
  | Pop => mkCall Exclusive pop_body Nothing
  | Push x => mkCall Exclusive push_body (Argument x)
  end.

Definition queue_client (progs : list (list queue_call)) : state (list T) local :=
  initial [] (fmap (M := list) (fmap (M := list) to_locked) progs).

(** What a history of calls has pushed and popped. *)
Definition pushed (h : list (nat * locked_call (list T) local * res local)) : list T :=
  omap (λ e, match e.2 with Done (Argument x) => Some x | _ => None end) h.
Definition popped (h : list (nat * locked_call (list T) local * res local)) : list T :=
  omap (λ e, match e.2 with Done (Popped (Some x)) => Some x | _ => None end) h.

(** The reply a call may give after history [h]. *)
Definition reply_ok (h : list (nat * locked_call (list T) local * res local)) (r : res local)
    : Prop :=
  match r with
  | Done (Argument _) | Terminate => True
  | Done (Popped (Some x)) => ∃ q, pushed h = popped h ++ x :: q
  | Done (Popped None) => pushed h = popped h
  | Done (Sized n) => Z.of_nat (length (pushed h)) = Z.of_nat (length (popped h)) + n
  | _ => False
  end.

Lemma pushed_snoc h e :
  pushed (h ++ [e])
  = pushed h ++ match e.2 with Done (Argument x) => [x] | _ => [] end.
Proof. unfold pushed. rewrite omap_app. f_equal. by destruct e as [? [[]| | | |]]. Qed.

Lemma popped_snoc h e :
  popped (h ++ [e])
  = popped h ++ match e.2 with Done (Popped (Some x)) => [x] | _ => [] end.
Proof. unfold popped. rewrite omap_app. f_equal. by destruct e as [? [[| | | |[]]| | | |]]. Qed.

Lemma replay_queue h q :
  replay [] h q → (∀ i c r, (i, c, r) ∈ h → ∃ k, c = to_locked k) →
  pushed h = popped h ++ q
  ∧ ∀ h1 i c r h2, h = h1 ++ (i, c, r) :: h2 → reply_ok h1 r.
Proof.
  remember [] as q0. induction 1 as [d|d q1 q2 h i c r Hrep IH Hrun]; intros Hc; subst.
  { split; [done|]. by intros []. }
  destruct IH as [Hq Hok]; [done|intros j c' r' Hj; eapply Hc; by apply elem_of_app; left|].
  destruct (Hc i c r) as [k ->]; [apply elem_of_app; right; by left|].
  assert (reply_ok h r ∧ pushed (h ++ [(i, to_locked k, r)]) = popped (h ++ [(i, to_locked k, r)]) ++ q2)
    as [Hr Hq2].
  { rewrite pushed_snoc, popped_snoc. unfold reply_ok. destruct k as [| |x]; simpl in Hrun.
    - simplify_eq. simpl. rewrite !app_nil_r. split; [|done]. rewrite Hq, length_app. lia.
    - destruct q1 as [|y q1]; simpl in Hrun; simplify_eq; simpl; rewrite !app_nil_r in *.
      + done.
      + split; [by exists q2|]. by rewrite <- app_assoc.
    - destruct (memory q1); simplify_eq; simpl; rewrite ?app_nil_r; [|done].
      by rewrite Hq, <- app_assoc. }
  split; [done|]. intros h1 j c' r' h2 Heq.
  destruct h2 as [|e h2 _] using rev_ind.
  - apply app_inj_tail in Heq as [-> [= _ _ ->]]. done.
  - rewrite app_comm_cons, app_assoc in Heq. apply app_inj_tail in Heq as [-> _]. by eapply Hok.
Qed.

(** C20: Under any interleaving of the threads' accesses the queue is first in, first
    out: what was pushed is what was popped followed by what is in the queue, and
    every call that returned replied what the queue of the moment says ([pop]:
    its front, or nothing when it is empty; [size]: its length). *)
Theorem queue_fifo progs sched :
  let s := run_schedule sched (queue_client progs) in
  (∃ q, pushed (history s) = popped (history s) ++ q
    ∧ (owner (data_mutex_ s) = None → data_ s = q))
  ∧ ∀ h1 i c r h2, history s = h1 ++ (i, c, r) :: h2 → reply_ok h1 r.
Proof.
  intros s. set (ps := fmap (M := list) (fmap (M := list) to_locked) progs).
  assert (invariant [] s) as [_ _ (q & Hrep & Hd & _)].
  { apply invariant_run, invariant_initial. intros p' c (p & -> & _)%list_elem_of_fmap Hc.
    by apply list_elem_of_fmap in Hc as ([] & -> & _). }
  assert (from_program ps s) as Hf.
  { apply from_program_run; [apply in_order_initial|]. by intros i c r ?%not_elem_of_nil. }
  destruct (replay_queue _ _ Hrep) as [Hq Hok]; [|by eauto].
  intros i c r (p' & Hp & Hc)%Hf. apply list_lookup_fmap_Some in Hp as (p & -> & _).
  apply list_elem_of_fmap in Hc as (k & -> & _). by exists k.
Qed.
End class.
Arguments local : clear implicits.
Arguments queue_call : clear implicits.

Example queue_run :
  let s := run_schedule [0; 0; 0; 0; 1; 0; 1; 0; 0; 1; 1; 1; 1; 1]%nat
             (queue_client (λ _ : Z, 0) (λ _, true) [[Push 5; Push 6]; [Pop; Size]]) in
  (data_ s, popped (history s)) = ([6], [5]).
Proof. vm_compute. reflexivity. Qed.
End ThreadSafeQueue.
