(* ===== verification/Vector.v ===== *)
(** * [container::vector] (blueth/containers/vector.hpp)

    The library's own growable array: a block obtained from [new T[n]], a size
    and a capacity. The block is a list of slots, each an object (whose value
    may be indeterminate) or a place whose object was destroyed, so that every
    access, destruction and [delete[]] is checked by the model.

    The operations come first; then the vector as a list ([repr]), what each
    operation does to it, the refinement of sequences of calls, the capacity
    after a run of [push_back]s, and what copying and [push_front] do. *)
From Stdlib Require Import ZArith Lia.
From stdpp Require Import base list.
From S2P Require Import Prelude.
Local Open Scope Z_scope.

(** The element type: its [sizeof], whether its destructor is trivial, the
    value [new T[n]] gives an element ([None]: an indeterminate one), which
    values can be copied, and what moving leaves of one. A copy is equal; a copy
    assignment that fails throws and leaves its target as it was; moves do not
    fail. Destroying an object of a trivially destructible type has no effect. *)
Class Element (T : Type) := {
  elt_size : positive;
  trivially_destructible : bool;
  default_value : option T;
  copyable : T → bool;
  moved_from : T → T
}.

Inductive slot (T : Type) :=
  | Destroyed
  | Object (x : option T).
Arguments Destroyed {T}.
Arguments Object {T} x.

(** The largest size of an object: [new T[n]] throws [bad_array_new_length], a
    [bad_alloc], beyond it. *)
Definition ptrdiff_max : Z := 2 ^ 63 - 1.

Record vector (T : Type) := mkVector {
  m_size : Z;
  m_capacity : Z;
  object : option (list (slot T))
}.
Arguments mkVector {T}.
Arguments m_size {T}.
Arguments m_capacity {T}.
Arguments object {T}.

(** An argument [const T &]: an object of the caller, or an element of the
    vector itself. *)
Inductive item (T : Type) :=
  | Value (x : T)
  | Elem (i : Z).
Arguments Value {T} x.
Arguments Elem {T} i.

Section operations.
Context `{Allocator} {T : Type} `{Element T}.

Abbreviation slots := (list (slot T)).

(** [new T[n]] and [delete[] p]. *)
Definition new_array (n : Z) : res slots :=
  if (n * Z.pos elt_size <=? ptrdiff_max) && alloc_ok (n * Z.pos elt_size)
  then Done (replicate (Z.to_nat n) (Object default_value))
  else Throw bad_alloc.

Definition is_object (s : slot T) : bool :=
  match s with Object _ => true | Destroyed => false end.

Definition delete_array (p : option slots) : res () :=
  match p with
  | None => Done ()
  | Some o =>
      if trivially_destructible || forallb is_object o then Done ()
      else Undefined DanglingPointer
  end.

Definition deref_block (p : option slots) : res slots :=
  match p with Some o => Done o | None => Undefined NullPointer end.

(** The value of [*(p + i)]; [*(p + i) = x], by move and by copy; a placement [new] at [p + i]; and
    [std::destroy_at(p + i)], where [p + i] may be the end of the block when
    there is nothing to do. *)
Definition read_slot (o : slots) (i : Z) : res T :=
  if i <? 0 then Undefined OutOfBounds
  else match o !! Z.to_nat i with
       | None => Undefined OutOfBounds
       | Some Destroyed => Undefined DanglingPointer
       | Some (Object None) => Undefined Uninitialised
       | Some (Object (Some x)) => Done x
       end.

Definition assign_slot (o : slots) (i : Z) (x : T) : res slots :=
  if i <? 0 then Undefined OutOfBounds
  else match o !! Z.to_nat i with
       | None => Undefined OutOfBounds
       | Some Destroyed => Undefined DanglingPointer
       | Some (Object _) => Done (<[Z.to_nat i := Object (Some x)]> o)
       end.

Definition copy_slot (o : slots) (i : Z) (x : T) : res slots :=
  o ← assign_slot o i x; if copyable x then Done o else Throw element_exception.

Definition construct_at (o : slots) (i : Z) (x : T) : res slots :=
  if (0 <=? i) && (i <? Z.of_nat (length o))
  then Done (<[Z.to_nat i := Object (Some x)]> o)
  else Undefined OutOfBounds.

Definition destroy_at (o : slots) (i : Z) : res slots :=
  if (i <? 0) || (Z.of_nat (length o) <? i) then Undefined OutOfBounds
  else if trivially_destructible then Done o
  else match o !! Z.to_nat i with
       | None => Undefined OutOfBounds
       | Some Destroyed => Undefined DanglingPointer
       | Some (Object _) => Done (<[Z.to_nat i := Destroyed]> o)
       end.

(** The value an argument refers to; [None] when the block the vector had at
    the call is gone. *)
Definition read_item (p : option slots) (x : item T) : res T :=
  match x, p with
  | Value x, _ => Done x
  | Elem i, Some o => read_slot o i
  | Elem i, None => Undefined DanglingPointer
  end.

(** [for (index = i; n times; index++) dst[index] = src[from index];] *)
Definition copy_slots (src : option slots) (n : nat) (i : Z) (from : Z → Z) (dst : slots)
    : res slots :=
  for_loop n i (λ index dst,
    o ← deref_block src; x ← read_slot o (from index); copy_slot dst index x) dst.

Definition size (v : vector T) : Z := m_size v.
Definition empty (v : vector T) : bool := m_size v =? 0.
Definition capacity (v : vector T) : Z := m_capacity v.

Definition m_reserve (allocation_size : Z) : io (vector T) () :=
  new_tmp ← lift (new_array allocation_size);
  v ← get;
  new_tmp ← lift (copy_slots (object v) (Z.to_nat (m_size v)) 0 (λ i, i) new_tmp);
  _ ← lift (delete_array (object v));
  put (mkVector (m_size v) allocation_size (Some new_tmp)).

(** [*(object + m_size) = x; m_size++;], [assign] being the assignment. *)
Definition assign_end (assign : slots → Z → T → res slots) (x : res T)
  : io (vector T) () :=
  v ← get;
  x ← lift x;
  o ← lift (o ← deref_block (object v); assign o (m_size v) x);
  put (mkVector (size_t (m_size v + 1)) (m_capacity v) (Some o)).

(** [push_back(const T &)] *)
Definition push_back (x : item T) : io (vector T) () :=
  v ← get;
  if m_size v <? m_capacity v then assign_end copy_slot (read_item (object v) x)
  else
    _ ← m_reserve (size_t (m_capacity v * 2));
    assign_end copy_slot (read_item None x).

(** [push_back(T &&)] of an object outside the vector, with what is left in
    that object. *)
Definition push_back_move (x : T) : io (vector T) T :=
  v ← get;
  if m_size v <? m_capacity v then
    _ ← assign_end assign_slot (Done x); mret (moved_from x)
  else
    _ ← m_reserve (size_t (m_capacity v * 2));
    _ ← assign_end assign_slot (Done x); mret (moved_from x).

(** The same with [std::move(v[i])], an element of the vector itself: what is left of
    it stays there. *)
Definition push_back_move_own (i : Z) : io (vector T) () :=
  v ← get;
  if m_size v <? m_capacity v then
    x ← lift (read_item (object v) (Elem i));
    _ ← assign_end assign_slot (Done x);
    v ← get;
    o ← lift (o ← deref_block (object v); assign_slot o i (moved_from x));
    put (mkVector (m_size v) (m_capacity v) (Some o))
  else
    _ ← m_reserve (size_t (m_capacity v * 2));
    assign_end assign_slot (read_item None (Elem i)).

(** The body shared by the two branches of [push_front]. *)
Definition refill_front (x : item T) : io (vector T) () :=
  v ← get;
  tmp_store ← lift (new_array (m_capacity v));
  tmp_store ← lift (x ← read_item (object v) x; copy_slot tmp_store 0 x);
  tmp_store ← lift (copy_slots (object v) (Z.to_nat (m_size v - 1)) 1
                      (λ _, m_size v - 1) tmp_store);
  _ ← lift (delete_array (object v));
  put (mkVector (size_t (m_size v + 1)) (m_capacity v) (Some tmp_store)).

Definition push_front (x : item T) : io (vector T) () :=
  v ← get;
  if m_size v <? m_capacity v then refill_front x
  else
    _ ← put (mkVector (m_size v) (size_t (m_capacity v * 2)) (object v));
    refill_front x.

(** [emplace_back(args...)], [x] being [T(args...)]. *)
Definition construct_end (x : T) : io (vector T) () :=
  v ← get;
  o ← lift (o ← deref_block (object v);
            construct_at o (size_t (size_t (m_size v - 1) * Z.pos elt_size)) x);
  put (mkVector (size_t (m_size v + 1)) (m_capacity v) (Some o)).

Definition emplace_back (x : T) : io (vector T) () :=
  v ← get;
  if m_size v <? m_capacity v then construct_end x
  else
    _ ← m_reserve (size_t (m_capacity v * 2));
    construct_end x.

Definition pop_back : io (vector T) () :=
  v ← get;
  if negb (m_size v =? 0) then
    o ← lift (o ← deref_block (object v); destroy_at o (m_size v - 1));
    put (mkVector (m_size v - 1) (m_capacity v) (Some o))
  else throw out_of_range.

(** The element accesses return a reference: an offset into the block, to be
    used through [load] and [store]. *)
Definition at_ (v : vector T) (index : Z) : res Z :=
  if index <? m_size v then Done index else Throw out_of_range.
Definition subscript (v : vector T) (index : Z) : res Z :=
  if index <? m_size v then Done index else Throw out_of_range.
Definition front (v : vector T) : res Z :=
  if 0 <? m_size v then Done 0 else Throw logic_error.
Definition back (v : vector T) : res Z :=
  if 0 <? m_size v then Done (m_size v - 1) else Throw logic_error.

Definition load (v : vector T) (ref : Z) : res T :=
  o ← deref_block (object v); read_slot o ref.
Definition store (ref : Z) (x : T) : io (vector T) () :=
  v ← get;
  o ← lift (o ← deref_block (object v); copy_slot o ref x);
  put (mkVector (m_size v) (m_capacity v) (Some o)).

(** [begin()] and [end()], and the const ones: [None] is the null pointer. *)
Definition begin_ (v : vector T) : option Z := if 0 <? m_size v then Some 0 else None.
Definition end_ (v : vector T) : option Z :=
  if 0 <? m_size v then Some (m_size v - 1) else None.
Definition const_begin (v : vector T) : option Z := if 0 <? m_size v then Some 0 else None.
Definition const_end (v : vector T) : option Z :=
  if 0 <? m_size v then Some (m_size v - 1) else None.

(** [for (index = i; n times; index++) std::destroy_at(object + index + 1);] *)
Definition destroy_run (p : option slots) (n : nat) (i : Z) : res (option slots) :=
  for_loop n i (λ index p,
    o ← deref_block p; o ← destroy_at o (index + 1); Done (Some o)) p.

Definition shrink_to_fit (v : vector T) : res (vector T) := noexcept (
  if m_size v =? m_capacity v then Done v
  else
    let offset_to_free := size_t (m_capacity v - m_size v) in
    o ← destroy_run (object v) (Z.to_nat (offset_to_free + 1 - m_size v)) (m_size v);
    Done (mkVector (m_size v) (m_size v) o)).

Definition resize (size : Z) : io (vector T) () :=
  v ← get;
  if m_capacity v <? size then
    _ ← put (mkVector (m_size v) (size_t (size * 2)) (object v));
    m_reserve (size_t (size * 2))
  else
    o ← lift (destroy_run (object v) (Z.to_nat (m_size v - size)) size);
    put (mkVector size size o).

(** The constructors: [vector(init_size)], from an initialiser list, by copy,
    and by move (the new vector and what is left of the old one). *)
Definition vector_new (init_size : Z) : res (vector T) :=
  o ← new_array 1; Done (mkVector init_size 1 (Some o)).

Definition vector_of_list (init_list : list T) : res (vector T) :=
  let n := size_t (Z.of_nat (length init_list)) in
  o ← new_array (size_t (n * 2));
  o ← copy_slots (Some ((Object ∘ Some) <$> init_list)) (Z.to_nat n) 0 (λ i, i) o;
  Done (mkVector n (size_t (n * 2)) (Some o)).

Definition vector_copy (rhs : vector T) : res (vector T) :=
  o ← new_array (m_capacity rhs);
  o ← copy_slots (object rhs) (Z.to_nat (m_size rhs + 1)) 0 (λ i, i) o;
  Done (mkVector (m_size rhs) (m_capacity rhs) (Some o)).

Definition vector_move (rhs : vector T) : vector T * vector T :=
  (mkVector (m_size rhs) (m_capacity rhs) (object rhs), mkVector 0 0 None).

(** The move assignment of another vector: the members are swapped. *)
Definition move_assign (v rhs : vector T) : vector T * vector T := (rhs, v).

Definition vector_destroy (v : vector T) : res () := delete_array (object v).

End operations.

(** ** The vector as a list *)
(** ** Sequences of calls

    The calls of a client that keeps within the public interface, the reply of
    each, and what a list would reply. A push takes an object of the client or
    [v[i]], an element of the vector itself. Any other access to an element is
    followed by a read ([At], [Subscript], [Front], [Back]) or a write
    ([AtAssign]) through the reference. *)
Inductive call (T : Type) :=
  | PushBack (x : T)
  | PushBackMove (x : T)
  | PushBackOwn (i : nat)
  | PushBackMoveOwn (i : nat)
  | PopBack
  | At (i : nat)
  | Subscript (i : nat)
  | AtAssign (i : nat) (x : T)
  | Front
  | Back
  | Size
  | Empty.
Arguments PushBack {T} x.
Arguments PushBackMove {T} x.
Arguments PushBackOwn {T} i.
Arguments PushBackMoveOwn {T} i.
Arguments PopBack {T}.
Arguments At {T} i.
Arguments Subscript {T} i.
Arguments AtAssign {T} i x.
Arguments Front {T}.
Arguments Back {T}.
Arguments Size {T}.
Arguments Empty {T}.

Inductive reply (T : Type) :=
  | Unit
  | Elt (x : T)
  | Num (n : Z)
  | Truth (b : bool).
Arguments Unit {T}.
Arguments Elt {T} x.
Arguments Num {T} n.
Arguments Truth {T} b.

Section calls.
Context `{Allocator} {T : Type} `{Element T}.

Definition read_through (ref : vector T → res Z) : io (vector T) (reply T) :=
  v ← get; x ← lift (i ← ref v; load v i); mret (Elt x).

Definition run_call (c : call T) : io (vector T) (reply T) :=
  match c with
  | PushBack x => _ ← push_back (Value x); mret Unit
  | PushBackMove x => x' ← push_back_move x; mret (Elt x')
  | PushBackOwn i =>
      v ← get; r ← lift (subscript v (Z.of_nat i)); _ ← push_back (Elem r); mret Unit
  | PushBackMoveOwn i =>
      v ← get; r ← lift (subscript v (Z.of_nat i)); _ ← push_back_move_own r; mret Unit
  | PopBack => _ ← pop_back; mret Unit
  | At i => read_through (λ v, at_ v (Z.of_nat i))
  | Subscript i => read_through (λ v, subscript v (Z.of_nat i))
  | AtAssign i x => v ← get; r ← lift (at_ v (Z.of_nat i)); _ ← store r x; mret Unit
  | Front => read_through front
  | Back => read_through back
  | Size => v ← get; mret (Num (size v))
  | Empty => v ← get; mret (Truth (empty v))
  end.

(** The caller catches what a call throws and goes on. *)
Fixpoint run_calls (cs : list (call T)) (v : vector T) : list (res (reply T)) * vector T :=
  match cs with
  | [] => ([], v)
  | c :: cs =>
      let '(r, v) := run_call c v in
      let '(rs, v) := run_calls cs v in
      (r :: rs, v)
  end.

Definition spec_read (l : list T) (i : nat) (e : exn) : res (reply T) :=
  match l !! i with Some x => Done (Elt x) | None => Throw e end.

Definition spec_call (c : call T) (l : list T) : res (reply T) * list T :=
  match c with
  | PushBack x => (Done Unit, l ++ [x])
  | PushBackMove x => (Done (Elt (moved_from x)), l ++ [x])
  | PushBackOwn i =>
      match l !! i with Some x => (Done Unit, l ++ [x]) | None => (Throw out_of_range, l) end
  | PushBackMoveOwn i =>
      match l !! i with
      | Some x => (Done Unit, <[i := moved_from x]> l ++ [x])
      | None => (Throw out_of_range, l)
      end
  | PopBack => match l with [] => (Throw out_of_range, []) | _ => (Done Unit, removelast l) end
  | At i | Subscript i => (spec_read l i out_of_range, l)
  | AtAssign i x =>
      match l !! i with
      | Some _ => (Done Unit, <[i := x]> l)
      | None => (Throw out_of_range, l)
      end
  | Front => (spec_read l 0 logic_error, l)
  | Back => (spec_read l (length l - 1) logic_error, l)
  | Size => (Done (Num (Z.of_nat (length l))), l)
  | Empty => (Done (Truth (bool_decide (l = []))), l)
  end.

(** What a call may throw that a list would not: a push may fail to get memory,
    a call that copies may fail to copy. *)
Definition may_fail (c : call T) (l : list T) (e : exn) : Prop :=
  match c with
  | PushBack x => e = bad_alloc ∨ (e = element_exception ∧ forallb copyable (x :: l) = false)
  | PushBackMove x => e = bad_alloc ∨ (e = element_exception ∧ forallb copyable l = false)
  | PushBackOwn i => e = element_exception ∧ ∃ x, l !! i = Some x ∧ copyable x = false
  | AtAssign i x => e = element_exception ∧ copyable x = false ∧ (i < length l)%nat
  | _ => False
  end.

(** The replies a list gives to the calls; one that fails changes nothing. *)
Inductive admits : list T → list (call T) → list (res (reply T)) → list T → Prop :=
  | admits_nil l : admits l [] [] l
  | admits_call l l1 l2 c cs r rs :
      spec_call c l = (r, l1) → admits l1 cs rs l2 → admits l (c :: cs) (r :: rs) l2
  | admits_fail l l2 c cs e rs :
      may_fail c l e → admits l cs rs l2 → admits l (c :: cs) (Throw e :: rs) l2.

(** The pushes of own elements find room. *)
Definition own_fits (c : call T) (v : vector T) : bool :=
  match c with
  | PushBackOwn _ | PushBackMoveOwn _ => m_size v <? m_capacity v
  | _ => true
  end.
Fixpoint own_pushes_fit (cs : list (call T)) (v : vector T) : bool :=
  match cs with
  | [] => true
  | c :: cs => own_fits c v && own_pushes_fit cs (run_call c v).2
  end.

(** A run of [push_back]s, and the number of elements they copy to grow. *)
Fixpoint push_all (xs : list T) : io (vector T) () :=
  match xs with
  | [] => mret ()
  | x :: xs => _ ← push_back (Value x); push_all xs
  end.

Fixpoint copies (xs : list T) (v : vector T) : Z :=
  match xs with
  | [] => 0
  | x :: xs =>
      (if m_size v <? m_capacity v then 0 else m_size v)
      + copies xs (push_back (Value x) v).2
  end.
End calls.

Section theory.
Context `{Allocator} {T : Type} `{Element T}.
Implicit Types (v : vector T) (l : list T) (o : list (slot T)) (x : T).

Definition objs (l : list T) : list (slot T) := (Object ∘ Some) <$> l.

(** [v] holds the elements [l]: they are the first objects of the block, the
    rest of the block holds objects too, and the capacity is within it. *)
Definition repr v l : Prop :=
  ∃ spare, object v = Some (objs l ++ spare) ∧ forallb is_object spare = true
    ∧ m_size v = Z.of_nat (length l)
    ∧ Z.of_nat (length l) <= m_capacity v <= Z.of_nat (length l + length spare)
    ∧ 1 <= m_capacity v ∧ m_capacity v * Z.pos elt_size <= ptrdiff_max.

Lemma length_objs l : length (objs l) = length l.
Proof. apply length_fmap. Qed.

Lemma objs_app l l' : objs (l ++ l') = objs l ++ objs l'.
Proof. apply fmap_app. Qed.

Lemma objs_is_object l : forallb is_object (objs l) = true.
Proof. by induction l. Qed.

Lemma objs_lookup l rest i x : l !! i = Some x → (objs l ++ rest) !! i = Some (Object (Some x)).
Proof.
  intros Hl. rewrite lookup_app_l by (rewrite length_objs; by eapply lookup_lt_Some).
  unfold objs. by rewrite list_lookup_fmap, Hl.
Qed.

Lemma read_slot_objs l rest i x :
  l !! i = Some x → read_slot (objs l ++ rest) (Z.of_nat i) = Done x.
Proof.
  intros Hl. unfold read_slot. bool_lia. by rewrite Nat2Z.id, (objs_lookup _ _ _ x Hl).
Qed.

Lemma assign_slot_at l x s rest :
  is_object s = true →
  assign_slot (objs l ++ s :: rest) (Z.of_nat (length l)) x = Done (objs (l ++ [x]) ++ rest).
Proof.
  intros Hs. unfold assign_slot. bool_lia.
  rewrite Nat2Z.id, <- (length_objs l), list_lookup_middle by done.
  destruct s; [done|]. rewrite insert_app_r_alt, Nat.sub_diag by done. simpl.
  by rewrite objs_app, <- app_assoc.
Qed.

Lemma assign_slot_inside l rest i x :
  (i < length l)%nat →
  assign_slot (objs l ++ rest) (Z.of_nat i) x = Done (objs (<[i := x]> l) ++ rest).
Proof.
  intros Hi. destruct (lookup_lt_is_Some_2 l i Hi) as [y Hy].
  unfold assign_slot. bool_lia. rewrite Nat2Z.id, (objs_lookup _ _ _ y Hy).
  rewrite insert_app_l by (by rewrite length_objs). unfold objs. by rewrite list_fmap_insert.
Qed.

Lemma copy_slot_copyable o i x : copyable x = true → copy_slot o i x = assign_slot o i x.
Proof. intros Hx. unfold copy_slot. rewrite Hx. by destruct (assign_slot _ _ _). Qed.

Lemma delete_array_objects o : forallb is_object o = true → delete_array (Some o) = Done ().
Proof. intros Ho. unfold delete_array. by rewrite Ho, orb_true_r. Qed.

Lemma forallb_drop {A} (p : A → bool) n (k : list A) :
  forallb p k = true → forallb p (drop n k) = true.
Proof. revert k. induction n; intros [|a k]; simpl; [done..|]. intros [_ Hk]%andb_true_iff. auto. Qed.

Lemma new_array_fresh n o :
  new_array n = Done o → 0 <= n → forallb is_object o = true ∧ Z.of_nat (length o) = n.
Proof.
  unfold new_array. intros Ho Hn. case_match; simplify_eq. rewrite length_replicate. split; [|lia].
  by induction (Z.to_nat n).
Qed.

Lemma copy_slots_S src n i from (dst : list (slot T)) :
  copy_slots src (S n) i from dst
  = (x ← (o ← deref_block src; read_slot o (from i));
     dst ← copy_slot dst i x; copy_slots src n (i + 1) from dst).
Proof.
  unfold copy_slots. simpl. destruct (deref_block src); try done. simpl.
  by destruct (read_slot _ _).
Qed.

(** A run of copies fills the block from the left with the values [k] read, up
    to one that cannot be copied. *)
Lemma copy_slots_fill src from k : ∀ l (dst : list (slot T)),
  (length k <= length dst)%nat → forallb is_object dst = true →
  (∀ j x, k !! j = Some x →
    (o ← deref_block src; read_slot o (from (Z.of_nat (length l + j)))) = Done x) →
  copy_slots src (length k) (Z.of_nat (length l)) from (objs l ++ dst)
  = if forallb copyable k then Done (objs (l ++ k) ++ drop (length k) dst)
    else Throw element_exception.
Proof.
  induction k as [|y k IH]; intros l dst Hn Hd Hsrc; [by rewrite app_nil_r|].
  destruct dst as [|s dst]; simpl in Hn; [lia|]. apply andb_true_iff in Hd as [Hs Hd].
  pose proof (Hsrc 0%nat y eq_refl) as Hfst. rewrite Nat.add_0_r in Hfst.
  simpl length. rewrite copy_slots_S, Hfst, Done_bind. unfold copy_slot at 1.
  rewrite assign_slot_at, Done_bind by done. simpl forallb.
  destruct (copyable y); simpl andb; [rewrite Done_bind|done].
  replace (Z.of_nat (length l) + 1) with (Z.of_nat (length (l ++ [y])))
    by (rewrite length_app; simpl; lia).
  rewrite IH; [by rewrite <- app_assoc|lia|done|].
  intros j x Hj. rewrite length_app. simpl.
  replace (length l + 1 + j)%nat with (length l + S j)%nat by lia. by apply Hsrc.
Qed.

(** The copy of the elements of a vector into a fresh block. *)
Lemma copy_elements l rest (dst : list (slot T)) :
  (length l <= length dst)%nat → forallb is_object dst = true →
  copy_slots (Some (objs l ++ rest)) (length l) 0 (λ i, i) dst
  = if forallb copyable l then Done (objs l ++ drop (length l) dst)
    else Throw element_exception.
Proof.
  intros Hl Hd. apply (copy_slots_fill _ (λ i, i) l [] dst Hl Hd).
  intros j x Hj. simpl. by apply read_slot_objs.
Qed.

(** What allocation does: [n] elements fit or not. *)
Definition fits (n : Z) : bool :=
  (n * Z.pos elt_size <=? ptrdiff_max) && alloc_ok (n * Z.pos elt_size).

Lemma m_reserve_spec v l n :
  repr v l → 1 <= n → Z.of_nat (length l) <= n →
  if negb (fits n) then m_reserve n v = (Throw bad_alloc, v)
  else if negb (forallb copyable l) then m_reserve n v = (Throw element_exception, v)
  else ∃ v', m_reserve n v = (Done (), v') ∧ repr v' l ∧ m_capacity v' = n.
Proof.
  intros (spare & Ho & Hsp & Hsz & Hcap & Hpos & Hmax) Hn Hl. unfold m_reserve.
  destruct (fits n) eqn:Hf; unfold fits in Hf; unfold new_array; rewrite Hf; [simpl negb|done].
  set (fresh := replicate (Z.to_nat n) (Object default_value)).
  assert (forallb is_object fresh = true) as Hfresh by (subst fresh; by induction (Z.to_nat n)).
  assert (Z.of_nat (length fresh) = n) as Hlen by (subst fresh; rewrite length_replicate; lia).
  autorewrite with blueth_io. rewrite Ho, Hsz, Nat2Z.id, copy_elements by (lia || done).
  destruct (forallb copyable l) eqn:Hcp; [simpl negb|done]. autorewrite with blueth_io.
  rewrite delete_array_objects by (by rewrite forallb_app, objs_is_object).
  autorewrite with blueth_io. eexists. split; [done|]. split; [|done].
  exists (drop (length l) fresh). simpl. rewrite length_drop.
  apply andb_true_iff in Hf as [?%Z.leb_le _]. split_and!; try done; try lia.
  by apply forallb_drop.
Qed.

Lemma repr_size_small v l : repr v l → m_size v + 1 < size_max ∧ m_capacity v * 2 < size_max.
Proof.
  intros (spare & _ & _ & Hsz & Hcap & _ & Hmax).
  unfold ptrdiff_max, size_max in *. nia.
Qed.

(** An assignment of [x]: one that fails when [ok] is false. *)
Definition assigns (assign : list (slot T) → Z → T → res (list (slot T))) (ok : bool) x : Prop :=
  ∀ o i, assign o i x
         = (o ← assign_slot o i x; if ok then Done o else Throw element_exception).

Lemma copy_assigns x : assigns copy_slot (copyable x) x.
Proof. done. Qed.
Lemma move_assigns x : assigns assign_slot true x.
Proof. intros o i. by destruct (assign_slot o i x). Qed.

(** Writing one more element below the capacity. *)
Lemma assign_end_spec assign ok v l x :
  assigns assign ok x → repr v l → m_size v < m_capacity v →
  if ok then ∃ v', assign_end assign (Done x) v = (Done (), v') ∧ repr v' (l ++ [x])
                   ∧ m_capacity v' = m_capacity v
  else assign_end assign (Done x) v = (Throw element_exception, v).
Proof.
  intros Has Hv Hlt. pose proof (repr_size_small _ _ Hv).
  destruct Hv as (spare & Ho & Hsp & Hsz & Hcap & Hpos & Hmax).
  destruct spare as [|s spare]; simpl in *; [lia|]. apply andb_true_iff in Hsp as [Hs Hsp].
  unfold assign_end. autorewrite with blueth_io. rewrite Ho, Hsz. simpl.
  rewrite Has, assign_slot_at, Done_bind by done. destruct ok; [|done].
  autorewrite with blueth_io.
  eexists. split; [done|]. split; [|done]. exists spare.
  simpl. rewrite length_app, size_t_small by lia. simpl. split_and!; try done; lia.
Qed.

Definition room v : bool := m_size v <? m_capacity v.

(** The body the two [push_back]s share. *)
Definition push_by (assign : list (slot T) → Z → T → res (list (slot T))) x
  : io (vector T) () :=
  v ← get;
  if m_size v <? m_capacity v then assign_end assign (Done x)
  else _ ← m_reserve (size_t (m_capacity v * 2)); assign_end assign (Done x).

Lemma push_back_by x : push_back (Value x) = push_by copy_slot x.
Proof. done. Qed.
Lemma push_back_move_by x v :
  push_back_move x v = (_ ← push_by assign_slot x; mret (moved_from x)) v.
Proof.
  unfold push_back_move, push_by. autorewrite with blueth_io.
  case_match; unfold mbind, io_bind; simpl; rewrite H1; [done|].
  by destruct (m_reserve _ v) as [[[]| | | |] v1].
Qed.

(** What a push throws, if anything. *)
Definition push_throws v l (ok : bool) : option exn :=
  let copying := if ok then None else Some element_exception in
  if room v then copying
  else if negb (fits (m_capacity v * 2)) then Some bad_alloc
  else if negb (forallb copyable l) then Some element_exception
  else copying.

(** A push on every branch: room, growth, no memory, an element that cannot be
    copied. One that throws leaves the elements as they were. *)
Lemma push_by_spec assign ok v l x :
  assigns assign ok x → repr v l →
  match push_throws v l ok with
  | None => ∃ v', push_by assign x v = (Done (), v') ∧ repr v' (l ++ [x])
      ∧ m_capacity v' = (if room v then m_capacity v else m_capacity v * 2)
  | Some e => ∃ v', push_by assign x v = (Throw e, v') ∧ repr v' l
  end.
Proof.
  intros Has Hv. pose proof (repr_size_small _ _ Hv).
  assert (Hv' := Hv). destruct Hv' as (spare & _ & _ & Hsz & Hcap & Hpos & _).
  unfold push_by, push_throws, room. autorewrite with blueth_io.
  destruct (Z.ltb_spec (m_size v) (m_capacity v)) as [Hlt|Hfull].
  { pose proof (assign_end_spec assign ok v l x Has Hv Hlt) as Ha. destruct ok; [done|eauto]. }
  rewrite size_t_small by lia.
  pose proof (m_reserve_spec v l (m_capacity v * 2) Hv ltac:(lia) ltac:(lia)) as Hr.
  destruct (negb (fits _)); [unfold mbind, io_bind; rewrite Hr; eauto|].
  destruct (negb (forallb _ _)); [unfold mbind, io_bind; rewrite Hr; eauto|].
  destruct Hr as (v1 & Hr & Hv1 & Hc). rewrite (io_bind_Done _ _ _ _ _ Hr).
  pose proof (assign_end_spec assign ok v1 l x Has Hv1) as Ha.
  assert (m_size v1 < m_capacity v1) as Hlt by (destruct Hv1 as (? & _ & _ & -> & _); lia).
  destruct ok; [|rewrite Ha by done; eauto].
  destruct (Ha Hlt) as (v2 & -> & Hv2 & Hc2). exists v2. split_and!; [done|done|lia].
Qed.

(** Removing the last element, when destruction has no effect. *)
Lemma pop_back_spec v l :
  trivially_destructible = true → repr v l →
  if decide (l = []) then pop_back v = (Throw out_of_range, v)
  else ∃ v', pop_back v = (Done (), v') ∧ repr v' (removelast l) ∧ m_capacity v' = m_capacity v.
Proof.
  intros Ht (spare & Ho & Hsp & Hsz & Hcap & Hpos & Hmax). unfold pop_back.
  autorewrite with blueth_io. case_decide as Hl.
  { subst l. by rewrite Hsz. }
  destruct (exists_last Hl) as (l' & x & ->). rewrite removelast_last.
  rewrite length_app in *. simpl in *. bool_lia. rewrite Ho. simpl. unfold destroy_at.
  rewrite Ht, !length_app, length_objs, length_app. simpl. bool_lia.
  autorewrite with blueth_io. eexists. split; [done|]. split; [|done].
  exists (Object (Some x) :: spare). simpl. rewrite objs_app, <- app_assoc. simpl.
  split_and!; try done; lia.
Qed.

Lemma load_spec v l i x : repr v l → l !! i = Some x → load v (Z.of_nat i) = Done x.
Proof.
  intros (spare & Ho & _) Hi. unfold load. rewrite Ho. simpl. by apply read_slot_objs.
Qed.

Lemma store_spec v l i x :
  repr v l → (i < length l)%nat →
  if copyable x
  then ∃ v', store (Z.of_nat i) x v = (Done (), v') ∧ repr v' (<[i := x]> l)
  else store (Z.of_nat i) x v = (Throw element_exception, v).
Proof.
  intros (spare & Ho & Hsp & Hsz & Hcap & Hpos & Hmax) Hi. unfold store, copy_slot.
  autorewrite with blueth_io. rewrite Ho. simpl.
  rewrite assign_slot_inside, Done_bind by done. destruct (copyable x); [|done].
  autorewrite with blueth_io. eexists. split; [done|]. exists spare. simpl.
  rewrite length_insert. split_and!; try done; lia.
Qed.

(** A fresh vector, a vector made from a list, and the end of a vector. *)
Lemma vector_new_spec :
  if fits 1 then ∃ v, vector_new 0 = Done v ∧ repr v [] ∧ m_capacity v = 1
  else vector_new 0 = Throw bad_alloc.
Proof.
  unfold vector_new. destruct (fits 1) eqn:Hf; unfold fits in Hf; unfold new_array; rewrite Hf; [|done].
  eexists. split; [done|]. split; [|done]. exists [Object default_value]. simpl.
  apply andb_true_iff in Hf as [?%Z.leb_le _]. split_and!; try done; lia.
Qed.

Lemma vector_of_list_spec l :
  l ≠ [] → Z.of_nat (length l) * 2 < size_max →
  if negb (fits (Z.of_nat (length l) * 2)) then vector_of_list l = Throw bad_alloc
  else if negb (forallb copyable l) then vector_of_list l = Throw element_exception
  else ∃ v, vector_of_list l = Done v ∧ repr v l.
Proof.
  intros Hne Hl. unfold vector_of_list. rewrite !size_t_small by lia.
  destruct (fits _) eqn:Hf; [|unfold fits in Hf; unfold new_array; by rewrite Hf].
  destruct (new_array (Z.of_nat (length l) * 2)) as [o| | | |] eqn:Hn;
    [|unfold new_array in Hn; unfold fits in Hf; by rewrite Hf in Hn..].
  destruct (new_array_fresh _ _ Hn ltac:(lia)) as [Hob Hlen].
  rewrite Done_bind, Nat2Z.id. pose proof (copy_elements l [] o ltac:(lia) Hob) as Hc.
  rewrite app_nil_r in Hc. unfold objs in Hc. rewrite Hc. simpl.
  destruct (forallb copyable l); [simpl|done]. eexists. split; [done|].
  eexists. simpl. split; [done|]. rewrite length_drop.
  apply andb_true_iff in Hf as [?%Z.leb_le _]. destruct l; [done|]. simpl length in *.
  split_and!; try done; try lia. by apply (forallb_drop _ (S (length l))).
Qed.

Lemma vector_destroy_spec v l : repr v l → vector_destroy v = Done ().
Proof.
  intros (spare & Ho & Hsp & _). unfold vector_destroy. rewrite Ho.
  apply delete_array_objects. by rewrite forallb_app, objs_is_object.
Qed.

(** ** Copying and [push_front] *)
Lemma copy_slots_app src n m i from (dst : list (slot T)) :
  copy_slots src (n + m) i from dst
  = (dst ← copy_slots src n i from dst; copy_slots src m (i + Z.of_nat n) from dst).
Proof. apply for_loop_split. Qed.

Lemma assign_slot_end l x : assign_slot (objs l) (Z.of_nat (length l)) x = Undefined OutOfBounds.
Proof.
  unfold assign_slot. bool_lia. rewrite Nat2Z.id, lookup_ge_None_2; [done|].
  by rewrite length_objs.
Qed.

Lemma all_copyable l : (∀ x, copyable x = true) → forallb copyable l = true.
Proof. intros Hcp. induction l as [|x l IH]; [done|]. simpl. by rewrite Hcp. Qed.

(** The copy constructor reads the slot after the last element and writes it. *)
Definition copied v l (s : option (slot T)) (r : res (vector T)) : Prop :=
  match s with
  | None => r = Undefined OutOfBounds
  | Some Destroyed => r = Undefined DanglingPointer
  | Some (Object None) => r = Undefined Uninitialised
  | Some (Object (Some _)) =>
      if room v then ∃ v', r = Done v' ∧ repr v' l ∧ m_capacity v' = m_capacity v
      else r = Undefined OutOfBounds
  end.

Lemma vector_copy_slots v l spare :
  (∀ x, copyable x = true) → repr v l → object v = Some (objs l ++ spare) → fits (m_capacity v) = true →
  copied v l (head spare) (vector_copy v).
Proof.
  intros Hcp Hv Ho Hf. pose proof (repr_size_small _ _ Hv).
  destruct Hv as (sp & Ho' & Hsp & Hsz & Hcap & Hpos & Hmax).
  assert (sp = spare) as -> by (rewrite Ho in Ho'; simplify_eq; done).
  unfold vector_copy. destruct (new_array (m_capacity v)) as [o| | | |] eqn:Hn;
    [|unfold new_array in Hn; unfold fits in Hf; by rewrite Hf in Hn..].
  destruct (new_array_fresh _ _ Hn ltac:(lia)) as [Hob Hlen].
  rewrite Done_bind, Hsz. replace (Z.to_nat _) with (length l + 1)%nat by lia.
  rewrite copy_slots_app, Ho, copy_elements, (all_copyable l Hcp), Done_bind, copy_slots_S
    by (lia || done).
  simpl. unfold read_slot at 1. bool_lia.
  rewrite Z.add_0_l, Nat2Z.id, lookup_app_r, length_objs, Nat.sub_diag by (by rewrite length_objs).
  destruct spare as [|[|[y|]] spare]; simpl; try done. unfold room.
  rewrite copy_slot_copyable by done.
  destruct (drop (length l) o) as [|s o'] eqn:Hd; apply (f_equal length) in Hd as Hdl;
    rewrite length_drop in Hdl; simpl in Hdl.
  - rewrite app_nil_r, assign_slot_end. bool_lia. done.
  - assert (forallb is_object (s :: o') = true) as [Hs Ho2]%andb_true_iff
      by (rewrite <- Hd; by apply forallb_drop).
    rewrite assign_slot_at by done. bool_lia. eexists. split; [done|]. split; [|done].
    exists (Object (Some y) :: o'). simpl. rewrite objs_app, <- app_assoc.
    split_and!; try done; lia.
Qed.

(** [push_front] keeps only the last element, repeated. *)
Definition shifted l : list T :=
  match last l with Some y => replicate (length l - 1) y | None => [] end.

Lemma length_shifted l : length (shifted l) = (length l - 1)%nat.
Proof.
  unfold shifted. destruct (last l) eqn:Hl; [apply length_replicate|].
  by apply last_None in Hl as ->.
Qed.

Lemma shifted_lookup l j y : shifted l !! j = Some y → last l = Some y.
Proof. unfold shifted. case_match; [|done]. by intros [-> _]%lookup_replicate. Qed.

Lemma refill_front_spec v l spare x :
  (∀ y, copyable y = true) → object v = Some (objs l ++ spare) → forallb is_object spare = true →
  m_size v = Z.of_nat (length l) → Z.of_nat (length l) + 1 < size_max →
  Z.of_nat (length l) <= m_capacity v → 1 <= m_capacity v → fits (m_capacity v) = true →
  refill_front (Value x) v
  = (Done (), mkVector (Z.of_nat (length l) + 1) (m_capacity v)
      (Some (objs (x :: shifted l)
        ++ drop (length (shifted l)) (replicate (Z.to_nat (m_capacity v) - 1) (Object default_value))))).
Proof.
  intros Hcp Ho Hsp Hsz Hmax Hle Hpos Hf. unfold refill_front, new_array.
  unfold fits in Hf. autorewrite with blueth_io. rewrite Hf. autorewrite with blueth_io.
  destruct (Z.to_nat (m_capacity v)) as [|c] eqn:Hc; [lia|]. rewrite replicate_S. simpl.
  pose proof (assign_slot_at [] x (Object default_value) (replicate c (Object default_value)) eq_refl) as Ha.
  change (Z.of_nat (length [])) with 0 in Ha. simpl in Ha.
  rewrite copy_slot_copyable, Ha by done.
  autorewrite with blueth_io. rewrite Ho, Hsz.
  replace (Z.to_nat (Z.of_nat (length l) - 1)) with (length (shifted l))
    by (rewrite length_shifted; lia).
  pose proof (copy_slots_fill (Some (objs l ++ spare)) (λ _, Z.of_nat (length l) - 1) (shifted l)
    [x] (replicate c (Object default_value))) as Hk. simpl in Hk. change (Z.of_nat 1) with 1 in Hk.
  change (objs [x] ++ ?k) with (Object (Some x) :: k) in Hk.
  rewrite all_copyable in Hk by done. rewrite Hk.
  - autorewrite with blueth_io.
    rewrite delete_array_objects by (by rewrite forallb_app, objs_is_object).
    autorewrite with blueth_io. by rewrite size_t_small, Nat.sub_0_r by lia.
  - rewrite length_replicate, length_shifted. lia.
  - clear. by induction c.
  - intros j y Hy%shifted_lookup. apply last_Some in Hy as (l' & ->).
    rewrite length_app. simpl. replace (Z.of_nat (length l' + 1) - 1) with (Z.of_nat (length l')) by lia.
    apply read_slot_objs. by rewrite list_lookup_middle.
Qed.

Lemma refill_front_throws v x :
  fits (m_capacity v) = false → refill_front (Value x) v = (Throw bad_alloc, v).
Proof. unfold fits, refill_front, new_array. intros Hf. autorewrite with blueth_io. by rewrite Hf. Qed.

Lemma push_front_value v l x :
  (∀ y, copyable y = true) → repr v l →
  let c := if room v then m_capacity v else m_capacity v * 2 in
  push_front (Value x) v
  = if fits c then
      (Done (), mkVector (Z.of_nat (length l) + 1) c
        (Some (objs (x :: shifted l)
          ++ drop (length (shifted l)) (replicate (Z.to_nat c - 1) (Object default_value)))))
    else (Throw bad_alloc, mkVector (m_size v) c (object v)).
Proof.
  intros Hcp Hv c. pose proof (repr_size_small _ _ Hv) as [Hs1 Hs2].
  destruct Hv as (spare & Ho & Hsp & Hsz & Hcap & Hpos & _).
  unfold push_front. autorewrite with blueth_io. rewrite Hsz in Hs1.
  unfold room in c. destruct (m_size v <? m_capacity v) eqn:Hlt; subst c; simpl.
  - destruct (fits _) eqn:Hf; [by apply (refill_front_spec v l spare); try lia|].
    rewrite refill_front_throws by done. by destruct v.
  - apply Z.ltb_ge in Hlt. autorewrite with blueth_io. rewrite size_t_small by lia.
    destruct (fits _) eqn:Hf; [|by rewrite refill_front_throws].
    by apply (refill_front_spec (mkVector _ _ _) l spare); simpl; try lia.
Qed.

(** ** The refinement *)
Lemma run_bind_Done {S A B} (m : io S A) (f : A → B) s a s' :
  m s = (Done a, s') → (x ← m; mret (f x)) s = (Done (f a), s').
Proof. intros Hm. unfold mbind, io_bind. by rewrite Hm. Qed.

Lemma run_bind_Throw {S A B} (m : io S A) (f : A → io S B) s e s' :
  m s = (Throw e, s') → (m ≫= f) s = (Throw e, s').
Proof. intros Hm. unfold mbind, io_bind. by rewrite Hm. Qed.

Lemma read_through_spec v l ref i e :
  repr v l → (ref v = if (i <? length l)%nat then Done (Z.of_nat i) else Throw e) →
  read_through ref v = (spec_read l i e, v).
Proof.
  intros Hv Hr. unfold read_through, spec_read. autorewrite with blueth_io.
  rewrite Hr. destruct (l !! i) as [x|] eqn:Hi.
  - apply lookup_lt_Some in Hi as Hlt. apply Nat.ltb_lt in Hlt as ->. simpl.
    by rewrite (load_spec v l i x).
  - apply lookup_ge_None in Hi. apply Nat.ltb_ge in Hi as ->. done.
Qed.

Lemma access_decision v l i (e : exn) :
  m_size v = Z.of_nat (length l) →
  (if Z.of_nat i <? m_size v then Done (Z.of_nat i) else Throw e)
  = if (i <? length l)%nat then Done (Z.of_nat i) else Throw e.
Proof.
  intros ->. destruct (Nat.ltb_spec i (length l)); by bool_lia.
Qed.

(** A write through [at]. *)
Lemma store_refines v l i x :
  repr v l →
  ∃ l', repr (run_call (AtAssign i x) v).2 l' ∧
    (spec_call (AtAssign i x) l = ((run_call (AtAssign i x) v).1, l')
     ∨ ∃ e, may_fail (AtAssign i x) l e ∧ (run_call (AtAssign i x) v).1 = Throw e ∧ l' = l).
Proof.
  intros Hv. assert (m_size v = Z.of_nat (length l)) as Hsz by (by destruct Hv as (?&_&_&?&_)).
  simpl. autorewrite with blueth_io. unfold at_. rewrite (access_decision v l i _ Hsz).
  destruct (l !! i) as [y|] eqn:Hi.
  - apply lookup_lt_Some in Hi as Hlt. apply Nat.ltb_lt in Hlt as Hb. rewrite Hb.
    autorewrite with blueth_io. pose proof (store_spec v l i x Hv Hlt) as Hs.
    destruct (copyable x) eqn:Hx.
    + destruct Hs as (v' & Hs & Hv'). rewrite (run_bind_Done _ (λ _, Unit) _ _ _ Hs). eauto.
    + rewrite (run_bind_Throw _ _ _ _ _ Hs). exists l. split; [done|]. right. eauto 6.
  - apply lookup_ge_None, Nat.ltb_ge in Hi as ->. eauto.
Qed.

(** The exception of a push is one the specification allows. *)
Lemma push_throws_allowed v l ok e :
  push_throws v l ok = Some e →
  e = bad_alloc ∨ e = element_exception ∧ ok && forallb copyable l = false.
Proof.
  unfold push_throws. intros He. destruct ok, (forallb copyable l); simpl in *;
    repeat case_match; simplify_eq; auto.
Qed.

(** A push of an own element, where there is room. *)
Lemma push_own_refines v l i :
  repr v l → own_fits (PushBackOwn i) v = true →
  ∃ l', repr (run_call (PushBackOwn i) v).2 l' ∧
    (spec_call (PushBackOwn i) l = ((run_call (PushBackOwn i) v).1, l')
     ∨ ∃ e, may_fail (PushBackOwn i) l e ∧ (run_call (PushBackOwn i) v).1 = Throw e ∧ l' = l).
Proof.
  intros Hv Hroom. assert (m_size v = Z.of_nat (length l)) as Hsz by (by destruct Hv as (?&_&_&?&_)).
  simpl. autorewrite with blueth_io. unfold subscript. rewrite (access_decision v l i _ Hsz).
  destruct (l !! i) as [x|] eqn:Hi.
  2:{ apply lookup_ge_None, Nat.ltb_ge in Hi as ->. eauto. }
  apply lookup_lt_Some in Hi as Hlt. apply Nat.ltb_lt in Hlt as Hb. rewrite Hb.
  autorewrite with blueth_io.
  assert (push_back (Elem (Z.of_nat i)) v = assign_end copy_slot (Done x) v) as Hp.
  { unfold push_back. autorewrite with blueth_io. simpl in Hroom. rewrite Hroom.
    destruct Hv as (spare & -> & _). simpl. by rewrite (read_slot_objs l spare i x). }
  pose proof (assign_end_spec _ _ v l x (copy_assigns x) Hv) as Ha.
  simpl in Hroom. apply Z.ltb_lt in Hroom. specialize (Ha Hroom). rewrite <- Hp in Ha.
  destruct (copyable x) eqn:Hx.
  - destruct Ha as (v' & Ha & Hv' & _). rewrite (run_bind_Done _ (λ _, Unit) _ _ _ Ha). eauto.
  - rewrite (run_bind_Throw _ _ _ _ _ Ha). exists l. split; [done|]. right.
    exists element_exception. by eauto 6.
Qed.

Lemma push_move_own_refines v l i :
  repr v l → own_fits (PushBackMoveOwn i) v = true →
  ∃ l', repr (run_call (PushBackMoveOwn i) v).2 l' ∧
    spec_call (PushBackMoveOwn i) l = ((run_call (PushBackMoveOwn i) v).1, l').
Proof.
  intros Hv Hroom. assert (m_size v = Z.of_nat (length l)) as Hsz by (by destruct Hv as (?&_&_&?&_)).
  simpl. autorewrite with blueth_io. unfold subscript. rewrite (access_decision v l i _ Hsz).
  destruct (l !! i) as [x|] eqn:Hi.
  2:{ apply lookup_ge_None, Nat.ltb_ge in Hi as ->. eauto. }
  apply lookup_lt_Some in Hi as Hlt. apply Nat.ltb_lt in Hlt as Hb. rewrite Hb.
  autorewrite with blueth_io. simpl in Hroom.
  assert (m_size v < m_capacity v) as Hlt' by by apply Z.ltb_lt.
  pose proof (assign_end_spec _ _ v l x (move_assigns x) Hv Hlt') as (v1 & Ha & Hv1 & _).
  destruct Hv1 as (spare & Ho & Hsp & Hsz1 & Hcap & Hpos & Hmax).
  exists (<[i := moved_from x]> l ++ [x]).
  assert (push_back_move_own (Z.of_nat i) v
    = (Done (), mkVector (m_size v1) (m_capacity v1)
                  (Some (objs (<[i := moved_from x]> l ++ [x]) ++ spare)))) as Hp.
  { unfold push_back_move_own. autorewrite with blueth_io. rewrite Hroom.
    destruct Hv as (spare0 & -> & _). simpl. rewrite (read_slot_objs l spare0 i x) by done.
    autorewrite with blueth_io. rewrite (io_bind_Done _ _ _ _ _ Ha).
    autorewrite with blueth_io. rewrite Ho. simpl.
    rewrite assign_slot_inside by (rewrite length_app; simpl; lia).
    autorewrite with blueth_io. by rewrite insert_app_l. }
  rewrite (run_bind_Done _ (λ _, Unit) _ _ _ Hp). split; [|done]. exists spare. simpl.
  rewrite length_app, length_insert in *. simpl in *. split_and!; try done; lia.
Qed.

(** One call. *)
Lemma run_call_refines v l c :
  trivially_destructible = true → repr v l → own_fits c v = true →
  ∃ l', repr (run_call c v).2 l' ∧
    (spec_call c l = ((run_call c v).1, l')
     ∨ ∃ e, may_fail c l e ∧ (run_call c v).1 = Throw e ∧ l' = l).
Proof.
  intros Ht Hv Hfit. assert (m_size v = Z.of_nat (length l)) as Hsz by (by destruct Hv as (?&_&_&?&_)).
  destruct c as [x|x|i|i| |i|i|i x| | | |];
    [simpl|simpl|by apply push_own_refines
    |destruct (push_move_own_refines v l i Hv Hfit) as (l' & ? & ?); by eauto|simpl..].
  - pose proof (push_by_spec _ _ v l x (copy_assigns x) Hv) as Hp.
    rewrite push_back_by. destruct (push_throws _ _ _) as [e|] eqn:He.
    + destruct Hp as (v' & Hp & Hv'). rewrite (run_bind_Throw _ _ _ _ _ Hp).
      apply push_throws_allowed in He. exists l. split; [done|]. right. by exists e.
    + destruct Hp as (v' & Hp & Hv' & _). rewrite (run_bind_Done _ (λ _, Unit) _ _ _ Hp). eauto.
  - pose proof (push_back_move_by x v) as Hm.
    pose proof (push_by_spec _ _ v l x (move_assigns x) Hv) as Hp.
    destruct (push_throws _ _ _) as [e|] eqn:He.
    + destruct Hp as (v' & Hp & Hv'). rewrite (run_bind_Throw _ _ _ _ _ Hp) in Hm.
      rewrite (run_bind_Throw _ _ _ _ _ Hm).
      apply push_throws_allowed in He. exists l. split; [done|]. right. by exists e.
    + destruct Hp as (v' & Hp & Hv' & _).
      rewrite (run_bind_Done _ (λ _, moved_from x) _ _ _ Hp) in Hm.
      rewrite (run_bind_Done _ Elt _ _ _ Hm). eauto.
  - pose proof (pop_back_spec v l Ht Hv) as Hp. case_decide as Hl.
    + subst l. rewrite (run_bind_Throw _ _ _ _ _ Hp). eauto.
    + destruct Hp as (v' & Hp & Hv' & _). rewrite (run_bind_Done _ (λ _, Unit) _ _ _ Hp).
      destruct l; [done|]. eauto.
  - rewrite (read_through_spec v l _ i out_of_range Hv) by (by apply access_decision). eauto.
  - rewrite (read_through_spec v l _ i out_of_range Hv) by (by apply access_decision). eauto.
  - by apply store_refines.
  - rewrite (read_through_spec v l _ 0 logic_error Hv); [eauto|].
    unfold front. rewrite Hsz. by destruct l.
  - rewrite (read_through_spec v l _ (length l - 1) logic_error Hv); [eauto|].
    unfold back. rewrite Hsz. destruct l; [done|]. simpl length.
    rewrite (proj2 (Nat.ltb_lt _ _)) by lia. bool_lia. f_equal. lia.
  - autorewrite with blueth_io. exists l. unfold size. rewrite Hsz. eauto.
  - autorewrite with blueth_io. exists l. split; [done|]. left. unfold empty. rewrite Hsz.
    by destruct l.
Qed.

Lemma run_calls_refines cs : ∀ v l,
  trivially_destructible = true → repr v l → own_pushes_fit cs v = true →
  ∃ l', admits l cs (run_calls cs v).1 l' ∧ repr (run_calls cs v).2 l'.
Proof.
  induction cs as [|c cs IH]; intros v l Ht Hv Hown; simpl; [eauto using admits_nil|].
  simpl in Hown. apply andb_true_iff in Hown as [Hc Hcs].
  destruct (run_call_refines v l c Ht Hv Hc) as (l1 & Hv1 & Hs).
  destruct (run_call c v) as [r v1]. simpl in *.
  destruct (IH v1 l1 Ht Hv1 Hcs) as (l2 & Ha & Hv2). destruct (run_calls cs v1) as [rs v2]. simpl in *.
  exists l2. split; [|done]. destruct Hs as [Hs|(e & Hp & -> & ->)].
  - by eapply admits_call.
  - by apply admits_fail.
Qed.

(** C28: A client that only uses [push_back], [pop_back], [at],
    [operator[]], [front], [back], [size] and [empty] on a vector of elements
    with a trivial destructor, and pushes an element of the vector itself only
    where there is room, sees a list: the same values, the same
    exceptions, and no undefined behaviour to the end of the vector. A push that
    gets no memory, or a call whose copy of an element throws, changes nothing.
    Where there is no room, [push_back(v[i])] is undefined
    ([push_back_own_element]). *)
Theorem vector_refines_list v cs :
  trivially_destructible = true → vector_new 0 = Done v → own_pushes_fit cs v = true →
  let '(rs, v') := run_calls cs v in
  ∃ l, admits [] cs rs l ∧ repr v' l ∧ vector_destroy v' = Done ().
Proof.
  intros Ht Hn Hown. pose proof vector_new_spec as Hs. destruct (fits 1); [|congruence].
  destruct Hs as (v0 & Hv0 & Hr & _). simplify_eq.
  destruct (run_calls_refines cs v [] Ht) as (l & Ha & Hl); [congruence|done|].
  destruct (run_calls cs v) as [rs v']. eauto using vector_destroy_spec.
Qed.

(** ** Growth *)
Lemma log2_up_double n : 1 <= n → 2 ^ Z.log2_up n = n → Z.log2_up (n + 1) = Z.log2_up n + 1.
Proof.
  intros Hn Hp. pose proof (Z.log2_up_nonneg n). apply Z.log2_up_unique; [lia|].
  rewrite Z.pow_add_r by lia. replace (Z.pred (Z.log2_up n + 1)) with (Z.log2_up n) by lia. lia.
Qed.

Lemma log2_up_same n : 0 <= n → n < 2 ^ Z.log2_up n → Z.log2_up (n + 1) = Z.log2_up n.
Proof.
  intros Hn Hlt. destruct (decide (n <= 1)) as [Hle|Hgt].
  { destruct (decide (n = 0)) as [->|]; [done|]. assert (n = 1) as -> by lia. done. }
  pose proof (Z.log2_up_spec n ltac:(lia)). apply Z.log2_up_unique; [|lia].
  apply Z.log2_up_pos. lia.
Qed.

Lemma log2_up_lt_double n : 1 <= n → 2 ^ Z.log2_up n < 2 * n.
Proof.
  intros Hn. destruct (decide (n = 1)) as [->|]; [done|].
  pose proof (Z.log2_up_spec n ltac:(lia)) as [Hlt _].
  pose proof (Z.log2_up_pos n ltac:(lia)).
  replace (Z.log2_up n) with (Z.pred (Z.log2_up n) + 1) at 1 by lia.
  rewrite Z.pow_add_r by lia. lia.
Qed.

Lemma push_all_spec xs : ∀ v l,
  repr v l → m_capacity v = 2 ^ Z.log2_up (Z.of_nat (length l)) →
  (∀ n, alloc_ok n = true) → forallb copyable (l ++ xs) = true →
  Z.of_nat (length l + length xs) * 2 * Z.pos elt_size <= ptrdiff_max →
  ∃ v', push_all xs v = (Done (), v') ∧ repr v' (l ++ xs)
    ∧ m_capacity v' = 2 ^ Z.log2_up (Z.of_nat (length (l ++ xs)))
    ∧ copies xs v = m_capacity v' - m_capacity v.
Proof.
  induction xs as [|x xs IH]; intros v l Hv Hc Ha Hcp Hb; cbn [push_all copies].
  { exists v. rewrite app_nil_r. split_and!; [done..|lia]. }
  assert (Hcp' := Hcp). rewrite forallb_app in Hcp'. simpl in Hcp'.
  apply andb_true_iff in Hcp' as [Hcl [Hcx _]%andb_true_iff].
  pose proof (push_by_spec _ _ v l x (copy_assigns x) Hv) as Hp.
  assert (Hv' := Hv). destruct Hv' as (spare & _ & _ & Hsz & Hcap & Hpos & _).
  assert (room v = true ∨ room v = false ∧ m_capacity v = Z.of_nat (length l)) as Hroom.
  { unfold room. destruct (Z.ltb_spec (m_size v) (m_capacity v)); [auto|right; split; [done|lia]]. }
  assert (push_throws v l (copyable x) = None) as Hok.
  { unfold push_throws. rewrite Hcx, Hcl. destruct Hroom as [->|[-> Hfull]]; [done|].
    unfold fits. rewrite Ha, andb_true_r. simpl in Hb.
    by rewrite (proj2 (Z.leb_le _ _)) by nia. }
  rewrite Hok in Hp. destruct Hp as (v1 & Hp & Hv1 & Hc1).
  assert (m_capacity v1 = 2 ^ Z.log2_up (Z.of_nat (length (l ++ [x])))) as Hc1'.
  { rewrite Hc1, length_app, Nat2Z.inj_add. simpl length. change (Z.of_nat 1) with 1.
    destruct Hroom as [Hr|[Hr Hfull]]; rewrite Hr.
    - rewrite log2_up_same; [done|lia|]. unfold room in Hr. apply Z.ltb_lt in Hr. lia.
    - rewrite log2_up_double, Z.pow_add_r by (lia || apply Z.log2_up_nonneg). lia. }
  destruct (IH v1 (l ++ [x]) Hv1 Hc1' Ha) as (v' & Hpa & Hv' & Hc' & Hco).
  { by rewrite <- app_assoc. }
  { rewrite length_app. simpl in *. lia. }
  exists v'. rewrite push_back_by, (io_bind_Done _ _ _ _ _ Hp). rewrite <- app_assoc in *.
  split_and!; [done..|]. rewrite Hp. simpl. rewrite Hco. fold (room v). rewrite Hc1.
  destruct Hroom as [->|[-> Hfull]]; lia.
Qed.

(** C31: Pushing [n] elements onto a new vector leaves the capacity at the least
    power of two that holds them, so less than twice as large (1 when there are
    none), and copies one
    element less than that in all: the cost of a [push_back] is constant on
    average. The capacity never wraps around. *)
Theorem vector_capacity_bounds xs v :
  vector_new 0 = Done v → (∀ n, alloc_ok n = true) → forallb copyable xs = true →
  Z.of_nat (length xs) * 2 * Z.pos elt_size <= ptrdiff_max →
  ∃ v', push_all xs v = (Done (), v') ∧ repr v' xs
    ∧ m_capacity v' = 2 ^ Z.log2_up (Z.of_nat (length xs))
    ∧ Z.of_nat (length xs) <= m_capacity v' < Z.max 2 (2 * Z.of_nat (length xs))
    ∧ copies xs v = m_capacity v' - 1.
Proof.
  intros Hn Ha Hcp Hb. pose proof vector_new_spec as Hs. destruct (fits 1); [|congruence].
  destruct Hs as (v0 & Hv0 & Hr & Hc). simplify_eq.
  destruct (push_all_spec xs v []) as (v' & Hp & Hv' & Hc' & Hco); [congruence| |done..|].
  { replace v with v0 by congruence. done. }
  exists v'. simpl in *. assert (m_capacity v = 1) as <- by congruence.
  assert (Hv1 := Hv'). destruct Hv1 as (spare & _ & _ & _ & Hcap & _).
  split_and!; try done; try lia. rewrite Hc'. destruct xs as [|x xs]; [done|].
  pose proof (log2_up_lt_double (Z.of_nat (length (x :: xs))) ltac:(simpl; lia)). simpl in *. lia.
Qed.

(** C29: A [push_back] on every branch. It throws exactly when there is no room and
    no memory, or when the new element, or an old one that has to move to the
    new block, cannot be copied; and then the vector holds the elements it held. *)
Theorem vector_push_back_spec v l x :
  repr v l →
  match push_throws v l (copyable x) with
  | Some e => ∃ v', push_back (Value x) v = (Throw e, v') ∧ repr v' l
  | None => ∃ v', push_back (Value x) v = (Done (), v') ∧ repr v' (l ++ [x])
      ∧ m_capacity v' = (if room v then m_capacity v else m_capacity v * 2)
  end.
Proof. apply push_by_spec, copy_assigns. Qed.

(** The copy constructor, on a vector whose memory request can be met: it
    copies the slot after the last element too, which is out of bounds when the
    vector is full, and indeterminate when elements of [T] are not initialised by
    default; otherwise the copy holds the same elements. *)
Theorem vector_copy_spec v l spare :
  (∀ x, copyable x = true) → repr v l → object v = Some (objs l ++ spare) → fits (m_capacity v) = true →
  copied v l (head spare) (vector_copy v).
Proof. apply vector_copy_slots. Qed.

(** [push_front] of a new value [x], on every branch: the size grows by one, but
    after [x] come copies of the last element only, then a fresh element; when
    there is no memory the capacity is doubled all the same. *)
Theorem vector_push_front_spec v l x :
  (∀ y, copyable y = true) → repr v l →
  let c := if room v then m_capacity v else m_capacity v * 2 in
  push_front (Value x) v
  = if fits c then
      (Done (), mkVector (Z.of_nat (length l) + 1) c
        (Some (objs (x :: shifted l)
          ++ drop (length (shifted l)) (replicate (Z.to_nat c - 1) (Object default_value)))))
    else (Throw bad_alloc, mkVector (m_size v) c (object v)).
Proof. apply push_front_value. Qed.

(** ** Other calls *)

(** A [push_back] of one of the vector's own elements when it is full reads the
    block that growing has just released, by copy and by move. *)
Lemma push_back_own_element v l i :
  forallb copyable l = true → repr v l → room v = false → fits (m_capacity v * 2) = true →
  (push_back (Elem i) v).1 = Undefined DanglingPointer
  ∧ (push_back_move_own i v).1 = Undefined DanglingPointer.
Proof.
  intros Hcp Hv Hr Hf. pose proof (repr_size_small _ _ Hv) as [_ Hs].
  assert (Hv' := Hv). destruct Hv' as (spare & _ & _ & Hsz & Hcap & Hpos & _).
  unfold push_back, push_back_move_own. unfold room in Hr. autorewrite with blueth_io.
  rewrite Hr. apply Z.ltb_ge in Hr. rewrite size_t_small by lia.
  pose proof (m_reserve_spec v l (m_capacity v * 2) Hv ltac:(lia) ltac:(lia)) as Hm.
  rewrite Hf, Hcp in Hm. destruct Hm as (v1 & Hm & _).
  by rewrite !(io_bind_Done _ _ _ _ _ Hm).
Qed.

(** A vector of capacity 0 (moved from, made from an empty list, or shrunk while
    empty) cannot be pushed to. *)
Lemma push_back_no_capacity v x :
  m_size v = 0 → m_capacity v = 0 → object v = None ∨ (∃ o, object v = Some o ∧ forallb is_object o = true) →
  alloc_ok 0 = true → (push_back (Value x) v).1 = Undefined OutOfBounds.
Proof.
  intros Hs Hc Ho Ha. unfold push_back. autorewrite with blueth_io. rewrite Hs, Hc. simpl.
  change (size_t (0 * 2)) with 0. unfold m_reserve, new_array. rewrite Z.mul_0_l, Ha. simpl.
  unfold mbind, io_bind. simpl. rewrite Hs. simpl.
  destruct Ho as [->|(o & -> & Ho)]; [|rewrite delete_array_objects by done];
    done.
Qed.

(** [for (it = begin(); it != end(); it++)] stops before the last element. *)
Lemma iteration_misses_last v l b e :
  repr v l → begin_ v = Some b → end_ v = Some e →
  b = 0 ∧ Z.to_nat (e - b) = length (removelast l)
  ∧ const_begin v = Some b ∧ const_end v = Some e.
Proof.
  intros (spare & _ & _ & Hsz & _). unfold begin_, end_, const_begin, const_end.
  case_match eqn:Hp; [|done]. intros [= <-] [= <-]. split; [done|]. split; [|done].
  apply Z.ltb_lt in Hp. rewrite Hsz in *.
  destruct l as [|x l] using rev_ind; [simpl in Hp; lia|].
  rewrite removelast_last, length_app. simpl. lia.
Qed.

(** A [resize] beyond the capacity that gets no memory leaves the new capacity
    with the old block. *)
Lemma resize_throws v n :
  0 <= m_capacity v < n → 2 * n < size_max → fits (n * 2) = false →
  resize n v = (Throw bad_alloc, mkVector (m_size v) (n * 2) (object v)).
Proof.
  intros Hn Hs Hf. unfold resize. autorewrite with blueth_io. bool_lia.
  autorewrite with blueth_io. rewrite size_t_small by lia. unfold m_reserve, new_array.
  unfold fits in Hf. by rewrite Hf.
Qed.

(** The same of [push_front]; and a [push_back] below a capacity that the
    block does not have writes past it. *)
Lemma push_back_past_block v l x :
  object v = Some (objs l) → m_size v = Z.of_nat (length l) → m_size v < m_capacity v →
  (push_back (Value x) v).1 = Undefined OutOfBounds.
Proof.
  intros Ho Hs Hc. unfold push_back. autorewrite with blueth_io. bool_lia.
  unfold assign_end, copy_slot. autorewrite with blueth_io. rewrite Ho, Hs. simpl.
  by rewrite assign_slot_end.
Qed.

(** [pop_back] of an object with a destructor leaves a destroyed slot, which the
    next [push_back] assigns to and the destructor destroys again. *)
Lemma pop_back_destroys v l y x :
  trivially_destructible = false → repr v (l ++ [y]) →
  ∃ v', pop_back v = (Done (), v') ∧ vector_destroy v' = Undefined DanglingPointer
    ∧ (push_back (Value x) v').1 = Undefined DanglingPointer.
Proof.
  intros Ht (spare & Ho & Hsp & Hsz & Hcap & Hpos & Hmax). unfold pop_back.
  rewrite length_app in *. simpl in *. autorewrite with blueth_io. bool_lia. rewrite Ho. simpl.
  rewrite objs_app, <- app_assoc. unfold destroy_at.
  rewrite Ht, length_app, length_objs. simpl. bool_lia.
  replace (Z.to_nat (m_size v - 1)) with (length (objs l)) by (rewrite length_objs; lia).
  rewrite list_lookup_middle by done. autorewrite with blueth_io.
  rewrite insert_app_r_alt, Nat.sub_diag by done. simpl. eexists. split; [done|].
  unfold vector_destroy, delete_array. simpl. rewrite Ht, forallb_app. simpl.
  rewrite andb_false_r. split; [done|].
  unfold push_back. autorewrite with blueth_io. simpl. bool_lia. unfold assign_end.
  autorewrite with blueth_io. simpl. unfold copy_slot, assign_slot. bool_lia.
  replace (Z.to_nat (m_size v - 1)) with (length (objs l)) by (rewrite length_objs; lia).
  by rewrite list_lookup_middle.
Qed.

(** [emplace_back] constructs at [(m_size - 1) * sizeof(T)] slots from the start:
    for one-byte elements over the last element. *)
Lemma emplace_back_overwrites v l y x :
  repr v (l ++ [y]) → room v = true → elt_size = 1%positive →
  ∃ v' o, emplace_back x v = (Done (), v') ∧ object v' = Some (objs (l ++ [x]) ++ o)
    ∧ m_size v' = m_size v + 1.
Proof.
  intros Hv Hr Hone. pose proof (repr_size_small _ _ Hv) as [Hs _].
  destruct Hv as (spare & Ho & Hsp & Hsz & Hcap & Hpos & Hmax).
  rewrite length_app in *. simpl in *. unfold emplace_back. autorewrite with blueth_io.
  unfold room in Hr. rewrite Hr. unfold construct_end. autorewrite with blueth_io.
  rewrite Hone, (size_t_small (m_size v - 1)), Z.mul_1_r, !size_t_small, Ho by lia. simpl.
  unfold construct_at. rewrite !length_app, length_objs, length_app. simpl. bool_lia.
  autorewrite with blueth_io. do 2 eexists. split; [done|]. simpl.
  split; [|done]. replace (Z.to_nat (m_size v - 1)) with (length (objs l)) by (rewrite length_objs; lia).
  by rewrite !objs_app, <- !app_assoc, insert_app_r_alt, Nat.sub_diag by done.
Qed.

(** Moving: the new vector has the elements, the old one no block; its
    destructor does nothing. *)
Lemma vector_move_spec v l :
  repr v l →
  let '(v', old) := vector_move v in
  repr v' l ∧ size old = 0 ∧ capacity old = 0 ∧ vector_destroy old = Done ().
Proof. destruct v. by intros Hv. Qed.

(** [resize] below the capacity, and [shrink_to_fit]: the capacity becomes the
    size. *)
Lemma destroy_run_trivial (o : list (slot T)) n i :
  trivially_destructible = true → 0 <= i → i + Z.of_nat n <= Z.of_nat (length o) →
  destroy_run (Some o) n i = Done (Some o).
Proof.
  intros Ht Hi Hn. unfold destroy_run.
  edestruct (for_loop_inv (λ _ p, p = Some o)) as (p & -> & ->); [done| |done].
  intros j p Hj ->. exists (Some o). split; [|done]. simpl. unfold destroy_at. rewrite Ht.
  rewrite (proj2 (Z.ltb_ge _ 0)), (proj2 (Z.ltb_ge _ (j + 1))) by lia. done.
Qed.

Lemma resize_below v l n :
  trivially_destructible = true → repr v l → 1 <= n <= Z.of_nat (length l) →
  ∃ v', resize n v = (Done (), v') ∧ repr v' (take (Z.to_nat n) l) ∧ m_capacity v' = n.
Proof.
  intros Ht (spare & Ho & Hsp & Hsz & Hcap & Hpos & Hmax) Hn. unfold resize.
  autorewrite with blueth_io. bool_lia. rewrite Ho, destroy_run_trivial; [|done|lia|];
    [|rewrite length_app, length_objs; lia].
  autorewrite with blueth_io. eexists. split; [done|]. split; [|done].
  exists (objs (drop (Z.to_nat n) l) ++ spare). simpl.
  rewrite app_assoc, <- objs_app, take_drop, forallb_app, objs_is_object.
  rewrite !length_app, length_objs, length_take, length_drop. split_and!; try done; try lia. nia.
Qed.

Lemma shrink_to_fit_spec v l :
  trivially_destructible = true → repr v l → l ≠ [] →
  ∃ v', shrink_to_fit v = Done v' ∧ repr v' l ∧ m_capacity v' = Z.of_nat (length l).
Proof.
  intros Ht Hv Hl. pose proof (repr_size_small _ _ Hv) as [_ Hs].
  destruct Hv as (spare & Ho & Hsp & Hsz & Hcap & Hpos & Hmax). unfold shrink_to_fit.
  assert (1 <= Z.of_nat (length l)) by (destruct l; [done|simpl; lia]).
  case_match eqn:He; [apply Z.eqb_eq in He|apply Z.eqb_neq in He].
  - exists v. split; [done|]. split; [|lia]. exists spare. split_and!; try done; lia.
  - rewrite size_t_small by lia. rewrite Ho, destroy_run_trivial; [|done|lia|].
    + simpl. eexists. split; [done|]. split; [|simpl; lia]. exists spare. simpl.
      split_and!; try done; try lia. nia.
    + rewrite length_app, length_objs. lia.
Qed.
End theory.

(** ** Concrete runs

    Vectors of [int], of a class that cannot always be copied, and of one with a
    destructor. *)
Definition int_element : Element Z := {|
  elt_size := 4; trivially_destructible := true; default_value := None;
  copyable _ := true; moved_from := λ x, x
|}.
(** Integers of which one cannot be copied. *)
Definition fragile_element : Element Z := {|
  elt_size := 4; trivially_destructible := true; default_value := None;
  copyable x := negb (x =? 13); moved_from := λ x, x
|}.
Definition class_element : Element Z := {|
  elt_size := 8; trivially_destructible := false; default_value := Some 0;
  copyable _ := true; moved_from := λ _, 0
|}.

Definition ints_of (xs : list Z) : vector Z :=
  match @vector_new total_alloc Z int_element 0 with
  | Done v => (@push_all total_alloc Z int_element xs v).2
  | _ => mkVector 0 0 None
  end.

Example push_pop_run :
  @run_calls total_alloc Z int_element
    [PushBack 5; PushBack 6; Front; Back; PopBack; Size; AtAssign 0 9; At 0; At 1; PopBack; PopBack; Back]
    (ints_of [])
  = ([Done Unit; Done Unit; Done (Elt 5); Done (Elt 6); Done Unit; Done (Num 1); Done Unit;
      Done (Elt 9); Throw out_of_range; Done Unit; Throw out_of_range; Throw logic_error],
     mkVector 0 2 (Some [Object (Some 9); Object (Some 6)])).
Proof. vm_compute. reflexivity. Qed.

Example push_front_run :
  @push_front total_alloc Z int_element (Value 7) (ints_of [1; 2; 3])
  = (Done (), mkVector 4 4 (Some [Object (Some 7); Object (Some 3); Object (Some 3); Object None])).
Proof. vm_compute. reflexivity. Qed.

Lemma ints_repr : @repr Z int_element (ints_of [1; 2; 3]) [1; 2; 3].
Proof. exists [Object None]. vm_compute. repeat split; congruence. Qed.

Lemma vector_refines_list_witness :
  let v := mkVector 3 4 (Some [Object (Some 5); Object (Some 6); Object (Some 6); Object None]) in
  ∃ l, @admits Z int_element [] [PushBack 5; PopBack; Back; PushBack 5; PushBack 6; PushBack 7;
                                 PopBack; PushBackOwn 1]
         [Done Unit; Done Unit; Throw logic_error; Done Unit; Done Unit; Done Unit;
          Done Unit; Done Unit] l
    ∧ @repr Z int_element v l ∧ @vector_destroy Z int_element v = Done ().
Proof.
  exact (@vector_refines_list total_alloc Z int_element (ints_of [])
    [PushBack 5; PopBack; Back; PushBack 5; PushBack 6; PushBack 7; PopBack; PushBackOwn 1]
    eq_refl eq_refl eq_refl).
Defined.

Lemma vector_capacity_bounds_witness :
  ∃ v', @push_all total_alloc Z int_element [1; 2; 3; 4; 5] (ints_of []) = (Done (), v')
    ∧ @repr Z int_element v' [1; 2; 3; 4; 5] ∧ m_capacity v' = 8 ∧ 5 <= m_capacity v' < 10
    ∧ @copies total_alloc Z int_element [1; 2; 3; 4; 5] (ints_of []) = m_capacity v' - 1.
Proof.
  apply (@vector_capacity_bounds total_alloc Z int_element [1; 2; 3; 4; 5] (ints_of []));
    [reflexivity|reflexivity|reflexivity|vm_compute; congruence].
Defined.

(** The element that cannot be copied came in by a move: growing throws. *)
Lemma vector_push_back_spec_witness :
  let v := mkVector 1 1 (Some [Object (Some 13)]) in
  ∃ v', @push_back total_alloc Z fragile_element (Value 7) v = (Throw element_exception, v')
    ∧ @repr Z fragile_element v' [13].
Proof.
  apply (@vector_push_back_spec total_alloc Z fragile_element
    (mkVector 1 1 (Some [Object (Some 13)])) [13] 7).
  exists []. vm_compute. repeat split; congruence.
Defined.

Lemma vector_copy_spec_witness :
  @vector_copy total_alloc Z int_element (ints_of [1; 2; 3]) = Undefined Uninitialised.
Proof.
  exact (@vector_copy_spec total_alloc Z int_element (ints_of [1; 2; 3]) [1; 2; 3] [Object None]
    (λ _, eq_refl) ints_repr eq_refl eq_refl).
Defined.

Lemma vector_push_front_spec_witness :
  @push_front total_alloc Z int_element (Value 7) (ints_of [1; 2; 3])
  = (Done (), mkVector 4 4 (Some [Object (Some 7); Object (Some 3); Object (Some 3); Object None])).
Proof.
  exact (@vector_push_front_spec total_alloc Z int_element _ [1; 2; 3] 7 (λ _, eq_refl) ints_repr).
Defined.

(** With a destructor: the copy is right when there is room, the end of the
    vector is not after a [pop_back]. *)
Example class_vector_run :
  match @vector_of_list total_alloc Z class_element [1; 2] with
  | Done v =>
      (match @vector_copy total_alloc Z class_element v with
       | Done v' => bool_decide (m_size v' = 2 ∧ m_capacity v' = 4) | _ => false end,
       @vector_destroy Z class_element v,
       @vector_destroy Z class_element (@pop_back Z class_element v).2)
  | _ => (false, Done (), Done ())
  end = (true, Done (), Undefined DanglingPointer).
Proof. vm_compute. reflexivity. Qed.

#[local] Existing Instance total_alloc.
#[local] Existing Instance int_element.

(** The run of the repository's own test (tests/test-containers/test-vector.cpp):
    the sizes, capacities and elements it asserts. *)
Definition repository_test : io (vector Z) (list Z) :=
  v0 ← get;
  _ ← push_back (Value 7);
  v1 ← get;
  v ← lift (shrink_to_fit v1);
  _ ← put v;
  _ ← pop_back;
  v2 ← get;
  _ ← resize 3;
  v3 ← get;
  _ ← resize 10;
  v4 ← get;
  mret (concat ((λ v, [size v; capacity v]) <$> [v0; v1; v; v2; v3; v4])).

Example repository_test_run :
  match @vector_of_list total_alloc Z int_element [1; 2; 3; 4; 5; 6] with
  | Done v => (repository_test v).1
  | _ => Terminate
  end = Done [6; 12; 7; 12; 7; 7; 6; 7; 3; 3; 3; 20].
Proof. vm_compute. reflexivity. Qed.
