(* ===== verification/Containers.v ===== *)
(** * The other containers (blueth/containers/stack_array.hpp, matrix.hpp)

    [StackArray] keeps its elements in memory obtained from [alloca]: the model
    has the call stack, whose frames own such blocks and release them on return.
    [Matrix] is a vector of vectors behind two template arguments. *)
From Stdlib Require Import ZArith Lia.
From stdpp Require Import base list.
From S2P Require Import Prelude Vector.
Local Open Scope Z_scope.

Module StackArray.

(** ** The call stack *)
Record frame (T : Type) := mkFrame { frame_id : nat; blocks : list (list (slot T)) }.
Arguments mkFrame {T}.
Arguments frame_id {T}.
Arguments blocks {T}.

Record stack (T : Type) := mkStack { next_id : nat; frames : list (frame T) }.
Arguments mkStack {T}.
Arguments next_id {T}.
Arguments frames {T}.

(** A pointer into a block of a frame: the frame, the block, the offset. *)
Definition pointer : Type := option (nat * nat * Z).

Section stack.
Context {T : Type} `{Element T}.

(** A call of a function: its frame lasts as long as the body. *)
Definition in_call {A} (body : io (stack T) A) : io (stack T) A := λ s,
  let s := mkStack (S (next_id s)) (mkFrame (next_id s) [] :: frames s) in
  let '(r, s) := body s in
  (r, mkStack (next_id s) (tail (frames s))).

(** [new (alloca(sizeof(T) * n)) T[n]] *)
Definition alloca_new (n : Z) : io (stack T) pointer :=
  s ← get;
  match frames s with
  | [] => lift (Undefined BadArgument)
  | f :: fs =>
      _ ← put (mkStack (next_id s)
                 (mkFrame (frame_id f) (blocks f ++ [replicate (Z.to_nat n) (Object default_value)]) :: fs));
      mret (Some (frame_id f, length (blocks f), 0))
  end.

(** The block a pointer points into, while its frame is there; [*(p + i)]. *)
Definition find_block (s : stack T) (p : pointer) : res (list (slot T) * Z) :=
  match p with
  | None => Undefined NullPointer
  | Some (id, b, off) =>
      match find (λ f, Nat.eqb (frame_id f) id) (frames s) with
      | None => Undefined DanglingPointer
      | Some f => match blocks f !! b with
                  | Some o => Done (o, off)
                  | None => Undefined DanglingPointer
                  end
      end
  end.

Definition read (s : stack T) (p : pointer) (i : Z) : res T :=
  '(o, off) ← find_block s p; read_slot o (off + i).

(** ** The class: a member is [None] while it is indeterminate. *)
Record StackArray := mkStackArray {
  _internal_stack_buffer : pointer;
  _size : option Z;
  _curr_capacity : option Z
}.

Definition read_member (m : option Z) : res Z :=
  match m with Some n => Done n | None => Undefined Uninitialised end.

Definition _stack_allocator (buffer_size : Z) : io (stack T) pointer :=
  in_call (alloca_new buffer_size).

Definition StackArray_new (buffer_size : Z) : io (stack T) StackArray :=
  p ← _stack_allocator buffer_size;
  mret (mkStackArray p None None).

(** The move constructor: the new array and what is left of the old one. *)
Definition StackArray_move (mover_array : StackArray) : res (StackArray * StackArray) :=
  size ← read_member (_size mover_array);
  capacity ← read_member (_curr_capacity mover_array);
  Done (mkStackArray (_internal_stack_buffer mover_array) (Some size) (Some capacity),
        mkStackArray None (Some 0) (Some 0)).

Definition to_pointer (a : StackArray) : pointer := _internal_stack_buffer a.
Definition size (a : StackArray) : res Z := read_member (_size a).
Definition begin_ (a : StackArray) : pointer := _internal_stack_buffer a.
Definition end_ (a : StackArray) : res pointer :=
  n ← read_member (_size a);
  match _internal_stack_buffer a with
  | None => if n =? 0 then Done None else Undefined NullPointer
  | Some (id, b, off) => Done (Some (id, b, off + n))
  end.
Definition cbegin (a : StackArray) : pointer := _internal_stack_buffer a.
Definition cend (a : StackArray) : res pointer := end_ a.

Definition destroy_all (o : list (slot T)) (n : Z) : res (list (slot T)) :=
  for_loop (Z.to_nat n) 0 (λ i o, destroy_at o i) o.

Definition StackArray_destroy (a : StackArray) (s : stack T) : res () :=
  match _internal_stack_buffer a with
  | None => Done ()
  | p =>
      n ← read_member (_size a);
      if negb (n =? 0) then
        '(o, _) ← find_block s p; _ ← destroy_all o n; Done ()
      else Done ()
  end.

(** Frame numbers are not reused. *)
Definition fresh (s : stack T) : Prop := ∀ f, f ∈ frames s → (frame_id f < next_id s)%nat.

(** Every new array points to memory that is gone, and has no size: reading an
    element is undefined, and so is its own destructor. *)
Lemma StackArray_dangles s n : fresh s →
  ∃ a s', StackArray_new n s = (Done a, s') ∧ fresh s' ∧ frames s' = frames s
    ∧ (∀ i, read s' (begin_ a) i = Undefined DanglingPointer)
    ∧ size a = Undefined Uninitialised
    ∧ StackArray_move a = Undefined Uninitialised
    ∧ StackArray_destroy a s' = Undefined Uninitialised.
Proof.
  intros Hs. destruct s as [k fs]. do 2 eexists. split; [done|]. simpl. split.
  { intros f Hf. simpl. specialize (Hs f Hf). simpl in Hs. lia. }
  split_and!; try done. intros i. unfold read, find_block. simpl.
  replace (find _ fs) with (@None (frame T)); [done|]. symmetry.
  destruct (find _ fs) as [f|] eqn:Hf; [|done]. apply find_some in Hf as [Hin He].
  apply Nat.eqb_eq in He. specialize (Hs f). rewrite list_elem_of_In in Hs.
  specialize (Hs Hin). simpl in Hs. lia.
Qed.
End stack.

Example stack_array_run :
  let '(r, s) := @StackArray_new Z class_element 3 (mkStack 1 [mkFrame 0 []]) in
  match r with Done a => @read Z s (begin_ a) 0 | _ => Terminate end = Undefined DanglingPointer.
Proof. vm_compute. reflexivity. Qed.
End StackArray.

Module Matrix.
Section matrix.
Context {T : Type} (num_row num_column : Z).

Record Matrix := mkMatrix { _holder : list (list T) }.

(** [std::vector::at] *)
Definition vector_at {A} (l : list A) (i : Z) : res A :=
  match l !! Z.to_nat i with Some a => Done a | None => Throw out_of_range end.

(** The constructors, by copy and by move; [operator[]], both [noexcept]. *)
Definition Matrix_new (holder : list (list T)) : Matrix := mkMatrix holder.
Definition Matrix_move (holder : list (list T)) : Matrix := mkMatrix holder.
Definition numrows (m : Matrix) : Z := num_row.
Definition numcols (m : Matrix) : Z := num_column.
Definition subscript (m : Matrix) (row : Z) : res (list T) :=
  noexcept (vector_at (_holder m) row).

(** [m[i][j]]: the second subscript is unchecked. *)
Definition element (m : Matrix) (i j : Z) : res T :=
  r ← subscript m i;
  match r !! Z.to_nat j with Some x => Done x | None => Undefined OutOfBounds end.

(** The holder has the shape the template arguments announce. *)
Definition shaped (m : Matrix) : Prop :=
  Z.of_nat (length (_holder m)) = num_row
  ∧ Forall (λ r, Z.of_nat (length r) = num_column) (_holder m).

Lemma shaped_element m i j :
  shaped m → 0 <= i < numrows m → 0 <= j < numcols m → ∃ x, element m i j = Done x.
Proof.
  intros [Hr Hc] Hi Hj. unfold numrows, numcols, element, subscript, vector_at in *.
  destruct (lookup_lt_is_Some_2 (_holder m) (Z.to_nat i)) as [r Hl]; [lia|].
  rewrite Hl. simpl. rewrite Forall_lookup in Hc. specialize (Hc _ _ Hl).
  destruct (lookup_lt_is_Some_2 r (Z.to_nat j)) as [x ->]; [lia|]. eauto.
Qed.

(** A row the holder does not have ends the program, whatever [numrows] says. *)
Lemma missing_row m i :
  Z.of_nat (length (_holder m)) <= i → subscript m i = Terminate.
Proof.
  intros Hi. unfold subscript, vector_at. by rewrite lookup_ge_None_2 by lia.
Qed.
End matrix.
End Matrix.
