(* ===== verification/EventLoop.v ===== *)
(** * [concurrency::AsyncEpollEventLoop] (blueth/concurrency/AsyncEventLoop.hpp,
    blueth/concurrency/internal/EventLoopBase.hpp)

    The event loop over the calls of epoll. The objects a pointer of an epoll
    event leads to are a heap, so that a pointer to a deleted one shows. *)
From Stdlib Require Import ZArith Lia Ascii.
From stdpp Require Import base gmap sets list.
From S2P Require Import Prelude IOBuffer NetworkStream UnixTime SyncStream Socket.
Local Open Scope Z_scope.

(** ** The system

    The calls the loop makes besides those of the clients and of the sockets. A pointer
    is a number. *)
Record epoll_event := mkEvent { events : Z; data_ptr : N }.
Inductive ctl_op := EPOLL_CTL_ADD | EPOLL_CTL_MOD | EPOLL_CTL_DEL.
Definition EPOLLIN : Z := 1.
Definition EPOLLOUT : Z := 4.

Class EpollSystem (W : Type) := {
  epoll_create1 : W → Z * W;
  epoll_ctl : Z → ctl_op → Z → epoll_event → W → Z * W;
  epoll_wait : Z → Z → Z → W → (Z * list epoll_event) * W;
  calloc : Z → W → bool * W;
  (** [errno] is [EAGAIN] or [EWOULDBLOCK] *)
  would_block : W → bool
}.

(** ** Objects *)
Record FDStatus := mkFDStatus { want_read : bool; want_write : bool }.
Definition WantRead := mkFDStatus true false.
Definition WantWrite := mkFDStatus false true.
Definition WantReadWrite := mkFDStatus true true.
Definition WantNoReadWrite := mkFDStatus false false.

Inductive EventType := WriteEvent | ReadEvent | AcceptEvent.

Record PeerStateHolder := mkHolder { fd_ : Z; peer_state_ : N }.

(** The objects of a loop: the holders and the states of the peers. *)
Record objects (P : Type) := mkObjects {
  holders : gmap N PeerStateHolder;
  peers : gmap N P
}.
Arguments mkObjects {P}. Arguments holders {P}. Arguments peers {P}.

Section loop.
Context `{Allocator} {W P : Type} `{System W} `{SocketSystem W} `{EpollSystem W}.

(** A method or a callback works on the objects and on the world. A callback
    is given the holder; the loop is reached through the methods below. *)
Definition act (A : Type) : Type := io (objects P * W) A.
Definition HandlerCallbackType : Type := N → act FDStatus.

Record AsyncEpollEventLoop := mkLoop {
  socket_ : Socket;
  epoll_fd_ : Z;
  timeout_ : Z;
  max_events_supported_ : Z;
  epoll_setup_done_ : bool;
  on_accept_callback_ : option HandlerCallbackType;
  on_read_callback_ : option HandlerCallbackType;
  on_write_callback_ : option HandlerCallbackType
}.

(** *** Pointers *)
Definition get_objects : act (objects P) := λ '(o, w), (Done o, (o, w)).
Definition put_objects (o : objects P) : act () := λ '(_, w), (Done (), (o, w)).

(** Reading through, and releasing, a pointer. *)
Definition at_holder (p : N) : act PeerStateHolder :=
  o ← get_objects;
  match holders o !! p with Some h => mret h | None => lift (Undefined DanglingPointer) end.
Definition delete_holder (p : N) : act () :=
  o ← get_objects;
  match holders o !! p with
  | Some _ => put_objects (mkObjects (delete p (holders o)) (peers o))
  | None => lift (Undefined DanglingPointer)
  end.
Definition delete_peer (q : N) : act () :=
  o ← get_objects;
  match peers o !! q with
  | Some _ => put_objects (mkObjects (holders o) (delete q (peers o)))
  | None => lift (Undefined DanglingPointer)
  end.

(** [new PeerStateHolder()], its descriptor, and its [new PeerState()]; the memory
    for both is taken to be there. *)
Definition new_holder (fd : Z) (peer : P) : act N :=
  o ← get_objects;
  let p := fresh (dom (holders o)) in
  let q := fresh (dom (peers o)) in
  _ ← put_objects (mkObjects (<[p := mkHolder fd q]> (holders o)) (<[q := peer]> (peers o)));
  mret p.

Definition getFileDescriptor (p : N) : act Z := h ← at_holder p; mret (fd_ h).
Definition getPeerState (p : N) : act N := h ← at_holder p; mret (peer_state_ h).

(** *** The watch list *)
Definition epollErrorHandler_ (return_code : Z) : act () :=
  if return_code <? 0 then throw runtime_error else mret ().

Definition epollAddToWatchlist (loop : AsyncEpollEventLoop) (fd : Z) (peer_state : N)
    (event : Z) : act () :=
  ret ← sys (epoll_ctl (epoll_fd_ loop) EPOLL_CTL_ADD fd (mkEvent event peer_state));
  if ret <? 0 then throw runtime_error else mret ().
Definition removePeerFromWatchlist (loop : AsyncEpollEventLoop) (fd : Z) (peer_state : N)
  : act () :=
  ret ← sys (epoll_ctl (epoll_fd_ loop) EPOLL_CTL_DEL fd (mkEvent 0 peer_state));
  if ret <? 0 then throw runtime_error else mret ().
Definition addPeerToWatchlist (loop : AsyncEpollEventLoop) (fd : Z) (peer_state : N)
    (event : Z) : act () :=
  ret ← sys (epoll_ctl (epoll_fd_ loop) EPOLL_CTL_ADD fd (mkEvent event peer_state));
  epollErrorHandler_ ret.
Definition modifyEventForPeer (loop : AsyncEpollEventLoop) (fd : Z) (peer_state : N)
    (event : Z) : act () :=
  ret ← sys (epoll_ctl (epoll_fd_ loop) EPOLL_CTL_MOD fd (mkEvent event peer_state));
  epollErrorHandler_ ret.

(** *** Sockets *)

(** [make_socketnonblocking] of EventLoopBase.hpp: a failure exits. *)
Definition make_socketnonblocking (socket_fd : Z) : act () :=
  flags ← sys (fcntl_getfl socket_fd);
  if flags =? -1 then lift Terminate else
  ret ← sys (fcntl_setfl socket_fd (Z.lor flags O_NONBLOCK));
  if ret =? -1 then lift Terminate else mret ().

(** An exception that leaves a constructor destroys the members made so far:
    the socket is closed. *)
Definition with_socket {A} (socket : Socket) (m : act A) : act A := λ s,
  match m s with
  | (Throw e, (o, w)) => ((_ ← Socket_destroy socket; throw e) (o, w))
  | rs => rs
  end.

(** The constructor; [peer] is [PeerState()]. *)
Definition AsyncEpollEventLoop_new (server_address : bytes) (server_port
    max_events_supported server_backlog timeout : Z) (peer : P) : act AsyncEpollEventLoop :=
  socket_ ← Socket_new server_address server_port server_backlog Ipv4 Stream;
  with_socket socket_ (
    _ ← makeSocketNonBlocking socket_;
    _ ← bindSock socket_;
    epoll_fd ← sys epoll_create1;
    _ ← epollErrorHandler_ epoll_fd;
    peer_state ← new_holder (socket_descriptor socket_) peer;
    let loop := mkLoop socket_ epoll_fd timeout max_events_supported false None None None in
    _ ← epollAddToWatchlist loop (socket_descriptor socket_) peer_state EPOLLIN;
    events ← sys (calloc max_events_supported);
    if negb events then throw bad_alloc else
    mret (mkLoop socket_ epoll_fd timeout max_events_supported true None None None)).

(** The destructor, and then that of the socket. *)
Definition AsyncEpollEventLoop_destroy (loop : AsyncEpollEventLoop) : act () :=
  _ ← sys (close (epoll_fd_ loop));
  Socket_destroy (socket_ loop).

Definition registerCallbackForEvent (loop : AsyncEpollEventLoop)
    (callback : HandlerCallbackType) (event : EventType) : AsyncEpollEventLoop :=
  let set r w a := mkLoop (socket_ loop) (epoll_fd_ loop) (timeout_ loop)
    (max_events_supported_ loop) (epoll_setup_done_ loop) a r w in
  match event with
  | ReadEvent => set (on_read_callback_ loop) (Some callback) (on_accept_callback_ loop)
  | WriteEvent => set (Some callback) (on_write_callback_ loop) (on_accept_callback_ loop)
  | AcceptEvent => set (on_read_callback_ loop) (on_write_callback_ loop) (Some callback)
  end.

(** *** The transfer of bytes

    The buffer is shared with the caller: the result holds its new state. The
    counts of [send] and [recv], and the argument of an offset, become [int]s. *)
Definition writeToPeer (peer_state_holder : N) (io_buffer : option IOBuffer)
  : act (Z * option IOBuffer) :=
  _ ← getPeerState peer_state_holder;
  match io_buffer with
  | None => throw runtime_error
  | Some b =>
      if getDataSize b =? 0 then mret (0, io_buffer) else
      let num_bytes_to_send := getDataSize b in
      fd ← getFileDescriptor peer_state_holder;
      m ← lift (deref (internal_buffer_ b));
      cells ← lift (mem_slice m (start_offset_ b) num_bytes_to_send);
      data ← lift (cells_chars cells);
      send_ret ← sys (send fd data);
      if to_int32 send_ret <? 0 then
        ow ← get;
        if would_block ow.2 then mret (0, io_buffer) else throw runtime_error
      else mret (to_int32 num_bytes_to_send, Some (modifyStartOffset b num_bytes_to_send))
  end.

Definition readFromPeer (peer_state_holder : N) (io_buffer : option IOBuffer)
  : act (Z * option IOBuffer) :=
  match io_buffer with
  | None => throw runtime_error
  | Some b =>
      if getAvailableSpace b =? 0 then mret (0, io_buffer) else
      fd ← getFileDescriptor peer_state_holder;
      m ← lift (deref (internal_buffer_ b));
      got ← sys (recv fd (getAvailableSpace b));
      match got with
      | RecvError _ =>
          ow ← get;
          if would_block ow.2 then mret (0, io_buffer) else throw runtime_error
      | Received d =>
          m ← lift (mem_write m (start_offset_ b) (init d));
          let b := mkIOBuffer (Some m) (start_offset_ b) (end_offset_ b) (capacity_ b) in
          let recv_ret := to_int32 (Z.of_nat (length d)) in
          if recv_ret <? 0 then
            ow ← get;
            if would_block ow.2 then mret (0, Some b) else throw runtime_error
          else mret (recv_ret, Some (modifyEndOffset b recv_ret))
      end
  end.

(** *** The loop *)

(** Calling an empty [std::function] throws. *)
Definition invoke (callback : option HandlerCallbackType) (p : N) : act FDStatus :=
  match callback with Some f => f p | None => throw bad_function_call end.

Definition event_mask (s : FDStatus) : Z :=
  Z.lor (if want_read s then EPOLLIN else 0) (if want_write s then EPOLLOUT else 0).

(** A new connection. *)
Definition on_accept (loop : AsyncEpollEventLoop) (peer : P) : act () :=
  got ← sys (accept (socket_descriptor (socket_ loop)));
  let client_fd := got.1 in
  if client_fd <? 0 then
    ow ← get;
    if would_block ow.2 then mret () else throw runtime_error
  else
    peer_state ← new_holder client_fd peer;
    _ ← make_socketnonblocking client_fd;
    fd_status ← invoke (on_accept_callback_ loop) peer_state;
    ret ← sys (epoll_ctl (epoll_fd_ loop) EPOLL_CTL_ADD client_fd
                 (mkEvent (event_mask fd_status) peer_state));
    epollErrorHandler_ ret.

(** A connection that is ready, for the callback of its event. *)
Definition on_ready (loop : AsyncEpollEventLoop) (callback : option HandlerCallbackType)
    (p : N) : act () :=
  fd_status ← invoke callback p;
  let events := event_mask fd_status in
  if events =? 0 then
    fd ← getFileDescriptor p;
    _ ← sys (close fd);
    q ← getPeerState p;
    _ ← delete_peer q;
    delete_holder p
  else
    fd ← getFileDescriptor p;
    modifyEventForPeer loop fd p events.

(** One event of a batch. *)
Definition on_event (loop : AsyncEpollEventLoop) (peer : P) (e : epoll_event) : act () :=
  fd ← getFileDescriptor (data_ptr e);
  if fd =? socket_descriptor (socket_ loop) then on_accept loop peer
  else if negb (Z.land (events e) EPOLLIN =? 0)
  then on_ready loop (on_read_callback_ loop) (data_ptr e)
  else if negb (Z.land (events e) EPOLLOUT =? 0)
  then on_ready loop (on_write_callback_ loop) (data_ptr e)
  else mret ().

Fixpoint on_events (loop : AsyncEpollEventLoop) (peer : P) (es : list epoll_event) : act () :=
  match es with
  | [] => mret ()
  | e :: es => _ ← on_event loop peer e; on_events loop peer es
  end.

(** [startEventloop]: one unit of fuel per batch; a batch without events, after
    the timeout, ends the loop. *)
Fixpoint startEventloop (fuel : nat) (loop : AsyncEpollEventLoop) (peer : P) : act () :=
  match fuel with
  | O => lift OutOfFuel
  | S fuel =>
      ready ← sys (epoll_wait (epoll_fd_ loop) (max_events_supported_ loop) (timeout_ loop));
      if ready.1 =? 0 then mret () else
      _ ← epollErrorHandler_ ready.1;
      _ ← on_events loop peer (take (Z.to_nat ready.1) ready.2);
      startEventloop fuel loop peer
  end.
End loop.

(** ** What the loop relies on

    The documented behaviour of epoll: the interest list of the instance maps a
    watched descriptor to its events and its pointer; a batch has at most one
    event for a descriptor; closing a descriptor removes it. *)
Class EpollLaws (W : Type) `{System W} `{SocketSystem W} `{EpollSystem W} := {
  interest : W → gmap Z (Z * N);
  epoll_ctl_done ep op fd e w r w' :
    epoll_ctl ep op fd e w = (r, w') → 0 <= r →
    match op with
    | EPOLL_CTL_ADD => interest w !! fd = None
        ∧ interest w' = <[fd := (events e, data_ptr e)]> (interest w)
    | EPOLL_CTL_MOD => is_Some (interest w !! fd)
        ∧ interest w' = <[fd := (events e, data_ptr e)]> (interest w)
    | EPOLL_CTL_DEL => interest w' = delete fd (interest w)
    end;
  epoll_ctl_failed ep op fd e w r w' :
    epoll_ctl ep op fd e w = (r, w') → r < 0 → interest w' = interest w;
  epoll_wait_batch ep n t w r es w' :
    epoll_wait ep n t w = ((r, es), w') →
    interest w' = interest w
    ∧ (0 <= r → r = Z.of_nat (length es) ∧ ∃ fds, NoDup fds
        ∧ Forall2 (λ fd e, ∃ ev, interest w !! fd = Some (ev, data_ptr e)) fds es);
  accept_new fd w r a w' :
    accept fd w = ((r, a), w') → interest w' = interest w ∧ (0 <= r → interest w !! r = None);
  close_removes fd w : interest (close fd w).2 = delete fd (interest w);
  inet_pton_watch ip w : interest (inet_pton ip w).2 = interest w;
  socket_watch w : interest (socket w).2 = interest w;
  bind_keeps fd a w : interest (bind fd a w).2 = interest w;
  listen_keeps fd n w : interest (listen fd n w).2 = interest w;
  epoll_create1_keeps w : interest (epoll_create1 w).2 = interest w;
  calloc_keeps n w : interest (calloc n w).2 = interest w;
  getfl_keeps fd w : interest (fcntl_getfl fd w).2 = interest w;
  setfl_keeps fd n w : interest (fcntl_setfl fd n w).2 = interest w;
  send_keeps fd d w : interest (send fd d w).2 = interest w;
  recv_keeps fd n w : interest (recv fd n w).2 = interest w
}.

Section safety.
Context `{Allocator} {W P : Type} `{EpollLaws W}.
Abbreviation act := (act (W := W) (P := P)).
Abbreviation state := (objects P * W)%type.

(** What the callbacks maintain of every peer's state. *)
Context (peer_ok : P → Prop).
Definition peers_ok (s : state) : Prop := ∀ q x, peers s.1 !! q = Some x → peer_ok x.

(** Every watched descriptor leads to its holder, every holder to a peer state
    of its own, and the peer states are as the callbacks keep them. *)
Definition consistent (s : state) : Prop :=
  (∀ fd ev p, interest s.2 !! fd = Some (ev, p) →
     ∃ h, holders s.1 !! p = Some h ∧ fd_ h = fd)
  ∧ (∀ p h, holders s.1 !! p = Some h → is_Some (peers s.1 !! peer_state_ h))
  ∧ (∀ p p' h h', holders s.1 !! p = Some h → holders s.1 !! p' = Some h' →
       peer_state_ h = peer_state_ h' → p = p')
  ∧ peers_ok s.

Definition live (p : N) (s : state) : Prop := is_Some (holders s.1 !! p).

(** No object is lost: every holder is that of a descriptor that is watched
    for it, and every peer state belongs to a holder. *)
Definition tight (s : state) : Prop :=
  (∀ p h, holders s.1 !! p = Some h → ∃ ev, interest s.2 !! fd_ h = Some (ev, p))
  ∧ (∀ q, is_Some (peers s.1 !! q) → ∃ p h, holders s.1 !! p = Some h ∧ peer_state_ h = q).

(** What a part of the loop keeps. *)
Definition keeps (s s' : state) : Prop := consistent s' ∧ (tight s → tight s').

(** Two states with the same holders, peers and interest list. *)
Definition same_shape (s s' : state) : Prop :=
  holders s'.1 = holders s.1 ∧ dom (peers s'.1) = dom (peers s.1)
  ∧ interest s'.2 = interest s.2 ∧ (peers_ok s → peers_ok s').

(** A callback that may read, write and change the peers' states, keeping them
    as [peer_ok] says, and throw, but leaves the objects and the watch list to
    the loop. *)
Definition tame (f : HandlerCallbackType (W := W) (P := P)) : Prop :=
  ∀ p s, consistent s → live p s →
    is_undefined (f p s).1 = false ∧ same_shape s (f p s).2.

(** The computation is defined, keeps the state consistent whatever its
    outcome, and when it returns, [Q] holds. *)
Definition safe {A} (m : act A) (s : state) (Q : A → state → Prop) : Prop :=
  match (m s).1 with
  | Done a => Q a (m s).2
  | Undefined _ => False
  | _ => consistent (m s).2
  end.

Lemma safe_bind {A B} (m : act A) (f : A → act B) s Q :
  safe m s (λ a s', safe (f a) s' Q) → safe (m ≫= f) s Q.
Proof. unfold safe, mbind, io_bind. by destruct (m s) as [[a| | | |] s']. Qed.

Lemma safe_mono {A} (m : act A) s (Q Q' : A → state → Prop) :
  safe m s Q → (∀ a s', Q a s' → Q' a s') → safe m s Q'.
Proof. unfold safe. destruct (m s) as [[a| | | |] s']; simpl; auto. Qed.

Lemma safe_ret {A} (a : A) s (Q : A → state → Prop) : Q a s → safe (mret a) s Q.
Proof. done. Qed.
Lemma safe_throw {A} e s (Q : A → state → Prop) : consistent s → safe (throw e) s Q.
Proof. done. Qed.
Lemma safe_exit {A} s (Q : A → state → Prop) : consistent s → safe (lift Terminate) s Q.
Proof. done. Qed.
Lemma safe_sys {A} (f : W → A * W) o w (Q : A → state → Prop) :
  Q (f w).1 (o, (f w).2) → safe (sys f) (o, w) Q.
Proof. unfold safe, sys. by destruct (f w). Qed.
Lemma safe_sys_bind {A B} (f : W → A * W) (g : A → act B) o w Q :
  safe (g (f w).1) (o, (f w).2) Q → safe (sys f ≫= g) (o, w) Q.
Proof. intros Hg. apply safe_bind, safe_sys, Hg. Qed.

Lemma safe_get_bind {B} (g : state → act B) s Q : safe (g s) s Q → safe (get ≫= g) s Q.
Proof. done. Qed.

Lemma safe_Done_bind {A B} (m : act A) (g : A → act B) s a s' Q :
  m s = (Done a, s') → safe (g a) s' Q → safe (m ≫= g) s Q.
Proof. intros Hm Hg. apply safe_bind. unfold safe. by rewrite Hm. Qed.

Lemma getFileDescriptor_Done p h (o : objects P) (w : W) :
  holders o !! p = Some h → getFileDescriptor p (o, w) = (Done (fd_ h), (o, w)).
Proof.
  intros Hp. unfold getFileDescriptor, at_holder, get_objects, mbind, io_bind. by rewrite Hp.
Qed.

Lemma getPeerState_Done p h (o : objects P) (w : W) :
  holders o !! p = Some h → getPeerState p (o, w) = (Done (peer_state_ h), (o, w)).
Proof.
  intros Hp. unfold getPeerState, at_holder, get_objects, mbind, io_bind. by rewrite Hp.
Qed.

(** *** Changes of the state *)
Lemma same_shape_consistent s s' : same_shape s s' → consistent s → consistent s'.
Proof.
  intros (Hh&Hp&Hi&Hk) (Hc1&Hc2&Hc3&Hc4). split_and!.
  - rewrite Hi. intros * Hfd. rewrite Hh. by eapply Hc1.
  - intros p h. rewrite Hh. intros Hph%Hc2. by rewrite <- elem_of_dom, Hp, elem_of_dom.
  - rewrite Hh. apply Hc3.
  - by apply Hk.
Qed.

Lemma same_shape_tight s s' : same_shape s s' → tight s → tight s'.
Proof.
  intros (Hh&Hp&Hi&_) [Ht1 Ht2]. split.
  - intros p h. rewrite Hh, Hi. apply Ht1.
  - intros q. rewrite <- elem_of_dom, Hp, elem_of_dom, Hh. apply Ht2.
Qed.

Lemma same_shape_keeps s s' : same_shape s s' → consistent s → keeps s s'.
Proof. intros Hs Hc. split; [by eapply same_shape_consistent|by apply same_shape_tight]. Qed.

Lemma keeps_trans s1 s2 s3 : keeps s1 s2 → keeps s2 s3 → keeps s1 s3.
Proof. intros [_ Hk1] [Hc Hk2]. split; auto. Qed.

Lemma world_consistent o w w' :
  interest w' = interest w → consistent (o, w) → consistent (o, w').
Proof. intros Hi. by apply same_shape_consistent. Qed.

Lemma new_holder_run (fd : Z) (peer : P) (o : objects P) (w : W) :
  ∃ p o', new_holder fd peer (o, w) = (Done p, (o', w))
    ∧ holders o !! p = None
    ∧ holders o' = <[p := mkHolder fd (fresh (dom (peers o)))]> (holders o)
    ∧ peers o' = <[fresh (dom (peers o)) := peer]> (peers o).
Proof.
  exists (fresh (dom (holders o))),
    (mkObjects (<[fresh (dom (holders o)) := mkHolder fd (fresh (dom (peers o)))]> (holders o))
       (<[fresh (dom (peers o)) := peer]> (peers o))).
  split; [done|]. split; [|done]. apply not_elem_of_dom, is_fresh.
Qed.

Lemma new_holder_consistent fd (peer : P) (o o' : objects P) (w : W) p :
  consistent (o, w) → peer_ok peer → holders o !! p = None →
  holders o' = <[p := mkHolder fd (fresh (dom (peers o)))]> (holders o) →
  peers o' = <[fresh (dom (peers o)) := peer]> (peers o) →
  consistent (o', w).
Proof.
  intros (Hc1&Hc2&Hc3&Hc4) Hpeer Hp Hh Hq. simpl in *.
  assert (peers o !! fresh (dom (peers o)) = None) as Hfresh
    by apply not_elem_of_dom, is_fresh.
  unfold consistent. simpl. rewrite Hh, Hq. split_and!.
  - intros fd' ev p' (h&Hp'&Hfd)%Hc1. exists h. split; [|done].
    rewrite lookup_insert_ne; [done|congruence].
  - intros p' h [[<- <-]|[_ Hp']]%lookup_insert_Some; simpl.
    + by rewrite lookup_insert_eq.
    + apply Hc2 in Hp'. rewrite lookup_insert_is_Some'. auto.
  - intros p1 p2 h1 h2 [[<- <-]|[_ Hl1]]%lookup_insert_Some [[<- <-]|[_ Hl2]]%lookup_insert_Some;
      simpl; intros Heq; try done.
    + apply Hc2 in Hl2. rewrite <- Heq, Hfresh in Hl2. by destruct Hl2.
    + apply Hc2 in Hl1. rewrite Heq, Hfresh in Hl1. by destruct Hl1.
    + by eapply Hc3.
  - intros q x. simpl. rewrite Hq. intros [[_ <-]|[_ Hx]]%lookup_insert_Some; [done|by eapply Hc4].
Qed.

(** A new holder is watched by the end of the handler. *)
Lemma add_tight (o o' : objects P) (w w' : W) fd q p ev :
  tight (o, w) → holders o !! p = None → interest w !! fd = None →
  holders o' = <[p := mkHolder fd q]> (holders o) →
  dom (peers o') = {[q]} ∪ dom (peers o) →
  interest w' = <[fd := (ev, p)]> (interest w) → tight (o', w').
Proof.
  intros [Ht1 Ht2] Hp Hfd Hh Hq Hi. split; simpl in *; rewrite Hh.
  - rewrite Hi. intros p' h [[<- <-]|[_ Hp']]%lookup_insert_Some; simpl.
    { exists ev. by rewrite lookup_insert_eq. }
    destruct (Ht1 _ _ Hp') as [ev' Hev]. exists ev'.
    rewrite lookup_insert_ne; [done|]. congruence.
  - intros q'. rewrite <- elem_of_dom, Hq, elem_of_union, elem_of_singleton, elem_of_dom.
    intros [->|(p'&h&Hp'&Hph)%Ht2].
    { exists p, (mkHolder fd q). by rewrite lookup_insert_eq. }
    exists p', h. split; [|done]. rewrite lookup_insert_ne; [done|congruence].
Qed.

(** A watched descriptor is watched for other events. *)
Lemma modify_tight (o : objects P) (w w' : W) p h ev :
  tight (o, w) → holders o !! p = Some h →
  interest w' = <[fd_ h := (ev, p)]> (interest w) → tight (o, w').
Proof.
  intros [Ht1 Ht2] Hp Hi. split; [|done]. simpl in *. rewrite Hi. intros p' h' Hp'.
  destruct (Ht1 _ _ Hp) as [ev1 Hi1], (Ht1 _ _ Hp') as [ev2 Hi2].
  destruct (decide (fd_ h = fd_ h')) as [Heq|Hne].
  - rewrite Heq in Hi1 |- *. simplify_eq. exists ev. by rewrite lookup_insert_eq.
  - exists ev2. by rewrite lookup_insert_ne.
Qed.

(** A connection goes with its objects. *)
Lemma delete_tight (o o' : objects P) (w w' : W) p h :
  tight (o, w) → consistent (o, w) → holders o !! p = Some h →
  holders o' = delete p (holders o) → peers o' = delete (peer_state_ h) (peers o) →
  interest w' = delete (fd_ h) (interest w) → tight (o', w').
Proof.
  intros [Ht1 Ht2] (Hc1&_&_) Hp Hh Hq Hi. split; simpl in *; rewrite Hh.
  - rewrite Hi. intros p' h' [Hne Hp']%lookup_delete_Some.
    destruct (Ht1 _ _ Hp) as [ev1 Hi1], (Ht1 _ _ Hp') as [ev2 Hi2].
    exists ev2. rewrite lookup_delete_ne; [done|]. intros Heq. rewrite Heq in Hi1. simplify_eq.
  - rewrite Hq. intros q' [x [Hne Hx]%lookup_delete_Some].
    destruct (Ht2 q') as (p'&h'&Hp'&Hph); [by eexists|].
    exists p', h'. split; [|done]. rewrite lookup_delete_ne; [done|]. intros ->. congruence.
Qed.

(** *** The pieces of the loop *)
Lemma make_socketnonblocking_safe fd o w (Q : () → state → Prop) :
  consistent (o, w) → (∀ w', interest w' = interest w → Q () (o, w')) →
  safe (make_socketnonblocking fd) (o, w) Q.
Proof.
  intros Hc HQ. unfold make_socketnonblocking. apply safe_sys_bind.
  pose proof (getfl_keeps fd w) as Hw1. destruct (fcntl_getfl fd w) as [flags w1]. simpl in *.
  destruct (flags =? -1); [apply safe_exit; by eapply world_consistent|].
  apply safe_sys_bind. pose proof (setfl_keeps fd (Z.lor flags O_NONBLOCK) w1) as Hw2.
  destruct (fcntl_setfl _ _ _) as [ret w2]. simpl in *.
  destruct (ret =? -1); [apply safe_exit; eapply world_consistent; [|done]; congruence|].
  apply safe_ret, HQ. congruence.
Qed.

Lemma invoke_safe cb p s (Q : FDStatus → state → Prop) :
  (∀ f, cb = Some f → tame f) → consistent s → live p s →
  (∀ st s', same_shape s s' → Q st s') → safe (invoke cb p) s Q.
Proof.
  intros Ht Hc Hp HQ. destruct cb as [f|]; [|by apply safe_throw]. simpl.
  destruct (Ht f eq_refl p s Hc Hp) as [Hu Hs]. unfold safe.
  destruct (f p s) as [[st| | | |] s']; simpl in *; [by apply HQ|..|done|];
    by eapply same_shape_consistent.
Qed.

(** An entry for a holder. *)
Lemma watch_consistent (o : objects P) (w w' : W) fd p h ev :
  consistent (o, w) → holders o !! p = Some h → fd_ h = fd →
  interest w' = <[fd := (ev, p)]> (interest w) → consistent (o, w').
Proof.
  intros (Hc1&Hc2&Hc3&Hc4) Hp Hfd Hi. split_and!; [|done..]. simpl. rewrite Hi.
  intros fd' ev' p' [[<- [= <- <-]]|[_ Hl]]%lookup_insert_Some; [by exists h|].
  by eapply Hc1.
Qed.

Lemma epoll_ctl_safe op fd p ev h ep o w (Q : () → state → Prop) :
  op ≠ EPOLL_CTL_DEL → consistent (o, w) → holders o !! p = Some h → fd_ h = fd →
  (∀ w', consistent (o, w') → interest w' = <[fd := (ev, p)]> (interest w) → Q () (o, w')) →
  safe (ret ← sys (epoll_ctl ep op fd (mkEvent ev p)); epollErrorHandler_ ret) (o, w) Q.
Proof.
  intros Hop Hc Hp Hfd HQ. apply safe_sys_bind.
  destruct (epoll_ctl ep op fd (mkEvent ev p) w) as [r w'] eqn:Hctl.
  unfold epollErrorHandler_. simpl. destruct (Z.ltb_spec r 0).
  - apply safe_throw. eapply world_consistent; [|done]. by eapply epoll_ctl_failed.
  - assert (interest w' = <[fd := (ev, p)]> (interest w)) as Hi.
    { pose proof (epoll_ctl_done _ _ _ _ _ _ _ Hctl ltac:(done)) as Hd.
      destruct op; [apply Hd|apply Hd|done]. }
    apply safe_ret, HQ; [|done]. by apply (watch_consistent o w w' fd p h ev).
Qed.

(** What one event may do to the holders: it releases no other than its own. *)
Definition keeps_others (p : N) (s s' : state) : Prop :=
  ∀ p', p' ≠ p → live p' s → live p' s'.

Lemma keeps_others_world p (o : objects P) (w w' : W) : keeps_others p (o, w) (o, w').
Proof. by intros p' _. Qed.

Lemma on_accept_safe loop peer p s :
  peer_ok peer → (∀ f, on_accept_callback_ loop = Some f → tame f) → consistent s →
  safe (on_accept loop peer) s (λ _ s', keeps s s' ∧ keeps_others p s s').
Proof.
  intros Hpeer Ht Hc. destruct s as [o w]. unfold on_accept. apply safe_sys_bind.
  destruct (accept (socket_descriptor (socket_ loop)) w) as [[fd addr] w1] eqn:Ha.
  destruct (accept_new _ _ _ _ _ Ha) as [Hi Hnew]. cbn [fst snd].
  assert (consistent (o, w1)) as Hc1 by by eapply world_consistent.
  destruct (Z.ltb_spec fd 0).
  { apply safe_get_bind. cbn [snd]. destruct (would_block w1); [|by apply safe_throw].
    apply safe_ret. split; [by apply same_shape_keeps|apply keeps_others_world]. }
  destruct (new_holder_run fd peer o w1) as (q&o1&Hrun&Hq&Ho1&Hp1).
  eapply safe_Done_bind; [exact Hrun|].
  assert (consistent (o1, w1)) as Hc2 by by eapply new_holder_consistent.
  apply safe_bind, make_socketnonblocking_safe; [done|]. intros w2 Hw2.
  assert (consistent (o1, w2)) as Hc3 by by eapply world_consistent.
  assert (holders o1 !! q = Some (mkHolder fd (fresh (dom (peers o))))) as Hq1
    by by rewrite Ho1, lookup_insert_eq.
  apply safe_bind, invoke_safe; [done|done|by eexists|].
  intros st [o2 w3] Hs. pose proof Hs as (Hh&Hd&Hi3&_). simpl in Hh, Hd, Hi3.
  eapply epoll_ctl_safe; [done|by eapply same_shape_consistent|by rewrite Hh|done|].
  intros w4 Hc4 Hi4. split; [split; [done|]|].
  - intros Htight. eapply (add_tight o _ w w4 fd); [done|exact Hq|by apply Hnew| | |].
    + by rewrite Hh.
    + by rewrite Hd, Hp1, dom_insert_L.
    + by rewrite Hi4, Hi3, Hw2, Hi.
  - intros p' _ [h' Hp']. unfold live. simpl in *.
    rewrite Hh, Ho1, lookup_insert_is_Some'. by right; eexists.
Qed.

Lemma delete_holder_consistent (o o' : objects P) (w w' : W) p h :
  consistent (o, w) → holders o !! p = Some h →
  holders o' = delete p (holders o) → peers o' = delete (peer_state_ h) (peers o) →
  interest w' = delete (fd_ h) (interest w) → consistent (o', w').
Proof.
  intros (Hc1&Hc2&Hc3&Hc4) Hp Hh Hq Hi. simpl in *. unfold consistent. simpl.
  rewrite Hh, Hq, Hi. split_and!.
  - intros fd ev p' [Hne Hl]%lookup_delete_Some. destruct (Hc1 _ _ _ Hl) as (h'&Hp'&Hfd).
    exists h'. split; [|done]. rewrite lookup_delete_ne; [done|]. intros <-. congruence.
  - intros p' h' [Hne Hp']%lookup_delete_Some. rewrite lookup_delete_ne; [by eapply Hc2|].
    intros Heq. by destruct (Hne (Hc3 _ _ _ _ Hp Hp' Heq)).
  - intros p1 p2 h1 h2 [_ Hl1]%lookup_delete_Some [_ Hl2]%lookup_delete_Some. by eapply Hc3.
  - intros q x. simpl. rewrite Hq. intros [_ Hx]%lookup_delete_Some. by eapply Hc4.
Qed.

(** The end of a connection: descriptor, state and holder. *)
Lemma release_run (o : objects P) (w : W) p h :
  consistent (o, w) → holders o !! p = Some h →
  ∃ o', (fd ← getFileDescriptor p; _ ← sys (close fd); q ← getPeerState p;
         _ ← delete_peer q; delete_holder p) (o, w)
        = (Done (), (o', (close (fd_ h) w).2))
    ∧ holders o' = delete p (holders o) ∧ peers o' = delete (peer_state_ h) (peers o).
Proof.
  intros (Hc1&Hc2&Hc3&Hc4) Hp. destruct (Hc2 p h Hp) as [x Hx]. simpl in Hx.
  eexists (mkObjects (delete p (holders o)) (delete (peer_state_ h) (peers o))).
  split; [|done]. unfold mbind, io_bind. rewrite (getFileDescriptor_Done p h) by done.
  unfold sys. destruct (close (fd_ h) w) as [r w1]. rewrite (getPeerState_Done p h) by done.
  unfold delete_peer, delete_holder, get_objects, put_objects, mbind, io_bind.
  rewrite Hx. simpl. by rewrite Hp.
Qed.

Lemma on_ready_safe loop cb p s :
  (∀ f, cb = Some f → tame f) → consistent s → live p s →
  safe (on_ready loop cb p) s (λ _ s', keeps s s' ∧ keeps_others p s s').
Proof.
  intros Ht Hc [h Hp]. unfold on_ready. apply safe_bind, invoke_safe; [done|done|by eexists|].
  intros st [o w] Hs. pose proof Hs as (Hh&_&_).
  pose proof (same_shape_consistent _ _ Hs Hc) as Hc'.
  assert (holders o !! p = Some h) as Hp' by by rewrite <- Hp, <- Hh.
  cbn zeta. destruct (event_mask st =? 0).
  - destruct (release_run o w p h Hc' Hp') as (o'&Hrun&Hho&Hpo). unfold safe. rewrite Hrun. simpl.
    pose proof (close_removes (fd_ h) w) as Hi. split; [split|].
    + by eapply delete_holder_consistent.
    + intros Htight%(same_shape_tight _ _ Hs). by eapply delete_tight.
    + intros p' Hne. unfold live. simpl. rewrite Hho. simpl in Hh. rewrite Hh.
      by rewrite lookup_delete_ne.
  - eapply safe_Done_bind; [by apply getFileDescriptor_Done|]. unfold modifyEventForPeer.
    eapply epoll_ctl_safe; [done|done|done|done|].
    intros w' Hcw Hi. split; [split; [done|]|].
    + intros Htight%(same_shape_tight _ _ Hs). by eapply modify_tight.
    + intros p' _. unfold live. simpl. simpl in Hh. by rewrite Hh.
Qed.

(** The callbacks of a loop. *)
Definition all_tame (loop : AsyncEpollEventLoop (W := W) (P := P)) : Prop :=
  ∀ f, Some f ∈ [on_accept_callback_ loop; on_read_callback_ loop; on_write_callback_ loop] →
  tame f.

Lemma on_event_safe loop peer e s :
  peer_ok peer → all_tame loop → consistent s → live (data_ptr e) s →
  safe (on_event loop peer e) s (λ _ s', keeps s s' ∧ keeps_others (data_ptr e) s s').
Proof.
  intros Hpeer Ht Hc Hl. pose proof Hl as [h Hp]. destruct s as [o w]. unfold on_event.
  eapply safe_Done_bind; [by apply getFileDescriptor_Done|].
  destruct (fd_ h =? socket_descriptor (socket_ loop)).
  { apply on_accept_safe; [done| |done]. intros f Hf. apply Ht. rewrite Hf. set_solver. }
  destruct (negb _).
  { apply on_ready_safe; [|done..]. intros f Hf. apply Ht. rewrite Hf. set_solver. }
  destruct (negb _).
  { apply on_ready_safe; [|done..]. intros f Hf. apply Ht. rewrite Hf. set_solver. }
  apply safe_ret. split; [by apply same_shape_keeps|apply keeps_others_world].
Qed.

Lemma on_events_safe loop peer es s :
  peer_ok peer → all_tame loop → consistent s → NoDup (data_ptr <$> es) →
  Forall (λ e, live (data_ptr e) s) es →
  safe (on_events loop peer es) s (λ _ s', keeps s s').
Proof.
  intros Hpeer Ht. revert s. induction es as [|e es IH]; intros s Hc Hnd Hl; [by split|]. csimpl in *.
  apply NoDup_cons in Hnd as [Hne Hnd]. apply Forall_cons in Hl as [He Hl].
  apply safe_bind. eapply safe_mono; [by apply on_event_safe|].
  intros [] s' [Hks Hk]. apply (safe_mono _ _ (λ _, keeps s')); [|intros [] s''; by apply keeps_trans].
  apply IH; [apply Hks|done|]. rewrite Forall_forall in Hl |- *.
  intros e' He'. apply Hk; [|by apply Hl]. intros Heq. apply Hne. rewrite <- Heq.
  by apply list_elem_of_fmap_2.
Qed.

(** The pointers of a batch are those of different live holders. *)
Lemma batch_holders (s : state) fds es :
  consistent s → NoDup fds →
  Forall2 (λ fd e, ∃ ev, interest s.2 !! fd = Some (ev, data_ptr e)) fds es →
  NoDup (data_ptr <$> es) ∧ Forall (λ e, live (data_ptr e) s) es.
Proof.
  intros (Hc1&_&_) Hnd Hall. induction Hall as [|fd e fds es [ev He] Hall IH].
  { by split; constructor. }
  apply NoDup_cons in Hnd as [Hfd Hnd]. destruct (IH Hnd) as [IH1 IH2]. csimpl.
  destruct (Hc1 _ _ _ He) as (h&Hh&Hfdh). split.
  - apply NoDup_cons. split; [|done]. intros (e'&Heq&He')%list_elem_of_fmap.
    apply list_elem_of_lookup in He' as [i Hi].
    destruct (Forall2_lookup_r _ _ _ _ _ Hall Hi) as (fd'&Hfd'&ev'&Hin).
    destruct (Hc1 _ _ _ Hin) as (h'&Hh'&Hfdh'). rewrite <- Heq in Hh'. simplify_eq.
    apply Hfd. by apply list_elem_of_lookup_2 in Hfd'.
  - constructor; [by exists h|done].
Qed.

Lemma startEventloop_safe fuel loop peer s :
  peer_ok peer → all_tame loop → consistent s →
  safe (startEventloop fuel loop peer) s (λ _ s', keeps s s').
Proof.
  intros Hpeer Ht. revert s. induction fuel as [|fuel IH]; intros [o w] Hc; [done|].
  simpl. apply safe_sys_bind.
  destruct (epoll_wait _ _ _ w) as [[r es] w1] eqn:Hw. cbn [fst snd].
  destruct (epoll_wait_batch _ _ _ _ _ _ _ Hw) as [Hi Hb].
  assert (consistent (o, w1)) as Hc1 by by eapply world_consistent.
  assert (keeps (o, w) (o, w1)) as Hk1 by by apply same_shape_keeps.
  destruct (r =? 0); [done|]. apply safe_bind. unfold epollErrorHandler_.
  destruct (Z.ltb_spec r 0); [by apply safe_throw|]. apply safe_ret.
  destruct Hb as (->&fds&Hnd&Hall); [done|]. rewrite Nat2Z.id, firstn_all.
  apply safe_bind. destruct (batch_holders (o, w1) fds es) as [Hp Hl]; [done|done| |].
  { simpl. by rewrite Hi. }
  eapply safe_mono; [by apply on_events_safe|]. intros [] s' Hk2.
  eapply safe_mono; [apply IH, Hk2|]. intros [] s'' Hk3. by do 2 (eapply keeps_trans; [done|]).
Qed.

(** A call that leaves the watch list alone. *)
Lemma safe_keep_bind {A B} (f : W → A * W) (g : A → act B) o w Q :
  interest (f w).2 = interest w → consistent (o, w) →
  (∀ a w', interest w' = interest w → consistent (o, w') → safe (g a) (o, w') Q) →
  safe (sys f ≫= g) (o, w) Q.
Proof.
  intros Hk Hc Hg. apply safe_sys_bind, Hg; [done|]. by eapply world_consistent.
Qed.

Lemma close_consistent fd (o : objects P) (w : W) :
  consistent (o, w) → consistent (o, (close fd w).2).
Proof.
  intros (Hc1&Hc2&Hc3&Hc4). split_and!; [|done..]. simpl. rewrite close_removes.
  intros fd' ev p [_ Hl]%lookup_delete_Some. by eapply Hc1.
Qed.

Lemma safe_with_socket {A} sk (m : act A) s Q : safe m s Q → safe (with_socket sk m) s Q.
Proof.
  unfold safe, with_socket, Socket_destroy, sys, mbind, io_bind.
  destruct (m s) as [[a|e| | |] [o w]]; simpl; auto.
  intros Hc%(close_consistent (_file_des sk)). by destruct (close _ w).
Qed.

Lemma AsyncEpollEventLoop_new_safe address port n backlog timeout peer w :
  interest w = ∅ → peer_ok peer →
  safe (AsyncEpollEventLoop_new address port n backlog timeout peer) (mkObjects ∅ ∅, w)
    (λ loop s, consistent s ∧ tight s ∧ on_accept_callback_ loop = None
               ∧ on_read_callback_ loop = None ∧ on_write_callback_ loop = None).
Proof.
  intros Hi Hpeer. unfold AsyncEpollEventLoop_new.
  assert (consistent (mkObjects ∅ ∅ : objects P, w)) as Hc.
  { unfold consistent, peers_ok. simpl. rewrite Hi. split_and!; intros *; rewrite lookup_empty; done. }
  apply safe_bind. unfold Socket_new, m_create_socket, err_check.
  apply safe_keep_bind; [apply inet_pton_watch|done|]. intros okp w1 Hw1 Hc1.
  apply safe_keep_bind; [apply socket_watch|done|]. intros fd w2 Hw2 Hc2.
  apply safe_bind. destruct (fd <? 0); [by apply safe_exit|]. apply safe_ret, safe_ret.
  apply safe_with_socket.
  apply safe_bind. unfold makeSocketNonBlocking, make_nonblocking.
  apply safe_keep_bind; [apply getfl_keeps|done|]. intros flags w3 Hw3 Hc3.
  destruct (flags =? -1); [by apply safe_throw|].
  apply safe_keep_bind; [apply setfl_keeps|done|]. intros ret w4 Hw4 Hc4.
  destruct (ret =? -1); [by apply safe_throw|]. apply safe_ret.
  apply safe_bind. unfold bindSock, m_listen_socket, err_check. simpl.
  apply safe_keep_bind; [apply bind_keeps|done|]. intros r5 w5 Hw5 Hc5.
  apply safe_bind. destruct (r5 <? 0); [by apply safe_exit|]. apply safe_ret.
  apply safe_keep_bind; [apply listen_keeps|done|]. intros r6 w6 Hw6 Hc6.
  destruct (r6 <? 0); [by apply safe_exit|]. apply safe_ret.
  apply safe_keep_bind; [apply epoll_create1_keeps|done|]. intros ep w7 Hw7 Hc7.
  apply safe_bind. unfold epollErrorHandler_ at 1.
  destruct (ep <? 0); [by apply safe_throw|]. apply safe_ret.
  destruct (new_holder_run fd peer (mkObjects ∅ ∅) w7) as (p&o&Hrun&Hp&Ho&Hq).
  eapply safe_Done_bind; [exact Hrun|].
  assert (consistent (o, w7)) as Hc8 by by eapply new_holder_consistent.
  apply safe_bind. unfold epollAddToWatchlist.
  eapply (epoll_ctl_safe EPOLL_CTL_ADD); [done|done|by rewrite Ho, lookup_insert_eq|done|].
  intros w8 Hc9 Hw8. apply safe_keep_bind; [apply calloc_keeps|done|]. intros ok w9 Hw9 Hc10.
  destruct (negb ok); [by apply safe_throw|]. apply safe_ret. split; [done|]. split; [|done].
  assert (interest w7 = ∅) as Hi7 by congruence.
  eapply (add_tight (mkObjects ∅ ∅) o w7 w9); [|exact Hp|by rewrite Hi7|exact Ho| |].
  - split; simpl; intros *; rewrite lookup_empty; [done|by intros [? ?]].
  - by rewrite Hq, dom_insert_L.
  - by rewrite Hw9, Hw8.
Qed.

(** The life of a loop: construction, the three callbacks, the run. *)
Definition event_loop_run fuel address port n backlog timeout peer
    (on_r on_w on_a : HandlerCallbackType (W := W) (P := P)) : act () :=
  loop ← AsyncEpollEventLoop_new address port n backlog timeout peer;
  let loop := registerCallbackForEvent loop on_r ReadEvent in
  let loop := registerCallbackForEvent loop on_w WriteEvent in
  let loop := registerCallbackForEvent loop on_a AcceptEvent in
  startEventloop fuel loop peer.

Lemma event_loop_run_safe fuel address port n backlog timeout peer on_r on_w on_a w :
  interest w = ∅ → peer_ok peer → tame on_r → tame on_w → tame on_a →
  safe (event_loop_run fuel address port n backlog timeout peer on_r on_w on_a)
    (mkObjects ∅ ∅, w) (λ _ s, consistent s ∧ tight s).
Proof.
  intros Hi Hpeer Hr Hw Ha. apply safe_bind.
  eapply safe_mono; [by apply AsyncEpollEventLoop_new_safe|].
  intros loop s (Hc&Ht&_). eapply safe_mono; [apply startEventloop_safe; [done| |done]|].
  - intros f. simpl. rewrite !elem_of_cons.
    intros [[= ->]|[[= ->]|[[= ->]|?%not_elem_of_nil]]]; done.
  - intros [] s' [Hc' Ht']. split; [done|by apply Ht'].
Qed.

(** C16: The loop never touches an object that is gone, and never releases one
    twice, whatever the system reports and the callbacks ask for: with callbacks
    that leave the objects to the loop, every run from the constructor on is
    defined, and every watched descriptor leads to its live holder and state,
    also after an exception. *)
Theorem event_loop_memory_safe fuel address port n backlog timeout peer on_r on_w on_a w :
  interest w = ∅ → peer_ok peer → tame on_r → tame on_w → tame on_a →
  let run := event_loop_run fuel address port n backlog timeout peer on_r on_w on_a
    (mkObjects ∅ ∅, w) in
  is_undefined run.1 = false ∧ consistent run.2.
Proof.
  intros Hi Hpeer Hr Hw Ha run.
  pose proof (event_loop_run_safe fuel address port n backlog timeout peer on_r on_w on_a w
    Hi Hpeer Hr Hw Ha) as Hs.
  unfold safe in Hs. fold run in Hs. destruct run as [[[]| | | |] s']; try done.
  split; [done|apply Hs].
Qed.

(** C17: The loop loses no object: when a run from the constructor on returns, the
    holders are those of the watched descriptors, one for each, and the peer
    states those of the holders; a connection that ended took both objects and
    its descriptor with it. *)
Theorem event_loop_no_leak fuel address port n backlog timeout peer on_r on_w on_a w s :
  interest w = ∅ → peer_ok peer → tame on_r → tame on_w → tame on_a →
  event_loop_run fuel address port n backlog timeout peer on_r on_w on_a
    (mkObjects ∅ ∅, w) = (Done (), s) →
  (∀ fd p, (∃ ev, interest s.2 !! fd = Some (ev, p)) ↔
           ∃ h, holders s.1 !! p = Some h ∧ fd_ h = fd)
  ∧ (∀ q, is_Some (peers s.1 !! q) ↔ ∃ p h, holders s.1 !! p = Some h ∧ peer_state_ h = q).
Proof.
  intros Hi Hpeer Hr Hw Ha Hrun.
  pose proof (event_loop_run_safe fuel address port n backlog timeout peer on_r on_w on_a w
    Hi Hpeer Hr Hw Ha) as Hs.
  unfold safe in Hs. rewrite Hrun in Hs. destruct Hs as [(Hc1&Hc2&_&_) [Ht1 Ht2]]. simpl in *.
  split.
  - intros fd p. split; [intros [ev Hev]; by eapply Hc1|].
    intros (h&Hp&<-). by apply Ht1.
  - intros q. split; [apply Ht2|]. intros (p&h&Hp&<-). by eapply Hc2.
Qed.

(** *** The callbacks *)

(** A ready connection runs the callback that was registered for the other
    direction: what is registered for [ReadEvent] runs when the descriptor can
    be written, what is registered for [WriteEvent] when it can be read. *)
Theorem registered_callbacks_swapped loop r w peer e h (o : objects P) (wd : W) :
  let loop' := registerCallbackForEvent (registerCallbackForEvent loop r ReadEvent)
                 w WriteEvent in
  holders o !! data_ptr e = Some h → fd_ h ≠ socket_descriptor (socket_ loop) →
  on_event loop' peer e (o, wd) =
    (if Z.testbit (events e) 0 then on_ready loop' (Some w) (data_ptr e) (o, wd)
     else if Z.testbit (events e) 2 then on_ready loop' (Some r) (data_ptr e) (o, wd)
     else (Done (), (o, wd))).
Proof.
  intros loop' Hh Hfd. unfold on_event, mbind, io_bind.
  rewrite (getFileDescriptor_Done _ h) by done.
  replace (fd_ h =? socket_descriptor (socket_ loop')) with false by (symmetry; by apply Z.eqb_neq).
  assert (∀ n, 0 <= n → negb (Z.land (events e) (2 ^ n) =? 0) = Z.testbit (events e) n) as Hbit.
  { intros n Hn. destruct (Z.testbit (events e) n) eqn:Hb.
    - apply negb_true_iff, Z.eqb_neq. intros Hz. apply (f_equal (λ z, Z.testbit z n)) in Hz.
      rewrite Z.land_spec, Hb, Z.pow2_bits_true, Z.bits_0 in Hz by done. done.
    - apply negb_false_iff, Z.eqb_eq, Z.bits_inj'. intros k Hk.
      rewrite Z.land_spec, Z.bits_0. destruct (decide (n = k)) as [<-|Hne]; [by rewrite Hb|].
      by rewrite Z.pow2_bits_false, andb_false_r. }
  change EPOLLIN with (2 ^ 0). change EPOLLOUT with (2 ^ 2). rewrite (Hbit 0), (Hbit 2) by done.
  by destruct (Z.testbit (events e) 0), (Z.testbit (events e) 2).
Qed.

(** What follows from the answer of a callback: without an interest the
    descriptor is closed and no longer watched and both objects are gone, else
    the descriptor is watched for what was asked. *)
Theorem on_ready_spec loop f p h o w st o1 w1 :
  f p (o, w) = (Done st, (o1, w1)) → tame f → consistent (o, w) →
  holders o !! p = Some h →
  if want_read st || want_write st then
    ∃ r w2, epoll_ctl (epoll_fd_ loop) EPOLL_CTL_MOD (fd_ h) (mkEvent (event_mask st) p) w1
            = (r, w2)
      ∧ on_ready loop (Some f) p (o, w)
        = (if r <? 0 then Throw runtime_error else Done (), (o1, w2))
      ∧ (0 <= r → interest w2 !! fd_ h = Some (event_mask st, p))
  else
    ∃ o2 w2, on_ready loop (Some f) p (o, w) = (Done (), (o2, w2))
      ∧ holders o2 = delete p (holders o) ∧ dom (peers o2) = dom (peers o) ∖ {[peer_state_ h]}
      ∧ interest w2 = delete (fd_ h) (interest w).
Proof.
  intros Hf Ht Hc Hp. destruct (Ht p (o, w) Hc) as [_ Hs]; [by exists h|].
  rewrite Hf in Hs. pose proof (same_shape_consistent _ _ Hs Hc) as Hc1.
  destruct Hs as (Hh&Hd&Hi&_). simpl in Hh, Hd, Hi.
  assert (holders o1 !! p = Some h) as Hp1 by by rewrite Hh.
  assert (on_ready loop (Some f) p (o, w) =
    (let events := event_mask st in
     if events =? 0 then
       fd ← getFileDescriptor p; _ ← sys (close fd); q ← getPeerState p;
       _ ← delete_peer q; delete_holder p
     else fd ← getFileDescriptor p; modifyEventForPeer loop fd p events) (o1, w1)) as ->.
  { unfold on_ready, invoke. unfold mbind at 1, io_bind at 1. by rewrite Hf. }
  cbn zeta. destruct (want_read st || want_write st) eqn:Hwant.
  - replace (event_mask st =? 0) with false.
    2:{ unfold event_mask. destruct (want_read st), (want_write st); done. }
    unfold mbind, io_bind. rewrite (getFileDescriptor_Done p h) by done.
    unfold modifyEventForPeer, sys, epollErrorHandler_, mbind, io_bind.
    destruct (epoll_ctl _ _ _ _ _) as [r w2] eqn:Hctl. exists r, w2. split; [done|].
    split; [by destruct (r <? 0)|]. intros Hr.
    pose proof (epoll_ctl_done _ _ _ _ _ _ _ Hctl Hr) as [_ ->]. by rewrite lookup_insert_eq.
  - replace (event_mask st) with 0.
    2:{ unfold event_mask. destruct (want_read st), (want_write st); done. }
    destruct (release_run o1 w1 p h Hc1 Hp1) as (o2&Hrun&Hho&Hpo).
    exists o2, (close (fd_ h) w1).2. rewrite Z.eqb_refl, close_removes.
    split; [exact Hrun|]. rewrite Hho, Hpo, Hh, dom_delete_L, Hd, Hi. done.
Qed.
End safety.

(** ** The transfer of bytes *)
Section transfer.
Context `{Allocator} {W P : Type} `{System W} `{!SystemLaws W} `{SocketSystem W} `{EpollSystem W}.

Lemma mem_write_holds m i d :
  0 <= i → i + Z.of_nat (length d) <= Z.of_nat (length m) →
  ∃ m', mem_write m i (init d) = Done m' ∧ length m' = length m ∧ holds m' i d.
Proof.
  intros Hi Hl. unfold mem_write. rewrite length_init. bool_lia. eexists. split; [done|].
  split; [rewrite !length_app, length_init, length_take, length_drop; lia|].
  exists (take (Z.to_nat i) m), (drop (Z.to_nat i + length d) m).
  rewrite length_take. split; [done|lia].
Qed.

(** C25: [writeToPeer] on every branch, for a content whose length an [int] can
    hold. After a [send] that took anything, however little, the buffer is empty and
    the number of its bytes is returned: bytes the system did not take are
    lost. *)
Theorem writeToPeer_spec p h (o : objects P) (w : W) b l :
  holders o !! p = Some h → repr b l → Z.of_nat (length l) < 2 ^ 31 →
  writeToPeer p None (o, w) = (Throw runtime_error, (o, w))
  ∧ let '(z, w1) := send (fd_ h) l w in
    if decide (l = []) then writeToPeer p (Some b) (o, w) = (Done (0, Some b), (o, w))
    else if to_int32 z <? 0 then
      writeToPeer p (Some b) (o, w)
      = (if would_block w1 then Done (0, Some b) else Throw runtime_error, (o, w1))
    else ∃ b', writeToPeer p (Some b) (o, w)
               = (Done (Z.of_nat (length l), Some b'), (o, w1)) ∧ repr b' [].
Proof.
  intros Hp Hr Hmax. unfold writeToPeer, mbind, io_bind. rewrite (getPeerState_Done p h) by done.
  split; [done|]. destruct (send (fd_ h) l w) as [z w1] eqn:Hsend.
  rewrite (repr_datasize b l Hr). case_decide as Hl; [by subst|].
  assert (0 < Z.of_nat (length l)) as Hpos by (destruct l; [done|simpl; lia]).
  replace (Z.of_nat (length l) =? 0) with false by (symmetry; lia).
  rewrite (getFileDescriptor_Done p h) by done.
  pose proof (consume_repr b l (Z.of_nat (length l)) Hr ltac:(lia) Hmax) as Hb.
  rewrite Nat2Z.id, drop_all in Hb. destruct Hr as (m&Hm&_&_&Hh&_). rewrite Hm.
  unfold lift, sys. simpl deref. cbv beta iota. rewrite (holds_slice _ _ l) by done.
  cbv beta iota. rewrite cells_chars_init. cbv beta iota. rewrite Hsend.
  destruct (Z.ltb_spec (to_int32 z) 0).
  - unfold get, throw. simpl. by destruct (would_block w1).
  - eexists. rewrite to_int32_small by lia. split; [done|]. exact Hb.
Qed.

(** C26: [readFromPeer] on every branch, for a capacity that an [int] can hold.
    What is received is written over the front of what the buffer holds, and the
    buffer grows by as many cells at its end: only an empty buffer then holds
    exactly the bytes received. *)
Theorem readFromPeer_spec p h (o : objects P) (w : W) b l :
  holders o !! p = Some h → repr b l → capacity_ b < 2 ^ 31 →
  readFromPeer p None (o, w) = (Throw runtime_error, (o, w))
  ∧ if getAvailableSpace b =? 0 then readFromPeer p (Some b) (o, w) = (Done (0, Some b), (o, w))
    else let '(got, w1) := recv (fd_ h) (getAvailableSpace b) w in
    match got with
    | RecvError _ =>
        readFromPeer p (Some b) (o, w)
        = (if would_block w1 then Done (0, Some b) else Throw runtime_error, (o, w1))
    | Received d =>
        ∃ b' m', readFromPeer p (Some b) (o, w)
                 = (Done (Z.of_nat (length d), Some b'), (o, w1))
          ∧ internal_buffer_ b' = Some m' ∧ holds m' (start_offset_ b') d
          ∧ start_offset_ b' = start_offset_ b
          ∧ getDataSize b' = Z.of_nat (length l + length d)
          ∧ (l = [] → repr b' d)
    end.
Proof.
  intros Hp Hr Hcap. split; [done|]. pose proof (repr_bounds _ _ Hr) as Hbd.
  unfold readFromPeer, mbind, io_bind. rewrite (wf_available b) by by eapply repr_wf.
  pose proof Hr as (m&Hm&Hlm&Hc&Hh&He). apply holds_nonneg in Hh as Hs0.
  destruct (Z.eqb_spec (capacity_ b - end_offset_ b) 0) as [Ha|Ha]; [done|].
  rewrite (getFileDescriptor_Done p h), Hm by done. unfold lift, sys. simpl deref. cbv beta iota.
  destruct (recv _ _ w) as [[c|d] w1] eqn:Hrecv.
  { unfold get, throw. simpl. by destruct (would_block w1). }
  apply recv_bound in Hrecv; [|lia].
  destruct (mem_write_holds m (start_offset_ b) d) as (m'&->&Hl'&Hd); [done|lia|].
  rewrite to_int32_small by lia. cbn zeta. bool_lia. unfold mret, io_ret.
  eexists _, m'. split; [reflexivity|]. simpl. split; [done|]. split; [done|]. split; [done|].
  unfold getDataSize. simpl. rewrite to_int32_small, (size_t_small (end_offset_ b + _)) by lia.
  split; [rewrite size_t_small; lia|]. intros ->. exists m'. simpl.
  rewrite to_int32_small, size_t_small by lia. simpl in He. split_and!; try done; lia.
Qed.
End transfer.

(** ** A server over the loop

    The peer's state is its buffer, as in tests/test-concurrency: a callback that
    reads into it and sends back what came. It keeps every buffer well formed
    and leaves the objects to the loop, so the theorems on runs apply to it. *)
Section echo.
Context `{Allocator} {W : Type} `{System W} `{!SystemLaws W} `{SocketSystem W} `{EpollSystem W}
  `{!EpollLaws W}.
Abbreviation act := (act (W := W) (P := IOBuffer)).

Definition load_peer (q : N) : act IOBuffer :=
  o ← get_objects;
  match peers o !! q with Some b => mret b | None => lift (Undefined DanglingPointer) end.
Definition store_peer (q : N) (b : option IOBuffer) : act () :=
  o ← get_objects;
  b ← lift (deref b);
  match peers o !! q with
  | Some _ => put_objects (mkObjects (holders o) (<[q := b]> (peers o)))
  | None => lift (Undefined DanglingPointer)
  end.

Definition echo : HandlerCallbackType (W := W) (P := IOBuffer) := λ p,
  q ← getPeerState p;
  b ← load_peer q;
  r ← readFromPeer p (Some (clear b));
  r ← writeToPeer p r.2;
  _ ← store_peer q r.2;
  mret WantNoReadWrite.

Definition buffer_ok (b : IOBuffer) : Prop := ∃ l, repr b l ∧ 0 < capacity_ b < 2 ^ 31.

(** What the transfers do to a buffer: its block keeps its size, and the calls
    keep the watch list. *)
Lemma readFromPeer_ok p h (o : objects IOBuffer) (w : W) b :
  holders o !! p = Some h → repr b [] → start_offset_ b = 0 → 0 < capacity_ b < 2 ^ 31 →
  ∃ w', interest w' = interest w ∧
    ((readFromPeer p (Some b) (o, w) = (Throw runtime_error, (o, w')))
     ∨ ∃ z b' d, readFromPeer p (Some b) (o, w) = (Done (z, Some b'), (o, w'))
         ∧ repr b' d ∧ capacity_ b' = capacity_ b).
Proof.
  intros Hp Hr Hs Hc. unfold readFromPeer, mbind, io_bind.
  pose proof (repr_bounds _ _ Hr) as Hb. simpl in Hb.
  rewrite (wf_available b) by by eapply repr_wf. bool_lia.
  pose proof Hr as (m&Hm&Hlm&_&Hh&_).
  rewrite (getFileDescriptor_Done p h), Hm by done. unfold lift, sys. simpl deref. cbv beta iota.
  pose proof (recv_keeps (fd_ h) (capacity_ b - end_offset_ b) w) as Hw.
  destruct (recv _ _ w) as [[c|d] w1] eqn:Hrecv; simpl in Hw; exists w1; (split; [done|]).
  { unfold get, throw. simpl. destruct (would_block w1); [|by left].
    right. by exists 0, b, []. }
  right. apply recv_bound in Hrecv; [|lia].
  destruct (mem_write_holds m (start_offset_ b) d) as (m'&->&Hl'&Hd); [lia|lia|].
  rewrite to_int32_small by lia. cbn zeta. bool_lia.
  unfold mret, io_ret. do 3 eexists. split; [reflexivity|]. split; [|done].
  exists m'. simpl. rewrite to_int32_small, size_t_small by lia. split_and!; try done; lia.
Qed.

Lemma writeToPeer_ok p h (o : objects IOBuffer) (w : W) b d :
  holders o !! p = Some h → repr b d → capacity_ b < 2 ^ 31 →
  ∃ w', interest w' = interest w ∧
    ((writeToPeer p (Some b) (o, w) = (Throw runtime_error, (o, w')))
     ∨ ∃ z b' l, writeToPeer p (Some b) (o, w) = (Done (z, Some b'), (o, w'))
         ∧ repr b' l ∧ capacity_ b' = capacity_ b).
Proof.
  intros Hp Hr Hc. pose proof (repr_bounds _ _ Hr) as Hb.
  unfold writeToPeer, mbind, io_bind. rewrite (getPeerState_Done p h) by done.
  rewrite (repr_datasize b d Hr). destruct (Z.eqb_spec (Z.of_nat (length d)) 0) as [Hl|Hl].
  { exists w. split; [done|]. right. by exists 0, b, d. }
  rewrite (getFileDescriptor_Done p h) by done.
  pose proof (consume_repr b d (Z.of_nat (length d)) Hr ltac:(lia) ltac:(lia)) as Hb'.
  pose proof Hr as (m&Hm&_&_&Hh&_). rewrite Hm.
  unfold lift, sys. simpl deref. cbv beta iota. rewrite (holds_slice _ _ d) by done.
  cbv beta iota. rewrite cells_chars_init. cbv beta iota.
  pose proof (send_keeps (fd_ h) d w) as Hw. destruct (send _ _ w) as [z w1]. simpl in Hw.
  rewrite (to_int32_small (Z.of_nat (length d))) by lia. exists w1. split; [done|]. destruct (to_int32 z <? 0).
  - unfold get, throw. simpl. destruct (would_block w1); [right|by left].
    by exists 0, b, d.
  - right. unfold mret, io_ret. do 3 eexists. split; [reflexivity|]. split; [exact Hb'|done].
Qed.

Lemma echo_tame : tame buffer_ok echo.
Proof.
  intros p [o w] (_&Hc2&_&Hok) [h Hp]. simpl in Hp. destruct (Hc2 p h Hp) as [b Hb].
  simpl in Hb. destruct (Hok _ _ Hb) as (l&Hr&Hcap). apply clear_repr in Hr.
  unfold echo. rewrite (io_bind_Done _ _ _ _ _ (getPeerState_Done p h o w Hp)).
  unfold load_peer. rewrite (io_bind_Done _ _ _ b (o, w)).
  2:{ unfold get_objects, mbind, io_bind. by rewrite Hb. }
  destruct (readFromPeer_ok p h o w (clear b) Hp Hr eq_refl Hcap)
    as (w1&Hw1&[Hrun|(z&b1&d&Hrun&Hr1&Hc1)]).
  { unfold mbind, io_bind. rewrite Hrun. by repeat split. }
  rewrite (io_bind_Done _ _ _ _ _ Hrun). cbn [snd].
  destruct (writeToPeer_ok p h o w1 b1 d Hp Hr1) as (w2&Hw2&[Hrun2|(z2&b2&l2&Hrun2&Hr2&Hcb2)]);
    [simpl in Hc1; lia|..].
  { unfold mbind, io_bind. rewrite Hrun2. simpl. split; [done|]. repeat split; try done.
    simpl. congruence. }
  rewrite (io_bind_Done _ _ _ _ _ Hrun2).
  unfold store_peer, get_objects, put_objects, lift, mbind, io_bind, mret, io_ret.
  simpl. rewrite Hb. simpl. split; [done|]. unfold same_shape. split_and!; simpl; [done| |congruence|].
  - rewrite dom_insert_L. apply elem_of_dom_2 in Hb. set_solver.
  - intros _ q x. simpl. intros [[_ <-]|[_ Hx]]%lookup_insert_Some; [|by eapply Hok].
    exists l2. simpl in Hc1. split; [done|lia].
Qed.

(** Every run of the server is defined and loses no object, whatever the system
    does, for a buffer size that fits an [int]. *)
Lemma echo_server_safe fuel address port n backlog timeout size w :
  interest w = ∅ → 0 < size < 2 ^ 31 →
  let run := event_loop_run fuel address port n backlog timeout (new_buffer size)
    echo echo (λ _, mret WantRead) (mkObjects ∅ ∅, w) in
  is_undefined run.1 = false ∧ consistent buffer_ok run.2
  ∧ (run.1 = Done () → tight run.2).
Proof.
  intros Hi Hsize run.
  pose proof (event_loop_run_safe buffer_ok fuel address port n backlog timeout
    (new_buffer size) echo echo (λ _, mret WantRead) w Hi) as Hs.
  assert (buffer_ok (new_buffer size)) as Hok.
  { exists []. split; [|done]. apply new_buffer_repr. unfold size_max. lia. }
  specialize (Hs Hok echo_tame echo_tame). unfold safe in Hs. fold run in Hs.
  assert (tame buffer_ok (λ _ : N, mret WantRead : act FDStatus)) as Ht by done.
  specialize (Hs Ht). destruct run as [[[]| | | |] s]; try done. by destruct Hs.
Qed.
End echo.

(** ** A concrete system

    A world with the interest list, the descriptors that will be ready, one for
    each batch, and the bytes the peers send. *)
Record toy_world := mkToy {
  watched : gmap Z (Z * N);
  script : list Z;
  wire : list (list ascii)
}.

Definition toy_new_fd (w : toy_world) : Z :=
  Z.of_N (fresh (set_map Z.to_N (dom (watched w)) : gset N)).
Definition toy_recv (n : Z) (w : toy_world) : received * toy_world :=
  match wire w with
  | [] => (Received [], w)
  | d :: ds => (Received (take (Z.to_nat n) d), mkToy (watched w) (script w) ds)
  end.
Definition toy_ctl (op : ctl_op) (fd : Z) (e : epoll_event) (w : toy_world) : Z * toy_world :=
  let put_it := mkToy (<[fd := (events e, data_ptr e)]> (watched w)) (script w) (wire w) in
  match op, watched w !! fd with
  | EPOLL_CTL_ADD, None | EPOLL_CTL_MOD, Some _ => (0, put_it)
  | EPOLL_CTL_DEL, Some _ => (0, mkToy (delete fd (watched w)) (script w) (wire w))
  | _, _ => (-1, w)
  end.
Definition toy_wait (w : toy_world) : (Z * list epoll_event) * toy_world :=
  match script w with
  | [] => ((0, []), w)
  | fd :: fds =>
      match watched w !! fd with
      | Some (_, p) => ((1, [mkEvent EPOLLIN p]), mkToy (watched w) fds (wire w))
      | None => ((0, []), mkToy (watched w) fds (wire w))
      end
  end.

Definition toy_system : System toy_world := {|
  gethostbyname _ w := (true, w); inet_pton _ w := (1, w);
  socket w := (3, w); connect _ _ w := (0, w);
  close fd w := (0, mkToy (delete fd (watched w)) (script w) (wire w));
  recv _ n w := toy_recv n w; send _ d w := (Z.of_nat (length d), w);
  system_time := {| time w := (0, w); localtime _ := None; mktime b := (0, b); strftime _ _ := [] |};
  wolfSSL_Init w := (1, w); wolfSSL_CTX_new w := (None, w);
  wolfSSL_CTX_load_verify_locations _ _ w := (0, w); wolfSSL_new _ w := (None, w);
  wolfSSL_set_fd _ _ w := (0, w); wolfSSL_connect _ w := (0, w);
  wolfSSL_read _ n w := toy_recv n w; wolfSSL_write _ _ n w := (n, w);
  wolfSSL_free _ w := ((), w); wolfSSL_CTX_free _ w := ((), w); wolfSSL_Cleanup w := (1, w)
|}.
Definition toy_sockets : SocketSystem toy_world := {|
  parsed_address _ := 0; bind _ _ w := (0, w); listen _ _ w := (0, w);
  accept _ w := ((toy_new_fd w, (mkSockaddr 2 0 0, sizeof_sockaddr_in)), w);
  setsockopt _ _ _ w := (0, w); fcntl_getfl _ w := (0, w); fcntl_setfl _ _ w := (0, w)
|}.
Definition toy_epoll : EpollSystem toy_world := {|
  epoll_create1 w := (9, w); epoll_ctl _ op fd e w := toy_ctl op fd e w;
  epoll_wait _ _ _ w := toy_wait w;
  calloc _ w := (true, w);
  would_block _ := true
|}.

#[local] Existing Instance total_alloc.
#[local] Existing Instance toy_system.
#[local] Existing Instance toy_sockets.
#[local] Existing Instance toy_epoll.

Lemma toy_recv_spec n w r w' :
  toy_recv n w = (r, w') → watched w' = watched w
  ∧ ∃ d, r = Received d ∧ (0 <= n → Z.of_nat (length d) <= n).
Proof.
  unfold toy_recv. destruct (wire w) as [|d ds]; intros [= <- <-].
  - split; [done|]. exists []. by split.
  - split; [done|]. eexists. split; [done|]. rewrite length_take. lia.
Qed.

#[local] Instance toy_system_laws : SystemLaws toy_world.
Proof.
  split; simpl.
  - intros _ n w d w' Hn (_&d'&[= <-]&Hd)%toy_recv_spec. by apply Hd.
  - by intros _ n w c w' (_&d'&?&_)%toy_recv_spec.
  - intros _ n w d w' Hn (_&d'&[= <-]&Hd)%toy_recv_spec. by apply Hd.
  - by intros _ n w c w' (_&d'&?&_)%toy_recv_spec.
Qed.

Lemma toy_new_fd_fresh w : watched w !! toy_new_fd w = None.
Proof.
  apply not_elem_of_dom. unfold toy_new_fd. intros Hin.
  apply (is_fresh (set_map Z.to_N (dom (watched w)) : gset N)).
  apply elem_of_map. eexists. split; [|exact Hin]. by rewrite N2Z.id.
Qed.

#[local] Instance toy_laws : EpollLaws toy_world.
Proof.
  refine {| interest := watched |}; try done.
  - intros ep op fd e w r w' Hc Hr. simpl in Hc. unfold toy_ctl in Hc.
    destruct op, (watched w !! fd) eqn:Hfd; simplify_eq; try done.
  - intros ep op fd e w r w' Hc Hr. simpl in Hc. unfold toy_ctl in Hc.
    destruct op, (watched w !! fd) eqn:Hfd; by simplify_eq.
  - intros ep n t w r es w' Hw. simpl in Hw. unfold toy_wait in Hw.
    destruct (script w) as [|fd fds]; [|destruct (watched w !! fd) as [[ev p]|] eqn:Hfd];
      simplify_eq; simpl; (split; [done|]); intros _; (split; [done|]).
    + exists []. split; constructor.
    + exists [fd]. split; [apply NoDup_singleton|]. constructor; [by eexists|constructor].
    + exists []. split; constructor.
  - intros fd w r a w' [= <- _ <-]. split; [done|]. intros _. apply toy_new_fd_fresh.
  - intros fd n w. simpl. destruct (toy_recv n w) as [r w1] eqn:Hr. simpl.
    by destruct (toy_recv_spec _ _ _ _ Hr).
Defined.

(** Callbacks: one that sends a greeting and ends the connection, and one that
    waits for input. *)
Definition greet : HandlerCallbackType (W := toy_world) (P := unit) := λ p,
  _ ← writeToPeer p (Some (buffer_of [chr 104; chr 105])); mret WantNoReadWrite.
Definition wait_input : HandlerCallbackType (W := toy_world) (P := unit) := λ p,
  mret WantRead.

Abbreviation any_peer := (λ _ : unit, True).

Lemma wait_input_tame : tame any_peer wait_input.
Proof. intros p s _ _. by split. Qed.

Lemma greet_tame : tame any_peer greet.
Proof.
  intros p [o w] _ [h Hp]. unfold greet, mbind, io_bind.
  destruct (writeToPeer_spec p h o w (buffer_of [chr 104; chr 105]) [chr 104; chr 105])
    as [_ Hw]; [done|by apply buffer_of_repr|done|].
  simpl in Hw. destruct Hw as (b'&->&_). by split.
Qed.

(** A connection arrives, is greeted when its bytes come, and is closed. *)
Definition toy_start : toy_world := mkToy ∅ [3; 4] [].

Lemma event_loop_memory_safe_witness :
  let run := event_loop_run 5 [] 8080 10 5 1000 tt greet greet wait_input
    (mkObjects ∅ ∅, toy_start) in
  run.1 = Done () ∧ map_to_list (watched run.2.2) = [(3, (1, 0%N))] ∧ consistent any_peer run.2.
Proof.
  intros run.
  destruct (event_loop_memory_safe any_peer 5 [] 8080 10 5 1000 tt greet greet wait_input toy_start)
    as [_ Hc]; [reflexivity|exact I|exact greet_tame|exact greet_tame|exact wait_input_tame|].
  split; [vm_compute; reflexivity|]. split; [vm_compute; reflexivity|exact Hc].
Defined.

(** The holder of the listening socket is the one that is left. *)
Lemma event_loop_no_leak_witness :
  let run := event_loop_run 5 [] 8080 10 5 1000 tt greet greet wait_input
    (mkObjects ∅ ∅, toy_start) in
  (∃ h, holders run.2.1 !! 0%N = Some h ∧ fd_ h = 3).
Proof.
  intros run.
  destruct (event_loop_no_leak any_peer 5 [] 8080 10 5 1000 tt greet greet wait_input toy_start run.2)
    as [Hh _]; [reflexivity|exact I|exact greet_tame|exact greet_tame|exact wait_input_tame| |].
  - vm_compute. reflexivity.
  - apply Hh. eexists. vm_compute. reflexivity.
Defined.

(** A loop with one connection, on descriptor 7. *)
Definition one_peer : objects unit :=
  mkObjects {[0%N := mkHolder 7 0]} {[0%N := tt]}.
Definition one_watched : toy_world := mkToy {[7 := (1, 0%N)]} [] [].
Definition toy_loop : AsyncEpollEventLoop (W := toy_world) (P := unit) :=
  mkLoop (mkSocket [] 8080 5 (Some Ipv4) 3 (Some Stream) None 16) 4 1000 10 true None None None.

Lemma one_peer_consistent : consistent any_peer (one_peer, one_watched).
Proof.
  split_and!; simpl.
  - intros fd ev p [<- [= <- <-]]%lookup_singleton_Some. by exists (mkHolder 7 0).
  - intros p h [<- <-]%lookup_singleton_Some. by eexists.
  - by intros p p' h h' [<- _]%lookup_singleton_Some [<- _]%lookup_singleton_Some.
  - done.
Qed.

Lemma registered_callbacks_swapped_witness :
  let loop' := registerCallbackForEvent (registerCallbackForEvent toy_loop greet ReadEvent)
                 wait_input WriteEvent in
  on_event loop' tt (mkEvent EPOLLIN 0) (one_peer, one_watched)
  = on_ready loop' (Some wait_input) 0%N (one_peer, one_watched).
Proof.
  intros loop'.
  refine (registered_callbacks_swapped toy_loop greet wait_input tt (mkEvent EPOLLIN 0)
    (mkHolder 7 0) one_peer one_watched _ _); [reflexivity|discriminate].
Defined.

Lemma on_ready_spec_witness :
  ∃ o2 w2, on_ready toy_loop (Some greet) 0%N (one_peer, one_watched) = (Done (), (o2, w2))
    ∧ holders o2 = delete 0%N (holders one_peer)
    ∧ dom (peers o2) = dom (peers one_peer) ∖ {[0%N]}
    ∧ watched w2 = delete 7 (watched one_watched).
Proof.
  refine (on_ready_spec any_peer toy_loop greet 0%N (mkHolder 7 0) one_peer one_watched
    WantNoReadWrite one_peer one_watched _ _ _ _).
  - vm_compute. reflexivity.
  - exact greet_tame.
  - exact one_peer_consistent.
  - reflexivity.
Defined.

Lemma writeToPeer_spec_witness :
  ∃ b', writeToPeer 0%N (Some (buffer_of [chr 104; chr 105])) (one_peer, one_watched)
        = (Done (2, Some b'), (one_peer, one_watched)) ∧ repr b' [].
Proof.
  destruct (writeToPeer_spec 0%N (mkHolder 7 0) one_peer one_watched
    (buffer_of [chr 104; chr 105]) [chr 104; chr 105]) as [_ Hw].
  - reflexivity.
  - apply buffer_of_repr. reflexivity.
  - reflexivity.
  - simpl in Hw. exact Hw.
Defined.

(** The bytes that were in the buffer are overwritten. *)
Definition old_buffer : IOBuffer :=
  mkIOBuffer (Some (init [chr 111; chr 108; chr 100] ++ replicate 5 None)) 0 3 8.
Definition sent_world : toy_world := mkToy {[7 := (1, 0%N)]} [] [[chr 110; chr 101; chr 119]].

Lemma readFromPeer_spec_witness :
  ∃ b' m' w', readFromPeer 0%N (Some old_buffer) (one_peer, sent_world)
           = (Done (3, Some b'), (one_peer, w'))
    ∧ internal_buffer_ b' = Some m' ∧ holds m' 0 [chr 110; chr 101; chr 119]
    ∧ getDataSize b' = 6.
Proof.
  destruct (readFromPeer_spec 0%N (mkHolder 7 0) one_peer sent_world old_buffer
    [chr 111; chr 108; chr 100]) as [_ Hr].
  - reflexivity.
  - eexists. split; [reflexivity|]. split_and!; [reflexivity|reflexivity| |reflexivity].
    apply (holds_intro [] [chr 111; chr 108; chr 100]).
  - reflexivity.
  - simpl in Hr. destruct Hr as (b'&m'&Hrun&Hm&Hh&Hs&Hd&_).
    exists b', m', (mkToy {[7 := (1, 0%N)]} [] []). rewrite Hs in Hh.
    split; [exact Hrun|]. split; [exact Hm|]. split; [exact Hh|exact Hd].
Defined.
